(* ===== verification/_CoqProject ===== *)
-Q . S2P
Prelude.v
Core.v
Proto.v
Storage.v
MemStorage.v
StateMachine.v
Node.v
Handlers.v
Votes.v
NodeLog.v
Election.v
Cluster.v
RequestVote.v
AppendEntries.v
Replication.v
Commit.v
Progress.v
Proposals.v
Snapshot.v
Total.v
CatchUp.v
EventLoop.v
Network.v
Client.v
Rocks.v
Metrics.v
LogSteps.v
CommitSteps.v
Ensemble.v
Matching.v
History.v
Orderly.v
SafetyInvariant.v
Safety.v
Restarts.v
ReplicatedLog.v
Disorder.v
Liveness.v
Electable.v
Service.v
Loopback.v
Lone.v
Mailbox.v
Answers.v
RepoTests.v
Compacted.v
Grpc.v
PlainWire.v
