(* ===== verification/Prelude.v ===== *)
(** * IceRaft: a verification development

    IceRaft (src/) is an implementation of the Raft consensus protocol in Rust:
    a library of crates with which a process runs one node of a replicated log.
    This development translates its crates into Rocq definitions, one file per
    component, and proves what makes each correct, up to the safety of a whole
    cluster, in which no two nodes apply different entries at one index; and,
    where the code does not keep what Raft or its own comments promise, the
    theorem that shows it.

    ** The program

    - iceraft-core: the shared data (log entries, hard state, snapshots,
      proposals), the configuration with its quorum, the error type.
    - iceraft-storage: the [Storage] trait, through which a node reads and
      writes its log, hard state and snapshot; [MemStorage], the backend that
      exists; a RocksDB placeholder.
    - iceraft-node: state.rs, the in-memory Raft state and its transitions;
      node.rs, [RaftNodeInner] with a handler for each RPC, for each message of
      the node's queue and for the two timers, and the event loop that runs
      them; message.rs, the messages.
    - iceraft-network: the RPC messages, the [NetworkTransport] a node sends
      through, its gRPC client pool and the server that calls the handlers.
    - iceraft-client: a client that looks for the leader.
    - iceraft-metrics, iceraft: counters and gauges; re-exports and a transport
      that does nothing. examples/: three nodes in one process.

    A node is one [RaftNodeInner] behind a mutex. An RPC task locks it, runs one
    handler and answers; the event loop locks it for each message it takes from
    its queue and for each timer. To send an RPC a handler spawns a task, and
    the answer comes back as a message on the queue.

    ** Files

    - [Prelude] (this file): results, the computation monad [M], machine
      integers, weakest preconditions ([wp]), and the notions of a computation
      that keeps a function of the state ([keeps]), preserves or establishes a
      predicate, with their tactics and hint databases.
    - [Core]: iceraft-core/src/lib.rs.
    - [Proto]: the messages of iceraft-network/src/gen/raft.rs and the entry
      conversions at the end of node.rs.
    - [Storage]: the trait of iceraft-storage/src/lib.rs as the class [Storage],
      over an abstract log [LogView]; what its comments say of the log
      ([doc_append], [doc_last_index], [doc_first_index]); and the two classes of
      laws that the node's theorems assume, [DurableStorage] (saves succeed and
      are read back) and [LogStorage] (an append replaces everything from its
      first entry on, which is what [MemStorage] does and not what the comments
      say). The node is generic in [Storage].
    - [MemStorage]: iceraft-storage/src/mem.rs, the two instances, and where it
      departs from the comments. [Rocks]: iceraft-storage/src/rocks.rs.
    - [StateMachine]: iceraft-node/src/state.rs.
    - [Node]: every method of [RaftNodeInner] in node.rs, under its own name.
      [Handlers]: message.rs and what can happen to a node, [Input], with
      [handle], the handler that runs, and [run], a sequence of inputs. The
      input [InRestart] is [RaftNode::start] ([start_again]) and the loop's
      [restore_hard_state] with nothing in between.
    - [Votes], [Election]: every input and the term, the vote, the role and the
      hard state, over any backend. [Cluster]: nodes that exchange votes.
    - [NodeLog], [RequestVote], [AppendEntries], [Replication], [Commit],
      [Progress], [Proposals], [Snapshot]: the functional behaviour of each
      handler over a backend that keeps the two classes of laws. [Total] puts them
      together: a node's whole invariant. [CatchUp]: a leader and a follower
      over repeated rounds.
    - [EventLoop]: [RaftNode::start], [run_event_loop], the election timer and
      the public API. [Network]: transport.rs, client.rs, server.rs, the
      facade's [NoopTransport] and the spawned tasks. [Client]: iceraft-client.
    - [LogSteps], [CommitSteps]: what any input does to a node's log, messages,
      commit index and progress, as one summary each. [Ensemble]: the whole
      cluster, nodes and spawned tasks and queues, as a transition system.
      [Matching]: its Log Matching invariant. [History]: elections,
      acknowledgements and commitment as a history, with Leader Completeness as
      a theorem about well-formed ones. [Orderly], [SafetyInvariant], [Safety]:
      the invariant that the code, in orderly executions, makes only such
      histories. [Restarts]: executions in which a restart is two steps, that
      they refine the others, and the safety theorems for them.
      [ReplicatedLog]: the cluster refines an append-only log. [Disorder]: what
      is lost without its conditions.
    - [Liveness], [Electable], [Service]: what happens in the whole cluster when
      the exchanges of one node with a quorum succeed: heartbeats, elections,
      both with proposals in between. [Loopback]:
      examples/three_node_cluster.rs, its transport, which is the network of
      [Ensemble], its nodes and what main does with them.
    - [Lone]: a node without peers, run by its own loop and timers: the quick
      start of src/iceraft/src/lib.rs. [Mailbox]: the queue in front of the
      loop, [RaftNode]'s methods as sends to it, [shutdown], and where the
      one-shot channels of the callers go. [Answers]: what a client's answer
      is worth in the cluster. [RepoTests]: the repository's unit
      tests of mem.rs and its single-node test, on the model.
    - [Grpc]: the generated client and server of gen/raft.rs and what a node's
      task does over them to the peer it calls, with the gRPC library as the
      class [Tonic] and its documented behaviour as [TonicLaws]; [PlainWire], a
      concrete such library. [Compacted]: a node that starts from a snapshot.
    - [Metrics]: iceraft-metrics, and what a node's counters read.

    ** How the code is translated

    A method is a computation [M S A] over the state it borrows: it returns
    [Done] with its value or ends as [Panicked], and leaves a state either way.
    Nothing is removed for the proofs: guards, early returns, the [?] operator
    ([let?]), the order of effects and ignored errors are the code's. [u64] and
    [usize] are [N]; an addition, subtraction or multiplication that could leave
    64 bits goes through [u64_add], [u64_sub] and [u64_mul], which panic or wrap
    according to the [BuildProfile] (Cargo's dev and release profiles); the
    theorems hold for both unless they name one. Vectors are lists, maps and
    sets are [gmap] and [gset], bytes are [byte]; the vector of [MemStorage]
    is indexed by the code's own offset arithmetic, out-of-range slices panic.

    A handler runs under the node's mutex from start to end and is one step.
    What it does through handles it shares with other tasks is recorded, in
    order, in the node's field [effects]: spawned sends, answers on one-shot
    channels, entries handed to the application, metrics. The field is ghost
    history: no handler reads it, and it survives a restart, so that a message
    sent before a crash can still arrive after it ([Cluster]).

    Loops run on fuel that is proved enough: the binary search of
    [first_index_of_term] on the bit length of its range, the downward scans of
    [maybe_advance_commit] and [maybe_commit] on the distance they can go. The
    theorems about them state the result, so running out is excluded.

    Code that is not in the repository is a parameter: the random draw of the
    election timeout ([GenRange], with the documented behaviour of
    [gen_range]), the gRPC library ([Tonic], with [TonicLaws]), the transport,
    the Prometheus registry.

    ** What is proved

    - Cluster: at most one leader per term, in every execution with lost,
      repeated, delayed and reordered messages, crashes and restarts in which no
      candidate is handed a vote granted in an older term and no RPC reaches a
      node between [RaftNode::start] and the restoring of its hard state
      ([Restarts.election_safety]); the code does not check the first, and an
      execution with two leaders of one term exists
      ([Cluster.stale_vote_two_leaders]), nor the second, and a node that serves
      a request in between votes twice in a term
      ([EventLoop.start_race_double_vote]).
    - Restarts: what is said of executions with a restart is said under that
      condition. [Cluster], [Ensemble] and the runs of a node have a restart as
      one step; [Restarts.restarts_refine_world] says that executions in which
      it is two, with anything at other nodes in between, reach the same.
    - The whole cluster, with every message one that was really sent: Log
      Matching and Leader Append-Only in every execution without stale votes
      ([Matching]). From fresh nodes, in every execution that is [orderly] (no
      candidate counts a vote and no leader a success of an earlier term, and no
      node accepts an AppendEntries whose last entry it already has, at the same
      index with the same term, while its log goes on behind it), a committed
      entry is in the log of every later leader, no node loses an entry at or
      below its commit index, and no two nodes apply different entries at one
      index ([Restarts]): the cluster implements one log to which entries are only ever
      appended, of which every node has committed a prefix
      ([ReplicatedLog.cluster_implements_log]), and an answer given by the leader
      that took the proposal, in the same term, is about the client's own entry,
      for good ([Answers.answer_is_own_entry]; after a change of term it may not
      be, [Proposals.replaced_proposal_answered]). The code enforces none of the
      three conditions, and without any one of them safety is lost: a stale vote
      makes two leaders of a term ([Cluster.stale_vote_two_leaders]), one
      reordered AppendEntries or one stale success makes two nodes apply
      different entries ([Matching.reordered_append_breaks_safety],
      [Disorder.stale_success_breaks_safety]). A network that keeps the order of
      messages does not give the condition on AppendEntries: the size cap makes a
      leader send less than the peer has, and [append_entries] removes the rest
      ([Disorder.capped_append_breaks_safety]). [ReadIndex] is not covered: a
      read can return less than was answered before ([Disorder.stale_read]).
    - Liveness, with a quorum and everything else lost: a leader commits, answers
      and applies its log within a number of heartbeats bounded by its length,
      however far behind the peers are ([Liveness.quorum_commits]); from a timer
      that fires to the answers the clients get ([Service.cluster_serves]).
      These are executions in which the exchanges with the quorum succeed in
      turn: nothing is claimed when other elections interfere, which they do,
      because AppendEntries does not defer them and a request for votes deposes
      a live leader ([EventLoop.live_leader_deposed]). The example's main
      function, run over its three nodes, has its five writes answered and finds
      the leader ([Loopback.example_main]). A node without peers, run by its own
      loop, leads at its election deadline and answers within a heartbeat
      interval ([Lone.lone_node_serves]), which the crate's quick start does not
      always wait for ([Lone.quick_start_may_fail]).
    - One node, any input, any run: terms and votes only grow; if saves succeed
      and no RPC comes before the hard state is restored, a node votes once per
      term across restarts, and what it answers by is on storage ([Votes]);
      only a leader's heartbeat applies entries ([Commit]); no handler panics on
      inputs that fit the node, whose invariant includes that a peer's next index
      never reaches 0 ([Progress], [Total]).
    - Each handler, on every branch, the errors of the storage included:
      [on_append_entries], [on_request_vote],
      [on_install_snapshot], [start_election], [on_proposal], [replicate_to],
      [maybe_advance_commit] (the greatest index of the own term that a quorum
      stores, and exactly the proposals it covers answered), [apply_committed].
    - Two nodes: AppendEntries made from a leader's log keeps Log Matching
      between all logs and makes the follower equal to the leader up to what was
      sent ([Replication]); a rejection moves the leader strictly back
      ([Progress]), so that within a bounded number of rounds the follower has
      the leader's whole log ([CatchUp]); a snapshot is sent, installed and
      acknowledged ([Snapshot.snapshot_transfer]).
    - Storage: [MemStorage] does what the trait's comments say, except that an
      append drops what follows a batch that conflicts with nothing, and that an
      empty log above a snapshot has the snapshot's index, each with the exact
      condition ([MemStorage.mem_against_trait]); it keeps the hard state, reads
      are within their cap, appends are read back.
    - Event loop: every step of it is one handler ([EventLoop.loop_refines_handle]),
      and the election deadline is within its bounds. Every one-shot sender a
      caller has handed in is in one place, so that no call is answered twice or
      lost ([Mailbox.every_call_accounted]); [shutdown] stops the loop after the
      messages before it ([Mailbox.shutdown_stops]) and leaves the proposals
      that wait for a commit waiting ([Mailbox.shutdown_strands_proposal]).
    - The wire: a send of the client pool over gRPC is the call of the peer's
      handler ([Grpc.grpc_calls_handler]), and a cluster over gRPC, on a network
      that loses requests and answers, only has executions of the whole cluster
      ([Grpc.grpc_refines_world]), as one over the example's transport
      ([Loopback.process_refines_world]). What is too large for one message is
      sent whole for ever ([Grpc.oversized_blocks_peer]).
    - Outside these bounds, what goes wrong: requests that end within the log
      remove committed entries, replaced proposals are answered with success, chunks of two
      snapshots mix, a batch below the compaction point corrupts the log, a
      leader whose commit index went back panics or, in a release build,
      miscounts, votes are lost between
      [RaftNode::start] and the restoring of the hard state, AppendEntries does
      not defer elections, a node started from a snapshot never applies
      ([Compacted.with_snapshot_never_applies]).

    ** What is not modelled

    The gRPC library itself, tracing output, re-exports, and of the example's
    main function the sleeps and the printing: pure I/O. The three-node
    integration tests run the cluster of the example.

    Snapshots in a cluster: [Ensemble] leaves InstallSnapshot out. Nothing in the
    code takes a snapshot ([TriggerSnapshot] does nothing), so that nodes that
    start without one never have one; a node that starts with one never applies
    an entry again ([Compacted]), which leaves nothing to prove of its cluster.

    Cancellation: the gRPC server drops the future of a call whose client is
    gone. With [MemStorage], the only backend there is, whose futures never
    wait, that is only possible while the call waits for the node's lock, before
    the handler has begun, and is then a lost request. A backend that waits could
    be cut at an await point, with the handler half done; what is proved over
    any backend, without its laws, covers that, since a storage operation that
    panics ends a handler at the same places.

    The executions of the liveness theorems are executions of [Ensemble], not
    orderly ones in general: the size cap of [replicate_to] may make a leader
    send a request that ends within the follower's log, which is the very thing
    [Disorder.capped_append_breaks_safety] is about.

    A crash in the middle of a handler: a step of a cluster is a whole handler.
    Saves of the hard state that fail, which the code logs and ignores: the
    theorems that need them to succeed say so. Other storage errors that the laws
    do not allow are covered by the theorems over any backend, and in those of
    [on_append_entries] and [on_install_snapshot]. *)

From Stdlib Require Import Lia.
From stdpp Require Import base numbers list option gmap sets fin_maps.

#[global] Open Scope N_scope.

(** ** Rust results

    [Result<A, E>]: the error path is a value. *)

Inductive result (E A : Type) : Type :=
| Ok (a : A)
| Err (e : E).
Arguments Ok {E A} a.
Arguments Err {E A} e.

Definition unwrap_or {E A} (d : A) (r : result E A) : A :=
  match r with Ok a => a | Err _ => d end.

Definition is_ok {E A} (r : result E A) : bool :=
  match r with Ok _ => true | Err _ => false end.

Definition map_err {E F A} (f : E -> F) (r : result E A) : result F A :=
  match r with Ok a => Ok a | Err e => Err (f e) end.

(** ** Computations

    A Rust function over a mutable state [S] either returns or panics; a
    panic keeps the mutations made so far (the locks the code uses are not
    poisoned by a panic). *)

Inductive outcome (A : Type) : Type :=
| Done (a : A)
| Panicked.
Arguments Done {A} a.
Arguments Panicked {A}.

Definition M (S A : Type) : Type := S -> outcome A * S.

Section monad.
Context {S : Type}.

Definition ret {A} (a : A) : M S A := fun s => (Done a, s).

Definition bind {A B} (m : M S A) (k : A -> M S B) : M S B := fun s =>
  match m s with
  | (Done a, s') => k a s'
  | (Panicked, s') => (Panicked, s')
  end.

Definition panic {A} : M S A := fun s => (Panicked, s).

Definition gets {A} (f : S -> A) : M S A := fun s => (Done (f s), s).

Definition modify (f : S -> S) : M S unit := fun s => (Done tt, f s).

(** [if c { m }] *)
Definition when (c : bool) (m : M S unit) : M S unit :=
  if c then m else ret tt.

(** [for x in l { f(x) }] *)
Fixpoint for_each {A} (l : list A) (f : A -> M S unit) : M S unit :=
  match l with
  | [] => ret tt
  | x :: l' => bind (f x) (fun _ => for_each l' f)
  end.

(** The [?] operator: an [Err] ends the function. *)
Definition try_bind {E A B} (m : M S (result E A))
    (k : A -> M S (result E B)) : M S (result E B) :=
  bind m (fun r => match r with Ok a => k a | Err e => ret (Err e) end).

(** A value the function indexes or slices out of a vector: [None] is an
    index out of bounds, which panics. *)
Definition or_panic {A} (o : option A) : M S A :=
  match o with Some a => ret a | None => panic end.

(** Runs [m] on a component of the state: a method call on a field. *)
Definition zoom {T A} (get : S -> T) (set : T -> S -> S) (m : M T A) : M S A :=
  fun s => ((m (get s)).1, set (m (get s)).2 s).
End monad.

Declare Scope rust_scope.
Delimit Scope rust_scope with rust.
Notation "'let*' x := m 'in' k" := (bind m (fun x => k))
  (at level 10, x pattern, m at level 100, k at level 200,
   format "'[v' 'let*'  x  :=  m  'in' '/' k ']'") : rust_scope.
Notation "'let?' x := m 'in' k" := (try_bind m (fun x => k))
  (at level 10, x pattern, m at level 100, k at level 200,
   format "'[v' 'let?'  x  :=  m  'in' '/' k ']'") : rust_scope.
Notation "m ;;; k" := (bind m (fun _ => k))
  (at level 100, k at level 200, right associativity,
   format "'[v' m  ;;; '/' k ']'") : rust_scope.
#[global] Open Scope rust_scope.

(** ** Machine integers

    [u64] (and [usize], on the 64-bit targets modelled) as [N]. Arithmetic
    that leaves the range panics in a build with overflow checks (Cargo's dev
    profile) and wraps in one without (the release profile of
    src/Cargo.toml, which does not turn them on). *)

Abbreviation u64_modulus := 18446744073709551616%N.

Definition u64 (n : N) : Prop := n < u64_modulus.

Class BuildProfile := overflow_checks : bool.
Definition dev_profile : BuildProfile := true.
Definition release_profile : BuildProfile := false.

Section u64.
Context {prof : BuildProfile} {S : Type}.

Definition u64_add (a b : N) : M S N :=
  if a + b <? u64_modulus then ret (a + b)
  else if overflow_checks then panic else ret ((a + b) mod u64_modulus).

Definition u64_sub (a b : N) : M S N :=
  if b <=? a then ret (a - b)
  else if overflow_checks then panic else ret (u64_modulus + a - b).

Definition u64_mul (a b : N) : M S N :=
  if a * b <? u64_modulus then ret (a * b)
  else if overflow_checks then panic else ret ((a * b) mod u64_modulus).
End u64.

#[global] Arguments u64_add : simpl never.
#[global] Arguments u64_sub : simpl never.
#[global] Arguments u64_mul : simpl never.

(** [n as i64] *)
Definition u64_as_i64 (n : N) : Z :=
  if n <? 9223372036854775808 then Z.of_N n else (Z.of_N n - Z.of_N u64_modulus)%Z.

(** Closes a decidable closed goal by evaluating its decision procedure. *)
Ltac by_compute := apply (bool_decide_unpack _); vm_compute; exact I.

(** ** Vectors indexed by [usize] *)

Section vec.
Context {A : Type}.
Implicit Types l : list A.

(** [v.len()] *)
Definition nlen l : N := N.of_nat (length l).

(** [v.get(i)] *)
Definition vec_get l (i : N) : option A :=
  if i <? nlen l then l !! N.to_nat i else None.

(** [&v[lo..hi]], [None] where Rust panics. *)
Definition vec_slice l (lo hi : N) : option (list A) :=
  if (lo <=? hi) && (hi <=? nlen l)
  then Some (take (N.to_nat (hi - lo)) (drop (N.to_nat lo) l))
  else None.

(** [v.truncate(n)] *)
Definition vec_truncate (n : N) l : list A :=
  if n <? nlen l then take (N.to_nat n) l else l.

Lemma nlen_nil : nlen [] = 0.
Proof. done. Qed.

Lemma nlen_cons x l : nlen (x :: l) = nlen l + 1.
Proof. unfold nlen. cbn [length]. lia. Qed.

Lemma nlen_app l1 l2 : nlen (l1 ++ l2) = nlen l1 + nlen l2.
Proof. unfold nlen. rewrite length_app. lia. Qed.

Lemma vec_get_lookup l i : vec_get l i = l !! N.to_nat i.
Proof.
  unfold vec_get, nlen. destruct (N.ltb_spec i (N.of_nat (length l))); [done|].
  symmetry. apply lookup_ge_None. lia.
Qed.
End vec.

#[global] Arguments nlen : simpl never.
#[global] Arguments vec_get : simpl never.
#[global] Arguments vec_slice : simpl never.
#[global] Arguments vec_truncate : simpl never.

Lemma nlen_fmap {A B} (f : A -> B) (l : list A) : nlen (f <$> l) = nlen l.
Proof. unfold nlen. by rewrite length_fmap. Qed.

Create Rewrite HintDb vec.
#[export] Hint Rewrite @nlen_nil @nlen_cons @nlen_app @nlen_fmap : vec.

(** ** A weakest precondition for [M]

    [wp m Phi s]: whatever way [m] ends from [s], by returning or by
    panicking, [Phi] holds of the outcome and the state it leaves. *)

Definition wp {S A} (m : M S A) (Phi : outcome A -> S -> Prop) (s : S) : Prop :=
  Phi (m s).1 (m s).2.

Section wp.
Context {S : Type}.
Implicit Types s : S.

Lemma wp_ret {A} (a : A) Phi s : Phi (Done a) s -> wp (ret a) Phi s.
Proof. done. Qed.

Lemma wp_bind {A B} (m : M S A) (k : A -> M S B) Phi s :
  wp m (fun o s' => match o with
                    | Done a => wp (k a) Phi s'
                    | Panicked => Phi Panicked s'
                    end) s ->
  wp (bind m k) Phi s.
Proof. unfold wp, bind. by destruct (m s) as [[a|] s'] eqn:E. Qed.

Lemma wp_gets {A} (f : S -> A) Phi s : Phi (Done (f s)) s -> wp (gets f) Phi s.
Proof. done. Qed.

Lemma wp_modify f (Phi : outcome unit -> S -> Prop) s :
  Phi (Done tt) (f s) -> wp (modify f) Phi s.
Proof. done. Qed.

Lemma wp_mono {A} (m : M S A) (Phi Psi : outcome A -> S -> Prop) s :
  wp m Phi s -> (forall o s', Phi o s' -> Psi o s') -> wp m Psi s.
Proof. unfold wp. eauto. Qed.

Lemma wp_zoom {T A} (get : S -> T) (set : T -> S -> S) (m : M T A)
    (Phi : outcome A -> S -> Prop) s :
  wp m (fun o t => Phi o (set t s)) (get s) -> wp (zoom get set m) Phi s.
Proof. done. Qed.

End wp.

Section wp_u64.
Context {prof : BuildProfile} {S : Type}.
Implicit Types s : S.

Lemma u64_add_small (a b : N) :
  u64 (a + b) -> u64_add (S := S) a b = ret (a + b).
Proof. unfold u64_add, u64. intros H. by rewrite (proj2 (N.ltb_lt _ _) H). Qed.

Lemma u64_sub_small (a b : N) :
  b <= a -> u64_sub (S := S) a b = ret (a - b).
Proof. unfold u64_sub. intros H. by rewrite (proj2 (N.leb_le _ _) H). Qed.

Lemma u64_mul_small (a b : N) :
  u64 (a * b) -> u64_mul (S := S) a b = ret (a * b).
Proof. unfold u64_mul, u64. intros H. by rewrite (proj2 (N.ltb_lt _ _) H). Qed.

End wp_u64.

(** ** Computations that leave part of the state alone

    [keeps f m]: however [m] ends, what [f] reads of the state is as before. *)

Definition keeps {S A B} (f : S -> B) (m : M S A) : Prop :=
  forall s, f (m s).2 = f s.

Section keeps.
Context {S B : Type} (f : S -> B).

Lemma keeps_ret {A} (a : A) : keeps f (ret a).
Proof. done. Qed.

Lemma keeps_panic {A} : keeps f (panic (A := A)).
Proof. done. Qed.

Lemma keeps_gets {A} (g : S -> A) : keeps f (gets g).
Proof. done. Qed.

Lemma keeps_or_panic {A} (o : option A) : keeps f (or_panic o).
Proof. by destruct o. Qed.

Lemma keeps_modify g : (forall s, f (g s) = f s) -> keeps f (modify g).
Proof. done. Qed.

Lemma keeps_bind {A C} (m : M S A) (k : A -> M S C) :
  keeps f m -> (forall a, keeps f (k a)) -> keeps f (bind m k).
Proof.
  unfold keeps, bind. intros Hm Hk s. specialize (Hm s).
  destruct (m s) as [[a|] s']; cbn in *; [|done]. by rewrite Hk.
Qed.

(** What follows [m] does not matter to [f] if it keeps it. *)
Lemma keeps_after {A C} (m : M S A) (k : A -> M S C) s :
  (forall a, keeps f (k a)) -> f (bind m k s).2 = f (m s).2.
Proof.
  unfold bind. intros Hk. destruct (m s) as [[a|] s']; cbn; [apply Hk|done].
Qed.

Lemma keeps_try_bind {E A C} (m : M S (result E A)) (k : A -> M S (result E C)) :
  keeps f m -> (forall a, keeps f (k a)) -> keeps f (try_bind m k).
Proof. intros Hm Hk. apply keeps_bind; [done|]. by intros []. Qed.

Lemma keeps_when (c : bool) m : keeps f m -> keeps f (when c m).
Proof. by destruct c. Qed.

Lemma keeps_for_each {A} (l : list A) (g : A -> M S unit) :
  (forall x, keeps f (g x)) -> keeps f (for_each l g).
Proof. intros Hg. induction l; cbn; [done|]. by apply keeps_bind. Qed.

Lemma keeps_zoom {T A} (get : S -> T) (set : T -> S -> S) (m : M T A) :
  (forall t s, f (set t s) = f s) -> keeps f (zoom get set m).
Proof. intros Hs s. apply Hs. Qed.

Context {prof : BuildProfile}.

Lemma keeps_u64_add a b : keeps f (u64_add a b).
Proof. unfold keeps, u64_add. intros s. by repeat case_match. Qed.

Lemma keeps_u64_sub a b : keeps f (u64_sub a b).
Proof. unfold keeps, u64_sub. intros s. by repeat case_match. Qed.

Lemma keeps_u64_mul a b : keeps f (u64_mul a b).
Proof. unfold keeps, u64_mul. intros s. by repeat case_match. Qed.

(** Through a computation known only to leave [f] alone. *)
Lemma wp_bind_keeps {A C} (m : M S A) (k : A -> M S C) Phi s :
  keeps f m ->
  (forall a s', f s' = f s -> wp (k a) Phi s') ->
  (forall s', f s' = f s -> Phi Panicked s') ->
  wp (bind m k) Phi s.
Proof.
  intros Hm Hk Hp. unfold wp, bind. specialize (Hm s).
  destruct (m s) as [[a|] s']; cbn in *; [by apply Hk|by apply Hp].
Qed.
End keeps.

Create HintDb keeps.
#[export] Hint Resolve keeps_ret keeps_panic keeps_gets keeps_or_panic keeps_when
  keeps_for_each keeps_u64_add keeps_u64_sub keeps_u64_mul : keeps.

(** Walks the code of a computation, one construct at a time. *)
Ltac solve_keeps :=
  intros;
  repeat first
    [ progress intros
    | solve [auto with keeps]
    | apply keeps_bind
    | apply keeps_try_bind
    | apply keeps_when
    | apply keeps_for_each
    | apply keeps_modify; done
    | case_match ].

(** ** Invariants of computations

    [preserves P m]: if [P] holds before [m], it holds after, however [m] ends;
    [establishes P m]: it holds after in any case. *)

Definition preserves {S A} (P : S -> Prop) (m : M S A) : Prop :=
  forall s, P s -> P (m s).2.
Definition establishes {S A} (P : S -> Prop) (m : M S A) : Prop :=
  forall s, P (m s).2.

Section preserves.
Context {S : Type} (P : S -> Prop).

Lemma establishes_preserves {A} (m : M S A) : establishes P m -> preserves P m.
Proof. intros H s _. apply H. Qed.

Lemma keeps_preserves {A B} (f : S -> B) (Q : B -> Prop) (m : M S A) :
  (forall s, P s <-> Q (f s)) -> keeps f m -> preserves P m.
Proof. intros HP Hf s Hs. apply HP. rewrite Hf. by apply HP. Qed.

Lemma preserves_ret {A} (a : A) : preserves P (ret a).
Proof. by intros s. Qed.

Lemma preserves_gets {A} (g : S -> A) : preserves P (gets g).
Proof. by intros s. Qed.

Lemma preserves_bind {A B} (m : M S A) (k : A -> M S B) :
  preserves P m -> (forall a, preserves P (k a)) -> preserves P (bind m k).
Proof.
  unfold preserves, bind. intros Hm Hk s Hs. specialize (Hm s Hs).
  destruct (m s) as [[a|] s']; cbn in *; [by apply Hk|done].
Qed.

Lemma preserves_try_bind {E A B} (m : M S (result E A)) (k : A -> M S (result E B)) :
  preserves P m -> (forall a, preserves P (k a)) -> preserves P (try_bind m k).
Proof. intros Hm Hk. apply preserves_bind; [done|]. intros []; [done|by intros s]. Qed.

Lemma preserves_when (c : bool) m : preserves P m -> preserves P (when c m).
Proof. destruct c; [done|by intros _ s]. Qed.

Lemma preserves_for_each {A} (l : list A) (g : A -> M S unit) :
  (forall x, preserves P (g x)) -> preserves P (for_each l g).
Proof.
  intros Hg. induction l; cbn; [by intros s|]. by apply preserves_bind.
Qed.

Lemma establishes_bind {A B} (m : M S A) (k : A -> M S B) :
  establishes P m -> (forall a, preserves P (k a)) -> establishes P (bind m k).
Proof.
  unfold establishes, bind. intros Hm Hk s. specialize (Hm s).
  destruct (m s) as [[a|] s']; cbn in *; [by apply Hk|done].
Qed.

(** A write does not panic, so what follows it runs. *)
Lemma establishes_modify_bind {B} g (k : M S B) :
  establishes P k -> establishes P (modify g ;;; k).
Proof. intros Hk s. apply Hk. Qed.
End preserves.

Create HintDb preserves.
#[export] Hint Resolve preserves_ret preserves_gets preserves_when
  preserves_for_each : preserves.
