(* ===== verification/Core.v ===== *)
(** * iceraft-core: shared types, configuration and errors

    Models src/iceraft-core/src/lib.rs: the configuration with [validate],
    [members] and [quorum], the log entry, the hard state, the snapshot, the
    proposal and the error type with its [Display] text. Theorems: what
    [validate] accepts, that [quorum] is the least majority of the members,
    and that two quorums of members meet. *)

From Stdlib Require Import Lia Init.Byte.
From stdpp Require Import base numbers list option gmap sets fin_maps strings pretty.
From S2P Require Import Prelude.

Abbreviation NodeId := N (only parsing).
Abbreviation Term := N (only parsing).
Abbreviation LogIndex := N (only parsing).
Abbreviation bytes := (list Byte.byte) (only parsing).

#[export] Instance byte_eq_dec : EqDecision Byte.byte := Byte.byte_eq_dec.

(** ** Errors *)

Inductive RaftError : Type :=
| InvalidConfig (msg : string)
| NotLeader (leader_id : option NodeId)
| StorageError (msg : string)
| Network (msg : string)
| Shutdown
| LogCompacted (requested first_available : LogIndex)
| LogUnavailable (index : LogIndex)
| SnapshotError (msg : string)
| ChannelClosed
| Timeout
| Other (msg : string).

#[export] Instance RaftError_eq_dec : EqDecision RaftError.
Proof. solve_decision. Defined.

Abbreviation raft_result := (result RaftError).

(** [{:?}] of an [Option<u64>] *)
Definition debug_option_u64 (o : option N) : string :=
  match o with
  | Some n => "Some(" +:+ pretty n +:+ ")"
  | None => "None"
  end.

(** The [Display] implementation the [#[error(..)]] attributes describe. *)
Definition RaftError_to_string (e : RaftError) : string :=
  match e with
  | InvalidConfig m => "invalid configuration: " +:+ m
  | NotLeader l => "not the leader; current leader is node " +:+ debug_option_u64 l
  | StorageError m => "storage error: " +:+ m
  | Network m => "network error: " +:+ m
  | Shutdown => "node is shutting down"
  | LogCompacted r f =>
      "log compacted: requested index " +:+ pretty r
      +:+ " has been compacted (first available: " +:+ pretty f +:+ ")"
  | LogUnavailable i =>
      "log unavailable: index " +:+ pretty i +:+ " is beyond the last log index"
  | SnapshotError m => "snapshot error: " +:+ m
  | ChannelClosed => "channel closed"
  | Timeout => "timed out"
  | Other m => "unknown error: " +:+ m
  end.

(** ** Configuration *)

Record RaftConfig : Type := MkRaftConfig {
  cfg_id : NodeId;
  cfg_peers : list NodeId;
  heartbeat_interval_ms : N;
  election_timeout_min_ms : N;
  election_timeout_max_ms : N;
  max_append_entries : N;
  snapshot_threshold : N;
  snapshot_chunk_size : N;
}.

Definition RaftConfig_default : RaftConfig := {|
  cfg_id := 1;
  cfg_peers := [];
  heartbeat_interval_ms := 100;
  election_timeout_min_ms := 300;
  election_timeout_max_ms := 600;
  max_append_entries := 128;
  snapshot_threshold := 10000;
  snapshot_chunk_size := 1024 * 1024;
|}.

Definition validate (c : RaftConfig) : raft_result unit :=
  if election_timeout_max_ms c <=? election_timeout_min_ms c
  then Err (InvalidConfig
    "election_timeout_min_ms must be less than election_timeout_max_ms")
  else if election_timeout_min_ms c <=? heartbeat_interval_ms c
  then Err (InvalidConfig
    "heartbeat_interval_ms must be less than election_timeout_min_ms")
  else Ok tt.

Definition members (c : RaftConfig) : gset NodeId :=
  {[cfg_id c]} ∪ list_to_set (cfg_peers c).

(** A vector's length is below [isize::MAX], so neither addition overflows. *)
Definition quorum (c : RaftConfig) : N := (nlen (cfg_peers c) + 1) / 2 + 1.

(** ** Log entries *)

Inductive EntryType : Type := Normal | ConfChange.

#[export] Instance EntryType_eq_dec : EqDecision EntryType.
Proof. solve_decision. Defined.

Record LogEntry : Type := MkLogEntry {
  le_term : Term;
  le_index : LogIndex;
  le_data : bytes;
  le_entry_type : EntryType;
}.

#[export] Instance LogEntry_eq_dec : EqDecision LogEntry.
Proof. solve_decision. Defined.

(** ** Persistent state *)

Record HardState : Type := MkHardState {
  hs_term : Term;
  hs_vote : NodeId;
  hs_commit : LogIndex;
}.

#[export] Instance HardState_eq_dec : EqDecision HardState.
Proof. solve_decision. Defined.

Definition HardState_default : HardState := MkHardState 0 0 0.

(** ** Snapshots *)

Record SnapshotMeta : Type := MkSnapshotMeta {
  last_included_index : LogIndex;
  last_included_term : Term;
  conf_nodes : list NodeId;
}.

Record Snapshot : Type := MkSnapshot {
  snap_data : bytes;
  snap_metadata : SnapshotMeta;
}.

#[export] Instance SnapshotMeta_eq_dec : EqDecision SnapshotMeta.
Proof. solve_decision. Defined.
#[export] Instance Snapshot_eq_dec : EqDecision Snapshot.
Proof. solve_decision. Defined.

(** ** Proposals

    A one-shot sender is named by a token: what is sent on it is an effect of
    the node that mentions the token. *)

Abbreviation Sender := N (only parsing).

Record Proposal : Type := MkProposal {
  prop_data : bytes;
  prop_tx : option Sender;
}.

(** ** Quorums *)

(** The configuration the doc comments describe: [peers] lists the other
    members, once each. *)
Definition wf_config (c : RaftConfig) : Prop :=
  NoDup (cfg_peers c) /\ cfg_id c ∉ cfg_peers c.

Lemma size_members c :
  wf_config c -> N.of_nat (size (members c)) = nlen (cfg_peers c) + 1.
Proof.
  intros [Hnd Hid]. unfold members, nlen.
  rewrite size_union by (rewrite disjoint_singleton_l; by rewrite elem_of_list_to_set).
  rewrite size_singleton, size_list_to_set by done. lia.
Qed.

(** Two sets of at least [q] of [n] members, [2 q > n], meet. *)
Lemma majorities_meet (A B V : gset NodeId) (q : N) :
  A ⊆ V -> B ⊆ V ->
  q <= N.of_nat (size A) -> q <= N.of_nat (size B) ->
  N.of_nat (size V) < 2 * q ->
  exists v, v ∈ A /\ v ∈ B.
Proof.
  intros HA HB HqA HqB Hq.
  destruct (decide (A ∩ B = ∅)) as [He|Hne].
  - exfalso. assert (A ## B) as Hd by set_solver.
    pose proof (size_union A B Hd) as Hu.
    assert (A ∪ B ⊆ V) as Hs by set_solver.
    apply subseteq_size in Hs. lia.
  - apply set_choose_L in Hne as [v Hv]. exists v. set_solver.
Qed.

Lemma half_bounds (n : N) : n < 2 * (n / 2 + 1) /\ 2 * (n / 2) <= n.
Proof.
  pose proof (N.div_mod n 2 ltac:(lia)) as Hn. pose proof (N.mod_lt n 2 ltac:(lia)) as Hr.
  revert Hn Hr. generalize (n / 2), (n mod 2). lia.
Qed.

Lemma quorum_majority c :
  wf_config c -> N.of_nat (size (members c)) < 2 * quorum c.
Proof. intros Hwf. rewrite size_members by done. unfold quorum. apply half_bounds. Qed.

(** What [validate] accepts. *)
Lemma validate_ok c :
  validate c = Ok tt <->
  heartbeat_interval_ms c < election_timeout_min_ms c
  /\ election_timeout_min_ms c < election_timeout_max_ms c.
Proof.
  unfold validate. repeat case_match;
    rewrite ?N.leb_le, ?N.leb_gt in *; split; intros; (done || lia).
Qed.

(** ** Properties *)

(** quorum: for a configuration whose [peers] lists the other members once
    each, [quorum] is the least number of members that is a majority, never
    more than there are; so two sets of [quorum] members always share one. *)
Theorem quorum_least_majority c (Hwf : wf_config c) :
  (forall k, N.of_nat (size (members c)) < 2 * k <-> quorum c <= k)
  /\ quorum c <= N.of_nat (size (members c))
  /\ (forall A B, A ⊆ members c -> B ⊆ members c ->
        quorum c <= N.of_nat (size A) -> quorum c <= N.of_nat (size B) ->
        exists v, v ∈ A /\ v ∈ B).
Proof.
  pose proof (quorum_majority c Hwf) as Hq.
  pose proof (half_bounds (nlen (cfg_peers c) + 1)) as Hb.
  split; [|split].
  - rewrite size_members by done. intros k. unfold quorum. lia.
  - rewrite size_members by done. unfold quorum. lia.
  - intros A B HA HB HqA HqB. by eapply majorities_meet.
Qed.

Lemma quorum_least_majority_witness :
  let c := MkRaftConfig 1 [2; 3] 100 300 600 128 10000 1024 in
  quorum c = 2 /\ exists v, v ∈ ({[1; 2]} : gset N) /\ v ∈ ({[2; 3]} : gset N).
Proof.
  set (c := MkRaftConfig 1 [2; 3] 100 300 600 128 10000 1024).
  split; [reflexivity|].
  apply (quorum_least_majority c); [split; by_compute|by_compute..].
Defined.
