(* ===== verification/Proto.v ===== *)
(** * iceraft-network: the RPC messages

    Models the message types of src/iceraft-network/src/gen/raft.rs (the Rust
    structs that proto/raft.proto generates; their wire encoding is prost's) and
    the conversions between protobuf and core entries of
    src/iceraft-node/src/node.rs. Theorem: the conversions are inverse on every
    log entry, and an unknown [entry_type] is read as a normal entry. *)

From Stdlib Require Import Lia Init.Byte.
From stdpp Require Import base numbers list option strings.
From S2P Require Import Prelude.
From S2P Require Import Core.

(** [raft::EntryType], an [i32] on the wire. *)
Inductive ProtoEntryType : Type := EntryNormal | EntryConfChange.

#[export] Instance ProtoEntryType_eq_dec : EqDecision ProtoEntryType.
Proof. solve_decision. Defined.

(** [t as i32] *)
Definition ProtoEntryType_as_i32 (t : ProtoEntryType) : Z :=
  match t with EntryNormal => 0 | EntryConfChange => 1 end.

Definition as_str_name (t : ProtoEntryType) : string :=
  match t with
  | EntryNormal => "ENTRY_NORMAL"
  | EntryConfChange => "ENTRY_CONF_CHANGE"
  end.

Definition from_str_name (value : string) : option ProtoEntryType :=
  if String.eqb value "ENTRY_NORMAL" then Some EntryNormal
  else if String.eqb value "ENTRY_CONF_CHANGE" then Some EntryConfChange
  else None.

Record ProtoEntry : Type := MkProtoEntry {
  pe_term : N;
  pe_index : N;
  pe_data : bytes;
  pe_entry_type : Z;
}.

Record ProtoHardState : Type := MkProtoHardState {
  phs_term : N;
  phs_vote : N;
  phs_commit : N;
}.

Record SnapshotMetadata : Type := MkSnapshotMetadata {
  sm_index : N;
  sm_term : N;
  sm_conf_nodes : list N;
}.

Record ProtoSnapshot : Type := MkProtoSnapshot {
  ps_data : bytes;
  ps_metadata : option SnapshotMetadata;
}.

(** ** AppendEntries *)

Record AppendEntriesRequest : Type := MkAppendEntriesRequest {
  ae_term : N;
  ae_leader_id : N;
  ae_prev_log_index : N;
  ae_prev_log_term : N;
  ae_entries : list ProtoEntry;
  ae_leader_commit : N;
}.

Record AppendEntriesResponse : Type := MkAppendEntriesResponse {
  aer_term : N;
  aer_success : bool;
  aer_conflict_index : N;
  aer_conflict_term : N;
}.

(** ** RequestVote *)

Record RequestVoteRequest : Type := MkRequestVoteRequest {
  rv_term : N;
  rv_candidate_id : N;
  rv_last_log_index : N;
  rv_last_log_term : N;
  rv_pre_vote : bool;
}.

Record RequestVoteResponse : Type := MkRequestVoteResponse {
  rvr_term : N;
  rvr_vote_granted : bool;
}.

(** ** InstallSnapshot *)

Record InstallSnapshotRequest : Type := MkInstallSnapshotRequest {
  is_term : N;
  is_leader_id : N;
  is_last_included_index : N;
  is_last_included_term : N;
  is_offset : N;
  is_data : bytes;
  is_done : bool;
}.

Record InstallSnapshotResponse : Type := MkInstallSnapshotResponse {
  isr_term : N;
}.

#[export] Instance ProtoEntry_eq_dec : EqDecision ProtoEntry.
Proof. solve_decision. Defined.
#[export] Instance AppendEntriesRequest_eq_dec : EqDecision AppendEntriesRequest.
Proof. solve_decision. Defined.
#[export] Instance AppendEntriesResponse_eq_dec : EqDecision AppendEntriesResponse.
Proof. solve_decision. Defined.
#[export] Instance RequestVoteRequest_eq_dec : EqDecision RequestVoteRequest.
Proof. solve_decision. Defined.
#[export] Instance RequestVoteResponse_eq_dec : EqDecision RequestVoteResponse.
Proof. solve_decision. Defined.
#[export] Instance InstallSnapshotRequest_eq_dec : EqDecision InstallSnapshotRequest.
Proof. solve_decision. Defined.
#[export] Instance InstallSnapshotResponse_eq_dec : EqDecision InstallSnapshotResponse.
Proof. solve_decision. Defined.

(** ** Proto / core type conversions *)

Definition proto_entry_to_log_entry (e : ProtoEntry) : LogEntry := {|
  le_term := pe_term e;
  le_index := pe_index e;
  le_data := pe_data e;
  le_entry_type :=
    if (pe_entry_type e =? ProtoEntryType_as_i32 EntryConfChange)%Z
    then ConfChange else Normal;
|}.

Definition log_entry_to_proto_entry (e : LogEntry) : ProtoEntry := {|
  pe_term := le_term e;
  pe_index := le_index e;
  pe_data := le_data e;
  pe_entry_type :=
    match le_entry_type e with
    | Normal => ProtoEntryType_as_i32 EntryNormal
    | ConfChange => ProtoEntryType_as_i32 EntryConfChange
    end;
|}.

Lemma proto_log_proto e :
  proto_entry_to_log_entry (log_entry_to_proto_entry e) = e.
Proof. by destruct e as [? ? ? []]. Qed.

Lemma proto_log_proto_list l :
  map proto_entry_to_log_entry (map log_entry_to_proto_entry l) = l.
Proof.
  rewrite List.map_map. rewrite <- (List.map_id l) at 2.
  apply List.map_ext. apply proto_log_proto.
Qed.

(** Entry conversion round trip: converting a log's entries to protobuf and
    back gives the same entries; the other way round, a protobuf entry comes
    back unchanged exactly when its [entry_type] is one of the two values the
    enumeration declares, and any other value is read as a normal entry. *)
Theorem entry_conversion_roundtrip :
  (forall l, map proto_entry_to_log_entry (map log_entry_to_proto_entry l) = l)
  /\ (forall p, log_entry_to_proto_entry (proto_entry_to_log_entry p) = p <->
        exists t, pe_entry_type p = ProtoEntryType_as_i32 t)
  /\ (forall p, (forall t, pe_entry_type p <> ProtoEntryType_as_i32 t) ->
        le_entry_type (proto_entry_to_log_entry p) = Normal)
  /\ (forall t, from_str_name (as_str_name t) = Some t).
Proof.
  split; [exact proto_log_proto_list|split; [|split]].
  - intros [t i d ty]. unfold log_entry_to_proto_entry, proto_entry_to_log_entry; cbn.
    destruct (Z.eqb_spec ty 1) as [->|Hne]; split.
    + intros _. by exists EntryConfChange.
    + done.
    + intros [= <-]. by exists EntryNormal.
    + intros [[] Hty]; cbn in Hty; [by subst|done].
  - intros p Hp. unfold proto_entry_to_log_entry; cbn.
    destruct (Z.eqb_spec (pe_entry_type p) 1) as [He|]; [|done].
    by destruct (Hp EntryConfChange).
  - by intros [].
Qed.
