(* ===== verification/Storage.v ===== *)
(** * iceraft-storage: the [Storage] trait

    Models the trait of src/iceraft-storage/src/lib.rs as a class of operations
    over a backend's state; its methods may fail, as there.

    The node's theorems are proved over two classes of laws, which are what the
    node needs and what [MemStorage] does, not what the trait's comments say:
    [DurableStorage], saving the hard state succeeds, what is saved is what is
    loaded and nothing else touches it; and [LogStorage], the log is an
    index-addressed map of entries above a compaction point, whose reads do not
    fail for other reasons than the range, and an append replaces everything
    from the first entry of the batch on.

    The comments are [doc_first_index], [doc_last_index] and [doc_append], and
    differ from the second class in three points: an append truncates only a
    conflicting suffix, an empty log has last index 0 and first index 1 even
    above a snapshot. [MemStorage.mem_against_trait] says of the one backend
    there is where it does what they say and what it does instead. *)

From Stdlib Require Import Lia Init.Byte.
From stdpp Require Import base numbers list option gmap sets fin_maps strings.
From S2P Require Import Prelude.
From S2P Require Import Core.

(** ** The trait *)

Class Storage (St : Type) : Type := {
  st_save_hard_state : HardState -> M St (raft_result unit);
  st_load_hard_state : M St (raft_result HardState);
  st_first_index : M St (raft_result LogIndex);
  st_last_index : M St (raft_result LogIndex);
  st_term : LogIndex -> M St (raft_result Term);
  st_entries : LogIndex -> LogIndex -> option N -> M St (raft_result (list LogEntry));
  st_append_entries : list LogEntry -> M St (raft_result unit);
  st_snapshot : M St (raft_result (option Snapshot));
  st_apply_snapshot : Snapshot -> M St (raft_result unit);
}.

(** ** Hard state

    Reading back, and no other operation changes it, however that one ends. *)

Class DurableStorage (St : Type) `{Storage St} : Type := {
  hard_state_of : St -> HardState;
  save_hard_state_ok hs s :
    wp (st_save_hard_state hs)
       (fun o s' => o = Done (Ok tt) /\ hard_state_of s' = hs) s;
  load_hard_state_ok s :
    st_load_hard_state s = (Done (Ok (hard_state_of s)), s);
  first_index_keeps : keeps hard_state_of st_first_index;
  last_index_keeps : keeps hard_state_of st_last_index;
  term_keeps i : keeps hard_state_of (st_term i);
  entries_keeps lo hi max : keeps hard_state_of (st_entries lo hi max);
  append_entries_keeps es : keeps hard_state_of (st_append_entries es);
  snapshot_keeps : keeps hard_state_of st_snapshot;
  apply_snapshot_keeps sn : keeps hard_state_of (st_apply_snapshot sn);
}.

(** ** The log, addressed by absolute index *)

(** The entries [es] at consecutive indices from [k]. *)
Fixpoint log_of (k : LogIndex) (es : list LogEntry) : gmap LogIndex LogEntry :=
  match es with
  | [] => ∅
  | e :: es' => <[k := e]> (log_of (k + 1) es')
  end.

(** The entries of [m] at [k], [k+1], ..., [n] of them, as far as they exist. *)
Fixpoint log_range (m : gmap LogIndex LogEntry) (k : LogIndex) (n : nat) : list LogEntry :=
  match n with
  | O => []
  | S n' =>
      match m !! k with
      | Some e => e :: log_range m (k + 1) n'
      | None => []
      end
  end.

(** The entries below [k]. *)
Definition log_below (k : LogIndex) (m : gmap LogIndex LogEntry) :
    gmap LogIndex LogEntry :=
  filter (fun p => p.1 < k) m.

(** The entries above [k]. *)
Definition log_above (k : LogIndex) (m : gmap LogIndex LogEntry) :
    gmap LogIndex LogEntry :=
  filter (fun p => k < p.1) m.

(** Every entry carries its position: [es] starts at index [k]. *)
Definition contiguous (k : LogIndex) (es : list LogEntry) : Prop :=
  forall j e, es !! j = Some e -> le_index e = k + N.of_nat j.

Record LogView : Type := MkLogView {
  lv_base : LogIndex;          (* last compacted index, 0 when none *)
  lv_base_term : Term;
  lv_last : LogIndex;          (* last index, [lv_base] when the log is empty *)
  lv_log : gmap LogIndex LogEntry;
  lv_snapshot : option Snapshot;
}.

Definition snapshot_base (o : option Snapshot) : LogIndex :=
  match o with Some s => last_included_index (snap_metadata s) | None => 0 end.

Definition snapshot_base_term (o : option Snapshot) : Term :=
  match o with Some s => last_included_term (snap_metadata s) | None => 0 end.

Record wf_view (v : LogView) : Prop := {
  wf_range : lv_base v <= lv_last v;
  wf_bound : u64 (lv_last v + 2);
  wf_base : lv_base v = snapshot_base (lv_snapshot v);
  wf_base_term : lv_base_term v = snapshot_base_term (lv_snapshot v);
  wf_dom i : is_Some (lv_log v !! i) <-> lv_base v < i <= lv_last v;
  wf_index i e : lv_log v !! i = Some e -> le_index e = i;
}.

(** *** What each operation returns and does to the view *)

Definition spec_term (v : LogView) (i : LogIndex) : raft_result Term :=
  if i =? 0 then Ok 0
  else if i <? lv_base v then Err (LogCompacted i (lv_base v + 1))
  else if i =? lv_base v then Ok (lv_base_term v)
  else match lv_log v !! i with
       | Some e => Ok (le_term e)
       | None => Err (LogUnavailable i)
       end.

(** [cap] says how much of the requested range a backend may leave out. *)
Definition spec_entries (v : LogView) (lo hi : LogIndex) (max : option N)
    (r : raft_result (list LogEntry)) : Prop :=
  if lo <? lv_base v + 1 then r = Err (LogCompacted lo (lv_base v + 1))
  else if lv_last v + 1 <? hi then r = Err (LogUnavailable hi)
  else exists es, r = Ok es /\
    es `prefix_of` log_range (lv_log v) lo (N.to_nat (hi - lo)) /\
    (lo < hi -> es <> []) /\
    (max = None -> es = log_range (lv_log v) lo (N.to_nat (hi - lo))).

(** A batch that continues or overwrites the uncompacted log. *)
Definition appendable (v : LogView) (es : list LogEntry) : Prop :=
  match es with
  | [] => True
  | e :: _ =>
      contiguous (le_index e) es /\
      lv_base v < le_index e <= lv_last v + 1 /\
      u64 (le_index e + nlen es + 1)
  end.

Definition spec_append (v : LogView) (es : list LogEntry) : LogView :=
  match es with
  | [] => v
  | e :: _ => {|
      lv_base := lv_base v;
      lv_base_term := lv_base_term v;
      lv_last := le_index e + nlen es - 1;
      lv_log := log_of (le_index e) es ∪ log_below (le_index e) (lv_log v);
      lv_snapshot := lv_snapshot v;
    |}
  end.

(** A snapshot at or above the current compaction point. *)
Definition installable (v : LogView) (sn : Snapshot) : Prop :=
  lv_base v <= last_included_index (snap_metadata sn) /\
  u64 (last_included_index (snap_metadata sn) + 2).

Definition spec_apply_snapshot (v : LogView) (sn : Snapshot) : LogView :=
  let li := last_included_index (snap_metadata sn) in {|
    lv_base := li;
    lv_base_term := last_included_term (snap_metadata sn);
    lv_last := N.max li (lv_last v);
    lv_log := log_above li (lv_log v);
    lv_snapshot := Some sn;
  |}.

Class LogStorage (St : Type) `{Storage St} : Type := {
  log_view : St -> LogView;
  log_wf : St -> Prop;
  log_wf_view s : log_wf s -> wf_view (log_view s);
  first_index_ok s : log_wf s ->
    st_first_index s = (Done (Ok (lv_base (log_view s) + 1)), s);
  last_index_ok s : log_wf s ->
    st_last_index s = (Done (Ok (lv_last (log_view s))), s);
  term_ok i s : log_wf s ->
    st_term i s = (Done (spec_term (log_view s) i), s);
  entries_ok lo hi max s : log_wf s ->
    exists r, st_entries lo hi max s = (Done r, s) /\
              spec_entries (log_view s) lo hi max r;
  snapshot_ok s : log_wf s ->
    st_snapshot s = (Done (Ok (lv_snapshot (log_view s))), s);
  append_entries_ok es s : log_wf s -> appendable (log_view s) es ->
    wp (st_append_entries es)
       (fun o s' => o = Done (Ok tt) /\ log_wf s' /\
                    log_view s' = spec_append (log_view s) es) s;
  apply_snapshot_ok sn s : log_wf s -> installable (log_view s) sn ->
    wp (st_apply_snapshot sn)
       (fun o s' => o = Done (Ok tt) /\ log_wf s' /\
                    log_view s' = spec_apply_snapshot (log_view s) sn) s;
  save_keeps_log hs s : log_wf s ->
    wp (st_save_hard_state hs)
       (fun _ s' => log_wf s' /\ log_view s' = log_view s) s;
}.

(** ** What the trait's comments say *)

(** "Returns [1] when there are no entries or no snapshot." *)
Definition doc_first_index (v : LogView) : LogIndex :=
  if bool_decide (lv_log v = ∅ \/ lv_snapshot v = None) then 1 else lv_base v + 1.

(** "Index of the last log entry, or [0] if the log is empty." *)
Definition doc_last_index (v : LogView) : LogIndex :=
  if bool_decide (lv_log v = ∅) then 0 else lv_last v.

(** The log has another entry than the batch at some index of it. *)
Definition conflicts (v : LogView) (es : list LogEntry) : bool :=
  existsb (fun e => match lv_log v !! le_index e with
                    | Some x => negb (bool_decide (x = e))
                    | None => false
                    end) es.

(** "Append a batch of new entries to the log, truncating any conflicting suffix
    before appending." Entries behind a batch that conflicts with nothing are no
    conflicting suffix. *)
Definition doc_append (v : LogView) (es : list LogEntry) : LogView :=
  match es with
  | [] => v
  | e :: _ =>
      let batch_end := le_index e + nlen es - 1 in {|
      lv_base := lv_base v;
      lv_base_term := lv_base_term v;
      lv_last := if conflicts v es then batch_end else N.max (lv_last v) batch_end;
      lv_log := log_of (le_index e) es ∪
                  (if conflicts v es then log_below (le_index e) (lv_log v) else lv_log v);
      lv_snapshot := lv_snapshot v;
    |}
  end.

(** The log without what is behind [k]. *)
Definition log_to (k : LogIndex) (v : LogView) : LogView := {|
  lv_base := lv_base v;
  lv_base_term := lv_base_term v;
  lv_last := N.min k (lv_last v);
  lv_log := log_below (k + 1) (lv_log v);
  lv_snapshot := lv_snapshot v;
|}.

(** ** Facts about logs *)

Lemma lookup_log_of k es i :
  log_of k es !! i = if k <=? i then es !! N.to_nat (i - k) else None.
Proof.
  revert k. induction es as [|e es IH]; intros k; cbn.
  { rewrite lookup_empty. by case_match. }
  destruct (decide (i = k)) as [->|Hne].
  { rewrite lookup_insert_eq, N.leb_refl, N.sub_diag. done. }
  rewrite lookup_insert_ne, IH by done.
  destruct (N.leb_spec k i), (N.leb_spec (k + 1) i); try lia; [|done].
  replace (N.to_nat (i - k)) with (S (N.to_nat (i - (k + 1)))) by lia. done.
Qed.

Lemma lookup_log_below k m i :
  log_below k m !! i = if i <? k then m !! i else None.
Proof.
  unfold log_below. rewrite map_lookup_filter.
  destruct (m !! i) as [e|]; cbn; [|by case_match].
  destruct (N.ltb_spec i k); case_guard; (done || lia).
Qed.

Lemma lookup_log_above k m i :
  log_above k m !! i = if k <? i then m !! i else None.
Proof.
  unfold log_above. rewrite map_lookup_filter.
  destruct (m !! i) as [e|]; cbn; [|by case_match].
  destruct (N.ltb_spec k i); case_guard; (done || lia).
Qed.

Lemma lookup_log_range m k n j :
  (forall i, k <= i < k + N.of_nat n -> is_Some (m !! i)) ->
  log_range m k n !! j = if Nat.ltb j n then m !! (k + N.of_nat j) else None.
Proof.
  revert k j. induction n as [|n IH]; intros k j Hd; cbn; [done|].
  destruct (Hd k) as [e He]; [lia|]. rewrite He.
  destruct j as [|j]; cbn; [by rewrite N.add_0_r|].
  rewrite IH by (intros i Hi; apply Hd; lia).
  replace (k + 1 + N.of_nat j) with (k + N.of_nat (S j)) by lia. done.
Qed.

Lemma length_log_range m k n :
  (forall i, k <= i < k + N.of_nat n -> is_Some (m !! i)) ->
  length (log_range m k n) = n.
Proof.
  revert k. induction n as [|n IH]; intros k Hd; cbn; [done|].
  destruct (Hd k) as [e He]; [lia|]. rewrite He. cbn. f_equal.
  apply IH. intros i Hi. apply Hd. lia.
Qed.

Lemma contiguous_cons k e es :
  contiguous k (e :: es) <-> le_index e = k /\ contiguous (k + 1) es.
Proof.
  split.
  - intros H. split; [specialize (H 0%nat e eq_refl); lia|].
    intros j e' Hj. specialize (H (S j) e' Hj). lia.
  - intros [He H] [|j] e' Hj; cbn in Hj; [injection Hj as <-; lia|].
    specialize (H j e' Hj). lia.
Qed.

Lemma contiguous_app k es1 es2 :
  contiguous k (es1 ++ es2) <-> contiguous k es1 /\ contiguous (k + nlen es1) es2.
Proof.
  revert k. induction es1 as [|e es1 IH]; intros k; cbn [app].
  - rewrite nlen_nil, N.add_0_r. split; [intros H; split; [by intros j|done]|tauto].
  - rewrite !contiguous_cons, IH, nlen_cons.
    replace (k + 1 + nlen es1) with (k + (nlen es1 + 1)) by lia. tauto.
Qed.

Lemma contiguous_take k n es : contiguous k es -> contiguous k (take n es).
Proof. intros H. rewrite <- (take_drop n es), contiguous_app in H. tauto. Qed.

Lemma contiguous_drop k n es :
  contiguous k es -> contiguous (k + N.of_nat n) (drop n es).
Proof.
  intros H j e Hj. rewrite lookup_drop in Hj. apply H in Hj. lia.
Qed.

Lemma contiguous_log_range v lo n :
  wf_view v -> contiguous lo (log_range (lv_log v) lo n).
Proof.
  intros Hv. revert lo. induction n as [|n IH]; intros lo; cbn; [by intros j|].
  destruct (lv_log v !! lo) as [e|] eqn:He; [|by intros j].
  rewrite contiguous_cons. split; [by apply (wf_index v Hv)|apply IH].
Qed.

Lemma contiguous_prefix k es1 es2 :
  es1 `prefix_of` es2 -> contiguous k es2 -> contiguous k es1.
Proof. intros [es ->]. rewrite contiguous_app. tauto. Qed.

Lemma wf_view_lookup_above v i : wf_view v -> lv_last v < i -> lv_log v !! i = None.
Proof.
  intros Hv Hi. destruct (lv_log v !! i) eqn:E; [|done].
  assert (is_Some (lv_log v !! i)) as Hd by eauto.
  apply (wf_dom v Hv) in Hd. lia.
Qed.

(** The term at an index the log has. *)
Lemma spec_term_lookup v i e :
  wf_view v -> lv_log v !! i = Some e -> spec_term v i = Ok (le_term e).
Proof.
  intros Hv He. assert (lv_base v < i <= lv_last v) as Hi by (apply wf_dom; eauto).
  unfold spec_term. rewrite He.
  destruct (N.eqb_spec i 0), (N.ltb_spec i (lv_base v)), (N.eqb_spec i (lv_base v));
    (done || lia).
Qed.

(** The batch is in the log after an append, and what is below it is as
    before. *)
Lemma spec_append_lookup v e es i :
  lv_log (spec_append v (e :: es)) !! i =
    if i <? le_index e then lv_log v !! i
    else (e :: es) !! N.to_nat (i - le_index e).
Proof.
  cbn [spec_append lv_log]. rewrite lookup_union, lookup_log_of, lookup_log_below.
  destruct (N.ltb_spec i (le_index e)), (N.leb_spec (le_index e) i); try lia.
  - by destruct (lv_log v !! i).
  - by destruct ((e :: es) !! N.to_nat (i - le_index e)).
Qed.

Lemma spec_append_base v es : lv_base (spec_append v es) = lv_base v.
Proof. by destruct es. Qed.

Lemma spec_append_base_term v es : lv_base_term (spec_append v es) = lv_base_term v.
Proof. by destruct es. Qed.

Lemma spec_append_last v e es :
  lv_last (spec_append v (e :: es)) = le_index e + nlen (e :: es) - 1.
Proof. done. Qed.

Lemma spec_append_wf v es :
  wf_view v -> appendable v es -> wf_view (spec_append v es).
Proof.
  intros Hv Ha. destruct es as [|e es]; [done|]. destruct Ha as (Hc & Hr & Hu).
  pose proof (wf_range v Hv). assert (1 <= nlen (e :: es)) by (rewrite nlen_cons; lia).
  split; try apply Hv; try (cbn [spec_append lv_base lv_last]; unfold u64 in *; lia).
  - intros i. rewrite spec_append_lookup. cbn [spec_append lv_base lv_last].
    destruct (N.ltb_spec i (le_index e)).
    + rewrite (wf_dom v Hv). lia.
    + rewrite lookup_lt_is_Some. unfold nlen in *. lia.
  - intros i e'. rewrite spec_append_lookup.
    destruct (N.ltb_spec i (le_index e)); [apply (wf_index v Hv)|].
    intros He. apply Hc in He. lia.
Qed.

Lemma spec_apply_snapshot_wf v sn :
  wf_view v -> installable v sn -> wf_view (spec_apply_snapshot v sn).
Proof.
  intros Hv [Hb Hu]. pose proof (wf_bound v Hv). unfold u64 in *.
  split; cbn [spec_apply_snapshot lv_base lv_last lv_log lv_snapshot lv_base_term];
    [lia|unfold u64; lia|done|done| |].
  - intros i. rewrite lookup_log_above.
    destruct (N.ltb_spec (last_included_index (snap_metadata sn)) i).
    + rewrite (wf_dom v Hv). lia.
    + split; [by intros []|lia].
  - intros i e. rewrite lookup_log_above. case_match; [apply (wf_index v Hv)|done].
Qed.

(** ** The laws and the comments *)

Lemma log_empty v : wf_view v -> lv_log v = ∅ <-> lv_last v = lv_base v.
Proof.
  intros Hv. pose proof (wf_range v Hv). split; intros He.
  - destruct (N.eq_dec (lv_last v) (lv_base v)) as [|Hne]; [done|].
    assert (is_Some (lv_log v !! lv_last v)) as [e Hs] by (apply (wf_dom v Hv); lia).
    by rewrite He, lookup_empty in Hs.
  - apply map_eq. intros i. rewrite lookup_empty. apply eq_None_not_Some.
    intros Hs. apply (wf_dom v Hv) in Hs. lia.
Qed.

Lemma doc_last_index_iff v :
  wf_view v -> lv_last v = doc_last_index v <-> (lv_base v = 0 \/ lv_base v < lv_last v).
Proof.
  intros Hv. pose proof (wf_range v Hv). unfold doc_last_index.
  case_bool_decide as He; rewrite (log_empty v Hv) in He; lia.
Qed.

Lemma doc_first_index_iff v :
  wf_view v -> lv_base v + 1 = doc_first_index v <-> (lv_base v = 0 \/ lv_base v < lv_last v).
Proof.
  intros Hv. pose proof (wf_range v Hv). pose proof (wf_base v Hv) as Hb. unfold doc_first_index.
  case_bool_decide as He.
  - split; [lia|]. destruct He as [He|He].
    + apply (log_empty v Hv) in He. lia.
    + rewrite He in Hb. cbn in Hb. lia.
  - split; [|done]. intros _. right. apply Decidable.not_or in He as [He _].
    rewrite (log_empty v Hv) in He. lia.
Qed.

Lemma doc_append_cut v e es :
  wf_view v -> appendable v (e :: es) ->
  spec_append v (e :: es) = log_to (le_index e + nlen (e :: es) - 1) (doc_append v (e :: es)).
Proof.
  intros Hv (Hc & Hr & Hu). assert (1 <= nlen (e :: es)) by (rewrite nlen_cons; lia).
  unfold log_to. cbn [doc_append spec_append lv_base lv_base_term lv_last lv_log lv_snapshot].
  f_equal; [case_match; lia|]. apply map_eq. intros i.
  rewrite lookup_log_below, !lookup_union, lookup_log_of.
  assert (nlen (e :: es) = N.of_nat (length (e :: es))) as Hlen by done.
  destruct (N.leb_spec (le_index e) i) as [Hi|Hi].
  - rewrite lookup_log_below, (proj2 (N.ltb_ge i _)) by done.
    destruct (N.ltb_spec i (le_index e + nlen (e :: es) - 1 + 1)) as [Hl|Hl].
    + destruct (lookup_lt_is_Some_2 (e :: es) (N.to_nat (i - le_index e))) as [x Hx]; [lia|].
      rewrite Hx. by destruct (if conflicts _ _ then _ else _), (_ !! i).
    + rewrite lookup_ge_None_2 by lia. done.
  - rewrite (proj2 (N.ltb_lt _ (le_index e + _ - 1 + 1))) by lia.
    case_match; rewrite ?lookup_log_below, ?(proj2 (N.ltb_lt _ _)) by done; done.
Qed.

Lemma doc_append_iff v e es :
  wf_view v -> appendable v (e :: es) ->
  spec_append v (e :: es) = doc_append v (e :: es) <->
    conflicts v (e :: es) = true \/ lv_last v <= le_index e + nlen (e :: es) - 1.
Proof.
  intros Hv Ha. pose proof (doc_append_cut v e es Hv Ha) as Hcut. destruct Ha as (Hc & Hr & Hu). split.
  - intros Heq. apply (f_equal lv_last) in Heq. cbn [spec_append doc_append lv_last] in Heq.
    destruct (conflicts v (e :: es)); [by left|right; lia].
  - intros Hcase. cbn [spec_append doc_append].
    destruct (conflicts v (e :: es)); [done|]. destruct Hcase as [|Hle]; [done|].
    f_equal; [lia|]. apply map_eq. intros i. rewrite !lookup_union, lookup_log_below.
    destruct (N.ltb_spec i (le_index e)); [done|]. rewrite lookup_log_of.
    rewrite (proj2 (N.leb_le _ _)) by done.
    destruct ((e :: es) !! N.to_nat (i - le_index e)) as [x|] eqn:Hx; [by destruct (lv_log v !! i)|].
    apply lookup_ge_None in Hx. rewrite (wf_view_lookup_above v i); [done|done|].
    unfold nlen in *. lia.
Qed.
