(* ===== verification/MemStorage.v ===== *)
(** * iceraft-storage: the in-memory backend

    Models src/iceraft-storage/src/mem.rs. The state is the [MemStorageInner]
    behind the lock; each method holds the lock for its whole body, so it is
    one step on that state. Theorems: the offset-indexed vector keeps the laws of
    [Storage] that the node needs (the class instances [MemStorage_durable] and
    [MemStorage_log]); where it does what the trait's comments say, and where
    not; what a size-capped read returns; and what happens outside the
    invariant: a batch below the compaction point and a stale snapshot. *)

From Stdlib Require Import Lia Init.Byte.
From stdpp Require Import base numbers list option gmap sets fin_maps strings.
From S2P Require Import Prelude.
From S2P Require Import Core.
From S2P Require Import Storage.

Record MemStorageInner : Type := MkMem {
  mem_hard_state : HardState;
  mem_entries : list LogEntry;
  mem_snapshot : option Snapshot;
}.

#[export] Instance MemStorageInner_eq_dec : EqDecision MemStorageInner.
Proof. solve_decision. Defined.

Definition MemStorage_new : MemStorageInner := MkMem HardState_default [] None.

Definition MemStorage_with_snapshot (snapshot : Snapshot) : MemStorageInner :=
  MkMem HardState_default [] (Some snapshot).

(** The loop of [entries] over the slice: [result] and [total_bytes] are its
    locals. The lengths added up are those of vectors alive at once, so their
    sum stays below [isize::MAX]. *)
Fixpoint take_capped (max : N) (slice result : list LogEntry) (total_bytes : N) :
    list LogEntry :=
  match slice with
  | [] => result
  | entry :: rest =>
      let size := nlen (le_data entry) in
      if negb (bool_decide (result = [])) && (max <? total_bytes + size)
      then result
      else take_capped max rest (result ++ [entry]) (total_bytes + size)
  end.

Section MemStorage.
Context {prof : BuildProfile}.
Local Abbreviation Mem := (M MemStorageInner).

Definition mem_first_index : Mem LogIndex :=
  let* snapshot := gets mem_snapshot in
  match snapshot with
  | Some s => u64_add (last_included_index (snap_metadata s)) 1
  | None => ret 1
  end.

Definition mem_last_index : Mem LogIndex :=
  let* entries := gets mem_entries in
  let* snapshot := gets mem_snapshot in
  match last entries with
  | Some l => ret (le_index l)
  | None =>
      match snapshot with
      | Some s => ret (last_included_index (snap_metadata s))
      | None => ret 0
      end
  end.

Definition mem_term (index : LogIndex) : Mem (raft_result Term) :=
  if index =? 0 then ret (Ok 0) else
  let* snapshot := gets mem_snapshot in
  let* covered :=
    match snapshot with
    | Some s =>
        let li := last_included_index (snap_metadata s) in
        if index <=? li then
          if index =? li
          then ret (Some (Ok (last_included_term (snap_metadata s))))
          else let* first_available := u64_add li 1 in
               ret (Some (Err (LogCompacted index first_available)))
        else ret None
    | None => ret None
    end in
  match covered with
  | Some r => ret r
  | None =>
      let* first := mem_first_index in
      if index <? first then ret (Err (LogCompacted index first)) else
      let* offset := u64_sub index first in
      let* entries := gets mem_entries in
      ret (match vec_get entries offset with
           | Some e => Ok (le_term e)
           | None => Err (LogUnavailable index)
           end)
  end.

Definition mem_entries_range (lo hi : LogIndex) (max_size : option N) :
    Mem (raft_result (list LogEntry)) :=
  let* first := mem_first_index in
  let* last := mem_last_index in
  if lo <? first then ret (Err (LogCompacted lo first)) else
  let* last1 := u64_add last 1 in
  if last1 <? hi then ret (Err (LogUnavailable hi)) else
  if hi <=? lo then ret (Ok []) else
  let* lo_offset := u64_sub lo first in
  let* hi_offset := u64_sub hi first in
  let* entries := gets mem_entries in
  let* slice := or_panic (vec_slice entries lo_offset hi_offset) in
  match max_size with
  | Some max => ret (Ok (take_capped max slice [] 0))
  | None => ret (Ok slice)
  end.

Definition mem_append_entries (entries : list LogEntry) : Mem (raft_result unit) :=
  match entries with
  | [] => ret (Ok tt)
  | e0 :: _ =>
      let* first := mem_first_index in
      let* last := mem_last_index in
      let incoming_first := le_index e0 in
      (if incoming_first <=? last then
         let* truncate_at := u64_sub incoming_first first in
         modify (fun s => MkMem (mem_hard_state s)
           (if truncate_at <? nlen (mem_entries s)
            then vec_truncate truncate_at (mem_entries s) else mem_entries s)
           (mem_snapshot s))
       else ret tt) ;;;
      modify (fun s => MkMem (mem_hard_state s) (mem_entries s ++ entries)
                             (mem_snapshot s)) ;;;
      ret (Ok tt)
  end.

Definition mem_save_hard_state (hs : HardState) : Mem (raft_result unit) :=
  modify (fun s => MkMem hs (mem_entries s) (mem_snapshot s)) ;;;
  ret (Ok tt).

Definition mem_load_hard_state : Mem (raft_result HardState) :=
  let* hs := gets mem_hard_state in ret (Ok hs).

Definition mem_snapshot_get : Mem (raft_result (option Snapshot)) :=
  let* snapshot := gets mem_snapshot in ret (Ok snapshot).

Definition mem_apply_snapshot (snapshot : Snapshot) : Mem (raft_result unit) :=
  let last_included := last_included_index (snap_metadata snapshot) in
  let* first := mem_first_index in
  (if first <=? last_included then
     let* d := u64_sub last_included first in
     let* drop_count := u64_add d 1 in
     modify (fun s => MkMem (mem_hard_state s)
       (if nlen (mem_entries s) <=? drop_count then []
        else drop (N.to_nat drop_count) (mem_entries s))
       (mem_snapshot s))
   else ret tt) ;;;
  modify (fun s => MkMem (mem_hard_state s) (mem_entries s) (Some snapshot)) ;;;
  ret (Ok tt).

#[export] Instance MemStorage : Storage MemStorageInner := {|
  st_save_hard_state := mem_save_hard_state;
  st_load_hard_state := mem_load_hard_state;
  st_first_index := let* i := mem_first_index in ret (Ok i);
  st_last_index := let* i := mem_last_index in ret (Ok i);
  st_term := mem_term;
  st_entries := mem_entries_range;
  st_append_entries := mem_append_entries;
  st_snapshot := mem_snapshot_get;
  st_apply_snapshot := mem_apply_snapshot;
|}.
End MemStorage.

#[global] Arguments mem_first_index : simpl never.
#[global] Arguments mem_last_index : simpl never.

(** ** The invariant and the log it stands for *)

Definition mem_base (s : MemStorageInner) : LogIndex := snapshot_base (mem_snapshot s).

(** [entries[0]] is the first available index, the indices are consecutive,
    and the next two fit in a [u64]. *)
Definition mem_wf (s : MemStorageInner) : Prop :=
  contiguous (mem_base s + 1) (mem_entries s) /\
  u64 (mem_base s + nlen (mem_entries s) + 2).

#[export] Instance mem_wf_dec s : Decision (mem_wf s).
Proof.
  unfold mem_wf, contiguous, u64.
  destruct (decide (u64 (mem_base s + nlen (mem_entries s) + 2))) as [Hu|Hu];
    unfold u64 in Hu; [|right; tauto].
  destruct (decide (Forall (fun je => le_index je.2 = mem_base s + 1 + N.of_nat je.1)
                           (imap pair (mem_entries s)))) as [Hf|Hf];
    [left|right].
  - split; [|done]. intros j e He. rewrite Forall_lookup in Hf.
    apply (Hf j (j, e)). rewrite list_lookup_imap, He. done.
  - intros [Hc _]. apply Hf. apply Forall_lookup. intros j [j' e].
    rewrite list_lookup_imap. destruct (mem_entries s !! j) as [e'|] eqn:E; [|done].
    cbn. intros [= <- <-]. by apply Hc.
Defined.

Definition mem_view (s : MemStorageInner) : LogView := {|
  lv_base := mem_base s;
  lv_base_term := snapshot_base_term (mem_snapshot s);
  lv_last := mem_base s + nlen (mem_entries s);
  lv_log := log_of (mem_base s + 1) (mem_entries s);
  lv_snapshot := mem_snapshot s;
|}.

Lemma mem_wf_wf_view s : mem_wf s -> wf_view (mem_view s).
Proof.
  intros [Hc Hu]. unfold nlen in *. split; cbn; try done.
  - lia.
  - intros i. rewrite lookup_log_of.
    destruct (N.leb_spec (mem_base s + 1) i).
    + rewrite lookup_lt_is_Some. unfold nlen. lia.
    + split; [by intros []|lia].
  - intros i e. rewrite lookup_log_of. case_match eqn:Hi; [|done].
    intros He. apply Hc in He. apply N.leb_le in Hi. lia.
Qed.

(** ** The methods on well-formed states *)

Lemma last_contiguous k es :
  contiguous k es -> es <> [] ->
  exists e, last es = Some e /\ le_index e = k + nlen es - 1.
Proof.
  intros Hc Hne. destruct (last es) as [e|] eqn:E; [|by apply last_None in E].
  exists e. split; [done|].
  pose proof E as E'. rewrite last_lookup in E'. apply Hc in E'. unfold nlen.
  destruct es; [done|]. cbn [length pred] in *. lia.
Qed.

(** The bytes a batch carries. *)
Definition total_len (es : list LogEntry) : N :=
  foldr (fun e n => nlen (le_data e) + n) 0 es.

Lemma total_len_snoc es e : total_len (es ++ [e]) = total_len es + nlen (le_data e).
Proof. induction es as [|e' es IH]; cbn; [lia|]. unfold total_len in *. lia. Qed.

Lemma take_capped_step max slice result :
  result <> [] ->
  exists k, take_capped max slice result (total_len result) = result ++ k /\
    k `prefix_of` slice /\
    (k <> [] -> total_len (result ++ k) <= max) /\
    (forall e, slice !! length k = Some e -> max < total_len (result ++ k ++ [e])).
Proof.
  revert result. induction slice as [|e slice IH]; intros result Hne; cbn [take_capped].
  { exists []. by rewrite app_nil_r. }
  rewrite bool_decide_false by done. cbn [negb andb].
  destruct (N.ltb_spec max (total_len result + nlen (le_data e))) as [Hmax|Hmax].
  - exists []. rewrite app_nil_r. split; [done|split; [apply prefix_nil|split; [done|]]].
    intros e'; cbn; intros [= <-]. by rewrite total_len_snoc.
  - rewrite <- total_len_snoc in *.
    destruct (IH (result ++ [e])) as (k & -> & Hk & Hle & Hnext).
    { by destruct result. }
    exists (e :: k). rewrite <- app_assoc. split; [done|].
    split; [by apply prefix_cons|split].
    + intros _. destruct (decide (k = [])) as [->|Hk0]; [done|].
      specialize (Hle Hk0). by rewrite <- app_assoc in Hle.
    + intros e' He'. specialize (Hnext e' He'). by rewrite <- app_assoc in Hnext.
Qed.

(** What the cap keeps of a slice: a prefix, never empty unless the slice is,
    within [max] bytes unless it is one entry, and as long as [max] allows. *)
Lemma take_capped_spec max slice :
  let r := take_capped max slice [] 0 in
  r `prefix_of` slice /\ (slice <> [] -> r <> []) /\
  ((1 < length r)%nat -> total_len r <= max) /\
  (forall e, r <> [] -> slice !! length r = Some e -> max < total_len (r ++ [e])).
Proof.
  destruct slice as [|e slice]; cbn.
  { split; [apply prefix_nil|]. split; [done|]. split; [lia|done]. }
  destruct (take_capped_step max slice [e]) as (k & Heq & Hk & Hle & Hnext); [done|].
  replace (total_len [e]) with (0 + nlen (le_data e)) in Heq by (cbn; lia).
  rewrite Heq. split; [by apply prefix_cons|split; [by intros _ [=]|split]].
  - intros Hl. apply Hle. by destruct k; [cbn in Hl; lia|].
  - intros e' _ He'. by apply Hnext.
Qed.

Section laws.
Context {prof : BuildProfile}.

Lemma mem_first_index_run s :
  u64 (mem_base s + 1) -> mem_first_index s = (Done (mem_base s + 1), s).
Proof.
  destruct s as [hs es [sn|]]; unfold mem_base; cbn; intros Hu;
    unfold mem_first_index, bind, gets; cbn; [by rewrite u64_add_small|done].
Qed.

Lemma mem_last_index_run s :
  mem_wf s -> mem_last_index s = (Done (mem_base s + nlen (mem_entries s)), s).
Proof.
  destruct s as [hs es sn]; intros [Hc _]; unfold mem_base in *; cbn in *.
  unfold mem_last_index, bind, gets; cbn.
  destruct (decide (es = [])) as [->|Hne].
  - cbn. rewrite (nlen_nil (A:=LogEntry)), N.add_0_r. by destruct sn.
  - destruct (last_contiguous _ _ Hc Hne) as (e & -> & ->).
    assert (1 <= nlen es) by (destruct es; [done|]; rewrite nlen_cons; lia).
    unfold ret. do 2 f_equal. lia.
Qed.

Lemma mem_first_index_wf s :
  mem_wf s -> mem_first_index s = (Done (mem_base s + 1), s).
Proof. intros [_ Hu]. apply mem_first_index_run. unfold u64 in *. lia. Qed.

Lemma mem_term_run i s :
  mem_wf s -> mem_term i s = (Done (spec_term (mem_view s) i), s).
Proof.
  intros Hwf. pose proof Hwf as [_ Hu]. unfold mem_term, spec_term, mem_view; cbn.
  destruct (N.eqb_spec i 0) as [->|Hi]; [done|].
  unfold bind at 1 2, gets. rewrite lookup_log_of.
  assert (Hb : snapshot_base (mem_snapshot s) = mem_base s) by done.
  destruct (mem_snapshot s) as [sn|] eqn:Hsn; cbn in Hb.
  - rewrite Hb. destruct (N.leb_spec i (mem_base s)) as [Hle|Hlt].
    + destruct (N.eqb_spec i (mem_base s)) as [->|Hne].
      { rewrite N.ltb_irrefl. done. }
      destruct (N.ltb_spec i (mem_base s)); [|lia].
      rewrite u64_add_small by (unfold u64 in *; lia). done.
    + unfold ret at 1. unfold bind at 1. rewrite mem_first_index_wf by done.
      destruct (N.ltb_spec i (mem_base s)), (N.eqb_spec i (mem_base s)); try lia.
      destruct (N.ltb_spec i (mem_base s + 1)); [lia|].
      destruct (N.leb_spec (mem_base s + 1) i); [|lia].
      unfold bind. rewrite u64_sub_small by lia. cbn. rewrite vec_get_lookup.
      by destruct (mem_entries s !! _).
  - unfold ret at 1. unfold bind at 1. rewrite mem_first_index_wf by done.
    rewrite <- Hb. destruct (N.ltb_spec i 0), (N.eqb_spec i 0); try lia.
    destruct (N.ltb_spec i (0 + 1)); [lia|].
    destruct (N.leb_spec (0 + 1) i); [|lia].
    unfold bind. rewrite u64_sub_small by lia. cbn. rewrite vec_get_lookup.
    by destruct (mem_entries s !! _).
Qed.

(** The slice of the vector is the range of the log. *)
Lemma log_range_slice s lo hi :
  mem_base s + 1 <= lo -> lo <= hi ->
  hi <= mem_base s + nlen (mem_entries s) + 1 ->
  vec_slice (mem_entries s) (lo - (mem_base s + 1)) (hi - (mem_base s + 1))
  = Some (log_range (lv_log (mem_view s)) lo (N.to_nat (hi - lo))).
Proof.
  intros Hlo Hlh Hhi. unfold vec_slice.
  destruct (N.leb_spec (lo - (mem_base s + 1)) (hi - (mem_base s + 1))); [|lia].
  destruct (N.leb_spec (hi - (mem_base s + 1)) (nlen (mem_entries s))); [|lia].
  cbn [andb]. f_equal.
  assert (Hd : forall i, lo <= i < lo + N.of_nat (N.to_nat (hi - lo)) ->
                         is_Some (lv_log (mem_view s) !! i)).
  { intros i Hi. cbn. rewrite lookup_log_of.
    destruct (N.leb_spec (mem_base s + 1) i); [|lia].
    rewrite lookup_lt_is_Some. unfold nlen in *. lia. }
  apply list_eq. intros j. rewrite lookup_log_range by done.
  destruct (Nat.ltb_spec j (N.to_nat (hi - lo))).
  - rewrite lookup_take_lt by lia. rewrite lookup_drop. cbn. rewrite lookup_log_of.
    destruct (N.leb_spec (mem_base s + 1) (lo + N.of_nat j)); [|lia].
    f_equal. lia.
  - apply lookup_take_ge. lia.
Qed.

Lemma mem_entries_run lo hi max s :
  mem_wf s ->
  mem_entries_range lo hi max s =
    (Done (if lo <? mem_base s + 1 then Err (LogCompacted lo (mem_base s + 1))
           else if mem_base s + nlen (mem_entries s) + 1 <? hi
           then Err (LogUnavailable hi)
           else let slice := log_range (lv_log (mem_view s)) lo (N.to_nat (hi - lo)) in
                Ok (match max with
                    | Some m => take_capped m slice [] 0
                    | None => slice
                    end)), s).
Proof.
  intros Hwf. pose proof Hwf as [_ Hu]. unfold mem_entries_range.
  unfold bind at 1. rewrite mem_first_index_wf by done.
  unfold bind at 1. rewrite mem_last_index_run by done.
  destruct (N.ltb_spec lo (mem_base s + 1)) as [|Hlo]; [done|].
  unfold bind at 1. rewrite u64_add_small by (unfold u64 in *; lia).
  unfold ret at 1. case_match eqn:Hlast; [done|]. apply N.ltb_ge in Hlast.
  destruct (N.leb_spec hi lo) as [Hle|Hlt].
  { replace (N.to_nat (hi - lo)) with 0%nat by lia. by destruct max. }
  unfold bind. rewrite !u64_sub_small by lia. cbn [ret gets].
  rewrite log_range_slice by lia. by destruct max.
Qed.

Lemma mem_entries_spec lo hi max s :
  mem_wf s -> exists r, mem_entries_range lo hi max s = (Done r, s) /\
                        spec_entries (mem_view s) lo hi max r.
Proof.
  intros Hwf. rewrite mem_entries_run by done. eexists; split; [done|].
  unfold spec_entries. cbn [lv_base lv_last mem_view].
  case_match eqn:Hlo; [done|]. case_match eqn:Hhi; [done|].
  apply N.ltb_ge in Hlo, Hhi. eexists; split; [done|].
  set (slice := log_range _ _ _).
  assert (lo < hi -> slice <> []) as Hne.
  { intros Hlt. unfold slice.
    replace (N.to_nat (hi - lo)) with (S (N.to_nat (hi - lo - 1))) by lia. cbn.
    rewrite lookup_log_of. destruct (N.leb_spec (mem_base s + 1) lo); [|lia].
    destruct (mem_entries s !! N.to_nat (lo - (mem_base s + 1))) eqn:E; [done|].
    apply lookup_ge_None in E. unfold nlen in *. lia. }
  destruct max as [m|]; [|done].
  destruct (take_capped_spec m slice) as (Hp & Hn & _).
  split; [done|]. split; [by auto|done].
Qed.

(** The vector after an append inside the invariant: everything from the
    batch's first index on is replaced by the batch. *)
Definition appended (s : MemStorageInner) (es : list LogEntry) : MemStorageInner :=
  match es with
  | [] => s
  | e :: _ =>
      MkMem (mem_hard_state s)
        (take (N.to_nat (le_index e - (mem_base s + 1))) (mem_entries s) ++ es)
        (mem_snapshot s)
  end.

Lemma mem_append_run es s :
  mem_wf s -> appendable (mem_view s) es ->
  mem_append_entries es s = (Done (Ok tt), appended s es).
Proof.
  intros Hwf Ha. destruct es as [|e es]; [done|].
  destruct Ha as (_ & [Hlo Hhi] & _). cbn [lv_base lv_last mem_view] in Hlo, Hhi.
  unfold mem_append_entries. unfold bind at 1. rewrite mem_first_index_wf by done.
  unfold bind at 1. rewrite mem_last_index_run by done. cbn [appended].
  destruct s as [hs l sn]; cbn in *.
  destruct (N.leb_spec (le_index e) (mem_base (MkMem hs l sn) + nlen l)) as [Hle|Hgt].
  - unfold bind at 2. rewrite u64_sub_small by lia. unfold bind, modify, ret; cbn.
    set (n := le_index e - _). destruct (N.ltb_spec n (nlen l)); [|lia].
    unfold vec_truncate. destruct (N.ltb_spec n (nlen l)); [done|lia].
  - unfold bind, modify, ret; cbn. rewrite take_ge; [done|]. unfold nlen in *. lia.
Qed.

Lemma appended_wf_view es s :
  mem_wf s -> appendable (mem_view s) es ->
  mem_wf (appended s es) /\ mem_view (appended s es) = spec_append (mem_view s) es.
Proof.
  intros [Hc Hu] Ha. destruct es as [|e es]; [done|].
  destruct Ha as (Hce & [Hlo Hhi] & Hbd). cbn [lv_base lv_last mem_view] in Hlo, Hhi.
  unfold mem_wf, mem_view, appended, spec_append, mem_base in *.
  cbn [mem_snapshot mem_entries mem_hard_state lv_base lv_base_term lv_last lv_log lv_snapshot].
  set (b := snapshot_base (mem_snapshot s)) in *.
  set (n := N.to_nat (le_index e - (b + 1))).
  assert (Hn : length (take n (mem_entries s)) = n).
  { rewrite length_take. unfold nlen in *. lia. }
  assert (Hk : b + 1 + nlen (take n (mem_entries s)) = le_index e).
  { unfold nlen. rewrite Hn. lia. }
  split; [split|].
  - apply contiguous_app. split; [by apply contiguous_take|by rewrite Hk].
  - rewrite nlen_app. unfold u64 in *. lia.
  - f_equal; [rewrite nlen_app; lia|].
    apply map_eq. intros i.
    rewrite lookup_union, lookup_log_below, !lookup_log_of.
    destruct (N.leb_spec (b + 1) i) as [Hi|Hi].
    + destruct (N.ltb_spec i (le_index e)), (N.leb_spec (le_index e) i); try lia.
      * rewrite lookup_app_l, lookup_take_lt by lia.
        by destruct (mem_entries s !! _).
      * rewrite lookup_app_r by lia. rewrite Hn.
        replace (N.to_nat (i - (b + 1)) - n)%nat with (N.to_nat (i - le_index e)) by lia.
        by destruct ((e :: es) !! N.to_nat (i - le_index e)).
    + destruct (N.leb_spec (le_index e) i); [lia|]. by case_match.
Qed.

(** The vector after a snapshot that is not below the current one. *)
Definition snapshotted (s : MemStorageInner) (sn : Snapshot) : MemStorageInner :=
  MkMem (mem_hard_state s)
    (drop (N.to_nat (last_included_index (snap_metadata sn) - mem_base s)) (mem_entries s))
    (Some sn).

Lemma mem_apply_snapshot_run sn s :
  mem_wf s -> installable (mem_view s) sn ->
  mem_apply_snapshot sn s = (Done (Ok tt), snapshotted s sn).
Proof.
  intros Hwf [Hb Hu]. cbn [lv_base mem_view] in Hb. unfold snapshotted.
  unfold mem_apply_snapshot. unfold bind at 1. rewrite mem_first_index_wf by done.
  destruct s as [hs l osn]; cbn [mem_snapshot mem_entries mem_hard_state].
  set (b := mem_base _) in *. set (li := last_included_index _) in *.
  destruct (N.leb_spec (b + 1) li) as [Hle|Hgt].
  - unfold bind at 2. rewrite u64_sub_small by lia.
    unfold bind, modify, ret; cbn. rewrite u64_add_small by (unfold u64 in *; lia).
    unfold ret. cbn. do 2 f_equal.
    replace (li - (b + 1) + 1) with (li - b) by lia.
    destruct (N.leb_spec (nlen l) (li - b)); [|done].
    symmetry. apply drop_ge. unfold nlen in *. lia.
  - unfold bind, modify, ret; cbn. replace (li - b) with 0 by lia. done.
Qed.

Lemma snapshotted_wf_view sn s :
  mem_wf s -> installable (mem_view s) sn ->
  mem_wf (snapshotted s sn) /\
  mem_view (snapshotted s sn) = spec_apply_snapshot (mem_view s) sn.
Proof.
  intros [Hc Hu] [Hb Hli]. cbn [lv_base mem_view] in Hb.
  unfold mem_wf, mem_view, snapshotted, spec_apply_snapshot, mem_base in *.
  cbn [mem_snapshot mem_entries mem_hard_state lv_base lv_base_term lv_last lv_log
       lv_snapshot snapshot_base snapshot_base_term] in *.
  set (b := snapshot_base (mem_snapshot s)) in *.
  set (li := last_included_index (snap_metadata sn)) in *.
  assert (Hl : nlen (drop (N.to_nat (li - b)) (mem_entries s))
               = nlen (mem_entries s) - (li - b)).
  { unfold nlen. rewrite length_drop. lia. }
  split; [split|].
  - replace (li + 1) with (b + 1 + N.of_nat (N.to_nat (li - b))) by lia.
    by apply contiguous_drop.
  - rewrite Hl. unfold u64 in *. lia.
  - f_equal; [rewrite Hl; lia|].
    apply map_eq. intros i. rewrite lookup_log_above, !lookup_log_of.
    destruct (N.leb_spec (li + 1) i), (N.ltb_spec li i), (N.leb_spec (b + 1) i);
      try lia; [|done..].
    rewrite lookup_drop. f_equal. lia.
Qed.
End laws.

(** ** The backend keeps the laws *)

Section instances.
Context {prof : BuildProfile}.

Lemma mem_first_index_keeps : keeps mem_hard_state mem_first_index.
Proof. unfold mem_first_index. solve_keeps. Qed.

Lemma mem_last_index_keeps : keeps mem_hard_state mem_last_index.
Proof. unfold mem_last_index. solve_keeps. Qed.

Hint Resolve mem_first_index_keeps mem_last_index_keeps : keeps.

#[export] Instance MemStorage_durable : DurableStorage MemStorageInner.
Proof.
  refine {| hard_state_of := mem_hard_state |}; cbn.
  - done.
  - done.
  - solve_keeps.
  - solve_keeps.
  - unfold mem_term. solve_keeps.
  - unfold mem_entries_range. solve_keeps.
  - unfold mem_append_entries. solve_keeps.
  - unfold mem_snapshot_get. solve_keeps.
  - unfold mem_apply_snapshot. solve_keeps.
Defined.

#[export] Instance MemStorage_log : LogStorage MemStorageInner.
Proof.
  refine {| log_view := mem_view; log_wf := mem_wf |}; cbn.
  - apply mem_wf_wf_view.
  - intros s Hwf. unfold bind. by rewrite mem_first_index_wf.
  - intros s Hwf. unfold bind. by rewrite mem_last_index_run.
  - intros i s. apply mem_term_run.
  - intros lo hi max s. apply mem_entries_spec.
  - done.
  - intros es s Hwf Ha. unfold wp. rewrite mem_append_run by done. cbn.
    split; [done|]. by apply appended_wf_view.
  - intros sn s Hwf Hi. unfold wp. rewrite mem_apply_snapshot_run by done. cbn.
    split; [done|]. by apply snapshotted_wf_view.
  - done.
Defined.
End instances.

(** ** Properties *)

Section properties.
Context {prof : BuildProfile}.

(** C20. [MemStorage] against the comments of the trait, on any well-formed
    state and in either build profile, with the log read off the vector by its
    offset. [term], [entries] and [snapshot] return what the comments say: the
    term of the entry at an index, or that it is compacted or not there; the
    entries of a range, a non-empty part of it from its start if a size cap is
    given and all of it if not; the snapshot. [last_index] and [first_index] are
    the documented ones if and only if there is an entry or nothing is
    compacted: on an empty log above a snapshot they are the snapshot's index and
    the one after it, not 0 and 1. An append of consecutive entries that starts
    above the compaction point and leaves no gap succeeds, and the log it leaves
    is the documented one, in which a conflicting suffix is truncated, cut off
    after the batch: it is the documented log itself if and only if the batch is
    empty, conflicts with an entry or reaches the end of the log, and otherwise
    entries that match or follow the batch are lost. A snapshot at or above the
    current one is stored, and exactly the entries it includes are removed. *)
Theorem mem_against_trait s (Hwf : mem_wf s) :
  let v := mem_view s in
  (exists l, st_last_index s = (Done (Ok l), s) /\
     (l = doc_last_index v <-> (lv_base v = 0 \/ lv_base v < lv_last v))) /\
  (exists f, st_first_index s = (Done (Ok f), s) /\
     (f = doc_first_index v <-> (lv_base v = 0 \/ lv_base v < lv_last v))) /\
  (forall i, st_term i s = (Done (spec_term v i), s)) /\
  (forall lo hi max, exists r, st_entries lo hi max s = (Done r, s) /\ spec_entries v lo hi max r) /\
  st_snapshot s = (Done (Ok (lv_snapshot v)), s) /\
  (forall es, appendable v es -> exists s',
     st_append_entries es s = (Done (Ok tt), s') /\ mem_wf s' /\
     (forall e, last es = Some e -> mem_view s' = log_to (le_index e) (doc_append v es)) /\
     (mem_view s' = doc_append v es <->
        es = [] \/ conflicts v es = true \/ forall e, last es = Some e -> lv_last v <= le_index e)) /\
  (forall sn, installable v sn -> exists s',
     st_apply_snapshot sn s = (Done (Ok tt), s') /\ mem_wf s' /\
     lv_snapshot (mem_view s') = Some sn /\
     forall i, lv_log (mem_view s') !! i =
       if last_included_index (snap_metadata sn) <? i then lv_log v !! i else None).
Proof.
  intros v. pose proof (mem_wf_wf_view s Hwf) as Hv.
  split; [eexists; split; [exact (last_index_ok s Hwf)|by apply doc_last_index_iff]|].
  split; [eexists; split; [exact (first_index_ok s Hwf)|by apply doc_first_index_iff]|].
  split; [intros i; by apply mem_term_run|].
  split; [intros lo hi max; by apply mem_entries_spec|].
  split; [done|split].
  - intros es Ha. destruct (appended_wf_view es s Hwf Ha) as [Hwf' Hv']. exists (appended s es).
    split; [by apply mem_append_run|]. split; [done|]. rewrite Hv'. fold v.
    destruct es as [|e es]; [by split; [intros ? [=]|split; [by left|]]|].
    assert (forall x, last (e :: es) = Some x -> le_index x = le_index e + nlen (e :: es) - 1) as Hx.
    { intros x Hx. rewrite last_lookup in Hx. rewrite (proj1 Ha _ _ Hx). unfold nlen. cbn. lia. }
    split; [intros x Hl; rewrite (Hx x Hl); by apply doc_append_cut|].
    rewrite (doc_append_iff v e es Hv Ha). destruct (last (e :: es)) as [x|] eqn:Hl.
    + specialize (Hx x eq_refl). split.
      * intros [?|?]; [by right; left|]. right. right. intros y [= <-]. lia.
      * intros [[=]|[?|Hle]]; [by left|right]. rewrite <- Hx. by apply Hle.
    + apply last_None in Hl. done.
  - intros sn Hi. exists (snapshotted s sn). split; [by apply mem_apply_snapshot_run|].
    destruct (snapshotted_wf_view sn s Hwf Hi) as [Hwf' Hv']. split; [done|]. rewrite Hv'.
    split; [done|]. intros i. apply lookup_log_above.
Qed.

(** Append then read: after a batch that continues or overwrites the log
    is appended, reading from the batch's first index to the end returns
    exactly the batch, and everything below it reads as before: old entries
    from that index on are gone, none below it is. *)
Theorem append_then_read s e es (Hwf : mem_wf s)
    (Ha : appendable (mem_view s) (e :: es)) :
  exists s', st_append_entries (e :: es) s = (Done (Ok tt), s') /\
    st_entries (le_index e) (le_index e + nlen (e :: es)) None s' =
      (Done (Ok (e :: es)), s') /\
    st_last_index s' = (Done (Ok (le_index e + nlen (e :: es) - 1)), s') /\
    (forall i, i < le_index e ->
       st_term i s' = (Done (spec_term (mem_view s) i), s')).
Proof.
  exists (appended s (e :: es)).
  destruct (appended_wf_view (e :: es) s Hwf Ha) as [Hwf' Hv].
  pose proof (mem_wf_wf_view _ Hwf') as Hwv.
  destruct Ha as (Hc & Hr & Hu).
  assert (Hn : 1 <= nlen (e :: es)) by (rewrite nlen_cons; lia).
  split; [by apply mem_append_run|].
  split; [|split].
  - cbn [st_entries MemStorage]. rewrite mem_entries_run by done.
    change (mem_base (appended s (e :: es))) with (lv_base (mem_view (appended s (e :: es)))).
    change (lv_base (mem_view (appended s (e :: es))) + nlen (mem_entries (appended s (e :: es))))
      with (lv_last (mem_view (appended s (e :: es)))).
    rewrite Hv in *. cbn zeta. rewrite spec_append_base, spec_append_last.
    destruct (N.ltb_spec (le_index e) (lv_base (mem_view s) + 1)); [lia|].
    destruct (N.ltb_spec (le_index e + nlen (e :: es) - 1 + 1)
                         (le_index e + nlen (e :: es))); [lia|].
    do 3 f_equal.
    replace (le_index e + nlen (e :: es) - le_index e) with (nlen (e :: es)) by lia.
    assert (Hd : forall i, le_index e <= i < le_index e + N.of_nat (N.to_nat (nlen (e :: es))) ->
              is_Some (lv_log (spec_append (mem_view s) (e :: es)) !! i)).
    { intros i Hi. apply (wf_dom _ Hwv). rewrite spec_append_base, spec_append_last. lia. }
    apply list_eq. intros j. rewrite lookup_log_range by done.
    rewrite spec_append_lookup. unfold nlen.
    destruct (Nat.ltb_spec j (N.to_nat (N.of_nat (length (e :: es))))).
    + destruct (N.ltb_spec (le_index e + N.of_nat j) (le_index e)); [lia|].
      f_equal. lia.
    + symmetry. apply lookup_ge_None. lia.
  - rewrite (last_index_ok (LogStorage := MemStorage_log) _ Hwf').
    cbn [log_view MemStorage_log]. by rewrite Hv, spec_append_last.
  - intros i Hi. rewrite (term_ok (LogStorage := MemStorage_log) _ _ Hwf').
    cbn [log_view MemStorage_log]. rewrite Hv. unfold spec_term.
    rewrite spec_append_lookup, spec_append_base, spec_append_base_term.
    destruct (N.ltb_spec i (le_index e)); [done|lia].
Qed.

(** C40. Size cap: a read of a non-empty range within the log with a byte limit
    returns a prefix of the range; it is not empty, its data fits in the limit
    unless it is a single entry, and one more entry would not fit: the prefix is
    as long as the limit allows. *)
Theorem capped_read s lo hi max (Hwf : mem_wf s)
    (Hlo : mem_base s + 1 <= lo) (Hlh : lo < hi)
    (Hhi : hi <= mem_base s + nlen (mem_entries s) + 1) :
  let range := log_range (lv_log (mem_view s)) lo (N.to_nat (hi - lo)) in
  exists es, st_entries lo hi (Some max) s = (Done (Ok es), s) /\
    es `prefix_of` range /\ es <> [] /\
    ((1 < length es)%nat -> total_len es <= max) /\
    (forall e, range !! length es = Some e -> max < total_len (es ++ [e])).
Proof.
  intros range. exists (take_capped max range [] 0).
  cbn [st_entries MemStorage]. rewrite mem_entries_run by done.
  destruct (N.ltb_spec lo (mem_base s + 1)); [lia|].
  destruct (N.ltb_spec (mem_base s + nlen (mem_entries s) + 1) hi); [lia|].
  destruct (take_capped_spec max range) as (Hp & Hne & Hle & Hnext).
  assert (range <> []) as Hr.
  { intros Hr. assert (length range = N.to_nat (hi - lo)) as Hl; [|rewrite Hr in Hl; cbn in Hl; lia].
    apply length_log_range. intros i Hi. apply (wf_dom _ (mem_wf_wf_view s Hwf)). cbn. lia. }
  split; [done|]. split; [done|]. split; [by apply Hne|]. split; [done|].
  intros e He. apply Hnext; [by apply Hne|done].
Qed.

(** Below the compaction point: appending a batch that starts at or below
    the last compacted index underflows [incoming_first - first]. With
    overflow checks the call panics and changes nothing; without, the offset
    wraps to a huge value, nothing is truncated, the batch is added at the
    end and the vector's offsets no longer match the entries' indices. *)
Theorem append_below_base s e es (Hwf : mem_wf s) (Hb : le_index e <= mem_base s) :
  let s' := MkMem (mem_hard_state s) (mem_entries s ++ e :: es) (mem_snapshot s) in
  st_append_entries (e :: es) s =
    (if overflow_checks then (Panicked, s) else (Done (Ok tt), s')) /\ ~ mem_wf s'.
Proof.
  intros s'. split.
  - cbn [st_append_entries MemStorage]. unfold mem_append_entries.
    unfold bind at 1. rewrite mem_first_index_wf by done.
    unfold bind at 1. rewrite mem_last_index_run by done.
    destruct (N.leb_spec (le_index e) (mem_base s + nlen (mem_entries s))); [|lia].
    unfold bind at 2, u64_sub. destruct (N.leb_spec (mem_base s + 1) (le_index e)); [lia|].
    destruct overflow_checks; [done|]. unfold bind, ret, modify; cbn.
    destruct Hwf as [_ Hu]. unfold u64 in Hu.
    destruct (N.ltb_spec (u64_modulus + le_index e - (mem_base s + 1))
                         (nlen (mem_entries s))); [lia|done].
  - intros [Hc _]. specialize (Hc (length (mem_entries s)) e).
    cbn [mem_entries s'] in Hc. rewrite list_lookup_middle in Hc by done.
    specialize (Hc eq_refl). change (mem_base s') with (mem_base s) in Hc. lia.
Qed.

(** A snapshot below the current compaction point is taken all the same. *)
Lemma stale_snapshot_taken s sn :
  mem_wf s -> last_included_index (snap_metadata sn) < mem_base s ->
  st_apply_snapshot sn s =
    (Done (Ok tt), MkMem (mem_hard_state s) (mem_entries s) (Some sn)).
Proof.
  intros Hwf Hsn. cbn [st_apply_snapshot MemStorage]. unfold mem_apply_snapshot.
  unfold bind at 1. rewrite mem_first_index_wf by done.
  rewrite (proj2 (N.leb_gt _ _)) by lia. by destruct s.
Qed.

(** Stale snapshot: installing a snapshot below the current compaction
    point succeeds, moves the first index backwards and keeps the log's
    entries, whose offsets are then wrong: the state is no longer
    well-formed, and the index just above the new base reads the term of the
    entry that was just above the old one. *)
Theorem stale_snapshot s sn e (Hwf : mem_wf s)
    (Hsn : last_included_index (snap_metadata sn) < mem_base s)
    (He : head (mem_entries s) = Some e) :
  let s' := MkMem (mem_hard_state s) (mem_entries s) (Some sn) in
  st_apply_snapshot sn s = (Done (Ok tt), s') /\ ~ mem_wf s' /\
  st_term (last_included_index (snap_metadata sn) + 1) s' = (Done (Ok (le_term e)), s') /\
  le_index e = mem_base s + 1.
Proof.
  intros s'. set (li := last_included_index (snap_metadata sn)) in *.
  destruct s as [hs [|e' l] osn]; [done|]. cbn in He. injection He as ->.
  assert (le_index e = mem_base (MkMem hs (e :: l) osn) + 1) as Hidx.
  { destruct Hwf as [Hc _]. specialize (Hc 0%nat e eq_refl). lia. }
  assert (u64 (li + 2)) as Hu by (destruct Hwf; unfold u64 in *; lia).
  split; [|split; [|split; [|done]]].
  - by rewrite stale_snapshot_taken.
  - intros [Hc _]. specialize (Hc 0%nat e eq_refl).
    change (mem_base s') with li in Hc. lia.
  - cbn [st_term MemStorage]. unfold mem_term.
    destruct (N.eqb_spec (li + 1) 0); [lia|].
    unfold bind, gets, ret; cbn. fold li. destruct (N.leb_spec (li + 1) li); [lia|].
    rewrite mem_first_index_run by (change (mem_base s') with li; unfold u64 in *; lia).
    change (mem_base s') with li. rewrite N.ltb_irrefl.
    rewrite u64_sub_small by lia. unfold ret. rewrite vec_get_lookup, N.sub_diag. done.
Qed.
End properties.

(** ** Concrete inputs *)

(** Indices up to 3 compacted, entries 4 and 5 in the vector. *)
Definition ex_entry (t i : N) (d : bytes) : LogEntry := MkLogEntry t i d Normal.
Definition ex_snapshot (i t : N) : Snapshot := MkSnapshot [] (MkSnapshotMeta i t []).
Definition ex_mem : MemStorageInner :=
  MkMem (MkHardState 2 1 3) [ex_entry 2 4 [x61; x62]; ex_entry 2 5 [x63]]
        (Some (ex_snapshot 3 1)).

Lemma ex_mem_appendable : appendable (mem_view ex_mem) [ex_entry 3 5 []].
Proof.
  split; [|split; [by_compute|by_compute]].
  intros [|j] e; cbn; [by intros [= <-]|done].
Defined.

Lemma ex_mem_repeated : appendable (mem_view ex_mem) [ex_entry 2 4 [x61; x62]].
Proof.
  split; [|split; [by_compute|by_compute]].
  intros [|j] e; cbn; [by intros [= <-]|done].
Qed.

(** Entry 4 alone, which the log has already: the documented log keeps entry 5,
    the backend's does not. *)
Lemma mem_against_trait_witness :
  st_last_index (Storage := MemStorage (prof := dev_profile)) ex_mem
    = (Done (Ok 5), ex_mem)
  /\ (exists s', st_append_entries (Storage := MemStorage (prof := dev_profile))
                   [ex_entry 3 5 []] ex_mem = (Done (Ok tt), s') /\
        mem_view s' = doc_append (mem_view ex_mem) [ex_entry 3 5 []])
  /\ exists s', st_append_entries (Storage := MemStorage (prof := dev_profile))
                   [ex_entry 2 4 [x61; x62]] ex_mem = (Done (Ok tt), s') /\
        mem_view s' <> doc_append (mem_view ex_mem) [ex_entry 2 4 [x61; x62]].
Proof.
  destruct (mem_against_trait (prof := dev_profile) ex_mem ltac:(by_compute))
    as ((l & Hl & _) & _ & _ & _ & _ & Ha & _).
  split; [vm_compute; reflexivity|]. split.
  - destruct (Ha _ ex_mem_appendable) as (s' & Hr & _ & _ & Hiff). exists s'. split; [exact Hr|].
    apply Hiff. right. left. vm_compute. reflexivity.
  - destruct (Ha [ex_entry 2 4 [x61; x62]] ex_mem_repeated) as (s' & Hr & _ & _ & Hiff).
    exists s'. split; [exact Hr|]. intros [Heq|[Heq|Heq]]%Hiff.
    + discriminate Heq.
    + vm_compute in Heq. discriminate Heq.
    + specialize (Heq _ eq_refl). vm_compute in Heq. apply Heq. reflexivity.
Defined.

Lemma append_then_read_witness :
  exists s', st_entries (Storage := MemStorage (prof := dev_profile)) 5 6 None s'
             = (Done (Ok [ex_entry 3 5 []]), s').
Proof.
  destruct (append_then_read (prof := dev_profile) ex_mem (ex_entry 3 5 []) []
              ltac:(by_compute) ex_mem_appendable) as (s' & _ & Hr & _).
  by exists s'.
Defined.

Lemma capped_read_witness :
  exists es, st_entries (Storage := MemStorage (prof := dev_profile)) 4 6 (Some 2) ex_mem
             = (Done (Ok es), ex_mem) /\ es <> [].
Proof.
  destruct (capped_read (prof := dev_profile) ex_mem 4 6 2 ltac:(by_compute)
              ltac:(by_compute) ltac:(by_compute) ltac:(by_compute))
    as (es & ? & _ & ? & _).
  by exists es.
Defined.

Lemma append_below_base_witness :
  st_append_entries (Storage := MemStorage (prof := dev_profile)) [ex_entry 1 2 []] ex_mem
    = (Panicked, ex_mem).
Proof.
  apply (append_below_base (prof := dev_profile) ex_mem (ex_entry 1 2 []) []); by_compute.
Defined.

Lemma stale_snapshot_witness :
  exists s', st_apply_snapshot (Storage := MemStorage (prof := dev_profile))
               (ex_snapshot 1 1) ex_mem = (Done (Ok tt), s') /\ ~ mem_wf s'.
Proof.
  destruct (stale_snapshot (prof := dev_profile) ex_mem (ex_snapshot 1 1)
              (ex_entry 2 4 [x61; x62]) ltac:(by_compute) ltac:(by_compute) eq_refl)
    as (? & ? & _).
  eexists. by split.
Defined.
