(* ===== verification/StateMachine.v ===== *)
(** * iceraft-node: the Raft state machine

    Models src/iceraft-node/src/state.rs: the roles, the per-peer progress, the
    in-memory state and its transitions [become_follower], [become_candidate],
    [become_leader], and the commit rule [maybe_commit]. Theorem: [maybe_commit]
    ends and moves the commit index to the greatest entry of the current term
    that a quorum stores, if there is one. *)

From Stdlib Require Import Lia.
From stdpp Require Import base numbers list option gmap sets fin_maps.
From S2P Require Import Prelude.
From S2P Require Import Core.

Inductive RaftRole : Type := Follower | Candidate | Leader.

#[export] Instance RaftRole_eq_dec : EqDecision RaftRole.
Proof. solve_decision. Defined.

Record Progress : Type := MkProgress {
  next_index : LogIndex;
  match_index : LogIndex;
  in_flight : bool;
}.

#[export] Instance Progress_eq_dec : EqDecision Progress.
Proof. solve_decision. Defined.

Definition Progress_new (next : LogIndex) : Progress := MkProgress next 0 false.

Record RaftStateMachine : Type := MkSM {
  current_term : Term;
  voted_for : option NodeId;
  role : RaftRole;
  commit_index : LogIndex;
  last_applied : LogIndex;
  leader_id : option NodeId;
  progress : gmap NodeId Progress;
  votes_received : gset NodeId;
}.

#[export] Instance RaftStateMachine_eq_dec : EqDecision RaftStateMachine.
Proof. solve_decision. Defined.

Definition RaftStateMachine_new : RaftStateMachine := {|
  current_term := 0;
  voted_for := None;
  role := Follower;
  commit_index := 0;
  last_applied := 0;
  leader_id := None;
  progress := ∅;
  votes_received := ∅;
|}.

(** ** Field updates *)

Definition set_voted_for (v : option NodeId) (s : RaftStateMachine) : RaftStateMachine :=
  MkSM (current_term s) v (role s) (commit_index s) (last_applied s) (leader_id s)
       (progress s) (votes_received s).
Definition set_commit_index (i : LogIndex) (s : RaftStateMachine) : RaftStateMachine :=
  MkSM (current_term s) (voted_for s) (role s) i (last_applied s) (leader_id s)
       (progress s) (votes_received s).
Definition set_last_applied (i : LogIndex) (s : RaftStateMachine) : RaftStateMachine :=
  MkSM (current_term s) (voted_for s) (role s) (commit_index s) i (leader_id s)
       (progress s) (votes_received s).
Definition set_leader_id (l : option NodeId) (s : RaftStateMachine) : RaftStateMachine :=
  MkSM (current_term s) (voted_for s) (role s) (commit_index s) (last_applied s) l
       (progress s) (votes_received s).
Definition set_progress (p : gmap NodeId Progress) (s : RaftStateMachine) : RaftStateMachine :=
  MkSM (current_term s) (voted_for s) (role s) (commit_index s) (last_applied s)
       (leader_id s) p (votes_received s).
Definition set_votes_received (v : gset NodeId) (s : RaftStateMachine) : RaftStateMachine :=
  MkSM (current_term s) (voted_for s) (role s) (commit_index s) (last_applied s)
       (leader_id s) (progress s) v.

(** ** Transitions *)

Definition become_follower (term : Term) (leader : option NodeId) :
    M RaftStateMachine unit :=
  modify (fun s => {|
    current_term := term;
    voted_for := None;
    role := Follower;
    commit_index := commit_index s;
    last_applied := last_applied s;
    leader_id := leader;
    progress := ∅;
    votes_received := ∅;
  |}).

(** How many peers store the entry at [n]. *)
Definition replicated_on (n : LogIndex) (p : gmap NodeId Progress) : N :=
  N.of_nat (size (filter (fun kp => n <= match_index kp.2) p)).

Section transitions.
Context {prof : BuildProfile}.

Definition become_candidate (self_id : NodeId) : M RaftStateMachine unit :=
  let* t := gets current_term in
  let* t' := u64_add t 1 in
  modify (fun s => {|
    current_term := t';
    voted_for := Some self_id;
    role := Candidate;
    commit_index := commit_index s;
    last_applied := last_applied s;
    leader_id := None;
    progress := progress s;
    votes_received := {[self_id]};
  |}).

Definition become_leader (self_id : NodeId) (last_log_index : LogIndex)
    (peers : list NodeId) : M RaftStateMachine unit :=
  modify (fun s => {|
    current_term := current_term s;
    voted_for := voted_for s;
    role := Leader;
    commit_index := commit_index s;
    last_applied := last_applied s;
    leader_id := Some self_id;
    progress := ∅;
    votes_received := votes_received s;
  |}) ;;;
  for_each peers (fun peer =>
    let* next := u64_add last_log_index 1 in
    modify (fun s => set_progress (<[peer := Progress_new next]> (progress s)) s)).

(** The loop of [maybe_commit] from [n] down. The loop runs while
    [n > commit_index], so [n -= 1] never underflows and [n - commit_index]
    iterations are enough. *)
Fixpoint maybe_commit_loop (fuel : nat) (quorum : N) (term : Term)
    (term_of : LogIndex -> option Term) (n : LogIndex) :
    M RaftStateMachine (option LogIndex) :=
  match fuel with
  | O => ret None
  | S fuel' =>
      let* ci := gets commit_index in
      if n <=? ci then ret None else
      if bool_decide (term_of n <> Some term)
      then maybe_commit_loop fuel' quorum term term_of (n - 1) else
      let* p := gets progress in
      if quorum <=? replicated_on n p + 1
      then modify (set_commit_index n) ;;; ret (Some n)
      else maybe_commit_loop fuel' quorum term term_of (n - 1)
  end.

Definition maybe_commit (quorum : N) (last_log_index : LogIndex) (term : Term)
    (term_of : LogIndex -> option Term) : M RaftStateMachine (option LogIndex) :=
  let* ci := gets commit_index in
  maybe_commit_loop (N.to_nat (last_log_index - ci)) quorum term term_of last_log_index.
End transitions.

(** ** The commit rule, as a specification *)

(** The entry at [n] is of the current term and stored by a quorum, the leader
    included. *)
Definition committable (quorum : N) (term : Term) (term_of : LogIndex -> option Term)
    (p : gmap NodeId Progress) (n : LogIndex) : Prop :=
  term_of n = Some term /\ quorum <= replicated_on n p + 1.

(** [o] is the greatest index above [lo], up to [hi], with [P]. *)
Definition greatest_in (lo hi : N) (P : N -> Prop) (o : option N) : Prop :=
  match o with
  | Some n => lo < n <= hi /\ P n /\ forall m, n < m <= hi -> ~ P m
  | None => forall m, lo < m <= hi -> ~ P m
  end.

Lemma greatest_in_unique lo hi P o o' :
  greatest_in lo hi P o -> greatest_in lo hi P o' -> o = o'.
Proof.
  destruct o as [n|], o' as [n'|]; cbn; [| |intros Hno (Hn & HP & _)|done].
  - intros (Hn & HP & Hm) (Hn' & HP' & Hm'). f_equal.
    destruct (N.lt_trichotomy n n') as [?|[?|?]]; [|done|]; exfalso.
    + apply (Hm n'); [lia|done].
    + apply (Hm' n); [lia|done].
  - intros (Hn & HP & _) Hno. by destruct (Hno n).
  - by destruct (Hno n').
Qed.

Lemma greatest_in_step lo hi P o :
  ~ P hi -> greatest_in lo (hi - 1) P o -> greatest_in lo hi P o.
Proof.
  intros HP. destruct o as [n|]; cbn.
  - intros (? & ? & Hg). split; [lia|split; [done|]]. intros m Hr HPm.
    destruct (decide (m = hi)) as [->|]; [done|]. apply (Hg m); [lia|done].
  - intros Hg m Hr HPm.
    destruct (decide (m = hi)) as [->|]; [done|]. apply (Hg m); [lia|done].
Qed.

Lemma maybe_commit_loop_spec fuel quorum term term_of n s :
  (N.to_nat (n - commit_index s) <= fuel)%nat ->
  exists o, maybe_commit_loop fuel quorum term term_of n s =
      (Done o, match o with Some c => set_commit_index c s | None => s end) /\
    greatest_in (commit_index s) n (committable quorum term term_of (progress s)) o.
Proof.
  revert n. induction fuel as [|fuel IH]; intros n Hf; cbn [maybe_commit_loop].
  { exists None. split; [done|]. intros m Hm. lia. }
  unfold bind at 1, gets. destruct (N.leb_spec n (commit_index s)) as [Hle|Hlt].
  { exists None. split; [done|]. intros m Hm. lia. }
  assert (N.to_nat (n - 1 - commit_index s) <= fuel)%nat as Hf' by lia.
  destruct (IH (n - 1) Hf') as (o & Ho & Hg). case_bool_decide as Ht.
  { exists o. split; [done|]. apply greatest_in_step; [|done]. by intros [? _]. }
  unfold bind. destruct (N.leb_spec quorum (replicated_on n (progress s) + 1)) as [Hq|Hq].
  - exists (Some n). split; [done|]. split; [lia|]. split; [|lia].
    done.
  - exists o. split; [done|]. apply greatest_in_step; [|done]. intros [_ ?]. lia.
Qed.

(** Commit rule: [maybe_commit] always ends. It returns the greatest index
    above the current commit index, up to the last one, whose entry is of the
    given term and is stored by a quorum counting the leader itself, and sets
    the commit index to it; when there is none it returns [None] and changes
    nothing. *)
Theorem maybe_commit_spec quorum last_log_index term term_of s :
  exists o, maybe_commit quorum last_log_index term term_of s =
      (Done o, match o with Some c => set_commit_index c s | None => s end) /\
    greatest_in (commit_index s) last_log_index
      (committable quorum term term_of (progress s)) o.
Proof. by apply maybe_commit_loop_spec. Qed.
