(* ===== verification/Node.v ===== *)
(** * iceraft-node: the node

    Models [RaftNodeInner] of src/iceraft-node/src/node.rs: its state and every
    method, generic in the storage backend. A method runs under the node's
    mutex from start to end, so it is one step on the state. The methods'
    effects through shared handles (tasks spawned to send RPCs, replies on
    one-shot channels, entries handed to the application, metrics) are recorded
    in order in [effects]. *)

From Stdlib Require Import Lia Init.Byte.
From stdpp Require Import base numbers list option gmap sets fin_maps strings.
From S2P Require Import Prelude.
From S2P Require Import Core.
From S2P Require Import Proto.
From S2P Require Import Storage.
From S2P Require Import StateMachine.

(** ** Effects *)

Inductive Counter : Type :=
| elections_started
| votes_granted
| leader_changes
| append_entries_received
| entries_committed
| snapshots_installed.

Inductive Gauge : Type := current_term_gauge | commit_index_gauge.

(** [SpawnX peer req ..]: a task that sends [req] to [peer] and, if the
    transport answers, posts the answer to the node's own queue. *)
Inductive Effect : Type :=
| SpawnRequestVote (peer : NodeId) (req : RequestVoteRequest)
| SpawnAppendEntries (peer : NodeId) (req : AppendEntriesRequest)
    (req_last_index : LogIndex)
| SpawnInstallSnapshot (peer : NodeId) (req : InstallSnapshotRequest)
    (req_last_index : LogIndex)
| ProposalReply (tx : Sender) (r : raft_result LogIndex)
| LeaderReply (tx : Sender) (l : option NodeId)
| TermReply (tx : Sender) (t : Term)
| ReadIndexReply (tx : Sender) (r : raft_result LogIndex)
| ApplyEntry (e : LogEntry)
| MetricInc (c : Counter) (by_ : N)
| MetricSet (g : Gauge) (v : Z).

(** ** State *)

Record RaftNodeInner (St : Type) : Type := MkNode {
  sm : RaftStateMachine;
  config : RaftConfig;
  storage : St;
  pending : list (LogIndex * Sender);
  snapshot_buf : option (SnapshotMetadata * bytes);
  effects : list Effect;
}.
Arguments MkNode {St}.
Arguments sm {St} _.
Arguments config {St} _.
Arguments storage {St} _.
Arguments pending {St} _.
Arguments snapshot_buf {St} _.
Arguments effects {St} _.

Section setters.
Context {St : Type}.
Implicit Types n : RaftNodeInner St.

Definition set_sm (x : RaftStateMachine) n : RaftNodeInner St :=
  MkNode x (config n) (storage n) (pending n) (snapshot_buf n) (effects n).
Definition set_storage (x : St) n : RaftNodeInner St :=
  MkNode (sm n) (config n) x (pending n) (snapshot_buf n) (effects n).
Definition set_pending (x : list (LogIndex * Sender)) n : RaftNodeInner St :=
  MkNode (sm n) (config n) (storage n) x (snapshot_buf n) (effects n).
Definition set_snapshot_buf (x : option (SnapshotMetadata * bytes)) n : RaftNodeInner St :=
  MkNode (sm n) (config n) (storage n) (pending n) x (effects n).
Definition set_effects (x : list Effect) n : RaftNodeInner St :=
  MkNode (sm n) (config n) (storage n) (pending n) (snapshot_buf n) x.
End setters.

(** The node [RaftNode::start] builds, before its event loop restores the hard
    state. *)
Definition node_new {St} (cfg : RaftConfig) (st : St) : RaftNodeInner St :=
  MkNode RaftStateMachine_new cfg st [] None [].

Section node.
Context {prof : BuildProfile} {St : Type} `{Storage St}.
Local Abbreviation node := (RaftNodeInner St).
Local Abbreviation Node := (M node).

Definition on_storage {A} (m : M St A) : Node A := zoom storage set_storage m.
Definition on_sm {A} (m : M RaftStateMachine A) : Node A := zoom sm set_sm m.
Definition get_sm {A} (f : RaftStateMachine -> A) : Node A := gets (fun n => f (sm n)).
Definition upd_sm (f : RaftStateMachine -> RaftStateMachine) : Node unit :=
  modify (fun n => set_sm (f (sm n)) n).
Definition emit (e : Effect) : Node unit :=
  modify (fun n => set_effects (effects n ++ [e]) n).
(** [if let Some(tx) = tx { let _ = tx.send(r); }] *)
Definition reply (tx : option Sender) (r : raft_result LogIndex) : Node unit :=
  match tx with Some t => emit (ProposalReply t r) | None => ret tt end.

(** *** Helpers *)

(** A storage error is logged and otherwise ignored. *)
Definition save_hard_state : Node unit :=
  let* s := get_sm id in
  let* _ := on_storage (st_save_hard_state {|
              hs_term := current_term s;
              hs_vote := default 0 (voted_for s);
              hs_commit := commit_index s |}) in
  let* t := get_sm current_term in
  emit (MetricSet current_term_gauge (u64_as_i64 t)).

(** The binary search of [first_index_of_term]; [N.size_nat (hi - lo)]
    iterations are enough. *)
Fixpoint search_term (fuel : nat) (term : Term) (lo hi : LogIndex) : Node LogIndex :=
  match fuel with
  | O => ret lo
  | S fuel' =>
      if hi <=? lo then ret lo else
      let* d := u64_sub hi lo in
      let* mid := u64_add lo (d / 2) in
      let* r := on_storage (st_term mid) in
      match r with
      | Ok t =>
          if t <? term
          then let* lo' := u64_add mid 1 in search_term fuel' term lo' hi
          else search_term fuel' term lo mid
      | Err _ => search_term fuel' term lo mid
      end
  end.

Definition first_index_of_term (term : Term) (upper : LogIndex) : Node LogIndex :=
  let* r := on_storage st_first_index in
  let first := unwrap_or 1 r in
  search_term (N.size_nat (upper - first)) term first upper.

(** [storage.last_index().await.unwrap_or(0)] *)
Definition last_index_or_0 : Node LogIndex :=
  let* r := on_storage st_last_index in ret (unwrap_or 0 r).

(** [storage.term(i).await.unwrap_or(0)] *)
Definition term_or_0 (i : LogIndex) : Node Term :=
  let* r := on_storage (st_term i) in ret (unwrap_or 0 r).

(** [become_follower] and [save_hard_state], the reaction of every handler
    to a newer term. *)
Definition step_down (term : Term) (leader : option NodeId) : Node unit :=
  on_sm (become_follower term leader) ;;;
  save_hard_state.

(** *** Replication *)

Definition send_snapshot_to (peer : NodeId) : Node unit :=
  let* r := on_storage st_snapshot in
  match r with
  | Ok (Some snap) =>
      let* t := get_sm current_term in
      let* c := gets config in
      let li := last_included_index (snap_metadata snap) in
      emit (SpawnInstallSnapshot peer {|
        is_term := t;
        is_leader_id := cfg_id c;
        is_last_included_index := li;
        is_last_included_term := last_included_term (snap_metadata snap);
        is_offset := 0;
        is_data := snap_data snap;
        is_done := true |} li)
  | Ok None => ret tt
  | Err _ => ret tt
  end.

Definition replicate_to (peer : NodeId) : Node unit :=
  let* pr := get_sm progress in
  match pr !! peer with
  | None => ret tt
  | Some p =>
      let* prev_log_index := u64_sub (next_index p) 1 in
      let* prev_log_term :=
        if prev_log_index =? 0 then ret 0 else term_or_0 prev_log_index in
      let* last_index := last_index_or_0 in
      let* c := gets config in
      let* r :=
        if next_index p <=? last_index then
          let* hi := u64_add last_index 1 in
          let* max := u64_mul (max_append_entries c) 4096 in
          on_storage (st_entries (next_index p) hi (Some max))
        else ret (Ok []) in
      match r with
      | Err (LogCompacted _ _) => send_snapshot_to peer
      | Err _ => ret tt
      | Ok es =>
          let entries := map log_entry_to_proto_entry es in
          let* req_last_index := u64_add prev_log_index (nlen entries) in
          let* t := get_sm current_term in
          let* ci := get_sm commit_index in
          emit (SpawnAppendEntries peer {|
            ae_term := t;
            ae_leader_id := cfg_id c;
            ae_prev_log_index := prev_log_index;
            ae_prev_log_term := prev_log_term;
            ae_entries := entries;
            ae_leader_commit := ci |} req_last_index)
      end
  end.

Definition replicate_all : Node unit :=
  let* r := get_sm role in
  if bool_decide (r <> Leader) then ret tt else
  let* c := gets config in
  for_each (cfg_peers c) replicate_to.

(** *** RPC handlers *)

Definition reject_append (conflict_index conflict_term term : N) : AppendEntriesResponse :=
  {| aer_term := term;
     aer_success := false;
     aer_conflict_index := conflict_index;
     aer_conflict_term := conflict_term |}.

(** The consistency check on [prev_log_index] and [prev_log_term]: the
    rejection to return, if any. *)
Definition check_prev (req : AppendEntriesRequest) :
    Node (option AppendEntriesResponse) :=
  if 0 <? ae_prev_log_index req then
    let* our_term := on_storage (st_term (ae_prev_log_index req)) in
    let* t := get_sm current_term in
    match our_term with
    | Err (LogCompacted _ _) => ret None
    | Err _ => ret (Some (reject_append (ae_prev_log_index req) 0 t))
    | Ok pt =>
        if pt =? ae_prev_log_term req then ret None else
        let* conflict_index := first_index_of_term pt (ae_prev_log_index req) in
        ret (Some (reject_append conflict_index pt t))
    end
  else ret None.

Definition on_append_entries (req : AppendEntriesRequest) :
    Node (raft_result AppendEntriesResponse) :=
  let* t0 := get_sm current_term in
  when (t0 <? ae_term req) (step_down (ae_term req) (Some (ae_leader_id req))) ;;;
  let* t := get_sm current_term in
  if ae_term req <? t then ret (Ok (reject_append 0 0 t)) else
  upd_sm (set_leader_id (Some (ae_leader_id req))) ;;;
  let* rejection := check_prev req in
  match rejection with
  | Some r => ret (Ok r)
  | None =>
      let? _ :=
        match ae_entries req with
        | [] => ret (Ok tt)
        | _ => on_storage (st_append_entries
                 (map proto_entry_to_log_entry (ae_entries req)))
        end in
      let* ci := get_sm commit_index in
      when (ci <? ae_leader_commit req)
        (let* last := last_index_or_0 in
         upd_sm (set_commit_index (N.min (ae_leader_commit req) last)) ;;;
         save_hard_state) ;;;
      emit (MetricInc append_entries_received 1) ;;;
      let* t' := get_sm current_term in
      ret (Ok {| aer_term := t';
                 aer_success := true;
                 aer_conflict_index := 0;
                 aer_conflict_term := 0 |})
  end.

Definition deny_vote (term : N) : RequestVoteResponse :=
  {| rvr_term := term; rvr_vote_granted := false |}.

Definition on_request_vote (req : RequestVoteRequest) :
    Node (raft_result RequestVoteResponse) :=
  let* t0 := get_sm current_term in
  when (t0 <? rv_term req) (step_down (rv_term req) None) ;;;
  let* t := get_sm current_term in
  if rv_term req <? t then ret (Ok (deny_vote t)) else
  let* voted := get_sm voted_for in
  let already_voted :=
    match voted with Some v => negb (v =? rv_candidate_id req) | None => false end in
  if already_voted then ret (Ok (deny_vote t)) else
  let* our_last_index := last_index_or_0 in
  let* our_last_term :=
    if 0 <? our_last_index then term_or_0 our_last_index else ret 0 in
  let candidate_log_ok :=
    (our_last_term <? rv_last_log_term req)
    || ((rv_last_log_term req =? our_last_term)
        && (our_last_index <=? rv_last_log_index req)) in
  if negb candidate_log_ok then ret (Ok (deny_vote t)) else
  upd_sm (set_voted_for (Some (rv_candidate_id req))) ;;;
  save_hard_state ;;;
  emit (MetricInc votes_granted 1) ;;;
  let* t' := get_sm current_term in
  ret (Ok {| rvr_term := t'; rvr_vote_granted := true |}).

Definition on_install_snapshot (req : InstallSnapshotRequest) :
    Node (raft_result InstallSnapshotResponse) :=
  let* t0 := get_sm current_term in
  when (t0 <? is_term req) (step_down (is_term req) (Some (is_leader_id req))) ;;;
  let* t := get_sm current_term in
  if is_term req <? t then ret (Ok {| isr_term := t |}) else
  let* sb := gets snapshot_buf in
  let (meta, buf0) :=
    match sb with
    | Some mb => mb
    | None => ({| sm_index := is_last_included_index req;
                  sm_term := is_last_included_term req;
                  sm_conf_nodes := [] |}, [])
    end in
  let buf := buf0 ++ is_data req in
  modify (set_snapshot_buf (Some (meta, buf))) ;;;
  let? _ :=
    if is_done req then
      let snapshot := {|
        snap_data := buf;
        snap_metadata := {|
          last_included_index := sm_index meta;
          last_included_term := sm_term meta;
          conf_nodes := sm_conf_nodes meta |} |} in
      let? _ := on_storage (st_apply_snapshot snapshot) in
      upd_sm (fun s =>
        set_commit_index (N.max (commit_index s) (is_last_included_index req)) s) ;;;
      upd_sm (fun s =>
        set_last_applied (N.max (last_applied s) (is_last_included_index req)) s) ;;;
      modify (set_snapshot_buf None) ;;;
      save_hard_state ;;;
      emit (MetricInc snapshots_installed 1) ;;;
      ret (Ok tt)
    else ret (Ok tt) in
  let* t' := get_sm current_term in
  ret (Ok {| isr_term := t' |}).

(** *** Proposals *)

Definition on_proposal (proposal : Proposal) : Node unit :=
  let* r := get_sm role in
  if bool_decide (r <> Leader) then
    let* l := get_sm leader_id in
    reply (prop_tx proposal) (Err (NotLeader l))
  else
  let* last_index := last_index_or_0 in
  let* new_index := u64_add last_index 1 in
  let* t := get_sm current_term in
  let entry := {|
    le_term := t;
    le_index := new_index;
    le_data := prop_data proposal;
    le_entry_type := Normal |} in
  let* r := on_storage (st_append_entries [entry]) in
  match r with
  | Err e => reply (prop_tx proposal) (Err e)
  | Ok _ =>
      match prop_tx proposal with
      | Some tx => modify (fun n => set_pending (pending n ++ [(new_index, tx)]) n)
      | None => ret tt
      end ;;;
      replicate_all
  end.

(** *** Election *)

(** What [start_election] and [handle_vote_response] do once the votes are a
    quorum. *)
Definition win_election : Node unit :=
  let* c := gets config in
  let* last_index := last_index_or_0 in
  on_sm (become_leader (cfg_id c) last_index (cfg_peers c)) ;;;
  emit (MetricInc leader_changes 1) ;;;
  replicate_all.

Definition start_election : Node unit :=
  let* c := gets config in
  let self_id := cfg_id c in
  on_sm (become_candidate self_id) ;;;
  save_hard_state ;;;
  let* last_index := last_index_or_0 in
  let* last_term := if 0 <? last_index then term_or_0 last_index else ret 0 in
  emit (MetricInc elections_started 1) ;;;
  let* t := get_sm current_term in
  let req := {|
    rv_term := t;
    rv_candidate_id := self_id;
    rv_last_log_index := last_index;
    rv_last_log_term := last_term;
    rv_pre_vote := false |} in
  for_each (cfg_peers c) (fun peer => emit (SpawnRequestVote peer req)) ;;;
  let* votes := get_sm votes_received in
  let* r := get_sm role in
  if (quorum c <=? N.of_nat (size votes)) && bool_decide (r = Candidate)
  then win_election else ret tt.

(** *** Commit and apply *)

(** The loop of [maybe_advance_commit] from [n] down to the commit index. *)
Fixpoint scan_commit (fuel : nat) (quorum term n : N) : Node (option LogIndex) :=
  match fuel with
  | O => ret None
  | S fuel' =>
      let* ci := get_sm commit_index in
      if n <=? ci then ret None else
      let* entry_term := term_or_0 n in
      let* p := get_sm progress in
      if (entry_term =? term) && (quorum <=? replicated_on n p + 1)
      then ret (Some n)
      else scan_commit fuel' quorum term (n - 1)
  end.

(** The notification loop over the pending proposals: those at or below
    [commit] are answered, the others kept, in order. *)
Fixpoint notify_pending (commit : LogIndex) (old : list (LogIndex * Sender)) :
    Node unit :=
  match old with
  | [] => ret tt
  | (idx, tx) :: old' =>
      (if idx <=? commit then emit (ProposalReply tx (Ok idx))
       else modify (fun n => set_pending (pending n ++ [(idx, tx)]) n)) ;;;
      notify_pending commit old'
  end.

Definition maybe_advance_commit : Node unit :=
  let* r := get_sm role in
  if bool_decide (r <> Leader) then ret tt else
  let* last_index := last_index_or_0 in
  let* c := gets config in
  let* term := get_sm current_term in
  let* ci := get_sm commit_index in
  let* found := scan_commit (N.to_nat (last_index - ci)) (quorum c) term last_index in
  let new_commit := default ci found in
  when (ci <? new_commit)
    (upd_sm (set_commit_index new_commit) ;;;
     save_hard_state ;;;
     let* la := get_sm last_applied in
     let* d := u64_sub new_commit la in
     emit (MetricInc entries_committed d) ;;;
     emit (MetricSet commit_index_gauge (u64_as_i64 new_commit))) ;;;
  let* commit := get_sm commit_index in
  let* old_pending := gets pending in
  modify (set_pending []) ;;;
  notify_pending commit old_pending.

Definition apply_committed : Node unit :=
  let* la := get_sm last_applied in
  let* from := u64_add la 1 in
  let* to := get_sm commit_index in
  if to <? from then ret tt else
  let* hi := u64_add to 1 in
  let* r := on_storage (st_entries from hi None) in
  match r with
  | Ok entries =>
      for_each entries (fun entry =>
        emit (ApplyEntry entry) ;;;
        upd_sm (set_last_applied (le_index entry)))
  | Err _ => ret tt
  end.

(** *** Responses *)

Definition handle_vote_response (peer : NodeId) (resp : RequestVoteResponse) :
    Node unit :=
  let* t := get_sm current_term in
  if t <? rvr_term resp then step_down (rvr_term resp) None else
  let* r := get_sm role in
  if rvr_vote_granted resp && bool_decide (r = Candidate) then
    upd_sm (fun s => set_votes_received ({[peer]} ∪ votes_received s) s) ;;;
    let* c := gets config in
    let* votes := get_sm votes_received in
    if quorum c <=? N.of_nat (size votes) then win_election else ret tt
  else ret tt.

Definition set_peer_progress (peer : NodeId) (p : Progress) : Node unit :=
  upd_sm (fun s => set_progress (<[peer := p]> (progress s)) s).

(** A peer stores everything up to [req_last_index]. *)
Definition record_match (peer : NodeId) (p : Progress) (req_last_index : LogIndex) :
    Node unit :=
  let m := N.max (match_index p) req_last_index in
  set_peer_progress peer (MkProgress (next_index p) m (in_flight p)) ;;;
  let* next := u64_add m 1 in
  set_peer_progress peer (MkProgress next m false).

Definition handle_append_response (peer : NodeId) (req_last_index : LogIndex)
    (resp : AppendEntriesResponse) : Node unit :=
  let* t := get_sm current_term in
  if t <? aer_term resp then step_down (aer_term resp) None else
  let* r := get_sm role in
  if bool_decide (r <> Leader) then ret tt else
  let* pr := get_sm progress in
  match pr !! peer with
  | Some p =>
      if aer_success resp then record_match peer p req_last_index
      else
        let next := if 0 <? aer_conflict_index resp then aer_conflict_index resp
                    else N.max (next_index p - 1) 1 in
        set_peer_progress peer (MkProgress next (match_index p) (in_flight p))
  | None => ret tt
  end ;;;
  maybe_advance_commit.

Definition handle_snapshot_response (peer : NodeId) (req_last_index : LogIndex)
    (resp : InstallSnapshotResponse) : Node unit :=
  let* t := get_sm current_term in
  if t <? isr_term resp then step_down (isr_term resp) None else
  let* r := get_sm role in
  if bool_decide (r <> Leader) then ret tt else
  let* pr := get_sm progress in
  match pr !! peer with
  | Some p => record_match peer p req_last_index
  | None => ret tt
  end ;;;
  maybe_advance_commit.

(** *** Start-up *)

(** What [run_event_loop] does first: the hard state is restored. *)
Definition restore_hard_state : Node unit :=
  let* r := on_storage st_load_hard_state in
  match r with
  | Ok hs =>
      upd_sm (fun s => {|
        current_term := hs_term hs;
        voted_for := if hs_vote hs =? 0 then None else Some (hs_vote hs);
        role := role s;
        commit_index := hs_commit hs;
        last_applied := hs_commit hs;
        leader_id := leader_id s;
        progress := progress s;
        votes_received := votes_received s |})
  | Err _ => ret tt
  end.
End node.
