(* ===== verification/Handlers.v ===== *)
(** * iceraft-node: messages and dispatch

    Models src/iceraft-node/src/message.rs (the messages of the event loop) and
    the dispatch of src/iceraft-node/src/node.rs: [RaftMessageHandler for
    RaftNode] (the RPC entry points, each of which locks the node and runs one
    handler) and the arms of [run_event_loop]. [handle] is everything that can
    change a node: the theorems quantified over all inputs are about it. *)

From Stdlib Require Import Lia Init.Byte.
From stdpp Require Import base numbers list option gmap sets fin_maps strings.
From S2P Require Import Prelude.
From S2P Require Import Core.
From S2P Require Import Proto.
From S2P Require Import Storage.
From S2P Require Import StateMachine.
From S2P Require Import Node.

Inductive RaftMessage : Type :=
| Propose (p : Proposal)
| ReadIndex (tx : Sender)
| TransferLeader (target : NodeId)
| GetLeader (tx : Sender)
| GetTerm (tx : Sender)
| TriggerSnapshot (index : LogIndex)
| ShutdownMsg
| AppendResponse (peer : NodeId) (req_last_index : LogIndex)
    (resp : AppendEntriesResponse)
| VoteResponse (peer : NodeId) (resp : RequestVoteResponse)
| SnapshotResponse (peer : NodeId) (req_last_index : LogIndex)
    (resp : InstallSnapshotResponse).

(** What happens to a node: an RPC arrives, its loop takes a message, one of
    its timers fires, or its process is started again over the same storage and
    its loop restores the hard state, with nothing served in between. *)
Inductive Input : Type :=
| InAppendEntries (req : AppendEntriesRequest)
| InRequestVote (req : RequestVoteRequest)
| InInstallSnapshot (req : InstallSnapshotRequest)
| InMessage (msg : RaftMessage)
| InElectionTimeout
| InHeartbeat
| InRestart.

Inductive Reply : Type :=
| ReplyAppend (r : raft_result AppendEntriesResponse)
| ReplyVote (r : raft_result RequestVoteResponse)
| ReplySnapshot (r : raft_result InstallSnapshotResponse)
| NoReply.

Section handlers.
Context {prof : BuildProfile} {St : Type} `{Storage St}.
Local Abbreviation node := (RaftNodeInner St).
Local Abbreviation Node := (M node).

(** The arms of the event loop's [select!] on a received message;
    [Shutdown] leaves the loop and does not touch the node. *)
Definition dispatch (msg : RaftMessage) : Node unit :=
  match msg with
  | Propose p => on_proposal p
  | GetLeader tx => let* l := get_sm leader_id in emit (LeaderReply tx l)
  | GetTerm tx => let* t := get_sm current_term in emit (TermReply tx t)
  | ReadIndex tx => let* ci := get_sm commit_index in emit (ReadIndexReply tx (Ok ci))
  | TransferLeader _ => ret tt
  | TriggerSnapshot _ => ret tt
  | ShutdownMsg => ret tt
  | VoteResponse peer resp => handle_vote_response peer resp
  | AppendResponse peer li resp => handle_append_response peer li resp
  | SnapshotResponse peer li resp => handle_snapshot_response peer li resp
  end.

(** The heartbeat arm of the loop. *)
Definition on_heartbeat : Node unit :=
  replicate_all ;;;
  maybe_advance_commit ;;;
  apply_committed.

(** [RaftNode::start] over the storage of a previous run. The effects are the
    history of the node, so they stay: a request sent before the restart may
    still arrive. The node returned serves RPCs at once; the hard state is
    restored later, by the spawned loop ([restore_hard_state]). *)
Definition start_again : Node unit :=
  modify (fun n => set_effects (effects n) (node_new (config n) (storage n))).

(** Not a function of the source but two of its steps in sequence, a restart in
    whose window between them no RPC is served. [Restarts] takes them apart;
    [EventLoop.start_race_double_vote] is a restart in whose window one is. *)
Definition restart : Node unit :=
  start_again ;;;
  restore_hard_state.

Definition handle (i : Input) : Node Reply :=
  match i with
  | InAppendEntries req => let* r := on_append_entries req in ret (ReplyAppend r)
  | InRequestVote req => let* r := on_request_vote req in ret (ReplyVote r)
  | InInstallSnapshot req => let* r := on_install_snapshot req in ret (ReplySnapshot r)
  | InMessage msg => dispatch msg ;;; ret NoReply
  | InElectionTimeout => start_election ;;; ret NoReply
  | InHeartbeat => on_heartbeat ;;; ret NoReply
  | InRestart => restart ;;; ret NoReply
  end.

(** A run: the inputs in order, each with how it ended and the node after
    it. *)
Fixpoint run (n : node) (ins : list Input) : list (Input * outcome Reply * node) :=
  match ins with
  | [] => []
  | i :: ins' => let '(o, n') := handle i n in (i, o, n') :: run n' ins'
  end.
End handlers.

(** ** Frames

    [Frame f]: [f] reads nothing of a node but its configuration, the vote
    requests it sent, the entries it handed over, its storage up to what the storage's reads and appends
    leave alone, and the parts of its state machine that elections and commits
    change. Most methods keep every frame. *)

Definition asks_vote (e : Effect) : bool :=
  match e with SpawnRequestVote _ _ => true | _ => false end.

Definition hands_over (e : Effect) : bool :=
  match e with ApplyEntry _ => true | _ => false end.

Class Frame {St B : Type} `{Storage St} (f : RaftNodeInner St -> B) : Prop := {
  frame_emit e n : asks_vote e = false -> hands_over e = false -> f (set_effects (effects n ++ [e]) n) = f n;
  frame_pending x n : f (set_pending x n) = f n;
  frame_sm s n :
    current_term s = current_term (sm n) -> voted_for s = voted_for (sm n) ->
    role s = role (sm n) -> commit_index s = commit_index (sm n) ->
    votes_received s = votes_received (sm n) -> f (set_sm s n) = f n;
  frame_first : keeps f (on_storage st_first_index);
  frame_last : keeps f (on_storage st_last_index);
  frame_term i : keeps f (on_storage (st_term i));
  frame_entries lo hi max : keeps f (on_storage (st_entries lo hi max));
  frame_snapshot : keeps f (on_storage st_snapshot);
  frame_append es : keeps f (on_storage (st_append_entries es));
}.

(** A frame that does not read the role or the votes either. *)
Class RoleFrame {St B : Type} (f : RaftNodeInner St -> B) : Prop :=
  role_frame s n :
    current_term s = current_term (sm n) -> voted_for s = voted_for (sm n) ->
    commit_index s = commit_index (sm n) -> f (set_sm s n) = f n.

(** A frame that does not read the entries handed to the application. *)
Class ApplyFrame {St B : Type} (f : RaftNodeInner St -> B) : Prop :=
  apply_frame e n : f (set_effects (effects n ++ [ApplyEntry e]) n) = f n.

#[export] Hint Extern 0 (ApplyFrame _) => exact _ : keeps.
#[export] Hint Extern 0 (RoleFrame _) => exact _ : keeps.
#[export] Hint Extern 0 (Frame _) => exact _ : keeps.
#[export] Hint Resolve frame_first frame_last frame_term frame_entries frame_snapshot
  frame_append : keeps.

(** [solve_keeps] through the node's accessors. *)
Ltac node_keeps :=
  intros;
  unfold reply, emit, upd_sm, get_sm, last_index_or_0, term_or_0, set_peer_progress,
    record_match;
  repeat first
    [ progress intros
    | solve [eauto with keeps]
    | apply keeps_bind
    | apply keeps_try_bind
    | apply keeps_when
    | apply keeps_for_each
    | apply keeps_modify; intros; first [by apply frame_emit | by apply apply_frame
                                        | apply frame_pending
                                        | by apply frame_sm | by apply role_frame | done]
    | case_match ].

Section frames.
Context {prof : BuildProfile} {St B : Type} `{Storage St}
  (f : RaftNodeInner St -> B) `{!Frame f}.

Lemma search_keeps fuel t lo hi : keeps f (search_term fuel t lo hi).
Proof. revert lo hi. induction fuel; intros; cbn [search_term]; node_keeps. Qed.
Hint Resolve search_keeps : keeps.
Lemma first_index_of_term_keeps t u : keeps f (first_index_of_term t u).
Proof. unfold first_index_of_term. node_keeps. Qed.
Lemma send_snapshot_keeps p : keeps f (send_snapshot_to p).
Proof. unfold send_snapshot_to. node_keeps. Qed.
Hint Resolve first_index_of_term_keeps send_snapshot_keeps : keeps.
Lemma replicate_to_keeps p : keeps f (replicate_to p).
Proof. unfold replicate_to. node_keeps. Qed.
Hint Resolve replicate_to_keeps : keeps.
Lemma replicate_all_keeps : keeps f replicate_all.
Proof. unfold replicate_all. node_keeps. Qed.
Lemma check_prev_keeps req : keeps f (check_prev req).
Proof. unfold check_prev. node_keeps. Qed.
Lemma scan_commit_keeps fuel q t i : keeps f (scan_commit fuel q t i).
Proof. revert i. induction fuel; intros; cbn [scan_commit]; node_keeps. Qed.
Lemma notify_keeps c l : keeps f (notify_pending c l).
Proof. induction l as [|[]]; cbn [notify_pending]; node_keeps. Qed.
Hint Resolve replicate_all_keeps : keeps.

Lemma on_proposal_keeps p : keeps f (on_proposal p).
Proof. unfold on_proposal. node_keeps. Qed.
Lemma record_match_keeps peer p li : keeps f (record_match peer p li).
Proof. node_keeps. Qed.
Lemma set_peer_progress_keeps peer p : keeps f (set_peer_progress peer p).
Proof. node_keeps. Qed.

Lemma apply_committed_keeps `{!ApplyFrame f} : keeps f apply_committed.
Proof. unfold apply_committed. node_keeps. Qed.

Context `{!RoleFrame f}.

Lemma become_leader_keeps id l ps : keeps f (on_sm (become_leader id l ps)).
Proof.
  intros n. unfold on_sm, zoom; cbn.
  assert (keeps (fun s => (current_term s, voted_for s, commit_index s))
                (become_leader id l ps)) as Hk.
  { unfold become_leader. solve_keeps. }
  specialize (Hk (sm n)). simplify_eq. by apply role_frame.
Qed.
Hint Resolve become_leader_keeps : keeps.
Lemma win_election_keeps : keeps f win_election.
Proof. unfold win_election. node_keeps. Qed.
End frames.

#[export] Hint Resolve search_keeps first_index_of_term_keeps send_snapshot_keeps
  replicate_to_keeps replicate_all_keeps check_prev_keeps scan_commit_keeps notify_keeps
  apply_committed_keeps become_leader_keeps win_election_keeps on_proposal_keeps
  record_match_keeps set_peer_progress_keeps : keeps.
