(* ===== verification/Votes.v ===== *)
(** * Terms, votes and the hard state of one node

    Theorems about every input a node can get ([Handlers.handle]), for an
    arbitrary backend or one that keeps [DurableStorage]: terms never decrease,
    a vote is not taken back within a term, the hard state on storage is the
    node's own at the end of every handler and is what a restart restores, and
    so, over any life with any number of restarts, a node votes for at most one
    candidate per term. A restart is [start_again], after which the node serves
    RPCs, and then [restore_hard_state]; what is said across restarts is said of
    lives in which no RPC comes in between ([quiet]). *)

From Stdlib Require Import Lia Init.Byte.
From stdpp Require Import base numbers list option gmap sets fin_maps strings.
From S2P Require Import Prelude.
From S2P Require Import Core.
From S2P Require Import Proto.
From S2P Require Import Storage.
From S2P Require Import MemStorage.
From S2P Require Import StateMachine.
From S2P Require Import Node.
From S2P Require Import Handlers.

(** The part of a node the election rules are about. *)
Definition ballot {St} (n : RaftNodeInner St) : Term * option NodeId :=
  (current_term (sm n), voted_for (sm n)).

#[export] Instance frame_ballot {St} `{Storage St} : Frame (ballot (St := St)).
Proof. split; try done. intros s n Ht Hv. unfold ballot. cbn. by intros; f_equal. Qed.
#[export] Instance role_frame_ballot {St} : RoleFrame (ballot (St := St)).
Proof. intros s n Ht Hv _. unfold ballot. cbn. by f_equal. Qed.

#[export] Instance frame_config {St} `{Storage St} : Frame (config (St := St)).
Proof. by split. Qed.
#[export] Instance apply_frame_ballot {St} : ApplyFrame (ballot (St := St)).
Proof. done. Qed.
#[export] Instance apply_frame_config {St} : ApplyFrame (config (St := St)).
Proof. done. Qed.
#[export] Instance role_frame_config {St} : RoleFrame (config (St := St)).
Proof. done. Qed.

(** ** Ballots, for an arbitrary backend *)

Section ballots.
Context {prof : BuildProfile} {St : Type} `{Storage St}.
Implicit Types n : RaftNodeInner St.

Lemma save_keeps_ballot : keeps (ballot (St := St)) save_hard_state.
Proof.
  unfold save_hard_state. apply keeps_bind; [done|intros s].
  apply keeps_bind; [done|intros _]. by node_keeps.
Qed.
Hint Resolve save_keeps_ballot : keeps.

Lemma step_down_ballot t l n : ballot (step_down t l n).2 = (t, None).
Proof.
  unfold step_down. rewrite (keeps_after ballot); [done|]. auto with keeps.
Qed.

(** The ballot once a message of term [t] has been looked at. *)
Definition observed (t : Term) n : Term * option NodeId :=
  if current_term (sm n) <? t then (t, None) else ballot n.

Lemma observe_ballot t l n :
  ballot (when (current_term (sm n) <? t) (step_down t l) n).2 = observed t n.
Proof. unfold observed. case_match; [apply step_down_ballot|done]. Qed.

Lemma maybe_advance_keeps_ballot : keeps (ballot (St := St)) maybe_advance_commit.
Proof.
  unfold maybe_advance_commit. node_keeps.
Qed.
Hint Resolve maybe_advance_keeps_ballot : keeps.

Lemma on_append_entries_ballot req n :
  ballot (on_append_entries req n).2 = observed (ae_term req) n.
Proof.
  unfold on_append_entries, get_sm at 1. unfold bind at 1, gets.
  rewrite (keeps_after ballot); [apply observe_ballot|].
  by node_keeps.
Qed.

Lemma on_install_snapshot_ballot req n :
  ballot (on_install_snapshot req n).2 = observed (is_term req) n.
Proof.
  unfold on_install_snapshot, get_sm at 1. unfold bind at 1, gets.
  rewrite (keeps_after ballot); [apply observe_ballot|].
  by node_keeps.
Qed.

Lemma handle_vote_response_ballot p resp n :
  ballot (handle_vote_response p resp n).2 = observed (rvr_term resp) n.
Proof.
  unfold handle_vote_response, get_sm at 1, observed. unfold bind at 1, gets.
  case_match; [apply step_down_ballot|].
  match goal with |- ballot (?m n).2 = _ => enough (keeps ballot m) as Hk by apply Hk end.
  by node_keeps.
Qed.

Lemma handle_append_response_ballot p li resp n :
  ballot (handle_append_response p li resp n).2 = observed (aer_term resp) n.
Proof.
  unfold handle_append_response, get_sm at 1, observed. unfold bind at 1, gets.
  case_match; [apply step_down_ballot|].
  match goal with |- ballot (?m n).2 = _ => enough (keeps ballot m) as Hk by apply Hk end.
  by node_keeps.
Qed.

Lemma handle_snapshot_response_ballot p li resp n :
  ballot (handle_snapshot_response p li resp n).2 = observed (isr_term resp) n.
Proof.
  unfold handle_snapshot_response, get_sm at 1, observed. unfold bind at 1, gets.
  case_match; [apply step_down_ballot|].
  match goal with |- ballot (?m n).2 = _ => enough (keeps ballot m) as Hk by apply Hk end.
  by node_keeps.
Qed.

(** A vote request either leaves the ballot of the observed term alone and is
    not granted, or casts a vote the ballot allowed. *)
Definition vote_cast (req : RequestVoteRequest) n (o : outcome (raft_result RequestVoteResponse))
    (n' : RaftNodeInner St) : Prop :=
  (ballot n' = observed (rv_term req) n /\
    forall r, o = Done (Ok r) -> rvr_vote_granted r = false) \/
  ((observed (rv_term req) n).1 = rv_term req /\
    ((observed (rv_term req) n).2 = None \/
     (observed (rv_term req) n).2 = Some (rv_candidate_id req)) /\
    ballot n' = (rv_term req, Some (rv_candidate_id req)) /\
    forall r, o = Done (Ok r) -> rvr_term r = rv_term req).

Lemma observed_ge t n : (observed t n).1 <= t -> (observed t n).1 = t.
Proof. unfold observed, ballot. case_match eqn:Ht; cbn; [done|]. apply N.ltb_ge in Ht. lia. Qed.

Lemma on_request_vote_ballot req n :
  wp (on_request_vote req) (vote_cast req n) n.
Proof.
  unfold on_request_vote. apply wp_bind, wp_gets.
  apply wp_bind. pose proof (observe_ballot (rv_term req) None n) as Hobs.
  unfold wp at 1. destruct (when _ _ n) as [[[]|] n1]; cbn [fst snd] in *;
    [|left; split; [exact Hobs|by intros r [=]]].
  unfold vote_cast. pose proof (observed_ge (rv_term req) n) as Hge.
  rewrite <- Hobs in *. clear Hobs. cbn [ballot fst snd] in Hge |- *.
  apply wp_bind, wp_gets.
  destruct (N.ltb_spec (rv_term req) (current_term (sm n1))) as [Hlt|Hle].
  { apply wp_ret. left. split; [done|]. by intros r [= <-]. }
  specialize (Hge Hle). apply wp_bind, wp_gets.
  case_match eqn:Hvoted.
  { apply wp_ret. left. split; [done|]. by intros r [= <-]. }
  assert (voted_for (sm n1) = None \/ voted_for (sm n1) = Some (rv_candidate_id req)) as Hv.
  { destruct (voted_for (sm n1)) as [v|]; [right|by left].
    apply negb_false_iff, N.eqb_eq in Hvoted. by subst. }
  clear Hvoted.
  apply (wp_bind_keeps ballot); [by node_keeps|intros li n2 Hn2|intros n2 Hn2; left; by split].
  apply (wp_bind_keeps ballot); [by node_keeps|intros lt n3 Hn3|intros n3 Hn3; left; split; [congruence|done]].
  assert (ballot n3 = ballot n1) as Hn31 by congruence. case_match.
  { apply wp_ret. left. split; [done|]. by intros r [= <-]. }
  apply wp_bind, wp_modify.
  set (n4 := set_sm _ n3).
  assert (ballot n4 = (rv_term req, Some (rv_candidate_id req))) as Hn4.
  { unfold ballot in *. cbn. injection Hn31 as Ht _. congruence. }
  apply (wp_bind_keeps ballot); [by node_keeps|intros _ n5 Hn5|];
    [|intros n5 Hn5; right; split; [done|split; [done|split; [congruence|done]]]].
  apply wp_bind, wp_modify, wp_bind, wp_gets, wp_ret.
  assert (ballot n5 = (rv_term req, Some (rv_candidate_id req))) as Hn5' by congruence.
  right. split; [done|split; [done|split; [exact Hn5'|]]].
  intros r [= <-]. cbn. unfold ballot in Hn5'. congruence.
Qed.

(** A ballot only moves forward: to a greater term, or within a term from no
    vote to one. *)
Definition ballot_le (b b' : Term * option NodeId) : Prop :=
  b.1 < b'.1 \/ b.1 = b'.1 /\ (b.2 = None \/ b'.2 = b.2).

#[global] Instance ballot_le_preorder : PreOrder ballot_le.
Proof.
  split; [intros b; right; auto|]. intros b1 b2 b3. unfold ballot_le.
  intros [?|[? [?|?]]] [?|[? [?|?]]]; try (left; lia);
    right; (split; [congruence|]); first [by left | left; congruence | right; congruence].
Qed.

Lemma observed_le t n : ballot_le (ballot n) (observed t n).
Proof.
  unfold observed. case_match eqn:Ht; [|done]. apply N.ltb_lt in Ht. by left.
Qed.

Lemma start_election_ballot n :
  u64 (current_term (sm n) + 1) ->
  ballot (start_election n).2 = (current_term (sm n) + 1, Some (cfg_id (config n))).
Proof.
  intros Hu. unfold start_election. unfold bind at 1, gets at 1.
  rewrite (keeps_after ballot) by by node_keeps.
  unfold on_sm, zoom, become_candidate, bind, gets; cbn.
  by rewrite u64_add_small by done.
Qed.

Lemma restart_election_overflow n :
  ~ u64 (current_term (sm n) + 1) -> overflow_checks = true ->
  start_election n = (Panicked, n).
Proof.
  intros Hu Ho. unfold start_election. unfold bind at 1, gets at 1.
  unfold bind at 1. unfold on_sm, zoom, become_candidate, bind, gets, u64_add; cbn.
  unfold u64 in Hu. destruct (N.ltb_spec (current_term (sm n) + 1) u64_modulus); [lia|].
  rewrite Ho. by destruct n.
Qed.
End ballots.

(** ** The hard state on storage *)

(** What a node's hard state is saved from. *)
Definition hard_state_now {St} (n : RaftNodeInner St) : HardState :=
  MkHardState (current_term (sm n)) (default 0 (voted_for (sm n))) (commit_index (sm n)).

Section durable.
Context {prof : BuildProfile} {St : Type} `{Storage St, !DurableStorage St}.
Implicit Types n : RaftNodeInner St.

Definition persisted n : Prop := hard_state_of (storage n) = hard_state_now n.

Definition persistent n := (hard_state_of (storage n), ballot n, commit_index (sm n)).

#[export] Instance frame_persistent : Frame persistent.
Proof.
  assert (forall A (m : M St A), keeps hard_state_of m -> keeps persistent (on_storage m)) as Hk.
  { intros A m Hm n. unfold persistent, on_storage, zoom. cbn. by rewrite Hm. }
  split; try done.
  - intros s n Ht Hv _ Hc _. unfold persistent, ballot. cbn. congruence.
  - apply Hk, first_index_keeps.
  - apply Hk, last_index_keeps.
  - intros i. apply Hk, term_keeps.
  - intros lo hi max. apply Hk, entries_keeps.
  - apply Hk, snapshot_keeps.
  - intros es. apply Hk, append_entries_keeps.
Qed.

#[export] Instance apply_frame_persistent : ApplyFrame persistent.
Proof. done. Qed.
#[export] Instance role_frame_persistent : RoleFrame persistent.
Proof. intros s n Ht Hv Hc. unfold persistent, ballot. cbn. congruence. Qed.

Lemma persistent_preserves {A} (m : M (RaftNodeInner St) A) :
  keeps persistent m -> preserves persisted m.
Proof.
  apply (keeps_preserves persisted persistent
    (fun p => p.1.1 = MkHardState p.1.2.1 (default 0 p.1.2.2) p.2)). done.
Qed.

Lemma save_establishes : establishes persisted save_hard_state.
Proof.
  intros n. unfold save_hard_state, get_sm, on_storage.
  match goal with |- persisted (?m n).2 => enough (wp m (fun _ n' => persisted n') n) by done end.
  apply wp_bind, wp_gets, wp_bind, wp_zoom.
  eapply wp_mono; [apply save_hard_state_ok|]. cbn. intros o s' [-> Hhs].
  by apply wp_bind, wp_gets, wp_modify.
Qed.
Hint Resolve save_establishes establishes_preserves : preserves.

Lemma step_down_establishes t l : establishes persisted (step_down t l).
Proof. intros n. apply save_establishes. Qed.
Hint Resolve step_down_establishes : preserves.

Lemma apply_snapshot_keeps_persistent sn :
  keeps persistent (on_storage (st_apply_snapshot sn)).
Proof.
  intros n. unfold persistent, on_storage, zoom. cbn. by rewrite apply_snapshot_keeps.
Qed.
Hint Resolve apply_snapshot_keeps_persistent : keeps.

(** Walks the code. An update is either outside what is saved, or it and
    those after it are followed by a save, which establishes the invariant. *)
Ltac node_preserves :=
  intros; cbn zeta;
  lazymatch goal with
  | |- preserves _ (bind (upd_sm _) _) =>
      first
        [ apply preserves_bind;
          [apply persistent_preserves; solve [node_keeps]|node_preserves]
        | apply establishes_preserves; repeat apply establishes_modify_bind;
          first [ solve [eauto with preserves]
                | apply establishes_bind;
                  [solve [eauto with preserves]|node_preserves] ] ]
  | |- preserves _ (bind _ _) => apply preserves_bind; node_preserves
  | |- preserves _ (try_bind _ _) => apply preserves_try_bind; node_preserves
  | |- preserves _ (when _ _) => apply preserves_when; node_preserves
  | |- preserves _ (match _ with _ => _ end) => case_match; node_preserves
  | |- _ => first [ solve [eauto with preserves]
                  | apply persistent_preserves; solve [node_keeps] ]
  end.

Lemma maybe_advance_preserves : preserves persisted maybe_advance_commit.
Proof. unfold maybe_advance_commit. node_preserves. Qed.
Hint Resolve maybe_advance_preserves : preserves.
Lemma on_append_entries_preserves req : preserves persisted (on_append_entries req).
Proof. unfold on_append_entries. node_preserves. Qed.
Lemma on_request_vote_preserves req : preserves persisted (on_request_vote req).
Proof. unfold on_request_vote. node_preserves. Qed.
Lemma on_install_snapshot_preserves req : preserves persisted (on_install_snapshot req).
Proof. unfold on_install_snapshot. node_preserves. Qed.
Lemma start_election_preserves : preserves persisted start_election.
Proof.
  intros n Hn. unfold start_election. unfold bind at 1, gets at 1.
  unfold bind at 1. destruct (on_sm (become_candidate (cfg_id (config n))) n)
    as [[[]|] n1] eqn:Hc.
  - match goal with |- persisted (?m n1).2 => enough (establishes persisted m) as He by apply He end.
    apply establishes_bind; [apply save_establishes|]. node_preserves.
  - revert Hc. unfold on_sm, zoom, become_candidate, bind, gets, u64_add, panic, ret; cbn.
    repeat case_match; intros; simplify_eq/=. exact Hn.
Qed.
Lemma handle_vote_response_preserves p r : preserves persisted (handle_vote_response p r).
Proof. unfold handle_vote_response. node_preserves. Qed.
Lemma handle_append_response_preserves p li r :
  preserves persisted (handle_append_response p li r).
Proof. unfold handle_append_response. node_preserves. Qed.
Lemma handle_snapshot_response_preserves p li r :
  preserves persisted (handle_snapshot_response p li r).
Proof. unfold handle_snapshot_response. node_preserves. Qed.
Hint Resolve on_append_entries_preserves on_request_vote_preserves
  on_install_snapshot_preserves start_election_preserves handle_vote_response_preserves
  handle_append_response_preserves handle_snapshot_response_preserves : preserves.

Lemma dispatch_preserves msg : preserves persisted (dispatch msg).
Proof. unfold dispatch. node_preserves. Qed.
Hint Resolve dispatch_preserves : preserves.

(** The node a restart builds: what is on storage, nothing else. *)
Definition restarted n : RaftNodeInner St :=
  let hs := hard_state_of (storage n) in
  set_sm (MkSM (hs_term hs) (if hs_vote hs =? 0 then None else Some (hs_vote hs)) Follower
               (hs_commit hs) (hs_commit hs) None ∅ ∅)
         (set_effects (effects n) (node_new (config n) (storage n))).

Lemma restart_run n : restart n = (Done tt, restarted n).
Proof.
  unfold restart, start_again, restore_hard_state, on_storage, upd_sm. unfold bind, modify, zoom.
  cbn [storage node_new]. rewrite load_hard_state_ok. done.
Qed.

Lemma restarted_persisted n : persisted (restarted n).
Proof.
  unfold persisted, hard_state_now, restarted. cbn.
  destruct (hard_state_of (storage n)) as [t v c]; cbn.
  by destruct (N.eqb_spec v 0) as [->|].
Qed.

Lemma restarted_ballot n :
  persisted n -> voted_for (sm n) <> Some 0 -> ballot (restarted n) = ballot n.
Proof.
  unfold persisted, hard_state_now, ballot, restarted. intros -> Hv. cbn. f_equal.
  destruct (voted_for (sm n)) as [v|]; cbn; [|done].
  destruct (N.eqb_spec v 0) as [->|]; done.
Qed.

Lemma handle_preserves i : preserves persisted (handle i).
Proof.
  destruct i; cbn [handle]; try (unfold on_heartbeat; node_preserves).
  apply preserves_bind; [|node_preserves].
  intros n _. rewrite restart_run. apply restarted_persisted.
Qed.
End durable.

(** ** Runs of a node *)

Section inputs.
Context {prof : BuildProfile} {St : Type} `{Storage St}.
Implicit Types n : RaftNodeInner St.

(** Inputs under which terms and votes make sense: a vote is asked for by a
    candidate whose id is not 0 (0 stands for no vote on storage), and, in a
    build that wraps, no election starts at the last term. *)
Definition admissible n (i : Input) : Prop :=
  match i with
  | InRequestVote req => rv_candidate_id req <> 0
  | InElectionTimeout => overflow_checks = true \/ u64 (current_term (sm n) + 1)
  | _ => True
  end.

(** The votes one step casts: the granted request's, or the
    candidate's own when an election starts. *)
Definition cast n (x : Input * outcome Reply * RaftNodeInner St) : list (Term * NodeId) :=
  match x with
  | (InRequestVote req, Done (ReplyVote (Ok r)), _) =>
      if rvr_vote_granted r then [(rvr_term r, rv_candidate_id req)] else []
  | (InElectionTimeout, _, n') =>
      if current_term (sm n) <? current_term (sm n')
      then [(current_term (sm n'), cfg_id (config n'))] else []
  | _ => []
  end.

(** The ballot after each input. *)
Definition ballot_after n (i : Input) (b : Term * option NodeId) : Prop :=
  match i with
  | InAppendEntries req => b = observed (ae_term req) n
  | InInstallSnapshot req => b = observed (is_term req) n
  | InRequestVote req =>
      b = observed (rv_term req) n \/
      (observed (rv_term req) n).1 = rv_term req /\
      ((observed (rv_term req) n).2 = None \/
       (observed (rv_term req) n).2 = Some (rv_candidate_id req)) /\
      b = (rv_term req, Some (rv_candidate_id req))
  | InMessage (VoteResponse _ r) => b = observed (rvr_term r) n
  | InMessage (AppendResponse _ _ r) => b = observed (aer_term r) n
  | InMessage (SnapshotResponse _ _ r) => b = observed (isr_term r) n
  | InElectionTimeout =>
      b = ballot n \/ b = (current_term (sm n) + 1, Some (cfg_id (config n)))
  | _ => b = ballot n
  end.

Lemma after_no_reply (m : M (RaftNodeInner St) unit) n :
  ((m ;;; ret NoReply) n).2 = (m n).2.
Proof. unfold bind. by destruct (m n) as [[]]. Qed.

Lemma after_reply {A} (m : M (RaftNodeInner St) A) (f : A -> Reply) n :
  (bind m (fun r => ret (f r)) n).2 = (m n).2.
Proof. unfold bind. by destruct (m n) as [[]]. Qed.

Lemma handle_ballot_any i n :
  i <> InRestart ->
  (i = InElectionTimeout -> overflow_checks = true \/ u64 (current_term (sm n) + 1)) ->
  ballot_after n i (ballot (handle i n).2).
Proof.
  intros Hi Hover. destruct i as [req|req|req|msg| | |]; cbn [handle ballot_after];
    rewrite ?after_reply, ?after_no_reply; [..|done].
  - apply on_append_entries_ballot.
  - pose proof (on_request_vote_ballot req n) as Hc. unfold wp, vote_cast in Hc. tauto.
  - apply on_install_snapshot_ballot.
  - destruct msg; cbn [dispatch];
      try (match goal with |- ballot (?m n).2 = _ =>
             enough (keeps ballot m) as Hk by apply Hk end; by node_keeps).
    + apply handle_append_response_ballot.
    + apply handle_vote_response_ballot.
    + apply handle_snapshot_response_ballot.
  - destruct (decide (u64 (current_term (sm n) + 1))) as [Hu|Hu]; unfold u64 in Hu.
    + right. by apply start_election_ballot.
    + left. destruct (Hover eq_refl) as [Ho|?]; [|done].
      by rewrite restart_election_overflow.
  - match goal with |- ballot (?m n).2 = _ => enough (keeps ballot m) as Hk by apply Hk end.
    unfold on_heartbeat, maybe_advance_commit, save_hard_state. by node_keeps.
Qed.

Lemma ballot_after_le n i b : ballot_after n i b -> ballot_le (ballot n) b.
Proof.
  assert (forall t, b = observed t n -> ballot_le (ballot n) b) as Ho.
  { intros t ->. apply observed_le. }
  assert (b = ballot n -> ballot_le (ballot n) b) as Hs by by intros ->.
  destruct i as [req|req|req|[]| | |]; cbn; eauto.
  - intros [?|(H1 & H2 & ->)]; [eauto|]. transitivity (observed (rv_term req) n);
      [apply observed_le|]. right. cbn. destruct H2; auto.
  - intros [?| ->]; [eauto|]. left. cbn. lia.
Qed.

Lemma ballot_after_not_0 n i b :
  admissible n i -> cfg_id (config n) <> 0 -> voted_for (sm n) <> Some 0 ->
  ballot_after n i b -> b.2 <> Some 0.
Proof.
  intros Ha Hid Hv.
  assert (forall t, b = observed t n -> b.2 <> Some 0) as Ho.
  { intros t ->. unfold observed. by case_match. }
  assert (b = ballot n -> b.2 <> Some 0) as Hs by by intros ->.
  destruct i as [req|req|req|[]| | |]; cbn in *; eauto.
  - intros [?|(H1 & H2 & ->)]; [eauto|]. cbn. congruence.
  - intros [?| ->]; [eauto|]. cbn. congruence.
Qed.

Lemma handle_keeps_config i n : config (handle i n).2 = config n.
Proof.
  match goal with |- config (?m n).2 = _ => enough (keeps config m) as Hk by apply Hk end.
  destruct i as [| | |[]| | |]; cbn [handle dispatch];
    unfold on_append_entries, on_request_vote, on_install_snapshot, handle_vote_response,
      handle_append_response, handle_snapshot_response, start_election, on_heartbeat,
      maybe_advance_commit, restart, start_again, restore_hard_state, step_down, save_hard_state;
    by node_keeps.
Qed.

End inputs.

Section runs.
Context {prof : BuildProfile} {St : Type} `{Storage St, !DurableStorage St}.
Implicit Types n : RaftNodeInner St.

Lemma handle_ballot i n :
  admissible n i -> persisted n -> voted_for (sm n) <> Some 0 ->
  ballot_after n i (ballot (handle i n).2).
Proof.
  intros Hadm Hp Hv. destruct i; try by apply handle_ballot_any; [|intros].
  cbn [handle ballot_after]. rewrite after_no_reply, restart_run.
  by apply restarted_ballot.
Qed.

(** What a step casts is the ballot it leaves. *)
Lemma cast_ballot i n T c :
  admissible n i -> (T, c) ∈ cast n (i, (handle i n).1, (handle i n).2) ->
  ballot (handle i n).2 = (T, Some c).
Proof.
  intros Ha. destruct i as [|req| | | | |]; cbn [cast]; try by intros ?%not_elem_of_nil.
  - cbn [handle]. rewrite after_reply. unfold bind.
    pose proof (on_request_vote_ballot req n) as Hc. unfold wp, vote_cast in Hc.
    destruct (on_request_vote req n) as [[[r|e]|] n']; cbn in *;
      try by intros ?%not_elem_of_nil.
    destruct Hc as [[_ Hr]|(_ & _ & Hb & Hr)].
    { rewrite Hr by done. by intros ?%not_elem_of_nil. }
    case_match; [|by intros ?%not_elem_of_nil].
    rewrite list_elem_of_singleton. intros [= -> ->]. by rewrite Hr.
  - rewrite handle_keeps_config. cbn [handle]. rewrite after_no_reply. unfold bind.
    case_match eqn:Ht; [|by intros ?%not_elem_of_nil].
    rewrite list_elem_of_singleton. intros [= -> ->]. apply N.ltb_lt in Ht.
    destruct (decide (u64 (current_term (sm n) + 1))) as [Hu|Hu]; unfold u64 in Hu.
    + pose proof (start_election_ballot n Hu) as Hb. unfold ballot in *. congruence.
    + destruct Ha as [Ho|?]; [|done].
      rewrite restart_election_overflow in Ht by done. cbn in Ht. lia.
Qed.

(** Every vote cast so far is of an older term or is the vote the node still
    remembers, and no two are for different candidates of one term. *)
Record vote_inv n (votes : list (Term * NodeId)) : Prop := {
  vi_persisted : persisted n;
  vi_id : cfg_id (config n) <> 0;
  vi_vote : voted_for (sm n) <> Some 0;
  vi_votes T c : (T, c) ∈ votes ->
    T < current_term (sm n) \/ ballot n = (T, Some c);
  vi_unique T c c' : (T, c) ∈ votes -> (T, c') ∈ votes -> c = c';
}.

Lemma vote_inv_step i n votes :
  admissible n i -> vote_inv n votes ->
  vote_inv (handle i n).2 (votes ++ cast n (i, (handle i n).1, (handle i n).2)).
Proof.
  intros Ha [Hp Hid Hv Hvotes Huniq].
  pose proof (handle_ballot i n Ha Hp Hv) as Hb.
  pose proof (ballot_after_le n i _ Hb) as Hle.
  assert (forall T c, (T, c) ∈ votes ->
            T < current_term (sm (handle i n).2) \/ ballot (handle i n).2 = (T, Some c)) as Hold.
  { intros T c Hin. unfold ballot_le, ballot in *; cbn in Hle.
    destruct (Hvotes T c Hin) as [?|[= HT Hc]]; [left; lia|].
    destruct Hle as [?|[? [?|?]]]; [left; lia|congruence|]. right. f_equal; congruence. }
  split.
  - by apply handle_preserves.
  - by rewrite handle_keeps_config.
  - by apply (ballot_after_not_0 n i _ Ha Hid Hv Hb).
  - intros T c [Hin|Hin]%elem_of_app; [by apply Hold|]. right. by apply cast_ballot.
  - assert (forall T c c', (T, c) ∈ votes ->
              (T, c') ∈ cast n (i, (handle i n).1, (handle i n).2) -> c = c') as Hmix.
    { intros T c c' Hin Hcast. apply (cast_ballot i n T c' Ha) in Hcast.
      destruct (Hold T c Hin) as [Hlt|Hb']; [|congruence].
      unfold ballot in Hcast. injection Hcast as HT _. lia. }
    intros T c c' [Hin|Hin]%elem_of_app [Hin'|Hin']%elem_of_app.
    + by eapply Huniq.
    + by eapply Hmix.
    + symmetry. by eapply Hmix.
    + apply cast_ballot in Hin, Hin'; [congruence|done..].
Qed.

(** *** The life of a node

    A restart is two events. Between them the node is booting: its memory is
    that of a node that never ran. *)
Inductive NodeEvent : Type :=
| Starts
| Restores
| Handles (i : Input).

Definition life_step n (ev : NodeEvent) : RaftNodeInner St :=
  match ev with
  | Starts => (start_again n).2
  | Restores => (restore_hard_state n).2
  | Handles i => (handle i n).2
  end.

Definition life n (evs : list NodeEvent) : RaftNodeInner St := fold_left life_step evs n.

(** The votes a node casts over its life, and the inputs it must be given. *)
Fixpoint life_votes n (evs : list NodeEvent) : list (Term * NodeId) :=
  match evs with
  | [] => []
  | ev :: evs' =>
      match ev with
      | Handles i => cast n (i, (handle i n).1, (handle i n).2)
      | _ => []
      end ++ life_votes (life_step n ev) evs'
  end.

Fixpoint life_admissible n (evs : list NodeEvent) : Prop :=
  match evs with
  | [] => True
  | ev :: evs' =>
      match ev with Handles i => admissible n i | _ => True end /\
      life_admissible (life_step n ev) evs'
  end.

(** Nothing is handled between a start and the restoring that follows it. *)
Fixpoint quiet (booting : bool) (evs : list NodeEvent) : bool :=
  match evs with
  | [] => true
  | Starts :: evs' => quiet true evs'
  | Restores :: evs' => booting && quiet false evs'
  | Handles _ :: evs' => negb booting && quiet false evs'
  end.

(** The node a booting node is about to be. *)
Definition settled (booting : bool) n : RaftNodeInner St :=
  if booting then (restore_hard_state n).2 else n.

Lemma restore_run (n : RaftNodeInner St) :
  let hs := hard_state_of (storage n) in
  restore_hard_state n = (Done tt, set_sm
    (MkSM (hs_term hs) (if hs_vote hs =? 0 then None else Some (hs_vote hs)) (role (sm n))
       (hs_commit hs) (hs_commit hs) (leader_id (sm n)) (progress (sm n))
       (votes_received (sm n))) n).
Proof.
  unfold restore_hard_state, on_storage, zoom, bind. rewrite load_hard_state_ok. by destruct n.
Qed.

Lemma settled_start booting n :
  (restore_hard_state (start_again n).2).2 = (handle InRestart (settled booting n)).2.
Proof.
  cbn [handle]. rewrite after_no_reply, restart_run. destruct booting; cbn [settled].
  - by rewrite !restore_run.
  - by rewrite restore_run.
Qed.

Lemma vote_inv_life evs booting n votes :
  quiet booting evs = true -> life_admissible n evs -> vote_inv (settled booting n) votes ->
  forall T c c', (T, c) ∈ votes ++ life_votes n evs ->
                 (T, c') ∈ votes ++ life_votes n evs -> c = c'.
Proof.
  revert booting n votes. induction evs as [|ev evs IH]; intros booting n votes Hq Ha Hi.
  { cbn [life_votes]. rewrite app_nil_r. apply (vi_unique _ votes Hi). }
  destruct Ha as [Ha Har]. cbn [life_votes]. destruct ev as [| |i]; cbn [app quiet] in *.
  - apply (IH true); [done..|]. cbn [settled life_step]. rewrite (settled_start booting).
    pose proof (vote_inv_step InRestart (settled booting n) votes I Hi) as Hs.
    cbn [cast] in Hs. by rewrite app_nil_r in Hs.
  - apply andb_true_iff in Hq as [-> Hq]. by apply (IH false).
  - apply andb_true_iff in Hq as [Hb Hq]. apply negb_true_iff in Hb as ->.
    rewrite app_assoc. apply (IH false); [done..|]. by apply vote_inv_step.
Qed.
End runs.

(** ** Properties *)

Section properties.
Context {prof : BuildProfile} {St : Type} `{Storage St}.
Implicit Types n : RaftNodeInner St.

(** Terms and votes only move forward: whatever a node receives (any RPC,
    any message, any timer), and even if the handler panics, its term does
    not decrease, and within a term a vote once cast stays. This needs
    nothing of the storage backend. The one exception is an election started
    at the last 64-bit term in a build without overflow checks. *)
Theorem ballot_monotone i n (Hi : i <> InRestart)
    (Hover : i = InElectionTimeout ->
             overflow_checks = true \/ u64 (current_term (sm n) + 1)) :
  ballot_le (ballot n) (ballot (handle i n).2).
Proof.
  by eapply ballot_after_le, handle_ballot_any.
Qed.

Context `{HD : !DurableStorage St}.

(** C16. The hard state is on storage before a handler answers. On a storage
    whose saves succeed ([save_hard_state] only logs one that fails): if a
    node's term, vote and commit index are those on storage before an input,
    they are after it, however the handler ends. If the process is then started
    again and its loop restores the hard state before any RPC is served, the
    node is a follower with exactly that term and commit index, and that vote
    unless it is for node 0, whose id means no vote on storage. *)
Theorem hard_state_durable i n (Hp : persisted n) :
  let n1 := (handle i n).2 in
  let n2 := (start_again n1).2 in
  let n3 := (restore_hard_state n2).2 in
  persisted n1 /\
  (start_again n1).1 = Done tt /\ (restore_hard_state n2).1 = Done tt /\
  persisted n3 /\ storage n3 = storage n1 /\ role (sm n3) = Follower /\
  current_term (sm n3) = current_term (sm n1) /\
  commit_index (sm n3) = commit_index (sm n1) /\
  last_applied (sm n3) = commit_index (sm n1) /\
  voted_for (sm n3) =
    (if decide (voted_for (sm n1) = Some 0) then None else voted_for (sm n1)).
Proof.
  intros n1 n2 n3. assert (Hp1 : persisted n1) by by apply handle_preserves.
  assert (n3 = restarted n1) as ->.
  { unfold n3, n2. rewrite (settled_start false). cbn [handle settled].
    by rewrite after_no_reply, restart_run. }
  split; [done|]. split; [done|]. split; [by rewrite restore_run|].
  split; [apply restarted_persisted|]. clear n2. clearbody n1.
  unfold persisted, hard_state_now in Hp1. unfold restarted. cbn. rewrite Hp1. cbn.
  repeat (split; [done|]). destruct (voted_for (sm n1)) as [v|]; cbn; [|by case_decide].
  destruct (N.eqb_spec v 0) as [->|]; by case_decide; simplify_eq.
Qed.

(** C15. One vote per term: over any life of a node, with any inputs in any
    order, starts and restorings, in which nothing is handled between a start
    and the restoring that follows it, the votes it casts (granted requests and
    its own candidacies) are for at most one candidate in each term. The
    storage's saves succeed, and at first the memory is what is stored. Without
    the condition on starts it may vote twice
    ([EventLoop.start_race_double_vote]). *)
Theorem one_vote_per_term evs n T c c' (Hp : persisted n)
    (Hid : cfg_id (config n) <> 0) (Hv : voted_for (sm n) <> Some 0)
    (Hquiet : quiet false evs = true) (Hadm : life_admissible n evs)
    (Hc : (T, c) ∈ life_votes n evs) (Hc' : (T, c') ∈ life_votes n evs) :
  c = c'.
Proof.
  eapply (vote_inv_life evs false n []); [done..| |done|done].
  split; [done..| |]; intros * Hin; by apply not_elem_of_nil in Hin.
Qed.
End properties.

(** ** Concrete inputs *)

(** Node 1 of a cluster of three, at term 3 without a vote; the log of the
    example store ends at index 5, term 2. *)
Definition ex_config : RaftConfig := MkRaftConfig 1 [2; 3] 100 300 600 128 10000 1024.

Definition ex_node : RaftNodeInner MemStorageInner :=
  MkNode (MkSM 3 None Follower 3 3 (Some 2) ∅ ∅) ex_config
    (MkMem (MkHardState 3 0 3) (mem_entries ex_mem) (mem_snapshot ex_mem)) [] None [].

Section examples.
Local Existing Instance dev_profile.

Definition ex_vote (t c : N) : RequestVoteRequest := MkRequestVoteRequest t c 5 2 false.

Lemma ballot_monotone_witness :
  ballot_le (ballot ex_node) (ballot (handle (InRequestVote (ex_vote 4 2)) ex_node).2).
Proof. apply ballot_monotone; [discriminate|discriminate]. Defined.

Lemma hard_state_durable_witness :
  let n1 := (handle (InRequestVote (ex_vote 4 2)) ex_node).2 in
  let n3 := (restore_hard_state (start_again n1).2).2 in
  current_term (sm n3) = 4 /\ voted_for (sm n3) = Some 2.
Proof.
  destruct (hard_state_durable (HD := MemStorage_durable) (InRequestVote (ex_vote 4 2)) ex_node ltac:(reflexivity))
    as (_ & _ & _ & _ & _ & _ & Ht & _ & _ & Hv).
  split; [rewrite Ht; vm_compute; reflexivity|]. rewrite Hv. vm_compute. reflexivity.
Defined.

(** A vote at term 4, a restart, another request at term 4, an election, a
    restart that crashes before it has restored anything, a request at term
    5. *)
Definition ex_life : list NodeEvent :=
  [Handles (InRequestVote (ex_vote 4 2)); Starts; Restores; Handles (InRequestVote (ex_vote 4 3));
   Handles (InRequestVote (ex_vote 4 2)); Handles InElectionTimeout; Starts; Starts; Restores;
   Handles (InRequestVote (ex_vote 5 2))].

Lemma one_vote_per_term_witness :
  life_votes ex_node ex_life = [(4, 2); (4, 2); (5, 1)] /\
  (forall c, (4, c) ∈ life_votes ex_node ex_life -> c = 2).
Proof.
  split; [vm_compute; reflexivity|]. intros c Hc.
  apply (one_vote_per_term (HD := MemStorage_durable) ex_life ex_node 4 c 2); [reflexivity|discriminate|
    discriminate|reflexivity| |exact Hc|vm_compute; left].
  cbn [ex_life life_admissible admissible]. repeat split; (discriminate || by left).
Defined.
End examples.
