(* ===== verification/NodeLog.v ===== *)
(** * The log a node sees

    The node's accesses to a storage backend that keeps the laws of [Storage]
    ([Storage.LogStorage] and [Storage.DurableStorage]), as equations: what each
    helper of the node returns and leaves, for the files that state the
    functional behaviour of the handlers. *)

From Stdlib Require Import Lia Init.Byte.
From stdpp Require Import base numbers list option gmap sets fin_maps strings.
From S2P Require Import Prelude.
From S2P Require Import Core.
From S2P Require Import Proto.
From S2P Require Import Storage.
From S2P Require Import StateMachine.
From S2P Require Import Node.
From S2P Require Import Handlers.
From S2P Require Import Votes.

(** The log of a node. *)
Definition log {St} `{LogStorage St} (n : RaftNodeInner St) : LogView :=
  log_view (storage n).
Definition log_ok {St} `{LogStorage St} (n : RaftNodeInner St) : Prop :=
  log_wf (storage n).

(** The term of the last entry, 0 for an empty log. *)
Definition last_term (v : LogView) : Term :=
  if 0 <? lv_last v then unwrap_or 0 (spec_term v (lv_last v)) else 0.

Section reads.
Context {prof : BuildProfile} {St : Type} `{LogStorage St}.
Implicit Types n : RaftNodeInner St.

Lemma on_storage_read {A} (m : M St A) (a : A) n :
  m (storage n) = (Done a, storage n) -> on_storage m n = (Done a, n).
Proof. intros Hm. unfold on_storage, zoom. rewrite Hm. cbn. by destruct n. Qed.

Lemma first_index_run n :
  log_ok n -> on_storage st_first_index n = (Done (Ok (lv_base (log n) + 1)), n).
Proof. intros Hn. by apply on_storage_read, first_index_ok. Qed.

Lemma term_run i n : log_ok n -> on_storage (st_term i) n = (Done (spec_term (log n) i), n).
Proof. intros Hn. by apply on_storage_read, term_ok. Qed.

Lemma entries_run lo hi max n :
  log_ok n -> exists r, on_storage (st_entries lo hi max) n = (Done r, n) /\
                        spec_entries (log n) lo hi max r.
Proof.
  intros Hn. destruct (entries_ok lo hi max (storage n) Hn) as (r & Hr & Hs).
  exists r. split; [by apply on_storage_read|done].
Qed.

Lemma snapshot_run n :
  log_ok n -> on_storage st_snapshot n = (Done (Ok (lv_snapshot (log n))), n).
Proof. intros Hn. by apply on_storage_read, snapshot_ok. Qed.

Lemma last_index_or_0_run n : log_ok n -> last_index_or_0 n = (Done (lv_last (log n)), n).
Proof.
  intros Hn. unfold last_index_or_0, bind.
  by rewrite (on_storage_read _ _ n (last_index_ok _ Hn)).
Qed.

Lemma term_or_0_run i n :
  log_ok n -> term_or_0 i n = (Done (unwrap_or 0 (spec_term (log n) i)), n).
Proof. intros Hn. unfold term_or_0, bind. by rewrite term_run. Qed.

Lemma last_term_run n :
  log_ok n ->
  (if 0 <? lv_last (log n) then term_or_0 (lv_last (log n)) else ret 0) n =
    (Done (last_term (log n)), n).
Proof. intros Hn. unfold last_term. case_match; [by apply term_or_0_run|done]. Qed.

Lemma append_run es n :
  log_ok n -> appendable (log n) es ->
  exists s', on_storage (st_append_entries es) n = (Done (Ok tt), set_storage s' n) /\
    log_wf s' /\ log_view s' = spec_append (log n) es.
Proof.
  intros Hn Ha. pose proof (append_entries_ok es (storage n) Hn Ha) as Hw.
  unfold wp in Hw. unfold on_storage, zoom.
  destruct (st_append_entries es (storage n)) as [o s']. cbn in *.
  destruct Hw as (-> & Hwf & Hv). by exists s'.
Qed.

Lemma apply_snapshot_run sn n :
  log_ok n -> installable (log n) sn ->
  exists s', on_storage (st_apply_snapshot sn) n = (Done (Ok tt), set_storage s' n) /\
    log_wf s' /\ log_view s' = spec_apply_snapshot (log n) sn.
Proof.
  intros Hn Ha. pose proof (apply_snapshot_ok sn (storage n) Hn Ha) as Hw.
  unfold wp in Hw. unfold on_storage, zoom.
  destruct (st_apply_snapshot sn (storage n)) as [o s']. cbn in *.
  destruct Hw as (-> & Hwf & Hv). by exists s'.
Qed.
End reads.

Section saves.
Context {prof : BuildProfile} {St : Type} `{HS : Storage St, !LogStorage St, !DurableStorage St}.
Implicit Types n : RaftNodeInner St.


(** Saving writes the hard state, leaves the log and sets one gauge. *)
Lemma save_any n :
  exists s',
    save_hard_state n = (Done tt,
      set_effects (effects n ++ [MetricSet current_term_gauge (u64_as_i64 (current_term (sm n)))])
        (set_storage s' n)) /\
    hard_state_of s' = hard_state_now n /\ (log_ok n -> log_wf s' /\ log_view s' = log n).
Proof.
  set (hs := hard_state_now n).
  pose proof (save_keeps_log hs (storage n)) as Hl.
  pose proof (save_hard_state_ok hs (storage n)) as Hd.
  unfold wp in *. unfold save_hard_state, get_sm, on_storage, zoom, emit, bind, gets, modify.
  cbn [id]. fold (hard_state_now n). fold hs.
  destruct (st_save_hard_state hs (storage n)) as [o s']. cbn in *.
  destruct Hd as [-> Hhs]. by exists s'.
Qed.

Lemma save_run n :
  log_ok n -> exists s',
    save_hard_state n = (Done tt,
      set_effects (effects n ++ [MetricSet current_term_gauge (u64_as_i64 (current_term (sm n)))])
        (set_storage s' n)) /\
    log_wf s' /\ log_view s' = log n /\ hard_state_of s' = hard_state_now n.
Proof.
  intros Hn. destruct (save_any n) as (s' & Hr & Hd & Hl). exists s'.
  destruct (Hl Hn). by repeat split.
Qed.

(** Stepping down to a newer term. *)
Lemma step_down_run t l n :
  log_ok n -> exists s',
    step_down t l n = (Done tt,
      set_effects (effects n ++ [MetricSet current_term_gauge (u64_as_i64 t)])
        (set_storage s' (set_sm (MkSM t None Follower (commit_index (sm n))
           (last_applied (sm n)) l ∅ ∅) n))) /\
    log_wf s' /\ log_view s' = log n /\
    hard_state_of s' = MkHardState t 0 (commit_index (sm n)).
Proof.
  intros Hn. unfold step_down, on_sm, zoom, become_follower, bind, modify. cbn [fst snd].
  set (n1 := set_sm _ n). destruct (save_run n1 Hn) as (s' & -> & Hs). exists s'.
  split; [done|]. destruct Hs as (? & ? & ->). done.
Qed.
End saves.
