(* ===== verification/Election.v ===== *)
(** * Elections at one node

    How each input changes what an election is about: the term, the role, the
    votes counted and the vote requests sent ([elect]). For any storage
    backend, and however the handler ends. Theorem: a node starts an election
    by asking every peer once for its vote, at the new term and with the end of
    its own log, and a node without peers is the leader at once. *)

From Stdlib Require Import Lia Init.Byte.
From stdpp Require Import base numbers list option gmap sets fin_maps strings.
From S2P Require Import Prelude.
From S2P Require Import Core.
From S2P Require Import Proto.
From S2P Require Import Storage.
From S2P Require Import MemStorage.
From S2P Require Import StateMachine.
From S2P Require Import Node.
From S2P Require Import Handlers.
From S2P Require Import Votes.
From S2P Require Import NodeLog.

Definition votes_asked {St} (n : RaftNodeInner St) : list Effect :=
  filter (fun e => asks_vote e = true) (effects n).

Lemma elem_of_votes_asked {St} (n : RaftNodeInner St) peer req :
  SpawnRequestVote peer req ∈ effects n <-> SpawnRequestVote peer req ∈ votes_asked n.
Proof. unfold votes_asked. rewrite list_elem_of_filter. cbn. tauto. Qed.

Definition elect {St} (n : RaftNodeInner St) :
    Term * option NodeId * RaftRole * gset NodeId * list Effect :=
  (ballot n, role (sm n), votes_received (sm n), votes_asked n).

#[export] Instance frame_elect {St} `{Storage St} : Frame (elect (St := St)).
Proof.
  split; try done.
  - intros e n He _. unfold elect, votes_asked. cbn.
    rewrite filter_app, filter_cons_False, filter_nil, app_nil_r by congruence. done.
  - intros s n Ht Hv Hr _ Hvr. unfold elect, ballot, votes_asked. cbn. congruence.
Qed.

#[export] Instance apply_frame_elect {St} : ApplyFrame (elect (St := St)).
Proof.
  intros e n. unfold elect, votes_asked. cbn.
  by rewrite filter_app, filter_cons_False, filter_nil, app_nil_r.
Qed.

Section elect.
Context {prof : BuildProfile} {St : Type} `{Storage St}.
Implicit Types n : RaftNodeInner St.

Lemma save_keeps_elect : keeps (elect (St := St)) save_hard_state.
Proof.
  unfold save_hard_state. apply keeps_bind; [done|intros s].
  apply keeps_bind; [done|intros _]. by node_keeps.
Qed.
Hint Resolve save_keeps_elect : keeps.

Lemma maybe_advance_keeps_elect : keeps (elect (St := St)) maybe_advance_commit.
Proof. unfold maybe_advance_commit. by node_keeps. Qed.
Hint Resolve maybe_advance_keeps_elect : keeps.

(** After stepping down: a follower with no votes counted. *)
Definition stepped_down (t : Term) n :=
  ((t, None : option NodeId), Follower, ∅ : gset NodeId, votes_asked n).

Lemma step_down_elect t l n : elect (step_down t l n).2 = stepped_down t n.
Proof. unfold step_down. rewrite (keeps_after elect); [done|]. auto with keeps. Qed.

Definition observed_elect (t : Term) n :=
  if current_term (sm n) <? t then stepped_down t n else elect n.

Lemma observe_elect t l n :
  elect (when (current_term (sm n) <? t) (step_down t l) n).2 = observed_elect t n.
Proof. unfold observed_elect. case_match; [apply step_down_elect|done]. Qed.

Lemma on_append_entries_elect req n :
  elect (on_append_entries req n).2 = observed_elect (ae_term req) n.
Proof.
  unfold on_append_entries, get_sm at 1. unfold bind at 1, gets.
  rewrite (keeps_after elect); [apply observe_elect|]. by node_keeps.
Qed.

Lemma on_install_snapshot_elect req n :
  elect (on_install_snapshot req n).2 = observed_elect (is_term req) n.
Proof.
  unfold on_install_snapshot, get_sm at 1. unfold bind at 1, gets.
  rewrite (keeps_after elect); [apply observe_elect|]. by node_keeps.
Qed.

(** A vote changes the vote, not the role. *)
Definition standing n := (current_term (sm n), role (sm n), votes_received (sm n), votes_asked n).

Instance frame_standing : Frame standing.
Proof.
  split; try done.
  - intros e n He _. unfold standing, votes_asked. cbn.
    rewrite filter_app, filter_cons_False, filter_nil, app_nil_r by congruence. done.
  - intros s n Ht Hv Hr _ Hvr. unfold standing, votes_asked. cbn. congruence.
Qed.

Lemma elect_standing n n' : elect n = elect n' -> standing n = standing n'.
Proof. unfold elect, standing, ballot. congruence. Qed.

Lemma on_request_vote_standing req n :
  standing (on_request_vote req n).2 =
    if current_term (sm n) <? rv_term req
    then (rv_term req, Follower, ∅, votes_asked n) else standing n.
Proof.
  unfold on_request_vote, get_sm at 1. unfold bind at 1, gets.
  rewrite (keeps_after standing).
  - pose proof (observe_elect (rv_term req) None n) as Ho. unfold observed_elect in Ho.
    case_match; [|by apply elect_standing].
    unfold stepped_down, elect, standing, ballot in *. congruence.
  - unfold save_hard_state. node_keeps; apply keeps_modify; by intros.
Qed.

(** Winning: the role becomes leader, nothing else of [elect] changes; the
    log may also be unreadable, in which case nothing does. *)
Lemma become_leader_elect id li ps n :
  elect (on_sm (become_leader id li ps) n).2 =
    (ballot n, Leader, votes_received (sm n), votes_asked n).
Proof.
  pose (f := fun s => (current_term s, voted_for s, role s, votes_received s)).
  assert (f (become_leader id li ps (sm n)).2 =
            (current_term (sm n), voted_for (sm n), Leader, votes_received (sm n))) as Hf.
  { unfold become_leader. rewrite (keeps_after f) by solve_keeps. done. }
  unfold f in Hf. unfold on_sm, zoom, elect, votes_asked, ballot.
  cbn [sm set_sm effects snd]. congruence.
Qed.

Lemma win_election_elect n :
  wp win_election (fun _ n' =>
    elect n' = elect n \/
    elect n' = (ballot n, Leader, votes_received (sm n), votes_asked n)) n.
Proof.
  unfold win_election. apply wp_bind, wp_gets.
  apply (wp_bind_keeps elect); [by node_keeps|intros li n1 Hn1|by intros; left].
  right. rewrite (keeps_after elect) by by node_keeps.
  rewrite become_leader_elect. unfold elect, ballot in *. congruence.
Qed.

(** The requests an election sends. *)
Lemma ask_votes peers req n :
  for_each peers (fun peer => emit (SpawnRequestVote peer req)) n =
    (Done tt, set_effects (effects n ++ map (fun p => SpawnRequestVote p req) peers) n).
Proof.
  revert n. induction peers as [|p peers IH]; intros n; cbn [for_each map].
  { rewrite app_nil_r. by destruct n. }
  unfold bind, emit, modify. unfold emit, modify in IH. rewrite IH. cbn.
  by rewrite <- app_assoc.
Qed.

(** A vote request a node sent before, or sends as candidate [id] of [t]. *)
Definition asked_by n (n' : RaftNodeInner St) (t : Term) : Prop :=
  forall peer req, SpawnRequestVote peer req ∈ effects n' ->
    SpawnRequestVote peer req ∈ effects n \/
    (peer ∈ cfg_peers (config n) /\ rv_candidate_id req = cfg_id (config n) /\
     rv_term req = t).

Definition elected n (n' : RaftNodeInner St) : Prop :=
  current_term (sm n') = current_term (sm n) + 1 /\
  votes_received (sm n') = {[cfg_id (config n)]} /\
  (role (sm n') = Leader -> quorum (config n) <= 1) /\
  asked_by n n' (current_term (sm n) + 1).

Lemma elected_elect n n1 n2 : elect n2 = elect n1 -> elected n n1 -> elected n n2.
Proof.
  unfold elect, elected, asked_by, ballot. intros [= Ht Hv Hr Hvr Ha] (H1 & H2 & H3 & H4).
  rewrite Ht, Hr, Hvr. split; [done|split; [done|split; [done|]]].
  intros peer req. rewrite elem_of_votes_asked, Ha, <- elem_of_votes_asked. apply H4.
Qed.

Definition candidate_sm (id : NodeId) (s : RaftStateMachine) : RaftStateMachine :=
  MkSM (current_term s + 1) (Some id) Candidate (commit_index s) (last_applied s) None
    (progress s) {[id]}.

Lemma become_candidate_run id n :
  u64 (current_term (sm n) + 1) ->
  on_sm (become_candidate id) n = (Done tt, set_sm (candidate_sm id (sm n)) n).
Proof.
  intros Hu. unfold on_sm, zoom, become_candidate, bind, gets.
  by rewrite u64_add_small by done.
Qed.

Lemma start_election_elected n :
  u64 (current_term (sm n) + 1) ->
  wp start_election (fun _ n' => elected n n') n.
Proof.
  intros Hu. unfold start_election. apply wp_bind, wp_gets.
  apply wp_bind. unfold wp at 1. rewrite (become_candidate_run _ n Hu).
  cbn [fst snd]. set (n1 := set_sm _ n).
  assert (elected n n1 /\ role (sm n1) = Candidate) as [H1 Hr1].
  { repeat split; cbn; try done. intros peer req Hin. by left. }
  assert (config n1 = config n) as Hc1 by done. clearbody n1.
  apply (wp_bind_keeps elect); [auto with keeps|intros _ n2 Hn2|
    intros n2 Hn2; by eapply elected_elect].
  apply (wp_bind_keeps elect); [by node_keeps|intros li n3 Hn3|
    intros n3 Hn3; eapply elected_elect; [|done]; congruence].
  apply (wp_bind_keeps elect); [by node_keeps|intros lt n4 Hn4|
    intros n4 Hn4; eapply elected_elect; [|done]; congruence].
  apply (wp_bind_keeps elect); [by node_keeps|intros _ n5 Hn5|
    intros n5 Hn5; eapply elected_elect; [|done]; congruence].
  assert (elect n5 = elect n1) as Hn51 by congruence. clear Hn2 Hn3 Hn4 Hn5.
  assert (role (sm n5) = Candidate) as Hr5 by (unfold elect in Hn51; congruence).
  pose proof (elected_elect _ _ _ Hn51 H1) as (Ht & Hv & Hq & Ha). clear H1 Hr1 Hn51.
  apply wp_bind, wp_gets. cbn zeta. apply wp_bind. unfold wp at 1.
  rewrite ask_votes. cbn [fst snd]. set (n6 := set_effects _ n5).
  assert (elected n n6 /\ role (sm n6) = Candidate) as [H6 Hr6].
  { repeat split; [done|done|cbn; congruence| |done]. intros peer req. cbn.
    rewrite elem_of_app, list_elem_of_fmap.
    intros [Hin|(p & [= -> ->] & Hp)]; [by apply Ha|]. right. by cbn. }
  clearbody n6. apply wp_bind, wp_gets, wp_bind, wp_gets.
  case_match eqn:Hwin; [|by apply wp_ret].
  apply andb_true_iff in Hwin as [Hsz _]. apply N.leb_le in Hsz.
  destruct H6 as (Ht6 & Hv6 & _ & Ha6). rewrite Hv6, size_singleton in Hsz.
  eapply wp_mono; [apply win_election_elect|]. cbn. intros _ n7 Hn7.
  assert (votes_asked n7 = votes_asked n6 /\ votes_received (sm n7) = votes_received (sm n6)
          /\ current_term (sm n7) = current_term (sm n6)) as (Ea & Ev & Et).
  { unfold elect, ballot in Hn7. destruct Hn7; repeat split; congruence. }
  split; [congruence|split; [congruence|split; [by intros; lia|]]].
  intros peer req. rewrite elem_of_votes_asked, Ea, <- elem_of_votes_asked. apply Ha6.
Qed.

(** A vote response: a newer term is observed, a granted vote is counted by a
    candidate, whatever its term, and anything else is ignored. *)
Definition counted (peer : NodeId) (r : RequestVoteResponse) n
    (n' : RaftNodeInner St) : Prop :=
  rvr_vote_granted r = true /\ rvr_term r <= current_term (sm n) /\
  role (sm n) = Candidate /\ ballot n' = ballot n /\
  votes_received (sm n') = {[peer]} ∪ votes_received (sm n) /\
  (role (sm n') = Leader ->
     quorum (config n) <= N.of_nat (size (votes_received (sm n')))) /\
  votes_asked n' = votes_asked n.

Lemma handle_vote_response_elect peer r n :
  wp (handle_vote_response peer r) (fun _ n' =>
    elect n' = observed_elect (rvr_term r) n \/ counted peer r n n') n.
Proof.
  unfold handle_vote_response. apply wp_bind, wp_gets. unfold observed_elect.
  destruct (N.ltb_spec (current_term (sm n)) (rvr_term r)) as [Hlt|Hle].
  { left. apply step_down_elect. }
  apply wp_bind, wp_gets. case_match eqn:Hg; [|by left].
  apply andb_true_iff in Hg as [Hg Hr]. apply bool_decide_eq_true in Hr.
  apply wp_bind, wp_modify. set (n1 := set_sm _ n).
  assert (elect n1 = (ballot n, Candidate, {[peer]} ∪ votes_received (sm n), votes_asked n))
    as Hn1 by (unfold elect, votes_asked, ballot, n1; cbn; congruence).
  assert (config n1 = config n) as Hc by done. clearbody n1.
  apply wp_bind, wp_gets, wp_bind, wp_gets. rewrite Hc.
  assert (ballot n1 = ballot n /\ role (sm n1) = Candidate /\
          votes_received (sm n1) = {[peer]} ∪ votes_received (sm n) /\
          votes_asked n1 = votes_asked n) as (Hb1 & Hr1 & Hv1 & Ha1)
    by (unfold elect in Hn1; repeat split; congruence).
  case_match eqn:Hq; [|apply wp_ret; right; repeat (split; [congruence|]); congruence].
  apply N.leb_le in Hq. eapply wp_mono; [apply win_election_elect|].
  cbn. intros _ n2 Hn2. right. unfold elect in Hn2.
  assert (ballot n2 = ballot n1 /\ votes_received (sm n2) = votes_received (sm n1) /\
          votes_asked n2 = votes_asked n1) as (Eb & Ev & Ea).
  { destruct Hn2; repeat split; unfold ballot in *; congruence. }
  unfold counted. rewrite Eb, Ev, Ea. by repeat split.
Qed.

(** What an input does to the election at a node. *)
Inductive elect_step (i : Input) n (n' : RaftNodeInner St) : Prop :=
| es_follower :
    role (sm n') = Follower -> votes_asked n' = votes_asked n -> elect_step i n n'
| es_same : standing n' = standing n -> elect_step i n n'
| es_elected :
    i = InElectionTimeout -> elected n n' ->
    ballot n' = (current_term (sm n) + 1, Some (cfg_id (config n))) ->
    elect_step i n n'
| es_counted peer r :
    i = InMessage (VoteResponse peer r) -> counted peer r n n' -> elect_step i n n'.

Lemma observed_elect_step i t n n' :
  elect n' = observed_elect t n -> elect_step i n n'.
Proof.
  unfold observed_elect. case_match.
  - intros He. apply es_follower; unfold stepped_down, elect in He; congruence.
  - intros He. by apply es_same, elect_standing.
Qed.

Lemma elect_keeps_step i n (m : M (RaftNodeInner St) unit) :
  keeps elect m -> elect_step i n (m n).2.
Proof. intros Hm. apply es_same, elect_standing, Hm. Qed.

Lemma handle_append_response_elect p li resp n :
  elect (handle_append_response p li resp n).2 = observed_elect (aer_term resp) n.
Proof.
  unfold handle_append_response, get_sm at 1, observed_elect. unfold bind at 1, gets.
  case_match; [apply step_down_elect|].
  match goal with |- elect (?m n).2 = _ => enough (keeps elect m) as Hk by apply Hk end.
  by node_keeps.
Qed.

Lemma handle_snapshot_response_elect p li resp n :
  elect (handle_snapshot_response p li resp n).2 = observed_elect (isr_term resp) n.
Proof.
  unfold handle_snapshot_response, get_sm at 1, observed_elect. unfold bind at 1, gets.
  case_match; [apply step_down_elect|].
  match goal with |- elect (?m n).2 = _ => enough (keeps elect m) as Hk by apply Hk end.
  by node_keeps.
Qed.

Lemma dispatch_elect msg n : elect_step (InMessage msg) n (dispatch msg n).2.
Proof.
  destruct msg; cbn [dispatch]; try (apply elect_keeps_step; by node_keeps).
  - eapply observed_elect_step, handle_append_response_elect.
  - destruct (handle_vote_response_elect peer resp n) as [He|Hc].
    + by eapply observed_elect_step.
    + by eapply es_counted.
  - eapply observed_elect_step, handle_snapshot_response_elect.
Qed.

Lemma handle_elect i n :
  admissible n i -> i <> InRestart -> elect_step i n (handle i n).2.
Proof.
  intros Ha Hi. destruct i as [req|req|req|msg| | |]; cbn [handle];
    rewrite ?after_reply, ?after_no_reply; [..|done].
  - eapply observed_elect_step, on_append_entries_elect.
  - pose proof (on_request_vote_standing req n) as Hs. case_match.
    + unfold standing in Hs. apply es_follower; congruence.
    + by apply es_same.
  - eapply observed_elect_step, on_install_snapshot_elect.
  - apply dispatch_elect.
  - destruct (decide (u64 (current_term (sm n) + 1))) as [Hu|Hu]; unfold u64 in Hu.
    + apply es_elected; [done| |by apply start_election_ballot].
      by apply start_election_elected.
    + destruct Ha as [Ho|?]; [|done]. rewrite restart_election_overflow by done.
      by apply es_same.
  - apply elect_keeps_step. unfold on_heartbeat. by node_keeps.
Qed.
End elect.

(** ** What an election sends *)

Section campaign.
Context {prof : BuildProfile} {St : Type} `{HS : Storage St, !LogStorage St, HD : !DurableStorage St}.
Implicit Types n : RaftNodeInner St.

Definition vote_request n : RequestVoteRequest := {|
  rv_term := current_term (sm n) + 1;
  rv_candidate_id := cfg_id (config n);
  rv_last_log_index := lv_last (log n);
  rv_last_log_term := last_term (log n);
  rv_pre_vote := false |}.

(** The state machine of a node without peers after its election. *)
Definition sole_leader_sm (id : NodeId) (s : RaftStateMachine) : RaftStateMachine :=
  MkSM (current_term s + 1) (Some id) Leader (commit_index s) (last_applied s) (Some id)
    ∅ {[id]}.

Lemma quorum_alone c : (quorum c <=? 1) = bool_decide (cfg_peers c = []).
Proof.
  unfold quorum. destruct (cfg_peers c) as [|p ps]; [done|].
  rewrite bool_decide_false by done. apply N.leb_gt. rewrite nlen_cons.
  replace (nlen ps + 1 + 1) with (nlen ps + 1 * 2) by lia.
  rewrite N.div_add by done. pose proof (N.le_0_l (nlen ps / 2)). lia.
Qed.

Lemma win_election_alone n :
  log_ok n -> cfg_peers (config n) = [] ->
  win_election n = (Done tt,
    set_effects (effects n ++ [MetricInc leader_changes 1])
      (set_sm (MkSM (current_term (sm n)) (voted_for (sm n)) Leader (commit_index (sm n))
                 (last_applied (sm n)) (Some (cfg_id (config n))) ∅
                 (votes_received (sm n))) n)).
Proof.
  intros Hn Hp. unfold win_election. unfold bind at 1, gets at 1.
  unfold bind at 1. rewrite last_index_or_0_run by done. rewrite Hp.
  unfold replicate_all, get_sm, bind, gets. cbn.
  rewrite bool_decide_false by (intros Hr; by apply Hr). cbn. by rewrite Hp.
Qed.

(** The node after starting an election, and what it sent. *)
Definition campaign n (n' : RaftNodeInner St) : Prop :=
  let ps := cfg_peers (config n) in
  persisted n' /\ log_ok n' /\ log n' = log n /\
  sm n' = (if bool_decide (ps = []) then sole_leader_sm (cfg_id (config n)) (sm n)
           else candidate_sm (cfg_id (config n)) (sm n)) /\
  effects n' = effects n ++
    [MetricSet current_term_gauge (u64_as_i64 (current_term (sm n) + 1));
     MetricInc elections_started 1] ++
    map (fun p => SpawnRequestVote p (vote_request n)) ps ++
    (if bool_decide (ps = []) then [MetricInc leader_changes 1] else []) /\
  pending n' = pending n.

Lemma start_election_run n (Hn : log_ok n) (Hu : u64 (current_term (sm n) + 1)) :
  exists n', start_election n = (Done tt, n') /\ campaign n n'.
Proof.
  unfold campaign. set (ps := cfg_peers (config n)). unfold start_election. unfold bind at 1, gets at 1.
  unfold bind at 1. rewrite become_candidate_run by done. set (n1 := set_sm _ n).
  unfold bind at 1. destruct (save_run n1 Hn) as (s' & -> & Hs & Hv & Hd).
  set (n2 := set_effects _ _). assert (log_ok n2) as Hn2 by done.
  assert (log n2 = log n) as Hl2 by done.
  unfold bind at 1. rewrite (last_index_or_0_run n2 Hn2).
  unfold bind at 1. rewrite (last_term_run n2 Hn2).
  unfold bind at 1, emit at 1, modify at 1. set (n3 := set_effects _ n2).
  unfold bind at 1, get_sm at 1, gets at 1. unfold bind at 1. rewrite ask_votes.
  set (n4 := set_effects _ n3). unfold bind at 1, get_sm at 1, gets at 1.
  unfold bind at 1, get_sm at 1, gets at 1.
  replace (votes_received (sm n4)) with ({[cfg_id (config n)]} : gset NodeId) by done.
  rewrite size_singleton. change (N.of_nat 1) with 1. rewrite quorum_alone.
  fold ps. rewrite (bool_decide_true (role (sm n4) = Candidate)), andb_true_r by done.
  assert (effects n4 = effects n ++
    [MetricSet current_term_gauge (u64_as_i64 (current_term (sm n) + 1));
     MetricInc elections_started 1] ++
    map (fun p => SpawnRequestVote p (vote_request n)) ps) as He4.
  { cbn. unfold vote_request. rewrite <- Hl2, <- !app_assoc. done. }
  assert (persisted n4 /\ log_ok n4 /\ log n4 = log n) as (Hp4 & Hn4 & Hl4) by done.
  assert (sm n4 = candidate_sm (cfg_id (config n)) (sm n)) as Hs4 by done.
  assert (config n4 = config n /\ pending n4 = pending n) as [Hc4 Hpe4] by done. clearbody n4.
  case_bool_decide as Hps.
  - rewrite win_election_alone by (done || by rewrite Hc4). eexists. split; [done|].
    split; [exact Hp4|]. split; [done|split; [done|]]. cbn.
    rewrite He4, Hs4, Hc4, Hpe4, <- !app_assoc. done.
  - exists n4. rewrite app_nil_r. done.
Qed.

(** An election at a node with any log: it ends, the node's new term and
    its vote for itself are on storage, and every peer is asked once, in
    order, for a vote at the new term, with the index and the term of the
    node's own last entry. A node with peers is then a candidate with its
    own vote; a node without peers is the leader at once. *)
Theorem start_election_spec n (Hn : log_ok n) (Hu : u64 (current_term (sm n) + 1)) :
  exists n', start_election n = (Done tt, n') /\ campaign n n'.
Proof. by apply start_election_run. Qed.
End campaign.

Section examples.
Local Existing Instance dev_profile.

Lemma start_election_spec_witness :
  log_ok ex_node /\
  exists n', start_election ex_node = (Done tt, n') /\ role (sm n') = Candidate /\
    SpawnRequestVote 2 (MkRequestVoteRequest 4 1 5 2 false) ∈ effects n'.
Proof.
  assert (log_ok (H0 := MemStorage_log) ex_node) as Hn by by_compute.
  split; [exact Hn|].
  destruct (start_election_spec (HD := MemStorage_durable) ex_node Hn ltac:(reflexivity))
    as (n' & Hr & _ & _ & _ & Hs & He & _).
  exists n'. split; [exact Hr|]. rewrite Hs, He. split; [reflexivity|]. vm_compute. right; right; left.
Defined.
End examples.
