(* ===== verification/Cluster.v ===== *)
(** * A cluster of nodes

    Nodes exchanging votes over a network that loses, delays, repeats and
    reorders. A cluster is its nodes and the vote responses on their way; the
    requests on their way are the [SpawnRequestVote] effects in the histories of
    the nodes. A step is one handler of one node. Every other input (any
    AppendEntries, snapshot or response content, client messages, timers,
    restarts) may reach a node at any time. A restart is one step here;
    [Restarts] takes it apart.

    Theorems: at most one leader per term, in every execution in which no
    candidate counts a vote granted in an earlier term; and an execution in
    which one does, with two leaders in one term. *)

From Stdlib Require Import Lia Init.Byte.
From stdpp Require Import base numbers list option gmap sets fin_maps strings.
From S2P Require Import Prelude.
From S2P Require Import Core.
From S2P Require Import Proto.
From S2P Require Import Storage.
From S2P Require Import MemStorage.
From S2P Require Import StateMachine.
From S2P Require Import Node.
From S2P Require Import Handlers.
From S2P Require Import Votes.
From S2P Require Import NodeLog.
From S2P Require Import Election.

(** ** Executions *)

(** The response of [vm_peer] to a request of [vm_to], on its way to
    [vm_to]'s queue. *)
Record VoteMessage : Type := MkVoteMessage {
  vm_to : NodeId;
  vm_peer : NodeId;
  vm_resp : RequestVoteResponse;
}.

Record Cluster (St : Type) : Type := MkCluster {
  nodes : gmap NodeId (RaftNodeInner St);
  votes_sent : list VoteMessage;
}.
Arguments MkCluster {St}.
Arguments nodes {St} _.
Arguments votes_sent {St} _.

(** The inputs that come from outside the exchange of votes. *)
Definition is_local (i : Input) : Prop :=
  match i with
  | InRequestVote _ | InMessage (VoteResponse _ _) => False
  | _ => True
  end.

Section cluster.
Context {prof : BuildProfile} {St : Type} `{Storage St}.
Implicit Types c : Cluster St.

Inductive step (fresh : RaftNodeInner St -> RequestVoteResponse -> Prop) :
    Cluster St -> Cluster St -> Prop :=
| step_local c id n i :
    nodes c !! id = Some n -> is_local i -> admissible n i ->
    step fresh c (MkCluster (<[id := (handle i n).2]> (nodes c)) (votes_sent c))
| step_request c src m peer req n o n' :
    nodes c !! src = Some m -> SpawnRequestVote peer req ∈ effects m ->
    nodes c !! peer = Some n -> handle (InRequestVote req) n = (o, n') ->
    step fresh c (MkCluster (<[peer := n']> (nodes c))
      (match o with
       | Done (ReplyVote (Ok r)) => votes_sent c ++ [MkVoteMessage src peer r]
       | _ => votes_sent c
       end))
| step_response c v n :
    v ∈ votes_sent c -> nodes c !! vm_to v = Some n -> fresh n (vm_resp v) ->
    step fresh c (MkCluster
      (<[vm_to v := (handle (InMessage (VoteResponse (vm_peer v) (vm_resp v))) n).2]>
         (nodes c))
      (votes_sent c)).

Inductive steps fresh : Cluster St -> Cluster St -> Prop :=
| steps_refl c : steps fresh c c
| steps_step c1 c2 c3 : step fresh c1 c2 -> steps fresh c2 c3 -> steps fresh c1 c3.

Lemma steps_trans fresh c1 c2 c3 : steps fresh c1 c2 -> steps fresh c2 c3 -> steps fresh c1 c3.
Proof. induction 1; [done|]. intros Hs. eapply steps_step; eauto. Qed.

(** No candidate gets a vote granted in an earlier term. *)
Definition not_stale (n : RaftNodeInner St) (r : RequestVoteResponse) : Prop :=
  role (sm n) = Candidate -> rvr_vote_granted r = true ->
  current_term (sm n) <= rvr_term r.

(** The code itself puts no condition on a response. *)
Definition any_response (n : RaftNodeInner St) (r : RequestVoteResponse) : Prop := True.

Context `{!DurableStorage St}.

(** Nodes that have just started, over any storage: the members are [V], and
    the memory is what is on storage. *)
Definition started (V : gset NodeId) (id : NodeId) (n : RaftNodeInner St) : Prop :=
  cfg_id (config n) = id /\ id <> 0 /\ members (config n) = V /\ wf_config (config n) /\
  role (sm n) = Follower /\ persisted n /\ voted_for (sm n) <> Some 0 /\ effects n = [].

Definition initial (V : gset NodeId) (c : Cluster St) : Prop :=
  votes_sent c = [] /\ forall id n, nodes c !! id = Some n -> started V id n.
End cluster.

(** ** The invariant

    The ghost [B] records the votes ever cast: [B !! (v, t) = Some c] when
    node [v] voted for [c] in term [t]. *)

Section safety.
Context {prof : BuildProfile} {St : Type} `{Storage St, !DurableStorage St}.
Context (V : gset NodeId).
Implicit Types (c : Cluster St) (n : RaftNodeInner St).

Local Abbreviation ballots := (gmap (NodeId * Term) NodeId).
Implicit Types B : ballots.

(** What holds of a node by itself. *)
Record node_inv (id : NodeId) n : Prop := {
  ni_id : cfg_id (config n) = id;
  ni_id0 : id <> 0;
  ni_members : members (config n) = V;
  ni_wf : wf_config (config n);
  ni_persisted : persisted n;
  ni_vote0 : voted_for (sm n) <> Some 0;
  ni_quorum : role (sm n) = Leader ->
    quorum (config n) <= N.of_nat (size (votes_received (sm n)));
  ni_asked peer req : SpawnRequestVote peer req ∈ effects n ->
    rv_candidate_id req = id /\ peer ∈ V;
}.

(** The votes it cast are in [B], and [B] has none it forgot. *)
Record votes_recorded B (id : NodeId) n : Prop := {
  vr_vote v : voted_for (sm n) = Some v -> B !! (id, current_term (sm n)) = Some v;
  vr_past t v : B !! (id, t) = Some v ->
    t < current_term (sm n) \/ ballot n = (t, Some v);
}.

(** The votes it counts are in [B]. *)
Definition votes_backed B (id : NodeId) n : Prop :=
  role (sm n) <> Follower ->
  forall v, v ∈ votes_received (sm n) -> v ∈ V /\ B !! (v, current_term (sm n)) = Some id.

Definition response_backed B (v : VoteMessage) : Prop :=
  vm_peer v ∈ V /\
  (rvr_vote_granted (vm_resp v) = true ->
   B !! (vm_peer v, rvr_term (vm_resp v)) = Some (vm_to v)).

Record cluster_inv c B : Prop := {
  ci_node id n : nodes c !! id = Some n -> node_inv id n;
  ci_recorded id n : nodes c !! id = Some n -> votes_recorded B id n;
  ci_backed id n : nodes c !! id = Some n -> votes_backed B id n;
  ci_known id t v : B !! (id, t) = Some v -> is_Some (nodes c !! id);
  ci_responses : Forall (response_backed B) (votes_sent c);
}.

(** [B] after a step of node [id]. *)
Definition record_vote (id : NodeId) n B : ballots :=
  match voted_for (sm n) with
  | Some v => <[(id, current_term (sm n)) := v]> B
  | None => B
  end.

Lemma record_vote_lookup B id n k :
  record_vote id n B !! k =
    if decide (k = (id, current_term (sm n)))
    then match voted_for (sm n) with Some v => Some v | None => B !! k end
    else B !! k.
Proof.
  unfold record_vote. case_decide as Hk.
  - subst. case_match; [by rewrite lookup_insert_eq|done].
  - case_match; [by rewrite lookup_insert_ne|done].
Qed.

Lemma record_vote_grows B id n n' :
  votes_recorded B id n -> ballot_le (ballot n) (ballot n') -> B ⊆ record_vote id n' B.
Proof.
  intros [_ Hp] Hle. apply map_subseteq_spec. intros k w Hk.
  rewrite record_vote_lookup. case_decide as Hd; [|done]. subst k.
  case_match eqn:Hv; [|done]. unfold ballot_le, ballot in *. cbn in Hle.
  destruct (Hp _ _ Hk) as [?|[= Ht Hw]]; destruct Hle as [?|[? [?|?]]]; (lia || congruence).
Qed.

Lemma votes_recorded_step B id n n' :
  votes_recorded B id n -> ballot_le (ballot n) (ballot n') ->
  votes_recorded (record_vote id n' B) id n'.
Proof.
  intros [_ Hp] Hle. split.
  - intros v Hv. rewrite record_vote_lookup, decide_True, Hv by done. done.
  - intros t v. rewrite record_vote_lookup. unfold ballot, ballot_le in *. cbn in Hle.
    assert (B !! (id, t) = Some v ->
            t < current_term (sm n') \/ (current_term (sm n'), voted_for (sm n')) = (t, Some v))
      as Hold.
    { intros Hb. destruct (Hp _ _ Hb) as [?|[= Ht Hv]];
        destruct Hle as [?|[? [?|?]]]; try (left; lia); [congruence|right; congruence]. }
    case_decide as Hd; [|done]. case_match eqn:Hv; [|done].
    intros [= ->]. right. congruence.
Qed.

Lemma votes_recorded_other B id id' n n' :
  id' <> id -> votes_recorded B id n -> votes_recorded (record_vote id' n' B) id n.
Proof.
  intros Hne [Hv Hp].
  split; intros *; rewrite record_vote_lookup, decide_False by congruence; auto.
Qed.

Lemma votes_backed_grows B B' id n : B ⊆ B' -> votes_backed B id n -> votes_backed B' id n.
Proof.
  intros HB Hb Hr v Hv. destruct (Hb Hr v Hv) as [? ?]. split; [done|].
  by eapply lookup_weaken.
Qed.

Lemma response_backed_grows B B' v : B ⊆ B' -> response_backed B v -> response_backed B' v.
Proof.
  intros HB [? Hb]. split; [done|]. intros Hg. eapply lookup_weaken; eauto.
Qed.

(** What the handler of [i] must find recorded when it counts a vote. *)
Definition may_count B (id : NodeId) n (i : Input) : Prop :=
  forall peer r, i = InMessage (VoteResponse peer r) ->
    counted peer r n (handle i n).2 ->
    peer ∈ V /\ B !! (peer, current_term (sm n)) = Some id.

Lemma restart_elect n :
  role (sm (handle InRestart n).2) = Follower /\
  effects (handle InRestart n).2 = effects n.
Proof. cbn [handle]. by rewrite after_no_reply, restart_run. Qed.

Lemma node_inv_asked id n n' :
  node_inv id n -> config n' = config n -> persisted n' -> voted_for (sm n') <> Some 0 ->
  (role (sm n') = Leader ->
     quorum (config n) <= N.of_nat (size (votes_received (sm n')))) ->
  asked_by n n' (current_term (sm n')) -> node_inv id n'.
Proof.
  intros Hn Hc Hp Hv Hq Ha. split; rewrite ?Hc; try apply Hn; try done.
  intros peer req Hin. destruct (Ha peer req Hin) as [Hold|(Hpeer & Hid & _)].
  - by eapply ni_asked.
  - rewrite (ni_id id n Hn) in Hid. split; [done|].
    rewrite <- (ni_members id n Hn). unfold members.
    apply elem_of_union. right. by apply elem_of_list_to_set.
Qed.

Lemma asked_same n n' t : votes_asked n' = votes_asked n -> asked_by n n' t.
Proof.
  intros He peer req. rewrite elem_of_votes_asked, He, <- elem_of_votes_asked. by left.
Qed.

(** A step of one node keeps its own invariant, and the votes it counts are
    recorded. *)
Lemma node_step B id n i :
  node_inv id n -> votes_recorded B id n -> votes_backed B id n -> admissible n i ->
  may_count B id n i ->
  let n' := (handle i n).2 in
  ballot_le (ballot n) (ballot n') /\ node_inv id n' /\
  votes_backed (record_vote id n' B) id n'.
Proof.
  intros Hn Hrec Hback Ha Hcount n'.
  pose proof (handle_ballot i n Ha (ni_persisted id n Hn) (ni_vote0 id n Hn)) as Hb.
  fold n' in Hb. pose proof (ballot_after_le n i _ Hb) as Hle.
  pose proof (record_vote_grows B id n n' Hrec Hle) as HB.
  assert (cfg_id (config n) <> 0) as Hid0 by (rewrite (ni_id id n Hn); apply Hn).
  pose proof (ballot_after_not_0 n i _ Ha Hid0 (ni_vote0 id n Hn) Hb) as Hv0.
  assert (persisted n') as Hp' by (apply handle_preserves, Hn).
  assert (config n' = config n) as Hc' by apply handle_keeps_config.
  split; [done|]. clear Hb. assert (i = InRestart \/ i <> InRestart) as [->|Hi] by (destruct i; auto).
  { destruct (restart_elect n) as [Hr He]. fold n' in Hr, He.
    split; [|intros Hf; congruence].
    apply (node_inv_asked id n); try done; [congruence|].
    apply asked_same. unfold votes_asked. by rewrite He. }
  pose proof (handle_elect i n Ha Hi) as He. fold n' in He.
  destruct He as [Hf Hs|Hs|_ (Ht & Hv & Hq & Hs) Hbal|peer r Hr Hcnt].
  - split; [|done]. apply (node_inv_asked id n); try done; [congruence|by apply asked_same].
  - unfold standing in Hs. injection Hs as Ht Hr Hv Hs. split.
    + apply (node_inv_asked id n); try done; [|by apply asked_same].
      rewrite Hr, Hv. apply Hn.
    + eapply votes_backed_grows; [exact HB|]. unfold votes_backed. rewrite Ht, Hr, Hv.
      exact Hback.
  - split.
    + apply (node_inv_asked id n); try done; [|by rewrite Ht].
      rewrite Hv, size_singleton. exact Hq.
    + intros _ v. rewrite Hv, elem_of_singleton, (ni_id id n Hn). intros ->. split.
      * rewrite <- (ni_members id n Hn), <- (ni_id id n Hn). unfold members.
        clear. set_solver.
      * rewrite record_vote_lookup, decide_True by done.
        unfold ballot in Hbal. injection Hbal as _ ->. by rewrite (ni_id id n Hn).
  - pose proof (Hcount peer r Hr Hcnt) as [HpV HpB].
    destruct Hcnt as (_ & _ & Hcand & Hbal & Hv & Hq & Hs). split.
    + apply (node_inv_asked id n); try done. by apply asked_same.
    + intros _ v. unfold ballot in Hbal. injection Hbal as Ht _. rewrite Hv, Ht.
      rewrite elem_of_union, elem_of_singleton. intros [->|Hin].
      * split; [done|]. by eapply lookup_weaken.
      * destruct (Hback ltac:(congruence) v Hin). split; [done|]. by eapply lookup_weaken.
Qed.

Lemma cluster_step c B id n i :
  cluster_inv c B -> nodes c !! id = Some n -> admissible n i -> may_count B id n i ->
  let n' := (handle i n).2 in
  B ⊆ record_vote id n' B /\
  cluster_inv (MkCluster (<[id := n']> (nodes c)) (votes_sent c)) (record_vote id n' B).
Proof.
  intros Hc Hid Ha Hcount n'.
  pose proof (ci_recorded c B Hc id n Hid) as Hrec.
  destruct (node_step B id n i (ci_node c B Hc id n Hid) Hrec
              (ci_backed c B Hc id n Hid) Ha Hcount) as (Hle & Hn & Hback).
  fold n' in Hle, Hn, Hback.
  pose proof (record_vote_grows B id n n' Hrec Hle) as HB. split; [done|]. split; cbn.
  - intros id' m [[<- <-]|[Hne Hm]]%lookup_insert_Some; [done|by eapply ci_node].
  - intros id' m [[<- <-]|[Hne Hm]]%lookup_insert_Some.
    + by apply (votes_recorded_step B id n n').
    + apply votes_recorded_other; [done|by eapply ci_recorded].
  - intros id' m [[<- <-]|[Hne Hm]]%lookup_insert_Some; [done|].
    eapply votes_backed_grows; [done|by eapply ci_backed].
  - intros id' t v. rewrite record_vote_lookup. rewrite lookup_insert_is_Some.
    case_decide as Hd; [left; congruence|]. intros Hv.
    destruct (decide (id = id')); [by left|right]. split; [done|by eapply ci_known].
  - eapply Forall_impl; [apply (ci_responses c B Hc)|]. intros v.
    by apply response_backed_grows.
Qed.

Lemma cluster_inv_add c B v :
  cluster_inv c B -> response_backed B v ->
  cluster_inv (MkCluster (nodes c) (votes_sent c ++ [v])) B.
Proof.
  intros Hc Hv. split; try apply Hc. cbn. apply Forall_app.
  split; [apply Hc|by constructor].
Qed.

Lemma step_inv c c' B :
  step not_stale c c' -> cluster_inv c B -> exists B', B ⊆ B' /\ cluster_inv c' B'.
Proof.
  intros Hs Hc. destruct Hs as [c id n i Hid Hl Ha|c src m peer req n o n' Hsrc Hreq Hpeer Hh|
                                c v n Hv Hto Hfresh].
  - eexists. eapply (cluster_step c B id n i); try done.
    intros peer r ->. by cbn in Hl.
  - destruct (ni_asked src m (ci_node c B Hc src m Hsrc) peer req Hreq) as [Hcid HpV].
    assert (admissible n (InRequestVote req)) as Ha.
    { cbn. rewrite Hcid. apply (ni_id0 src m), (ci_node c B Hc src m Hsrc). }
    destruct (cluster_step c B peer n (InRequestVote req) Hc Hpeer Ha) as [HB Hc'];
      [by intros ? ? [=]|].
    rewrite Hh in HB, Hc'. cbn [snd] in *. exists (record_vote peer n' B).
    split; [done|]. destruct o as [[|[r|]| |]|]; try done.
    apply (cluster_inv_add _ _ (MkVoteMessage src peer r) Hc').
    split; cbn; [done|]. intros Hg.
    assert (ballot (handle (InRequestVote req) n).2 = (rvr_term r, Some src)) as Hb.
    { rewrite <- Hcid. apply cast_ballot; [done|]. rewrite Hh. cbn. rewrite Hg. by left. }
    rewrite Hh in Hb. unfold ballot in Hb. cbn in Hb. injection Hb as Ht Hvf.
    by rewrite record_vote_lookup, decide_True, Hvf by congruence.
  - destruct v as [src peer r]; cbn in *.
    pose proof (proj1 (Forall_forall _ _) (ci_responses c B Hc) _ Hv) as [HpV Hback].
    eexists. eapply (cluster_step c B src n (InMessage (VoteResponse peer r)) Hc Hto I).
    intros peer' r' [= <- <-] (Hg & Hle & Hcand & _). cbn in *. split; [done|].
    rewrite <- (Hback Hg). do 2 f_equal. pose proof (Hfresh Hcand Hg). lia.
Qed.

Lemma steps_inv c c' :
  steps not_stale c c' -> (exists B, cluster_inv c B) -> exists B, cluster_inv c' B.
Proof.
  induction 1 as [|c1 c2 c3 Hs _ IH]; [done|]. intros [B HB].
  destruct (step_inv c1 c2 B Hs HB) as (B' & _ & HB'). eauto.
Qed.

(** At the start, the votes cast are those on storage. *)
Lemma ballots_of (m : gmap NodeId (RaftNodeInner St)) :
  exists B, forall id t v, B !! (id, t) = Some v <->
    exists n, m !! id = Some n /\ ballot n = (t, Some v).
Proof.
  induction m as [|id n m Hid [B HB]] using map_ind.
  { exists ∅. intros id t v. rewrite lookup_empty. split; [done|].
    intros (n & Hn & _). by rewrite lookup_empty in Hn. }
  exists (record_vote id n B). intros id' t v. rewrite record_vote_lookup.
  assert (forall t' v', B !! (id, t') <> Some v') as Hnew.
  { intros t' v' (n' & Hn' & _)%HB. congruence. }
  unfold ballot in *. case_decide as Hd.
  - injection Hd as -> ->. rewrite lookup_insert_eq.
    destruct (voted_for (sm n)) as [w|] eqn:Hv.
    + split; [intros [= ->]; exists n; split; congruence|].
      intros (n' & [= <-] & [=]). congruence.
    + split; [by intros ?%Hnew|]. intros (n' & [= <-] & [=]). congruence.
  - rewrite HB. split; intros (n' & Hn' & Hb); exists n'.
    + rewrite lookup_insert_ne by congruence. done.
    + apply lookup_insert_Some in Hn' as [[-> ->]|[? ?]]; [|done].
      destruct Hd. congruence.
Qed.

Lemma initial_inv c : initial V c -> exists B, cluster_inv c B.
Proof.
  intros [Hvotes Hnodes]. destruct (ballots_of (nodes c)) as [B HB]. exists B.
  assert (forall id n, nodes c !! id = Some n -> started V id n) as Hst by done.
  split; [| | | |by rewrite Hvotes].
  - intros id n Hn. destruct (Hst id n Hn) as (? & ? & ? & ? & Hr & ? & ? & He).
    split; try done; [congruence|]. rewrite He. intros * Hin. by apply not_elem_of_nil in Hin.
  - intros id n Hn. split.
    + intros v Hv. apply HB. exists n. unfold ballot. rewrite Hv. done.
    + intros t v (n' & Hn' & Hb)%HB. right. congruence.
  - intros id n Hn Hf. destruct (Hst id n Hn) as (_ & _ & _ & _ & Hr & _). congruence.
  - intros id t v (n & Hn & _)%HB. by exists n.
Qed.

(** A candidate has a term when a majority has ever voted for it there. *)
Definition won B (t : Term) (id : NodeId) : Prop :=
  exists Q : gset NodeId, N.of_nat (size V) < 2 * N.of_nat (size Q) /\
    forall v, v ∈ Q -> v ∈ V /\ B !! (v, t) = Some id.

Lemma won_grows B B' t id : B ⊆ B' -> won B t id -> won B' t id.
Proof.
  intros HB (Q & Hq & HQ). exists Q. split; [done|]. intros v Hv.
  destruct (HQ v Hv). split; [done|]. by eapply lookup_weaken.
Qed.

Lemma won_unique B t a b : won B t a -> won B t b -> a = b.
Proof.
  intros (Qa & Ha & HQa) (Qb & Hb & HQb).
  destruct (majorities_meet Qa Qb V (N.min (N.of_nat (size Qa)) (N.of_nat (size Qb))))
    as (v & Hva & Hvb); [intros v Hv; by apply HQa|intros v Hv; by apply HQb|lia..|].
  destruct (HQa v Hva) as [_ Ea], (HQb v Hvb) as [_ Eb]. congruence.
Qed.

Lemma leader_won c B id n :
  cluster_inv c B -> nodes c !! id = Some n -> role (sm n) = Leader ->
  won B (current_term (sm n)) id.
Proof.
  intros Hc Hn Hr. pose proof (ci_node c B Hc id n Hn) as Hi. exists (votes_received (sm n)).
  split; [|apply (ci_backed c B Hc id n Hn); congruence].
  pose proof (ni_quorum id n Hi Hr). pose proof (quorum_majority _ (ni_wf id n Hi)) as Hm.
  rewrite (ni_members id n Hi) in Hm. lia.
Qed.

(** Two leaders of one term share a voter. *)
Lemma leaders_agree c B a b na nb :
  cluster_inv c B -> nodes c !! a = Some na -> nodes c !! b = Some nb ->
  role (sm na) = Leader -> role (sm nb) = Leader ->
  current_term (sm na) = current_term (sm nb) -> a = b.
Proof.
  intros Hc Ha Hb Hra Hrb Ht. apply (won_unique B (current_term (sm na))).
  - by apply (leader_won c).
  - rewrite Ht. by apply (leader_won c).
Qed.
End safety.

Section election.
Context {prof : BuildProfile} {St : Type} `{Storage St, HD : !DurableStorage St}.

(** At most one leader per term, in executions whose restarts are one step;
    [Restarts] has those whose restarts are not. *)
Lemma one_leader_per_term V c0 c a b na nb :
  initial V c0 -> steps not_stale c0 c ->
  nodes c !! a = Some na -> nodes c !! b = Some nb ->
  role (sm na) = Leader -> role (sm nb) = Leader ->
  current_term (sm na) = current_term (sm nb) -> a = b.
Proof.
  intros Hinit Hsteps. destruct (steps_inv V c0 c Hsteps (initial_inv V c0 Hinit)) as [B HB].
  by eapply (leaders_agree V c B).
Qed.
End election.

(** ** Executing a schedule *)

(** One step of a schedule: a request is named by its place in the history of
    its sender, a response by its place among the responses sent. *)
Inductive Event : Type :=
| EvLocal (id : NodeId) (i : Input)
| EvRequest (src : NodeId) (k : nat)
| EvResponse (k : nat).

Definition is_local_b (i : Input) : bool :=
  match i with
  | InRequestVote _ | InMessage (VoteResponse _ _) => false
  | _ => true
  end.

Section exec.
Context {prof : BuildProfile} {St : Type} `{Storage St}.
Context (fresh : RaftNodeInner St -> RequestVoteResponse -> Prop)
  `{forall n r, Decision (fresh n r)}.
Implicit Types c : Cluster St.

Definition admissible_b (n : RaftNodeInner St) (i : Input) : bool :=
  match i with
  | InElectionTimeout => overflow_checks || (current_term (sm n) + 1 <? u64_modulus)
  | _ => true
  end.

Definition exec1 (e : Event) c : option (Cluster St) :=
  match e with
  | EvLocal id i =>
      n ← nodes c !! id;
      if is_local_b i && admissible_b n i
      then Some (MkCluster (<[id := (handle i n).2]> (nodes c)) (votes_sent c))
      else None
  | EvRequest src k =>
      m ← nodes c !! src;
      match effects m !! k with
      | Some (SpawnRequestVote peer req) =>
          n ← nodes c !! peer;
          let '(o, n') := handle (InRequestVote req) n in
          Some (MkCluster (<[peer := n']> (nodes c))
            (match o with
             | Done (ReplyVote (Ok r)) => votes_sent c ++ [MkVoteMessage src peer r]
             | _ => votes_sent c
             end))
      | _ => None
      end
  | EvResponse k =>
      v ← votes_sent c !! k;
      n ← nodes c !! vm_to v;
      if decide (fresh n (vm_resp v)) then
        Some (MkCluster
          (<[vm_to v := (handle (InMessage (VoteResponse (vm_peer v) (vm_resp v))) n).2]>
             (nodes c))
          (votes_sent c))
      else None
  end.

Fixpoint exec (es : list Event) c : option (Cluster St) :=
  match es with
  | [] => Some c
  | e :: es' => c' ← exec1 e c; exec es' c'
  end.

Lemma exec1_step e c c' : exec1 e c = Some c' -> step fresh c c'.
Proof.
  destruct e as [id i|src k|k]; cbn -[handle].
  - intros (n & Hn & He)%bind_Some. case_match eqn:Hb; [|done].
    apply andb_true_iff in Hb as [Hl Ha]. injection He as <-.
    apply step_local; [done|by destruct i as [| | |[]| | |]|].
    destruct i; cbn in *; try done.
    apply orb_true_iff in Ha as [Ha|Ha]; [by left|right]. by apply N.ltb_lt.
  - intros (m & Hm & He)%bind_Some.
    destruct (effects m !! k) as [[peer req| | | | | | | | |]|] eqn:Hk; try done.
    apply bind_Some in He as (n & Hn & He).
    destruct (handle (InRequestVote req) n) as [o n'] eqn:Hh. injection He as <-.
    eapply step_request; try done. by eapply list_elem_of_lookup_2.
  - intros (v & Hv & He)%bind_Some. apply bind_Some in He as (n & Hn & He).
    case_decide; [|done]. injection He as <-. apply step_response; try done.
    by eapply list_elem_of_lookup_2.
Qed.

Lemma exec_steps es c c' : exec es c = Some c' -> steps fresh c c'.
Proof.
  revert c. induction es as [|e es IH]; intros c; cbn.
  - intros [= ->]. constructor.
  - intros (c1 & Hc1 & He)%bind_Some. eapply steps_step; [by eapply exec1_step|by apply IH].
Qed.
End exec.

(** ** Concrete executions: three nodes over fresh in-memory stores *)

Definition ex_start (id : NodeId) (peers : list NodeId) : RaftNodeInner MemStorageInner :=
  node_new (MkRaftConfig id peers 100 300 600 128 10000 1024) MemStorage_new.

Definition ex_cluster : Cluster MemStorageInner :=
  MkCluster (<[1 := ex_start 1 [2; 3]]> (<[2 := ex_start 2 [1; 3]]>
    (<[3 := ex_start 3 [1; 2]]> ∅))) [].

#[export] Instance not_stale_dec {St} (n : RaftNodeInner St) r : Decision (not_stale n r).
Proof. unfold not_stale. apply _. Defined.
#[export] Instance any_response_dec {St} (n : RaftNodeInner St) r : Decision (any_response n r).
Proof. unfold any_response. apply _. Defined.

Section examples.
Local Existing Instance dev_profile.

Lemma ex_cluster_initial : initial {[1; 2; 3]} ex_cluster.
Proof.
  split; [done|]. intros id n Hn. cbn in Hn.
  repeat apply lookup_insert_Some in Hn as [[<- <-]|[_ Hn]];
    [| | |by rewrite lookup_empty in Hn].
  all: repeat split; try done; by_compute.
Qed.

(** Node 1 asks for votes at term 1, and node 2 grants its own; before the
    answer arrives, node 1 times out again and node 3 twice; node 2 votes for
    node 3 at term 2, which makes it the leader; then the answer of term 1
    arrives. *)
Definition ex_stale_vote : list Event :=
  [EvLocal 1 InElectionTimeout; EvRequest 1 2; EvLocal 1 InElectionTimeout;
   EvLocal 3 InElectionTimeout; EvLocal 3 InElectionTimeout; EvRequest 3 7;
   EvResponse 1; EvResponse 0].

(** C9. Votes of an older term are counted: [handle_vote_response] does not
    compare the term of a granted vote with the candidate's. Three nodes with
    empty logs can therefore reach, by timeouts and the delivery of the
    messages they really sent, a state in which nodes 1 and 3 are both leaders
    of term 2. *)
Theorem stale_vote_two_leaders :
  initial {[1; 2; 3]} ex_cluster /\
  exists c n1 n3, steps any_response ex_cluster c /\
    nodes c !! 1 = Some n1 /\ nodes c !! 3 = Some n3 /\
    role (sm n1) = Leader /\ role (sm n3) = Leader /\
    current_term (sm n1) = 2 /\ current_term (sm n3) = 2.
Proof.
  split; [apply ex_cluster_initial|].
  assert (exists c, exec any_response ex_stale_vote ex_cluster = Some c /\
            exists n1 n3, nodes c !! 1 = Some n1 /\ nodes c !! 3 = Some n3 /\
              role (sm n1) = Leader /\ role (sm n3) = Leader /\
              current_term (sm n1) = 2 /\ current_term (sm n3) = 2)
    as (c & Hc & n1 & n3 & H).
  { eexists. split; [vm_compute; reflexivity|]. do 2 eexists.
    split; [vm_compute; reflexivity|]. split; [vm_compute; reflexivity|].
    repeat split; reflexivity. }
  exists c, n1, n3. split; [by eapply exec_steps|done].
Qed.
End examples.
