(* ===== verification/RequestVote.v ===== *)
(** * Voting: what [on_request_vote] answers

    The whole behaviour of [RaftNodeInner::on_request_vote] over a backend that
    keeps the laws of [Storage], on every branch: the answer, the node it leaves and the
    order of its effects. *)

From Stdlib Require Import Lia Init.Byte.
From stdpp Require Import base numbers list option gmap sets fin_maps strings.
From S2P Require Import Prelude.
From S2P Require Import Core.
From S2P Require Import Proto.
From S2P Require Import Storage.
From S2P Require Import MemStorage.
From S2P Require Import StateMachine.
From S2P Require Import Node.
From S2P Require Import Handlers.
From S2P Require Import Votes.
From S2P Require Import NodeLog.

(** A log ending with [(term, index)] is at least as up to date as [v]. *)
Definition up_to_date (v : LogView) (term : Term) (index : LogIndex) : bool :=
  (last_term v <? term) || ((term =? last_term v) && (lv_last v <=? index)).

(** The state machine once a term [t] has been observed without a leader. *)
Definition observed_sm (t : Term) (l : option NodeId) (s : RaftStateMachine) : RaftStateMachine :=
  if current_term s <? t
  then MkSM t None Follower (commit_index s) (last_applied s) l ∅ ∅
  else s.

Lemma observed_sm_term t l s : current_term (observed_sm t l s) = N.max (current_term s) t.
Proof. unfold observed_sm. destruct (N.ltb_spec (current_term s) t); cbn; lia. Qed.

Lemma observed_sm_commit t l s : commit_index (observed_sm t l s) = commit_index s.
Proof. unfold observed_sm. by case_match. Qed.

Lemma observed_sm_applied t l s : last_applied (observed_sm t l s) = last_applied s.
Proof. unfold observed_sm. by case_match. Qed.

Section vote.
Context {prof : BuildProfile} {St : Type}
  `{HS : Storage St, !LogStorage St, HD : !DurableStorage St}.
Implicit Types n : RaftNodeInner St.

(** The conditions of the code, on the state before the request: the request
    is not of an older term, the node has no other vote in the request's term,
    and the candidate's log is at least as up to date as its own. *)
Definition grants n (req : RequestVoteRequest) : bool :=
  (current_term (sm n) <=? rv_term req) &&
  match voted_for (observed_sm (rv_term req) None (sm n)) with
  | Some v => v =? rv_candidate_id req
  | None => true
  end &&
  up_to_date (log n) (rv_last_log_term req) (rv_last_log_index req).

(** What the look at the term does: nothing, or a step down that is saved. *)
Lemma observe_run t l n :
  log_ok n -> persisted n \/ current_term (sm n) < t -> exists n1,
    when (current_term (sm n) <? t) (step_down t l) n = (Done tt, n1) /\
    sm n1 = observed_sm t l (sm n) /\ log_ok n1 /\ log n1 = log n /\ persisted n1 /\
    config n1 = config n /\ pending n1 = pending n /\ snapshot_buf n1 = snapshot_buf n /\
    effects n1 = effects n ++
      (if current_term (sm n) <? t then [MetricSet current_term_gauge (u64_as_i64 t)] else []).
Proof.
  intros Hn Hp. unfold observed_sm. case_match eqn:Hlt; cbn [when].
  - destruct (step_down_run t l n Hn) as (s' & -> & Hs & Hv & Hd).
    eexists. split; [done|]. by repeat split.
  - apply N.ltb_ge in Hlt. destruct Hp as [Hp|]; [|lia]. exists n. rewrite app_nil_r. by repeat split.
Qed.

(** The node after it has answered: a granted vote is recorded, a refused one
    leaves what the observed term alone leaves. *)
Definition voted n (req : RequestVoteRequest) (n' : RaftNodeInner St) : Prop :=
  sm n' = (if grants n req
           then set_voted_for (Some (rv_candidate_id req))
                  (observed_sm (rv_term req) None (sm n))
           else observed_sm (rv_term req) None (sm n)) /\
  persisted n' /\ log_ok n' /\ log n' = log n /\
  config n' = config n /\ pending n' = pending n /\ snapshot_buf n' = snapshot_buf n.

Lemma on_request_vote_run n req (Hn : log_ok n)
    (Hp : persisted n \/ current_term (sm n) < rv_term req) :
  exists n', on_request_vote req n =
      (Done (Ok {| rvr_term := N.max (current_term (sm n)) (rv_term req);
                   rvr_vote_granted := grants n req |}), n') /\ voted n req n'.
Proof.
  unfold voted, on_request_vote. unfold bind at 1, get_sm at 1, gets at 1. unfold bind at 1.
  destruct (observe_run (rv_term req) None n Hn Hp)
    as (n1 & -> & Hs1 & Hn1 & Hl1 & Hp1 & Hc1 & Hpe1 & Hb1 & _).
  assert (current_term (sm n1) = N.max (current_term (sm n)) (rv_term req)) as Ht1
    by (rewrite Hs1; apply observed_sm_term).
  unfold bind at 1, get_sm at 1, gets at 1. rewrite <- Hs1. unfold grants. rewrite <- Hs1.
  rewrite <- Ht1.
  assert ((rv_term req <? current_term (sm n1)) = negb (current_term (sm n) <=? rv_term req))
    as ->.
  { rewrite Ht1, <- N.ltb_antisym.
    destruct (N.ltb_spec (rv_term req) (current_term (sm n)));
      [apply N.ltb_lt|apply N.ltb_ge]; lia. }
  destruct (current_term (sm n) <=? rv_term req); cbn [negb andb];
    [|exists n1; by repeat split].
  unfold bind at 1, get_sm at 1, gets at 1.
  assert ((match voted_for (sm n1) with
           | Some v => negb (v =? rv_candidate_id req) | None => false end) =
          negb (match voted_for (sm n1) with
                | Some v => v =? rv_candidate_id req | None => true end)) as ->
    by by destruct (voted_for (sm n1)).
  destruct (match voted_for (sm n1) with Some v => _ | None => true end); cbn [negb andb];
    [|exists n1; by repeat split].
  unfold bind at 1. rewrite last_index_or_0_run by done.
  unfold bind at 1. rewrite last_term_run by done.
  rewrite Hl1. fold (up_to_date (log n) (rv_last_log_term req) (rv_last_log_index req)).
  destruct (up_to_date _ _ _); cbn [negb]; [|exists n1; by repeat split].
  unfold bind at 1, upd_sm at 1, modify at 1. set (n2 := set_sm _ n1).
  unfold bind at 1. destruct (save_run n2 Hn1) as (s' & -> & Hs & Hv & Hd).
  eexists. split; [done|]. split; [done|]. split; [exact Hd|]. split; [exact Hs|].
  split; [|by repeat split]. transitivity (log n1); [exact Hv|exact Hl1].
Qed.
(** C18. The vote: over any log, [on_request_vote] ends with an answer at the
    greater of the two terms, and grants exactly when the request is not of an
    older term, the node has not voted for somebody else in the request's
    term, and the candidate's last entry is at least as up to date as its own
    (greater term, or same term and an index at least as large). A granted
    vote is recorded and on storage before the answer; a refused one leaves
    the node as the observed term alone would; the log does not change. *)
Theorem on_request_vote_spec n req (Hn : log_ok n) (Hp : persisted n) :
  exists n', on_request_vote req n =
      (Done (Ok {| rvr_term := N.max (current_term (sm n)) (rv_term req);
                   rvr_vote_granted := grants n req |}), n') /\ voted n req n'.
Proof. apply on_request_vote_run; auto. Qed.
End vote.

Section examples.
Local Existing Instance dev_profile.

Lemma on_request_vote_spec_witness :
  exists n', on_request_vote (ex_vote 4 2) ex_node =
      (Done (Ok (MkRequestVoteResponse 4 true)), n') /\ voted_for (sm n') = Some 2.
Proof.
  assert (log_ok (H0 := MemStorage_log) ex_node) as Hn by by_compute.
  destruct (on_request_vote_spec (HD := MemStorage_durable) ex_node (ex_vote 4 2) Hn
              ltac:(reflexivity)) as (n' & Hr & Hs & _).
  exists n'. split; [exact Hr|]. rewrite Hs. reflexivity.
Defined.
End examples.
