(* ===== verification/AppendEntries.v ===== *)
(** * Following a leader: what [on_append_entries] does to a log

    The whole behaviour of [RaftNodeInner::on_append_entries], for any request,
    over a backend that keeps [LogStorage] and [DurableStorage]: the binary
    search [first_index_of_term], the consistency check with its rejections and
    its way past the compaction point, the append with its error, and the commit
    index. What the backend does with entries it is not promised to take
    ([appendable]) is a parameter of the theorem; for [MemStorage] it is
    [MemStorage.append_below_base]. *)

From Stdlib Require Import Lia Init.Byte.
From stdpp Require Import base numbers list option gmap sets fin_maps strings.
From S2P Require Import Prelude.
From S2P Require Import Core.
From S2P Require Import Proto.
From S2P Require Import Storage.
From S2P Require Import MemStorage.
From S2P Require Import StateMachine.
From S2P Require Import Node.
From S2P Require Import Handlers.
From S2P Require Import Votes.
From S2P Require Import NodeLog.
From S2P Require Import RequestVote.

(** The term at an index, 0 where the log has none. *)
Definition term_at (v : LogView) (i : LogIndex) : Term := unwrap_or 0 (spec_term v i).

(** Terms do not decrease along the log. *)
Definition sorted_terms (v : LogView) : Prop :=
  forall i j, lv_base v < i -> i <= j -> j <= lv_last v -> term_at v i <= term_at v j.

Lemma term_at_ok v i :
  wf_view v -> lv_base v < i <= lv_last v -> spec_term v i = Ok (term_at v i).
Proof.
  intros Hv Hi. apply (wf_dom v Hv) in Hi as [e He].
  unfold term_at. by rewrite (spec_term_lookup v i e Hv He).
Qed.

(** ** The binary search *)

Lemma size_nat_bound (n : N) : n < 2 ^ N.of_nat (N.size_nat n).
Proof.
  destruct n as [|p]; [done|]. cbn [N.size_nat].
  induction p as [p IH|p IH|]; cbn [Pos.size_nat]; [| |done].
  all: rewrite Nat2N.inj_succ, N.pow_succ_r'; lia.
Qed.

Section search.
Context {prof : BuildProfile} {St : Type} `{HS : Storage St, !LogStorage St}.
Implicit Types n : RaftNodeInner St.

(** The search ends where the terms below are less than [t] and the term
    there is not, or at an end of the interval. *)
Definition search_result (v : LogView) (t : Term) (lo hi i : LogIndex) : Prop :=
  lo <= i <= hi /\
  (i = hi \/ t <= term_at v i) /\
  (i = lo \/ term_at v (i - 1) < t).

Lemma search_term_spec fuel t lo hi n :
  log_ok n -> lv_base (log n) < lo <= hi -> hi <= lv_last (log n) ->
  hi - lo < 2 ^ N.of_nat fuel ->
  exists i, search_term fuel t lo hi n = (Done i, n) /\ search_result (log n) t lo hi i.
Proof.
  intros Hn. pose proof (log_wf_view _ Hn) as Hv. fold (log n) in Hv.
  pose proof (wf_bound _ Hv) as Hu. unfold u64 in Hu.
  revert lo hi. induction fuel as [|fuel IH]; intros lo hi Hlo Hhi Hf; cbn [search_term].
  { exists lo. split; [done|]. change (2 ^ N.of_nat 0) with 1 in Hf.
    assert (lo = hi) by lia. split; [lia|auto]. }
  destruct (N.leb_spec hi lo) as [Hle|Hlt].
  { exists lo. split; [done|]. assert (lo = hi) by lia. split; [lia|auto]. }
  rewrite u64_sub_small by lia. unfold bind at 1, ret at 1.
  assert ((hi - lo) / 2 < hi - lo) as Hhalf by (apply N.div_lt; lia).
  pose proof (N.div_mod (hi - lo) 2 ltac:(done)) as Hdm.
  pose proof (N.mod_lt (hi - lo) 2 ltac:(done)) as Hmod.
  rewrite Nat2N.inj_succ, N.pow_succ_r' in Hf.
  rewrite u64_add_small by (unfold u64; lia). unfold bind at 1, ret at 1.
  remember ((hi - lo) / 2) as q eqn:Hq. clear Hq.
  assert (2 * q <= hi - lo) as H2q by (rewrite Hdm; apply N.le_add_r).
  assert (q < 2 ^ N.of_nat fuel /\ hi - (lo + q + 1) < 2 ^ N.of_nat fuel) as [Hfl Hfr].
  { revert Hf H2q Hdm Hmod. generalize (2 ^ N.of_nat fuel) ((hi - lo) mod 2). intros. lia. }
  unfold bind at 1. rewrite term_run by done.
  rewrite (term_at_ok _ (lo + q) Hv) by lia.
  destruct (N.ltb_spec (term_at (log n) (lo + q)) t) as [Ht|Ht].
  - rewrite u64_add_small by (unfold u64; lia). unfold bind at 1, ret at 1.
    destruct (IH (lo + q + 1) hi) as (i & Hi & Hr & Hge & Hb); [lia|lia|done|].
    exists i. split; [done|]. split; [lia|split; [done|]]. right.
    destruct Hb as [->|?]; [by rewrite N.add_sub|done].
  - destruct (IH lo (lo + q)) as (i & Hi & Hr & Hge & Hb); [lia|lia| |].
    { by replace (lo + q - lo) with q by lia. }
    exists i. split; [done|]. split; [lia|split; [|done]]. right.
    by destruct Hge as [->|?].
Qed.

Lemma first_index_of_term_run t upper n :
  log_ok n -> lv_base (log n) < upper <= lv_last (log n) ->
  exists i, first_index_of_term t upper n = (Done i, n) /\
            search_result (log n) t (lv_base (log n) + 1) upper i.
Proof.
  intros Hn Hu. unfold first_index_of_term, bind. rewrite first_index_run by done.
  cbn [unwrap_or]. apply search_term_spec; [done|lia|lia|].
  apply size_nat_bound.
Qed.

(** At the compaction point there is nothing to search. *)
Lemma first_index_of_term_base t n :
  log_ok n -> first_index_of_term t (lv_base (log n)) n = (Done (lv_base (log n) + 1), n).
Proof.
  intros Hn. unfold first_index_of_term, bind. rewrite first_index_run by done.
  cbn [unwrap_or]. replace (lv_base (log n) - (lv_base (log n) + 1)) with 0 by lia. done.
Qed.

(** C37. The binary search: on a log whose terms do not decrease, if the entry
    at [upper] is of term [t], [first_index_of_term t upper] ends with the
    first index of term [t] in the log: the entry there is of term [t] and
    every entry before it of a smaller term. It takes at most one iteration
    per bit of the distance searched, and no step overflows. *)
Theorem first_index_of_term_spec t upper n (Hn : log_ok n)
    (Hu : lv_base (log n) < upper <= lv_last (log n))
    (Hs : sorted_terms (log n)) (Ht : term_at (log n) upper = t) :
  exists i, first_index_of_term t upper n = (Done i, n) /\
    lv_base (log n) < i <= upper /\ term_at (log n) i = t /\
    forall j, lv_base (log n) < j < i -> term_at (log n) j < t.
Proof.
  destruct (first_index_of_term_run t upper n Hn Hu) as (i & Hi & Hr & Hge & Hb).
  exists i. split; [done|]. split; [lia|]. split.
  - destruct Hge as [->|Hge]; [done|].
    pose proof (Hs i upper ltac:(lia) ltac:(lia) ltac:(lia)). lia.
  - intros j Hj. destruct Hb as [->|Hb]; [lia|].
    pose proof (Hs j (i - 1) ltac:(lia) ltac:(lia) ltac:(lia)). lia.
Qed.
End search.

(** ** The consistency check *)

(** The request's entries, as the log stores them. *)
Definition new_entries (req : AppendEntriesRequest) : list LogEntry :=
  map proto_entry_to_log_entry (ae_entries req).

(** The log has the entry before the request's first. *)
Definition prev_matches (v : LogView) (req : AppendEntriesRequest) : bool :=
  (ae_prev_log_index req =? 0) ||
  match spec_term v (ae_prev_log_index req) with
  | Ok t => t =? ae_prev_log_term req
  | Err _ => false
  end.

(** What the consistency check lets pass: the log has that entry, or has
    compacted it. *)
Definition prev_accepted (v : LogView) (req : AppendEntriesRequest) : bool :=
  (ae_prev_log_index req =? 0) ||
  match spec_term v (ae_prev_log_index req) with
  | Ok t => t =? ae_prev_log_term req
  | Err (LogCompacted _ _) => true
  | Err _ => false
  end.

(** The rejection of a request whose previous entry the log does not have: its
    index, when the log is too short, or the first index of the term the log
    has there. *)
Definition rejects (v : LogView) (req : AppendEntriesRequest) (t : Term)
    (r : AppendEntriesResponse) : Prop :=
  let prev := ae_prev_log_index req in
  exists ci ct, r = reject_append ci ct t /\
    match spec_term v prev with
    | Err _ => ci = prev /\ ct = 0
    | Ok pt => ct = pt /\
        (prev = lv_base v -> ci = prev + 1) /\
        (lv_base v < prev -> search_result v pt (lv_base v + 1) prev ci)
    end.

(** A request that starts at or above the compaction point, with entries at
    consecutive indices after [prev_log_index]. *)
Record follows (v : LogView) (req : AppendEntriesRequest) : Prop := {
  fo_base : lv_base v <= ae_prev_log_index req;
  fo_contiguous : contiguous (ae_prev_log_index req + 1) (new_entries req);
  fo_bound : new_entries req <> [] ->
    u64 (ae_prev_log_index req + nlen (new_entries req) + 2);
}.

Lemma spec_term_above v i :
  lv_base v <= i -> i <> 0 -> match spec_term v i with
  | Ok _ => lv_base v = i \/ is_Some (lv_log v !! i)
  | Err e => e = LogUnavailable i /\ lv_log v !! i = None
  end.
Proof.
  intros Hb Hi. unfold spec_term.
  destruct (N.eqb_spec i 0), (N.ltb_spec i (lv_base v)), (N.eqb_spec i (lv_base v));
    try (exfalso; lia); [by left|].
  destruct (lv_log v !! i); [right; by eexists|done].
Qed.

Section append.
Context {prof : BuildProfile} {St : Type}
  `{HS : Storage St, !LogStorage St, HD : !DurableStorage St}.
Implicit Types n : RaftNodeInner St.

Lemma prev_accepted_matches v req :
  lv_base v <= ae_prev_log_index req -> prev_accepted v req = prev_matches v req.
Proof.
  intros Hb. unfold prev_accepted, prev_matches.
  destruct (N.eqb_spec (ae_prev_log_index req) 0); [done|]. cbn [orb].
  pose proof (spec_term_above v _ Hb ltac:(done)) as Ha.
  destruct (spec_term v _); [done|]. by destruct Ha as [-> _].
Qed.

Lemma prev_accepted_compacted v req :
  ae_prev_log_index req < lv_base v -> prev_accepted v req = true.
Proof.
  intros Hb. unfold prev_accepted, spec_term. destruct (N.eqb_spec (ae_prev_log_index req) 0); [done|].
  by rewrite (proj2 (N.ltb_lt _ _)).
Qed.

Lemma check_prev_run req n :
  log_ok n ->
  exists r, check_prev req n = (Done r, n) /\
    if prev_accepted (log n) req then r = None
    else exists resp, r = Some resp /\ rejects (log n) req (current_term (sm n)) resp.
Proof.
  intros Hn. pose proof (log_wf_view _ Hn) as Hv. fold (log n) in Hv.
  destruct (N.lt_ge_cases (ae_prev_log_index req) (lv_base (log n))) as [Hb|Hb].
  { rewrite prev_accepted_compacted by done. exists None. split; [|done]. unfold check_prev.
    destruct (N.ltb_spec 0 (ae_prev_log_index req)); [|done].
    unfold bind at 1. rewrite term_run by done. unfold spec_term.
    rewrite (proj2 (N.eqb_neq _ _)), (proj2 (N.ltb_lt _ _)) by lia. done. }
  rewrite prev_accepted_matches by done. unfold check_prev, prev_matches, rejects.
  destruct (N.eqb_spec (ae_prev_log_index req) 0) as [H0|H0]; cbn [orb].
  { rewrite (proj2 (N.ltb_ge _ _)) by lia. by exists None. }
  rewrite (proj2 (N.ltb_lt _ _)) by lia. unfold bind at 1. rewrite term_run by done.
  unfold bind at 1, get_sm at 1, gets at 1.
  pose proof (spec_term_above (log n) _ Hb H0) as Hab.
  destruct (spec_term (log n) (ae_prev_log_index req)) as [pt|e] eqn:Hpt.
  2:{ destruct Hab as [-> _]. eexists. split; [done|]. eexists. split; [done|].
      eexists _, _. by split. }
  destruct (N.eqb_spec pt (ae_prev_log_term req)); [by exists None|].
  unfold bind at 1. destruct Hab as [Heq|[e He]].
  - rewrite <- Heq, first_index_of_term_base by done. rewrite Heq.
    eexists. split; [done|]. eexists. split; [done|]. eexists _, _. split; [done|].
    split; [done|]. split; [by intros; lia|lia].
  - assert (is_Some (lv_log (log n) !! ae_prev_log_index req)) as Hin by eauto.
    apply (wf_dom _ Hv) in Hin.
    destruct (first_index_of_term_run pt _ n Hn Hin) as (i & -> & Hi).
    eexists. split; [done|]. eexists. split; [done|]. eexists _, _. split; [done|].
    split; [done|]. split; [lia|done].
Qed.

Lemma matches_range v req :
  wf_view v -> lv_base v <= ae_prev_log_index req -> prev_matches v req = true ->
  ae_prev_log_index req <= lv_last v.
Proof.
  intros Hv Hb. unfold prev_matches. destruct (N.eqb_spec (ae_prev_log_index req) 0); [lia|].
  pose proof (spec_term_above v _ Hb ltac:(done)) as Hab. cbn [orb].
  destruct (spec_term v _); [|done]. intros _. pose proof (wf_range v Hv).
  destruct Hab as [<-|Hin]; [done|]. apply (wf_dom v Hv) in Hin. lia.
Qed.

Lemma follows_appendable v req :
  wf_view v -> follows v req -> ae_prev_log_index req <= lv_last v ->
  appendable v (new_entries req).
Proof.
  intros Hv [Hb Hc Hu] Hl. unfold appendable. unfold u64 in *.
  destruct (new_entries req) as [|e es]; [done|]. specialize (Hu ltac:(done)).
  pose proof (proj1 (contiguous_cons _ e es) Hc) as [-> _].
  split; [done|split; [lia|]]. unfold u64. lia.
Qed.

(** The commit index after an accepted request. *)
Definition commit_after (v : LogView) (req : AppendEntriesRequest) (ci : LogIndex) : LogIndex :=
  if ci <? ae_leader_commit req then N.min (ae_leader_commit req) (lv_last v) else ci.

(** The state machine once the request's sender is known as the leader. *)
Definition following_sm (req : AppendEntriesRequest) (s : RaftStateMachine) : RaftStateMachine :=
  set_leader_id (Some (ae_leader_id req))
    (observed_sm (ae_term req) (Some (ae_leader_id req)) s).

(** The backend is given the entries, if there are any. *)
Definition store_entries (es : list LogEntry) : M St (raft_result unit) :=
  match es with [] => ret (Ok tt) | _ => st_append_entries es end.

Lemma append_new_run n req :
  match ae_entries req with
  | [] => ret (Ok tt)
  | _ => on_storage (st_append_entries (map proto_entry_to_log_entry (ae_entries req)))
  end n =
    let '(o, s') := store_entries (new_entries req) (storage n) in (o, set_storage s' n).
Proof.
  unfold new_entries. destruct (ae_entries req) as [|e es]; [by destruct n|].
  unfold on_storage, zoom. cbn [map store_entries]. by destruct (st_append_entries _ _).
Qed.

Lemma store_entries_keeps es s : hard_state_of (store_entries es s).2 = hard_state_of s.
Proof. destruct es as [|e es]; [done|]. apply append_entries_keeps. Qed.

Lemma store_entries_ok es s :
  log_wf s -> appendable (log_view s) es ->
  exists s', store_entries es s = (Done (Ok tt), s') /\ log_wf s' /\
    log_view s' = spec_append (log_view s) es.
Proof.
  intros Hs Ha. destruct es as [|e es]; [by exists s|]. cbn [store_entries].
  destruct (append_entries_ok _ s Hs Ha) as (Ho & Hwf & Hl). eexists. split; [|by split].
  by rewrite (surjective_pairing (st_append_entries _ _)), Ho.
Qed.

Lemma follow_commit_run n req :
  log_ok n -> persisted n ->
  exists n',
    when (commit_index (sm n) <? ae_leader_commit req)
      (let* last := last_index_or_0 in
       upd_sm (set_commit_index (N.min (ae_leader_commit req) last)) ;;;
       save_hard_state) n = (Done tt, n') /\
    sm n' = set_commit_index (commit_after (log n) req (commit_index (sm n))) (sm n) /\
    persisted n' /\ log_ok n' /\ log n' = log n /\
    config n' = config n /\ pending n' = pending n.
Proof.
  intros Hn Hp. unfold commit_after. case_match; cbn [when].
  - unfold bind at 1. rewrite last_index_or_0_run by done.
    unfold bind at 1, upd_sm at 1, modify at 1. set (n1 := set_sm _ n).
    destruct (save_run n1 Hn) as (s' & -> & Hs & Hv & Hd).
    eexists. split; [done|]. by repeat split.
  - exists n. split; [done|]. split; [by destruct (sm n)|]. by repeat split.
Qed.

Definition accept_append (t : Term) : AppendEntriesResponse :=
  {| aer_term := t; aer_success := true; aer_conflict_index := 0; aer_conflict_term := 0 |}.

(** The node once it knows the sender of a request that is not old. *)
Record heard n req (n1 : RaftNodeInner St) : Prop := {
  he_sm : sm n1 = following_sm req (sm n);
  he_log : log n1 = log n;
  he_log_ok : log_ok n1;
  he_persisted : persisted n1;
  he_config : config n1 = config n;
  he_pending : pending n1 = pending n;
}.

(** What a request of no older term leaves and answers, from the node [n1] that
    has heard of it, by what the backend does with its entries. *)
Definition append_outcome n req n1 (x : outcome (raft_result AppendEntriesResponse) * RaftNodeInner St)
    : Prop :=
  let t := N.max (current_term (sm n)) (ae_term req) in
  if prev_accepted (log n) req then
    match store_entries (new_entries req) (storage n1) with
    | (Done (Ok _), s') =>
        log_wf s' -> exists n', x = (Done (Ok (accept_append t)), n') /\
          persisted n' /\ log_ok n' /\ config n' = config n /\ pending n' = pending n /\
          log n' = log_view s' /\
          sm n' = set_commit_index (commit_after (log_view s') req (commit_index (sm n)))
                    (following_sm req (sm n))
    | (Done (Err e), s') => x = (Done (Err e), set_storage s' n1) /\ persisted (set_storage s' n1)
    | (Panicked, s') => x = (Panicked, set_storage s' n1) /\ persisted (set_storage s' n1)
    end
  else exists r, x = (Done (Ok r), n1) /\ rejects (log n) req t r.

Lemma append_entries_outcome n req :
  log_ok n -> persisted n ->
  let t := N.max (current_term (sm n)) (ae_term req) in
  if ae_term req <? current_term (sm n)
  then on_append_entries req n = (Done (Ok (reject_append 0 0 t)), n)
  else exists n1, heard n req n1 /\ append_outcome n req n1 (on_append_entries req n).
Proof.
  intros Hn Hp t.
  destruct (observe_run (ae_term req) (Some (ae_leader_id req)) n Hn (or_introl Hp))
    as (n1 & Hrun1 & Hs1 & Hn1 & Hl1 & Hp1 & Hc1 & Hpe1 & _ & _).
  assert (current_term (sm n1) = t) as Ht1 by (rewrite Hs1; apply observed_sm_term).
  destruct (N.ltb_spec (ae_term req) (current_term (sm n))) as [Hold|Hnew];
    unfold on_append_entries; unfold bind at 1, get_sm at 1, gets at 1; unfold bind at 1;
    rewrite Hrun1; unfold bind at 1, get_sm at 1, gets at 1; rewrite Ht1.
  { rewrite (proj2 (N.ltb_lt _ _)) by lia.
    rewrite (proj2 (N.ltb_ge _ _)) in Hrun1 by lia. by injection Hrun1 as <-. }
  rewrite (proj2 (N.ltb_ge _ _)) by lia.
  assert (commit_index (sm n1) = commit_index (sm n)) as Hci1
    by (rewrite Hs1; apply observed_sm_commit).
  unfold bind at 1, upd_sm at 1, modify at 1. set (n2 := set_sm _ n1).
  assert (heard n req n2) as Hh by (split; try done; unfold following_sm; by rewrite <- Hs1).
  assert (current_term (sm n2) = t /\ commit_index (sm n2) = commit_index (sm n)) as [Ht2 Hci2] by done.
  clearbody n2. clear Hrun1 Hs1 Hn1 Hl1 Hp1 Hc1 Hpe1 Ht1 Hci1 n1. exists n2. split; [done|].
  destruct Hh as [Hs2 Hl2 Hn2 Hp2 Hc2 Hpe2].
  unfold bind at 1. destruct (check_prev_run req n2 Hn2) as (rej & -> & Hrej).
  rewrite Hl2, Ht2 in Hrej. destruct (prev_accepted (log n) req) eqn:Hm.
  2:{ destruct Hrej as (resp & -> & Hr). unfold append_outcome. rewrite Hm. by exists resp. }
  subst rej. unfold try_bind at 1. unfold bind at 1. rewrite append_new_run.
  pose proof (store_entries_keeps (new_entries req) (storage n2)) as Hk.
  unfold append_outcome. rewrite Hm. fold t.
  destruct (store_entries (new_entries req) (storage n2)) as [[[[]|e]|] s']; cbn [snd] in Hk.
  2,3: split; [done|]; unfold persisted, hard_state_now; cbn; by rewrite Hk.
  intros Hs'. set (n3 := set_storage s' n2).
  assert (persisted n3) as Hp3 by (unfold persisted, hard_state_now; cbn; by rewrite Hk).
  unfold bind at 1, get_sm at 1, gets at 1. unfold bind at 1.
  destruct (follow_commit_run n3 req Hs' Hp3) as (n4 & -> & Hs4 & Hp4 & Hn4 & Hl4 & Hc4 & Hpe4).
  unfold bind at 1, emit at 1, modify at 1. unfold bind at 1, get_sm at 1, gets at 1. cbn.
  assert (current_term (sm n4) = t) as -> by (rewrite Hs4; cbn; congruence).
  eexists. split; [done|]. split; [exact Hp4|]. split; [exact Hn4|]. cbn.
  split; [by rewrite Hc4|]. split; [by rewrite Hpe4|]. split; [exact Hl4|].
  change (sm n3) with (sm n2) in Hs4. change (log n3) with (log_view s') in Hs4.
  by rewrite Hs4, Hci2, Hs2.
Qed.

(** What a request that the log can take leaves and answers. *)
Definition append_entries_result n req (n' : RaftNodeInner St) (r : AppendEntriesResponse) : Prop :=
  let t := N.max (current_term (sm n)) (ae_term req) in
  let v' := spec_append (log n) (new_entries req) in
  persisted n' /\ log_ok n' /\ config n' = config n /\ pending n' = pending n /\
  if ae_term req <? current_term (sm n) then n' = n /\ r = reject_append 0 0 t
  else if prev_matches (log n) req then
    r = accept_append t /\ log n' = v' /\
    sm n' = set_commit_index (commit_after v' req (commit_index (sm n)))
              (following_sm req (sm n))
  else rejects (log n) req t r /\ log n' = log n /\ sm n' = following_sm req (sm n).

Lemma follows_stores n req n1 :
  log_ok n -> follows (log n) req -> heard n req n1 -> prev_matches (log n) req = true ->
  exists s', store_entries (new_entries req) (storage n1) = (Done (Ok tt), s') /\
    log_wf s' /\ log_view s' = spec_append (log n) (new_entries req).
Proof.
  intros Hn Hf [_ Hl1 Hn1 _ _ _] Hm. rewrite <- Hl1. apply store_entries_ok; [exact Hn1|].
  change (log_view (storage n1)) with (log n1). rewrite Hl1. apply follows_appendable; [|done|].
  - by apply log_wf_view.
  - by apply matches_range; [apply log_wf_view|apply Hf|].
Qed.

Lemma on_append_entries_run n req (Hn : log_ok n) (Hp : persisted n)
    (Hf : follows (log n) req) :
  exists n' r, on_append_entries req n = (Done (Ok r), n') /\ append_entries_result n req n' r.
Proof.
  pose proof (append_entries_outcome n req Hn Hp) as Ho. cbn zeta in Ho.
  unfold append_entries_result.
  destruct (ae_term req <? current_term (sm n)).
  { eexists n, _. split; [exact Ho|]. by repeat split. }
  destruct Ho as (n1 & Hh & Ho). unfold append_outcome in Ho.
  rewrite prev_accepted_matches in Ho by apply Hf.
  destruct (prev_matches (log n) req) eqn:Hm.
  - destruct (follows_stores n req n1 Hn Hf Hh Hm) as (s' & Hs & Hwf & Hl). rewrite Hs in Ho.
    destruct (Ho Hwf) as (n' & Hr & Hp' & Hn' & Hc' & Hpe' & Hl' & Hsm).
    exists n', (accept_append (N.max (current_term (sm n)) (ae_term req))). split; [exact Hr|].
    do 4 (split; [done|]). rewrite Hl', Hsm, Hl. done.
  - destruct Ho as (r & Hr & Hrej). destruct Hh. exists n1, r. by repeat split.
Qed.

(** C17. AppendEntries, for every request, on every branch. A request of an
    older term is rejected and changes nothing. Otherwise the sender becomes the
    known leader (at a newer term the node steps down to it), and: if the log
    lacks the entry before the request's first, or has one of another term
    there, the log is left alone and the rejection names where the leader should
    back off to; if it has that entry, or has compacted it, which is taken
    without comparing anything, the entries are given to the storage, and what
    follows is by what the storage does. A storage error ends the handler with
    that error, the commit index unmoved; if the entries are stored (and the log
    still is one), the answer is a success and the commit index moves to the
    leader's, but not past the last entry. Whenever the entries continue the
    log, which is when they are at consecutive indices, start above the
    compaction point, and are accepted, they are stored at their places,
    replacing everything from the first of them on. Term, vote and commit index
    are on storage, whose saves succeed, before the answer. *)
Theorem on_append_entries_spec n req (Hn : log_ok n) (Hp : persisted n) :
  let t := N.max (current_term (sm n)) (ae_term req) in
  if ae_term req <? current_term (sm n)
  then on_append_entries req n = (Done (Ok (reject_append 0 0 t)), n)
  else exists n1, heard n req n1 /\ append_outcome n req n1 (on_append_entries req n) /\
    (follows (log n) req -> prev_matches (log n) req = true ->
     exists s', store_entries (new_entries req) (storage n1) = (Done (Ok tt), s') /\
       log_wf s' /\ log_view s' = spec_append (log n) (new_entries req)).
Proof.
  intros t. pose proof (append_entries_outcome n req Hn Hp) as Ho. cbn zeta in Ho. fold t in Ho.
  destruct (ae_term req <? current_term (sm n)); [exact Ho|].
  destruct Ho as (n1 & Hh & Ho). exists n1. split; [done|]. split; [done|].
  intros Hf Hm. by apply follows_stores.
Qed.

(** An append is not idempotent: an accepted request with entries leaves
    the log ending at its last entry, whatever came after, even when the
    entries sent are all in the log already. A delayed or repeated request can
    so remove entries at or below the commit index: here the entry at the
    commit index is gone, and the node still answers with success. *)
Theorem late_append_drops_committed n req
    (Hn : log_ok n) (Hp : persisted n) (Hf : follows (log n) req)
    (Ht : ae_term req = current_term (sm n)) (Hok : prev_matches (log n) req = true)
    (Hne : new_entries req <> [])
    (Hc : ae_prev_log_index req + nlen (new_entries req) < commit_index (sm n) <= lv_last (log n))
    (Hlc : ae_leader_commit req <= commit_index (sm n)) :
  exists n' r, on_append_entries req n = (Done (Ok r), n') /\ aer_success r = true /\
    commit_index (sm n') = commit_index (sm n) /\
    lv_last (log n') = ae_prev_log_index req + nlen (new_entries req) /\
    is_Some (lv_log (log n) !! commit_index (sm n)) /\
    lv_log (log n') !! commit_index (sm n) = None.
Proof.
  pose proof (log_wf_view _ Hn) as Hv. fold (log n) in Hv.
  destruct (on_append_entries_run n req Hn Hp Hf)
    as (n' & r & Hr & _ & Hn' & _ & _ & Hcases).
  exists n', r. split; [done|]. rewrite Ht, N.ltb_irrefl, Hok in Hcases.
  destruct Hcases as (-> & Hl & Hsm). split; [done|].
  assert (lv_last (log n') = ae_prev_log_index req + nlen (new_entries req)) as Hlast.
  { rewrite Hl. pose proof (fo_contiguous _ _ Hf) as Hcont.
    destruct (new_entries req) as [|e es]; [done|].
    pose proof (proj1 (contiguous_cons _ _ _) Hcont) as [H0 _].
    rewrite spec_append_last, H0. lia. }
  split; [|split; [done|split]].
  - rewrite Hsm. cbn. unfold commit_after. by rewrite (proj2 (N.ltb_ge _ _)).
  - apply (wf_dom _ Hv). pose proof (fo_base _ _ Hf).
    assert (1 <= nlen (new_entries req)); [|lia].
    destruct (new_entries req); [done|rewrite nlen_cons; lia].
  - apply wf_view_lookup_above; [by apply log_wf_view|]. unfold log in *. lia.
Qed.
End append.

Section examples.
Local Existing Instance dev_profile.

Lemma ex_node_ok : log_ok (H0 := MemStorage_log) ex_node.
Proof. by_compute. Qed.

Lemma ex_node_persisted : persisted (DurableStorage0 := MemStorage_durable) ex_node.
Proof. reflexivity. Qed.

Lemma ex_node_sorted : sorted_terms (log (H0 := MemStorage_log) ex_node).
Proof.
  intros i j. change (lv_base (log ex_node)) with 3. change (lv_last (log ex_node)) with 5.
  intros Hi Hij Hj. assert (i = 4 \/ i = 5) as [->| ->] by lia;
    assert (j = 4 \/ j = 5) as [->| ->] by lia; by_compute.
Qed.

Lemma first_index_of_term_spec_witness :
  exists i, first_index_of_term 2 5 ex_node = (Done i, ex_node) /\ 3 < i <= 5.
Proof.
  destruct (first_index_of_term_spec (HS := MemStorage) 2 5 ex_node ex_node_ok ltac:(by_compute)
              ex_node_sorted ltac:(reflexivity)) as (i & Hi & Hr & _).
  by exists i.
Defined.

(** The leader of term 4 replaces entry 5 and commits it. *)
Definition ex_append : AppendEntriesRequest :=
  MkAppendEntriesRequest 4 2 4 2 [log_entry_to_proto_entry (ex_entry 4 5 [x64])] 5.

Lemma ex_append_follows : follows (log (H0 := MemStorage_log) ex_node) ex_append.
Proof.
  split; [by_compute| |intros _; by_compute].
  intros [|j] e; [|done]. intros [= <-]. reflexivity.
Qed.

(** A heartbeat whose previous entry the log has compacted. *)
Definition ex_compacted : AppendEntriesRequest := MkAppendEntriesRequest 4 2 2 7 [] 5.

Lemma on_append_entries_spec_witness :
  (exists n', on_append_entries ex_append ex_node =
      (Done (Ok (MkAppendEntriesResponse 4 true 0 0)), n') /\
    commit_index (sm n') = 5 /\ leader_id (sm n') = Some 2) /\
  (exists n', on_append_entries ex_compacted ex_node =
      (Done (Ok (MkAppendEntriesResponse 4 true 0 0)), n') /\ commit_index (sm n') = 5).
Proof.
  split.
  - destruct (on_append_entries_spec (HD := MemStorage_durable) ex_node ex_append ex_node_ok
                ex_node_persisted) as (n1 & Hh & Ho & Hs).
    destruct (Hs ex_append_follows ltac:(reflexivity)) as (s' & Hst & Hwf & Hl).
    unfold append_outcome in Ho. rewrite Hst in Ho.
    change (prev_accepted (log ex_node) ex_append) with true in Ho.
    destruct (Ho Hwf) as (n' & Hr & _ & _ & _ & _ & _ & Hsm). exists n'. split; [exact Hr|].
    rewrite Hsm, Hl. split; vm_compute; reflexivity.
  - destruct (on_append_entries_spec (HD := MemStorage_durable) ex_node ex_compacted ex_node_ok
                ex_node_persisted) as (n1 & Hh & Ho & _).
    unfold append_outcome in Ho.
    change (prev_accepted (log ex_node) ex_compacted) with true in Ho.
    destruct (Ho (he_log_ok _ _ _ Hh)) as (n' & Hr & _ & _ & _ & _ & Hl & Hsm).
    exists n'. split; [exact Hr|]. rewrite Hsm.
    change (log_view (storage n1)) with (log n1). rewrite (he_log _ _ _ Hh).
    vm_compute. reflexivity.
Defined.
(** Entries 4 and 5 are committed; a copy of the request that brought entry 4
    arrives again. *)
Definition ex_committed : RaftNodeInner MemStorageInner :=
  MkNode (MkSM 3 None Follower 5 3 (Some 2) ∅ ∅) ex_config
    (MkMem (MkHardState 3 0 5) (mem_entries ex_mem) (mem_snapshot ex_mem)) [] None [].
Definition ex_late : AppendEntriesRequest :=
  MkAppendEntriesRequest 3 2 3 1 [log_entry_to_proto_entry (ex_entry 2 4 [x61; x62])] 3.

Lemma late_append_drops_committed_witness :
  new_entries ex_late = [ex_entry 2 4 [x61; x62]] /\
  lv_log (log (H0 := MemStorage_log) ex_committed) !! 4 = Some (ex_entry 2 4 [x61; x62]) /\
  exists n' r, on_append_entries ex_late ex_committed = (Done (Ok r), n') /\
    aer_success r = true /\ lv_log (log (H0 := MemStorage_log) n') !! 5 = None.
Proof.
  split; [reflexivity|]. split; [reflexivity|].
  assert (follows (log (H0 := MemStorage_log) ex_committed) ex_late) as Hf.
  { split; [by_compute| |intros _; by_compute]. intros [|j] e; [|done]. intros [= <-]. reflexivity. }
  destruct (late_append_drops_committed (HD := MemStorage_durable)
              ex_committed ex_late ltac:(by_compute) ltac:(reflexivity) Hf ltac:(reflexivity)
              ltac:(reflexivity) ltac:(discriminate) ltac:(by_compute) ltac:(by_compute))
    as (n' & r & Hr & Hok & _ & _ & _ & Hnone).
  exists n', r. split; [exact Hr|]. split; [exact Hok|exact Hnone].
Defined.
End examples.
