(* ===== verification/Replication.v ===== *)
(** * Leading: what a leader sends and what it makes of the logs

    [RaftNodeInner::replicate_to], [send_snapshot_to] and the responses' effect
    on the per-peer progress; then the two sides together: a request a leader
    sends from its log, handled by a follower, keeps the Log Matching property
    of Raft between all logs, and a rejection makes the leader back off. *)

From Stdlib Require Import Lia Init.Byte.
From stdpp Require Import base numbers list option gmap sets fin_maps strings.
From S2P Require Import Prelude.
From S2P Require Import Core.
From S2P Require Import Proto.
From S2P Require Import Storage.
From S2P Require Import MemStorage.
From S2P Require Import StateMachine.
From S2P Require Import Node.
From S2P Require Import Handlers.
From S2P Require Import Votes.
From S2P Require Import NodeLog.
From S2P Require Import RequestVote.
From S2P Require Import AppendEntries.

(** ** What is sent *)

(** A request for a peer whose next index is [next], from the log [v] of a
    leader: the entry before it, and entries from it on, as many as the cap
    allows but at least one if there is one. *)
Record sent_from (v : LogView) (next : LogIndex) (req : AppendEntriesRequest) : Prop := {
  sf_prev : ae_prev_log_index req = next - 1;
  sf_prev_term : ae_prev_log_term req = term_at v (next - 1);
  sf_entries : new_entries req `prefix_of`
    log_range (lv_log v) next (N.to_nat (lv_last v + 1 - next));
  sf_some : next <= lv_last v -> new_entries req <> [];
}.

Definition snapshot_request (t : Term) (id : NodeId) (sn : Snapshot) : InstallSnapshotRequest := {|
  is_term := t;
  is_leader_id := id;
  is_last_included_index := last_included_index (snap_metadata sn);
  is_last_included_term := last_included_term (snap_metadata sn);
  is_offset := 0;
  is_data := snap_data sn;
  is_done := true |}.

Section replicate.
Context {prof : BuildProfile} {St : Type} `{HS : Storage St, HL : !LogStorage St}.
Implicit Types n : RaftNodeInner St.

(** What a leader sends to a peer whose next index is [next]. *)
Definition replication n (peer : NodeId) (next : LogIndex) (e : Effect) : Prop :=
  if next <? lv_base (log n) + 1
  then exists sn, lv_snapshot (log n) = Some sn /\
    e = SpawnInstallSnapshot peer
          (snapshot_request (current_term (sm n)) (cfg_id (config n)) sn)
          (last_included_index (snap_metadata sn))
  else exists req,
    e = SpawnAppendEntries peer req (next - 1 + nlen (ae_entries req)) /\
    ae_term req = current_term (sm n) /\ ae_leader_id req = cfg_id (config n) /\
    ae_leader_commit req = commit_index (sm n) /\ sent_from (log n) next req.

Lemma send_snapshot_run peer sn n :
  log_ok n -> lv_snapshot (log n) = Some sn ->
  send_snapshot_to peer n = (Done tt, set_effects (effects n ++ [SpawnInstallSnapshot peer
    (snapshot_request (current_term (sm n)) (cfg_id (config n)) sn)
    (last_included_index (snap_metadata sn))]) n).
Proof.
  intros Hn Hs. unfold send_snapshot_to. unfold bind at 1. rewrite snapshot_run by done.
  rewrite Hs. done.
Qed.

(** The entries read for the request. *)
Lemma read_entries_run next n :
  log_ok n -> u64 (max_append_entries (config n) * 4096) -> lv_base (log n) < next ->
  exists es,
    (if next <=? lv_last (log n) then
       let* hi := u64_add (lv_last (log n)) 1 in
       let* max := u64_mul (max_append_entries (config n)) 4096 in
       on_storage (st_entries next hi (Some max))
     else ret (Ok [])) n = (Done (Ok es), n) /\
    es `prefix_of` log_range (lv_log (log n)) next (N.to_nat (lv_last (log n) + 1 - next)) /\
    (next <= lv_last (log n) -> es <> []).
Proof.
  intros Hn Hm Hb. pose proof (log_wf_view _ Hn) as Hv. fold (log n) in Hv.
  pose proof (wf_bound _ Hv) as Hu. unfold u64 in Hu.
  destruct (N.leb_spec next (lv_last (log n))) as [Hle|Hgt].
  2:{ exists []. split; [done|]. split; [apply prefix_nil|lia]. }
  rewrite u64_add_small by (unfold u64; lia). unfold bind at 1, ret at 1.
  rewrite u64_mul_small by done. unfold bind at 1, ret at 1.
  destruct (entries_run next (lv_last (log n) + 1)
              (Some (max_append_entries (config n) * 4096)) n Hn) as (r & -> & Hr).
  unfold spec_entries in Hr. rewrite (proj2 (N.ltb_ge _ _)), (proj2 (N.ltb_ge _ _)) in Hr by lia.
  destruct Hr as (es & -> & Hp & Hne & _). exists es. split; [done|]. split; [done|].
  intros _. apply Hne. lia.
Qed.

Lemma replicate_to_run n peer p (Hn : log_ok n) (Hp : progress (sm n) !! peer = Some p)
    (H1 : 1 <= next_index p) (Hu : u64 (next_index p))
    (Hm : u64 (max_append_entries (config n) * 4096)) :
  exists e, replicate_to peer n = (Done tt, set_effects (effects n ++ [e]) n) /\
            replication n peer (next_index p) e.
Proof.
  pose proof (log_wf_view _ Hn) as Hv. fold (log n) in Hv.
  pose proof (wf_bound _ Hv) as Hb. pose proof (wf_range _ Hv) as Hr. unfold u64 in *.
  unfold replicate_to, replication. unfold bind at 1, get_sm at 1, gets at 1. rewrite Hp.
  rewrite u64_sub_small by done. unfold bind at 1, ret at 1.
  assert ((if next_index p - 1 =? 0 then ret 0 else term_or_0 (next_index p - 1)) n =
          (Done (term_at (log n) (next_index p - 1)), n)) as Hpt.
  { destruct (N.eqb_spec (next_index p - 1) 0) as [H0|H0]; [by rewrite H0|].
    by apply term_or_0_run. }
  unfold bind at 1. rewrite Hpt. unfold bind at 1. rewrite last_index_or_0_run by done.
  unfold bind at 1, gets at 1. destruct (N.ltb_spec (next_index p) (lv_base (log n) + 1)) as [Hc|Hc].
  - assert (is_Some (lv_snapshot (log n))) as [sn Hsn].
    { destruct (lv_snapshot (log n)) eqn:Hs; [by eexists|].
      pose proof (wf_base _ Hv) as Hbase. rewrite Hs in Hbase. cbn in Hbase. lia. }
    eexists. split; [|by exists sn]. rewrite (proj2 (N.leb_le _ _)) by lia.
    rewrite u64_add_small by (unfold u64; lia). rewrite u64_mul_small by done.
    unfold bind, ret.
    destruct (entries_run (next_index p) (lv_last (log n) + 1)
                (Some (max_append_entries (config n) * 4096)) n Hn) as (r & -> & Hspec).
    unfold spec_entries in Hspec. rewrite (proj2 (N.ltb_lt _ _)) in Hspec by lia. subst r.
    by apply send_snapshot_run.
  - unfold bind at 1. destruct (read_entries_run (next_index p) n Hn Hm) as (es & -> & Hpre & Hne);
      [lia|].
    assert (nlen es <= lv_last (log n) + 1 - next_index p) as Hlen.
    { apply prefix_length in Hpre. rewrite length_log_range in Hpre; [unfold nlen; lia|].
      intros i Hi. apply (wf_dom _ Hv). lia. }
    unfold bind at 1. rewrite u64_add_small; [|unfold u64, nlen in *; rewrite length_map; lia].
    unfold ret at 1. eexists. split; [reflexivity|].
    eexists (MkAppendEntriesRequest _ _ _ _ _ _). split; [reflexivity|].
    repeat (split; [done|]). split; unfold new_entries; cbn; try done;
      by rewrite proto_log_proto_list.
Qed.

(** C22. Replication to one peer: whatever the log and the progress, the leader
    sends exactly one message and changes nothing else. If the peer's next
    index is compacted, it is the stored snapshot, which always exists; if
    not, it is an AppendEntries with the index and term of the entry before,
    the leader's term and commit index, and the entries from the next index
    on, in order, at least one if there is one. *)
Theorem replicate_to_spec n peer p (Hn : log_ok n) (Hp : progress (sm n) !! peer = Some p)
    (H1 : 1 <= next_index p) (Hu : u64 (next_index p))
    (Hm : u64 (max_append_entries (config n) * 4096)) :
  exists e, replicate_to peer n = (Done tt, set_effects (effects n ++ [e]) n) /\
            replication n peer (next_index p) e.
Proof. by apply replicate_to_run. Qed.
End replicate.

(** ** Log matching *)

(** Above the floor [b]: two logs with an entry of the same index and term are
    equal up to it. *)
Definition logs_match (b : LogIndex) (v w : LogView) : Prop :=
  forall i e e', b < i -> lv_log v !! i = Some e -> lv_log w !! i = Some e' ->
    le_term e = le_term e' -> forall j, b < j <= i -> lv_log v !! j = lv_log w !! j.

(** A request for a place beyond the end of the log carries nothing. *)
Lemma sent_beyond L next req : sent_from L next req -> lv_last L < next -> new_entries req = [].
Proof.
  intros [_ _ He _] Hn. replace (lv_last L + 1 - next) with 0 in He by lia.
  by apply prefix_nil_inv in He.
Qed.

(** A request sent from a wellformed log is one a follower can handle. *)
Lemma sent_follows_any v L next req :
  wf_view L -> sent_from L next req -> 1 <= next -> lv_base L < next ->
  lv_base v <= next - 1 -> follows v req.
Proof.
  intros HL Hs H1 HbL Hb. pose proof (wf_bound L HL) as Hu. unfold u64 in *.
  pose proof Hs as [Hp _ He _]. split; rewrite Hp.
  - done.
  - replace (next - 1 + 1) with next by lia. eapply contiguous_prefix; [done|].
    by apply contiguous_log_range.
  - intros Hne. assert (next <= lv_last L) as Hle.
    { destruct (N.le_gt_cases next (lv_last L)) as [|Hgt]; [done|]. by rewrite (sent_beyond L next) in Hne. }
    apply prefix_length in He. rewrite length_log_range in He.
    + unfold u64, nlen. lia.
    + intros i Hi. apply (wf_dom L HL). lia.
Qed.

Lemma sent_follows v L next req :
  wf_view L -> sent_from L next req -> 1 <= next -> next <= lv_last L + 1 ->
  lv_base L < next -> lv_base v <= next - 1 -> follows v req.
Proof. intros ??? _. by apply sent_follows_any. Qed.

Lemma sent_length L next req :
  wf_view L -> lv_base L < next <= lv_last L + 1 -> sent_from L next req ->
  next + nlen (new_entries req) <= lv_last L + 1 /\
  (next <= lv_last L -> 1 <= nlen (new_entries req)).
Proof.
  intros HwL Hn [_ _ He Hs]. split.
  - apply prefix_length in He. rewrite length_log_range in He; [unfold nlen; lia|].
    intros i Hi. apply (wf_dom _ HwL). lia.
  - intros Hle. specialize (Hs Hle). destruct (new_entries req); [done|rewrite nlen_cons; lia].
Qed.

(** The log after an append of entries of [L]: [L] where they are, the old log
    below. *)
Lemma sent_append_lookup v L next req i e :
  wf_view L -> sent_from L next req -> lv_base L < next ->
  lv_log (spec_append v (new_entries req)) !! i = Some e ->
  (i < next \/ new_entries req = []) /\ lv_log v !! i = Some e \/
  next <= i /\ lv_log L !! i = Some e.
Proof.
  intros HL [_ _ He _] Hb. destruct (new_entries req) as [|e0 es] eqn:Hnew.
  { intros Hi. left. split; [by right|done]. }
  assert (contiguous next (e0 :: es)) as Hc
    by (eapply contiguous_prefix; [done|by apply contiguous_log_range]).
  pose proof (proj1 (contiguous_cons _ _ _) Hc) as [H0 _].
  rewrite spec_append_lookup, H0. destruct (N.ltb_spec i next) as [Hlt|Hge].
  { intros Hi. left. split; [by left|done]. }
  intros Hi. right. split; [done|].
  pose proof (prefix_lookup_Some _ _ _ _ Hi He) as Hr.
  rewrite lookup_log_range in Hr.
  - case_match; [|done]. by replace (next + N.of_nat (N.to_nat (i - next))) with i in Hr by lia.
  - intros k Hk'. apply (wf_dom L HL). lia.
Qed.

Lemma term_at_lookup v i e : wf_view v -> lv_log v !! i = Some e -> term_at v i = le_term e.
Proof. intros Hv He. unfold term_at. by rewrite (spec_term_lookup v i e Hv He). Qed.

(** If the check passes, the logs agree up to the entry before. *)
Lemma prev_agrees b v L next req :
  wf_view v -> wf_view L -> lv_base v <= b -> lv_base L <= b ->
  logs_match b v L -> sent_from L next req -> next <= lv_last L + 1 ->
  lv_base v <= next - 1 -> prev_matches v req = true ->
  forall j, b < j < next -> lv_log v !! j = lv_log L !! j.
Proof.
  intros Hv HL Hbv HbL Hm [Hp Ht _ _] Hn Hbn Hok j Hj.
  assert (lv_base v <= ae_prev_log_index req) as Hbp by by rewrite Hp.
  pose proof (matches_range v req Hv Hbp Hok) as Hr. rewrite Hp in Hr.
  assert (is_Some (lv_log v !! (next - 1))) as [e He] by (apply (wf_dom v Hv); lia).
  assert (is_Some (lv_log L !! (next - 1))) as [e' He'] by (apply (wf_dom L HL); lia).
  apply (Hm (next - 1) e e'); try done; [lia| |lia].
  unfold prev_matches in Hok. rewrite Hp, Ht, (spec_term_lookup v _ e Hv He) in Hok.
  rewrite (term_at_lookup L _ e' HL He') in Hok.
  destruct (N.eqb_spec (next - 1) 0); [lia|]. by apply N.eqb_eq in Hok.
Qed.

(** An accepted request keeps the follower's log matching any log that matched
    both its own and the leader's. *)
Lemma append_keeps_match b v L w next req :
  wf_view v -> wf_view L -> lv_base v <= b -> lv_base L <= b ->
  logs_match b v L -> sent_from L next req -> 1 <= next -> lv_base L < next ->
  next <= lv_last L + 1 -> lv_base v <= next - 1 -> prev_matches v req = true ->
  logs_match b v w -> logs_match b L w ->
  logs_match b (spec_append v (new_entries req)) w.
Proof.
  intros Hv HL Hbv HbL Hm Hs H1 HbLn Hn Hbn Hok Hvw HLw i e e' Hbi Hi Hw Ht j Hj.
  pose proof (prev_agrees b v L next req Hv HL Hbv HbL Hm Hs Hn Hbn Hok) as Hagree.
  pose proof (sent_follows v L next req HL Hs H1 Hn HbLn Hbn) as Hf.
  pose proof (matches_range v req Hv (fo_base _ _ Hf) Hok) as Hr.
  assert (wf_view (spec_append v (new_entries req))) as Hv'
    by by apply spec_append_wf, follows_appendable.
  assert (is_Some (lv_log (spec_append v (new_entries req)) !! j)) as [ej Hej].
  { apply (wf_dom _ Hv'). assert (is_Some (lv_log (spec_append v (new_entries req)) !! i)) as Hd
      by eauto. apply (wf_dom _ Hv') in Hd. rewrite spec_append_base in *. lia. }
  rewrite Hej. symmetry.
  destruct (sent_append_lookup v L next req i e HL Hs HbLn Hi) as [[Hlt Hvi]|[Hge HLi]];
    destruct (sent_append_lookup v L next req j ej HL Hs HbLn Hej) as [[Hlt' Hvj]|[Hge' HLj]].
  - rewrite <- (Hvw i e e' Hbi Hvi Hw Ht j Hj). done.
  - destruct Hlt as [?|He]; [lia|]. rewrite He in Hej. cbn in Hej.
    rewrite <- (Hvw i e e' Hbi Hvi Hw Ht j Hj). done.
  - rewrite <- (HLw i e e' Hbi HLi Hw Ht j Hj).
    destruct Hlt' as [?|He]; [rewrite <- Hagree by lia; done|].
    rewrite He in Hi. cbn in Hi.
    destruct (N.lt_ge_cases j next); [rewrite <- Hagree by lia; done|].
    rewrite <- (Hm i e e ltac:(done) Hi HLi eq_refl j Hj). done.
  - rewrite <- (HLw i e e' Hbi HLi Hw Ht j Hj). done.
Qed.

Lemma appended_agrees b v L next req :
  wf_view v -> wf_view L -> lv_base v <= b -> lv_base L <= b ->
  logs_match b v L -> sent_from L next req -> 1 <= next -> lv_base L < next ->
  next <= lv_last L + 1 -> lv_base v <= next - 1 -> prev_matches v req = true ->
  forall j, b < j < next + nlen (new_entries req) ->
    lv_log (spec_append v (new_entries req)) !! j = lv_log L !! j.
Proof.
  intros Hv HL Hbv HbL Hm Hs H1 HbLn Hn Hbn Hok j Hj.
  pose proof (prev_agrees b v L next req Hv HL Hbv HbL Hm Hs Hn Hbn Hok) as Hagree.
  pose proof (fo_contiguous _ _ (sent_follows v L next req HL Hs H1 Hn HbLn Hbn)) as Hc.
  rewrite (sf_prev _ _ _ Hs) in Hc. replace (next - 1 + 1) with next in Hc by lia.
  pose proof (sf_entries _ _ _ Hs) as He.
  destruct (new_entries req) as [|e es]; [cbn; apply Hagree; rewrite nlen_nil in Hj; lia|].
  pose proof (proj1 (contiguous_cons _ _ _) Hc) as [H0 _].
  rewrite spec_append_lookup, H0. destruct (N.ltb_spec j next); [apply Hagree; lia|].
  assert (is_Some ((e :: es) !! N.to_nat (j - next))) as [e' He'].
  { apply lookup_lt_is_Some. unfold nlen in Hj. lia. }
  rewrite He'. pose proof (prefix_lookup_Some _ _ _ _ He' He) as Hr.
  rewrite lookup_log_range in Hr.
  - case_match; [|done]. by replace (next + N.of_nat (N.to_nat (j - next))) with j in Hr by lia.
  - intros k Hk. apply (wf_dom L HL). lia.
Qed.

Section exchange.
Context {prof : BuildProfile} {St : Type}
  `{HS : Storage St, HL : !LogStorage St, HD : !DurableStorage St}.
Implicit Types n m : RaftNodeInner St.

(** Log Matching: take a request sent from the log [L] of a leader (by
    [replicate_to_spec], what leaders send), and a follower whose log matches
    [L]: where both have an entry of the same index and term, they are equal up
    to it. However the request arrives (late, twice, out of order), the
    follower's log still matches [L] after it, and still matches every third
    log that matched both; and if the answer is a success, it equals [L] up to
    the last entry sent. Indices at or below the floor [b] are those a
    snapshot may have replaced. *)
Theorem append_entries_log_matching b n L next req
    (Hn : log_ok n) (Hp : persisted n) (HwL : wf_view L)
    (Hbn : lv_base (log n) <= b) (HbL : lv_base L <= b)
    (Hm : logs_match b (log n) L) (Hs : sent_from L next req)
    (H1 : 1 <= next) (Hnext : lv_base L < next <= lv_last L + 1)
    (Hbase : lv_base (log n) <= next - 1) :
  exists n' r, on_append_entries req n = (Done (Ok r), n') /\
    logs_match b (log n') L /\
    (forall w, logs_match b (log n) w -> logs_match b L w -> logs_match b (log n') w) /\
    (aer_success r = true ->
       forall j, b < j < next + nlen (new_entries req) ->
         lv_log (log n') !! j = lv_log L !! j).
Proof.
  pose proof (log_wf_view _ Hn) as Hv. fold (log n) in Hv. destruct Hnext as [HbLn Hnl].
  pose proof (sent_follows (log n) L next req HwL Hs H1 Hnl HbLn Hbase) as Hf.
  destruct (on_append_entries_run n req Hn Hp Hf)
    as (n' & r & Hr & _ & _ & _ & _ & Hcases).
  exists n', r. split; [done|]. case_match.
  { destruct Hcases as [-> ->]. by repeat split. }
  destruct (prev_matches (log n) req) eqn:Hok.
  - destruct Hcases as (-> & -> & _). split; [|split].
    + apply (append_keeps_match b _ L L next req); try done.
    + intros w Hvw HLw. by apply (append_keeps_match b _ L w next req).
    + intros _. by apply (appended_agrees b _ L next req).
  - destruct Hcases as ((ci & ct & -> & _) & -> & _). by repeat split.
Qed.

End exchange.

Section examples.
Local Existing Instance dev_profile.

(** Node 1 as the leader of term 3, peer 2 to be sent entry 5. *)
Definition ex_leader : RaftNodeInner MemStorageInner :=
  set_sm (MkSM 3 (Some 1) Leader 3 3 (Some 1) {[2 := MkProgress 5 4 false]} ∅) ex_node.

Lemma ex_leader_ok : log_ok (H0 := MemStorage_log) ex_leader.
Proof. by_compute. Qed.

Lemma replicate_to_spec_witness :
  exists req, (replicate_to 2 ex_leader).2 =
      set_effects [SpawnAppendEntries 2 req (4 + nlen (ae_entries req))] ex_leader /\
    ae_prev_log_index req = 4.
Proof.
  destruct (replicate_to_spec (HL := MemStorage_log) ex_leader 2 (MkProgress 5 4 false)
              ex_leader_ok ltac:(reflexivity) ltac:(by_compute) ltac:(by_compute)
              ltac:(by_compute)) as (e & Hr & He).
  unfold replication in He.
  change (next_index (MkProgress 5 4 false) <? lv_base (log ex_leader) + 1) with false in He.
  destruct He as (req & -> & _ & _ & _ & Hs). exists req. rewrite Hr.
  split; [reflexivity|]. exact (sf_prev _ _ _ Hs).
Defined.

(** A leader's log with one more entry than the follower's, and the request
    for it. *)
Definition ex_log : LogView :=
  mem_view (MkMem HardState_default
    [ex_entry 2 4 [x61; x62]; ex_entry 2 5 [x63]; ex_entry 3 6 [x65]] (Some (ex_snapshot 3 1))).
Definition ex_next : AppendEntriesRequest :=
  MkAppendEntriesRequest 3 2 5 2 [log_entry_to_proto_entry (ex_entry 3 6 [x65])] 3.

Lemma ex_log_wf : wf_view ex_log.
Proof. apply mem_wf_wf_view. by_compute. Qed.

Lemma ex_next_sent : sent_from ex_log 6 ex_next.
Proof. split; [reflexivity|reflexivity|by exists []|done]. Qed.

Lemma ex_logs_match : logs_match 3 (log (H0 := MemStorage_log) ex_node) ex_log.
Proof.
  intros i e e' Hi He He' _ j Hj.
  assert (lv_base (log (H0 := MemStorage_log) ex_node) < i <=
          lv_last (log (H0 := MemStorage_log) ex_node)) as Hr.
  { apply (wf_dom _ (log_wf_view _ ex_node_ok)). by exists e. }
  change (lv_last (log ex_node)) with 5 in Hr.
  assert (j = 4 \/ j = 5) as [->| ->] by lia; vm_compute; reflexivity.
Qed.

Lemma append_entries_log_matching_witness :
  exists n' r, on_append_entries ex_next ex_node = (Done (Ok r), n') /\
    logs_match 3 (log (H0 := MemStorage_log) n') ex_log.
Proof.
  destruct (append_entries_log_matching (HL := MemStorage_log) (HD := MemStorage_durable)
              3 ex_node ex_log 6 ex_next ex_node_ok ex_node_persisted ex_log_wf
              ltac:(by_compute) ltac:(by_compute) ex_logs_match ex_next_sent ltac:(by_compute)
              ltac:(by_compute) ltac:(by_compute)) as (n' & r & Hr & Hm & _).
  by exists n', r.
Defined.

End examples.
