(* ===== verification/Commit.v ===== *)
(** * Committing and applying

    [RaftNodeInner::maybe_advance_commit] and [apply_committed] over a backend
    that keeps the laws of [Storage]: the commit rule on the stored log, its equivalence
    with [RaftStateMachine::maybe_commit], the answers to pending proposals, and
    what is handed to the application. *)

From Stdlib Require Import Lia Init.Byte.
From stdpp Require Import base numbers list option gmap sets fin_maps strings.
From S2P Require Import Prelude.
From S2P Require Import Core.
From S2P Require Import Proto.
From S2P Require Import Storage.
From S2P Require Import MemStorage.
From S2P Require Import StateMachine.
From S2P Require Import Node.
From S2P Require Import Handlers.
From S2P Require Import Votes.
From S2P Require Import NodeLog.
From S2P Require Import RequestVote.
From S2P Require Import AppendEntries.

(** The term function of a log, for the commit rule. *)
Definition term_fn (v : LogView) (i : LogIndex) : option Term :=
  match spec_term v i with Ok t => Some t | Err _ => None end.

Definition move_commit (o : option LogIndex) (s : RaftStateMachine) : RaftStateMachine :=
  match o with Some c => set_commit_index c s | None => s end.

(** The answers to the proposals at or below [commit], in order. *)
Definition answered (commit : LogIndex) (ps : list (LogIndex * Sender)) : list Effect :=
  (fun p => ProposalReply p.2 (Ok p.1)) <$> filter (fun p => p.1 <= commit) ps.

(** The proposals that wait on. *)
Definition waiting (commit : LogIndex) (ps : list (LogIndex * Sender)) :
    list (LogIndex * Sender) :=
  filter (fun p => ~ p.1 <= commit) ps.

Section commit.
Context {prof : BuildProfile} {St : Type}
  `{HS : Storage St, HL : !LogStorage St, HD : !DurableStorage St}.
Implicit Types n : RaftNodeInner St.

(** The rule of the node's scan, where a missing term counts as 0. *)
Definition node_committable n (i : LogIndex) : Prop :=
  committable (quorum (config n)) (current_term (sm n)) (fun j => Some (term_at (log n) j))
    (progress (sm n)) i.

Lemma scan_commit_run fuel i n :
  log_ok n -> (N.to_nat (i - commit_index (sm n)) <= fuel)%nat ->
  exists o, scan_commit fuel (quorum (config n)) (current_term (sm n)) i n = (Done o, n) /\
    greatest_in (commit_index (sm n)) i (node_committable n) o.
Proof.
  intros Hn. revert i. induction fuel as [|fuel IH]; intros i Hf; cbn [scan_commit].
  { exists None. split; [done|]. intros m Hm. lia. }
  unfold bind at 1, get_sm at 1, gets at 1.
  destruct (N.leb_spec i (commit_index (sm n))) as [Hle|Hlt].
  { exists None. split; [done|]. intros m Hm. lia. }
  unfold bind at 1. rewrite term_or_0_run by done. fold (term_at (log n) i).
  unfold bind at 1, get_sm at 1, gets at 1.
  destruct (IH (i - 1) ltac:(lia)) as (o & Ho & Hg). case_match eqn:Hc.
  - apply andb_true_iff in Hc as [Ht Hq]. apply N.eqb_eq in Ht. apply N.leb_le in Hq.
    exists (Some i). split; [done|]. split; [lia|]. split; [|lia].
    split; [by rewrite Ht|done].
  - exists o. split; [done|]. apply greatest_in_step; [|done]. intros [[= Ht] Hq].
    apply andb_false_iff in Hc as [Hc|Hc]; [by apply N.eqb_neq in Hc|].
    apply N.leb_gt in Hc. lia.
Qed.

Lemma notify_pending_run commit old n :
  notify_pending commit old n =
    (Done tt, set_pending (pending n ++ waiting commit old)
                (set_effects (effects n ++ answered commit old) n)).
Proof.
  revert n. induction old as [|[idx tx] old IH]; intros n; cbn [notify_pending].
  { unfold waiting, answered. cbn. rewrite !app_nil_r. by destruct n. }
  unfold bind at 1. unfold waiting, answered in *.
  destruct (N.leb_spec idx commit) as [Hle|Hgt]; unfold emit, modify; rewrite IH.
  - rewrite filter_cons_False, filter_cons_True by (cbn; tauto). cbn.
    by rewrite <- app_assoc.
  - rewrite filter_cons_True, filter_cons_False by (cbn; lia). cbn.
    by rewrite <- app_assoc.
Qed.

(** The metrics a move of the commit index sets. *)
Definition commit_effects n (o : option LogIndex) : list Effect :=
  match o with
  | Some c => [MetricSet current_term_gauge (u64_as_i64 (current_term (sm n)));
               MetricInc entries_committed (c - last_applied (sm n));
               MetricSet commit_index_gauge (u64_as_i64 c)]
  | None => []
  end.

Lemma move_commit_run o n :
  log_ok n -> persisted n -> last_applied (sm n) <= commit_index (sm n) ->
  match o with Some c => commit_index (sm n) < c | None => True end ->
  let new_commit := default (commit_index (sm n)) o in
  exists n',
    when (commit_index (sm n) <? new_commit)
      (upd_sm (set_commit_index new_commit) ;;;
       save_hard_state ;;;
       let* la := get_sm last_applied in
       let* d := u64_sub new_commit la in
       emit (MetricInc entries_committed d) ;;;
       emit (MetricSet commit_index_gauge (u64_as_i64 new_commit))) n = (Done tt, n') /\
    sm n' = move_commit o (sm n) /\ persisted n' /\ log_ok n' /\ log n' = log n /\
    config n' = config n /\ pending n' = pending n /\
    effects n' = effects n ++ commit_effects n o.
Proof.
  intros Hn Hp Hla Ho. destruct o as [c|]; cbn.
  - rewrite (proj2 (N.ltb_lt _ _)) by done. cbn [when].
    unfold bind at 1, upd_sm at 1, modify at 1. set (n1 := set_sm _ n).
    unfold bind at 1. destruct (save_run n1 Hn) as (s' & -> & Hs & Hv & Hd).
    unfold bind at 1, get_sm at 1, gets at 1. rewrite u64_sub_small by (cbn; lia).
    eexists. split; [reflexivity|]. cbn. rewrite <- !app_assoc. by repeat split.
  - rewrite N.ltb_irrefl. exists n. rewrite app_nil_r. by repeat split.
Qed.

(** The node after its commit index has moved to [o]. *)
Definition advanced n (o : option LogIndex) (n' : RaftNodeInner St) : Prop :=
  sm n' = move_commit o (sm n) /\ persisted n' /\ log_ok n' /\ log n' = log n /\
  config n' = config n /\
  pending n' = waiting (commit_index (sm n')) (pending n) /\
  effects n' = effects n ++ commit_effects n o ++
               answered (commit_index (sm n')) (pending n).

Lemma maybe_advance_commit_run n (Hn : log_ok n) (Hp : persisted n)
    (Hr : role (sm n) = Leader) (Hla : last_applied (sm n) <= commit_index (sm n)) :
  exists o n', maybe_advance_commit n = (Done tt, n') /\
    greatest_in (commit_index (sm n)) (lv_last (log n)) (node_committable n) o /\
    advanced n o n'.
Proof.
  unfold maybe_advance_commit. unfold bind at 1, get_sm at 1, gets at 1.
  rewrite bool_decide_false by (rewrite Hr; intros H; by apply H).
  unfold bind at 1. rewrite last_index_or_0_run by done.
  unfold bind at 1, gets at 1. unfold bind at 1, get_sm at 1, gets at 1.
  unfold bind at 1, get_sm at 1, gets at 1.
  destruct (scan_commit_run (N.to_nat (lv_last (log n) - commit_index (sm n)))
              (lv_last (log n)) n Hn ltac:(done)) as (o & Hscan & Hg).
  unfold bind at 1. rewrite Hscan. exists o.
  destruct (move_commit_run o n Hn Hp Hla) as (n1 & Hrun & Hs1 & Hp1 & Hn1 & Hl1 & Hc1 & Hpe1 & He1).
  { destruct o; [apply Hg|done]. }
  unfold bind at 1. rewrite Hrun. unfold bind at 1, get_sm at 1, gets at 1.
  unfold bind at 1, gets at 1. unfold bind at 1, modify at 1. rewrite notify_pending_run.
  eexists. split; [reflexivity|]. split; [exact Hg|]. split; [exact Hs1|].
  split; [exact Hp1|]. split; [exact Hn1|]. split; [exact Hl1|]. split; [exact Hc1|].
  cbn. rewrite Hpe1, He1, app_assoc. done.
Qed.

(** C19. The commit rule on the stored log: a leader's [maybe_advance_commit]
    ends; the commit index moves to the greatest index above it whose entry is
    of the leader's own term and is stored by a quorum, if there is one, and
    the move is on storage; every proposal at or below the commit index is
    answered with its index, once and in the order they came, and no other;
    those above wait on in order. Logs, term, vote and progress stay. *)
Theorem maybe_advance_commit_spec n (Hn : log_ok n) (Hp : persisted n)
    (Hr : role (sm n) = Leader) (Hla : last_applied (sm n) <= commit_index (sm n)) :
  exists o n', maybe_advance_commit n = (Done tt, n') /\
    greatest_in (commit_index (sm n)) (lv_last (log n)) (node_committable n) o /\
    advanced n o n'.
Proof. by apply maybe_advance_commit_run. Qed.

(** One commit rule: the scan in [maybe_advance_commit] and
    [RaftStateMachine::maybe_commit], run on the node's log, quorum and term,
    leave the same state machine, at any term but 0 (the node's scan takes a
    missing term for 0). *)
Theorem commit_rules_agree n (Hn : log_ok n) (Hp : persisted n)
    (Hr : role (sm n) = Leader) (Hla : last_applied (sm n) <= commit_index (sm n))
    (Ht : current_term (sm n) <> 0) :
  sm (maybe_advance_commit n).2 =
    (maybe_commit (quorum (config n)) (lv_last (log n)) (current_term (sm n))
       (term_fn (log n)) (sm n)).2.
Proof.
  destruct (maybe_advance_commit_run n Hn Hp Hr Hla) as (o & n' & -> & Hg & Hs & _).
  destruct (maybe_commit_loop_spec
              (N.to_nat (lv_last (log n) - commit_index (sm n)))
              (quorum (config n)) (current_term (sm n)) (term_fn (log n)) (lv_last (log n)) (sm n)
              ltac:(done)) as (o' & Hm & Hg').
  unfold maybe_commit, bind, gets. rewrite Hm. cbn [snd]. rewrite Hs.
  rewrite (greatest_in_unique (commit_index (sm n)) (lv_last (log n)) (node_committable n)
             o o'); [by destruct o'|done|].
  assert (forall i, committable (quorum (config n)) (current_term (sm n)) (term_fn (log n))
            (progress (sm n)) i <-> node_committable n i) as Heq.
  { intros i. unfold node_committable, committable, term_fn, term_at, unwrap_or.
    destruct (spec_term (log n) i); [done|]. split; intros [[=] _]. done. }
  unfold greatest_in in *. destruct o' as [c|].
  - destruct Hg' as (? & ? & Hno). split; [done|]. split; [by apply Heq|].
    intros m Hm' Hc. by apply (Hno m Hm'), Heq.
  - intros m Hm' Hc. by apply (Hg' m Hm'), Heq.
Qed.

(** ** Applying *)

(** The entries after the last applied one, up to the commit index. *)
Definition to_apply n : list LogEntry :=
  log_range (lv_log (log n)) (last_applied (sm n) + 1)
    (N.to_nat (commit_index (sm n) - last_applied (sm n))).

Lemma apply_loop es n :
  for_each es (fun entry => emit (ApplyEntry entry) ;;;
                            upd_sm (set_last_applied (le_index entry))) n =
    (Done tt, set_sm (match last es with
                      | Some e => set_last_applied (le_index e) (sm n)
                      | None => sm n
                      end) (set_effects (effects n ++ map ApplyEntry es) n)).
Proof.
  revert n. induction es as [|e es IH]; intros n; cbn [for_each map].
  { cbn. rewrite app_nil_r. by destruct n. }
  unfold bind, emit, upd_sm, modify in *. rewrite IH. cbn. rewrite <- app_assoc.
  destruct es as [|e' es]; [done|]. rewrite last_cons_cons.
  destruct (last (e' :: es)) eqn:Hl; [done|]. by apply last_None in Hl.
Qed.

Lemma apply_committed_run n (Hn : log_ok n)
    (Hb : lv_base (log n) <= last_applied (sm n))
    (Hla : last_applied (sm n) <= commit_index (sm n))
    (Hci : commit_index (sm n) <= lv_last (log n)) :
  apply_committed n =
    (Done tt, set_sm (set_last_applied (commit_index (sm n)) (sm n))
                (set_effects (effects n ++ map ApplyEntry (to_apply n)) n)) /\
  nlen (to_apply n) = commit_index (sm n) - last_applied (sm n) /\
  forall k e, to_apply n !! k = Some e <->
    lv_log (log n) !! (last_applied (sm n) + 1 + N.of_nat k) = Some e /\
    last_applied (sm n) + 1 + N.of_nat k <= commit_index (sm n).
Proof.
  pose proof (log_wf_view _ Hn) as Hv. fold (log n) in Hv.
  pose proof (wf_bound _ Hv) as Hu. unfold u64 in Hu.
  unfold to_apply. set (la := last_applied (sm n)) in *. set (ci := commit_index (sm n)) in *.
  set (es := log_range (lv_log (log n)) (la + 1) (N.to_nat (ci - la))).
  assert (forall i, la + 1 <= i < la + 1 + N.of_nat (N.to_nat (ci - la)) ->
                    is_Some (lv_log (log n) !! i)) as Hdom
    by (intros i Hi; apply (wf_dom _ Hv); lia).
  assert (length es = N.to_nat (ci - la)) as Hlen by by apply length_log_range.
  split; [|split].
  - unfold apply_committed. unfold bind at 1, get_sm at 1, gets at 1. fold la.
    rewrite u64_add_small by (unfold u64; lia). unfold bind at 1, ret at 1.
    unfold bind at 1, get_sm at 1, gets at 1. fold ci.
    destruct (N.ltb_spec ci (la + 1)) as [Hle|Hgt].
    { assert (es = []) as -> by (apply length_zero_iff_nil; lia).
      cbn. rewrite app_nil_r. assert (ci = la) as -> by lia. unfold la, set_last_applied.
      by destruct n as [[] ? ? ? ? ?]. }
    rewrite u64_add_small by (unfold u64; lia). unfold bind at 1, ret at 1.
    unfold bind at 1. destruct (entries_run (la + 1) (ci + 1) None n Hn) as (r & -> & Hr).
    unfold spec_entries in Hr. rewrite (proj2 (N.ltb_ge _ _)), (proj2 (N.ltb_ge _ _)) in Hr by lia.
    destruct Hr as (es' & -> & _ & _ & Hall). rewrite (Hall eq_refl).
    replace (ci + 1 - (la + 1)) with (ci - la) by lia. fold es. rewrite apply_loop.
    do 3 f_equal. assert (is_Some (last es)) as [e He] by (apply last_is_Some; intros H0;
      rewrite H0 in Hlen; cbn in Hlen; lia).
    rewrite He. f_equal. rewrite last_lookup, Hlen in He. unfold es in He.
    rewrite lookup_log_range in He by done.
    case_match; [|done]. apply (wf_index _ Hv) in He. lia.
  - unfold nlen. rewrite Hlen. lia.
  - intros k e. unfold es. rewrite lookup_log_range by done.
    destruct (Nat.ltb_spec k (N.to_nat (ci - la))); split; [intros ->; split; [done|lia]|
      by intros [-> _]|done|lia].
Qed.

(** Applying: what [apply_committed] hands to the application is exactly
    the entries of the log after the last applied one, up to the commit index,
    each once and in order, and they are then the applied ones. *)
Theorem apply_committed_spec n (Hn : log_ok n)
    (Hb : lv_base (log n) <= last_applied (sm n))
    (Hla : last_applied (sm n) <= commit_index (sm n))
    (Hci : commit_index (sm n) <= lv_last (log n)) :
  apply_committed n =
    (Done tt, set_sm (set_last_applied (commit_index (sm n)) (sm n))
                (set_effects (effects n ++ map ApplyEntry (to_apply n)) n)) /\
  nlen (to_apply n) = commit_index (sm n) - last_applied (sm n) /\
  forall k e, to_apply n !! k = Some e <->
    lv_log (log n) !! (last_applied (sm n) + 1 + N.of_nat k) = Some e /\
    last_applied (sm n) + 1 + N.of_nat k <= commit_index (sm n).
Proof. by apply apply_committed_run. Qed.
End commit.

(** ** Who applies *)

(** The entries a node handed to its application, in order. *)
Definition handed_over {St} (n : RaftNodeInner St) : list Effect :=
  filter (fun e => hands_over e = true) (effects n).

Lemma handed_over_emit {St} e (n : RaftNodeInner St) :
  hands_over e = false -> handed_over (set_effects (effects n ++ [e]) n) = handed_over n.
Proof.
  intros He. unfold handed_over. cbn.
  by rewrite filter_app, filter_cons_False, filter_nil, app_nil_r by congruence.
Qed.

Lemma elem_of_handed_over {St} e (n : RaftNodeInner St) :
  ApplyEntry e ∈ handed_over n <-> ApplyEntry e ∈ effects n.
Proof. unfold handed_over. rewrite list_elem_of_filter. cbn. tauto. Qed.

#[export] Instance frame_handed_over {St} `{Storage St} : Frame (handed_over (St := St)).
Proof. split; try done. intros e n _ He. by apply handed_over_emit. Qed.
#[export] Instance role_frame_handed_over {St} : RoleFrame (handed_over (St := St)).
Proof. done. Qed.

Section applies.
Context {prof : BuildProfile} {St : Type} `{Storage St}.
Implicit Types n : RaftNodeInner St.

Lemma maybe_advance_keeps_handed : keeps (handed_over (St := St)) maybe_advance_commit.
Proof.
  unfold maybe_advance_commit, save_hard_state. node_keeps.
Qed.

Lemma handle_keeps_handed i n : i <> InHeartbeat -> handed_over (handle i n).2 = handed_over n.
Proof.
  intros Hi. match goal with |- handed_over (?m n).2 = _ =>
    enough (keeps handed_over m) as Hk by apply Hk end.
  destruct i as [| | |[]| | |]; cbn [handle dispatch]; try done;
    unfold on_append_entries, on_request_vote, on_install_snapshot, handle_vote_response,
      handle_append_response, handle_snapshot_response, start_election,
      maybe_advance_commit, restart, start_again, restore_hard_state, step_down, save_hard_state;
    node_keeps; apply keeps_modify; intros; by apply handed_over_emit.
Qed.

(** Only heartbeats apply: no RPC, message, response, election or restart
    hands an entry to the application, with any backend and however the
    handler ends; in particular a follower that learns from AppendEntries
    that entries are committed does not apply them. *)
Theorem only_heartbeats_apply i n (Hi : i <> InHeartbeat) :
  handed_over (handle i n).2 = handed_over n.
Proof. by apply handle_keeps_handed. Qed.
End applies.

Section examples.
Local Existing Instance dev_profile.

(** Node 1 leads term 2 with peers 2 and 3; peer 2 stores entries 4 and 5; a
    proposal waits for each. *)
Definition ex_committing : RaftNodeInner MemStorageInner :=
  MkNode (MkSM 2 (Some 1) Leader 3 3 (Some 1)
            {[2 := MkProgress 6 5 false; 3 := MkProgress 4 0 false]} ∅) ex_config
    (MkMem (MkHardState 2 1 3) (mem_entries ex_mem) (mem_snapshot ex_mem))
    [(4, 10); (5, 11); (6, 12)] None [].

Lemma ex_committing_ok : log_ok (H0 := MemStorage_log) ex_committing.
Proof. by_compute. Qed.

Lemma maybe_advance_commit_spec_witness :
  exists n', maybe_advance_commit ex_committing = (Done tt, n') /\
    commit_index (sm n') = 5 /\ pending n' = [(6, 12)].
Proof.
  destruct (maybe_advance_commit_spec (HL := MemStorage_log) (HD := MemStorage_durable)
              ex_committing ex_committing_ok ltac:(reflexivity) ltac:(reflexivity)
              ltac:(by_compute)) as (o & n' & Hr & Hg & Hs & _ & _ & _ & _ & Hp & _).
  exists n'. split; [exact Hr|].
  assert (o = Some 5) as ->.
  { apply (greatest_in_unique 3 5 (node_committable (HL := MemStorage_log) ex_committing));
      [exact Hg|].
    split; [by_compute|]. split; [split; [reflexivity|by_compute]|]. intros m Hm. lia. }
  rewrite Hp, Hs. split; reflexivity.
Defined.

Lemma commit_rules_agree_witness :
  sm (maybe_advance_commit ex_committing).2 =
    (maybe_commit 2 5 2 (term_fn (log (H0 := MemStorage_log) ex_committing))
       (sm ex_committing)).2.
Proof.
  apply (commit_rules_agree (HL := MemStorage_log) (HD := MemStorage_durable) ex_committing
           ex_committing_ok); [reflexivity|reflexivity|by_compute|discriminate].
Defined.

Definition ex_applying : RaftNodeInner MemStorageInner :=
  set_sm (set_commit_index 5 (sm ex_committing)) ex_committing.

Lemma apply_committed_spec_witness :
  apply_committed ex_applying =
    (Done tt, set_sm (set_last_applied 5 (sm ex_applying))
                (set_effects [ApplyEntry (ex_entry 2 4 [x61; x62]); ApplyEntry (ex_entry 2 5 [x63])]
                   ex_applying)).
Proof.
  destruct (apply_committed_spec (HL := MemStorage_log) ex_applying ltac:(by_compute)
              ltac:(by_compute) ltac:(by_compute) ltac:(by_compute)) as (Hr & _).
  exact Hr.
Defined.

Lemma only_heartbeats_apply_witness :
  handed_over (handle (InAppendEntries ex_append) ex_node).2 = [].
Proof. rewrite (only_heartbeats_apply (InAppendEntries ex_append)); [reflexivity|discriminate]. Defined.
End examples.
