(* ===== verification/Progress.v ===== *)
(** * A leader's view of its peers

    The per-peer progress of [RaftStateMachine] under every input: the next index
    stays at least 1, so that [next_index - 1] never underflows and
    [Replication.replicate_to_spec] applies; and what a response does to it: a
    success moves it past the entries sent, a rejection moves it back. *)

From Stdlib Require Import Lia Init.Byte.
From stdpp Require Import base numbers list option gmap sets fin_maps strings.
From S2P Require Import Prelude.
From S2P Require Import Core.
From S2P Require Import Proto.
From S2P Require Import Storage.
From S2P Require Import MemStorage.
From S2P Require Import StateMachine.
From S2P Require Import Node.
From S2P Require Import Handlers.
From S2P Require Import Votes.
From S2P Require Import NodeLog.
From S2P Require Import Election.
From S2P Require Import RequestVote.
From S2P Require Import AppendEntries.
From S2P Require Import Replication.
From S2P Require Import Commit.

Definition peer_progress {St} (n : RaftNodeInner St) : gmap NodeId Progress := progress (sm n).

(** The next index is at least 1, and the match index can be incremented. *)
Definition peer_ok (p : Progress) : Prop :=
  1 <= next_index p /\ u64 (next_index p) /\ u64 (match_index p + 1).
Definition progress_ok {St} (n : RaftNodeInner St) : Prop :=
  map_Forall (fun _ => peer_ok) (peer_progress n).

(** Numbers of the wire are 64-bit; a response is to a request whose last index
    can be incremented. *)
Definition bounded (i : Input) : Prop :=
  match i with
  | InMessage (AppendResponse _ li r) => u64 (li + 1) /\ u64 (aer_conflict_index r)
  | InMessage (SnapshotResponse _ li _) => u64 (li + 1)
  | _ => True
  end.

Section keeps.
Context {prof : BuildProfile} {St : Type} `{HS : Storage St}.
Implicit Types n : RaftNodeInner St.

Lemma on_storage_keeps_progress {A} (m : M St A) : keeps peer_progress (on_storage m).
Proof. by apply keeps_zoom. Qed.
Hint Resolve on_storage_keeps_progress : keeps.

Lemma save_keeps_progress : keeps (peer_progress (St := St)) save_hard_state.
Proof. unfold save_hard_state. node_keeps. Qed.
Lemma search_keeps_progress fuel t lo hi :
  keeps (peer_progress (St := St)) (search_term fuel t lo hi).
Proof. revert lo hi. induction fuel; intros; cbn [search_term]; node_keeps. Qed.
Lemma scan_keeps_progress fuel q t i :
  keeps (peer_progress (St := St)) (scan_commit fuel q t i).
Proof. revert i. induction fuel; intros; cbn [scan_commit]; node_keeps. Qed.
Lemma notify_keeps_progress c l : keeps (peer_progress (St := St)) (notify_pending c l).
Proof. induction l as [|[]]; cbn [notify_pending]; node_keeps. Qed.
Hint Resolve save_keeps_progress search_keeps_progress scan_keeps_progress
  notify_keeps_progress : keeps.
Lemma maybe_advance_keeps_progress : keeps (peer_progress (St := St)) maybe_advance_commit.
Proof. unfold maybe_advance_commit. node_keeps. Qed.
Lemma check_prev_keeps_progress req : keeps (peer_progress (St := St)) (check_prev req).
Proof. unfold check_prev, first_index_of_term. node_keeps. Qed.
Lemma replicate_to_keeps_progress p : keeps (peer_progress (St := St)) (replicate_to p).
Proof. unfold replicate_to, send_snapshot_to. node_keeps. Qed.
Hint Resolve maybe_advance_keeps_progress check_prev_keeps_progress
  replicate_to_keeps_progress : keeps.
Lemma replicate_all_keeps_progress : keeps (peer_progress (St := St)) replicate_all.
Proof. unfold replicate_all. node_keeps. Qed.
Lemma apply_keeps_progress : keeps (peer_progress (St := St)) apply_committed.
Proof. unfold apply_committed. node_keeps. Qed.
Lemma on_proposal_keeps_progress p : keeps (peer_progress (St := St)) (on_proposal p).
Proof. pose proof replicate_all_keeps_progress. unfold on_proposal. node_keeps. Qed.

Lemma progress_preserves {A} (m : M (RaftNodeInner St) A) :
  keeps peer_progress m -> preserves progress_ok m.
Proof. intros Hk n Hn. unfold progress_ok. by rewrite Hk. Qed.

Lemma step_down_progress t l n : peer_progress (step_down t l n).2 = ∅.
Proof. unfold step_down. by rewrite (keeps_after peer_progress) by auto with keeps. Qed.

Lemma step_down_progress_ok t l : establishes progress_ok (step_down t l).
Proof. intros n. unfold progress_ok. rewrite step_down_progress. apply map_Forall_empty. Qed.

Lemma insert_progress_ok n peer p :
  progress_ok n -> peer_ok p -> map_Forall (fun _ => peer_ok) (<[peer := p]> (peer_progress n)).
Proof. intros Hn Hp. by apply map_Forall_insert_2. Qed.
End keeps.

#[export] Hint Resolve on_storage_keeps_progress save_keeps_progress
  maybe_advance_keeps_progress check_prev_keeps_progress replicate_to_keeps_progress
  replicate_all_keeps_progress apply_keeps_progress on_proposal_keeps_progress : keeps.

Section responses.
Context {prof : BuildProfile} {St : Type} `{HS : Storage St}.
Implicit Types n : RaftNodeInner St.

(** The progress after a successful response: everything up to [li] is
    stored. *)
Definition matched (p : Progress) (li : LogIndex) : Progress :=
  let m := N.max (match_index p) li in MkProgress (m + 1) m false.

(** The progress after a rejection. *)
Definition backed_off (p : Progress) (conflict : LogIndex) : Progress :=
  MkProgress (if 0 <? conflict then conflict else N.max (next_index p - 1) 1)
    (match_index p) (in_flight p).

Lemma record_match_run peer p li n :
  u64 (match_index p + 1) -> u64 (li + 1) ->
  record_match peer p li n =
    (Done tt, set_sm (set_progress (<[peer := matched p li]> (progress (sm n))) (sm n)) n).
Proof.
  intros Hm Hl. unfold record_match, set_peer_progress, upd_sm, bind, modify.
  rewrite u64_add_small by (unfold u64 in *; lia). unfold ret. cbn.
  unfold set_progress, set_sm, matched. cbn. rewrite insert_insert_eq. done.
Qed.

Lemma record_match_progress_ok peer p li n :
  progress_ok n -> progress (sm n) !! peer = Some p -> u64 (li + 1) ->
  progress_ok (record_match peer p li n).2.
Proof.
  intros Hn Hp Hl. destruct (Hn peer p Hp) as (Hp1 & Hp2 & Hm).
  rewrite record_match_run by done. unfold progress_ok. cbn.
  apply insert_progress_ok; [done|]. unfold peer_ok, u64 in *. cbn. lia.
Qed.

Lemma handle_append_response_progress_ok peer li resp n :
  progress_ok n -> u64 (li + 1) -> u64 (aer_conflict_index resp) ->
  progress_ok (handle_append_response peer li resp n).2.
Proof.
  intros Hn Hl Hcu. unfold handle_append_response. unfold bind at 1, get_sm at 1, gets at 1.
  case_match; [apply step_down_progress_ok|]. unfold bind at 1, get_sm at 1, gets at 1.
  case_match; [done|]. unfold bind at 1, get_sm at 1, gets at 1.
  unfold progress_ok. rewrite (keeps_after peer_progress) by auto with keeps.
  destruct (progress (sm n) !! peer) as [p|] eqn:Hp; [|done].
  case_match; [by apply record_match_progress_ok|].
  destruct (Hn peer p Hp) as (Hp1 & Hp2 & Hm). apply insert_progress_ok; [done|].
  unfold peer_ok, u64 in *. cbn.
  destruct (N.ltb_spec 0 (aer_conflict_index resp)); lia.
Qed.

Lemma handle_snapshot_response_progress_ok peer li resp n :
  progress_ok n -> u64 (li + 1) -> progress_ok (handle_snapshot_response peer li resp n).2.
Proof.
  intros Hn Hl. unfold handle_snapshot_response. unfold bind at 1, get_sm at 1, gets at 1.
  case_match; [apply step_down_progress_ok|]. unfold bind at 1, get_sm at 1, gets at 1.
  case_match; [done|]. unfold bind at 1, get_sm at 1, gets at 1.
  unfold progress_ok. rewrite (keeps_after peer_progress) by auto with keeps.
  destruct (progress (sm n) !! peer) as [p|] eqn:Hp; [|done].
  by apply record_match_progress_ok.
Qed.

Lemma fresh_progress last ps s :
  u64 (last + 1) ->
  map_Forall (fun _ => peer_ok) (progress s) ->
  map_Forall (fun _ => peer_ok)
    (progress (for_each ps (fun peer =>
       let* next := u64_add last 1 in
       modify (fun s => set_progress (<[peer := Progress_new next]> (progress s)) s)) s).2).
Proof.
  intros Hl. rewrite u64_add_small by done. revert s.
  induction ps as [|peer ps IH]; intros s Hs; cbn [for_each]; [done|].
  unfold bind at 1. apply IH. cbn. apply map_Forall_insert_2; [|done].
  unfold peer_ok, u64 in *. cbn. lia.
Qed.
End responses.

Section all.
Context {prof : BuildProfile} {St : Type}
  `{HS : Storage St, HL : !LogStorage St, HD : !DurableStorage St}.
Implicit Types n : RaftNodeInner St.

Lemma win_election_progress_ok n : log_ok n -> progress_ok (win_election n).2.
Proof.
  intros Hn. pose proof (wf_bound _ (log_wf_view _ Hn)) as Hu. unfold u64 in Hu.
  unfold win_election. unfold bind at 1, gets at 1. unfold bind at 1.
  rewrite last_index_or_0_run by done. unfold progress_ok.
  rewrite (keeps_after peer_progress).
  - unfold peer_progress, on_sm, zoom, become_leader. cbn [fst snd sm set_sm].
    unfold bind at 1, modify at 1. apply fresh_progress; [|apply map_Forall_empty].
    unfold log in *. unfold u64. lia.
  - node_keeps.
Qed.

Lemma handle_vote_response_progress_ok peer resp n :
  log_ok n -> progress_ok n -> progress_ok (handle_vote_response peer resp n).2.
Proof.
  intros Hl Hn. unfold handle_vote_response. unfold bind at 1, get_sm at 1, gets at 1.
  case_match; [apply step_down_progress_ok|]. unfold bind at 1, get_sm at 1, gets at 1.
  case_match; [|done]. unfold bind at 1, upd_sm at 1, modify at 1.
  unfold bind at 1, gets at 1. unfold bind at 1, get_sm at 1, gets at 1.
  case_match; [by apply win_election_progress_ok|done].
Qed.

(** The progress stays well formed under every input: RPCs and rejections with
    any content, elections, restarts, and responses to requests whose last index
    can be incremented. *)
Lemma handle_progress_ok i n (Hl : log_ok n) (Ha : admissible n i) (Hb : bounded i)
    (Hn : progress_ok n) :
  progress_ok (handle i n).2.
Proof.
  destruct i as [req|req|req|msg| | |]; cbn [handle]; rewrite ?after_reply, ?after_no_reply.
  - unfold on_append_entries. unfold bind at 1, get_sm at 1, gets at 1. unfold progress_ok.
    rewrite (keeps_after peer_progress) by node_keeps.
    unfold when. case_match; [apply step_down_progress_ok|done].
  - unfold on_request_vote. unfold bind at 1, get_sm at 1, gets at 1. unfold progress_ok.
    rewrite (keeps_after peer_progress) by node_keeps.
    unfold when. case_match; [apply step_down_progress_ok|done].
  - unfold on_install_snapshot. unfold bind at 1, get_sm at 1, gets at 1. unfold progress_ok.
    rewrite (keeps_after peer_progress) by node_keeps.
    unfold when. case_match; [apply step_down_progress_ok|done].
  - destruct msg; cbn [dispatch]; try done;
      [apply (progress_preserves (on_proposal p)); [apply on_proposal_keeps_progress|done]|
       destruct Hb; by apply handle_append_response_progress_ok|by apply handle_vote_response_progress_ok|
       by apply handle_snapshot_response_progress_ok].
  - destruct (decide (u64 (current_term (sm n) + 1))) as [Hu|Hu]; unfold u64 in Hu.
    + destruct (start_election_run n Hl Hu) as (n' & -> & _ & _ & _ & Hs & _). cbn [snd].
      unfold progress_ok, peer_progress. rewrite Hs. case_bool_decide; [|done].
      apply map_Forall_empty.
    + destruct Ha as [Ho|?]; [|done]. by rewrite restart_election_overflow.
  - apply (progress_preserves on_heartbeat); [|done]. unfold on_heartbeat. node_keeps.
  - rewrite restart_run. apply map_Forall_empty.
Qed.

(** From a peer at the leader's own term, a success for a request up to [li]
    records that the peer stores everything up to [li], and a rejection moves
    the next index back; nothing else of the progress changes. *)
Lemma handle_append_response_progress peer li resp p n (Hr : role (sm n) = Leader)
    (Ht : aer_term resp <= current_term (sm n)) (Hp : progress (sm n) !! peer = Some p)
    (Hm : u64 (match_index p + 1)) (Hl : u64 (li + 1)) :
  progress (sm (handle_append_response peer li resp n).2) =
    <[peer := if aer_success resp then matched p li
              else backed_off p (aer_conflict_index resp)]> (progress (sm n)).
Proof.
  fold (peer_progress (handle_append_response peer li resp n).2).
  unfold handle_append_response. unfold bind at 1, get_sm at 1, gets at 1.
  rewrite (proj2 (N.ltb_ge _ _)) by done. unfold bind at 1, get_sm at 1, gets at 1.
  rewrite bool_decide_false by (rewrite Hr; intros H; by apply H).
  unfold bind at 1, get_sm at 1, gets at 1. rewrite (keeps_after peer_progress) by auto with keeps.
  rewrite Hp. case_match; [|done]. by rewrite record_match_run.
Qed.

(** Rejections make progress: a follower whose log lacks the entry before
    the request's first (above its compaction point) answers with a conflict
    index that moves the leader's next index for it strictly down, but not
    below 1, so that after finitely many rejections the request matches or
    starts at the compaction point. *)
Theorem rejection_backs_off m n peer p req li
    (Hn : log_ok n) (Hp : persisted n) (HwL : log_ok m)
    (Hrole : role (sm m) = Leader) (Hpeer : progress (sm m) !! peer = Some p)
    (Hm : u64 (match_index p + 1)) (Hli : u64 (li + 1))
    (Hsent : sent_from (log m) (next_index p) req) (Hreq : ae_term req = current_term (sm m))
    (Hterm : current_term (sm n) <= current_term (sm m))
    (Hnext : lv_base (log m) < next_index p <= lv_last (log m) + 1)
    (Hbase : lv_base (log n) < next_index p - 1)
    (Hmis : prev_matches (log n) req = false) :
  exists n' r, on_append_entries req n = (Done (Ok r), n') /\ aer_success r = false /\
    log n' = log n /\
    let p' := backed_off p (aer_conflict_index r) in
    progress (sm (handle_append_response peer li r m).2) = <[peer := p']> (progress (sm m)) /\
    1 <= next_index p' < next_index p.
Proof.
  pose proof (log_wf_view _ Hn) as Hv. fold (log n) in Hv.
  pose proof (log_wf_view _ HwL) as HvL. fold (log m) in HvL.
  assert (follows (log n) req) as Hf by (eapply sent_follows; [done|done|lia..]).
  destruct (on_append_entries_run n req Hn Hp Hf) as (n' & r & Hr & _ & _ & _ & _ & Hcases).
  rewrite Hreq, (proj2 (N.ltb_ge _ _)), Hmis in Hcases by done.
  destruct Hcases as ((ci & ct & -> & Hrej) & Hl & _).
  eexists n', _. split; [done|]. split; [done|]. split; [done|].
  rewrite (handle_append_response_progress peer li _ p) by (done || (cbn; lia)).
  split; [done|]. cbn.
  rewrite (sf_prev _ _ _ Hsent) in Hrej.
  assert (1 <= ci < next_index p) as Hci.
  { destruct (spec_term (log n) (next_index p - 1)).
    - destruct Hrej as (_ & _ & Hs). destruct (Hs Hbase) as [? _]. lia.
    - destruct Hrej as [-> _]. lia. }
  rewrite (proj2 (N.ltb_lt _ _)) by lia. lia.
Qed.
End all.

Section examples.
Local Existing Instance dev_profile.

(** The leader's entry 5 is of term 3, and it sends what follows it. *)
Definition ex_ahead : RaftNodeInner MemStorageInner :=
  MkNode (MkSM 3 (Some 2) Leader 3 3 (Some 2) {[1 := MkProgress 6 0 false]} ∅)
    (MkRaftConfig 2 [1; 3] 100 300 600 128 10000 1024)
    (MkMem (MkHardState 3 2 3) [ex_entry 2 4 [x61; x62]; ex_entry 3 5 [x63]]
           (Some (ex_snapshot 3 1))) [] None [].
Definition ex_probe : AppendEntriesRequest := MkAppendEntriesRequest 3 2 5 3 [] 3.

Lemma rejection_backs_off_witness :
  exists n' r, on_append_entries ex_probe ex_node = (Done (Ok r), n') /\
    aer_success r = false /\
    1 <= next_index (backed_off (MkProgress 6 0 false) (aer_conflict_index r)) < 6.
Proof.
  assert (sent_from (log (H0 := MemStorage_log) ex_ahead) 6 ex_probe) as Hs.
  { split; [reflexivity|reflexivity|by exists []|]. intros Hl. exfalso.
    apply Hl. reflexivity. }
  destruct (rejection_backs_off (HL := MemStorage_log) (HD := MemStorage_durable)
              ex_ahead ex_node 1 (MkProgress 6 0 false) ex_probe 5 ex_node_ok ex_node_persisted
              ltac:(by_compute) ltac:(reflexivity) ltac:(reflexivity) ltac:(by_compute)
              ltac:(by_compute) Hs ltac:(reflexivity) ltac:(by_compute) ltac:(by_compute)
              ltac:(by_compute) ltac:(reflexivity))
    as (n' & r & Hr & Hf & _ & _ & Hb).
  exists n', r. split; [exact Hr|]. split; [exact Hf|exact Hb].
Defined.
End examples.
