(* ===== verification/Proposals.v ===== *)
(** * Proposals

    [RaftNodeInner::on_proposal] and [replicate_all] over a backend that keeps
    the laws of [Storage], and the answer a proposal can get: a proposal accepted by a
    leader that is then replaced. *)

From Stdlib Require Import Lia Init.Byte.
From stdpp Require Import base numbers list option gmap sets fin_maps strings.
From S2P Require Import Prelude.
From S2P Require Import Core.
From S2P Require Import Proto.
From S2P Require Import Storage.
From S2P Require Import MemStorage.
From S2P Require Import StateMachine.
From S2P Require Import Node.
From S2P Require Import Handlers.
From S2P Require Import Votes.
From S2P Require Import NodeLog.
From S2P Require Import Election.
From S2P Require Import RequestVote.
From S2P Require Import AppendEntries.
From S2P Require Import Replication.
From S2P Require Import Commit.
From S2P Require Import Progress.

Section proposals.
Context {prof : BuildProfile} {St : Type}
  `{HS : Storage St, HL : !LogStorage St, HD : !DurableStorage St}.
Implicit Types n : RaftNodeInner St.

(** The peers with a progress, in the order of the configuration. *)
Definition tracked (ps : list NodeId) n : list (NodeId * Progress) :=
  omap (fun peer => pair peer <$> progress (sm n) !! peer) ps.

Lemma replicate_all_loop ps n :
  log_ok n -> progress_ok n -> u64 (max_append_entries (config n) * 4096) ->
  exists es, for_each ps replicate_to n = (Done tt, set_effects (effects n ++ es) n) /\
    Forall2 (fun x e => replication n x.1 (next_index x.2) e) (tracked ps n) es.
Proof.
  intros Hn Hp Hm. revert Hn Hp Hm. 
  assert (forall h, log_ok n -> progress_ok n -> u64 (max_append_entries (config n) * 4096) ->
    exists es, for_each ps replicate_to (set_effects h n) =
      (Done tt, set_effects (h ++ es) n) /\
    Forall2 (fun x e => replication n x.1 (next_index x.2) e) (tracked ps n) es) as Hall;
    [|intros Hn Hp Hm; destruct (Hall (effects n) Hn Hp Hm) as (es & Hr & Hes);
      exists es; split; [by destruct n|done]].
  induction ps as [|peer ps IH]; intros h Hn Hp Hm; cbn [for_each].
  { exists []. rewrite app_nil_r. split; [done|constructor]. }
  unfold bind at 1. unfold tracked. cbn [omap list_omap]. fold (tracked ps n).
  destruct (progress (sm n) !! peer) as [p|] eqn:Hpeer; cbn [fmap option_fmap option_map].
  - destruct (Hp peer p Hpeer) as (H1 & Hu & _).
    destruct (replicate_to_run (set_effects h n) peer p Hn Hpeer H1 Hu Hm) as (e & -> & He).
    cbn [effects set_effects]. destruct (IH (h ++ [e]) Hn Hp Hm) as (es & Hr & Hes).
    exists (e :: es). split; [|by constructor].
    replace (h ++ e :: es) with ((h ++ [e]) ++ es) by by rewrite <- app_assoc.
    rewrite <- Hr. done.
  - destruct (IH h Hn Hp Hm) as (es & Hr & Hes). exists es. split; [|done]. rewrite <- Hr.
    unfold replicate_to, bind, get_sm, gets. cbn. by rewrite Hpeer.
Qed.

(** The log entry a leader makes of a proposal. *)
Definition proposed n (data : bytes) : LogEntry :=
  MkLogEntry (current_term (sm n)) (lv_last (log n) + 1) data Normal.

Lemma proposed_appendable n data :
  log_ok n -> u64 (lv_last (log n) + 3) -> appendable (log n) [proposed n data].
Proof.
  intros Hn Hu. pose proof (wf_range _ (log_wf_view _ Hn)) as Hr. fold (log n) in Hr.
  split; [|split].
  - intros [|j] e; [|done]. cbn. intros [= <-]. cbn. lia.
  - cbn. lia.
  - unfold u64 in *. rewrite nlen_cons, nlen_nil. cbn. lia.
Qed.

(** A leader takes the proposal: one entry more, the proposal waits for it, and
    one message for every tracked peer, made from the new log. *)
Definition accepted n (p : Proposal) (n' : RaftNodeInner St) : Prop :=
  log n' = spec_append (log n) [proposed n (prop_data p)] /\
  lv_log (log n') !! (lv_last (log n) + 1) = Some (proposed n (prop_data p)) /\
  (forall i, i <= lv_last (log n) -> lv_log (log n') !! i = lv_log (log n) !! i) /\
  pending n' = pending n ++
    match prop_tx p with Some tx => [(lv_last (log n) + 1, tx)] | None => [] end /\
  exists es, effects n' = effects n ++ es /\
    Forall2 (fun x e => replication n' x.1 (next_index x.2) e)
      (tracked (cfg_peers (config n)) n) es.

(** Another node refuses it. *)
Definition refused n (p : Proposal) (n' : RaftNodeInner St) : Prop :=
  log n' = log n /\ pending n' = pending n /\
  effects n' = effects n ++
    match prop_tx p with
    | Some tx => [ProposalReply tx (Err (NotLeader (leader_id (sm n))))]
    | None => []
    end.

Lemma on_proposal_run n p (Hn : log_ok n) (Hp : progress_ok n)
    (Hu : u64 (lv_last (log n) + 3)) (Hm : u64 (max_append_entries (config n) * 4096)) :
  exists n', on_proposal p n = (Done tt, n') /\ sm n' = sm n /\ log_ok n' /\
    if decide (role (sm n) = Leader) then accepted n p n' else refused n p n'.
Proof.
  unfold accepted, refused, on_proposal. unfold bind at 1, get_sm at 1, gets at 1.
  case_decide as Hr.
  2:{ rewrite bool_decide_true by done. unfold bind at 1, get_sm at 1, gets at 1.
      destruct (prop_tx p); [by eexists|]. exists n. rewrite app_nil_r. by repeat split. }
  rewrite bool_decide_false by (intros H; by apply H).
  unfold bind at 1. rewrite last_index_or_0_run by done.
  unfold bind at 1. rewrite u64_add_small by (unfold u64 in *; lia). unfold ret at 1.
  unfold bind at 1, get_sm at 1, gets at 1.
  destruct (append_run _ n Hn (proposed_appendable n (prop_data p) Hn Hu)) as (s' & Hrun & Hwf & Hl).
  unfold bind at 1. fold (proposed n (prop_data p)). rewrite Hrun.
  set (ps := match prop_tx p with Some tx => [(lv_last (log n) + 1, tx)] | None => [] end).
  set (n1 := set_pending (pending n ++ ps) (set_storage s' n)).
  assert (match prop_tx p with
          | Some tx => modify (fun n0 => set_pending (pending n0 ++ [(lv_last (log n) + 1, tx)]) n0)
          | None => ret tt
          end (set_storage s' n) = (Done tt, n1)) as Hpend.
  { unfold n1, ps. destruct (prop_tx p); [done|]. rewrite app_nil_r. by destruct n. }
  unfold bind at 1. rewrite Hpend. unfold replicate_all, bind, get_sm, gets.
  rewrite bool_decide_false by (cbn; intros H; by apply H).
  destruct (replicate_all_loop (cfg_peers (config n1)) n1 Hwf Hp Hm) as (es & -> & Hes).
  eexists. split; [done|]. split; [done|]. split; [exact Hwf|].
  assert (log n1 = spec_append (log n) [proposed n (prop_data p)]) as Hl1 by exact Hl.
  split; [exact Hl1|]. change (log (set_effects (effects n1 ++ es) n1)) with (log n1).
  rewrite Hl1. split; [|split; [|split; [done|]]].
  - rewrite spec_append_lookup. cbn [le_index proposed].
    by rewrite N.ltb_irrefl, N.sub_diag.
  - intros i Hi. rewrite spec_append_lookup. cbn [le_index proposed].
    by rewrite (proj2 (N.ltb_lt _ _)) by lia.
  - exists es. split; [done|]. exact Hes.
Qed.

(** A proposal: a node that is not the leader changes nothing and answers
    that it is not, with the leader it knows. A leader appends exactly one
    entry, after the last one, of its own term and with the proposal's data,
    keeps everything before it, makes the proposal wait for that index, and
    sends one message to every peer it tracks, made from the new log; the
    proposal is not answered yet. *)
Theorem on_proposal_spec n p (Hn : log_ok n) (Hp : progress_ok n)
    (Hu : u64 (lv_last (log n) + 3)) (Hm : u64 (max_append_entries (config n) * 4096)) :
  exists n', on_proposal p n = (Done tt, n') /\ sm n' = sm n /\ log_ok n' /\
    if decide (role (sm n) = Leader) then accepted n p n' else refused n p n'.
Proof. by apply on_proposal_run. Qed.
End proposals.

(** ** A proposal that is replaced *)

(** The node after the inputs, in order. *)
Definition after_inputs {prof : BuildProfile} {St} `{Storage St} (ins : list Input)
    (n : RaftNodeInner St) : RaftNodeInner St :=
  fold_left (fun n i => (handle i n).2) ins n.

Section examples.
Local Existing Instance dev_profile.

Lemma on_proposal_spec_witness :
  exists n', on_proposal (MkProposal [x61] (Some 7)) ex_leader = (Done tt, n') /\
    pending n' = [(6, 7)] /\
    lv_log (log (H0 := MemStorage_log) n') !! 6 = Some (ex_entry 3 6 [x61]).
Proof.
  destruct (on_proposal_spec (HL := MemStorage_log) ex_leader (MkProposal [x61] (Some 7))
              ex_leader_ok) as (n' & Hr & _ & _ & Hc); [|by_compute|by_compute|].
  { apply map_Forall_singleton. repeat split; by_compute. }
  rewrite decide_True in Hc by reflexivity.
  destruct Hc as (_ & Hl & _ & Hp & _). exists n'. split; [exact Hr|]. split; [exact Hp|exact Hl].
Defined.

(** Node 1 of three becomes the leader of term 1 and takes a proposal "a" on
    channel 7; node 2, leader of term 2, replaces the entry with "b" and
    commits it; node 1 becomes the leader of term 3 and its timer fires. *)
Definition ex_replaced : list Input :=
  [InElectionTimeout; InMessage (VoteResponse 2 (MkRequestVoteResponse 1 true));
   InMessage (Propose (MkProposal [x61] (Some 7)));
   InAppendEntries (MkAppendEntriesRequest 2 2 0 0
     [log_entry_to_proto_entry (ex_entry 2 1 [x62])] 0);
   InAppendEntries (MkAppendEntriesRequest 2 2 1 2 [] 1);
   InElectionTimeout; InMessage (VoteResponse 3 (MkRequestVoteResponse 3 true));
   InHeartbeat].

Definition ex_replaced_node : RaftNodeInner MemStorageInner :=
  after_inputs ex_replaced (node_new ex_config MemStorage_new).

(** C32. A replaced proposal is reported committed: the proposals that wait are
    kept when a leader steps down, and are matched by index only. In this run
    of a node over an empty in-memory store, the proposal of "a" is answered
    with success at index 1, where the log holds "b". *)
Theorem replaced_proposal_answered :
  ProposalReply 7 (Ok 1) ∈ effects ex_replaced_node /\
  le_data <$> lv_log (log (H0 := MemStorage_log) ex_replaced_node) !! 1 = Some [x62] /\
  commit_index (sm ex_replaced_node) = 1.
Proof.
  split; [|split; vm_compute; reflexivity].
  apply list_elem_of_lookup_2 with (length (effects ex_replaced_node) - 2)%nat.
  vm_compute. reflexivity.
Qed.
End examples.
