(* ===== verification/Snapshot.v ===== *)
(** * Installing snapshots

    [RaftNodeInner::on_install_snapshot], for any request, over a backend that
    keeps [LogStorage] and [DurableStorage]: every branch, the assembly of a
    snapshot from chunks, the transfer of a leader's snapshot from
    [replicate_to] to [handle_snapshot_response], and what happens when the
    chunks of two snapshots meet in the buffer. What the backend does with a
    snapshot it is not promised to take ([installable]) is a parameter; for
    [MemStorage] it is [MemStorage.stale_snapshot]. *)

From Stdlib Require Import Lia Init.Byte.
From stdpp Require Import base numbers list option gmap sets fin_maps strings.
From S2P Require Import Prelude.
From S2P Require Import Core.
From S2P Require Import Proto.
From S2P Require Import Storage.
From S2P Require Import MemStorage.
From S2P Require Import StateMachine.
From S2P Require Import Node.
From S2P Require Import Handlers.
From S2P Require Import Votes.
From S2P Require Import NodeLog.
From S2P Require Import RequestVote.
From S2P Require Import AppendEntries.
From S2P Require Import Replication.
From S2P Require Import Commit.
From S2P Require Import Progress.

(** The buffer after a chunk: the metadata is that of the first chunk. *)
Definition buffered (sb : option (SnapshotMetadata * bytes)) (req : InstallSnapshotRequest) :
    SnapshotMetadata * bytes :=
  match sb with
  | Some (meta, buf) => (meta, buf ++ is_data req)
  | None => (MkSnapshotMetadata (is_last_included_index req) (is_last_included_term req) [],
             is_data req)
  end.

(** The snapshot a buffer stands for. *)
Definition assembled (mb : SnapshotMetadata * bytes) : Snapshot :=
  MkSnapshot mb.2 (MkSnapshotMeta (sm_index mb.1) (sm_term mb.1) (sm_conf_nodes mb.1)).

(** The state machine once everything up to [i] is covered by a snapshot. *)
Definition covered_sm (i : LogIndex) (s : RaftStateMachine) : RaftStateMachine :=
  set_last_applied (N.max (last_applied s) i) (set_commit_index (N.max (commit_index s) i) s).

Section install.
Context {prof : BuildProfile} {St : Type}
  `{HS : Storage St, HL : !LogStorage St, HD : !DurableStorage St}.
Implicit Types n : RaftNodeInner St.

(** The node that has added a chunk of no older term to its buffer. *)
Record received n req (n1 : RaftNodeInner St) : Prop := {
  rc_sm : sm n1 = observed_sm (is_term req) (Some (is_leader_id req)) (sm n);
  rc_buf : snapshot_buf n1 = Some (buffered (snapshot_buf n) req);
  rc_log : log n1 = log n;
  rc_log_ok : log_ok n1;
  rc_persisted : persisted n1;
  rc_config : config n1 = config n;
  rc_pending : pending n1 = pending n;
}.

(** What such a chunk leaves and answers, by what the backend does with the
    snapshot that the last one completes. *)
Definition install_outcome n req n1 (x : outcome (raft_result InstallSnapshotResponse) * RaftNodeInner St)
    : Prop :=
  let answer := Done (Ok {| isr_term := N.max (current_term (sm n)) (is_term req) |}) in
  if is_done req then
    match st_apply_snapshot (assembled (buffered (snapshot_buf n) req)) (storage n1) with
    | (Done (Ok _), s') => exists n', x = (answer, n') /\
        persisted n' /\ config n' = config n /\ pending n' = pending n /\
        snapshot_buf n' = None /\ sm n' = covered_sm (is_last_included_index req) (sm n1) /\
        (log_wf s' -> log_ok n' /\ log n' = log_view s')
    | (Done (Err e), s') => x = (Done (Err e), set_storage s' n1) /\ persisted (set_storage s' n1)
    | (Panicked, s') => x = (Panicked, set_storage s' n1) /\ persisted (set_storage s' n1)
    end
  else x = (answer, n1).

Lemma install_snapshot_outcome n req :
  log_ok n -> persisted n ->
  if is_term req <? current_term (sm n)
  then on_install_snapshot req n =
    (Done (Ok {| isr_term := N.max (current_term (sm n)) (is_term req) |}), n)
  else exists n1, received n req n1 /\ install_outcome n req n1 (on_install_snapshot req n).
Proof.
  intros Hn Hp. set (t := N.max (current_term (sm n)) (is_term req)).
  destruct (observe_run (is_term req) (Some (is_leader_id req)) n Hn (or_introl Hp))
    as (n1 & Hrun1 & Hs1 & Hn1 & Hl1 & Hp1 & Hc1 & Hpe1 & Hb1 & _).
  assert (current_term (sm n1) = t) as Ht1 by (rewrite Hs1; apply observed_sm_term).
  destruct (N.ltb_spec (is_term req) (current_term (sm n))) as [Hold|Hnew];
    unfold on_install_snapshot; unfold bind at 1, get_sm at 1, gets at 1; unfold bind at 1;
    rewrite Hrun1; unfold bind at 1, get_sm at 1, gets at 1; rewrite Ht1.
  { rewrite (proj2 (N.ltb_lt _ _)) by lia.
    rewrite (proj2 (N.ltb_ge _ _)) in Hrun1 by lia. by injection Hrun1 as <-. }
  rewrite (proj2 (N.ltb_ge _ _)) by lia. clear Hrun1.
  unfold bind at 1, gets at 1. rewrite Hb1.
  destruct (buffered (snapshot_buf n) req) as [meta buf] eqn:Hmb.
  assert (exists buf0,
    match snapshot_buf n with
    | Some mb => mb
    | None => (MkSnapshotMetadata (is_last_included_index req) (is_last_included_term req) [], [])
    end = (meta, buf0) /\ buf = buf0 ++ is_data req) as (buf0 & -> & Hbuf).
  { unfold buffered in Hmb. destruct (snapshot_buf n) as [[m b]|]; injection Hmb as <- <-; by eexists. }
  rewrite <- Hbuf. unfold bind at 1, modify at 1. set (n2 := set_snapshot_buf _ n1).
  assert (received n req n2) as Hrc by (split; try done; by rewrite Hmb).
  exists n2. split; [done|]. unfold try_bind at 1. unfold bind at 1.
  destruct (is_done req) eqn:Hd.
  2:{ unfold install_outcome. rewrite Hd. unfold ret at 1, bind, get_sm, gets, ret. cbn.
      by rewrite Ht1. }
  unfold try_bind at 1. unfold bind at 1. unfold on_storage at 1, zoom at 1.
  pose proof (apply_snapshot_keeps (assembled (meta, buf)) (storage n2)) as Hk.
  change (MkSnapshot buf (MkSnapshotMeta (sm_index meta) (sm_term meta) (sm_conf_nodes meta)))
    with (assembled (meta, buf)).
  unfold install_outcome. rewrite Hd, Hmb. fold t.
  destruct (st_apply_snapshot (assembled (meta, buf)) (storage n2)) as [[[[]|e]|] s'];
    cbn [fst snd] in *.
  2,3: split; [done|]; unfold persisted, hard_state_now; cbn; by rewrite Hk.
  unfold bind at 1, upd_sm at 1, modify at 1. unfold bind at 1, upd_sm at 1, modify at 1.
  unfold bind at 1, modify at 1. set (n3 := set_snapshot_buf None _).
  unfold bind at 1. destruct (save_any n3) as (s3 & -> & Hd3 & Hl3).
  eexists. split; [unfold bind, emit, modify, get_sm, gets, ret; cbn; by rewrite Ht1|].
  split; [exact Hd3|]. split; [exact Hc1|]. split; [exact Hpe1|]. split; [done|].
  split; [done|]. intros Hs'. destruct (Hl3 Hs') as [Hwf Hv]. by split.
Qed.

(** What a chunk leaves when the snapshot it completes can be installed. *)
Definition install_snapshot_result n req (n' : RaftNodeInner St) : Prop :=
  let s := observed_sm (is_term req) (Some (is_leader_id req)) (sm n) in
  persisted n' /\ log_ok n' /\ config n' = config n /\ pending n' = pending n /\
  if is_term req <? current_term (sm n) then n' = n
  else if is_done req then
    log n' = spec_apply_snapshot (log n) (assembled (buffered (snapshot_buf n) req)) /\
    snapshot_buf n' = None /\ sm n' = covered_sm (is_last_included_index req) s
  else
    log n' = log n /\ snapshot_buf n' = Some (buffered (snapshot_buf n) req) /\ sm n' = s.

Lemma installable_stores n req n1 :
  received n req n1 -> installable (log n) (assembled (buffered (snapshot_buf n) req)) ->
  exists s', st_apply_snapshot (assembled (buffered (snapshot_buf n) req)) (storage n1) =
      (Done (Ok tt), s') /\ log_wf s' /\
    log_view s' = spec_apply_snapshot (log n) (assembled (buffered (snapshot_buf n) req)).
Proof.
  intros [_ _ Hl Hn1 _ _ _] Hi. rewrite <- Hl in *.
  destruct (apply_snapshot_ok _ (storage n1) Hn1 Hi) as (Ho & Hwf & Hv). eexists.
  split; [|by split]. by rewrite (surjective_pairing (st_apply_snapshot _ _)), Ho.
Qed.

Lemma on_install_snapshot_run n req (Hn : log_ok n) (Hp : persisted n)
    (Hi : is_done req = true -> current_term (sm n) <= is_term req ->
          installable (log n) (assembled (buffered (snapshot_buf n) req))) :
  exists n', on_install_snapshot req n =
      (Done (Ok {| isr_term := N.max (current_term (sm n)) (is_term req) |}), n') /\
    install_snapshot_result n req n'.
Proof.
  pose proof (install_snapshot_outcome n req Hn Hp) as Ho. unfold install_snapshot_result.
  destruct (N.ltb_spec (is_term req) (current_term (sm n))) as [Hold|Hnew].
  { exists n. by repeat split. }
  destruct Ho as (n1 & Hrc & Ho). unfold install_outcome in Ho. destruct (is_done req).
  - destruct (installable_stores n req n1 Hrc (Hi eq_refl Hnew)) as (s' & Hs & Hwf & Hl).
    rewrite Hs in Ho. destruct Ho as (n' & Hr & Hp' & Hc' & Hpe' & Hb' & Hs' & Hlog).
    destruct (Hlog Hwf) as [Hn' Hv]. exists n'. split; [exact Hr|]. do 4 (split; [done|]).
    by rewrite Hv, Hl, Hs', (rc_sm _ _ _ Hrc).
  - exists n1. split; [exact Ho|]. destruct Hrc. by repeat split.
Qed.

(** C34. InstallSnapshot, for every request, on every branch. A request of an
    older term is answered with the node's term and changes nothing. Any other
    is added to the buffer (at a newer term the node steps down to its sender
    first), under the metadata of the first chunk buffered; if it is not the
    last, that is all. The last one gives the storage the snapshot that the
    buffer then is, and what follows is by what the storage does with it. A
    storage error ends the handler with that error: the buffer is kept, and
    commit and applied index do not move. If the storage takes it, the answer is
    the term, the buffer is empty again, commit and applied index are at least
    the request's, even for a snapshot older than the node's own compaction
    point, and term, vote and commit index are on storage, whose saves succeed.
    A snapshot at or above the compaction point is taken: the log keeps its
    entries above the snapshot's index, and the compaction point and its term
    become the snapshot's. *)
Theorem on_install_snapshot_spec n req (Hn : log_ok n) (Hp : persisted n) :
  if is_term req <? current_term (sm n)
  then on_install_snapshot req n =
    (Done (Ok {| isr_term := N.max (current_term (sm n)) (is_term req) |}), n)
  else exists n1, received n req n1 /\ install_outcome n req n1 (on_install_snapshot req n) /\
    (installable (log n) (assembled (buffered (snapshot_buf n) req)) ->
     exists s', st_apply_snapshot (assembled (buffered (snapshot_buf n) req)) (storage n1) =
         (Done (Ok tt), s') /\ log_wf s' /\
       log_view s' = spec_apply_snapshot (log n) (assembled (buffered (snapshot_buf n) req))).
Proof.
  pose proof (install_snapshot_outcome n req Hn Hp) as Ho.
  destruct (is_term req <? current_term (sm n)); [exact Ho|].
  destruct Ho as (n1 & Hrc & Ho). exists n1. split; [done|]. split; [done|].
  by apply installable_stores.
Qed.

(** The answer to a snapshot: the peer has what it covers. *)
Lemma snapshot_response_run peer p i m :
  log_ok m -> persisted m -> role (sm m) = Leader -> last_applied (sm m) <= commit_index (sm m) ->
  progress (sm m) !! peer = Some p -> u64 (match_index p + 1) -> u64 (i + 1) ->
  exists m', handle_snapshot_response peer i {| isr_term := current_term (sm m) |} m =
      (Done tt, m') /\ role (sm m') = Leader /\ current_term (sm m') = current_term (sm m) /\
    progress (sm m') !! peer = Some (matched p i).
Proof.
  intros Hm Hp Hr Hla Hpeer Hmu Hi. unfold handle_snapshot_response.
  unfold bind at 1, get_sm at 1, gets at 1. cbn [isr_term]. rewrite N.ltb_irrefl.
  unfold bind at 1, get_sm at 1, gets at 1.
  rewrite bool_decide_false by (rewrite Hr; intros H; by apply H).
  unfold bind at 1, get_sm at 1, gets at 1. rewrite Hpeer. unfold bind at 1.
  rewrite record_match_run by done. set (m1 := set_sm _ m).
  destruct (maybe_advance_commit_run m1) as (o & m2 & -> & _ & Hs & _); [done..|].
  exists m2. split; [done|]. rewrite Hs. destruct o; cbn; by rewrite lookup_insert_eq.
Qed.

(** C35. Transfer of a snapshot, both sides. A leader whose next index for a peer
    is compacted sends, when it replicates to it, one message, from its stored
    snapshot. Handled, as it was sent, by a node at no newer term that has no
    chunk buffered and has compacted no more than the leader, it makes the node
    store that snapshot, but for the member list, which the message does not
    carry; the node's log then starts after the snapshot with the entries it had
    there, and everything the snapshot covers counts as committed and applied.
    The answer, handled by the leader while it leads the same term, makes the
    peer's match index at least the snapshot's and its next index the one
    after. *)
Theorem snapshot_transfer m n peer p
    (Hm : log_ok m) (Hpm : persisted m) (Hr : role (sm m) = Leader)
    (Hla : last_applied (sm m) <= commit_index (sm m))
    (Hpeer : progress (sm m) !! peer = Some p) (Hpu : u64 (match_index p + 1))
    (Hnext : 1 <= next_index p <= lv_base (log m))
    (Hmax : u64 (max_append_entries (config m) * 4096))
    (Hn : log_ok n) (Hp : persisted n) (Hb : snapshot_buf n = None)
    (Ht : current_term (sm n) <= current_term (sm m)) (Hbase : lv_base (log n) <= lv_base (log m)) :
  let i := lv_base (log m) in
  exists sn req resp m1 n' m2,
    lv_snapshot (log m) = Some sn /\ last_included_index (snap_metadata sn) = i /\
    replicate_to peer m = (Done tt, m1) /\
    effects m1 = effects m ++ [SpawnInstallSnapshot peer req i] /\
    on_install_snapshot req n = (Done (Ok resp), n') /\ log_ok n' /\ persisted n' /\
    lv_snapshot (log n') = Some (MkSnapshot (snap_data sn)
      (MkSnapshotMeta i (last_included_term (snap_metadata sn)) [])) /\
    lv_base (log n') = i /\ lv_last (log n') = N.max i (lv_last (log n)) /\
    spec_term (log n') i = Ok (lv_base_term (log m)) /\
    (forall j, i < j -> lv_log (log n') !! j = lv_log (log n) !! j) /\
    sm n' = covered_sm i (observed_sm (current_term (sm m)) (Some (cfg_id (config m))) (sm n)) /\
    handle_snapshot_response peer i resp m1 = (Done tt, m2) /\
    progress (sm m2) !! peer = Some (MkProgress (N.max (match_index p) i + 1)
      (N.max (match_index p) i) false).
Proof.
  intros i. pose proof (log_wf_view _ Hm) as Hv. fold (log m) in Hv.
  pose proof (wf_bound _ Hv) as Hu. pose proof (wf_range _ Hv) as Hrg. unfold u64 in Hu.
  destruct (replicate_to_run m peer p Hm Hpeer) as (e & Hrep & He); [lia|unfold u64; lia|done|].
  unfold replication in He. rewrite (proj2 (N.ltb_lt _ _)) in He by lia.
  destruct He as (sn & Hsn & ->).
  pose proof (wf_base _ Hv) as Hwb. pose proof (wf_base_term _ Hv) as Hwt.
  rewrite Hsn in Hwb, Hwt. cbn in Hwb, Hwt. rewrite <- Hwb in Hrep. fold i in Hwb, Hrep.
  set (req := snapshot_request _ _ sn) in Hrep.
  assert (assembled (buffered (snapshot_buf n) req) =
          MkSnapshot (snap_data sn) (MkSnapshotMeta i (last_included_term (snap_metadata sn)) [])) as Has
    by (rewrite Hb, Hwb; done).
  destruct (on_install_snapshot_run n req Hn Hp) as (n' & Hrun & Hp' & Hn' & _ & _ & Hcases).
  { intros _ _. rewrite Has. split; cbn; [lia|unfold u64; lia]. }
  cbn [is_term req snapshot_request is_done] in Hrun, Hcases.
  rewrite N.max_r in Hrun by done. rewrite (proj2 (N.ltb_ge _ _)) in Hcases by done.
  destruct Hcases as (Hl & _ & Hs). rewrite Has in Hl.
  destruct (snapshot_response_run peer p i
              (set_effects (effects m ++ [SpawnInstallSnapshot peer req i]) m))
    as (m2 & Hresp & _ & _ & Hprog); [done|done|done|done|done|done|unfold u64; lia|].
  exists sn, req, {| isr_term := current_term (sm m) |}. do 3 eexists.
  split; [done|]. split; [done|]. split; [exact Hrep|]. split; [done|]. split; [exact Hrun|].
  split; [done|]. split; [done|]. rewrite Hl, Hs. cbn. fold i.
  split; [done|]. split; [done|]. split; [done|]. split; [|split; [|split; [by rewrite <- Hwb|]]].
  - unfold spec_term. cbn. rewrite N.ltb_irrefl, N.eqb_refl, <- Hwt.
    destruct (N.eqb_spec i 0); [lia|done].
  - intros j Hj. rewrite lookup_log_above, (proj2 (N.ltb_lt _ _)) by done. done.
  - split; [exact Hresp|exact Hprog].
Qed.

(** *** Chunks *)

(** The requests handled one after the other. *)
Definition feed (reqs : list InstallSnapshotRequest) n : RaftNodeInner St :=
  fold_left (fun n req => (on_install_snapshot req n).2) reqs n.

(** A chunk, other than the last, of the snapshot at [i] with term [lt], sent
    in term [t]. *)
Definition chunk_of (t : Term) (i : LogIndex) (lt : Term) (req : InstallSnapshotRequest) : Prop :=
  is_term req = t /\ is_last_included_index req = i /\ is_last_included_term req = lt.

Lemma feed_chunks t i lt reqs buf n :
  log_ok n -> persisted n -> current_term (sm n) <= t ->
  Forall (fun r => chunk_of t i lt r /\ is_done r = false) reqs ->
  snapshot_buf n = Some (MkSnapshotMetadata i lt [], buf) ->
  let n' := feed reqs n in
  log_ok n' /\ persisted n' /\ current_term (sm n') <= t /\ log n' = log n /\
  snapshot_buf n' = Some (MkSnapshotMetadata i lt [], buf ++ concat (map is_data reqs)).
Proof.
  revert buf n. induction reqs as [|req reqs IH]; intros buf n Hn Hp Ht Hall Hb.
  { cbn. by rewrite app_nil_r. }
  change (feed (req :: reqs) n) with (feed reqs (on_install_snapshot req n).2).
  cbn [map concat].
  apply Forall_cons in Hall as [[(Hrt & _ & _) Hd] Hall].
  destruct (on_install_snapshot_run n req Hn Hp) as (n1 & -> & Hp1 & Hn1 & _ & _ & Hcases);
    [congruence|].
  rewrite Hd, Hrt, (proj2 (N.ltb_ge _ _)), Hb in Hcases by done.
  destruct Hcases as (Hl1 & Hb1 & Hs1). cbn [snd].
  assert (current_term (sm n1) <= t) as Ht1 by (rewrite Hs1, observed_sm_term; lia).
  destruct (IH (buf ++ is_data req) n1 Hn1 Hp1 Ht1 Hall Hb1) as (? & ? & ? & Hl & Hb').
  rewrite Hl, Hl1, Hb', <- app_assoc. by repeat split.
Qed.

(** Chunks: a snapshot sent in any number of chunks, delivered in order to a
    node with no chunk buffered, is installed by the last one with the data of
    all of them concatenated, and the buffer is empty again. *)
Theorem chunks_assemble t i lt first mid last n
    (Hn : log_ok n) (Hp : persisted n) (Hb : snapshot_buf n = None)
    (Ht : current_term (sm n) <= t)
    (Hfirst : chunk_of t i lt first /\ is_done first = false)
    (Hmid : Forall (fun r => chunk_of t i lt r /\ is_done r = false) mid)
    (Hlast : chunk_of t i lt last /\ is_done last = true) :
  let sn := MkSnapshot (concat (map is_data (first :: mid ++ [last])))
              (MkSnapshotMeta i lt []) in
  forall Hi : installable (log n) sn,
  let n' := feed (first :: mid ++ [last]) n in
  log n' = spec_apply_snapshot (log n) sn /\ snapshot_buf n' = None /\ persisted n'.
Proof.
  intros sn Hi n'. destruct Hfirst as [(Hft & Hfi & Hfl) Hfd].
  destruct (on_install_snapshot_run n first Hn Hp) as (n1 & Hr1 & Hp1 & Hn1 & _ & _ & Hc1);
    [congruence|].
  rewrite Hfd, Hft, (proj2 (N.ltb_ge _ _)), Hb in Hc1 by done.
  destruct Hc1 as (Hl1 & Hb1 & Hs1). cbn in Hb1. rewrite Hfi, Hfl in Hb1.
  assert (current_term (sm n1) <= t) as Ht1 by (rewrite Hs1, observed_sm_term; lia).
  destruct (feed_chunks t i lt mid _ n1 Hn1 Hp1 Ht1 Hmid Hb1) as (Hn2 & Hp2 & Ht2 & Hl2 & Hb2).
  unfold n', feed. cbn [fold_left]. rewrite Hr1, fold_left_app. cbn [fold_left snd].
  fold (feed mid n1). set (n2 := feed mid n1) in *. clearbody n2.
  destruct Hlast as [(Hlt & Hli & Hll) Hld].
  assert (assembled (buffered (snapshot_buf n2) last) = sn) as Hsn.
  { unfold sn, assembled, buffered. rewrite Hb2. cbn.
    rewrite map_app, concat_app. cbn. by rewrite app_nil_r, <- app_assoc. }
  destruct (on_install_snapshot_run n2 last Hn2 Hp2) as (n3 & -> & Hp3 & _ & _ & _ & Hc3).
  { intros _ _. by rewrite Hsn, Hl2, Hl1. }
  rewrite Hld, Hlt, (proj2 (N.ltb_ge _ _)), Hsn in Hc3 by done.
  destruct Hc3 as (Hl3 & Hb3 & _). cbn [snd]. by rewrite Hl3, Hl2, Hl1.
Qed.

(** Chunks of two snapshots mix: the buffer of an unfinished transfer is
    kept, whatever the next request is for. If the leader then sends a newer
    snapshot at [j], the node installs one with the old index and the old
    bytes in front, and sets its commit index to [j] all the same: when the
    log ends before [j], the commit index is past the end of the log. *)
Theorem chunks_mix n req meta buf (Hn : log_ok n) (Hp : persisted n)
    (Hb : snapshot_buf n = Some (meta, buf)) (Ht : current_term (sm n) <= is_term req)
    (Hd : is_done req = true)
    (Hi : installable (log n) (assembled (meta, buf ++ is_data req)))
    (Hm : sm_index meta < is_last_included_index req)
    (Hl : lv_last (log n) < is_last_included_index req) :
  exists n' r, on_install_snapshot req n = (Done (Ok r), n') /\
    lv_snapshot (log n') = Some (assembled (meta, buf ++ is_data req)) /\
    lv_last (log n') < commit_index (sm n') /\ lv_last (log n') < last_applied (sm n').
Proof.
  destruct (on_install_snapshot_run n req Hn Hp) as (n' & Hr & _ & _ & _ & _ & Hcases).
  { intros _ _. by rewrite Hb. }
  rewrite Hd, (proj2 (N.ltb_ge _ _)), Hb in Hcases by done. destruct Hcases as (Hlog & _ & Hs).
  eexists n', _. split; [done|]. rewrite Hlog, Hs. split; [done|]. cbn. lia.
Qed.
End install.

Section examples.
Local Existing Instance dev_profile.

(** A snapshot at 4, whole, and in three chunks; the start of another at 4
    before one at 9. *)
Definition ex_sent : Snapshot := MkSnapshot [x61; x62] (MkSnapshotMeta 4 2 []).
Definition ex_chunk (i : LogIndex) (d : bytes) (done : bool) : InstallSnapshotRequest :=
  MkInstallSnapshotRequest 3 2 i 2 0 d done.
Definition ex_buffering : RaftNodeInner MemStorageInner :=
  set_snapshot_buf (Some (MkSnapshotMetadata 4 2 [], [x61])) ex_node.

(** A chunk is buffered; a whole snapshot older than the compaction point, 3, is
    taken, and commit and applied index stay. *)
Lemma on_install_snapshot_spec_witness :
  (exists n', on_install_snapshot (ex_chunk 4 [x61] false) ex_node =
      (Done (Ok (MkInstallSnapshotResponse 3)), n') /\
    snapshot_buf n' = Some (MkSnapshotMetadata 4 2 [], [x61])) /\
  (exists n', on_install_snapshot (ex_chunk 2 [x61] true) ex_node =
      (Done (Ok (MkInstallSnapshotResponse 3)), n') /\
    snapshot_buf n' = None /\ commit_index (sm n') = 3 /\ last_applied (sm n') = 3).
Proof.
  split.
  - destruct (on_install_snapshot_spec (HL := MemStorage_log) (HD := MemStorage_durable)
                ex_node (ex_chunk 4 [x61] false) ex_node_ok ex_node_persisted) as (n1 & Hrc & Ho & _).
    exists n1. split; [exact Ho|]. rewrite (rc_buf _ _ _ Hrc). vm_compute. reflexivity.
  - destruct (on_install_snapshot_spec (HL := MemStorage_log) (HD := MemStorage_durable)
                ex_node (ex_chunk 2 [x61] true) ex_node_ok ex_node_persisted) as (n1 & Hrc & Ho & _).
    unfold install_outcome in Ho.
    change (is_done (ex_chunk 2 [x61] true)) with true in Ho. cbv beta iota in Ho.
    assert (lv_base (log (H0 := MemStorage_log) n1) = 3) as Hb1
      by (rewrite (rc_log _ _ _ Hrc); vm_compute; reflexivity).
    rewrite (stale_snapshot_taken (storage n1)) in Ho;
      [|exact (rc_log_ok _ _ _ Hrc)|change (2 < lv_base (log (H0 := MemStorage_log) n1)); rewrite Hb1; reflexivity].
    destruct Ho as (n' & Hr & _ & _ & _ & Hb & Hs & _). exists n'. split; [exact Hr|].
    split; [exact Hb|]. rewrite Hs, (rc_sm _ _ _ Hrc). split; vm_compute; reflexivity.
Defined.

(** Node 1 leads term 3 and knows nothing of node 2, which has never run. *)
Definition ex_sender : RaftNodeInner MemStorageInner :=
  MkNode (MkSM 3 (Some 1) Leader 3 3 (Some 1) {[2 := MkProgress 1 0 false]} {[1; 2]}) ex_config
    (MkMem (MkHardState 3 1 3) (mem_entries ex_mem) (mem_snapshot ex_mem)) [] None [].
Definition ex_receiver : RaftNodeInner MemStorageInner :=
  node_new (MkRaftConfig 2 [1; 3] 100 300 600 128 10000 1024) MemStorage_new.

Lemma snapshot_transfer_witness :
  exists req resp m1 n' m2,
    replicate_to 2 ex_sender = (Done tt, m1) /\
    effects m1 = [SpawnInstallSnapshot 2 req 3] /\
    on_install_snapshot req ex_receiver = (Done (Ok resp), n') /\
    lv_base (log (H0 := MemStorage_log) n') = 3 /\
    handle_snapshot_response 2 3 resp m1 = (Done tt, m2) /\
    progress (sm m2) !! 2 = Some (MkProgress 4 3 false).
Proof.
  destruct (snapshot_transfer (HL := MemStorage_log) (HD := MemStorage_durable)
              ex_sender ex_receiver 2 (MkProgress 1 0 false))
    as (sn & req & resp & m1 & n' & m2 & _ & _ & Hrep & He & Hrun & _ & _ & _ & Hb & _ & _ & _ & _ &
        Hresp & Hprog);
    [by_compute|reflexivity|reflexivity|by_compute|vm_compute; reflexivity|by_compute|by_compute
    |by_compute|by_compute|reflexivity|reflexivity|by_compute|by_compute|].
  exists req, resp, m1, n', m2. split; [exact Hrep|]. split; [exact He|]. split; [exact Hrun|].
  split; [exact Hb|]. split; [exact Hresp|exact Hprog].
Defined.

Lemma chunks_assemble_witness :
  lv_snapshot (log (H0 := MemStorage_log)
    (feed [ex_chunk 4 [x61] false; ex_chunk 4 [x62] false; ex_chunk 4 [x63] true] ex_node)) =
    Some (MkSnapshot [x61; x62; x63] (MkSnapshotMeta 4 2 [])).
Proof.
  destruct (chunks_assemble (HL := MemStorage_log) (HD := MemStorage_durable) 3 4 2
              (ex_chunk 4 [x61] false) [ex_chunk 4 [x62] false] (ex_chunk 4 [x63] true) ex_node
              ex_node_ok ex_node_persisted ltac:(reflexivity) ltac:(by_compute)
              ltac:(repeat split) ltac:(repeat constructor) ltac:(repeat split)
              ltac:(split; by_compute)) as (Hl & _ & _).
  cbn [app] in Hl. rewrite Hl. reflexivity.
Defined.

Lemma chunks_mix_witness :
  exists n' r, on_install_snapshot (ex_chunk 9 [x62] true) ex_buffering = (Done (Ok r), n') /\
    lv_last (log (H0 := MemStorage_log) n') < commit_index (sm n').
Proof.
  destruct (chunks_mix (HL := MemStorage_log) (HD := MemStorage_durable)
              ex_buffering (ex_chunk 9 [x62] true) (MkSnapshotMetadata 4 2 []) [x61]
              ltac:(by_compute) ltac:(reflexivity) ltac:(reflexivity) ltac:(by_compute)
              ltac:(reflexivity) ltac:(split; by_compute) ltac:(by_compute) ltac:(by_compute))
    as (n' & r & Hr & _ & Hc & _).
  by exists n', r.
Defined.
End examples.
