(* ===== verification/Total.v ===== *)
(** * A node never panics on well-formed inputs

    The invariant of a running node over a backend that keeps the laws of [Storage], and
    its preservation by every handler: on inputs that fit the node's log and stay
    below the last 64-bit numbers, every handler returns. This puts together the
    functional specifications of the other files. *)

From Stdlib Require Import Lia Init.Byte.
From stdpp Require Import base numbers list option gmap sets fin_maps strings.
From S2P Require Import Prelude.
From S2P Require Import Core.
From S2P Require Import Proto.
From S2P Require Import Storage.
From S2P Require Import MemStorage.
From S2P Require Import StateMachine.
From S2P Require Import Node.
From S2P Require Import Handlers.
From S2P Require Import Votes.
From S2P Require Import NodeLog.
From S2P Require Import Election.
From S2P Require Import RequestVote.
From S2P Require Import AppendEntries.
From S2P Require Import Replication.
From S2P Require Import Commit.
From S2P Require Import Progress.
From S2P Require Import Proposals.
From S2P Require Import Snapshot.

Section total.
Context {prof : BuildProfile} {St : Type}
  `{HS : Storage St, HL : !LogStorage St, HD : !DurableStorage St}.
Implicit Types n : RaftNodeInner St.

(** Nothing is applied that is not committed, and both can be incremented. *)
Definition indices_ok n : Prop :=
  last_applied (sm n) <= commit_index (sm n) /\ u64 (commit_index (sm n) + 2).

Record node_ok n : Prop := {
  ok_log : log_ok n;
  ok_persisted : persisted n;
  ok_progress : progress_ok n;
  ok_indices : indices_ok n;
  ok_config : u64 (max_append_entries (config n) * 4096);
}.

(** The input fits the node: AppendEntries starts at or above the compaction
    point and, if it is accepted, does not take the commit index below the
    applied one, a finished
    snapshot is not older than the compaction point, and there is room for one
    more entry, term or match. *)
Definition input_ok n (i : Input) : Prop :=
  match i with
  | InAppendEntries req =>
      follows (log n) req /\
      (current_term (sm n) <= ae_term req -> prev_matches (log n) req = true ->
       last_applied (sm n) <=
         commit_after (spec_append (log n) (new_entries req)) req (commit_index (sm n)))
  | InRequestVote req => rv_candidate_id req <> 0
  | InInstallSnapshot req =>
      (is_done req = true -> current_term (sm n) <= is_term req ->
       installable (log n) (assembled (buffered (snapshot_buf n) req))) /\
      u64 (is_last_included_index req + 2)
  | InMessage (Propose _) => u64 (lv_last (log n) + 3)
  | InMessage msg => bounded (InMessage msg)
  | InElectionTimeout => u64 (current_term (sm n) + 1)
  | InHeartbeat | InRestart => True
  end.

Lemma input_ok_admissible n i : input_ok n i -> admissible n i /\ bounded i.
Proof. destruct i as [| | |[]| | |]; cbn; tauto. Qed.

Definition returns {A} (m : M (RaftNodeInner St) A) n (Q : RaftNodeInner St -> Prop) : Prop :=
  exists a n', m n = (Done a, n') /\ Q n'.

Lemma returns_bind {A B} (m : M (RaftNodeInner St) A) (k : A -> M (RaftNodeInner St) B) n P Q :
  returns m n P -> (forall a n', P n' -> returns (k a) n' Q) -> returns (bind m k) n Q.
Proof. intros (a & n' & Hm & HP) Hk. unfold returns, bind. rewrite Hm. by apply Hk. Qed.

Lemma returns_ret {A} (a : A) n (Q : RaftNodeInner St -> Prop) : Q n -> returns (ret a) n Q.
Proof. intros HQ. by exists a, n. Qed.

(** What the handlers' specifications leave open besides returning: the rest of
    [node_ok] is preserved by every handler however it ends. *)
Definition fits n : Prop := log_ok n /\ indices_ok n.

Lemma fits_sm s n :
  log_ok n -> indices_ok n -> commit_index s = commit_index (sm n) ->
  last_applied s = last_applied (sm n) -> fits (set_sm s n).
Proof. intros Hn Hi Hc Hl. split; [done|]. unfold indices_ok. cbn. by rewrite Hc, Hl. Qed.

(** *** Pieces *)

Lemma step_down_returns t l n : log_ok n -> indices_ok n -> returns (step_down t l) n fits.
Proof.
  intros Hn Hi. destruct (step_down_run t l n Hn) as (s' & Hr & Hs & _).
  eexists _, _. split; [exact Hr|]. by split.
Qed.

Lemma replicate_all_run n :
  log_ok n -> progress_ok n -> u64 (max_append_entries (config n) * 4096) ->
  exists es, replicate_all n = (Done tt, set_effects (effects n ++ es) n).
Proof.
  intros Hn Hp Hm. unfold replicate_all, bind, get_sm, gets. case_bool_decide.
  - exists []. rewrite app_nil_r. by destruct n.
  - destruct (replicate_all_loop (cfg_peers (config n)) n Hn Hp Hm) as (es & Hr & _). by exists es.
Qed.

Lemma replicate_all_returns n : node_ok n -> returns replicate_all n node_ok.
Proof.
  intros [Hl Hp Hpr Hi Hc]. destruct (replicate_all_run n Hl Hpr Hc) as (es & Hr).
  eexists _, _. split; [exact Hr|]. by split.
Qed.

(** What a new leader knows of its peers. *)
Definition fresh_peers (last : LogIndex) (ps : list NodeId) (pr : gmap NodeId Progress) : Prop :=
  forall peer p, pr !! peer = Some p -> peer ∈ ps /\ p = Progress_new (last + 1).

Lemma fresh_peers_ok last ps pr :
  u64 (last + 1) -> fresh_peers last ps pr -> map_Forall (fun _ => peer_ok) pr.
Proof.
  intros Hl Hf peer p Hp. destruct (Hf peer p Hp) as [_ ->].
  unfold peer_ok, u64 in *. cbn. lia.
Qed.

Lemma fresh_peers_run last ps s :
  u64 (last + 1) ->
  exists pr, for_each ps (fun peer =>
      let* next := u64_add last 1 in
      modify (fun s => set_progress (<[peer := Progress_new next]> (progress s)) s)) s =
    (Done tt, set_progress pr s) /\
    forall peer p, pr !! peer = Some p ->
      peer ∈ ps /\ p = Progress_new (last + 1) \/ progress s !! peer = Some p.
Proof.
  intros Hl. revert s. induction ps as [|peer ps IH]; intros s; cbn [for_each].
  { exists (progress s). split; [by destruct s|auto]. }
  rewrite u64_add_small in * by done. unfold bind at 1.
  destruct (IH (set_progress (<[peer := Progress_new (last + 1)]> (progress s)) s))
    as (pr & Hr & Hpr). exists pr. split; [done|]. intros q p Hp.
  destruct (Hpr q p Hp) as [[Hq ->]|Hin]; [left; split; [by right|done]|].
  cbn in Hin. apply lookup_insert_Some in Hin as [[<- <-]|[_ ?]]; [left; split; [by left|done]|by right].
Qed.

Lemma become_leader_run id last ps s :
  u64 (last + 1) -> exists pr, become_leader id last ps s =
    (Done tt, MkSM (current_term s) (voted_for s) Leader (commit_index s) (last_applied s)
                (Some id) pr (votes_received s)) /\ fresh_peers last ps pr.
Proof.
  intros Hl. unfold become_leader. unfold bind at 1, modify at 1.
  match goal with |- exists pr, for_each ps _ ?s1 = _ /\ _ =>
    destruct (fresh_peers_run last ps s1 Hl) as (pr & Hr & Hpr) end.
  exists pr. split; [exact Hr|]. intros peer p Hp.
  destruct (Hpr peer p Hp) as [?|Hp']; [done|]. cbn in Hp'. by rewrite lookup_empty in Hp'.
Qed.

Lemma become_leader_all id last ps s peer :
  u64 (last + 1) -> peer ∈ ps ->
  progress (become_leader id last ps s).2 !! peer = Some (Progress_new (last + 1)).
Proof.
  intros Hl Hp. unfold become_leader. unfold bind at 1, modify at 1.
  match goal with |- context [for_each ps _ ?s1] => generalize s1 end. clear s. intros s.
  assert (peer ∈ ps \/ progress s !! peer = Some (Progress_new (last + 1))) as Hin by by left.
  clear Hp. revert s Hin. induction ps as [|q ps IH]; intros s Hin; cbn [for_each].
  { by destruct Hin as [[]%not_elem_of_nil|]. }
  rewrite u64_add_small in * by done. unfold bind at 1. apply IH. cbn.
  destruct (decide (q = peer)) as [->|Hne]; [right; apply lookup_insert_eq|].
  rewrite lookup_insert_ne by done. destruct Hin as [[?|?]%elem_of_cons|?]; [done|by left|by right].
Qed.

(** The state machine of a new leader. *)
Definition leader_sm n (pr : gmap NodeId Progress) : RaftStateMachine :=
  MkSM (current_term (sm n)) (voted_for (sm n)) Leader (commit_index (sm n))
    (last_applied (sm n)) (Some (cfg_id (config n))) pr (votes_received (sm n)).

Lemma win_election_run n :
  log_ok n -> u64 (max_append_entries (config n) * 4096) ->
  exists es pr, win_election n = (Done tt, set_effects (effects n ++ es) (set_sm (leader_sm n pr) n)) /\
    fresh_peers (lv_last (log n)) (cfg_peers (config n)) pr /\
    forall peer, peer ∈ cfg_peers (config n) ->
      pr !! peer = Some (Progress_new (lv_last (log n) + 1)).
Proof.
  intros Hn Hm. pose proof (wf_bound _ (log_wf_view _ Hn)) as Hu. fold (log n) in Hu.
  assert (u64 (lv_last (log n) + 1)) as Hl by (unfold u64 in *; lia).
  destruct (become_leader_run (cfg_id (config n)) (lv_last (log n)) (cfg_peers (config n)) (sm n) Hl)
    as (pr & Hb & Hpr).
  unfold win_election. unfold bind at 1, gets at 1. unfold bind at 1.
  rewrite last_index_or_0_run by done. unfold bind at 1, on_sm, zoom. rewrite Hb.
  cbn [fst snd]. unfold bind at 1, emit at 1, modify at 1. set (n1 := set_effects _ _).
  destruct (replicate_all_run n1) as (es & ->); [done|by eapply fresh_peers_ok, Hpr|done|].
  exists (MetricInc leader_changes 1 :: es), pr. cbn. rewrite <- app_assoc. split; [done|].
  split; [done|]. intros peer Hp.
  rewrite <- (become_leader_all (cfg_id (config n)) _ _ (sm n) peer Hl Hp). by rewrite Hb.
Qed.

Lemma win_election_returns n :
  log_ok n -> indices_ok n -> u64 (max_append_entries (config n) * 4096) ->
  returns win_election n fits.
Proof.
  intros Hn Hi Hm. destruct (win_election_run n Hn Hm) as (es & pr & Hr & _).
  eexists _, _. split; [exact Hr|]. by split.
Qed.

Lemma advance_returns n : node_ok n -> returns maybe_advance_commit n node_ok.
Proof.
  intros [Hn Hp Hpr Hi Hm]. destruct (decide (role (sm n) = Leader)) as [Hr|Hr].
  - pose proof Hi as [Hla Hci].
    destruct (maybe_advance_commit_run n Hn Hp Hr Hla)
      as (o & n' & Hrun & Hg & Hs & Hp' & Hn' & _ & Hc & _).
    exists tt, n'. split; [done|]. split; [done|done| | |by rewrite Hc].
    + unfold progress_ok, peer_progress. rewrite Hs. by destruct o.
    + unfold indices_ok. rewrite Hs. destruct o as [c|]; [|done]. destruct Hg as [Hg _].
      pose proof (wf_bound _ (log_wf_view _ Hn)). unfold log, u64 in *. cbn. lia.
  - exists tt, n. unfold maybe_advance_commit, bind, get_sm, gets.
    by rewrite bool_decide_true.
Qed.

Lemma apply_returns n : node_ok n -> returns apply_committed n node_ok.
Proof.
  intros [Hn Hp Hpr [Hla Hci] Hm]. pose proof (log_wf_view _ Hn) as Hv. fold (log n) in Hv.
  destruct (decide (lv_base (log n) <= last_applied (sm n) /\
                    commit_index (sm n) <= lv_last (log n))) as [[Hb Hl]|Hout].
  { destruct (apply_committed_run n Hn Hb Hla Hl) as (Hr & _). eexists _, _.
    split; [exact Hr|]. split; [done..| |done]. unfold indices_ok. cbn. split; [lia|done]. }
  exists tt, n. split; [|by split]. unfold apply_committed, u64 in *.
  unfold bind at 1, get_sm at 1, gets at 1. rewrite u64_add_small by (unfold u64; lia).
  unfold bind at 1, ret at 1. unfold bind at 1, get_sm at 1, gets at 1. case_match; [done|].
  rewrite u64_add_small by (unfold u64; lia). unfold bind at 1, ret at 1. unfold bind at 1.
  destruct (entries_run (last_applied (sm n) + 1) (commit_index (sm n) + 1) None n Hn)
    as (r & -> & Hr). unfold spec_entries in Hr.
  destruct (N.ltb_spec (last_applied (sm n) + 1) (lv_base (log n) + 1)); [by subst r|].
  rewrite (proj2 (N.ltb_lt _ _)) in Hr by lia. by subst r.
Qed.

(** *** Handlers *)

Lemma vote_response_returns peer resp n :
  node_ok n -> returns (handle_vote_response peer resp) n fits.
Proof.
  intros [Hn _ _ Hi Hm]. unfold returns, handle_vote_response.
  unfold bind at 1, get_sm at 1, gets at 1. case_match; [by apply step_down_returns|].
  unfold bind at 1, get_sm at 1, gets at 1. case_match; [|by apply returns_ret].
  unfold bind at 1, upd_sm at 1, modify at 1. unfold bind at 1, gets at 1.
  unfold bind at 1, get_sm at 1, gets at 1.
  case_match; [by apply win_election_returns|by apply returns_ret].
Qed.

(** A leader's progress changes, then the commit index may. *)
Lemma progress_returns pr n :
  node_ok n -> map_Forall (fun _ => peer_ok) pr ->
  returns maybe_advance_commit (set_sm (set_progress pr (sm n)) n) node_ok.
Proof. intros [Hn Hp _ Hi Hm] Hpr. by apply advance_returns. Qed.

Lemma record_returns peer p li n :
  node_ok n -> progress (sm n) !! peer = Some p -> u64 (li + 1) ->
  returns (record_match peer p li ;;; maybe_advance_commit) n node_ok.
Proof.
  intros Hn Hp Hl. destruct (ok_progress _ Hn peer p Hp) as (Hp1 & Hp2 & Hm).
  unfold returns, bind. rewrite record_match_run by done. apply progress_returns; [done|].
  apply insert_progress_ok; [apply Hn|]. unfold peer_ok, u64 in *. cbn. lia.
Qed.

Lemma fits_of_ok {A} (m : M (RaftNodeInner St) A) n : returns m n node_ok -> returns m n fits.
Proof. intros (a & n' & Hr & [Hl _ _ Hi _]). by exists a, n'. Qed.

Lemma append_response_returns peer li resp n :
  node_ok n -> u64 (li + 1) -> u64 (aer_conflict_index resp) ->
  returns (handle_append_response peer li resp) n fits.
Proof.
  intros Hn Hl Hc. unfold handle_append_response, returns.
  unfold bind at 1, get_sm at 1, gets at 1. case_match; [apply step_down_returns; apply Hn|].
  unfold bind at 1, get_sm at 1, gets at 1. case_match; [apply returns_ret; split; apply Hn|].
  unfold bind at 1, get_sm at 1, gets at 1. apply fits_of_ok.
  destruct (progress (sm n) !! peer) as [p|] eqn:Hp; [|by apply advance_returns].
  case_match; [by apply record_returns|].
  destruct (ok_progress _ Hn peer p Hp) as (Hp1 & Hp2 & Hm).
  apply progress_returns; [done|]. apply insert_progress_ok; [apply Hn|].
  unfold peer_ok, u64 in *. cbn. destruct (N.ltb_spec 0 (aer_conflict_index resp)); lia.
Qed.

Lemma snapshot_response_returns peer li resp n :
  node_ok n -> u64 (li + 1) -> returns (handle_snapshot_response peer li resp) n fits.
Proof.
  intros Hn Hl. unfold handle_snapshot_response, returns.
  unfold bind at 1, get_sm at 1, gets at 1. case_match; [apply step_down_returns; apply Hn|].
  unfold bind at 1, get_sm at 1, gets at 1. case_match; [apply returns_ret; split; apply Hn|].
  unfold bind at 1, get_sm at 1, gets at 1. apply fits_of_ok.
  destruct (progress (sm n) !! peer) as [p|] eqn:Hp; [|by apply advance_returns].
  by apply record_returns.
Qed.

Lemma append_entries_returns req n :
  node_ok n -> input_ok n (InAppendEntries req) -> returns (on_append_entries req) n fits.
Proof.
  intros [Hn Hp _ [Hla Hci] _] [Hf Hc].
  destruct (on_append_entries_run n req Hn Hp Hf)
    as (n' & r & Hr & _ & Hn' & _ & _ & Hcase). exists (Ok r), n'. split; [done|]. split; [done|].
  pose proof (wf_bound _ (log_wf_view _ Hn')) as Hu. fold (log n') in Hu.
  assert (last_applied (following_sm req (sm n)) = last_applied (sm n)) as Hfl
    by apply observed_sm_applied.
  assert (commit_index (following_sm req (sm n)) = commit_index (sm n)) as Hfc
    by apply observed_sm_commit.
  unfold indices_ok. destruct (N.ltb_spec (ae_term req) (current_term (sm n)));
    [by destruct Hcase as [-> _]|].
  destruct (prev_matches (log n) req); destruct Hcase as (_ & Hl & ->);
    [|by rewrite Hfl, Hfc]. cbn [last_applied commit_index set_commit_index]. rewrite Hfl.
  split; [by apply Hc|].
  rewrite Hl in Hu. unfold commit_after, u64 in *.
  destruct (N.ltb_spec (commit_index (sm n)) (ae_leader_commit req)); lia.
Qed.

Lemma install_snapshot_returns req n :
  node_ok n -> input_ok n (InInstallSnapshot req) -> returns (on_install_snapshot req) n fits.
Proof.
  intros [Hn Hp _ Hi _] [Hin Hu].
  destruct (on_install_snapshot_run n req Hn Hp Hin) as (n' & Hr & _ & Hn' & _ & _ & Hcase).
  eexists _, n'. split; [exact Hr|]. split; [done|]. destruct Hi as [Hla Hci].
  destruct (is_term req <? current_term (sm n)); [by subst n'|].
  destruct (is_done req); destruct Hcase as (_ & _ & Hs); unfold indices_ok; rewrite Hs; cbn;
    rewrite ?observed_sm_applied, ?observed_sm_commit; unfold u64 in *; lia.
Qed.

Lemma request_vote_returns req n : node_ok n -> returns (on_request_vote req) n fits.
Proof.
  intros [Hn Hp _ Hi _].
  destruct (on_request_vote_run n req Hn (or_introl Hp)) as (n' & Hr & Hs & _ & Hn' & _).
  eexists _, n'. split; [exact Hr|]. split; [done|]. unfold indices_ok. rewrite Hs.
  unfold observed_sm. by repeat case_match.
Qed.

Lemma election_returns n :
  node_ok n -> u64 (current_term (sm n) + 1) -> returns start_election n fits.
Proof.
  intros [Hn _ _ Hi _] Hu. destruct (start_election_run n Hn Hu) as (n' & Hr & _ & Hn' & _ & Hs & _).
  eexists _, n'. split; [exact Hr|]. split; [done|]. unfold indices_ok. rewrite Hs. by case_match.
Qed.

Lemma proposal_returns p n :
  node_ok n -> u64 (lv_last (log n) + 3) -> returns (on_proposal p) n fits.
Proof.
  intros [Hn _ Hp Hi Hm] Hu. destruct (on_proposal_run n p Hn Hp Hu Hm) as (n' & Hr & Hs & Hn' & _).
  eexists _, n'. split; [exact Hr|]. split; [done|]. unfold indices_ok. by rewrite Hs.
Qed.

Lemma heartbeat_returns n : node_ok n -> returns on_heartbeat n fits.
Proof.
  intros Hn. apply fits_of_ok. unfold on_heartbeat.
  eapply returns_bind; [by apply replicate_all_returns|intros _ n1 Hn1].
  eapply returns_bind; [by apply advance_returns|intros _ n2 Hn2]. by apply apply_returns.
Qed.

Lemma restart_returns n : node_ok n -> returns restart n fits.
Proof.
  intros [Hn Hp _ [Hla Hci] _]. eexists _, _. split; [apply restart_run|]. split; [done|].
  unfold indices_ok, restarted. cbn. rewrite Hp. cbn. split; [lia|done].
Qed.

Lemma dispatch_returns msg n :
  node_ok n -> input_ok n (InMessage msg) -> returns (dispatch msg) n fits.
Proof.
  intros Hn Hi. destruct msg; cbn [dispatch]; cbn in Hi;
    try (eexists _, _; split; [reflexivity|split; apply Hn]).
  - by apply proposal_returns.
  - by apply append_response_returns; [|apply Hi..].
  - by apply vote_response_returns.
  - by apply snapshot_response_returns.
Qed.

Lemma handle_fits i n : node_ok n -> input_ok n i -> returns (handle i) n fits.
Proof.
  intros Hn Hi.
  destruct i; cbn [handle]; (eapply returns_bind; [|intros ? ? HQ; by apply returns_ret]).
  - by apply append_entries_returns.
  - by apply request_vote_returns.
  - by apply install_snapshot_returns.
  - by apply dispatch_returns.
  - by apply election_returns.
  - by apply heartbeat_returns.
  - by apply restart_returns.
Qed.

Lemma handle_node_ok i n :
  node_ok n -> input_ok n i -> exists r n', handle i n = (Done r, n') /\ node_ok n'.
Proof.
  intros Hn Hi. destruct (handle_fits i n Hn Hi) as (r & n' & Hr & Hl & Hx).
  destruct (input_ok_admissible n i Hi) as [Ha Hb]. destruct Hn as [Hl0 Hp Hpr Hx0 Hm].
  exists r, n'. split; [done|].
  pose proof (handle_preserves i n Hp) as Hp'.
  pose proof (handle_progress_ok i n Hl0 Ha Hb Hpr) as Hpr'.
  pose proof (handle_keeps_config i n) as Hc. rewrite Hr in Hp', Hpr', Hc. cbn [snd] in *.
  split; [done..|]. by rewrite Hc.
Qed.

(** The inputs of a run, each fitting the node it finds. *)
Fixpoint inputs_ok n (ins : list Input) : Prop :=
  match ins with
  | [] => True
  | i :: ins' => input_ok n i /\ inputs_ok (handle i n).2 ins'
  end.

(** C21. No handler panics: over any run of a node whose storage keeps the
    laws of [Storage], with any sequence of RPCs, messages, elections, heartbeats
    and restarts that fit the node they find, every handler returns, and every
    node on the way is well formed: its log and hard state stored, nothing
    applied above the commit index, progress that can be decremented. *)
Theorem run_never_panics ins n (Hn : node_ok n) (Hi : inputs_ok n ins) :
  Forall (fun '(_, o, n') => o <> Panicked /\ node_ok n') (run n ins).
Proof.
  revert n Hn Hi. induction ins as [|i ins IH]; intros n Hn Hi; cbn [run]; [done|].
  destruct Hi as [Hi Hins]. destruct (handle_node_ok i n Hn Hi) as (r & n' & Hr & Hn').
  rewrite Hr in *. constructor; [by split|]. by apply IH.
Qed.

(** C33. Why AppendEntries must not take the commit index below the applied one:
    a leader whose next commit is below what it has applied moves its commit
    index there, below the applied one, and stores it; then the subtraction for
    the metric underflows. In a build with overflow checks the leader panics
    there: no waiting proposal is answered, those the commit covers included, and
    they are kept. In a build without them nothing panics: the counter of
    committed entries grows by the difference modulo 2^64, and the proposals
    covered are answered. *)
Theorem regressed_commit n c (Hn : log_ok n) (Hr : role (sm n) = Leader)
    (Hg : greatest_in (commit_index (sm n)) (lv_last (log n)) (node_committable n) (Some c))
    (Hc : c < last_applied (sm n)) :
  exists o n', maybe_advance_commit n = (o, n') /\
    commit_index (sm n') = c /\ persisted n' /\ ~ indices_ok n' /\
    let saved := effects n ++ [MetricSet current_term_gauge (u64_as_i64 (current_term (sm n)))] in
    if @overflow_checks prof
    then o = Panicked /\ pending n' = pending n /\ effects n' = saved
    else o = Done tt /\ pending n' = waiting c (pending n) /\
      effects n' = saved ++
        [MetricInc entries_committed (u64_modulus + c - last_applied (sm n));
         MetricSet commit_index_gauge (u64_as_i64 c)] ++ answered c (pending n).
Proof.
  unfold maybe_advance_commit. unfold bind at 1, get_sm at 1, gets at 1.
  rewrite bool_decide_false by (rewrite Hr; intros H; by apply H).
  unfold bind at 1. rewrite last_index_or_0_run by done.
  unfold bind at 1, gets at 1. unfold bind at 1, get_sm at 1, gets at 1.
  unfold bind at 1, get_sm at 1, gets at 1.
  destruct (scan_commit_run (N.to_nat (lv_last (log n) - commit_index (sm n)))
              (lv_last (log n)) n Hn ltac:(done)) as (o & Hscan & Hg').
  rewrite (greatest_in_unique _ _ _ _ _ Hg' Hg) in Hscan.
  unfold bind at 1. rewrite Hscan. destruct Hg as [Hgc _]. cbn [default].
  cbv beta zeta delta [id].
  assert ((commit_index (sm n) <? c) = true) as -> by (apply N.ltb_lt; lia). unfold when.
  unfold bind at 1. unfold bind at 1, upd_sm at 1, modify at 1. set (n1 := set_sm _ n).
  unfold bind at 1. destruct (save_run n1 Hn) as (s' & -> & Hs & Hv & Hd).
  unfold bind at 1, get_sm at 1, gets at 1. unfold u64_sub.
  rewrite (proj2 (N.leb_gt _ _)) by (cbn; lia). destruct overflow_checks; unfold bind, panic, ret.
  - do 2 eexists. split; [reflexivity|]. do 2 (split; [done|]). split; [|done].
    unfold indices_ok. cbn. lia.
  - unfold emit, get_sm, gets, modify. rewrite notify_pending_run.
    do 2 eexists. split; [reflexivity|]. do 2 (split; [done|]). cbn.
    split; [unfold indices_ok; cbn; lia|]. by rewrite <- !app_assoc.
Qed.
End total.

Section examples.
Local Existing Instance dev_profile.

Lemma ex_node_node_ok : node_ok (HL := MemStorage_log) (HD := MemStorage_durable) ex_node.
Proof. split; [by_compute|reflexivity|apply map_Forall_empty|split; by_compute|by_compute]. Qed.

(** Append, win an election, take and commit a proposal, crash. *)
Definition ex_life : list Input :=
  [InAppendEntries ex_append; InElectionTimeout;
   InMessage (VoteResponse 2 (MkRequestVoteResponse 5 true));
   InMessage (Propose (MkProposal [x61] (Some 7)));
   InMessage (AppendResponse 2 6 (MkAppendEntriesResponse 5 true 0 0));
   InHeartbeat; InRestart].

Lemma run_never_panics_witness :
  commit_index (sm (default ex_node (snd <$> last (run ex_node ex_life)))) = 6 /\
  Forall (fun '(_, o, _) => o <> Panicked) (run ex_node ex_life).
Proof.
  split; [vm_compute; reflexivity|].
  eapply Forall_impl; [apply (run_never_panics ex_life ex_node ex_node_node_ok)|].
  - cbn [inputs_ok ex_life]. split; [split; [apply ex_append_follows|by_compute]|].
    repeat split; by_compute.
  - intros [[i o] n'] [Ho _]. exact Ho.
Defined.

(** Everything up to 6 is applied, by a restart; a late request for entry 4 with
    a higher commit index arrives; the node then leads term 4, proposes entry
    5, and node 2 stores it. *)
Definition ex_applied : RaftNodeInner MemStorageInner :=
  MkNode (MkSM 3 None Follower 6 0 (Some 2) ∅ ∅) ex_config
    (MkMem (MkHardState 3 0 6) (mem_entries ex_mem ++ [ex_entry 3 6 []]) (mem_snapshot ex_mem))
    [] None [].

Definition ex_regressed : RaftNodeInner MemStorageInner :=
  let ex_late7 := MkAppendEntriesRequest 3 2 3 1
                    [log_entry_to_proto_entry (ex_entry 2 4 [x61; x62])] 7 in
  let n := default ex_applied (snd <$> last (run ex_applied
    [InRestart; InAppendEntries ex_late7; InElectionTimeout;
     InMessage (VoteResponse 2 (MkRequestVoteResponse 4 true));
     InMessage (Propose (MkProposal [x61] (Some 7)))])) in
  set_sm (set_progress {[2 := MkProgress 6 5 false; 3 := MkProgress 5 0 false]} (sm n)) n.

Lemma ex_regressed_commits :
  greatest_in (commit_index (sm ex_regressed)) (lv_last (log (H0 := MemStorage_log) ex_regressed))
    (node_committable (HL := MemStorage_log) ex_regressed) (Some 5).
Proof.
  assert (commit_index (sm ex_regressed) = 4 /\
          lv_last (log (H0 := MemStorage_log) ex_regressed) = 5) as [-> ->]
    by (split; vm_compute; reflexivity).
  split; [lia|]. split; [split; vm_compute; done|lia].
Qed.

Lemma regressed_commit_witness :
  (exists n', maybe_advance_commit ex_regressed = (Panicked, n') /\
     commit_index (sm n') = 5 /\ pending n' = [(5, 7)]) /\
  (exists n', maybe_advance_commit (prof := release_profile) (H := MemStorage (prof := release_profile))
       ex_regressed = (Done tt, n') /\ commit_index (sm n') = 5 /\ pending n' = []).
Proof.
  split.
  - destruct (regressed_commit (HL := MemStorage_log) (HD := MemStorage_durable)
                ex_regressed 5 ltac:(by_compute) ltac:(vm_compute; reflexivity)
                ex_regressed_commits ltac:(vm_compute; reflexivity))
      as (o & n' & Hr & Hc & _ & _ & -> & Hp & _).
    exists n'. split; [exact Hr|]. split; [exact Hc|]. rewrite Hp. vm_compute. reflexivity.
  - destruct (regressed_commit (prof := release_profile)
                (HL := MemStorage_log (prof := release_profile))
                (HD := MemStorage_durable (prof := release_profile))
                ex_regressed 5 ltac:(by_compute) ltac:(vm_compute; reflexivity)
                ex_regressed_commits ltac:(vm_compute; reflexivity))
      as (o & n' & Hr & Hc & _ & _ & -> & Hp & _).
    exists n'. split; [exact Hr|]. split; [exact Hc|]. rewrite Hp. vm_compute. reflexivity.
Defined.
End examples.
