(* ===== verification/CatchUp.v ===== *)
(** * A follower catches up

    The two sides of replication in a loop: a leader sends to one peer, the peer
    answers, the leader takes note and sends again. Theorem: after a number of
    rounds bounded by the length of the log, the follower's log is the leader's,
    and the leader knows. *)

From Stdlib Require Import Lia Init.Byte.
From stdpp Require Import base numbers list option gmap sets fin_maps strings.
From S2P Require Import Prelude.
From S2P Require Import Core.
From S2P Require Import Proto.
From S2P Require Import Storage.
From S2P Require Import MemStorage.
From S2P Require Import StateMachine.
From S2P Require Import Node.
From S2P Require Import Handlers.
From S2P Require Import Votes.
From S2P Require Import NodeLog.
From S2P Require Import RequestVote.
From S2P Require Import AppendEntries.
From S2P Require Import Replication.
From S2P Require Import Commit.
From S2P Require Import Progress.
From S2P Require Import Proposals.
From S2P Require Import Total.

Section catch_up.
Context {prof : BuildProfile} {St : Type}
  `{HS : Storage St, HL : !LogStorage St, HD : !DurableStorage St}.
Implicit Types n m : RaftNodeInner St.

(** One round: the leader [m] sends to [peer], which is the node [n]; the answer
    of an AppendEntries arrives at the leader. *)
Definition round (peer : NodeId) (mn : RaftNodeInner St * RaftNodeInner St) :
    RaftNodeInner St * RaftNodeInner St :=
  let m1 := (replicate_to peer mn.1).2 in
  match last (effects m1) with
  | Some (SpawnAppendEntries _ req li) =>
      match on_append_entries req mn.2 with
      | (Done (Ok r), n1) => ((handle_append_response peer li r m1).2, n1)
      | (_, n1) => (m1, n1)
      end
  | _ => (m1, mn.2)
  end.

(** *** The leader's side *)

(** A leader of term [t] with the log [L], and its view of [peer]. *)
Record leads (L : LogView) (t : Term) (peer : NodeId) (p : Progress) m : Prop := {
  ld_ok : node_ok m;
  ld_role : role (sm m) = Leader;
  ld_term : current_term (sm m) = t;
  ld_log : log m = L;
  ld_peer : progress (sm m) !! peer = Some p;
}.

(** What an answer makes of the leader's view of its peer. *)
Definition noted (r : AppendEntriesResponse) (li : LogIndex) (p : Progress) : Progress :=
  if aer_success r then matched p li else backed_off p (aer_conflict_index r).

Definition noting (peer : NodeId) (p : Progress) m : RaftNodeInner St :=
  set_sm (set_progress (<[peer := p]> (progress (sm m))) (sm m)) m.

Lemma noting_ok peer r li p m :
  node_ok m -> progress (sm m) !! peer = Some p -> u64 (li + 1) -> u64 (aer_conflict_index r) ->
  node_ok (noting peer (noted r li p) m).
Proof.
  intros [? ? Hmp ? ?] Hp Hli Hc. destruct (Hmp peer p Hp) as (Hp1 & Hp2 & Hp3).
  split; try done. apply insert_progress_ok; [done|].
  unfold noted, peer_ok, matched, backed_off, u64 in *. destruct (aer_success r); cbn; [lia|].
  destruct (N.ltb_spec 0 (aer_conflict_index r)); lia.
Qed.

Lemma append_response_run peer r li p m :
  role (sm m) = Leader -> aer_term r <= current_term (sm m) ->
  progress (sm m) !! peer = Some p -> peer_ok p -> u64 (li + 1) ->
  handle_append_response peer li r m = maybe_advance_commit (noting peer (noted r li p) m).
Proof.
  intros Hr Ht Hp (_ & _ & Hp3) Hli. unfold handle_append_response.
  unfold bind at 1, get_sm at 1, gets at 1. rewrite (proj2 (N.ltb_ge _ _)) by lia.
  unfold bind at 1, get_sm at 1, gets at 1.
  rewrite bool_decide_false by (rewrite Hr; intros H; by apply H).
  unfold bind at 1, get_sm at 1, gets at 1. rewrite Hp. unfold noting, noted.
  destruct (aer_success r); [|done]. unfold bind at 1. by rewrite record_match_run.
Qed.

Lemma response_leads L t peer p li r m :
  leads L t peer p m -> aer_term r <= t -> u64 (li + 1) -> u64 (aer_conflict_index r) ->
  leads L t peer (noted r li p) (handle_append_response peer li r m).2.
Proof.
  intros [Hm Hr Ht HL' Hp] Hrt Hli Hc. pose proof (ok_progress _ Hm peer p Hp) as Hpok.
  rewrite (append_response_run peer r li p) by (done || by rewrite Ht).
  pose proof (noting_ok peer r li p m Hm Hp Hli Hc) as Hm1. set (m1 := noting _ _ m) in *.
  destruct (maybe_advance_commit_run m1 (ok_log _ Hm1) (ok_persisted _ Hm1) Hr
              (proj1 (ok_indices _ Hm1))) as (o & m2 & Hrun & _ & Hs & _ & _ & Hl & _).
  destruct (advance_returns m1 Hm1) as (a & m2' & Hrun' & Hok). rewrite Hrun in Hrun'.
  injection Hrun' as _ <-. rewrite Hrun. cbn [snd].
  split; [done|by rewrite Hs; destruct o|by rewrite Hs; destruct o|by rewrite Hl|].
  rewrite Hs. assert (progress (sm m1) !! peer = Some (noted r li p)) as <-
    by apply lookup_insert_eq. by destruct o.
Qed.

(** *** The follower's side *)

(** A node of term at most [t] whose log starts at [b], where the leader's log
    [L] has the same term, and matches [L]. *)
Record tracks (b : LogIndex) (L : LogView) (t : Term) n : Prop := {
  tr_log : log_ok n;
  tr_persisted : persisted n;
  tr_term : current_term (sm n) <= t;
  tr_base : lv_base (log n) = b;
  tr_base_term : b = 0 \/ lv_base_term (log n) = term_at L b;
  tr_match : logs_match b (log n) L;
}.

(** The node has the leader's entries below [next]. *)
Definition agrees (b : LogIndex) (L : LogView) (next : LogIndex) n : Prop :=
  forall j, b < j < next -> lv_log (log n) !! j = lv_log L !! j.

Lemma base_matches b L t req n :
  tracks b L t n -> sent_from L (b + 1) req -> prev_matches (log n) req = true.
Proof.
  intros [Hn _ _ Hb Hbt _] [Hp Ht _ _]. unfold prev_matches. rewrite Hp, Ht.
  replace (b + 1 - 1) with b by lia. destruct (N.eqb_spec b 0) as [|H0]; [done|].
  destruct Hbt as [?|Hbt]; [done|]. unfold spec_term.
  rewrite Hb, (proj2 (N.eqb_neq _ _)), N.ltb_irrefl, N.eqb_refl, Hbt by done.
  apply N.eqb_refl.
Qed.

Lemma agreeing_matches b L t next req n :
  wf_view L -> lv_base L <= b -> tracks b L t n -> sent_from L next req ->
  b < next <= lv_last L + 1 -> agrees b L next n -> prev_matches (log n) req = true.
Proof.
  intros HwL HbL Htr Hs Hnext Hag.
  destruct (decide (next = b + 1)) as [->|Hne]; [by eapply base_matches|].
  pose proof (log_wf_view _ (tr_log _ _ _ _ Htr)) as Hv. fold (log n) in Hv.
  assert (is_Some (lv_log L !! (next - 1))) as [e He] by (apply (wf_dom _ HwL); lia).
  unfold prev_matches. rewrite (sf_prev _ _ _ Hs), (sf_prev_term _ _ _ Hs).
  rewrite (spec_term_lookup _ _ e Hv) by (rewrite Hag by lia; done).
  rewrite (term_at_lookup L _ e HwL He), N.eqb_refl. apply orb_true_r.
Qed.

(** What a request of the leader does at the follower. *)
Lemma append_tracks b L t next req n :
  wf_view L -> lv_base L <= b -> tracks b L t n -> sent_from L next req ->
  ae_term req = t -> b < next <= lv_last L + 1 ->
  exists n' r, on_append_entries req n = (Done (Ok r), n') /\ tracks b L t n' /\
    aer_term r = t /\
    if prev_matches (log n) req
    then aer_success r = true /\ aer_conflict_index r = 0 /\
         agrees b L (next + nlen (new_entries req)) n'
    else aer_success r = false /\ b < aer_conflict_index r < next.
Proof.
  intros HwL HbL Htr Hs Hreq Hnext. pose proof Htr as [Hn Hp Ht Hb Hbt Hm].
  pose proof (log_wf_view _ Hn) as Hv. fold (log n) in Hv.
  pose proof (sent_follows (log n) L next req HwL Hs ltac:(lia) ltac:(lia) ltac:(lia) ltac:(lia))
    as Hf.
  destruct (on_append_entries_run n req Hn Hp Hf)
    as (n' & r & Hr & Hp' & Hn' & _ & _ & Hcase).
  exists n', r. split; [done|]. rewrite Hreq, (proj2 (N.ltb_ge _ _)), N.max_r in Hcase by done.
  assert (current_term (following_sm req (sm n)) = t) as Hft.
  { unfold following_sm. cbn. rewrite observed_sm_term, Hreq. lia. }
  destruct (prev_matches (log n) req) eqn:Hok.
  - destruct Hcase as (-> & Hl & Hsm). split; [|split; [done|split; [done|split; [done|]]]].
    + split; rewrite ?Hl, ?spec_append_base, ?spec_append_base_term; try done.
      { rewrite Hsm. change (current_term (following_sm req (sm n)) <= t). lia. }
      apply (append_keeps_match b (log n) L L next req); try done; lia.
    + unfold agrees. rewrite Hl. apply (appended_agrees b (log n) L next req); try done; lia.
  - destruct Hcase as ((ci & ct & -> & Hrej) & Hl & Hsm).
    split; [|split; [done|split; [done|]]].
    + split; rewrite ?Hl; try done. rewrite Hsm, Hft. lia.
    + assert (next <> b + 1) as Hne by (intros ->; by rewrite (base_matches b L t) in Hok).
      cbn. rewrite (sf_prev _ _ _ Hs), Hb in Hrej. unfold search_result in Hrej.
      destruct (spec_term (log n) (next - 1)) as [pt|e].
      * destruct Hrej as (_ & _ & Hsr). destruct (Hsr ltac:(lia)) as [? _]. lia.
      * destruct Hrej as [-> _]. lia.
Qed.

(** *** Both sides *)

(** The leader knows how far the follower is, or does not yet. *)
Definition view_of (b : LogIndex) (L : LogView) (known : bool) (p : Progress) n : Prop :=
  if known
  then p = MkProgress (next_index p) (next_index p - 1) false /\ agrees b L (next_index p) n
  else match_index p = 0.

Definition syncing (b : LogIndex) (L : LogView) (t : Term) (peer : NodeId) (known : bool)
    (p : Progress) (mn : RaftNodeInner St * RaftNodeInner St) : Prop :=
  leads L t peer p mn.1 /\ tracks b L t mn.2 /\
  b < next_index p <= lv_last L + 1 /\ view_of b L known p mn.2.

(** The rounds left, at most. *)
Definition work (b : LogIndex) (L : LogView) (known : bool) (p : Progress) : N :=
  if known then lv_last L + 1 - next_index p
  else (next_index p - 1 - b) + (lv_last L - b) + 1.

Lemma leader_sends b L t peer p m :
  leads L t peer p m -> lv_base L <= b -> b < next_index p ->
  exists req, replicate_to peer m = (Done tt, set_effects (effects m ++
      [SpawnAppendEntries peer req (next_index p - 1 + nlen (ae_entries req))]) m) /\
    ae_term req = t /\ sent_from L (next_index p) req.
Proof.
  intros [[Hl _ Hpr _ Hc] _ Ht HL' Hp] Hb Hnext. destruct (Hpr peer p Hp) as (H1 & Hu & _).
  destruct (replicate_to_run m peer p Hl Hp H1 Hu Hc) as (e & Hr & He). unfold replication in He.
  rewrite HL', (proj2 (N.ltb_ge _ _)) in He by lia.
  destruct He as (req & -> & Hreq & _ & _ & Hs). exists req. rewrite Hr. by subst t.
Qed.

(** The peer answers a request made from the leader's log for its next index, and
    the leader takes note: a unit of work less, if there is any. *)
Lemma answer_step b L t peer known p m n req :
  wf_view L -> lv_base L <= b <= lv_last L -> syncing b L t peer known p (m, n) ->
  ae_term req = t -> sent_from L (next_index p) req ->
  let li := next_index p - 1 + nlen (ae_entries req) in
  exists n' r known', on_append_entries req n = (Done (Ok r), n') /\
    aer_term r <= t /\ u64 (li + 1) /\ u64 (aer_conflict_index r) /\
    syncing b L t peer known' (noted r li p) ((handle_append_response peer li r m).2, n') /\
    work b L known' (noted r li p) <= work b L known p - 1.
Proof.
  intros HwL HbL (Hld & Htr & Hnext & Hview) Hreq Hs li. cbn [fst snd] in *.
  destruct (append_tracks b L t (next_index p) req n HwL ltac:(lia) Htr Hs Hreq Hnext)
    as (n' & r & Hr & Htr' & Hrt & Hcase).
  pose proof (sent_length L (next_index p) req HwL ltac:(lia) Hs) as [Hlen Hpos].
  assert (nlen (ae_entries req) = nlen (new_entries req)) as Hsame
    by (unfold nlen, new_entries; by rewrite length_map).
  pose proof (wf_bound _ HwL) as Hu. unfold u64 in Hu.
  assert (u64 (li + 1)) as Hli by (unfold u64, li; lia).
  assert (u64 (aer_conflict_index r)) as Hci
    by (unfold u64; destruct (prev_matches (log n) req); lia).
  pose proof (response_leads L t peer p li r m Hld ltac:(lia) Hli Hci) as Hld'.
  unfold noted in *. destruct (prev_matches (log n) req) eqn:Hok.
  - destruct Hcase as (Hsuc & _ & Hag). exists n', r, true.
    assert (matched p li = MkProgress (li + 1) li false) as Hmp.
    { unfold matched. replace (N.max (match_index p) li) with li; [done|].
      unfold view_of in Hview. destruct known; [|lia].
      destruct Hview as [-> _]. unfold li. cbn. lia. }
    rewrite Hsuc, Hmp in *. unfold work in *. cbn [next_index].
    split; [done|]. split; [lia|]. do 2 (split; [done|]). split; [|destruct known; unfold li; lia].
    split; [done|]. split; [done|]. split; [cbn; unfold li; lia|]. cbn. rewrite N.add_sub.
    split; [done|]. replace (li + 1) with (next_index p + nlen (new_entries req)); [done|].
    unfold li. lia.
  - destruct Hcase as (Hsuc & Hcr). rewrite Hsuc in Hld'. destruct known.
    { exfalso. destruct Hview as [_ Hag].
      pose proof (agreeing_matches b L t (next_index p) req n HwL ltac:(lia) Htr Hs Hnext Hag).
      congruence. }
    exists n', r, false. rewrite Hsuc.
    assert (next_index (backed_off p (aer_conflict_index r)) = aer_conflict_index r) as Hb.
    { cbn. by rewrite (proj2 (N.ltb_lt _ _)) by lia. }
    split; [done|]. split; [lia|]. do 2 (split; [done|]). split; [|unfold work; rewrite Hb; lia].
    split; [done|]. split; [done|]. split; [rewrite Hb; cbn; lia|done].
Qed.

(** A round with work left does some of it. *)
Lemma round_step b L t peer known p mn :
  wf_view L -> lv_base L <= b <= lv_last L -> syncing b L t peer known p mn ->
  0 < work b L known p ->
  exists known' p', syncing b L t peer known' p' (round peer mn) /\
                    work b L known' p' < work b L known p.
Proof.
  destruct mn as [m n]. intros HwL HbL Hsy Hw. pose proof Hsy as (Hld & Htr & Hnext & Hview).
  cbn [fst snd] in *.
  destruct (leader_sends b L t peer p m Hld) as (req & Hrep & Hreq & Hs); [lia..|].
  set (m1 := set_effects (effects m ++ _) m) in Hrep.
  assert (syncing b L t peer known p (m1, n)) as Hsy1.
  { split; [destruct Hld as [[] ? ? ? ?]; split; [by split|done..]|]. by split. }
  destruct (answer_step b L t peer known p m1 n req HwL HbL Hsy1 Hreq Hs)
    as (n' & r & known' & Hr & _ & _ & _ & Hsy' & Hw').
  exists known', (noted r (next_index p - 1 + nlen (ae_entries req)) p).
  split; [|lia]. unfold round. cbn [fst snd]. rewrite Hrep. cbn [snd]. unfold m1 in *.
  cbn [effects set_effects]. by rewrite last_snoc, Hr.
Qed.

Lemma rounds_sync b L t peer w known p mn :
  wf_view L -> lv_base L <= b <= lv_last L -> syncing b L t peer known p mn ->
  work b L known p <= N.of_nat w ->
  exists k p', (k <= w)%nat /\ syncing b L t peer true p' (Nat.iter k (round peer) mn) /\
               next_index p' = lv_last L + 1.
Proof.
  intros HwL HbL. revert known p mn. induction w as [|w IH]; intros known p mn Hsy Hw.
  { destruct known; unfold work in Hw; [|lia]. exists 0%nat, p. split; [done|].
    split; [done|]. destruct Hsy as (_ & _ & ? & _). lia. }
  destruct (decide (work b L known p = 0)) as [H0|H0].
  { destruct (IH known p mn Hsy ltac:(lia)) as (k & p' & Hk & ?). exists k, p'.
    split; [lia|done]. }
  destruct (round_step b L t peer known p mn HwL HbL Hsy ltac:(lia)) as (kn & p1 & Hsy1 & Hw1).
  destruct (IH kn p1 (round peer mn) Hsy1 ltac:(lia)) as (k & p' & Hk & Hsy' & Hn').
  exists (S k), p'. split; [lia|]. by rewrite Nat.iter_succ_r.
Qed.

(** A follower catches up: take a new leader, which does not know how far a
    peer is, and the peer, of no newer term, whose log matches the leader's and
    starts where the leader's has the same term. If the messages between them
    are delivered, at most twice as many rounds as the leader has entries
    there, and one more, make every entry of the leader's log the peer's, and
    the leader's progress for the peer exactly its own last index. *)
Theorem catch_up m n peer p (Hm : node_ok m) (Hr : role (sm m) = Leader)
    (Hn : log_ok n) (Hp : persisted n) (Ht : current_term (sm n) <= current_term (sm m))
    (Hpeer : progress (sm m) !! peer = Some p) (Hp0 : match_index p = 0)
    (Hnext : lv_base (log n) < next_index p <= lv_last (log m) + 1)
    (Hbase : lv_base (log m) <= lv_base (log n) <= lv_last (log m))
    (Hbt : lv_base (log n) = 0 \/
           lv_base_term (log n) = term_at (log m) (lv_base (log n)))
    (Hmatch : logs_match (lv_base (log n)) (log n) (log m)) :
  exists k m' n', Nat.iter k (round peer) (m, n) = (m', n') /\
    N.of_nat k <= 2 * (lv_last (log m) - lv_base (log n)) + 1 /\
    log m' = log m /\
    (forall j, lv_base (log n) < j <= lv_last (log m) ->
       lv_log (log n') !! j = lv_log (log m) !! j) /\
    progress (sm m') !! peer =
      Some (MkProgress (lv_last (log m) + 1) (lv_last (log m)) false).
Proof.
  set (b := lv_base (log n)) in *. set (L := log m) in *.
  assert (wf_view L) as HwL by apply (log_wf_view _ (ok_log _ Hm)).
  assert (syncing b L (current_term (sm m)) peer false p (m, n)) as Hsy.
  { split; [by split|]. split; [by split|]. by split. }
  destruct (rounds_sync b L _ peer (N.to_nat (work b L false p)) false p (m, n) HwL Hbase Hsy
              ltac:(lia)) as (k & p' & Hk & Hsy' & Hn').
  destruct (Nat.iter k (round peer) (m, n)) as [m' n'] eqn:Hit.
  destruct Hsy' as ([_ _ _ Hl' Hpr'] & Htr' & _ & Hview & Hag). cbn [fst snd] in *.
  exists k, m', n'. split; [exact Hit|]. split; [unfold work in Hk; lia|]. split; [done|].
  split; [intros j Hj; apply Hag; lia|]. rewrite Hpr', Hview, Hn'. do 2 f_equal. lia.
Qed.
End catch_up.

Section examples.
Local Existing Instance dev_profile.

(** Node 2 leads term 4; node 1 has an entry 5 of another term. *)
Definition ex_new_leader : RaftNodeInner MemStorageInner :=
  MkNode (MkSM 4 (Some 2) Leader 3 3 (Some 2) {[1 := MkProgress 7 0 false]} ∅)
    (MkRaftConfig 2 [1; 3] 100 300 600 128 10000 1024)
    (MkMem (MkHardState 4 2 3)
       [ex_entry 2 4 [x61; x62]; ex_entry 3 5 [x65]; ex_entry 4 6 [x66]]
       (Some (ex_snapshot 3 1))) [] None [].

Lemma ex_new_leader_ok : node_ok (HL := MemStorage_log) (HD := MemStorage_durable) ex_new_leader.
Proof.
  split; [by_compute|reflexivity| |split; by_compute|by_compute].
  apply map_Forall_singleton. repeat split; by_compute.
Qed.

Lemma ex_new_leader_match :
  logs_match 3 (log (H0 := MemStorage_log) ex_node) (log (H0 := MemStorage_log) ex_new_leader).
Proof.
  pose proof (log_wf_view _ ex_node_ok) as Hv.
  intros i e e' Hi He He' Ht j Hj.
  assert (is_Some (lv_log (log ex_node) !! i)) as Hin by eauto.
  apply (wf_dom _ Hv) in Hin. change (lv_last (log_view (storage ex_node))) with 5 in Hin.
  assert (i = 4 \/ i = 5) as [->| ->] by lia.
  - assert (j = 4) as -> by lia. reflexivity.
  - injection He as <-. injection He' as <-. discriminate Ht.
Qed.

Lemma catch_up_witness :
  exists k n', (Nat.iter k (round 1) (ex_new_leader, ex_node)).2 = n' /\ N.of_nat k <= 7 /\
    lv_log (log (H0 := MemStorage_log) n') !! 5 = Some (ex_entry 3 5 [x65]) /\
    lv_log (log (H0 := MemStorage_log) n') !! 6 = Some (ex_entry 4 6 [x66]).
Proof.
  destruct (catch_up (HL := MemStorage_log) (HD := MemStorage_durable) ex_new_leader ex_node 1
              (MkProgress 7 0 false) ex_new_leader_ok ltac:(reflexivity) ex_node_ok
              ex_node_persisted ltac:(by_compute) ltac:(reflexivity) ltac:(reflexivity)
              ltac:(by_compute) ltac:(by_compute) ltac:(right; reflexivity)
              ex_new_leader_match) as (k & m' & n' & Hit & Hk & _ & Hlog & _).
  exists k, n'. rewrite Hit. split; [reflexivity|].
  change (lv_base (log ex_node)) with 3 in *. change (lv_last (log ex_new_leader)) with 6 in *.
  split; [exact Hk|]. rewrite !Hlog by lia. split; reflexivity.
Defined.
End examples.
