(* ===== verification/EventLoop.v ===== *)
(** * The event loop

    [RaftNode::start], [run_event_loop] and [next_election_deadline] of
    src/iceraft-node/src/node.rs: the loop over the message queue and the two
    timers, as steps that interleave with the RPC handlers (which lock the node
    directly). Time is in milliseconds; the random draw of the election timeout
    is a parameter, [gen_range] of the rand crate. *)

From Stdlib Require Import Lia Init.Byte.
From stdpp Require Import base numbers list option gmap sets fin_maps strings.
From S2P Require Import Prelude.
From S2P Require Import Core.
From S2P Require Import Proto.
From S2P Require Import Storage.
From S2P Require Import MemStorage.
From S2P Require Import StateMachine.
From S2P Require Import Node.
From S2P Require Import Handlers.
From S2P Require Import Votes.
From S2P Require Import NodeLog.
From S2P Require Import Election.
From S2P Require Import RequestVote.

(** ** Timers *)

(** [rng.gen_range(lo..=hi)]: [None] is its panic. *)
Abbreviation GenRange := (N -> N -> option N) (only parsing).

(** What the rand crate documents: a value of the range, or a panic if the range
    is empty. *)
Definition gen_range_documented (gen_range : GenRange) : Prop :=
  forall lo hi, match gen_range lo hi with
                | Some j => lo <= j <= hi
                | None => hi < lo
                end.

Definition next_election_deadline (gen_range : GenRange) (c : RaftConfig) (now : N) : option N :=
  j ← gen_range (election_timeout_min_ms c) (election_timeout_max_ms c); Some (now + j).

(** ** The loop *)

(** Where the loop is: before the hard state is restored, at the top of the
    loop, in the [select!] with the deadline it chose, or ended, by a shutdown
    or by a panic. *)
Inductive Phase : Type :=
| Restoring
| Top
| Selecting (deadline : N)
| Stopped
| Crashed.

Record EventLoop (St : Type) : Type := MkEventLoop {
  el_node : RaftNodeInner St;
  heartbeat_deadline : N;
  election_deadline : N;
  el_phase : Phase;
}.
Arguments MkEventLoop {St}.
Arguments el_node {St} _.
Arguments heartbeat_deadline {St} _.
Arguments election_deadline {St} _.
Arguments el_phase {St} _.

Section loop.
Context {prof : BuildProfile} {St : Type} `{Storage St}.
Implicit Types (n : RaftNodeInner St) (el : EventLoop St).

Definition set_node n el : EventLoop St :=
  MkEventLoop n (heartbeat_deadline el) (election_deadline el) (el_phase el).
Definition set_phase p el : EventLoop St :=
  MkEventLoop (el_node el) (heartbeat_deadline el) (election_deadline el) p.

(** The node a method of the loop leaves, with the loop going on at its top
    unless the method panicked. *)
Definition after {A} (r : outcome A * RaftNodeInner St) el : EventLoop St :=
  set_phase (match r.1 with Done _ => Top | Panicked => Crashed end) (set_node r.2 el).

(** [RaftNode::start]: the node is there, the loop is spawned. The deadlines
    are set when the loop gets to run. *)
Definition start (c : RaftConfig) (st : St) : EventLoop St :=
  MkEventLoop (node_new c st) 0 0 Restoring.

(** The loop's prologue: the hard state, and the two deadlines. *)
Definition loop_restore (gen_range : GenRange) (now : N) el : EventLoop St :=
  match restore_hard_state (el_node el) with
  | (Panicked, n) => set_phase Crashed (set_node n el)
  | (Done _, n) =>
      match next_election_deadline gen_range (config n) now with
      | None => set_phase Crashed (set_node n el)
      | Some d => MkEventLoop n (now + heartbeat_interval_ms (config n)) d Top
      end
  end.

(** The deadline to sleep to. *)
Definition loop_top el : EventLoop St :=
  set_phase (Selecting (if bool_decide (role (sm (el_node el)) = Leader)
                        then heartbeat_deadline el else election_deadline el)) el.

(** The message arm; [None] is a closed channel. *)
Definition loop_message (msg : option RaftMessage) el : EventLoop St :=
  match msg with
  | None | Some ShutdownMsg => set_phase Stopped el
  | Some m => after (dispatch m (el_node el)) el
  end.

(** The timeout arm. [now] is read before the node is locked, [now2] when the
    next election deadline is drawn. *)
Definition loop_timeout (gen_range : GenRange) (now now2 : N) el : EventLoop St :=
  let n := el_node el in
  let heartbeat := heartbeat_interval_ms (config n) in
  if (election_deadline el <=? now) && bool_decide (role (sm n) <> Leader) then
    match start_election n with
    | (Panicked, n') => set_phase Crashed (set_node n' el)
    | (Done _, n') =>
        match next_election_deadline gen_range (config n') now2 with
        | None => set_phase Crashed (set_node n' el)
        | Some d => MkEventLoop n' (now + heartbeat) d Top
        end
    end
  else if (heartbeat_deadline el <=? now) && bool_decide (role (sm n) = Leader) then
    match on_heartbeat n with
    | (Panicked, n') => set_phase Crashed (set_node n' el)
    | (Done _, n') => MkEventLoop n' (now + heartbeat) (election_deadline el) Top
    end
  else set_phase Top el.

(** An RPC: it runs in a task of its own, so that its panic does not end the
    loop. *)
Definition is_rpc (i : Input) : bool :=
  match i with InAppendEntries _ | InRequestVote _ | InInstallSnapshot _ => true | _ => false end.

Definition loop_rpc (i : Input) el : EventLoop St := set_node (handle i (el_node el)).2 el.

Inductive loop_step (gen_range : GenRange) : EventLoop St -> EventLoop St -> Prop :=
| ls_rpc el i : is_rpc i = true -> loop_step gen_range el (loop_rpc i el)
| ls_restore el now :
    el_phase el = Restoring -> loop_step gen_range el (loop_restore gen_range now el)
| ls_top el : el_phase el = Top -> loop_step gen_range el (loop_top el)
| ls_message el d msg :
    el_phase el = Selecting d -> loop_step gen_range el (loop_message msg el)
| ls_timeout el d now now2 :
    el_phase el = Selecting d -> d <= now -> now <= now2 ->
    loop_step gen_range el (loop_timeout gen_range now now2 el).
End loop.

(** ** Properties *)

Section properties.
Context {prof : BuildProfile} {St : Type} `{Storage St}.
Implicit Types (n : RaftNodeInner St) (el : EventLoop St).

(** C28. The loop runs the handlers: once the hard state is restored, every step
    of the loop and of the RPC tasks either leaves the node alone or runs
    exactly one of the handlers of [Handlers.handle] on it, never a restart;
    an election starts only at a node that is not the leader, a heartbeat only
    at one that is. So what the other files prove of [handle] holds of the
    running node. *)
Theorem loop_refines_handle gen_range el el' (Hs : loop_step gen_range el el')
    (Hp : el_phase el <> Restoring) :
  el_phase el' <> Restoring /\
  (el_node el' = el_node el \/
   exists i, el_node el' = (handle i (el_node el)).2 /\ i <> InRestart /\
     (i = InElectionTimeout -> role (sm (el_node el)) <> Leader) /\
     (i = InHeartbeat -> role (sm (el_node el)) = Leader)).
Proof.
  destruct Hs as [el i Hi|el now Hr|el Ht|el d msg Hd|el d now now2 Hd Hnow Hnow2]; [|done|..].
  - split; [done|]. right. exists i. by destruct i.
  - split; [done|by left].
  - destruct msg as [m|]; [|split; [done|by left]].
    assert (loop_message (Some m) el = set_phase Stopped el \/
            loop_message (Some m) el = after (dispatch m (el_node el)) el) as [->| ->]
      by (destruct m; auto); [split; [done|by left]|].
    split; [by unfold after; cbn; case_match|]. right. exists (InMessage m).
    cbn [handle]. by rewrite after_no_reply.
  - unfold loop_timeout. case_match eqn:He; [|case_match eqn:Hh; [|split; [done|by left]]].
    + apply andb_true_iff in He as [_ Hrole]. apply bool_decide_eq_true in Hrole.
      destruct (start_election (el_node el)) as [o n'] eqn:Hrun.
      split; [by repeat case_match|]. right. exists InElectionTimeout. cbn [handle].
      rewrite after_no_reply, Hrun. split; [by repeat case_match|done].
    + apply andb_true_iff in Hh as [_ Hrole]. apply bool_decide_eq_true in Hrole.
      destruct (on_heartbeat (el_node el)) as [o n'] eqn:Hrun.
      split; [by repeat case_match|]. right. exists InHeartbeat. cbn [handle].
      rewrite after_no_reply, Hrun. split; [by repeat case_match|done].
Qed.

(** Election timeouts: with a configuration that [validate] accepts, drawing
    the election timeout never panics, and the next election is due more than
    one heartbeat interval later and at most the configured maximum; with one
    whose minimum is above its maximum, which [RaftNode::start] does not
    check, the draw panics. *)
Theorem election_deadline_bounds gen_range c now (Hg : gen_range_documented gen_range) :
  (validate c = Ok tt ->
    exists d, next_election_deadline gen_range c now = Some d /\
      now + heartbeat_interval_ms c < d /\
      now + election_timeout_min_ms c <= d <= now + election_timeout_max_ms c) /\
  (election_timeout_max_ms c < election_timeout_min_ms c ->
    next_election_deadline gen_range c now = None).
Proof.
  specialize (Hg (election_timeout_min_ms c) (election_timeout_max_ms c)).
  unfold next_election_deadline. rewrite validate_ok.
  destruct (gen_range _ _) as [j|]; cbn; split; intros Hc; [|lia|lia|done].
  exists (now + j). split; [done|]. lia.
Qed.

Lemma append_entries_not_leader req n :
  role (sm n) <> Leader -> role (sm (handle (InAppendEntries req) n).2) <> Leader.
Proof.
  intros Hr. cbn [handle]. rewrite after_reply. pose proof (on_append_entries_elect req n) as He.
  unfold observed_elect, stepped_down, elect in He. case_match; congruence.
Qed.

(** AppendEntries requests do not touch the election deadline, which is only set
    when an election starts: when it passes, the election starts. *)
Lemma deadline_kept gen_range reqs el now now2 :
  role (sm (el_node el)) <> Leader -> election_deadline el <= now ->
  let el1 := fold_left (fun el req => loop_rpc (InAppendEntries req) el) reqs el in
  config (el_node el1) = config (el_node el) /\
  el_node (loop_timeout gen_range now now2 el1) = (start_election (el_node el1)).2.
Proof.
  intros Hr Hd el1.
  assert (election_deadline el1 = election_deadline el /\
          config (el_node el1) = config (el_node el) /\
          role (sm (el_node el1)) <> Leader) as (Hd1 & Hc1 & Hr1).
  { unfold el1. clear el1. revert el Hr Hd.
    induction reqs as [|req reqs IH]; intros el Hr Hd; cbn [fold_left]; [done|].
    destruct (IH (loop_rpc (InAppendEntries req) el)) as (H1 & H2 & H3).
    - by apply append_entries_not_leader.
    - done.
    - split; [done|]. split; [|done]. rewrite H2. apply handle_keeps_config. }
  split; [done|]. unfold loop_timeout. rewrite Hd1, (proj2 (N.leb_le _ _)), bool_decide_true by done.
  cbn [andb]. destruct (start_election (el_node el1)) as [o n']. by repeat case_match.
Qed.

End properties.

Section startup.
Context {prof : BuildProfile} {St : Type}
  `{HS : Storage St, HL : !LogStorage St, HD : !DurableStorage St}.

Lemma loop_restore_node gen_range now (el : EventLoop St) :
  el_node (loop_restore gen_range now el) = (restore_hard_state (el_node el)).2.
Proof. unfold loop_restore. destruct (restore_hard_state _) as [[[]|] n]; by repeat case_match. Qed.

(** C38. Hearing from the leader does not keep a follower quiet, and leadership
    does not last: however many AppendEntries a node that is not the leader
    handles, when its timer fires at its deadline it asks every peer for a vote
    at the next term, and the leader, if it is at no newer term, steps down when
    that request arrives, whatever its log is; the proposals that wait for it
    are kept, unanswered. *)
Theorem live_leader_deposed gen_range reqs (el : EventLoop St) now now2 (m : RaftNodeInner St)
    (Hr : role (sm (el_node el)) <> Leader) (Hd : election_deadline el <= now) (Hm : log_ok m)
    (Hpeer : cfg_id (config m) ∈ cfg_peers (config (el_node el))) :
  let el1 := fold_left (fun el req => loop_rpc (InAppendEntries req) el) reqs el in
  log_ok (el_node el1) -> u64 (current_term (sm (el_node el1)) + 1) ->
  current_term (sm m) <= current_term (sm (el_node el1)) ->
  let el2 := loop_timeout gen_range now now2 el1 in
  exists req m', SpawnRequestVote (cfg_id (config m)) req ∈ effects (el_node el2) /\
    m' = (handle (InRequestVote req) m).2 /\ role (sm m') = Follower /\
    current_term (sm m') = current_term (sm (el_node el1)) + 1 /\
    log m' = log m /\ pending m' = pending m.
Proof.
  intros el1 Hl Hu Ht el2. destruct (deadline_kept gen_range reqs el now now2 Hr Hd) as [Hc Hel2].
  fold el1 el2 in Hc, Hel2. destruct (start_election_run (el_node el1) Hl Hu)
    as (n2 & Hrun & _ & _ & _ & _ & He & _).
  set (req := vote_request (el_node el1)) in *.
  destruct (on_request_vote_run m req Hm) as (m' & Hvote & Hs & _ & _ & Hlog & _ & Hpe & _);
    [right; cbn; lia|].
  exists req, m'. split; [|split; [|split; [|split; [|done]]]].
  - rewrite Hel2, Hrun. cbn [snd]. rewrite He, !elem_of_app. right; right; left.
    rewrite Hc. apply list_elem_of_fmap. by exists (cfg_id (config m)).
  - cbn [handle]. by rewrite after_reply, Hvote.
  - rewrite Hs. unfold observed_sm. cbn. rewrite (proj2 (N.ltb_lt _ _)) by lia. by case_match.
  - rewrite Hs. unfold observed_sm. cbn. rewrite (proj2 (N.ltb_lt _ _)) by lia. by case_match.
Qed.

(** C39. A vote can be lost at start-up: [RaftNode::start] returns a node that
    answers RPCs before its loop has restored the hard state. If the storage
    says the node voted for [v] in term [t], a vote request of another
    candidate for the same term that arrives first is granted, and the vote
    on storage is overwritten, together with the commit index: the loop then
    restores the second vote. *)
Theorem start_race_double_vote gen_range now c st v req
    (Hst : log_wf st) (Ht : 0 < rv_term req)
    (Hterm : hs_term (hard_state_of st) = rv_term req)
    (Hvote : hs_vote (hard_state_of st) = v)
    (Hv : v <> rv_candidate_id req) (Hc : rv_candidate_id req <> 0)
    (Hlog : up_to_date (log_view st) (rv_last_log_term req) (rv_last_log_index req) = true) :
  exists el r,
    handle (InRequestVote req) (el_node (start c st)) =
      (Done (ReplyVote (Ok r)), el_node el) /\
    el = loop_rpc (InRequestVote req) (start c st) /\ rvr_vote_granted r = true /\
    rvr_term r = rv_term req /\
    ballot (el_node (loop_restore gen_range now el)) =
      (rv_term req, Some (rv_candidate_id req)) /\
    commit_index (sm (el_node (loop_restore gen_range now el))) = 0.
Proof.
  set (n := node_new c st). assert (log_ok n) as Hn by exact Hst.
  destruct (on_request_vote_run n req Hn (or_intror Ht)) as (n1 & Hr & Hs & Hp & _).
  assert (grants n req = true) as Hg.
  { unfold grants, observed_sm. change (log n) with (log_view st). rewrite Hlog. cbn.
    rewrite (proj2 (N.ltb_lt _ _)) by done. by destruct (rv_term req). }
  rewrite Hg in Hr, Hs. unfold observed_sm in Hs. cbn in Hs.
  rewrite N.max_r in Hr by (change (current_term (sm n)) with 0; lia).
  rewrite (proj2 (N.ltb_lt _ _)) in Hs by done. cbn in Hs.
  assert (handle (InRequestVote req) n =
    (Done (ReplyVote (Ok (MkRequestVoteResponse (rv_term req) true))), n1)) as Hh.
  { cbn [handle]. unfold bind. by rewrite Hr. }
  exists (loop_rpc (InRequestVote req) (start c st)), (MkRequestVoteResponse (rv_term req) true).
  unfold loop_rpc. change (el_node (start c st)) with n. rewrite Hh. cbn [snd].
  repeat (split; [done|]). rewrite loop_restore_node.
  change (el_node (set_node n1 (start c st))) with n1. rewrite restore_run.
  unfold persisted, hard_state_now in Hp. rewrite Hs in Hp. cbn in Hp. rewrite Hp.
  cbn. by destruct (N.eqb_spec (rv_candidate_id req) 0).
Qed.
End startup.

(** ** The public methods of [RaftNode]

    [sent] says whether the queue still has its receiver, [answer] what came back
    on the one-shot channel, [None] when its sender was dropped. *)

Definition propose_message (data : bytes) (tx : Sender) : RaftMessage :=
  Propose (MkProposal data (Some tx)).

Definition propose (sent : bool) (answer : option (raft_result LogIndex)) :
    raft_result LogIndex :=
  if sent then match answer with Some r => r | None => Err ChannelClosed end
  else Err ChannelClosed.

Definition leader (answer : option (option NodeId)) : option NodeId := mjoin answer.

Definition term (answer : option Term) : Term := default 0 answer.

(** ** Concrete inputs *)

Definition ex_gen_range (lo hi : N) : option N := if hi <? lo then None else Some lo.

Lemma ex_gen_range_documented : gen_range_documented ex_gen_range.
Proof. intros lo hi. unfold ex_gen_range. destruct (N.ltb_spec hi lo); lia. Qed.

Section examples.
Local Existing Instance dev_profile.

(** The node of the examples, its election due at 500. *)
Definition ex_loop : EventLoop MemStorageInner := MkEventLoop ex_node 100 500 (Selecting 500).

Lemma loop_refines_handle_witness :
  let el := loop_timeout ex_gen_range 500 501 ex_loop in
  el_phase el <> Restoring /\ election_deadline el = 801 /\ current_term (sm (el_node el)) = 4.
Proof.
  split; [|split; vm_compute; reflexivity].
  apply (loop_refines_handle ex_gen_range ex_loop); [|discriminate].
  by apply (ls_timeout _ _ 500).
Defined.

Lemma election_deadline_bounds_witness :
  exists d, next_election_deadline ex_gen_range ex_config 1000 = Some d /\ 1300 <= d <= 1600.
Proof.
  destruct (election_deadline_bounds ex_gen_range ex_config 1000 ex_gen_range_documented)
    as [Hok _].
  destruct (Hok eq_refl) as (d & Hd & _ & Hb). exists d. split; [exact Hd|exact Hb].
Defined.

(** Heartbeats of the leader of term 3, up to the deadline. *)
Definition ex_beat : AppendEntriesRequest := MkAppendEntriesRequest 3 2 5 2 [] 3.

(** That leader, with a proposal on channel 7. *)
Definition ex_term3_leader : RaftNodeInner MemStorageInner :=
  MkNode (MkSM 3 (Some 2) Leader 3 3 (Some 2) {[1 := MkProgress 6 5 false]} {[2]})
    (MkRaftConfig 2 [1; 3] 100 300 600 128 10000 1024) ex_mem [(5, 7)] None [].

Lemma live_leader_deposed_witness :
  exists req m', m' = (handle (InRequestVote req) ex_term3_leader).2 /\
    role (sm ex_term3_leader) = Leader /\ role (sm m') = Follower /\ pending m' = [(5, 7)].
Proof.
  destruct (live_leader_deposed (HL := MemStorage_log) (HD := MemStorage_durable) ex_gen_range
              [ex_beat; ex_beat] ex_loop 500 501 ex_term3_leader ltac:(discriminate)
              ltac:(by_compute) ltac:(by_compute) ltac:(by_compute) ltac:(by_compute)
              ltac:(vm_compute; reflexivity) ltac:(by_compute))
    as (req & m' & _ & Hm' & Hr & _ & _ & Hpe).
  exists req, m'. split; [exact Hm'|]. split; [reflexivity|]. split; [exact Hr|exact Hpe].
Defined.

(** The store says node 1 voted for 2 in term 3; node 3 asks for the same
    term. *)
Definition ex_voted : MemStorageInner :=
  MkMem (MkHardState 3 2 3) (mem_entries ex_mem) (mem_snapshot ex_mem).

Lemma start_race_double_vote_witness :
  exists el, el = loop_rpc (InRequestVote (ex_vote 3 3)) (start ex_config ex_voted) /\
    ballot (el_node (loop_restore ex_gen_range 0 el)) = (3, Some 3).
Proof.
  destruct (start_race_double_vote (HL := MemStorage_log) (HD := MemStorage_durable)
              ex_gen_range 0 ex_config ex_voted 2 (ex_vote 3 3) ltac:(by_compute)
              ltac:(by_compute) ltac:(reflexivity) ltac:(reflexivity) ltac:(discriminate)
              ltac:(discriminate) ltac:(reflexivity)) as (el & r & _ & He & _ & _ & Hb & _).
  exists el. split; [exact He|exact Hb].
Defined.
End examples.
