(* ===== verification/Network.v ===== *)
(** * iceraft-network and the facade: transports, client pool, server

    Models src/iceraft-network/src/transport.rs (the two traits), client.rs (the
    pool of channels and its sends), server.rs (how a handler's result becomes
    an RPC status), [NoopTransport] of src/iceraft/src/lib.rs, and the tasks
    node.rs spawns to send a request and post the answer to its queue. The gRPC
    library is a parameter: how it parses an address, performs a call and prints
    a failure. *)

From Stdlib Require Import Lia Init.Byte.
From stdpp Require Import base numbers list option gmap sets fin_maps strings pretty.
From S2P Require Import Prelude.
From S2P Require Import Core.
From S2P Require Import Proto.
From S2P Require Import Storage.
From S2P Require Import StateMachine.
From S2P Require Import Node.
From S2P Require Import Handlers.

(** ** The handlers a server calls

    [W] is the world they act on, [H] the type of the handler. *)

Class RaftMessageHandler (W H : Type) : Type := {
  handle_append_entries : H -> AppendEntriesRequest -> M W (raft_result AppendEntriesResponse);
  handle_request_vote : H -> RequestVoteRequest -> M W (raft_result RequestVoteResponse);
  handle_install_snapshot :
    H -> InstallSnapshotRequest -> M W (raft_result InstallSnapshotResponse);
}.

(** A shared node, [Arc<RaftNode>]: its place among the nodes of the process. *)
Abbreviation NodeRef := N (only parsing).

(** [self.inner.lock().await] around [m]. A reference keeps its node alive, so
    that there is one. *)
Definition locked {St A} (self : NodeRef) (m : M (RaftNodeInner St) A) :
    M (gmap NodeRef (RaftNodeInner St)) A := fun heap =>
  match heap !! self with
  | Some n => ((m n).1, <[self := (m n).2]> heap)
  | None => (Panicked, heap)
  end.

#[export] Instance RaftNode {prof : BuildProfile} {St} `{Storage St} :
    RaftMessageHandler (gmap NodeRef (RaftNodeInner St)) NodeRef := {|
  handle_append_entries := fun self req => locked self (on_append_entries req);
  handle_request_vote := fun self req => locked self (on_request_vote req);
  handle_install_snapshot := fun self req => locked self (on_install_snapshot req);
|}.

(** ** The outgoing transport: [W] is the world calls act on *)

Class NetworkTransport (W : Type) : Type := {
  send_append_entries : NodeId -> AppendEntriesRequest -> M W (raft_result AppendEntriesResponse);
  send_request_vote : NodeId -> RequestVoteRequest -> M W (raft_result RequestVoteResponse);
  send_install_snapshot :
    NodeId -> InstallSnapshotRequest -> M W (raft_result InstallSnapshotResponse);
}.

Definition NoopTransport {W} : NetworkTransport W := {|
  send_append_entries := fun _ _ => ret (Err (Network "noop transport"));
  send_request_vote := fun _ _ => ret (Err (Network "noop transport"));
  send_install_snapshot := fun _ _ => ret (Err (Network "noop transport"));
|}.

(** The task spawned for a request: if the transport answers, the answer is
    posted to the node's own queue; an error or a panic ends the task alone. *)
Definition run_task {W} `{NetworkTransport W} (e : Effect) : M W (option RaftMessage) :=
  match e with
  | SpawnRequestVote peer req =>
      let* r := send_request_vote peer req in
      ret (match r with Ok resp => Some (VoteResponse peer resp) | Err _ => None end)
  | SpawnAppendEntries peer req li =>
      let* r := send_append_entries peer req in
      ret (match r with Ok resp => Some (AppendResponse peer li resp) | Err _ => None end)
  | SpawnInstallSnapshot peer req li =>
      let* r := send_install_snapshot peer req in
      ret (match r with Ok resp => Some (SnapshotResponse peer li resp) | Err _ => None end)
  | _ => ret None
  end.

(** ** The client pool *)

Record PeerInfo : Type := MkPeerInfo { pi_id : NodeId; pi_addr : string }.

Section grpc.
(** A channel, the library's failures to parse an address and to perform a call,
    and its calls; [Grpc] has those of the generated client. *)
Context {W Channel E F : Type}.
Context (from_shared : string -> result E Channel) (error_to_string : E -> string).
Context (status_to_string : F -> string).
Context (call_append_entries : Channel -> AppendEntriesRequest -> M W (result F AppendEntriesResponse)).
Context (call_request_vote : Channel -> RequestVoteRequest -> M W (result F RequestVoteResponse)).
Context (call_install_snapshot :
  Channel -> InstallSnapshotRequest -> M W (result F InstallSnapshotResponse)).

Definition RaftGrpcClient : Type := gmap NodeId Channel.

Fixpoint add_channels (peers : list PeerInfo) (channels : RaftGrpcClient) :
    raft_result RaftGrpcClient :=
  match peers with
  | [] => Ok channels
  | peer :: peers' =>
      match from_shared (pi_addr peer) with
      | Err e => Err (Network (error_to_string e))
      | Ok ch => add_channels peers' (<[pi_id peer := ch]> channels)
      end
  end.

Definition RaftGrpcClient_new (peers : list PeerInfo) : raft_result RaftGrpcClient :=
  add_channels peers ∅.

Definition client (self : RaftGrpcClient) (target : NodeId) : raft_result Channel :=
  match self !! target with
  | Some ch => Ok ch
  | None => Err (Network ("no channel registered for node " +:+ pretty target))
  end.

(** The three sends differ in the call only. *)
Definition send_with {Req Resp} (call : Channel -> Req -> M W (result F Resp))
    (self : RaftGrpcClient) (target : NodeId) (req : Req) : M W (raft_result Resp) :=
  match client self target with
  | Err e => ret (Err e)
  | Ok c =>
      let* r := call c req in
      ret (map_err (fun e => Network (status_to_string e)) r)
  end.

Definition GrpcTransport (self : RaftGrpcClient) : NetworkTransport W := {|
  send_append_entries := send_with call_append_entries self;
  send_request_vote := send_with call_request_vote self;
  send_install_snapshot := send_with call_install_snapshot self;
|}.

Lemma add_channels_spec peers m :
  (forall p, p ∈ peers -> is_ok (from_shared (pi_addr p)) = true) ->
  exists pool, add_channels peers m = Ok pool /\
    forall id, (forall p, p ∈ peers -> pi_id p <> id) -> pool !! id = m !! id.
Proof.
  revert m. induction peers as [|p peers IH]; intros m Hok; cbn; [by exists m|].
  assert (is_ok (from_shared (pi_addr p)) = true) as Hp by (apply Hok; left).
  destruct (from_shared (pi_addr p)) as [ch|e]; [|done].
  destruct (IH (<[pi_id p := ch]> m)) as (pool & -> & Hpool).
  { intros q Hq. apply Hok. by right. }
  exists pool. split; [done|]. intros id Hid.
  rewrite Hpool by (intros q Hq; apply Hid; by right).
  apply lookup_insert_ne, Hid. left.
Qed.

Lemma add_channels_app ps1 ps2 m :
  add_channels (ps1 ++ ps2) m =
    match add_channels ps1 m with Ok m' => add_channels ps2 m' | Err e => Err e end.
Proof.
  revert m. induction ps1 as [|p ps1 IH]; intros m; cbn; [done|].
  destruct (from_shared _); [apply IH|done].
Qed.

(** The client pool: construction fails with the library's message at the
    first address it cannot parse, and otherwise registers every peer: a send
    to a peer uses the channel of the last entry with its id and reports the
    library's failures as network errors, and a send to an unknown node is a
    network error without any call. *)
Theorem client_pool_spec (peers : list PeerInfo) :
  (forall ps1 p ps2 e, peers = ps1 ++ p :: ps2 ->
     (forall q, q ∈ ps1 -> is_ok (from_shared (pi_addr q)) = true) ->
     from_shared (pi_addr p) = Err e ->
     RaftGrpcClient_new peers = Err (Network (error_to_string e))) /\
  ((forall q, q ∈ peers -> is_ok (from_shared (pi_addr q)) = true) ->
     exists pool, RaftGrpcClient_new peers = Ok pool /\
       (forall ps1 p ps2 ch req w, peers = ps1 ++ p :: ps2 ->
          from_shared (pi_addr p) = Ok ch -> (forall q, q ∈ ps2 -> pi_id q <> pi_id p) ->
          send_request_vote (NetworkTransport := GrpcTransport pool) (pi_id p) req w =
            (let* r := call_request_vote ch req in
             ret (map_err (fun e => Network (status_to_string e)) r)) w) /\
       (forall id req w, (forall q, q ∈ peers -> pi_id q <> id) ->
          send_request_vote (NetworkTransport := GrpcTransport pool) id req w =
            (Done (Err (Network ("no channel registered for node " +:+ pretty id))), w))).
Proof.
  split.
  - intros ps1 p ps2 e -> Hok He. unfold RaftGrpcClient_new. rewrite add_channels_app.
    destruct (add_channels_spec ps1 ∅ Hok) as (m & -> & _). cbn. by rewrite He.
  - intros Hok. destruct (add_channels_spec peers ∅ Hok) as (pool & Hnew & Hpool).
    exists pool. split; [done|]. split.
    + intros ps1 p ps2 ch req w -> Hch Hlast.
      rewrite add_channels_app in Hnew.
      destruct (add_channels_spec ps1 ∅) as (m & Hm & _).
      { intros q Hq. apply Hok, elem_of_app. by left. }
      rewrite Hm in Hnew. cbn in Hnew. rewrite Hch in Hnew.
      destruct (add_channels_spec ps2 (<[pi_id p := ch]> m)) as (pool' & Hp' & Hl').
      { intros q Hq. apply Hok, elem_of_app. right. by right. }
      rewrite Hp' in Hnew. injection Hnew as <-. cbn. unfold send_with, client.
      rewrite Hl' by done. unfold RaftGrpcClient. by rewrite lookup_insert_eq.
    + intros id req w Hid. cbn. unfold send_with, client. by rewrite Hpool.
Qed.
End grpc.

(** ** The server *)

(** The status codes of gRPC, in their order. *)
Inductive StatusCode : Type :=
| StatusOk | Cancelled | Unknown | InvalidArgument | DeadlineExceeded | NotFound | AlreadyExists
| PermissionDenied | ResourceExhausted | FailedPrecondition | Aborted | OutOfRange
| Unimplemented | Internal | Unavailable | DataLoss | Unauthenticated.

Record Status : Type := MkStatus { st_code : StatusCode; st_message : string }.

(** [.map(Response::new).map_err(|e| Status::internal(e.to_string()))] *)
Definition into_status {A} (r : raft_result A) : result Status A :=
  map_err (fun e => MkStatus Internal (RaftError_to_string e)) r.

Section server.
Context {W H : Type} `{RaftMessageHandler W H}.

Definition server_append_entries (handler : H) (req : AppendEntriesRequest) :
    M W (result Status AppendEntriesResponse) :=
  let* r := handle_append_entries handler req in ret (into_status r).
Definition server_request_vote (handler : H) (req : RequestVoteRequest) :
    M W (result Status RequestVoteResponse) :=
  let* r := handle_request_vote handler req in ret (into_status r).
Definition server_install_snapshot (handler : H) (req : InstallSnapshotRequest) :
    M W (result Status InstallSnapshotResponse) :=
  let* r := handle_install_snapshot handler req in ret (into_status r).
End server.

(** No answers without a network: over [NoopTransport] no task a node spawns
    ever posts a message to its queue or acts on the world, whatever the
    request. *)
Theorem noop_posts_nothing {W} (e : Effect) (w : W) :
  run_task (H := NoopTransport) e w = (Done None, w).
Proof. by destruct e. Qed.
