(* ===== verification/Client.v ===== *)
(** * iceraft-client: finding the leader

    Models src/iceraft-client/src/lib.rs: [RaftClusterClient] with [ping_leader]
    and [find_leader], over any transport. The tracing calls are left out. *)

From Stdlib Require Import Lia Init.Byte.
From stdpp Require Import base numbers list option gmap sets fin_maps strings.
From S2P Require Import Prelude.
From S2P Require Import Core.
From S2P Require Import Proto.
From S2P Require Import Storage.
From S2P Require Import MemStorage.
From S2P Require Import StateMachine.
From S2P Require Import Node.
From S2P Require Import Handlers.
From S2P Require Import Votes.
From S2P Require Import NodeLog.
From S2P Require Import RequestVote.
From S2P Require Import AppendEntries.
From S2P Require Import Network.

(** The client's own state; its transport is the class instance. *)
Record RaftClusterClient : Type := MkClient {
  known_leader : option NodeId;
  cl_members : list NodeId;
}.

Definition RaftClusterClient_new (members : list NodeId) : RaftClusterClient :=
  MkClient None members.

Definition ping_request : AppendEntriesRequest := {|
  ae_term := 0;
  ae_leader_id := 0;
  ae_prev_log_index := 0;
  ae_prev_log_term := 0;
  ae_entries := [];
  ae_leader_commit := 0 |}.

Section client.
Context {W : Type} `{NetworkTransport W}.
Implicit Types (w : W).

Definition ping_leader (node : NodeId) : M W bool :=
  let* r := send_append_entries node ping_request in ret (is_ok r).

(** The loop over the members; the client is part of the state. *)
Fixpoint try_members (ms : list NodeId) : M (RaftClusterClient * W) (option NodeId) :=
  match ms with
  | [] => ret None
  | member :: ms' =>
      let* ok := zoom snd (fun w s => (s.1, w)) (ping_leader member) in
      if ok then
        modify (fun s => (MkClient (Some member) (cl_members s.1), s.2)) ;;;
        ret (Some member)
      else try_members ms'
  end.

Definition find_leader : M (RaftClusterClient * W) (option NodeId) :=
  let* c := gets fst in try_members (cl_members c).

(** The world after pinging the nodes [ms], if none of the pings panics. *)
Fixpoint pinged (ms : list NodeId) w : option (list bool * W) :=
  match ms with
  | [] => Some ([], w)
  | m :: ms' =>
      match ping_leader m w with
      | (Done b, w') => p ← pinged ms' w'; Some (b :: p.1, p.2)
      | (Panicked, _) => None
      end
  end.

Lemma try_members_fail c ms w w' :
  pinged ms w = Some (replicate (length ms) false, w') ->
  try_members ms (c, w) = (Done None, (c, w')).
Proof.
  revert w. induction ms as [|m ms IH]; intros w; cbn; [by intros [= ->]|].
  unfold zoom, bind; cbn. destruct (ping_leader m w) as [[b|] w1]; [|done].
  intros (p & Hp & Heq)%bind_Some. injection Heq as -> Hb Hw. destruct p as [bs w2].
  cbn in *. subst. by apply IH.
Qed.

(** [find_leader]: it pings the members in order and stops at the first
    that answers, which becomes the known leader and the result; members
    after it are not contacted. If none answers, the result is [None] and the
    known leader stays what it was. *)
Theorem find_leader_spec c w :
  (forall ms1 m ms2 w1 w2, cl_members c = ms1 ++ m :: ms2 ->
     pinged ms1 w = Some (replicate (length ms1) false, w1) ->
     ping_leader m w1 = (Done true, w2) ->
     find_leader (c, w) = (Done (Some m), (MkClient (Some m) (cl_members c), w2))) /\
  (forall w', pinged (cl_members c) w = Some (replicate (length (cl_members c)) false, w') ->
     find_leader (c, w) = (Done None, (c, w'))).
Proof.
  split; [|intros w' Hw; by apply try_members_fail].
  intros ms1 m ms2 w1 w2 Hms Hfail Hok. unfold find_leader, bind at 1, gets. cbn [fst].
  rewrite Hms. rewrite <- Hms. destruct c as [kl ms]. cbn in *. subst ms.
  revert w Hfail. generalize (ms1 ++ m :: ms2) at 2 3 as all. intros all.
  induction ms1 as [|m1 ms1 IH]; intros w; cbn [app try_members pinged length replicate].
  - intros [= ->]. unfold zoom, bind; cbn. rewrite Hok. done.
  - unfold zoom, bind at 1; cbn [fst snd].
    destruct (ping_leader m1 w) as [[b|] w3]; [|done].
    intros (p & Hp & Heq)%bind_Some. injection Heq as -> Hb Hw. destruct p as [bs w4].
    cbn in *. subst. by apply IH.
Qed.
End client.

(** ** A ping, seen by a node *)

Section node.
Context {prof : BuildProfile} {St : Type}
  `{HS : Storage St, HL : !LogStorage St, HD : !DurableStorage St}.

(** A transport that hands every AppendEntries to one node: the node is the
    world. *)
Definition direct : NetworkTransport (RaftNodeInner St) := {|
  send_append_entries := fun _ req => on_append_entries req;
  send_request_vote := fun _ req => on_request_vote req;
  send_install_snapshot := fun _ req => on_install_snapshot req;
|}.

(** A ping does not tell a leader: a node past term 0 rejects it without any
    change and still counts as the leader for the client, whatever its role;
    a node at term 0 takes the client for its leader, under the id 0. *)
Theorem ping_leader_any_node (n : RaftNodeInner St) id (Hn : log_ok n) (Hp : persisted n)
    (Hb : lv_base (log n) = 0) :
  exists n', ping_leader (H := direct) id n = (Done true, n') /\
    (0 < current_term (sm n) -> n' = n) /\
    (current_term (sm n) = 0 -> leader_id (sm n') = Some 0).
Proof.
  assert (follows (log n) ping_request) as Hf.
  { split; cbn; [lia|by intros []|done]. }
  destruct (on_append_entries_run n ping_request Hn Hp Hf) as (n' & r & Hr & _ & _ & _ & _ & Hc).
  exists n'. unfold ping_leader, bind, direct. cbn [send_append_entries]. rewrite Hr.
  split; [done|]. cbn [ae_term ping_request] in Hc. split; intros Ht.
  - rewrite (proj2 (N.ltb_lt _ _)) in Hc by done. apply Hc.
  - rewrite (proj2 (N.ltb_ge _ _)) in Hc by lia.
    destruct Hc as (_ & _ & ->). done.
Qed.
End node.

Section examples.
Local Existing Instance dev_profile.

Definition ex_fresh : RaftNodeInner MemStorageInner := node_new ex_config MemStorage_new.

Lemma ping_leader_any_node_witness :
  exists n', ping_leader (H := direct) 1 ex_fresh = (Done true, n') /\
    role (sm ex_fresh) = Follower /\ leader_id (sm n') = Some 0.
Proof.
  destruct (ping_leader_any_node (HL := MemStorage_log) (HD := MemStorage_durable) ex_fresh 1
              ltac:(by_compute) ltac:(reflexivity) ltac:(reflexivity)) as (n' & Hr & _ & Hl).
  exists n'. split; [exact Hr|]. split; [reflexivity|]. by apply Hl.
Defined.

(** A transport over a world that counts the calls, on which only node 3
    answers. *)
Definition ex_transport : NetworkTransport nat := {|
  send_append_entries := fun id _ =>
    modify S ;;;
    ret (if id =? 3 then Ok (MkAppendEntriesResponse 0 true 0 0) else Err (Network ""));
  send_request_vote := fun _ _ => ret (Err (Network ""));
  send_install_snapshot := fun _ _ => ret (Err (Network ""));
|}.

Lemma find_leader_spec_witness :
  find_leader (H := ex_transport) (MkClient None [1; 3; 2], 0%nat) =
    (Done (Some 3), (MkClient (Some 3) [1; 3; 2], 2%nat)).
Proof.
  destruct (find_leader_spec (H := ex_transport) (MkClient None [1; 3; 2]) 0%nat) as [Hok _].
  apply (Hok [1] 3 [2] 1%nat 2%nat); reflexivity.
Defined.
End examples.
