(* ===== verification/Rocks.v ===== *)
(** * iceraft-storage: the RocksDB placeholder

    Models src/iceraft-storage/src/rocks.rs, whose every operation is
    [unimplemented!()]: it panics without touching anything. *)

From Stdlib Require Import Lia Init.Byte.
From stdpp Require Import base numbers list option gmap sets fin_maps strings.
From S2P Require Import Prelude.
From S2P Require Import Core.
From S2P Require Import Proto.
From S2P Require Import Storage.
From S2P Require Import StateMachine.
From S2P Require Import Node.
From S2P Require Import Handlers.
From S2P Require Import EventLoop.

Inductive RocksDbStorage : Type := Rocks.

#[export] Instance RocksDb : Storage RocksDbStorage := {|
  st_append_entries := fun _ => panic;
  st_entries := fun _ _ _ => panic;
  st_term := fun _ => panic;
  st_first_index := panic;
  st_last_index := panic;
  st_save_hard_state := fun _ => panic;
  st_load_hard_state := panic;
  st_apply_snapshot := fun _ => panic;
  st_snapshot := panic;
|}.

Section rocks.
Context {prof : BuildProfile}.

(** A node over the RocksDB placeholder never runs: restoring the hard state
    panics, so the loop ends before its first iteration, with any
    configuration; a vote request still reaches the node, and panics before
    it is answered. *)
Theorem rocks_never_runs gen_range now c req :
  el_phase (loop_restore gen_range now (start c Rocks)) = Crashed /\
  (handle (InRequestVote req) (el_node (start c Rocks))).1 = Panicked.
Proof.
  split; [done|]. unfold handle, on_request_vote, bind, get_sm, gets, when.
  change (current_term (sm (el_node (start c Rocks)))) with 0.
  destruct (N.ltb_spec 0 (rv_term req)) as [Ht|Ht]; [done|].
  assert (rv_term req = 0) as Ht0 by lia. rewrite Ht0. done.
Qed.
End rocks.
