(* ===== verification/Metrics.v ===== *)
(** * iceraft-metrics

    Models src/iceraft-metrics/src/lib.rs: the global metrics, registered with
    Prometheus when first used, and what the node's counters and gauges read.
    The Prometheus library is a parameter. *)

From Stdlib Require Import Lia Init.Byte Ascii String.
From stdpp Require Import base numbers list option gmap sets fin_maps strings.
From S2P Require Import Prelude.
From S2P Require Import Core.
From S2P Require Import Proto.
From S2P Require Import Storage.
From S2P Require Import MemStorage.
From S2P Require Import StateMachine.
From S2P Require Import Node.
From S2P Require Import Handlers.
From S2P Require Import Votes.
From S2P Require Import NodeLog.
From S2P Require Import RequestVote.
From S2P Require Import AppendEntries.
From S2P Require Import Commit.

(** ** The library *)

(** [R]: the default registry and the metrics that exist; [C] and [G]: handles
    of counters and gauges. *)
Class Prometheus (R C G : Type) : Type := {
  register_int_counter : string -> string -> M R (result string C);
  register_int_gauge : string -> string -> M R (result string G);
  IntCounter_new : string -> string -> M R (result string C);
  IntGauge_new : string -> string -> M R (result string G);
}.

(** The names Prometheus accepts: a letter, [_] or [:], then these or digits. *)
Definition name_start (c : ascii) : bool :=
  let k := N_of_ascii c in
  ((65 <=? k) && (k <=? 90)) || ((97 <=? k) && (k <=? 122)) || (k =? 95) || (k =? 58).
Definition name_char (c : ascii) : bool :=
  let k := N_of_ascii c in name_start c || ((48 <=? k) && (k <=? 57)).
Definition valid_name (s : string) : bool :=
  match s with
  | EmptyString => false
  | String c s' => name_start c && forallb name_char (String.list_ascii_of_string s')
  end.

Class PrometheusLaws (R C G : Type) `{Prometheus R C G} : Type := {
  registered : R -> gset string;
  (** Registering fails for a name that is taken, and takes it otherwise. *)
  register_int_counter_ok name help r : valid_name name = true -> help <> EmptyString ->
    exists o r', register_int_counter name help r = (Done o, r') /\
      registered r' = {[name]} ∪ registered r /\ (is_ok o = bool_decide (name ∉ registered r));
  register_int_gauge_ok name help r : valid_name name = true -> help <> EmptyString ->
    exists o r', register_int_gauge name help r = (Done o, r') /\
      registered r' = {[name]} ∪ registered r /\ (is_ok o = bool_decide (name ∉ registered r));
  (** A metric of its own needs no registry. *)
  IntCounter_new_ok name help r : valid_name name = true -> help <> EmptyString ->
    exists c r', IntCounter_new name help r = (Done (Ok c), r') /\ registered r' = registered r;
  IntGauge_new_ok name help r : valid_name name = true -> help <> EmptyString ->
    exists g r', IntGauge_new name help r = (Done (Ok g), r') /\ registered r' = registered r;
}.

(** ** The global metrics *)

Record RaftMetrics (C G : Type) : Type := MkRaftMetrics {
  m_elections_started : C;
  m_votes_granted : C;
  m_leader_changes : C;
  m_append_entries_received : C;
  m_entries_committed : C;
  m_snapshots_installed : C;
  m_current_term : G;
  m_commit_index : G;
}.
Arguments MkRaftMetrics {C G}.

Section global.
Context {R C G : Type} `{HP : Prometheus R C G}.

(** [register_x!(name, help).unwrap_or_else(|_| X::new(name, help).unwrap())] *)
Definition or_unregistered {A} (reg new : string -> string -> M R (result string A))
    (name help : string) : M R A :=
  let* r := reg name help in
  match r with
  | Ok c => ret c
  | Err _ =>
      let* r' := new name help in
      match r' with Ok c => ret c | Err _ => panic end
  end.

Definition new_counter : string -> string -> M R C :=
  or_unregistered register_int_counter IntCounter_new.
Definition new_gauge : string -> string -> M R G :=
  or_unregistered register_int_gauge IntGauge_new.

(** The initialiser of [GLOBAL_METRICS]. *)
Definition init_metrics : M R (RaftMetrics C G) :=
  let* es := new_counter "raft_elections_started_total"
               "Total number of elections started by this node" in
  let* vg := new_counter "raft_votes_granted_total"
               "Total number of votes granted to peers" in
  let* lc := new_counter "raft_leader_changes_total"
               "Total number of times this node became leader" in
  let* ae := new_counter "raft_append_entries_received_total"
               "Total AppendEntries RPCs received" in
  let* ec := new_counter "raft_entries_committed_total"
               "Total log entries committed" in
  let* si := new_counter "raft_snapshots_installed_total"
               "Total snapshots installed from leader" in
  let* ct := new_gauge "raft_current_term" "Current Raft term" in
  let* ci := new_gauge "raft_commit_index" "Current commit index" in
  ret (MkRaftMetrics es vg lc ae ec si ct ci).

(** A process: its registry and the cell of [GLOBAL_METRICS]. *)
Record Process : Type := MkProcess {
  registry : R;
  GLOBAL_METRICS : option (RaftMetrics C G);
}.

(** [GLOBAL_METRICS.clone()]: the first use runs the initialiser. *)
Definition RaftMetrics_new : M Process (RaftMetrics C G) :=
  let* cell := gets GLOBAL_METRICS in
  match cell with
  | Some m => ret m
  | None =>
      let* m := zoom registry (fun r p => MkProcess r (GLOBAL_METRICS p)) init_metrics in
      modify (fun p => MkProcess (registry p) (Some m)) ;;;
      ret m
  end.

Context `{HL : !PrometheusLaws R C G}.

Definition metric_names : list string :=
  ["raft_elections_started_total"; "raft_votes_granted_total"; "raft_leader_changes_total";
   "raft_append_entries_received_total"; "raft_entries_committed_total";
   "raft_snapshots_installed_total"; "raft_current_term"; "raft_commit_index"]%string.

(** The names taken after registering [names] one after the other. *)
Fixpoint registering (names : list string) (X : gset string) : gset string :=
  match names with
  | [] => X
  | name :: names' => registering names' ({[name]} ∪ X)
  end.

Lemma elem_of_registering names X name :
  name ∈ registering names X <-> name ∈ names \/ name ∈ X.
Proof.
  revert X. induction names as [|a names IH]; intros X; cbn.
  - rewrite elem_of_nil. tauto.
  - rewrite IH, elem_of_cons, elem_of_union, elem_of_singleton. tauto.
Qed.

Lemma or_unregistered_run {A} (reg new : string -> string -> M R (result string A)) name help r :
  (exists o r', reg name help r = (Done o, r') /\
     registered r' = {[name]} ∪ registered r /\ (is_ok o = bool_decide (name ∉ registered r))) ->
  (forall r, exists c r', new name help r = (Done (Ok c), r') /\ registered r' = registered r) ->
  exists c r', or_unregistered reg new name help r = (Done c, r') /\
    registered r' = {[name]} ∪ registered r.
Proof.
  intros (o & r' & Hr & Hreg & _) Hnew. unfold or_unregistered, bind. rewrite Hr.
  destruct o as [c|e]; [by exists c, r'|].
  destruct (Hnew r') as (c & r'' & -> & Hn). exists c, r''. by rewrite Hn.
Qed.

Lemma new_counter_run name help r :
  valid_name name = true -> help <> EmptyString ->
  exists c r', new_counter name help r = (Done c, r') /\ registered r' = {[name]} ∪ registered r.
Proof.
  intros Hv Hh. apply or_unregistered_run; [by apply register_int_counter_ok|].
  intros r'. by apply IntCounter_new_ok.
Qed.

Lemma new_gauge_run name help r :
  valid_name name = true -> help <> EmptyString ->
  exists g r', new_gauge name help r = (Done g, r') /\ registered r' = {[name]} ∪ registered r.
Proof.
  intros Hv Hh. apply or_unregistered_run; [by apply register_int_gauge_ok|].
  intros r'. by apply IntGauge_new_ok.
Qed.

(** One field of the initialiser, in front of the others. *)
Lemma counter_then {A} name help (f : C -> M R A) r (P : A -> R -> Prop) :
  valid_name name = true -> help <> EmptyString ->
  (forall c r', {[name]} ∪ registered r = registered r' ->
    exists m r'', f c r' = (Done m, r'') /\ P m r'') ->
  exists m r'', bind (new_counter name help) f r = (Done m, r'') /\ P m r''.
Proof.
  intros Hv Hh Hf. destruct (new_counter_run name help r Hv Hh) as (c & r' & Hr & Hreg).
  unfold bind. rewrite Hr. by apply Hf.
Qed.

Lemma gauge_then {A} name help (f : G -> M R A) r (P : A -> R -> Prop) :
  valid_name name = true -> help <> EmptyString ->
  (forall g r', {[name]} ∪ registered r = registered r' ->
    exists m r'', f g r' = (Done m, r'') /\ P m r'') ->
  exists m r'', bind (new_gauge name help) f r = (Done m, r'') /\ P m r''.
Proof.
  intros Hv Hh Hf. destruct (new_gauge_run name help r Hv Hh) as (c & r' & Hr & Hreg).
  unfold bind. rewrite Hr. by apply Hf.
Qed.

Lemma init_metrics_run r :
  exists m r', init_metrics r = (Done m, r') /\ registered r' = registering metric_names (registered r).
Proof.
  unfold init_metrics, metric_names. cbn [registering].
  do 6 (apply counter_then; [reflexivity|discriminate|intros ? ? ->]).
  do 2 (apply gauge_then; [reflexivity|discriminate|intros ? ? ->]).
  by do 2 eexists.
Qed.

(** The metrics of a process: whatever is in the registry, names taken by
    others included, [RaftMetrics::new] returns and never panics; the first
    call leaves all eight names registered; every later call in the process
    returns the same handles and changes nothing, so that all nodes of a
    process share their metrics. *)
Theorem RaftMetrics_new_spec p (Hp : GLOBAL_METRICS p = None) :
  exists m p', RaftMetrics_new p = (Done m, p') /\
    (forall name, name ∈ registered (registry p') <->
      name ∈ metric_names \/ name ∈ registered (registry p)) /\
    RaftMetrics_new p' = (Done m, p').
Proof.
  destruct (init_metrics_run (registry p)) as (m & r' & Hr & Hreg).
  exists m, (MkProcess r' (Some m)). unfold RaftMetrics_new, bind, gets, zoom, modify.
  rewrite Hp, Hr. split; [done|]. split; [|done].
  cbn. rewrite Hreg. apply elem_of_registering.
Qed.
End global.
Arguments Process R C G : clear implicits.

(** ** What the metrics of a node read *)

(** The total a node added to a counter, and the last value it set a gauge to. *)
#[export] Instance counter_eq_dec : EqDecision Counter.
Proof. solve_decision. Defined.
#[export] Instance gauge_eq_dec : EqDecision Gauge.
Proof. solve_decision. Defined.

Fixpoint counter_total (c : Counter) (es : list Effect) : N :=
  match es with
  | [] => 0
  | MetricInc c' k :: es' => (if decide (c' = c) then k else 0) + counter_total c es'
  | _ :: es' => counter_total c es'
  end.

Fixpoint gauge_value (g : Gauge) (es : list Effect) : option Z :=
  match es with
  | [] => None
  | MetricSet g' v :: es' =>
      match gauge_value g es' with
      | Some v' => Some v'
      | None => if decide (g' = g) then Some v else None
      end
  | _ :: es' => gauge_value g es'
  end.

Lemma counter_total_app c es es' :
  counter_total c (es ++ es') = counter_total c es + counter_total c es'.
Proof. induction es as [|[] es IH]; cbn; rewrite ?IH; (done || lia). Qed.

Lemma gauge_value_app g es es' :
  gauge_value g (es ++ es') =
    match gauge_value g es' with Some v => Some v | None => gauge_value g es end.
Proof. induction es as [|[] es IH]; cbn; rewrite ?IH; by repeat case_match. Qed.

Lemma answered_total c commit ps : counter_total c (answered commit ps) = 0.
Proof. unfold answered. by induction (filter _ ps). Qed.
Lemma answered_gauge g commit ps : gauge_value g (answered commit ps) = None.
Proof. unfold answered. by induction (filter _ ps). Qed.

Section node.
Context {prof : BuildProfile} {St : Type}
  `{HS : Storage St, HL : !LogStorage St, HD : !DurableStorage St}.
Implicit Types n : RaftNodeInner St.

(** [raft_entries_committed_total] counts entries more than once: a leader
    whose commit index moves from [ci] to [c] adds [c] minus the applied index,
    which is the [c - ci] entries it commits now and, again, the [ci - la]
    committed before but not applied yet. The commit gauge is right. *)
Theorem entries_committed_overcounts n c (Hn : log_ok n) (Hp : persisted n)
    (Hr : role (sm n) = Leader) (Hla : last_applied (sm n) <= commit_index (sm n))
    (Hg : greatest_in (commit_index (sm n)) (lv_last (log n)) (node_committable n) (Some c)) :
  exists n', maybe_advance_commit n = (Done tt, n') /\ commit_index (sm n') = c /\
    counter_total entries_committed (effects n') =
      counter_total entries_committed (effects n) +
      (c - commit_index (sm n)) + (commit_index (sm n) - last_applied (sm n)) /\
    gauge_value commit_index_gauge (effects n') = Some (u64_as_i64 c).
Proof.
  destruct (maybe_advance_commit_run n Hn Hp Hr Hla) as (o & n' & Hrun & Hg' & Hs & _ & _ & _ & _ & _ & He).
  rewrite (greatest_in_unique _ _ _ _ _ Hg' Hg) in *. exists n'. split; [done|].
  split; [by rewrite Hs|]. rewrite He, !counter_total_app, !gauge_value_app, answered_total, answered_gauge.
  split; [|done].
  unfold commit_effects. cbn [counter_total].
  rewrite decide_True by done. destruct Hg as [Hc _]. lia.
Qed.
End node.

(** ** Concrete inputs *)

(** A registry of names; a handle is a number. *)
#[export] Instance ex_prometheus : Prometheus (gset string * N) N N :=
  let reg name (_ : string) : M (gset string * N) (result string N) := fun r =>
    if bool_decide (name ∈ r.1) then (Done (Err "already registered"%string), r)
    else (Done (Ok r.2), ({[name]} ∪ r.1, r.2 + 1)) in
  let new (_ _ : string) : M (gset string * N) (result string N) := fun r =>
    (Done (Ok r.2), (r.1, r.2 + 1)) in
  {| register_int_counter := reg; register_int_gauge := reg;
     IntCounter_new := new; IntGauge_new := new |}.

#[export] Instance ex_prometheus_laws : PrometheusLaws (gset string * N) N N.
Proof.
  refine {| registered := fst |}; intros name help r _ _.
  1,2: cbn; case_bool_decide as Hin; do 2 eexists; (split; [reflexivity|]); cbn;
    [rewrite bool_decide_false by tauto | rewrite bool_decide_true by done];
    (split; [|done]); apply set_eq; set_solver.
  all: by do 2 eexists.
Defined.

Section examples.
Local Existing Instance dev_profile.

(** One name is taken by something else. *)
Definition ex_process : Process (gset string * N) N N :=
  MkProcess ({["raft_current_term"%string]}, 0) None.

Lemma RaftMetrics_new_spec_witness :
  exists m p', RaftMetrics_new ex_process = (Done m, p') /\
    m_current_term _ _ m = 6 /\ RaftMetrics_new p' = (Done m, p').
Proof.
  destruct (RaftMetrics_new_spec ex_process eq_refl) as (m & p' & Hr & _ & Hr').
  exists m, p'. split; [exact Hr|]. split; [|exact Hr'].
  assert (match (RaftMetrics_new ex_process).1 with
          | Done m => m_current_term _ _ m = 6 | Panicked => False end) as H6 by (vm_compute; reflexivity).
  by rewrite Hr in H6.
Defined.

(** The node of [Commit] has committed and applied entries up to 3; it commits 4
    and 5 without a heartbeat in between. *)
Definition ex_counting : RaftNodeInner MemStorageInner :=
  set_effects [MetricInc entries_committed 1]
    (set_sm (set_commit_index 4 (sm ex_committing)) (set_storage
      (MkMem (MkHardState 2 1 4) (mem_entries ex_mem) (mem_snapshot ex_mem)) ex_committing)).

Lemma entries_committed_overcounts_witness :
  exists n', maybe_advance_commit ex_counting = (Done tt, n') /\
    last_applied (sm ex_counting) = 3 /\ commit_index (sm n') = 5 /\
    counter_total entries_committed (effects n') = 3.
Proof.
  destruct (entries_committed_overcounts (HL := MemStorage_log) (HD := MemStorage_durable)
              ex_counting 5 ltac:(by_compute) ltac:(reflexivity) ltac:(reflexivity)
              ltac:(by_compute)) as (n' & Hr & Hc & Ht & _).
  - split; [by_compute|]. split; [split; [reflexivity|by_compute]|].
    intros m Hm. exfalso. change (lv_last (log ex_counting)) with 5 in Hm. lia.
  - exists n'. split; [exact Hr|]. split; [reflexivity|]. split; [exact Hc|]. rewrite Ht. reflexivity.
Defined.
End examples.
