(* ===== verification/LogSteps.v ===== *)
(** * Logs and messages, one input at a time

    What any input does to a node's log, and which AppendEntries it makes the
    node send, over a backend that keeps the laws of [Storage] and has no snapshot, and
    however the handler ends: the log changes by an accepted AppendEntries or by
    a leader's own proposal, and only a leader sends, from its own log. The
    files about clusters are built on this summary of the handlers. *)

From Stdlib Require Import Lia Init.Byte.
From stdpp Require Import base numbers list option gmap sets fin_maps strings.
From S2P Require Import Prelude.
From S2P Require Import Core.
From S2P Require Import Proto.
From S2P Require Import Storage.
From S2P Require Import MemStorage.
From S2P Require Import StateMachine.
From S2P Require Import Node.
From S2P Require Import Handlers.
From S2P Require Import Votes.
From S2P Require Import NodeLog.
From S2P Require Import Election.
From S2P Require Import RequestVote.
From S2P Require Import AppendEntries.
From S2P Require Import Replication.
From S2P Require Import Commit.
From S2P Require Import Progress.
From S2P Require Import Proposals.
From S2P Require Import Total.

(** ** What a node sends to replicate its log *)

Definition replicates (e : Effect) : bool :=
  match e with
  | SpawnAppendEntries _ _ _ | SpawnInstallSnapshot _ _ _ => true
  | _ => false
  end.

Definition sent {St} (n : RaftNodeInner St) : list Effect :=
  filter (fun e => replicates e = true) (effects n).

Lemma elem_of_sent {St} e (n : RaftNodeInner St) :
  e ∈ sent n <-> replicates e = true /\ e ∈ effects n.
Proof. unfold sent. by rewrite list_elem_of_filter. Qed.

Lemma sent_app {St} es (n : RaftNodeInner St) :
  sent (set_effects (effects n ++ es) n) =
    sent n ++ filter (fun e => replicates e = true) es.
Proof. unfold sent. cbn. by rewrite filter_app. Qed.

Lemma sent_emit {St} e (n : RaftNodeInner St) :
  replicates e = false -> sent (set_effects (effects n ++ [e]) n) = sent n.
Proof.
  intros He. rewrite sent_app, filter_cons_False, filter_nil, app_nil_r by congruence. done.
Qed.

Ltac sent_keeps :=
  intros;
  unfold reply, emit, upd_sm, get_sm, last_index_or_0, term_or_0, set_peer_progress,
    record_match;
  repeat first
    [ progress intros
    | solve [eauto with keeps]
    | apply keeps_bind
    | apply keeps_try_bind
    | apply keeps_when
    | apply keeps_for_each
    | apply keeps_modify; intros; first [done | by apply sent_emit]
    | case_match ].

Section sent.
Context {prof : BuildProfile} {St : Type} `{HS : Storage St}.
Implicit Types n : RaftNodeInner St.

Lemma on_storage_keeps_sent {A} (m : M St A) : keeps sent (on_storage m).
Proof. by apply keeps_zoom. Qed.
Lemma on_sm_keeps_sent {A} (m : M RaftStateMachine A) : keeps (sent (St := St)) (on_sm m).
Proof. by apply keeps_zoom. Qed.
Hint Resolve on_storage_keeps_sent on_sm_keeps_sent : keeps.
Lemma save_keeps_sent : keeps (sent (St := St)) save_hard_state.
Proof. unfold save_hard_state. sent_keeps. Qed.
Lemma search_keeps_sent fuel t lo hi : keeps (sent (St := St)) (search_term fuel t lo hi).
Proof. revert lo hi. induction fuel; intros; cbn [search_term]; sent_keeps. Qed.
Lemma scan_keeps_sent fuel q t i : keeps (sent (St := St)) (scan_commit fuel q t i).
Proof. revert i. induction fuel; intros; cbn [scan_commit]; sent_keeps. Qed.
Lemma notify_keeps_sent c l : keeps (sent (St := St)) (notify_pending c l).
Proof. induction l as [|[]]; cbn [notify_pending]; sent_keeps. Qed.
Hint Resolve save_keeps_sent search_keeps_sent scan_keeps_sent notify_keeps_sent : keeps.

Lemma maybe_advance_keeps_sent : keeps (sent (St := St)) maybe_advance_commit.
Proof. unfold maybe_advance_commit. sent_keeps. Qed.
Lemma apply_keeps_sent : keeps (sent (St := St)) apply_committed.
Proof. unfold apply_committed. sent_keeps. Qed.
Lemma step_down_keeps_sent t l : keeps (sent (St := St)) (step_down t l).
Proof. unfold step_down. sent_keeps. Qed.
Hint Resolve maybe_advance_keeps_sent apply_keeps_sent step_down_keeps_sent : keeps.
Lemma on_append_entries_keeps_sent req : keeps (sent (St := St)) (on_append_entries req).
Proof. unfold on_append_entries, check_prev, first_index_of_term. sent_keeps. Qed.
Lemma on_request_vote_keeps_sent req : keeps (sent (St := St)) (on_request_vote req).
Proof. unfold on_request_vote. sent_keeps. Qed.
Lemma append_response_keeps_sent p li r :
  keeps (sent (St := St)) (handle_append_response p li r).
Proof. unfold handle_append_response. sent_keeps. Qed.
Lemma snapshot_response_keeps_sent p li r :
  keeps (sent (St := St)) (handle_snapshot_response p li r).
Proof. unfold handle_snapshot_response. sent_keeps. Qed.
End sent.

#[export] Hint Resolve on_storage_keeps_sent on_sm_keeps_sent save_keeps_sent
  search_keeps_sent scan_keeps_sent notify_keeps_sent maybe_advance_keeps_sent apply_keeps_sent
  step_down_keeps_sent on_append_entries_keeps_sent on_request_vote_keeps_sent
  append_response_keeps_sent snapshot_response_keeps_sent : keeps.

Definition node_commit {St} (n : RaftNodeInner St) : LogIndex := commit_index (sm n).

#[export] Instance frame_node_commit {St} `{Storage St} : Frame (node_commit (St := St)).
Proof. split; done. Qed.
#[export] Instance apply_frame_node_commit {St} : ApplyFrame (node_commit (St := St)).
Proof. done. Qed.

(** ** Computations that leave the log alone *)

Section logs.
Context {prof : BuildProfile} {St : Type}
  `{HS : Storage St, HL : !LogStorage St, HD : !DurableStorage St}.
Implicit Types n : RaftNodeInner St.

Definition log_is (L : LogView) n : Prop := log_ok n /\ log n = L.

Lemma keeps_storage_log {A} L (m : M (RaftNodeInner St) A) :
  keeps storage m -> preserves (log_is L) m.
Proof. intros Hk n [Hn <-]. unfold log_is, log_ok, log in *. by rewrite Hk. Qed.

Lemma first_index_log L : preserves (log_is L) (on_storage st_first_index).
Proof. intros n [Hn Hl]. by rewrite first_index_run. Qed.
Lemma term_log L i : preserves (log_is L) (on_storage (st_term i)).
Proof. intros n [Hn Hl]. by rewrite term_run. Qed.
Lemma entries_log L lo hi max : preserves (log_is L) (on_storage (st_entries lo hi max)).
Proof. intros n [Hn Hl]. by destruct (entries_run lo hi max n Hn) as (r & -> & _). Qed.
Lemma last_index_log L : preserves (log_is L) last_index_or_0.
Proof. intros n [Hn Hl]. by rewrite last_index_or_0_run. Qed.
Lemma term_or_0_log L i : preserves (log_is L) (term_or_0 i).
Proof. intros n [Hn Hl]. by rewrite term_or_0_run. Qed.
Lemma save_log L : preserves (log_is L) save_hard_state.
Proof. intros n [Hn Hl]. destruct (save_run n Hn) as (s' & -> & Hs & Hv & _). by rewrite <- Hl. Qed.
Lemma on_sm_log {A} L (m : M RaftStateMachine A) : preserves (log_is L) (on_sm m).
Proof. apply keeps_storage_log. by apply keeps_zoom. Qed.
Hint Resolve first_index_log term_log entries_log last_index_log term_or_0_log save_log
  on_sm_log : preserves.

Ltac log_preserves :=
  intros; unfold reply, emit, upd_sm, get_sm, set_peer_progress, record_match;
  repeat first
    [ progress intros
    | solve [eauto with preserves]
    | solve [apply keeps_storage_log; solve_keeps]
    | apply preserves_bind
    | apply preserves_try_bind
    | apply preserves_when
    | apply preserves_for_each
    | case_match ].

Lemma scan_log L fuel q t i : preserves (log_is L) (scan_commit fuel q t i).
Proof. revert i. induction fuel; intros; cbn [scan_commit]; log_preserves. Qed.
Lemma notify_log L c l : preserves (log_is L) (notify_pending c l).
Proof. induction l as [|[]]; cbn [notify_pending]; log_preserves. Qed.
Hint Resolve scan_log notify_log : preserves.
Lemma maybe_advance_log L : preserves (log_is L) maybe_advance_commit.
Proof. unfold maybe_advance_commit. log_preserves. Qed.
Lemma apply_log L : preserves (log_is L) apply_committed.
Proof. unfold apply_committed. log_preserves. Qed.
Lemma step_down_log L t l : preserves (log_is L) (step_down t l).
Proof. unfold step_down. log_preserves. Qed.
Hint Resolve maybe_advance_log apply_log step_down_log : preserves.
Lemma append_response_log L p li r : preserves (log_is L) (handle_append_response p li r).
Proof. unfold handle_append_response. log_preserves. Qed.
Lemma snapshot_response_log L p li r : preserves (log_is L) (handle_snapshot_response p li r).
Proof. unfold handle_snapshot_response. log_preserves. Qed.
Lemma restart_log L : preserves (log_is L) restart.
Proof. intros n Hn. rewrite restart_run. exact Hn. Qed.
Lemma snapshot_log L : preserves (log_is L) (on_storage st_snapshot).
Proof. intros n [Hn Hl]. by rewrite snapshot_run. Qed.
Hint Resolve snapshot_log : preserves.
Lemma replicate_all_log L : preserves (log_is L) replicate_all.
Proof. unfold replicate_all, replicate_to, send_snapshot_to. log_preserves. Qed.
Hint Resolve replicate_all_log : preserves.
Lemma win_election_log L : preserves (log_is L) win_election.
Proof. unfold win_election. log_preserves. Qed.
Hint Resolve win_election_log : preserves.
Lemma vote_response_log L p r : preserves (log_is L) (handle_vote_response p r).
Proof. unfold handle_vote_response. log_preserves. Qed.
End logs.

#[export] Hint Resolve maybe_advance_log apply_log step_down_log append_response_log
  snapshot_response_log restart_log replicate_all_log vote_response_log : preserves.

(** ** The summary of an input *)

Section steps.
Context {prof : BuildProfile} {St : Type}
  `{HS : Storage St, HL : !LogStorage St, HD : !DurableStorage St}.
Implicit Types n : RaftNodeInner St.

(** A well-formed node that never had a snapshot. *)
Record ready n : Prop := {
  rd_log : log_ok n;
  rd_persisted : persisted n;
  rd_progress : progress_ok n;
  rd_cap : u64 (max_append_entries (config n) * 4096);
  rd_snapshot : lv_snapshot (log n) = None;
}.

Lemma ready_base n : ready n -> lv_base (log n) = 0.
Proof.
  intros Hn. pose proof (wf_base _ (log_wf_view _ (rd_log _ Hn))) as Hb.
  change (log_view (storage n)) with (log n) in Hb. by rewrite (rd_snapshot _ Hn) in Hb.
Qed.

(** Inputs that fit: AppendEntries with consecutive entries, no snapshots, and
    room for one more entry, term or match. *)
Definition takes n (i : Input) : Prop :=
  match i with
  | InAppendEntries req => follows (log n) req
  | InRequestVote req => rv_candidate_id req <> 0
  | InInstallSnapshot _ => False
  | InMessage (Propose _) => u64 (lv_last (log n) + 3)
  | InMessage msg => bounded (InMessage msg)
  | InElectionTimeout => u64 (current_term (sm n) + 1)
  | InHeartbeat | InRestart => True
  end.

Lemma takes_admissible n i : takes n i -> admissible n i /\ bounded i.
Proof. destruct i as [| | |[]| | |]; cbn; tauto. Qed.

(** An AppendEntries a leader sends: of its own term, to a peer, from its own
    log, with no higher commit index than its own. *)
Definition sends_from n (e : Effect) : Prop :=
  match e with
  | SpawnAppendEntries peer req li =>
      role (sm n) = Leader /\ ae_term req = current_term (sm n) /\
      peer ∈ cfg_peers (config n) /\ ae_leader_commit req <= commit_index (sm n) /\
      exists next, 1 <= next /\ u64 next /\ sent_from (log n) next req /\
        li = next - 1 + nlen (ae_entries req)
  | _ => False
  end.

Inductive log_change n : Input -> RaftNodeInner St -> Prop :=
| lc_same i n' : log n' = log n -> log_change n i n'
| lc_append req n' :
    current_term (sm n) <= ae_term req -> prev_matches (log n) req = true ->
    log n' = spec_append (log n) (new_entries req) ->
    log_change n (InAppendEntries req) n'
| lc_propose p n' :
    role (sm n) = Leader -> sm n' = sm n ->
    log n' = spec_append (log n) [proposed n (prop_data p)] ->
    log_change n (InMessage (Propose p)) n'.

(** How an input leaves the log and what it sends. *)
Record log_step n (i : Input) (n' : RaftNodeInner St) : Prop := {
  ls_log : log_ok n';
  ls_change : log_change n i n';
  ls_sent : exists es, sent n' = sent n ++ es /\ Forall (sends_from n') es;
}.

Lemma quiet_step n i n' L :
  log_is L n' -> L = log n -> sent n' = sent n -> log_step n i n'.
Proof.
  intros [Hn Hl] -> Hs. split; [done|by apply lc_same|]. exists [].
  by rewrite app_nil_r.
Qed.

Lemma quiet_run {A} n i (m : M (RaftNodeInner St) A) :
  log_ok n -> preserves (log_is (log n)) m -> keeps sent m -> log_step n i (m n).2.
Proof. intros Hn Hp Hk. eapply quiet_step; [by apply Hp|done|apply Hk]. Qed.

Lemma replication_sends n peer p e :
  progress_ok n -> lv_base (log n) = 0 -> role (sm n) = Leader ->
  peer ∈ cfg_peers (config n) -> progress (sm n) !! peer = Some p ->
  replication n peer (next_index p) e -> sends_from n e /\ replicates e = true.
Proof.
  intros Hpr Hb Hr Hin Hp He. destruct (Hpr peer p Hp) as (H1 & Hu & _).
  unfold replication in He. rewrite (proj2 (N.ltb_ge _ _)) in He by lia.
  destruct He as (req & -> & Ht & _ & Hc & Hs). split; [|done].
  do 3 (split; [done|]). split; [lia|]. by exists (next_index p).
Qed.

(** The messages to all tracked peers. *)
Lemma replications_send n ps es :
  progress_ok n -> lv_base (log n) = 0 -> role (sm n) = Leader ->
  (forall peer, peer ∈ ps -> peer ∈ cfg_peers (config n)) ->
  Forall2 (fun x e => replication n x.1 (next_index x.2) e) (tracked ps n) es ->
  Forall (sends_from n) es /\ filter (fun e => replicates e = true) es = es.
Proof.
  intros Hp Hb Hr Hps Hes.
  assert (forall x, x ∈ tracked ps n ->
    x.1 ∈ cfg_peers (config n) /\ progress (sm n) !! x.1 = Some x.2) as Htr.
  { intros [peer p]. unfold tracked. rewrite list_elem_of_omap. intros (q & Hq & Hx).
    destruct (progress (sm n) !! q) eqn:Hp'; [|done]. injection Hx as -> ->. auto. }
  clear Hps. induction Hes as [|x e xs es Hx Hes IH]; [by split|].
  destruct (Htr x) as [Hin Hpx]; [left|].
  destruct (replication_sends n x.1 x.2 e Hp Hb Hr Hin Hpx Hx) as [Hs He].
  destruct IH as [IH1 IH2]; [intros y Hy; apply Htr; by right|].
  split; [by constructor|]. by rewrite filter_cons_True, IH2.
Qed.

Lemma replicate_all_sends n :
  log_ok n -> progress_ok n -> u64 (max_append_entries (config n) * 4096) ->
  lv_base (log n) = 0 ->
  exists es, replicate_all n = (Done tt, set_effects (effects n ++ es) n) /\
    sent (set_effects (effects n ++ es) n) = sent n ++ es /\ Forall (sends_from n) es.
Proof.
  intros Hn Hp Hm Hb. unfold replicate_all, bind, get_sm, gets.
  case_bool_decide as Hr; [exists []; rewrite !app_nil_r; by destruct n|].
  destruct (replicate_all_loop (cfg_peers (config n)) n Hn Hp Hm) as (es & -> & Hes).
  destruct (replications_send n _ es Hp Hb Hr ltac:(done) Hes) as [Hs Hf].
  exists es. split; [done|]. by rewrite sent_app, Hf.
Qed.

Lemma win_election_sends n :
  ready n -> exists n' es pr, win_election n = (Done tt, n') /\ log_is (log n) n' /\
    sent n' = sent n ++ es /\ Forall (sends_from n') es /\
    fresh_peers (lv_last (log n)) (cfg_peers (config n)) pr /\
    sm n' = MkSM (current_term (sm n)) (voted_for (sm n)) Leader (commit_index (sm n))
              (last_applied (sm n)) (Some (cfg_id (config n))) pr (votes_received (sm n)).
Proof.
  intros Hn. pose proof (ready_base n Hn) as Hb. destruct Hn as [Hn _ _ Hm _].
  pose proof (wf_bound _ (log_wf_view _ Hn)) as Hu. fold (log n) in Hu.
  destruct (become_leader_run (cfg_id (config n)) (lv_last (log n)) (cfg_peers (config n)) (sm n))
    as (pr & Hbl & Hpr); [unfold u64 in *; lia|].
  unfold win_election. unfold bind at 1, gets at 1. unfold bind at 1.
  rewrite last_index_or_0_run by done. unfold bind at 1, on_sm, zoom. rewrite Hbl.
  cbn [fst snd]. unfold bind at 1, emit at 1, modify at 1. set (n1 := set_effects _ _).
  destruct (replicate_all_sends n1) as (es & -> & Hs & Hes);
    [done|eapply fresh_peers_ok, Hpr; unfold u64 in *; lia|done|done|].
  eexists _, es, pr. split; [done|]. split; [done|]. split; [|by split].
  rewrite Hs. f_equal. unfold n1. by rewrite sent_emit.
Qed.

(** *** Handlers *)

Lemma vote_response_step peer r n :
  ready n -> log_step n (InMessage (VoteResponse peer r)) (handle_vote_response peer r n).2.
Proof.
  intros Hn. pose proof (rd_log _ Hn) as Hl. unfold handle_vote_response.
  unfold bind at 1, get_sm at 1, gets at 1.
  case_match; [apply quiet_run; auto with preserves keeps|].
  unfold bind at 1, get_sm at 1, gets at 1. case_match; [|apply quiet_run; auto with preserves keeps].
  unfold bind at 1, upd_sm at 1, modify at 1. set (n1 := set_sm _ n).
  unfold bind at 1, gets at 1. unfold bind at 1, get_sm at 1, gets at 1.
  case_match; [|by eapply quiet_step].
  destruct (win_election_sends n1) as (n2 & es & pr & -> & Hl2 & Hs & Hes & _);
    [by destruct Hn|].
  split; [apply Hl2|apply lc_same, Hl2|by exists es].
Qed.

Lemma election_step n :
  ready n -> u64 (current_term (sm n) + 1) ->
  log_step n InElectionTimeout (start_election n).2.
Proof.
  intros Hn Hu. destruct (start_election_run n (rd_log _ Hn) Hu)
    as (n' & -> & _ & Hn' & Hl & _ & He & _).
  cbn [snd]. eapply quiet_step; [by split|done|]. unfold sent. rewrite He, !filter_app.
  assert (forall ps, filter (fun e => replicates e = true)
    (map (fun p => SpawnRequestVote p (vote_request n)) ps) = []) as ->.
  { induction ps; [done|]. cbn [map]. by rewrite filter_cons_False. }
  by case_bool_decide; rewrite app_nil_r.
Qed.

Lemma proposal_step p n :
  ready n -> u64 (lv_last (log n) + 3) ->
  log_step n (InMessage (Propose p)) (on_proposal p n).2.
Proof.
  intros Hn Hu. pose proof (ready_base n Hn) as Hb. destruct Hn as [Hn Hp Hpr Hm _].
  destruct (on_proposal_run n p Hn Hpr Hu Hm) as (n' & Hrun & Hs & Hn' & Hcase).
  pose proof (handle_keeps_config (InMessage (Propose p)) n) as Hc. cbn [handle] in Hc.
  rewrite after_no_reply in Hc. cbn [dispatch] in Hc.
  rewrite Hrun in *. cbn [snd] in *. case_decide as Hr.
  - destruct Hcase as (Hl & _ & _ & _ & es & He & Hes).
    split; [done|by eapply lc_propose|].
    destruct (replications_send n' (cfg_peers (config n)) es) as [Hse Hf].
    + unfold progress_ok, peer_progress. by rewrite Hs.
    + by rewrite Hl.
    + by rewrite Hs.
    + by rewrite Hc.
    + unfold tracked in *. by rewrite Hs.
    + exists es. split; [|done]. unfold sent. by rewrite He, filter_app, Hf.
  - destruct Hcase as (Hl & _ & He). eapply quiet_step; [by split|done|].
    unfold sent. rewrite He, filter_app. destruct (prop_tx p); by rewrite app_nil_r.
Qed.

Lemma sends_from_same n n' e :
  role (sm n') = role (sm n) -> current_term (sm n') = current_term (sm n) ->
  commit_index (sm n) <= commit_index (sm n') ->
  config n' = config n -> log n' = log n -> sends_from n e -> sends_from n' e.
Proof.
  intros Hr Ht Hci Hc Hl. unfold sends_from. destruct e; try done. rewrite Ht, Hr, Hc, Hl.
  intros (? & ? & ? & ? & ?). repeat (split; [done|]). split; [lia|done].
Qed.

(** A leader's commit index never moves down. *)
Lemma advance_commit_le n :
  commit_index (sm n) <= commit_index (sm (maybe_advance_commit n).2).
Proof.
  change (wp maybe_advance_commit (fun _ n' => node_commit n <= node_commit n') n).
  unfold maybe_advance_commit. apply wp_bind, wp_gets. case_match; [apply wp_ret; lia|].
  apply (wp_bind_keeps node_commit); [by node_keeps|intros li n1 Hn1|intros n1 ->; lia].
  do 3 apply wp_bind, wp_gets.
  apply (wp_bind_keeps node_commit); [by node_keeps|intros o n2 Hn2|intros n2 ->; lia].
  change (commit_index (sm n1)) with (node_commit n1).
  unfold wp. rewrite (keeps_after node_commit) by node_keeps.
  destruct (N.ltb_spec (node_commit n1) (default (node_commit n1) o)); cbn [when]; [|cbn; lia].
  rewrite (keeps_after node_commit); [cbn; lia|].
  intros _. unfold save_hard_state. node_keeps.
Qed.

Lemma heartbeat_tail_commit n :
  commit_index (sm n) <=
    commit_index (sm (bind maybe_advance_commit (fun _ => apply_committed) n).2).
Proof.
  change (node_commit n <=
    node_commit (bind maybe_advance_commit (fun _ => apply_committed) n).2).
  rewrite (keeps_after node_commit); [apply advance_commit_le|].
  intros _. apply apply_committed_keeps; apply _.
Qed.

Lemma heartbeat_step n : ready n -> log_step n InHeartbeat (on_heartbeat n).2.
Proof.
  intros Hn. pose proof (ready_base n Hn) as Hb. destruct Hn as [Hn Hp Hpr Hm _].
  destruct (replicate_all_sends n Hn Hpr Hm Hb) as (es & Hrun & Hs & Hes).
  unfold on_heartbeat. unfold bind at 1. rewrite Hrun. set (n1 := set_effects _ n) in *.
  set (m := bind maybe_advance_commit _).
  assert (preserves (log_is (log n)) m) as Hpm by (apply preserves_bind; auto with preserves).
  assert (keeps sent m) as Hks by (apply keeps_bind; auto with keeps).
  assert (elect (m n1).2 = elect n1) as Hke.
  { apply (keeps_bind elect); [apply maybe_advance_keeps_elect|].
    intros _. apply apply_committed_keeps; apply _. }
  assert (config (m n1).2 = config n1) as Hkc.
  { enough (keeps config m) as Hk by apply Hk.
    unfold m, maybe_advance_commit, save_hard_state. by node_keeps. }
  destruct (Hpm n1) as [Hn' Hl']; [done|].
  split; [done|by apply lc_same|]. exists es. rewrite Hks. split; [done|].
  unfold elect, ballot in Hke. injection Hke as Ht _ Hr _ _.
  eapply Forall_impl; [exact Hes|]. intros e. apply sends_from_same; try done.
  apply (heartbeat_tail_commit n1).
Qed.

Lemma append_entries_step req n :
  ready n -> follows (log n) req ->
  log_step n (InAppendEntries req) (on_append_entries req n).2.
Proof.
  intros Hn Hf. destruct (on_append_entries_run n req (rd_log _ Hn) (rd_persisted _ Hn) Hf)
    as (n' & r & Hrun & _ & Hn' & _ & _ & Hcase).
  pose proof (on_append_entries_keeps_sent req n) as Hs. rewrite Hrun in *. cbn [snd] in *.
  destruct (N.ltb_spec (ae_term req) (current_term (sm n))).
  { destruct Hcase as [-> _]. by eapply quiet_step. }
  destruct (prev_matches (log n) req) eqn:Hok.
  - destruct Hcase as (_ & Hl & _). split; [done|by apply lc_append|].
    exists []. by rewrite app_nil_r.
  - destruct Hcase as (_ & Hl & _). by eapply quiet_step.
Qed.

Lemma accepted_log req n :
  log_ok n -> persisted n -> follows (log n) req -> current_term (sm n) <= ae_term req ->
  prev_matches (log n) req = true ->
  log (handle (InAppendEntries req) n).2 = spec_append (log n) (new_entries req).
Proof.
  intros Hn Hp Hf Ht Hm. destruct (on_append_entries_run n req Hn Hp Hf)
    as (n' & r & Hr & _ & _ & _ & _ & Hcase). cbn [handle]. rewrite after_reply, Hr.
  rewrite (proj2 (N.ltb_ge _ _)), Hm in Hcase by done. apply Hcase.
Qed.

Lemma request_vote_step req n :
  ready n -> log_step n (InRequestVote req) (on_request_vote req n).2.
Proof.
  intros Hn. destruct (on_request_vote_run n req (rd_log _ Hn) (or_introl (rd_persisted _ Hn)))
    as (n' & Hrun & _ & _ & Hn' & Hl & _).
  pose proof (on_request_vote_keeps_sent req n) as Hs. rewrite Hrun in *.
  by eapply quiet_step.
Qed.

Lemma dispatch_step msg n :
  ready n -> takes n (InMessage msg) -> log_step n (InMessage msg) (dispatch msg n).2.
Proof.
  intros Hn Ht. pose proof (rd_log _ Hn) as Hl.
  destruct msg; cbn [dispatch]; cbn in Ht;
    try (eapply quiet_step; [|done|]; [done|by first [done|apply sent_emit]]).
  - by apply proposal_step.
  - apply quiet_run; auto with preserves keeps.
  - by apply vote_response_step.
  - apply quiet_run; auto with preserves keeps.
Qed.

Lemma handle_log_step i n : ready n -> takes n i -> log_step n i (handle i n).2.
Proof.
  intros Hn Ht. destruct i; cbn [handle]; rewrite ?after_reply, ?after_no_reply.
  - by apply append_entries_step.
  - by apply request_vote_step.
  - done.
  - by apply dispatch_step.
  - by apply election_step.
  - by apply heartbeat_step.
  - rewrite restart_run. eapply quiet_step; [|done|]; [|done]. split; [apply Hn|done].
Qed.

Lemma handle_ready i n : ready n -> takes n i -> ready (handle i n).2.
Proof.
  intros Hn Ht. pose proof (handle_log_step i n Hn Ht) as [Hl Hch _].
  destruct (takes_admissible n i Ht) as [Ha Hb]. destruct Hn as [Hn Hp Hpr Hm Hs].
  split; [done|by apply handle_preserves|by apply handle_progress_ok|
          by rewrite handle_keeps_config|].
  destruct Hch as [i n' ->|req n' _ _ ->|p n' _ _ ->]; [done| |done].
  by destruct (new_entries req).
Qed.
End steps.
