(* ===== verification/CommitSteps.v ===== *)
(** * Commit indices and progress, one input at a time

    What any input does to a node's commit index, to what a leader knows of its
    peers, and to the entries handed to the application, over a backend that
    keeps the laws of [Storage] and has no snapshot: the counterpart of [LogSteps] for
    the commit rule. *)

From Stdlib Require Import Lia Init.Byte.
From stdpp Require Import base numbers list option gmap sets fin_maps strings.
From S2P Require Import Prelude.
From S2P Require Import Core.
From S2P Require Import Proto.
From S2P Require Import Storage.
From S2P Require Import MemStorage.
From S2P Require Import StateMachine.
From S2P Require Import Node.
From S2P Require Import Handlers.
From S2P Require Import Votes.
From S2P Require Import NodeLog.
From S2P Require Import Election.
From S2P Require Import RequestVote.
From S2P Require Import AppendEntries.
From S2P Require Import Replication.
From S2P Require Import Commit.
From S2P Require Import Progress.
From S2P Require Import Proposals.
From S2P Require Import Total.
From S2P Require Import LogSteps.

Section steps.
Context {prof : BuildProfile} {St : Type}
  `{HS : Storage St, HL : !LogStorage St, HD : !DurableStorage St}.
Implicit Types n : RaftNodeInner St.

(** The commit index moves by an accepted AppendEntries or by the commit rule
    of a leader. *)
Inductive commit_change n : Input -> RaftNodeInner St -> Prop :=
| cc_same i n' : commit_index (sm n') = commit_index (sm n) -> commit_change n i n'
| cc_follow req n' :
    current_term (sm n) <= ae_term req -> prev_matches (log n) req = true ->
    log n' = spec_append (log n) (new_entries req) ->
    commit_index (sm n') = commit_after (log n') req (commit_index (sm n)) ->
    commit_change n (InAppendEntries req) n'
| cc_lead i n' :
    role (sm n') = Leader ->
    commit_index (sm n) < commit_index (sm n') <= lv_last (log n') ->
    node_committable n' (commit_index (sm n')) -> commit_change n i n'.

(** What a leader takes a peer to store: nothing when it has just won; later,
    what it took it to store before, or what the peer now says. *)
Definition match_step n (i : Input) (n' : RaftNodeInner St) (peer : NodeId) (p' : Progress) : Prop :=
  peer ∈ cfg_peers (config n') /\ match_index p' = 0 \/
  role (sm n) = Leader /\ current_term (sm n') = current_term (sm n) /\
  exists p, progress (sm n) !! peer = Some p /\
    (match_index p' = match_index p \/
     exists li r, i = InMessage (AppendResponse peer li r) /\ aer_success r = true /\
       aer_term r <= current_term (sm n) /\ match_index p' = N.max (match_index p) li).

Record commit_step n (i : Input) (n' : RaftNodeInner St) : Prop := {
  cs_change : commit_change n i n';
  cs_match : role (sm n') = Leader -> forall peer p',
    progress (sm n') !! peer = Some p' -> match_step n i n' peer p';
  cs_applied e : ApplyEntry e ∈ effects n' ->
    ApplyEntry e ∈ effects n \/
    lv_log (log n') !! le_index e = Some e /\ le_index e <= commit_index (sm n');
}.

Lemma match_same n i n' peer p :
  role (sm n) = Leader -> current_term (sm n') = current_term (sm n) ->
  progress (sm n) !! peer = Some p -> match_step n i n' peer p.
Proof. intros. right. split; [done|]. split; [done|]. exists p. auto. Qed.

Lemma applied_before i n e :
  i <> InHeartbeat -> ApplyEntry e ∈ effects (handle i n).2 -> ApplyEntry e ∈ effects n.
Proof.
  intros Hi He. apply elem_of_handed_over in He. rewrite handle_keeps_handed in He by done.
  by apply elem_of_handed_over.
Qed.

(** Inputs that leave the commit index alone, and a leader's progress. *)
Lemma commit_quiet n i n' :
  i <> InHeartbeat -> n' = (handle i n).2 ->
  commit_index (sm n') = commit_index (sm n) ->
  (role (sm n') = Leader -> role (sm n) = Leader /\ progress (sm n') = progress (sm n) /\
     current_term (sm n') = current_term (sm n)) ->
  commit_step n i n'.
Proof.
  intros Hi -> Hc Hr. split; [by apply cc_same| |].
  - intros Hl peer p' Hp. destruct (Hr Hl) as (? & Hpr & ?). apply match_same; congruence.
  - intros e He. left. by eapply applied_before.
Qed.

(** A leader's commit rule. *)
Lemma advance_step n :
  log_ok n -> persisted n -> last_applied (sm n) <= commit_index (sm n) ->
  exists o n', maybe_advance_commit n = (Done tt, n') /\ sm n' = move_commit o (sm n) /\
    log_ok n' /\ log n' = log n /\ config n' = config n /\
    (commit_index (sm n') = commit_index (sm n) \/
     role (sm n) = Leader /\
     commit_index (sm n) < commit_index (sm n') <= lv_last (log n') /\
     node_committable n' (commit_index (sm n'))).
Proof.
  intros Hn Hp Hla. destruct (decide (role (sm n) = Leader)) as [Hr|Hr].
  - destruct (maybe_advance_commit_run n Hn Hp Hr Hla)
      as (o & n' & Hrun & Hg & Hs & _ & Hn' & Hl & Hc & _).
    exists o, n'. do 5 (split; [done|]).
    destruct o as [c|]; [right|left; by rewrite Hs]. destruct Hg as (? & Hcm & _).
    unfold node_committable in *. rewrite Hs, Hl, Hc. split; [done|]. split; [done|exact Hcm].
  - exists None, n. split; [|by repeat split; auto]. unfold maybe_advance_commit, bind, get_sm, gets.
    by rewrite bool_decide_true.
Qed.

Lemma handled i n (m : M (RaftNodeInner St) unit) :
  handle i = bind m (fun _ => ret NoReply) -> (handle i n).2 = (m n).2.
Proof. intros ->. unfold bind. by destruct (m n) as [[]]. Qed.

(** A success is recorded; then the commit index may move. *)
Lemma append_response_commit_step peer li r n :
  node_ok n -> bounded (InMessage (AppendResponse peer li r)) ->
  commit_step n (InMessage (AppendResponse peer li r))
    (handle (InMessage (AppendResponse peer li r)) n).2.
Proof.
  intros [Hn Hp Hpr [Hla _] _] [Hli Hci].
  set (i := InMessage (AppendResponse peer li r)). set (n' := (handle i n).2).
  assert (n' = (handle_append_response peer li r n).2) as Hn' by by apply handled.
  assert (forall e, ApplyEntry e ∈ effects n' -> ApplyEntry e ∈ effects n) as Hap
    by (intros e; by apply applied_before).
  unfold handle_append_response in Hn'. unfold bind at 1, get_sm at 1, gets at 1 in Hn'.
  destruct (N.ltb_spec (current_term (sm n)) (aer_term r)) as [Ht|Ht].
  { destruct (step_down_run (aer_term r) None n Hn) as (s' & Hr & _). rewrite Hr in Hn'.
    apply commit_quiet; [done|done|..]; rewrite Hn'; [done|]. by cbn. }
  unfold bind at 1, get_sm at 1, gets at 1 in Hn'. case_bool_decide as Hr.
  { apply commit_quiet; [done|done|..]; rewrite Hn'; [done|]. by cbn. }
  destruct (decide (role (sm n) = Leader)) as [Hr'|]; [clear Hr|done].
  unfold bind at 1, get_sm at 1, gets at 1 in Hn'.
  assert (exists pr, n' = (maybe_advance_commit (set_sm (set_progress pr (sm n)) n)).2 /\
    forall q p', pr !! q = Some p' -> match_step n i (set_sm (set_progress pr (sm n)) n) q p')
    as (pr & Hrun & Hpm).
  { destruct (progress (sm n) !! peer) as [p|] eqn:Hpeer.
    2:{ exists (progress (sm n)). split; [rewrite Hn'; by destruct n as [[]]|].
        intros q p' Hq. by apply match_same. }
    destruct (Hpr peer p Hpeer) as (_ & _ & Hm). destruct (aer_success r) eqn:Hs.
    - eexists. split; [rewrite Hn'; unfold bind; by rewrite record_match_run|].
      intros q p' [[<- <-]|[_ Hq]]%lookup_insert_Some; [|by apply match_same].
      right. split; [done|]. split; [done|]. exists p. split; [done|]. right. by exists li, r.
    - eexists. split; [rewrite Hn'; reflexivity|].
      intros q p' [[<- <-]|[_ Hq]]%lookup_insert_Some; [|by apply match_same].
      right. split; [done|]. split; [done|]. exists p. split; [done|]. by left. }
  clear Hn'. set (n1 := set_sm _ n) in *.
  destruct (advance_step n1 Hn Hp Hla) as (o & n2 & Hadv & Hs2 & _ & Hl2 & Hc2 & Hcase).
  rewrite Hadv in Hrun. cbn [snd] in Hrun. clearbody n'. subst n'.
  split.
  - destruct Hcase as [?|(_ & ? & ?)]; [by apply cc_same|apply cc_lead; try done].
    rewrite Hs2. by destruct o.
  - intros _ q p' Hq. rewrite Hs2 in Hq.
    assert (pr !! q = Some p') as Hq' by by destruct o.
    specialize (Hpm q p' Hq'). unfold match_step in *. rewrite Hc2, Hs2. by destruct o.
  - intros e He. left. by apply Hap.
Qed.

Lemma append_entries_commit_step req n :
  node_ok n -> follows (log n) req ->
  commit_step n (InAppendEntries req) (handle (InAppendEntries req) n).2.
Proof.
  intros [Hn Hp _ _ _] Hf. set (n' := (handle _ n).2).
  destruct (on_append_entries_run n req Hn Hp Hf) as (n1 & r & Hr & _ & _ & _ & _ & Hcase).
  assert (n' = n1) as Hn1 by (unfold n'; cbn [handle]; by rewrite after_reply, Hr).
  assert (role (sm n') = Leader -> role (sm n) = Leader /\ progress (sm n') = progress (sm n) /\
            current_term (sm n') = current_term (sm n)) as Hlead.
  { assert (sm n' = sm n \/ exists c, sm n' = set_commit_index c (following_sm req (sm n)))
      as [->|(c & ->)]; [|done|].
    - rewrite Hn1. destruct (ae_term req <? current_term (sm n)); [left; by destruct Hcase as [-> _]|].
      right. destruct (prev_matches (log n) req); destruct Hcase as (_ & _ & ->); [by eexists|].
      exists (commit_index (sm n)). unfold following_sm, set_commit_index, set_leader_id.
      by rewrite <- (observed_sm_commit (ae_term req) (Some (ae_leader_id req)) (sm n)).
    - unfold following_sm, observed_sm. by destruct (current_term (sm n) <? ae_term req). }
  destruct (N.ltb_spec (ae_term req) (current_term (sm n))) as [Ht|Ht].
  { apply commit_quiet; try done. rewrite Hn1. by destruct Hcase as [-> _]. }
  destruct (prev_matches (log n) req) eqn:Hok; destruct Hcase as (_ & Hl & Hs).
  - split.
    + apply cc_follow; [done|done|by rewrite Hn1|]. rewrite Hn1, Hl, Hs. done.
    + intros Hr' q p' Hq. destruct (Hlead Hr') as (? & Hpr & ?). apply match_same; congruence.
    + intros e He. left. by eapply (applied_before (InAppendEntries req)).
  - apply commit_quiet; try done. rewrite Hn1, Hs. apply observed_sm_commit.
Qed.

Lemma request_vote_commit_step req n :
  node_ok n -> commit_step n (InRequestVote req) (handle (InRequestVote req) n).2.
Proof.
  intros [Hn Hp _ _ _]. set (n' := (handle _ n).2).
  destruct (on_request_vote_run n req Hn (or_introl Hp)) as (n1 & Hr & Hs & _).
  assert (n' = n1) as Hn1 by (unfold n'; cbn [handle]; by rewrite after_reply, Hr).
  apply commit_quiet; try done; rewrite Hn1, Hs; unfold observed_sm; by repeat case_match.
Qed.

Lemma vote_response_commit_step peer r n :
  node_ok n -> ready n ->
  commit_step n (InMessage (VoteResponse peer r)) (handle (InMessage (VoteResponse peer r)) n).2.
Proof.
  intros [Hn Hp Hpr _ _] Hrd. set (i := InMessage (VoteResponse peer r)). set (n' := (handle i n).2).
  assert (n' = (handle_vote_response peer r n).2) as Hn' by by apply handled.
  unfold handle_vote_response in Hn'. unfold bind at 1, get_sm at 1, gets at 1 in Hn'.
  destruct (N.ltb_spec (current_term (sm n)) (rvr_term r)) as [Ht|Ht].
  { destruct (step_down_run (rvr_term r) None n Hn) as (s' & Hr & _). rewrite Hr in Hn'.
    apply commit_quiet; [done|done|..]; rewrite Hn'; [done|]. by cbn. }
  unfold bind at 1, get_sm at 1, gets at 1 in Hn'.
  case_match; [|apply commit_quiet; [done|done|..]; rewrite Hn'; [done|]; by cbn].
  unfold bind at 1, upd_sm at 1, modify at 1 in Hn'. set (n1 := set_sm _ n) in Hn'.
  unfold bind at 1, gets at 1 in Hn'. unfold bind at 1, get_sm at 1, gets at 1 in Hn'.
  case_match; [|apply commit_quiet; [done|done|..]; rewrite Hn'; [done|]; by cbn].
  destruct (win_election_sends n1) as (n2 & es & pr & Hw & _ & _ & _ & Hfresh & Hs2);
    [by destruct Hrd|].
  rewrite Hw in Hn'. cbn [snd] in Hn'.
  assert (config n' = config n) as Hc by apply handle_keeps_config.
  split.
  - apply cc_same. by rewrite Hn', Hs2.
  - intros _ q p' Hq. left. rewrite Hn', Hs2 in Hq. cbn in Hq.
    destruct (Hfresh q p' Hq) as [Hin ->]. rewrite Hc. by split.
  - intros e He. left. by eapply (applied_before i).
Qed.

Lemma election_commit_step n :
  node_ok n -> u64 (current_term (sm n) + 1) ->
  commit_step n InElectionTimeout (handle InElectionTimeout n).2.
Proof.
  intros [Hn _ _ _ _] Hu. set (n' := (handle _ n).2).
  destruct (start_election_run n Hn Hu) as (n1 & Hr & _ & _ & _ & Hs & _).
  assert (n' = n1) as Hn1 by (unfold n'; rewrite (handled _ _ start_election), Hr; done).
  split.
  - apply cc_same. rewrite Hn1, Hs. by case_bool_decide.
  - intros Hl q p' Hq. rewrite Hn1, Hs in Hl, Hq. case_bool_decide; [|done].
    cbn in Hq. by rewrite lookup_empty in Hq.
  - intros e He. left. by eapply (applied_before InElectionTimeout).
Qed.

Lemma heartbeat_commit_step n :
  node_ok n -> lv_base (log n) = 0 -> commit_index (sm n) <= lv_last (log n) ->
  commit_step n InHeartbeat (handle InHeartbeat n).2.
Proof.
  intros [Hn Hp Hpr [Hla _] Hm] Hb Hci. rewrite (handled _ _ on_heartbeat) by done.
  unfold on_heartbeat, bind.
  destruct (replicate_all_sends n Hn Hpr Hm Hb) as (es & Hrun & _ & Hes). rewrite Hrun.
  set (n1 := set_effects _ n).
  destruct (advance_step n1 Hn Hp Hla) as (o & n2 & Hadv & Hs2 & Hn2 & Hl2 & Hc2 & Hcase).
  pose proof (maybe_advance_keeps_handed n1) as Hk2. rewrite Hadv in *. cbn [snd] in Hk2.
  change (log n1) with (log n) in Hl2.
  assert (last_applied (sm n2) = last_applied (sm n)) as Hla2 by (rewrite Hs2; by destruct o).
  assert (commit_index (sm n) <= commit_index (sm n2) <= lv_last (log n2)) as Hci2.
  { rewrite Hl2. destruct Hcase as [->|(_ & ? & _)]; [done|]. cbn in *. rewrite Hl2 in *. lia. }
  destruct (apply_committed_run n2 Hn2) as (Hrun2 & _ & Hto); [rewrite Hl2, Hb; lia|lia|lia|].
  rewrite Hrun2. cbn [snd]. set (n3 := set_sm _ _). split.
  - destruct Hcase as [?|(Hr & ? & ?)]; [by apply cc_same|].
    apply cc_lead; [cbn; rewrite Hs2; by destruct o|done|done].
  - intros Hr q p' Hq. cbn in Hr, Hq. rewrite Hs2 in Hr, Hq. apply match_same; [|cbn; rewrite Hs2|];
      by destruct o.
  - intros e. cbn [effects set_sm set_effects n3]. rewrite elem_of_app. intros [He|He].
    + left. assert (ApplyEntry e ∈ handed_over n2) as He2 by by apply elem_of_handed_over.
      rewrite Hk2 in He2. apply elem_of_handed_over in He2. cbn in He2.
      apply elem_of_app in He2 as [?|He2]; [done|].
      pose proof (proj1 (Forall_forall _ _) Hes _ He2) as []. 
    + right. apply list_elem_of_fmap in He as (e' & [= <-] & He).
      apply list_elem_of_lookup in He as (k & Hk). apply Hto in Hk as [Hk ?].
      assert (le_index e = last_applied (sm n2) + 1 + N.of_nat k) as ->
        by (eapply wf_index; [|exact Hk]; by apply log_wf_view).
      split; [exact Hk|done].
Qed.

(** All inputs of a cluster without snapshots. *)
Lemma handle_commit_step i n :
  node_ok n -> ready n -> takes n i -> commit_index (sm n) <= lv_last (log n) ->
  (forall peer li r, i <> InMessage (SnapshotResponse peer li r)) ->
  commit_step n i (handle i n).2.
Proof.
  intros Hok Hrd Ht Hci Hns. destruct i as [req|req|req|msg| | |].
  - by apply append_entries_commit_step.
  - by apply request_vote_commit_step.
  - done.
  - destruct msg; try (by apply commit_quiet); [| | |by edestruct Hns].
    + destruct (on_proposal_run n p (rd_log _ Hrd) (rd_progress _ Hrd) Ht (rd_cap _ Hrd))
        as (n1 & Hr & Hs & _).
      assert ((handle (InMessage (Propose p)) n).2 = n1) as Hn1
        by (rewrite (handled _ _ (on_proposal p)), Hr; done).
      apply commit_quiet; try done; rewrite Hn1, Hs; done.
    + by apply append_response_commit_step.
    + by apply vote_response_commit_step.
  - by apply election_commit_step.
  - apply heartbeat_commit_step; [done|by apply ready_base|done].
  - apply commit_quiet; try done; rewrite (handled _ _ restart), restart_run by done; [|done].
    cbn. by rewrite (rd_persisted _ Hrd).
Qed.
End steps.
