(* ===== verification/Ensemble.v ===== *)
(** * The whole cluster

    Nodes, the messages they really sent, and nothing else: the tasks a node
    spawned call the handlers of their peers and post the answers to the node's
    own queue ([Network.run_task] over [ClusterTransport]). A task may run any
    number of times, late or never, so that requests are lost, delayed, repeated
    and reordered; an answer in a queue may be taken late, again or never. Nodes
    time out, crash and restart, and clients propose. A restart is one step, with
    nothing served before the hard state is restored; [Restarts] takes it apart.

    Theorem: these executions are executions of [Cluster]. [Matching] and
    [Safety] prove their invariants. *)

From Stdlib Require Import Lia Init.Byte.
From stdpp Require Import base numbers list option gmap sets fin_maps strings.
From S2P Require Import Prelude.
From S2P Require Import Core.
From S2P Require Import Proto.
From S2P Require Import Storage.
From S2P Require Import MemStorage.
From S2P Require Import StateMachine.
From S2P Require Import Node.
From S2P Require Import Handlers.
From S2P Require Import Votes.
From S2P Require Import NodeLog.
From S2P Require Import Election.
From S2P Require Import Cluster.
From S2P Require Import RequestVote.
From S2P Require Import AppendEntries.
From S2P Require Import Replication.
From S2P Require Import Commit.
From S2P Require Import Progress.
From S2P Require Import Proposals.
From S2P Require Import Total.
From S2P Require Import Network.
From S2P Require Import LogSteps.

(** ** The nodes as a network *)

Section transport.
Context {prof : BuildProfile} {St : Type} `{Storage St}.

(** An RPC to [peer]: its handler runs; an unknown peer and a handler that
    panics are failures for the caller. *)
Definition call {A} (peer : NodeId) (m : M (RaftNodeInner St) (raft_result A)) :
    M (gmap NodeId (RaftNodeInner St)) (raft_result A) := fun ns =>
  match ns !! peer with
  | None => (Done (Err (Network "unreachable")), ns)
  | Some n =>
      (match (m n).1 with
       | Done r => Done r
       | Panicked => Done (Err (Network "unreachable"))
       end, <[peer := (m n).2]> ns)
  end.

Definition ClusterTransport : NetworkTransport (gmap NodeId (RaftNodeInner St)) := {|
  send_append_entries := fun peer req => call peer (on_append_entries req);
  send_request_vote := fun peer req => call peer (on_request_vote req);
  send_install_snapshot := fun peer req => call peer (on_install_snapshot req);
|}.

(** What reaches a node from outside the cluster. *)
Definition own_input (i : Input) : Prop :=
  match i with
  | InElectionTimeout | InHeartbeat | InRestart => True
  | InMessage (Propose _ | ReadIndex _ | TransferLeader _ | GetLeader _ | GetTerm _
               | TriggerSnapshot _ | ShutdownMsg) => True
  | _ => False
  end.
End transport.

(** ** Executions *)

(** The nodes, and the answers posted to their queues. *)
Record World (St : Type) : Type := MkWorld {
  replicas : gmap NodeId (RaftNodeInner St);
  inbox : list (NodeId * RaftMessage);
}.
Arguments MkWorld {St}.
Arguments replicas {St} _.
Arguments inbox {St} _.

Section world.
Context {prof : BuildProfile} {St : Type}
  `{HS : Storage St, HL : !LogStorage St, HD : !DurableStorage St}.
Implicit Types (w : World St) (n : RaftNodeInner St).

(** The RPC a spawned task makes. *)
Definition request_of (e : Effect) : option (NodeId * Input) :=
  match e with
  | SpawnRequestVote peer req => Some (peer, InRequestVote req)
  | SpawnAppendEntries peer req _ => Some (peer, InAppendEntries req)
  | SpawnInstallSnapshot peer req _ => Some (peer, InInstallSnapshot req)
  | _ => None
  end.

(** [fresh n i]: a condition on the messages of the cluster, the requests and
    the answers [i] that may reach the node [n]. *)
Inductive world_step (fresh : RaftNodeInner St -> Input -> Prop) :
    World St -> World St -> Prop :=
| ws_own w id n i :
    replicas w !! id = Some n -> own_input i -> takes n i ->
    world_step fresh w (MkWorld (<[id := (handle i n).2]> (replicas w)) (inbox w))
| ws_task w src m e o ns :
    replicas w !! src = Some m -> e ∈ effects m ->
    (forall peer i n, request_of e = Some (peer, i) -> replicas w !! peer = Some n -> fresh n i) ->
    run_task (H := ClusterTransport) e (replicas w) = (Done o, ns) ->
    world_step fresh w (MkWorld ns (inbox w ++ option_list (pair src <$> o)))
| ws_answer w id msg n :
    (id, msg) ∈ inbox w -> replicas w !! id = Some n -> fresh n (InMessage msg) ->
    world_step fresh w
      (MkWorld (<[id := (handle (InMessage msg) n).2]> (replicas w)) (inbox w)).

Inductive world_steps fresh : World St -> World St -> Prop :=
| wss_refl w : world_steps fresh w w
| wss_step w1 w2 w3 :
    world_steps fresh w1 w2 -> world_step fresh w2 w3 -> world_steps fresh w1 w3.

Lemma world_steps_trans fresh w1 w2 w3 :
  world_steps fresh w1 w2 -> world_steps fresh w2 w3 -> world_steps fresh w1 w3.
Proof. intros Hs Hs'. induction Hs' as [|w2 w w3 _ IH Hst]; [done|]. eapply wss_step; [by apply IH|done]. Qed.

(** No candidate counts a vote granted in an earlier term. *)
Definition fresh_votes n (i : Input) : Prop :=
  match i with InMessage (VoteResponse _ r) => not_stale n r | _ => True end.

Lemma world_step_weaken (fresh fresh' : RaftNodeInner St -> Input -> Prop) w w' :
  (forall n i, fresh n i -> fresh' n i) -> world_step fresh w w' -> world_step fresh' w w'.
Proof.
  intros Hw [w1 id n i Hn Hi Ht|w1 src m e o ns Hm He Hf Hrun|w1 id msg n Hin Hn Hf].
  - by apply ws_own.
  - eapply ws_task; [done|done| |done]. intros peer i n Hr Hn. by eapply Hw, Hf.
  - apply ws_answer; auto.
Qed.

(** *** As an execution of [Cluster] *)

Definition vote_message (x : NodeId * RaftMessage) : option VoteMessage :=
  match x with (id, VoteResponse peer r) => Some (MkVoteMessage id peer r) | _ => None end.

Definition cluster_of w : Cluster St := MkCluster (replicas w) (omap vote_message (inbox w)).

(** The input a spawned task makes of its request at [peer], the node [n], and
    the answer it posts. *)
Definition task_input (e : Effect) (peer : NodeId) (i : Input) n (o : option RaftMessage) : Prop :=
  request_of e = Some (peer, i) /\
  o = match e, (handle i n).1 with
      | SpawnRequestVote p _, Done (ReplyVote (Ok r)) => Some (VoteResponse p r)
      | SpawnAppendEntries p _ li, Done (ReplyAppend (Ok r)) => Some (AppendResponse p li r)
      | SpawnInstallSnapshot p _ li, Done (ReplySnapshot (Ok r)) => Some (SnapshotResponse p li r)
      | _, _ => None
      end.

Lemma task_cases e ns o ns' :
  run_task (H := ClusterTransport) e ns = (Done o, ns') ->
  (o = None /\ ns' = ns) \/
  exists peer i n, ns !! peer = Some n /\ ns' = <[peer := (handle i n).2]> ns /\
    task_input e peer i n o.
Proof.
  unfold task_input.
  destruct e as [peer req|peer req li|peer req li| | | | | | |]; cbn [run_task];
    try (intros [= <- <-]; by left);
    cbn [send_append_entries send_request_vote send_install_snapshot ClusterTransport];
    unfold call, bind at 1; destruct (ns !! peer) as [n|] eqn:Hn;
    try (intros [= <- <-]; by left).
  - destruct (on_request_vote req n) as [[[r|]|] n'] eqn:E; cbn [fst snd];
      intros [= <- <-]; right; exists peer, (InRequestVote req), n;
      cbn [handle]; rewrite after_reply; unfold bind; by rewrite E.
  - destruct (on_append_entries req n) as [[[r|]|] n'] eqn:E; cbn [fst snd];
      intros [= <- <-]; right; exists peer, (InAppendEntries req), n;
      cbn [handle]; rewrite after_reply; unfold bind; by rewrite E.
  - destruct (on_install_snapshot req n) as [[[r|]|] n'] eqn:E; cbn [fst snd];
      intros [= <- <-]; right; exists peer, (InInstallSnapshot req), n;
      cbn [handle]; rewrite after_reply; unfold bind; by rewrite E.
Qed.

Lemma world_step_refines w w' :
  world_step fresh_votes w w' ->
  step not_stale (cluster_of w) (cluster_of w') \/ cluster_of w' = cluster_of w.
Proof.
  intros [w1 id n i Hn Hi Ht|w1 src m e o ns Hm He _ Hrun|w1 id msg n Hin Hn Hf].
  - left. apply (step_local _ (cluster_of w1) id n i Hn); [by destruct i as [| | |[]| | |]|].
    by apply takes_admissible.
  - apply task_cases in Hrun as [[-> ->]|(peer & i & n & Hn & -> & Hcase)].
    { right. unfold cluster_of. cbn. by rewrite app_nil_r. }
    left. destruct Hcase as [Hreq Ho].
    destruct e as [p req|p req li|p req li| | | | | | |]; try done; injection Hreq as -> <-.
    + destruct (handle (InRequestVote req) n) as [o' n'] eqn:Hh. cbn [fst snd] in *.
      pose proof (step_request not_stale (cluster_of w1) src m peer req n o' n' Hm He Hn Hh) as Hs.
      unfold cluster_of in *. cbn [replicas inbox votes_sent nodes] in *. rewrite omap_app.
      destruct o' as [[|[r|]| |]|]; subst o; cbn; rewrite ?app_nil_r; exact Hs.
    + pose proof (step_local not_stale (cluster_of w1) peer n (InAppendEntries req) Hn I I) as Hs.
      unfold cluster_of in *. cbn [replicas inbox votes_sent nodes] in *. rewrite omap_app.
      assert (omap vote_message (option_list (pair src <$> o)) = []) as ->
        by (subst o; by repeat case_match).
      by rewrite app_nil_r.
    + pose proof (step_local not_stale (cluster_of w1) peer n (InInstallSnapshot req) Hn I I) as Hs.
      unfold cluster_of in *. cbn [replicas inbox votes_sent nodes] in *. rewrite omap_app.
      assert (omap vote_message (option_list (pair src <$> o)) = []) as ->
        by (subst o; by repeat case_match).
      by rewrite app_nil_r.
  - left. assert ((exists peer r, msg = VoteResponse peer r) \/ is_local (InMessage msg))
      as [(peer & r & ->)|Hl] by (destruct msg; eauto).
    2:{ by apply (step_local not_stale (cluster_of w1) id n (InMessage msg)). }
    apply (step_response not_stale (cluster_of w1) (MkVoteMessage id peer r) n); [|done..].
    apply list_elem_of_omap. by exists (id, VoteResponse peer r).
Qed.

(** The whole cluster refines [Cluster]: every step of the nodes, their
    tasks and their queues, seen through the votes on their way, is a step of
    the cluster whose nodes take any other message, or leaves it as it is. So
    what is proved of all executions there, election safety first, holds
    here. *)
Theorem world_refines_cluster w w' (Hs : world_step fresh_votes w w') :
  step not_stale (cluster_of w) (cluster_of w') \/ cluster_of w' = cluster_of w.
Proof. by apply world_step_refines. Qed.
End world.

(** ** Executing a schedule *)

(** A task is named by its place in the history of its node, an answer by its
    place among those posted. *)
Inductive WorldEvent : Type :=
| WOwn (id : NodeId) (i : Input)
| WTask (src : NodeId) (k : nat)
| WAnswer (k : nat).

Section exec.
Context {prof : BuildProfile} {St : Type}
  `{HS : Storage St, HL : !LogStorage St}.
Context (fresh : RaftNodeInner St -> Input -> Prop) `{forall n i, Decision (fresh n i)}.
Implicit Types (w : World St) (n : RaftNodeInner St).

(** [own_input] and [takes] for such inputs. *)
Definition may_own n (i : Input) : bool :=
  match i with
  | InElectionTimeout => current_term (sm n) + 1 <? u64_modulus
  | InHeartbeat | InRestart => true
  | InMessage (Propose _) => lv_last (log n) + 3 <? u64_modulus
  | InMessage (ReadIndex _ | TransferLeader _ | GetLeader _ | GetTerm _
               | TriggerSnapshot _ | ShutdownMsg) => true
  | _ => false
  end.

Definition request_ok (e : Effect) w : bool :=
  match request_of e with
  | Some (peer, i) =>
      match replicas w !! peer with Some n => bool_decide (fresh n i) | None => true end
  | None => true
  end.

Definition world_exec1 (e : WorldEvent) w : option (World St) :=
  match e with
  | WOwn id i =>
      n ← replicas w !! id;
      if may_own n i
      then Some (MkWorld (<[id := (handle i n).2]> (replicas w)) (inbox w)) else None
  | WTask src k =>
      m ← replicas w !! src;
      e ← effects m !! k;
      if request_ok e w then
      match run_task (H := ClusterTransport) e (replicas w) with
      | (Done o, ns) => Some (MkWorld ns (inbox w ++ option_list (pair src <$> o)))
      | _ => None
      end
      else None
  | WAnswer k =>
      x ← inbox w !! k;
      n ← replicas w !! x.1;
      if decide (fresh n (InMessage x.2))
      then Some (MkWorld (<[x.1 := (handle (InMessage x.2) n).2]> (replicas w)) (inbox w))
      else None
  end.

Fixpoint world_exec (es : list WorldEvent) w : option (World St) :=
  match es with
  | [] => Some w
  | e :: es' => w' ← world_exec1 e w; world_exec es' w'
  end.

Lemma may_own_ok n i : may_own n i = true -> own_input i /\ takes n i.
Proof.
  destruct i as [| | |[]| | |]; cbn; try done; intros Hm; (split; [done|]); by apply N.ltb_lt.
Qed.

Lemma world_exec1_step e w w' : world_exec1 e w = Some w' -> world_step fresh w w'.
Proof.
  destruct e as [id i|src k|k]; cbn -[handle run_task].
  - intros (n & Hn & He)%bind_Some. case_match eqn:Hb; [|done].
    apply may_own_ok in Hb as [Ho Ht]. injection He as <-. by eapply ws_own.
  - intros (m & Hm & He)%bind_Some. apply bind_Some in He as (e & Hk & He).
    case_match eqn:Hok; [|done].
    destruct (run_task e (replicas w)) as [[o|] ns] eqn:Hr; [|done]. injection He as <-.
    apply (ws_task _ w src m e o ns); [done|by eapply list_elem_of_lookup_2| |done].
    intros peer i n Hreq Hn. unfold request_ok in Hok. rewrite Hreq, Hn in Hok.
    by apply bool_decide_eq_true in Hok.
  - intros ([id msg] & Hx & He)%bind_Some. apply bind_Some in He as (n & Hn & He).
    case_decide; [|done]. injection He as <-. apply ws_answer; try done.
    by eapply list_elem_of_lookup_2.
Qed.

Lemma world_exec_steps es w w0 w' :
  world_steps fresh w0 w -> world_exec es w = Some w' -> world_steps fresh w0 w'.
Proof.
  revert w. induction es as [|e es IH]; intros w Hs; cbn; [by intros [= <-]|].
  intros (w1 & Hw1 & He)%bind_Some. eapply IH; [|done].
  eapply wss_step; [done|]. by eapply world_exec1_step.
Qed.
End exec.

#[export] Instance fresh_votes_dec {St} (n : RaftNodeInner St) i : Decision (fresh_votes n i).
Proof. destruct i as [| | |[]| | |]; cbn; apply _. Defined.

(** ** Concrete executions *)

Definition ex_world : World MemStorageInner := MkWorld (nodes ex_cluster) [].

Definition ex_propose (id : NodeId) (d : Byte.byte) : WorldEvent :=
  WOwn id (InMessage (Propose (MkProposal [d] None))).

(** Node 1 wins term 1 with the vote of node 2, and takes two proposals. *)
Definition ex_leading : list WorldEvent :=
  [WOwn 1 InElectionTimeout; WTask 1 2; WAnswer 0; ex_propose 1 x61; ex_propose 1 x62].

Section examples.
Local Existing Instance dev_profile.

Lemma world_refines_cluster_witness :
  exists w, step not_stale (cluster_of ex_world) (cluster_of w) \/ cluster_of w = cluster_of ex_world.
Proof.
  eexists. apply (world_refines_cluster (HL := MemStorage_log)).
  eapply (ws_own _ _ 1 _ InElectionTimeout); [reflexivity|exact I|vm_compute; reflexivity].
Defined.
End examples.
