(* ===== verification/Matching.v ===== *)
(** * Log Matching in the whole cluster

    The invariant of [Ensemble]'s executions behind Raft's Log Matching and
    Leader Append-Only. It names the origin of every entry: an index and a term
    determine the entry and the term of the entry before, because one node only
    ever leads a term and a leader only appends; and every AppendEntries a node
    ever sent was made from a log of such entries. *)

From Stdlib Require Import Lia Init.Byte.
From stdpp Require Import base numbers list option gmap sets fin_maps strings.
From S2P Require Import Prelude.
From S2P Require Import Core.
From S2P Require Import Proto.
From S2P Require Import Storage.
From S2P Require Import MemStorage.
From S2P Require Import StateMachine.
From S2P Require Import Node.
From S2P Require Import Handlers.
From S2P Require Import Votes.
From S2P Require Import NodeLog.
From S2P Require Import Election.
From S2P Require Import Cluster.
From S2P Require Import RequestVote.
From S2P Require Import AppendEntries.
From S2P Require Import Replication.
From S2P Require Import Commit.
From S2P Require Import Progress.
From S2P Require Import Proposals.
From S2P Require Import Total.
From S2P Require Import Network.
From S2P Require Import LogSteps.
From S2P Require Import Ensemble.

(** ** Logs without a snapshot *)

(** A well-formed log that starts at index 1. *)
Definition whole (v : LogView) : Prop := wf_view v /\ lv_base v = 0.

Lemma term_at_whole v i :
  whole v -> term_at v i = match lv_log v !! i with Some e => le_term e | None => 0 end.
Proof.
  intros [Hv Hb]. destruct (lv_log v !! i) as [e|] eqn:He; [by apply term_at_lookup|].
  unfold term_at, spec_term. rewrite Hb, He. destruct (N.eqb_spec i 0); [done|].
  rewrite (proj2 (N.ltb_ge _ _)) by lia. done.
Qed.

Lemma whole_dom v i : whole v -> is_Some (lv_log v !! i) <-> 0 < i <= lv_last v.
Proof. intros [Hv Hb]. rewrite (wf_dom _ Hv), Hb. done. Qed.

(** ** Where entries come from *)

(** [E i t e pt]: the entry created at index [i] in term [t] is [e], and the
    entry before it had term [pt]. *)
Abbreviation origins := (LogIndex -> Term -> LogEntry -> Term -> Prop).

Definition one_origin (E : origins) : Prop :=
  forall i t e e' pt pt', E i t e pt -> E i t e' pt' -> e = e' /\ pt = pt'.

Definition chain (E : origins) (v : LogView) : Prop :=
  forall i e, lv_log v !! i = Some e -> E i (le_term e) e (term_at v (i - 1)).

Definition more (E E' : origins) : Prop := forall i t e pt, E i t e pt -> E' i t e pt.

Lemma more_refl E : more E E.
Proof. by intros i t e pt. Qed.

Lemma chain_more E E' v : more E E' -> chain E v -> chain E' v.
Proof. intros HE Hc i e He. by apply HE, Hc. Qed.

(** Two logs of such entries match. *)
Lemma chain_match E v w :
  whole v -> whole w -> one_origin E -> chain E v -> chain E w -> logs_match 0 v w.
Proof.
  intros Hv Hw HE Hcv Hcw i. induction i as [|i IH] using N.peano_ind; intros e e' Hi He He' Ht; [lia|].
  pose proof (Hcv _ _ He) as Ho. pose proof (Hcw _ _ He') as Ho'. rewrite <- Ht in Ho'.
  destruct (HE _ _ _ _ _ _ Ho Ho') as [<- Hpt].
  replace (N.succ i - 1) with i in Hpt by lia. rewrite !term_at_whole in Hpt by done.
  intros j Hj. destruct (decide (j = N.succ i)) as [->|Hne]; [congruence|].
  assert (0 < i) as Hi0 by lia.
  assert (is_Some (lv_log v !! i)) as [x Hx].
  { apply (whole_dom v i Hv). assert (is_Some (lv_log v !! N.succ i)) as Hd by eauto.
    apply (whole_dom _ _ Hv) in Hd. lia. }
  assert (is_Some (lv_log w !! i)) as [y Hy].
  { apply (whole_dom w i Hw). assert (is_Some (lv_log w !! N.succ i)) as Hd by eauto.
    apply (whole_dom _ _ Hw) in Hd. lia. }
  rewrite Hx, Hy in Hpt. apply (IH x y Hi0 Hx Hy Hpt). lia.
Qed.

Lemma whole_0 v : whole v -> lv_log v !! 0 = None.
Proof. intros Hv. apply eq_None_not_Some. intros Hd. apply (whole_dom v 0 Hv) in Hd. lia. Qed.

Lemma chain_agree E v w i x :
  whole v -> whole w -> one_origin E -> chain E v -> chain E w ->
  lv_log v !! i = Some x -> lv_log w !! i = Some x ->
  forall j, j <= i -> lv_log v !! j = lv_log w !! j.
Proof.
  intros Hv Hw HE Hcv Hcw Hx Hy j Hj.
  assert (0 < i <= lv_last v) as Hi by (apply (whole_dom _ _ Hv); eauto).
  destruct (decide (j = 0)) as [->|]; [by rewrite !whole_0|].
  apply (chain_match E v w Hv Hw HE Hcv Hcw i x x); (done || lia).
Qed.

(** An accepted request made from such a log. *)
Lemma sent_append_whole v L next req :
  whole v -> whole L -> 1 <= next -> sent_from L next req -> prev_matches v req = true ->
  whole (spec_append v (new_entries req)).
Proof.
  intros [Hv Hb] [HL HbL] H1 Hs Hok.
  assert (follows v req) as Hf by (eapply sent_follows_any; (done || lia)).
  split; [|by rewrite spec_append_base]. apply spec_append_wf; [done|].
  apply follows_appendable; [done..|]. by apply (matches_range v req Hv (fo_base _ _ Hf)).
Qed.

Lemma chain_append E v L next req :
  whole v -> whole L -> chain E v -> chain E L -> 1 <= next -> sent_from L next req ->
  prev_matches v req = true -> chain E (spec_append v (new_entries req)).
Proof.
  intros Hv HL Hcv HcL H1 Hs Hok.
  destruct (N.le_gt_cases next (lv_last L)) as [Hn|Hn];
    [|by rewrite (sent_beyond L next req Hs Hn)].
  pose proof (sent_follows_any v L next req (proj1 HL) Hs H1 ltac:(destruct HL; lia)
                ltac:(destruct Hv; lia)) as Hf.
  pose proof (sent_append_whole v L next req Hv HL H1 Hs Hok) as Hv'.
  pose proof (sf_some _ _ _ Hs Hn) as Hne.
  pose proof (fo_contiguous _ _ Hf) as Hc. rewrite (sf_prev _ _ _ Hs) in *.
  destruct (new_entries req) as [|e0 es] eqn:Hnew; [done|].
  pose proof (proj1 (contiguous_cons _ _ _) Hc) as [H0 _].
  replace (next - 1 + 1) with next in H0 by lia.
  assert (forall i, i < next -> lv_log (spec_append v (e0 :: es)) !! i = lv_log v !! i) as Hlow.
  { intros i Hi. by rewrite spec_append_lookup, H0, (proj2 (N.ltb_lt _ _)) by lia. }
  intros i e Hi. rewrite <- Hnew in Hi.
  destruct (sent_append_lookup v L next req i e (proj1 HL) Hs ltac:(destruct HL; lia) Hi)
    as [[[Hlt|?] Hvi]|[Hge HLi]]; [|congruence|].
  { replace (term_at _ (i - 1)) with (term_at v (i - 1)); [by apply Hcv|].
    rewrite !term_at_whole by done. by rewrite Hlow by lia. }
  replace (term_at _ (i - 1)) with (term_at L (i - 1)); [by apply HcL|].
  destruct (decide (i = next)) as [->|Hin].
  - rewrite <- (sf_prev_term _ _ _ Hs).
    rewrite (term_at_whole (spec_append _ _)), Hlow, <- term_at_whole by (done || lia).
    unfold prev_matches in Hok. rewrite (sf_prev _ _ _ Hs) in Hok. unfold term_at.
    destruct (N.eqb_spec (next - 1) 0) as [Hz|Hz].
    + rewrite (sf_prev_term _ _ _ Hs), Hz. done.
    + cbn [orb] in Hok. destruct (spec_term v (next - 1)); [|done]. cbn.
      symmetry. by apply N.eqb_eq.
  - rewrite !term_at_whole by done.
    assert (is_Some (lv_log (spec_append v (e0 :: es)) !! (i - 1))) as [x Hx].
    { apply (whole_dom _ _ Hv'). rewrite Hnew in Hi.
      assert (is_Some (lv_log (spec_append v (e0 :: es)) !! i)) as Hd by eauto.
      apply (whole_dom _ _ Hv') in Hd. lia. }
    rewrite Hx. rewrite <- Hnew in Hx.
    destruct (sent_append_lookup v L next req (i - 1) x (proj1 HL) Hs ltac:(destruct HL; lia) Hx)
      as [[[?|?] _]|[_ ->]]; [lia|congruence|done].
Qed.

(** A leader's own entry. *)
Definition with_entry (E : origins) (i : LogIndex) (x : LogEntry) (pt : Term) : origins :=
  fun j t e p => E j t e p \/ (j = i /\ t = le_term x /\ e = x /\ p = pt).

Lemma with_entry_more E i x pt : more E (with_entry E i x pt).
Proof. intros j t e p He. by left. Qed.

Lemma chain_propose E v x :
  whole v -> chain E v -> le_index x = lv_last v + 1 -> u64 (lv_last v + 3) ->
  chain (with_entry E (lv_last v + 1) x (term_at v (lv_last v))) (spec_append v [x]).
Proof.
  intros Hv Hc Hx Hu.
  assert (whole (spec_append v [x])) as Hv'.
  { split; [|by rewrite spec_append_base; apply Hv]. apply spec_append_wf; [apply Hv|].
    split; [|split].
    - intros [|j] e; [|done]. intros [= <-]. lia.
    - destruct Hv as [_ ->]. lia.
    - unfold u64 in *. rewrite nlen_cons, nlen_nil. lia. }
  intros i e. rewrite spec_append_lookup, Hx. destruct (N.ltb_spec i (lv_last v + 1)) as [Hlt|Hge].
  - intros Hi. left. replace (term_at _ (i - 1)) with (term_at v (i - 1)); [by apply Hc|].
    rewrite !term_at_whole by done.
    by rewrite spec_append_lookup, Hx, (proj2 (N.ltb_lt _ _)) by lia.
  - destruct (N.to_nat (i - (lv_last v + 1))) as [|k] eqn:Hk; [|done]. intros [= <-].
    assert (i = lv_last v + 1) as -> by lia. right. repeat (split; [done|]).
    rewrite N.add_sub, !term_at_whole by done.
    by rewrite spec_append_lookup, Hx, (proj2 (N.ltb_lt _ _)) by lia.
Qed.

(** ** Roles and terms over a step *)

Section roles.
Context {prof : BuildProfile} {St : Type} `{HS : Storage St, HD : !DurableStorage St}.
Implicit Types n : RaftNodeInner St.

(** A node becomes the leader: as a candidate that counts a vote, or by its own
    vote alone. *)
Definition wins n (i : Input) (n' : RaftNodeInner St) : Prop :=
  (exists peer r, i = InMessage (VoteResponse peer r)) /\ role (sm n) = Candidate /\
    current_term (sm n') = current_term (sm n) \/
  i = InElectionTimeout /\ current_term (sm n') = current_term (sm n) + 1.

Record role_step n (i : Input) (n' : RaftNodeInner St) : Prop := {
  rs_term : current_term (sm n) <= current_term (sm n');
  rs_candidate : current_term (sm n') = current_term (sm n) ->
    role (sm n) <> Candidate -> role (sm n') <> Candidate;
  rs_leader : role (sm n') = Leader ->
    role (sm n) = Leader /\ current_term (sm n') = current_term (sm n) \/ wins n i n';
  rs_active : role (sm n') <> Follower ->
    role (sm n) <> Follower /\ current_term (sm n') = current_term (sm n) \/
    current_term (sm n) < current_term (sm n');
}.

Lemma handle_role_step i n :
  admissible n i -> persisted n -> voted_for (sm n) <> Some 0 ->
  role_step n i (handle i n).2.
Proof.
  intros Ha Hp Hv. pose proof (handle_ballot i n Ha Hp Hv) as Hb.
  pose proof (ballot_after_le n i _ Hb) as Hle.
  assert (current_term (sm n) <= current_term (sm (handle i n).2)) as Ht.
  { unfold ballot_le, ballot in Hle. cbn in Hle. lia. }
  assert (i = InRestart \/ i <> InRestart) as [->|Hi] by (destruct i; auto).
  { destruct (restart_elect n) as [Hr _].
    split; rewrite ?Hr; [done|by intros|by intros|by intros]. }
  destruct (handle_elect i n Ha Hi) as [Hf _|Hs|Hto (Ht' & _) _|peer r Hr Hcnt].
  - split; rewrite ?Hf; [done|by intros|by intros|by intros].
  - unfold standing in Hs. injection Hs as Ht' Hr _ _.
    split; rewrite ?Hr; [done|by intros|auto|auto].
  - split; [done|intros; lia|intros _; right; by right|intros _; right; lia].
  - destruct Hcnt as (_ & _ & Hcand & Hbal & _ & _ & _).
    unfold ballot in Hbal. injection Hbal as Ht' _. split; [done|by intros| |].
    + intros _. right. left. split; [by exists peer, r|done].
    + intros _. left. by rewrite Hcand.
Qed.
End roles.

(** ** The invariant *)

Section invariant.
Context {prof : BuildProfile} {St : Type}
  `{HS : Storage St, HL : !LogStorage St, HD : !DurableStorage St}.
Context (V : gset NodeId) (T0 : Term).
Implicit Types (w : World St) (n : RaftNodeInner St) (E : origins).

Local Abbreviation ballots := (gmap (NodeId * Term) NodeId).
Implicit Types B : ballots.

(** A request [src] made as the leader of a term, from a log of entries of [E]. *)
Definition from_leader B E (src : NodeId) (req : AppendEntriesRequest) : Prop :=
  won V B (ae_term req) src /\ T0 < ae_term req /\
  exists L next, whole L /\ chain E L /\ 1 <= next /\ u64 next /\ sent_from L next req.

Definition message_ok B E (src : NodeId) (e : Effect) : Prop :=
  match e with
  | SpawnAppendEntries peer req li =>
      from_leader B E src req /\ peer <> src /\
      li = ae_prev_log_index req + nlen (ae_entries req)
  | _ => False
  end.

(** Answers, as opposed to client messages. *)
Definition answer_ok (msg : RaftMessage) : Prop :=
  match msg with
  | AppendResponse _ _ _ => bounded (InMessage msg)
  | VoteResponse _ _ => True
  | _ => False
  end.

Record replica_inv B E (id : NodeId) n : Prop := {
  ri_ready : ready n;
  ri_chain : chain E (log n);
  ri_past : T0 <= current_term (sm n);
  ri_active : role (sm n) <> Follower -> T0 < current_term (sm n);
  ri_leader : role (sm n) = Leader ->
    forall i e pt, E i (current_term (sm n)) e pt -> i <= lv_last (log n);
  ri_sent e : e ∈ sent n -> message_ok B E id e;
}.

(** The node that created the entries of term [t], if that was after the
    start: it led the term and has not gone back to ask for votes in it. *)
Definition creator B (ns : gmap NodeId (RaftNodeInner St)) (t : Term) : Prop :=
  t <= T0 \/ exists id n, ns !! id = Some n /\ won V B t id /\ t <= current_term (sm n) /\
    (current_term (sm n) = t -> role (sm n) <> Candidate).

Record world_inv w B E : Prop := {
  wi_cluster : cluster_inv V (cluster_of w) B;
  wi_node id n : replicas w !! id = Some n -> replica_inv B E id n;
  wi_origin : one_origin E;
  wi_creator i t e pt : E i t e pt -> creator B (replicas w) t;
  wi_inbox x : x ∈ inbox w -> answer_ok x.2;
}.

Lemma ready_whole n : ready n -> whole (log n).
Proof. intros Hn. split; [apply log_wf_view, Hn|by apply ready_base]. Qed.

Lemma from_leader_more B B' E E' src req :
  B ⊆ B' -> more E E' -> from_leader B E src req -> from_leader B' E' src req.
Proof.
  intros HB HE (Hw & Ht & L & next & HLw & Hc & H). split; [by eapply won_grows|].
  split; [done|]. exists L, next. split; [done|]. split; [by eapply chain_more|done].
Qed.

Lemma message_ok_more B B' E E' src e :
  B ⊆ B' -> more E E' -> message_ok B E src e -> message_ok B' E' src e.
Proof.
  intros HB HE. destruct e; try done. intros [Hf Hrest].
  split; [by eapply from_leader_more|done].
Qed.

Lemma creator_grows B B' ns t : B ⊆ B' -> creator B ns t -> creator B' ns t.
Proof.
  intros HB [?|(a & m & Hm & Hw & Hrest)]; [by left|right].
  exists a, m. split; [done|]. split; [by eapply won_grows|done].
Qed.

Lemma creator_step B B' ns id n n' i t :
  B ⊆ B' -> ns !! id = Some n -> role_step n i n' -> creator B ns t ->
  creator B' (<[id := n']> ns) t.
Proof.
  intros HB Hn Hrs [?|(a & m & Hm & Hw & Hle & Hc)]; [by left|right].
  destruct (decide (a = id)) as [->|Hne].
  - exists id, n'. rewrite lookup_insert_eq. split; [done|].
    assert (m = n) as -> by congruence. pose proof (rs_term _ _ _ Hrs).
    split; [by eapply won_grows|]. split; [lia|]. intros Ht.
    apply (rs_candidate _ _ _ Hrs); [lia|]. apply Hc. lia.
  - exists a, m. rewrite lookup_insert_ne by done. by split; [|split; [eapply won_grows|]].
Qed.

(** Messages of a step. *)
Lemma sends_message_ok B E id n e :
  whole (log n) -> chain E (log n) -> won V B (current_term (sm n)) id ->
  T0 < current_term (sm n) -> id ∉ cfg_peers (config n) ->
  sends_from n e -> message_ok B E id e.
Proof.
  intros Hl Hc Hw Ht Hid. destruct e as [|peer req li| | | | | | | |]; try done.
  intros (_ & Hreq & Hin & _ & next & H1 & Hu & Hs & ->). split; [|split].
  - split; [by rewrite Hreq|]. split; [by rewrite Hreq|]. by exists (log n), next.
  - intros ->. done.
  - by rewrite (sf_prev _ _ _ Hs).
Qed.

(** An AppendEntries that reaches a node is from another node that led its
    term. *)
Definition carried B E (id : NodeId) (i : Input) : Prop :=
  forall req, i = InAppendEntries req -> exists src, src <> id /\ from_leader B E src req.

(** A leader that stays one keeps its log or adds to it. *)
Lemma leader_change B E id n i n' :
  carried B E id i -> won V B (current_term (sm n)) id ->
  ballot_after n i (ballot n') -> current_term (sm n') = current_term (sm n) ->
  log_change n i n' ->
  log n' = log n \/
  role (sm n) = Leader /\ sm n' = sm n /\
    exists p, i = InMessage (Propose p) /\
      log n' = spec_append (log n) [proposed n (prop_data p)].
Proof.
  intros Hcar Hw Hb Ht Hch.
  inversion Hch as [j m Hl|req m Hle Hok Hl|p m Hr Hs Hl]; subst; [by left| |right; eauto].
  destruct (Hcar req eq_refl) as (src & Hsrc & Hw' & _). exfalso. apply Hsrc.
  cbn in Hb. unfold observed, ballot in Hb.
  destruct (N.ltb_spec (current_term (sm n)) (ae_term req)); injection Hb as Ht' _; [lia|].
  apply (won_unique V B (current_term (sm n))); [|done].
  by replace (current_term (sm n)) with (ae_term req) by lia.
Qed.

(** The origins after a step: the entry a leader created, if it did. *)
Definition new_origins E E' n (n' : RaftNodeInner St) : Prop :=
  forall j t e pt, E' j t e pt -> E j t e pt \/
    (t = current_term (sm n') /\ role (sm n) = Leader /\ sm n' = sm n /\
     lv_log (log n') !! j = Some e /\ j <= lv_last (log n') /\
     pt = term_at (log n) (lv_last (log n))).

Lemma origins_step B E id n i :
  replica_inv B E id n -> one_origin E -> takes n i -> carried B E id i ->
  let n' := (handle i n).2 in
  exists E', more E E' /\ one_origin E' /\ chain E' (log n') /\ new_origins E E' n n'.
Proof.
  intros Hn HE Ht Hcar n'. pose proof (ri_ready _ _ _ _ Hn) as Hrd.
  pose proof (ready_whole _ Hrd) as Hwh.
  destruct (handle_log_step i n Hrd Ht) as [_ Hch _]. fold n' in Hch.
  clearbody n'. inversion Hch as [j m Hl|req m Hle Hok Hl|p m Hr Hs Hl]; subst.
  - exists E. split; [apply more_refl|]. split; [done|]. rewrite Hl.
    split; [apply Hn|intros ?; by left].
  - exists E. split; [apply more_refl|]. split; [done|]. split; [|intros ?; by left]. rewrite Hl.
    destruct (Hcar req eq_refl) as (src & _ & _ & _ & L & next & HwL & HcL & H1 & _ & Hsf).
    eapply chain_append; try done. apply Hn.
  - set (x := proposed n (prop_data p)) in *.
    exists (with_entry E (lv_last (log n) + 1) x (term_at (log n) (lv_last (log n)))).
    split; [apply with_entry_more|]. split; [|split].
    + intros j t e e' pt pt' [Ho|(-> & -> & -> & ->)] [Ho'|(Hj & Ht' & -> & ->)].
      * by eapply HE.
      * subst. pose proof (ri_leader _ _ _ _ Hn Hr _ _ _ Ho). lia.
      * pose proof (ri_leader _ _ _ _ Hn Hr _ _ _ Ho'). lia.
      * done.
    + rewrite Hl. apply chain_propose; [done|apply Hn|done|exact Ht].
    + intros j t e pt [Ho|(-> & -> & -> & ->)]; [by left|right].
      rewrite Hl, Hs. do 3 (split; [done|]). split; [|split; [|done]].
      * rewrite spec_append_lookup. cbn [le_index x proposed]. by rewrite N.ltb_irrefl, N.sub_diag.
      * rewrite spec_append_last. cbn [le_index x proposed]. rewrite nlen_cons, nlen_nil. lia.
Qed.

(** A node that has just won is the first leader of its term. *)
Lemma win_no_creator B ns id n i n' :
  ns !! id = Some n -> won V B (current_term (sm n')) id -> T0 < current_term (sm n') ->
  wins n i n' -> ~ creator B ns (current_term (sm n')).
Proof.
  intros Hn Hw Ht0 Hwin [?|(a & m & Hm & Hwa & Hle & Hc)]; [lia|].
  rewrite (won_unique V B _ _ _ Hwa Hw) in Hm. assert (m = n) as -> by congruence.
  destruct Hwin as [(_ & Hcand & Ht)|[_ Ht]]; [|lia]. by apply Hc.
Qed.

(** A leader's log ends with the last entry of its term. *)
Lemma leader_latest w B B' E E' id n i :
  let n' := (handle i n).2 in
  world_inv w B E -> replicas w !! id = Some n -> takes n i -> carried B E id i -> B ⊆ B' ->
  new_origins E E' n n' -> role (sm n') = Leader ->
  won V B' (current_term (sm n')) id -> T0 < current_term (sm n') ->
  forall j e pt, E' j (current_term (sm n')) e pt -> j <= lv_last (log n').
Proof.
  intros n' Hw Hid Htk Hcar HB Hnew Hr Hwon Ht0 j e pt Ho.
  pose proof (wi_node _ _ _ Hw id n Hid) as Hn.
  pose proof (ci_node _ _ _ (wi_cluster _ _ _ Hw) id n Hid) as Hni.
  destruct (takes_admissible n i Htk) as [Ha _].
  pose proof (handle_role_step i n Ha (ni_persisted _ _ _ Hni) (ni_vote0 _ _ _ Hni)) as Hrs.
  pose proof (handle_ballot i n Ha (ni_persisted _ _ _ Hni) (ni_vote0 _ _ _ Hni)) as Hbal.
  destruct (handle_log_step i n (ri_ready _ _ _ _ Hn) Htk) as [_ Hch _].
  fold n' in Hrs, Hbal, Hch. destruct (Hnew _ _ _ _ Ho) as [Ho'|(_ & _ & _ & _ & ? & _)]; [|done].
  destruct (rs_leader _ _ _ Hrs Hr) as [[Hr' Ht]|Hwin].
  - rewrite Ht in Ho'. pose proof (ri_leader _ _ _ _ Hn Hr' _ _ _ Ho') as Hj.
    assert (won V B (current_term (sm n)) id) as Hwn by (eapply leader_won; [apply Hw|done..]).
    destruct (leader_change B E id n i n' Hcar Hwn Hbal Ht Hch)
      as [->|(_ & _ & p & _ & ->)]; [done|].
    rewrite spec_append_last. cbn [le_index proposed]. rewrite nlen_cons, nlen_nil. lia.
  - exfalso. apply (win_no_creator B' (replicas w) id n i n'); try done.
    eapply creator_grows, (wi_creator _ _ _ Hw), Ho'. done.
Qed.

Lemma world_node_step w box B B' E id n i :
  let n' := (handle i n).2 in
  let w' := MkWorld (<[id := n']> (replicas w)) box in
  world_inv w B E -> replicas w !! id = Some n -> takes n i -> carried B E id i ->
  B ⊆ B' -> cluster_inv V (cluster_of w') B' -> (forall x, x ∈ box -> answer_ok x.2) ->
  exists E', more E E' /\ new_origins E E' n n' /\ world_inv w' B' E'.
Proof.
  intros n' w' Hw Hid Htk Hcar HB Hc' Hbox.
  pose proof (wi_node _ _ _ Hw id n Hid) as Hn.
  pose proof (ci_node _ _ _ (wi_cluster _ _ _ Hw) id n Hid) as Hni.
  destruct (takes_admissible n i Htk) as [Ha _].
  pose proof (handle_role_step i n Ha (ni_persisted _ _ _ Hni) (ni_vote0 _ _ _ Hni)) as Hrs.
  pose proof (handle_ready i n (ri_ready _ _ _ _ Hn) Htk) as Hrd'.
  destruct (handle_log_step i n (ri_ready _ _ _ _ Hn) Htk) as [_ _ (es & Hsent & Hes)].
  fold n' in Hrs, Hrd', Hsent, Hes.
  destruct (origins_step B E id n i Hn (wi_origin _ _ _ Hw) Htk Hcar)
    as (E' & HE & HE1 & Hch' & Hnew). fold n' in Hch', Hnew.
  assert (nodes (cluster_of w') !! id = Some n') as Hid' by apply lookup_insert_eq.
  assert (role (sm n') = Leader -> won V B' (current_term (sm n')) id) as Hwon
    by (intros Hr; by eapply leader_won).
  pose proof (rs_term _ _ _ Hrs) as Hterm. pose proof (ri_past _ _ _ _ Hn) as Hpast.
  assert (role (sm n') <> Follower -> T0 < current_term (sm n')) as Hact.
  { intros Hr. destruct (rs_active _ _ _ Hrs Hr) as [[Hr' ->]|?]; [by apply Hn|lia]. }
  assert (forall t, creator B (replicas w) t -> creator B' (replicas w') t) as Hcr
    by (intros t; by eapply creator_step).
  exists E'. split; [done|]. split; [done|]. split; [done| |done| |done].
  - intros a m. cbn [replicas w']. intros [[<- <-]|[Hne Hm]]%lookup_insert_Some.
    + split; [done|done|lia|done| |].
      * intros Hr. apply (leader_latest w B B' E E' id n i); try done; [by apply Hwon|].
        by apply Hact; rewrite Hr.
      * intros e. rewrite Hsent, elem_of_app. intros [He|He].
        -- eapply message_ok_more; [done|done|]. by apply Hn.
        -- pose proof (proj1 (Forall_forall _ _) Hes e He) as Hse.
           assert (role (sm n') = Leader) as Hr by (destruct e; try done; apply Hse).
           eapply sends_message_ok; [by apply ready_whole|done|by apply Hwon|
             by apply Hact; rewrite Hr| |exact Hse].
           pose proof (ci_node _ _ _ Hc' id n' Hid') as Hni'.
           rewrite <- (ni_id _ _ _ Hni'). apply (ni_wf _ _ _ Hni').
    + destruct (wi_node _ _ _ Hw a m Hm) as [Hm1 Hm2 Hm3 Hm4 Hm5 Hm6].
      split; [done|by eapply chain_more|done|done| |].
      * intros Hr j e pt Ho. destruct (Hnew _ _ _ _ Ho) as [Ho'|(Ht & Hr' & Hs & _)];
          [by eapply Hm5|]. exfalso. apply Hne.
        apply (won_unique V B' (current_term (sm n'))).
        -- apply Hwon. by rewrite Hs.
        -- rewrite <- Ht. apply (leader_won V (cluster_of w')); [done| |done].
           cbn. by rewrite lookup_insert_ne.
      * intros e He. eapply message_ok_more; [done|done|]. by apply Hm6.
  - intros j t e pt Ho. destruct (Hnew _ _ _ _ Ho) as [Ho'|(-> & Hr & Hs & _)].
    + eapply Hcr, (wi_creator _ _ _ Hw), Ho'.
    + right. exists id, n'. split; [apply lookup_insert_eq|]. rewrite Hs, Hr.
      split; [|by split]. rewrite <- Hs. apply Hwon. by rewrite Hs.
Qed.

(** *** Messages on their way *)

Lemma from_leader_follows B E src req n :
  from_leader B E src req -> whole (log n) -> follows (log n) req.
Proof.
  intros (_ & _ & L & next & HwL & _ & H1 & _ & Hs) Hl.
  eapply sent_follows_any; [apply HwL|done|done|destruct HwL; lia|destruct Hl; lia].
Qed.

(** The numbers of an answer. *)
Lemma from_leader_bounds B E src req :
  from_leader B E src req ->
  u64 (ae_prev_log_index req + 1) /\
  u64 (ae_prev_log_index req + nlen (ae_entries req) + 1).
Proof.
  intros (_ & _ & L & next & HwL & _ & H1 & Hu & Hs).
  rewrite (sf_prev _ _ _ Hs). replace (next - 1 + 1) with next by lia. split; [done|].
  assert (nlen (ae_entries req) = nlen (new_entries req)) as ->
    by (unfold nlen, new_entries; by rewrite length_map).
  destruct (N.le_gt_cases next (lv_last L)) as [Hn|Hn].
  - destruct (sent_length L next req (proj1 HwL) ltac:(destruct HwL; lia) Hs) as [Hlen _].
    pose proof (wf_bound _ (proj1 HwL)). unfold u64 in *. lia.
  - rewrite (sent_beyond L next req Hs Hn), nlen_nil. unfold u64 in *. lia.
Qed.

Lemma append_answer_bounded B E src req n r :
  from_leader B E src req -> ready n ->
  (handle (InAppendEntries req) n).1 = Done (ReplyAppend (Ok r)) ->
  u64 (aer_conflict_index r).
Proof.
  intros Hf Hn. destruct (from_leader_bounds _ _ _ _ Hf) as [Hu _].
  pose proof (from_leader_follows B E src req n Hf (ready_whole n Hn)) as Hfo.
  destruct (on_append_entries_run n req (rd_log _ Hn) (rd_persisted _ Hn) Hfo)
    as (n' & r' & Hr & _ & _ & _ & _ & Hcase).
  cbn [handle]. unfold bind. rewrite Hr. cbn. intros [= <-].
  destruct (ae_term req <? current_term (sm n)); [by destruct Hcase as [_ ->]|].
  destruct (prev_matches (log n) req) eqn:Hok; destruct Hcase as (Hrej & _); [by subst r'|].
  destruct Hrej as (ci & ct & -> & Hrej). cbn. unfold u64 in *.
  pose proof (ready_base n Hn) as Hb.
  destruct (spec_term (log n) (ae_prev_log_index req)) as [pt|e]; [|destruct Hrej; lia].
  destruct Hrej as (_ & Hz & Hsr).
  destruct (decide (ae_prev_log_index req = 0)) as [H0|H0]; [rewrite Hz by lia; lia|].
  destruct (Hsr ltac:(lia)) as [? _]. lia.
Qed.

(** What a task delivers fits, and so does its answer. *)
Lemma task_fits w B E src m e peer i n o :
  world_inv w B E -> replicas w !! src = Some m -> e ∈ effects m ->
  replicas w !! peer = Some n -> task_input e peer i n o ->
  takes n i /\ carried B E peer i /\ (forall x, o = Some x -> answer_ok x).
Proof.
  intros Hw Hm He Hn [Hreq Ho]. pose proof (ri_ready _ _ _ _ (wi_node _ _ _ Hw peer n Hn)) as Hrd.
  destruct e as [p req|p req li|p req li| | | | | | |]; try done; injection Hreq as -> <-.
  - destruct (ni_asked _ _ _ (ci_node _ _ _ (wi_cluster _ _ _ Hw) src m Hm) _ _ He) as [Hid _].
    split; [|split].
    + cbn. rewrite Hid. apply (ni_id0 _ _ _ (ci_node _ _ _ (wi_cluster _ _ _ Hw) src m Hm)).
    + by intros req'.
    + intros x. subst o. by repeat case_match; intros [= <-].
  - assert (message_ok B E src (SpawnAppendEntries peer req li)) as (Hf & Hne & Hli).
    { apply (ri_sent _ _ _ _ (wi_node _ _ _ Hw src m Hm)). by apply elem_of_sent. }
    split; [|split].
    + eapply from_leader_follows; [done|by apply ready_whole].
    + intros req' [= <-]. exists src. split; [congruence|done].
    + intros x. subst o. destruct (handle (InAppendEntries req) n).1 as [[[r|]| | |]|] eqn:Hr;
        try done. intros [= <-]. cbn. rewrite Hli.
      split; [by eapply from_leader_bounds|by eapply append_answer_bounded].
  - exfalso. assert (message_ok B E src (SpawnInstallSnapshot peer req li)); [|done].
    apply (ri_sent _ _ _ _ (wi_node _ _ _ Hw src m Hm)). by apply elem_of_sent.
Qed.

(** A step is one node handling one input that fits, or nothing. *)
Lemma world_step_acts w w' B E :
  world_inv w B E -> world_step fresh_votes w w' ->
  (forall x, x ∈ inbox w' -> answer_ok x.2) /\
  (replicas w' = replicas w \/
   exists id n i, replicas w !! id = Some n /\
     replicas w' = <[id := (handle i n).2]> (replicas w) /\
     takes n i /\ carried B E id i).
Proof.
  intros Hw Hs.
  destruct Hs as [w1 id n i Hn Hi Ht|w1 src m e o ns Hm He _ Hrun|w1 id msg n Hin Hn Hf].
  - split; [exact (wi_inbox _ _ _ Hw)|right]. exists id, n, i. repeat (split; [done|]).
    by intros req ->.
  - apply task_cases in Hrun as [[-> ->]|(peer & i & n & Hn & -> & Hcase)].
    { split; [|by left]. cbn. rewrite app_nil_r. exact (wi_inbox _ _ _ Hw). }
    destruct (task_fits w1 B E src m e peer i n o Hw Hm He Hn Hcase) as (Htk & Hcar & Hans).
    split; [|right; exists peer, n, i; by repeat (split; [done|])].
    intros x. cbn. rewrite elem_of_app. intros [Hx|Hx]; [by apply Hw|].
    destruct o as [msg|]; cbn in Hx; [|by apply not_elem_of_nil in Hx].
    apply list_elem_of_singleton in Hx as ->. by apply Hans.
  - pose proof (wi_inbox _ _ _ Hw _ Hin) as Hok. cbn in Hok.
    split; [exact (wi_inbox _ _ _ Hw)|right]. exists id, n, (InMessage msg). repeat (split; [done|]).
    split; [by destruct msg|by intros req].
Qed.

Lemma world_inv_same w w' B B' E :
  world_inv w B E -> replicas w' = replicas w -> B ⊆ B' ->
  cluster_inv V (cluster_of w') B' -> (forall x, x ∈ inbox w' -> answer_ok x.2) ->
  world_inv w' B' E.
Proof.
  intros [H1 H2 H3 H4 H5] Heq HB Hc' Hin. split; try done; rewrite ?Heq.
  - intros id n Hid. destruct (H2 id n Hid) as [? ? ? ? ? Hs]. split; try done.
    intros x Hx. eapply message_ok_more; [exact HB|apply more_refl|by apply Hs].
  - intros j t x pt Ho. by eapply creator_grows, H4.
Qed.

Lemma world_step_inv w w' B E :
  world_inv w B E -> world_step fresh_votes w w' ->
  exists B' E', B ⊆ B' /\ more E E' /\ world_inv w' B' E'.
Proof.
  intros Hw Hs.
  assert (exists B', B ⊆ B' /\ cluster_inv V (cluster_of w') B') as (B' & HB & Hc').
  { destruct (world_step_refines w w' Hs) as [Hst| ->].
    - by eapply step_inv; [|apply Hw].
    - exists B. split; [done|apply Hw]. }
  enough (exists E', more E E' /\ world_inv w' B' E') as (E' & ? & ?) by by exists B', E'.
  destruct (world_step_acts w w' B E Hw Hs) as (Hin & [Heq|(id & n & i & Hn & Heq & Ht & Hcar)]).
  - exists E. split; [apply more_refl|]. by eapply world_inv_same.
  - destruct w' as [ns box]. cbn in Heq. subst ns.
    destruct (world_node_step w box B B' E id n i Hw Hn Ht Hcar HB Hc' Hin) as (E' & ? & _ & ?).
    by exists E'.
Qed.

Lemma world_steps_inv w w' B E :
  world_steps fresh_votes w w' -> world_inv w B E ->
  exists B' E', B ⊆ B' /\ more E E' /\ world_inv w' B' E'.
Proof.
  induction 1 as [w|w1 w2 w3 _ IH Hs]; intros Hw.
  - exists B, E. split; [done|]. split; [apply more_refl|done].
  - destruct (IH Hw) as (B2 & E2 & HB & HE & Hw2).
    destruct (world_step_inv w2 w3 B2 E2 Hw2 Hs) as (B3 & E3 & HB' & HE' & Hw3).
    exists B3, E3. split; [by etrans|]. split; [|done]. intros i t e pt Ho. by apply HE', HE.
Qed.

(** *** The start *)

(** Nodes with the members [V], just started over storages without snapshots;
    their terms are at least [T0], their entries of terms up to it, and their
    logs match. *)
Record born w : Prop := {
  bo_inbox : inbox w = [];
  bo_node id n : replicas w !! id = Some n ->
    started V id n /\ ready n /\ T0 <= current_term (sm n) /\
    forall i e, lv_log (log n) !! i = Some e -> le_term e <= T0;
  bo_match a b na nb : replicas w !! a = Some na -> replicas w !! b = Some nb ->
    logs_match 0 (log na) (log nb);
}.

Lemma born_inv w :
  born w -> exists B E, world_inv w B E /\
    forall i t e pt, E i t e pt -> exists id n, replicas w !! id = Some n /\ lv_log (log n) !! i = Some e.
Proof.
  intros [Hin Hnode Hmatch].
  destruct (initial_inv V (cluster_of w)) as [B HB].
  { split; [unfold cluster_of; cbn; by rewrite Hin|]. intros id n Hn. by apply Hnode. }
  exists B, (fun i t e pt => exists id n, replicas w !! id = Some n /\
    lv_log (log n) !! i = Some e /\ t = le_term e /\ pt = term_at (log n) (i - 1)).
  split; [|intros i t e pt (id & n & ? & ? & _); by exists id, n].
  split; [done| | | |rewrite Hin; by intros x ?%not_elem_of_nil].
  - intros id n Hn. destruct (Hnode id n Hn) as ((_ & _ & _ & _ & Hr & _ & _ & He) & Hrd & Ht & _).
    split; [done| |done|congruence|congruence|].
    + intros i e Hi. by exists id, n.
    + intros e. rewrite elem_of_sent, He. intros [_ Hx]. by apply not_elem_of_nil in Hx.
  - intros i t e e' pt pt' (a & na & Ha & Hi & -> & ->) (b & nb & Hb & Hi' & Ht & ->).
    destruct (Hnode a na Ha) as (_ & Hra & _), (Hnode b nb Hb) as (_ & Hrb & _).
    pose proof (ready_whole _ Hra) as Hwa. pose proof (ready_whole _ Hrb) as Hwb.
    assert (0 < i) as Hi0 by (apply (whole_dom _ _ Hwa); eauto).
    pose proof (Hmatch a b na nb Ha Hb i e e' Hi0 Hi Hi' Ht) as Hall.
    split; [rewrite Hall in Hi by lia; congruence|].
    rewrite !term_at_whole by done. destruct (decide (i - 1 = 0)) as [->|Hne].
    + assert (lv_log (log na) !! 0 = None /\ lv_log (log nb) !! 0 = None) as [-> ->]; [|done].
      split; apply eq_None_not_Some; intros Hd;
        [apply (whole_dom _ _ Hwa) in Hd|apply (whole_dom _ _ Hwb) in Hd]; lia.
    + by rewrite Hall by lia.
  - intros i t e pt (id & n & Hn & Hi & -> & _). left. by eapply Hnode.
Qed.
End invariant.

(** ** Log Matching and Leader Append-Only *)

Section theorems.
Context {prof : BuildProfile} {St : Type}
  `{HS : Storage St, HL : !LogStorage St, HD : !DurableStorage St}.
Implicit Types (w : World St) (n : RaftNodeInner St).


(** Leader Append-Only: in such an execution, a node that leads a term before
    and after a step (whatever node acts in it) has kept every entry of its
    log, and has added at most one, of its own term. *)
Theorem leader_append_only V T0 w0 w w' id n n'
    (Hborn : born V T0 w0) (Hsteps : world_steps fresh_votes w0 w)
    (Hs : world_step fresh_votes w w')
    (Hn : replicas w !! id = Some n) (Hn' : replicas w' !! id = Some n')
    (Hr : role (sm n) = Leader) (Hr' : role (sm n') = Leader)
    (Ht : current_term (sm n') = current_term (sm n)) :
  log n' = log n \/
  exists data, log n' = spec_append (log n) [proposed n data].
Proof.
  destruct (born_inv V T0 w0 Hborn) as (B0 & E0 & Hw0 & _).
  destruct (world_steps_inv V T0 w0 w B0 E0 Hsteps Hw0) as (B & E & _ & _ & Hw).
  destruct (world_step_acts V T0 w w' B E Hw Hs) as (_ & [Heq|(a & m & i & Hm & Heq & Htk & Hcar)]).
  { left. congruence. }
  rewrite Heq in Hn'. apply lookup_insert_Some in Hn' as [[-> <-]|[_ Hn']]; [|left; congruence].
  assert (m = n) as -> by congruence.
  pose proof (ci_node _ _ _ (wi_cluster _ _ _ _ _ Hw) id n Hn) as Hni.
  destruct (takes_admissible n i Htk) as [Ha _].
  pose proof (handle_ballot i n Ha (ni_persisted _ _ _ Hni) (ni_vote0 _ _ _ Hni)) as Hb.
  destruct (handle_log_step i n (ri_ready _ _ _ _ _ _ (wi_node _ _ _ _ _ Hw id n Hn)) Htk)
    as [_ Hch _].
  assert (won V B (current_term (sm n)) id) as Hwon
    by (eapply leader_won; [apply Hw|done..]).
  destruct (leader_change V T0 B E id n i _ Hcar Hwon Hb Ht Hch) as [?|(_ & _ & p & _ & ?)];
    [by left|right; eauto].
Qed.
End theorems.

(** ** Concrete executions *)

Section examples.
Local Existing Instance dev_profile.

Lemma ex_start_ready id peers :
  ready (HL := MemStorage_log) (HD := MemStorage_durable) (ex_start id peers).
Proof. split; [by_compute|reflexivity|apply map_Forall_empty|by_compute|reflexivity]. Qed.

Lemma ex_replica id n : replicas ex_world !! id = Some n -> exists peers, n = ex_start id peers.
Proof.
  intros Hn. cbn in Hn.
  repeat apply lookup_insert_Some in Hn as [[<- <-]|[_ Hn]]; [by eexists..|].
  by rewrite lookup_empty in Hn.
Qed.

Lemma ex_world_born :
  born (HL := MemStorage_log) (HD := MemStorage_durable) {[1; 2; 3]} 0 ex_world.
Proof.
  split; [done| |].
  - intros id n Hn. pose proof (proj2 ex_cluster_initial id n Hn) as Hst.
    destruct (ex_replica id n Hn) as (peers & ->). split; [done|].
    split; [apply ex_start_ready|]. split; [cbn; lia|]. by intros i e.
  - intros a b na nb Ha Hb. destruct (ex_replica a na Ha) as (pa & ->). by intros i e.
Qed.



Lemma leader_append_only_witness :
  exists w n, world_steps fresh_votes ex_world w /\ replicas w !! 1 = Some n /\
    let n' := (handle (InMessage (Propose (MkProposal [x63] None))) n).2 in
    lv_last (log (H0 := MemStorage_log) n') = 3 /\
    (log (H0 := MemStorage_log) n' = log (H0 := MemStorage_log) n \/
     exists data, log (H0 := MemStorage_log) n' =
       spec_append (log (H0 := MemStorage_log) n) [proposed (HL := MemStorage_log) n data]).
Proof.
  assert (exists w, world_exec (HL := MemStorage_log) fresh_votes ex_leading ex_world = Some w /\
    exists n, replicas w !! 1 = Some n /\ role (sm n) = Leader /\
      let n' := (handle (InMessage (Propose (MkProposal [x63] None))) n).2 in
      role (sm n') = Leader /\ current_term (sm n') = current_term (sm n) /\
      lv_last (log (H0 := MemStorage_log) n') = 3 /\
      takes (HL := MemStorage_log) n (InMessage (Propose (MkProposal [x63] None))))
    as (w & Hw & n & Hn & Hr & Hr' & Ht & Hl & Htk).
  { eexists. split; [vm_compute; reflexivity|]. eexists.
    split; [vm_compute; reflexivity|]. split; [reflexivity|].
    split; [vm_compute; reflexivity|]. split; [vm_compute; reflexivity|].
    split; [vm_compute; reflexivity|]. vm_compute. reflexivity. }
  apply (world_exec_steps _ _ _ ex_world) in Hw; [|constructor].
  exists w, n. split; [exact Hw|]. split; [exact Hn|]. split; [exact Hl|].
  exact (leader_append_only (HL := MemStorage_log) (HD := MemStorage_durable)
           {[1; 2; 3]} 0 ex_world w _ 1 n _ ex_world_born Hw
           (ws_own _ w 1 n (InMessage (Propose (MkProposal [x63] None))) Hn I Htk) Hn (lookup_insert_eq _ _ _) Hr Hr' Ht).
Defined.

(** Node 2 stores both entries and node 1 commits and applies them; then the
    request that carried the first entry alone arrives at node 2, late; node 2
    wins term 2 with the vote of node 3, proposes an entry of its own, and node
    1 stores it. *)
Definition ex_reordered : list WorldEvent :=
  ex_leading ++
  [WTask 1 9; WAnswer 1; WOwn 1 InHeartbeat; WTask 1 7;
   WOwn 2 InElectionTimeout; WTask 2 8; WAnswer 3; ex_propose 2 x63;
   WTask 2 12; WAnswer 4; WOwn 2 InHeartbeat].

(** C11. One reordered request breaks State Machine Safety: three fresh nodes, no
    crash, no stale vote, every message one that was sent: node 1 applies two
    entries that a majority stores; a request sent earlier, with the first
    entry only, reaches node 2 after the one with both, and makes it forget the
    second; node 2 is elected by node 3 and commits and applies another entry
    at the same index. *)
Theorem reordered_append_breaks_safety :
  born (HL := MemStorage_log) (HD := MemStorage_durable) {[1; 2; 3]} 0 ex_world /\
  exists w n1 n2 e1 e2, world_steps fresh_votes ex_world w /\
    replicas w !! 1 = Some n1 /\ replicas w !! 2 = Some n2 /\
    ApplyEntry e1 ∈ effects n1 /\ ApplyEntry e2 ∈ effects n2 /\
    le_index e1 = 2 /\ le_index e2 = 2 /\ le_data e1 = [x62] /\ le_data e2 = [x63].
Proof.
  split; [apply ex_world_born|].
  assert (exists w, world_exec (HL := MemStorage_log) fresh_votes ex_reordered ex_world = Some w /\
    exists n1 n2 e1 e2, replicas w !! 1 = Some n1 /\ replicas w !! 2 = Some n2 /\
      effects n1 !! 17%nat = Some (ApplyEntry e1) /\ effects n2 !! 20%nat = Some (ApplyEntry e2) /\
      le_index e1 = 2 /\ le_index e2 = 2 /\ le_data e1 = [x62] /\ le_data e2 = [x63])
    as (w & Hw & n1 & n2 & e1 & e2 & H1 & H2 & He1 & He2 & Hrest).
  { eexists. split; [vm_compute; reflexivity|]. do 4 eexists.
    split; [vm_compute; reflexivity|]. split; [vm_compute; reflexivity|].
    split; [vm_compute; reflexivity|]. split; [vm_compute; reflexivity|].
    repeat split; reflexivity. }
  apply (world_exec_steps _ _ _ ex_world) in Hw; [|constructor].
  exists w, n1, n2, e1, e2. repeat (split; [done|]).
  split; [by eapply list_elem_of_lookup_2|]. split; [by eapply list_elem_of_lookup_2|done].
Qed.
End examples.
