(* ===== verification/History.v ===== *)
(** * The history of a cluster

    What an execution of [Ensemble] has done so far, as far as commitment goes:
    the log of the leader of every term, what every node has acknowledged in
    every term, and the log each node came to a term with. An entry is
    committed when a majority has acknowledged it in its own term. A history
    is well formed when every leader was elected by logs that were not ahead of
    its own and no node has let go of what it acknowledged, unless a later
    leader lacks it. Leader Completeness is a theorem about such histories;
    [Safety] proves that the code makes no others. *)

From Stdlib Require Import Lia.
From stdpp Require Import base numbers list option gmap sets fin_maps.
From S2P Require Import Prelude.
From S2P Require Import Core.
From S2P Require Import Proto.
From S2P Require Import Storage.
From S2P Require Import StateMachine.
From S2P Require Import Node.
From S2P Require Import Handlers.
From S2P Require Import NodeLog.
From S2P Require Import RequestVote.
From S2P Require Import AppendEntries.
From S2P Require Import Replication.
From S2P Require Import Matching.

Record History : Type := MkHistory {
  ledger : gmap Term LogView;
  acked : NodeId -> Term -> LogIndex -> Prop;
  arrived : gmap (NodeId * Term) LogView;
}.

(** A leader of [t] only appends entries of [t]. *)
Definition extends (t : Term) (L L' : LogView) : Prop :=
  lv_last L <= lv_last L' /\
  (forall j, j <= lv_last L -> lv_log L !! j = lv_log L' !! j) /\
  forall j e, lv_last L < j -> lv_log L' !! j = Some e -> le_term e = t.

Record grows (H H' : History) : Prop := {
  gr_ledger t L : ledger H !! t = Some L ->
    exists L', ledger H' !! t = Some L' /\ extends t L L';
  gr_acked v t i : acked H v t i -> acked H' v t i;
  gr_arrived : arrived H ⊆ arrived H';
}.

Definition terms_upto (T : Term) (L : LogView) : Prop :=
  forall i e, lv_log L !! i = Some e -> le_term e <= T.

(** Node [v] has acknowledged [e], at [k], to the leader of [t]. *)
Definition stored (H : History) (v : NodeId) (t : Term) (k : LogIndex) (e : LogEntry) : Prop :=
  exists i L, acked H v t i /\ k <= i /\ ledger H !! t = Some L /\ lv_log L !! k = Some e.

(** The leaders after [t] have it, up to the one of [T]. *)
Definition lasting (H : History) (t : Term) (k : LogIndex) (e : LogEntry) (T : Term) : Prop :=
  forall U L, t < U <= T -> ledger H !! U = Some L -> lv_log L !! k = Some e.

(** The log [L] has whatever [v] acknowledged and the leaders up to [T] kept. *)
Definition covers (H : History) (v : NodeId) (T : Term) (L : LogView) : Prop :=
  forall t k e, t <= T -> stored H v t k e -> lasting H t k e T -> lv_log L !! k = Some e.

Section history.
Context (V : gset NodeId).
Implicit Types (H : History) (E : LogIndex -> Term -> LogEntry -> Term -> Prop) (L : LogView).

Definition majority (Q : gset NodeId) : Prop :=
  Q ⊆ V /\ N.of_nat (size V) < 2 * N.of_nat (size Q).

Lemma majority_meet Q Q' : majority Q -> majority Q' -> exists v, v ∈ Q /\ v ∈ Q'.
Proof.
  intros [HQ Hq] [HQ' Hq'].
  apply (majorities_meet Q Q' V (N.min (N.of_nat (size Q)) (N.of_nat (size Q')))); (done || lia).
Qed.

(** The entry [e] of the leader of [t] is on a majority. *)
Definition committed H (t : Term) (k : LogIndex) (e : LogEntry) : Prop :=
  exists L Q, ledger H !! t = Some L /\ lv_log L !! k = Some e /\ le_term e = t /\
    majority Q /\ forall v, v ∈ Q -> exists i, k <= i /\ acked H v t i.

(** The entry [e] at [j] is, or is before, one committed at a term up to
    [T]. *)
Definition safe H (T : Term) (j : LogIndex) (e : LogEntry) : Prop :=
  exists t k ek L, t <= T /\ j <= k /\ committed H t k ek /\
    ledger H !! t = Some L /\ lv_log L !! j = Some e.

(** The log [v] came to term [T] with is not ahead of the candidate's. *)
Definition vote_ok H (v : NodeId) (T : Term) (c : NodeId) : Prop :=
  exists Lc Lv, arrived H !! (c, T) = Some Lc /\ arrived H !! (v, T) = Some Lv /\
    up_to_date Lv (last_term Lc) (lv_last Lc) = true.

(** The leader of [T] had the votes of a majority, and has only appended since. *)
Definition elected H (T : Term) L : Prop :=
  exists c L0 Q, arrived H !! (c, T) = Some L0 /\ extends T L0 L /\ majority Q /\
    forall v, v ∈ Q -> vote_ok H v T c.

Record history_ok E H : Prop := {
  ho_one : one_origin E;
  ho_origin i t e pt : E i t e pt ->
    pt <= t /\ exists L, ledger H !! t = Some L /\ lv_log L !! i = Some e;
  ho_ledger t L : ledger H !! t = Some L ->
    0 < t /\ whole L /\ chain E L /\ terms_upto t L /\ elected H t L;
  ho_acked v t i : acked H v t i -> exists L, ledger H !! t = Some L /\ i <= lv_last L;
  ho_arrived v T L : arrived H !! (v, T) = Some L ->
    0 < T /\ whole L /\ chain E L /\ terms_upto (T - 1) L /\ covers H v (T - 1) L;
}.

(** ** Logs in a history *)

Lemma extends_refl t L : whole L -> extends t L L.
Proof.
  intros HL. split; [done|]. split; [done|]. intros j e Hj He.
  assert (is_Some (lv_log L !! j)) as Hd by eauto. apply (whole_dom L j HL) in Hd. lia.
Qed.

Lemma extends_trans t L L' L'' : extends t L L' -> extends t L' L'' -> extends t L L''.
Proof.
  intros (H1 & H2 & H3) (H1' & H2' & H3'). split; [lia|]. split.
  - intros j Hj. by rewrite H2, H2' by lia.
  - intros j e Hj He. destruct (N.le_gt_cases j (lv_last L')) as [Hle|Hgt]; [|by eapply H3'].
    apply (H3 j); [done|]. by rewrite H2'.
Qed.

Lemma extends_lookup t L L' k e :
  extends t L L' -> whole L -> lv_log L !! k = Some e -> lv_log L' !! k = Some e.
Proof.
  intros (_ & Hp & _) HL He. rewrite <- Hp; [done|].
  assert (is_Some (lv_log L !! k)) as Hd by eauto. apply (whole_dom L k HL) in Hd. lia.
Qed.

Lemma last_term_whole L : whole L -> last_term L = term_at L (lv_last L).
Proof.
  intros HL. unfold last_term, term_at. destruct (N.ltb_spec 0 (lv_last L)); [done|].
  by replace (lv_last L) with 0 by lia.
Qed.

(** Terms do not decrease along a log. *)
Lemma chain_sorted E H v i j e e' :
  history_ok E H -> whole v -> chain E v -> i <= j ->
  lv_log v !! i = Some e -> lv_log v !! j = Some e' -> le_term e <= le_term e'.
Proof.
  intros Hok Hv Hc. revert e'. induction j as [|j IH] using N.peano_ind; intros e' Hij He He'.
  { by rewrite whole_0 in He'. }
  destruct (decide (i = N.succ j)) as [->|Hne]; [assert (e = e') as -> by congruence; done|].
  destruct (ho_origin _ _ Hok _ _ _ _ (Hc _ _ He')) as [Hpt _].
  replace (N.succ j - 1) with j in Hpt by lia. rewrite term_at_whole in Hpt by done.
  assert (is_Some (lv_log v !! j)) as [x Hx].
  { apply (whole_dom v j Hv).
    assert (is_Some (lv_log v !! N.succ j)) as Hd by eauto. apply (whole_dom _ _ Hv) in Hd.
    assert (is_Some (lv_log v !! i)) as Hd' by eauto. apply (whole_dom _ _ Hv) in Hd'. lia. }
  rewrite Hx in Hpt. pose proof (IH x ltac:(lia) He Hx). lia.
Qed.

(** A log is the leader's up to each of its entries. *)
Lemma ledger_prefix E H v i x :
  history_ok E H -> whole v -> chain E v -> lv_log v !! i = Some x ->
  exists L, ledger H !! le_term x = Some L /\ lv_log L !! i = Some x /\
    forall j, j <= i -> lv_log v !! j = lv_log L !! j.
Proof.
  intros Hok Hv Hc Hx. destruct (ho_origin _ _ Hok _ _ _ _ (Hc _ _ Hx)) as (_ & L & HL & HLx).
  exists L. split; [done|]. split; [done|]. intros j Hj.
  destruct (ho_ledger _ _ Hok _ _ HL) as (_ & HwL & HcL & _).
  by apply (chain_agree E v L i x Hv HwL (ho_one _ _ Hok)).
Qed.

Lemma whole_last v : whole v -> 0 < lv_last v -> exists x, lv_log v !! lv_last v = Some x /\
  last_term v = le_term x.
Proof.
  intros Hv Hl. assert (is_Some (lv_log v !! lv_last v)) as [x Hx] by (apply (whole_dom _ _ Hv); lia).
  exists x. split; [done|]. rewrite last_term_whole, term_at_whole by done. by rewrite Hx.
Qed.

(** ** Leader Completeness *)

(** A log at least as up to date as one with the committed entry has it, if the
    leaders in between do. *)
Lemma up_to_date_has E H L0 Lv t k e U :
  history_ok E H -> whole L0 -> chain E L0 -> whole Lv -> chain E Lv ->
  terms_upto (U - 1) L0 -> up_to_date Lv (last_term L0) (lv_last L0) = true ->
  le_term e = t -> lv_log Lv !! k = Some e -> lasting H t k e (U - 1) ->
  lv_log L0 !! k = Some e.
Proof.
  intros Hok H0 Hc0 Hv Hcv Hup Hutd Ht Hk Hlast.
  assert (0 < k <= lv_last Lv) as Hkr by (apply (whole_dom _ _ Hv); eauto).
  destruct (whole_last Lv Hv) as (xv & Hxv & Htv); [lia|].
  pose proof (chain_sorted E H Lv k (lv_last Lv) e xv Hok Hv Hcv ltac:(lia) Hk Hxv) as Hs.
  assert (le_term xv <= last_term L0 /\
    (last_term L0 = le_term xv -> lv_last Lv <= lv_last L0)) as [Hge Heq].
  { unfold up_to_date in Hutd. rewrite Htv in Hutd. apply orb_true_iff in Hutd as [Hlt|Hle].
    - apply N.ltb_lt in Hlt. lia.
    - apply andb_true_iff in Hle as [Ha Hb]. apply N.eqb_eq in Ha. apply N.leb_le in Hb. lia. }
  destruct (ledger_prefix E H Lv _ xv Hok Hv Hcv Hxv) as (Lx & HLx & _ & Hagv).
  destruct (N.eq_0_gt_0_cases (lv_last L0)) as [Hz|Hpos].
  { exfalso. destruct (ho_ledger _ _ Hok _ _ HLx) as (Hpx & _).
    rewrite last_term_whole, Hz, term_at_whole in Hge, Heq by done.
    rewrite whole_0 in Hge by done. lia. }
  destruct (whole_last L0 H0 Hpos) as (x0 & Hx0 & Ht0). rewrite Ht0 in *.
  destruct (ledger_prefix E H L0 _ x0 Hok H0 Hc0 Hx0) as (Ly & HLy & Hy0 & Hag0).
  destruct (decide (le_term x0 = le_term xv)) as [Hsame|Hdiff].
  - specialize (Heq Hsame). rewrite Hsame in HLy. assert (Ly = Lx) as -> by congruence.
    rewrite Hag0 by lia. by rewrite <- Hagv by lia.
  - assert (lv_log Ly !! k = Some e) as Hyk.
    { apply (Hlast (le_term x0)); [|done]. pose proof (Hup _ _ Hx0). lia. }
    destruct (ho_ledger _ _ Hok _ _ HLy) as (_ & HwL & HcL & _).
    destruct (N.le_gt_cases k (lv_last L0)) as [Hle|Hgt]; [by rewrite Hag0|].
    pose proof (chain_sorted E H Ly (lv_last L0) k x0 e Hok HwL HcL ltac:(lia) Hy0 Hyk). lia.
Qed.

(** What is committed stays with all later leaders. *)
Lemma completeness E H t k e :
  history_ok E H -> committed H t k e ->
  forall U L, t < U -> ledger H !! U = Some L -> lv_log L !! k = Some e.
Proof.
  intros Hok (Lt & Q & HLt & Hk & Ht & HQ & Hack) U.
  induction (N.lt_wf_0 U) as [U _ IH]. intros L HU HL.
  destruct (ho_ledger _ _ Hok _ _ HL) as (_ & _ & _ & _ & c & L0 & Q' & H0 & Hext & HQ' & Hvotes).
  destruct (majority_meet Q Q' HQ HQ') as (v & Hv & Hv').
  destruct (Hvotes v Hv') as (Lc & Lv & Hc & HLv & Hutd). assert (Lc = L0) by congruence. subst Lc.
  destruct (ho_arrived _ _ Hok _ _ _ HLv) as (_ & HwLv & HcLv & _ & Hcov).
  destruct (ho_arrived _ _ Hok _ _ _ H0) as (_ & Hw0 & Hc0 & Hup0 & _).
  destruct (Hack v Hv) as (i & Hi & Ha).
  assert (lasting H t k e (U - 1)) as Hlast
    by (intros U' L' HU' HL'; apply (IH U'); (done || lia)).
  assert (lv_log Lv !! k = Some e) as Hvk.
  { apply (Hcov t); [lia| |done]. by exists i, Lt. }
  eapply extends_lookup; [done|done|]. by apply (up_to_date_has E H L0 Lv t k e U).
Qed.

Lemma safe_in_ledger E H T U j e L :
  history_ok E H -> safe H T j e -> T <= U -> ledger H !! U = Some L -> lv_log L !! j = Some e.
Proof.
  intros Hok (t & k & ek & Lt & Ht & Hj & Hcom & HLt & Hje) HTU HL.
  destruct (decide (t = U)) as [->|Hne]; [congruence|].
  pose proof (completeness E H t k ek Hok Hcom U L ltac:(lia) HL) as Hk.
  destruct Hcom as (Lt' & Q & HLt' & Hk' & _). assert (Lt' = Lt) as -> by congruence.
  destruct (ho_ledger _ _ Hok _ _ HLt) as (_ & Hw & Hc & _).
  destruct (ho_ledger _ _ Hok _ _ HL) as (_ & HwL & HcL & _).
  rewrite <- Hje. symmetry. by apply (chain_agree E Lt L k ek Hw HwL (ho_one _ _ Hok)).
Qed.

(** Two committed entries at one index are the same. *)
Lemma safe_unique E H T T' j e e' :
  history_ok E H -> safe H T j e -> safe H T' j e' -> e = e'.
Proof.
  intros Hok Hs Hs'. pose proof Hs as (t & k & ek & L & _ & Hj & Hcom & HL & He).
  pose proof Hs' as (t' & k' & ek' & L' & _ & Hj' & Hcom' & HL' & He').
  assert (safe H t j e) as Ht by (exists t, k, ek, L; done).
  assert (safe H t' j e') as Ht' by (exists t', k', ek', L'; done).
  destruct (N.le_ge_cases t t') as [Hle|Hle].
  - pose proof (safe_in_ledger E H t t' j e L' Hok Ht Hle HL'). congruence.
  - pose proof (safe_in_ledger E H t' t j e' L Hok Ht' Hle HL). congruence.
Qed.

(** ** Growing histories *)

Lemma stored_term E H v t k e : history_ok E H -> stored H v t k e -> le_term e <= t.
Proof.
  intros Hok (i & L & _ & _ & HL & He). destruct (ho_ledger _ _ Hok _ _ HL) as (_ & _ & _ & Hup & _).
  by eapply Hup.
Qed.

Lemma stored_at E H H' v t i k e L' :
  history_ok E H -> grows H H' -> acked H v t i -> k <= i ->
  ledger H' !! t = Some L' -> lv_log L' !! k = Some e -> stored H v t k e.
Proof.
  intros Hok Hg Ha Hk HL' He. destruct (ho_acked _ _ Hok _ _ _ Ha) as (L & HL & Hi).
  destruct (gr_ledger _ _ Hg _ _ HL) as (L1 & HL1 & _ & Hp & _).
  assert (L1 = L') as -> by congruence. exists i, L. do 3 (split; [done|]).
  rewrite Hp; [done|lia].
Qed.

Lemma stored_before E H H' v t k e :
  history_ok E H -> grows H H' -> (forall i, acked H' v t i -> acked H v t i) ->
  stored H' v t k e -> stored H v t k e.
Proof.
  intros Hok Hg Hq (i & L' & Ha & Hk & HL' & He). eapply stored_at; eauto.
Qed.

Lemma lasting_before E H H' t k e T :
  history_ok E H -> grows H H' -> le_term e <= t -> lasting H' t k e T -> lasting H t k e T.
Proof.
  intros Hok Hg Ht Hl U L HU HL. destruct (gr_ledger _ _ Hg _ _ HL) as (L' & HL' & Hx & Hp & Hn).
  pose proof (Hl U L' HU HL') as He.
  destruct (N.le_gt_cases k (lv_last L)) as [Hle|Hgt]; [by rewrite Hp|].
  pose proof (Hn k e Hgt He). lia.
Qed.

Lemma covers_grows E H H' v T L :
  history_ok E H -> grows H H' -> (forall t i, t <= T -> acked H' v t i -> acked H v t i) ->
  covers H v T L -> covers H' v T L.
Proof.
  intros Hok Hg Hq Hc t k e Ht Hs Hl.
  assert (stored H v t k e) as Hs' by (eapply stored_before; eauto).
  apply (Hc t); [done|done|]. eapply lasting_before; try done. by eapply stored_term.
Qed.

Lemma ledger_lookup_grows E H H' t L k e :
  history_ok E H -> grows H H' -> ledger H !! t = Some L -> lv_log L !! k = Some e ->
  exists L', ledger H' !! t = Some L' /\ lv_log L' !! k = Some e.
Proof.
  intros Hok Hg HL He. destruct (gr_ledger _ _ Hg _ _ HL) as (L' & HL' & Hx).
  exists L'. split; [done|]. eapply extends_lookup; [done| |done]. by eapply ho_ledger.
Qed.

Lemma committed_grows E H H' t k e :
  history_ok E H -> grows H H' -> committed H t k e -> committed H' t k e.
Proof.
  intros Hok Hg (L & Q & HL & He & Ht & HQ & Ha).
  destruct (ledger_lookup_grows E H H' t L k e Hok Hg HL He) as (L' & HL' & He').
  exists L', Q. do 4 (split; [done|]). intros v Hv. destruct (Ha v Hv) as (i & ? & ?).
  exists i. split; [done|]. by apply Hg.
Qed.

Lemma safe_grows E H H' T T' j e :
  history_ok E H -> grows H H' -> T <= T' -> safe H T j e -> safe H' T' j e.
Proof.
  intros Hok Hg HT (t & k & ek & L & Ht & Hj & Hc & HL & He).
  destruct (ledger_lookup_grows E H H' t L j e Hok Hg HL He) as (L' & HL' & He').
  exists t, k, ek, L'. split; [lia|]. split; [done|]. split; [by eapply committed_grows|done].
Qed.

Lemma grows_refl E H : history_ok E H -> grows H H.
Proof.
  intros Hok. split; try done. intros t L HL. exists L. split; [done|].
  apply extends_refl. by eapply ho_ledger.
Qed.

Lemma grows_trans H1 H2 H3 : grows H1 H2 -> grows H2 H3 -> grows H1 H3.
Proof.
  intros [D1 A1 R1] [D2 A2 R2]. split; [|by auto|by etrans].
  intros t L HL. destruct (D1 t L HL) as (L' & HL' & Hx). destruct (D2 t L' HL') as (L'' & HL'' & Hx').
  exists L''. split; [done|by eapply extends_trans].
Qed.

Lemma vote_ok_grows H H' v T c : grows H H' -> vote_ok H v T c -> vote_ok H' v T c.
Proof.
  intros Hg (Lc & Lv & Hc & Hv & Hu). exists Lc, Lv.
  split; [|split; [|done]]; by (eapply lookup_weaken; [|apply Hg]).
Qed.

Lemma elected_grows H H' T L L' :
  grows H H' -> extends T L L' -> elected H T L -> elected H' T L'.
Proof.
  intros Hg Hx (c & L0 & Q & Hc & Hx0 & HQ & Hv). exists c, L0, Q.
  split; [by (eapply lookup_weaken; [|apply Hg])|]. split; [by eapply extends_trans|].
  split; [done|]. intros v Hv'. by eapply vote_ok_grows; [|apply Hv].
Qed.
End history.
