(* ===== verification/Orderly.v ===== *)
(** * Orderly executions

    The three conditions under which [Safety] holds of the cluster, and what an
    AppendEntries that keeps to them does to the log of its receiver: no vote of
    an earlier term is counted by a candidate, no success of an earlier term by a
    leader, and no AppendEntries is accepted whose last entry the receiver
    already has, with the same term, and with more of its log behind it
    ([late]). The last is not a matter of the order of messages alone: a request
    made later, and shortened by the size cap, is late as well
    ([Disorder.capped_append_breaks_safety]). *)

From Stdlib Require Import Lia Init.Byte.
From stdpp Require Import base numbers list option gmap sets fin_maps strings.
From S2P Require Import Prelude.
From S2P Require Import Core.
From S2P Require Import Proto.
From S2P Require Import Storage.
From S2P Require Import StateMachine.
From S2P Require Import Node.
From S2P Require Import Handlers.
From S2P Require Import NodeLog.
From S2P Require Import Cluster.
From S2P Require Import AppendEntries.
From S2P Require Import Replication.
From S2P Require Import Ensemble.
From S2P Require Import Matching.
From S2P Require Import History.
(** ** Orderly executions *)

(** The last entry sent is in the log already, and the log goes on after it. *)
Definition late (v : LogView) (req : AppendEntriesRequest) : bool :=
  match last (new_entries req) with
  | Some e =>
      match lv_log v !! le_index e with
      | Some x => (le_term x =? le_term e) && (le_index e <? lv_last v)
      | None => false
      end
  | None => false
  end.

Section orderly.
Context {prof : BuildProfile} {St : Type} `{HS : Storage St, HL : !LogStorage St}.
Implicit Types n : RaftNodeInner St.

(** A request that would be accepted is not late. *)
Definition in_order n (req : AppendEntriesRequest) : Prop :=
  current_term (sm n) <= ae_term req -> prev_matches (log n) req = true ->
  late (log n) req = false.

Definition orderly n (i : Input) : Prop :=
  match i with
  | InAppendEntries req => in_order n req
  | InMessage (VoteResponse _ r) => not_stale n r
  | InMessage (AppendResponse _ _ r) =>
      role (sm n) = Leader -> aer_success r = true -> current_term (sm n) <= aer_term r
  | _ => True
  end.

Lemma orderly_fresh n i : orderly n i -> fresh_votes n i.
Proof. by destruct i as [| | |[]| | |]. Qed.

#[export] Instance orderly_dec n i : Decision (orderly n i).
Proof. destruct i as [| | |[]| | |]; cbn; unfold in_order; apply _. Defined.
End orderly.

(** ** What an AppendEntries does to a log *)

Section append.
Context (V : gset NodeId).
Implicit Types (H : History) (E : LogIndex -> Term -> LogEntry -> Term -> Prop) (v L : LogView).

(** A request that the leader of its term made from its log, as it was then. *)
Definition append_ok E H (req : AppendEntriesRequest) : Prop :=
  exists L next LU, ledger H !! ae_term req = Some LU /\ extends (ae_term req) L LU /\
    whole L /\ chain E L /\ 1 <= next /\ sent_from L next req /\
    ae_leader_commit req <= lv_last L /\
    forall j e, j <= ae_leader_commit req -> lv_log L !! j = Some e ->
      safe V H (ae_term req) j e.

Lemma append_ok_grows E E' H H' req :
  history_ok V E H -> grows H H' -> more E E' -> append_ok E H req -> append_ok E' H' req.
Proof.
  intros Hok Hg HE (L & next & LU & HLU & Hx & HwL & HcL & H1 & Hs & Hlc & Hsafe).
  destruct (gr_ledger _ _ Hg _ _ HLU) as (LU' & HLU' & Hx').
  exists L, next, LU'. split; [done|]. split; [by eapply extends_trans|]. split; [done|].
  split; [by eapply chain_more|]. do 3 (split; [done|]). intros j e Hj He.
  apply (safe_grows V E H H' (ae_term req)); try done. by apply Hsafe.
Qed.

Definition last_sent (req : AppendEntriesRequest) : LogIndex :=
  ae_prev_log_index req + nlen (new_entries req).

Lemma sent_lookup L next req k x :
  whole L -> 1 <= next -> sent_from L next req -> new_entries req !! k = Some x ->
  lv_log L !! (next + N.of_nat k) = Some x.
Proof.
  intros HL H1 Hs Hk. pose proof (prefix_lookup_Some _ _ _ _ Hk (sf_entries _ _ _ Hs)) as Hr.
  rewrite lookup_log_range in Hr; [by case_match|].
  intros j Hj. apply (whole_dom _ _ HL). lia.
Qed.

Lemma last_sent_lookup L next req x :
  whole L -> 1 <= next -> sent_from L next req -> last (new_entries req) = Some x ->
  lv_log L !! last_sent req = Some x /\ le_index x = last_sent req.
Proof.
  intros HL H1 Hs Hl. assert (0 < nlen (new_entries req)) as Hpos.
  { destruct (new_entries req); [done|]. rewrite nlen_cons. lia. }
  rewrite last_lookup in Hl. pose proof (sent_lookup L next req _ x HL H1 Hs Hl) as HLx.
  replace (next + _) with (last_sent req) in HLx
    by (unfold last_sent, nlen in *; rewrite (sf_prev _ _ _ Hs); lia).
  split; [done|]. by apply (wf_index _ (proj1 HL)).
Qed.

(** An accepted request starts within the leader's log. *)
Lemma prev_within E H v L next req :
  history_ok V E H -> whole v -> chain E v -> whole L -> 1 <= next -> sent_from L next req ->
  prev_matches v req = true -> next <= lv_last L + 1.
Proof.
  intros Hok Hv Hc HL H1 Hs Hm. destruct (N.le_gt_cases next (lv_last L + 1)) as [|Hgt]; [done|].
  exfalso. unfold prev_matches in Hm. rewrite (sf_prev _ _ _ Hs), (sf_prev_term _ _ _ Hs) in Hm.
  destruct (N.eqb_spec (next - 1) 0) as [|Hnz]; [lia|]. cbn [orb] in Hm.
  rewrite (term_at_whole L) in Hm by done.
  assert (lv_log L !! (next - 1) = None) as Hn.
  { apply eq_None_not_Some. intros Hd. apply (whole_dom _ _ HL) in Hd. lia. }
  rewrite Hn in Hm. destruct (spec_term v (next - 1)) as [t|] eqn:Ht; [|done].
  apply N.eqb_eq in Hm. subst t.
  pose proof (spec_term_above v (next - 1)) as Ha. rewrite Ht in Ha.
  destruct Ha as [Hb|[x Hx]]; [destruct Hv; lia|done|destruct Hv; lia|].
  rewrite (spec_term_lookup v _ x (proj1 Hv) Hx) in Ht. injection Ht as Ht.
  destruct (ho_origin _ _ _ Hok _ _ _ _ (Hc _ _ Hx)) as (_ & L' & HL' & _).
  destruct (ho_ledger _ _ _ Hok _ _ HL') as (Hpos & _). lia.
Qed.

(** What an accepted request makes of the log [v]: the leader's log up to the
    last entry sent; and if it is not late, nothing is lost that the two
    shared. *)
Record appended H v (req : AppendEntriesRequest) LU : Prop := {
  ap_ledger : ledger H !! ae_term req = Some LU;
  ap_within : last_sent req <= lv_last LU;
  ap_agree j : j <= last_sent req ->
    lv_log (spec_append v (new_entries req)) !! j = lv_log LU !! j;
  ap_keeps k e : late v req = false -> lv_log v !! k = Some e -> lv_log LU !! k = Some e ->
    lv_log (spec_append v (new_entries req)) !! k = Some e;
  ap_last : new_entries req <> [] -> lv_last (spec_append v (new_entries req)) = last_sent req;
  ap_commit : ae_leader_commit req <= last_sent req \/ new_entries req <> [];
  ap_safe j e : j <= ae_leader_commit req -> j <= last_sent req ->
    lv_log (spec_append v (new_entries req)) !! j = Some e -> safe V H (ae_term req) j e;
}.

Lemma append_ok_appended E H v req :
  history_ok V E H -> whole v -> chain E v -> append_ok E H req -> prev_matches v req = true ->
  exists LU, appended H v req LU.
Proof.
  intros Hok Hv Hc (L & next & LU & HLU & Hx & HwL & HcL & H1 & Hs & Hlc & Hsafe) Hm.
  pose proof (prev_within E H v L next req Hok Hv Hc HwL H1 Hs Hm) as Hnext.
  destruct (ho_ledger _ _ _ Hok _ _ HLU) as (_ & HwU & HcU & _).
  assert (last_sent req = next + nlen (new_entries req) - 1) as Hls
    by (unfold last_sent; rewrite (sf_prev _ _ _ Hs); lia).
  destruct (sent_length L next req (proj1 HwL) ltac:(destruct HwL; lia) Hs) as [Hlen Hsome].
  assert (forall j, j <= last_sent req ->
    lv_log (spec_append v (new_entries req)) !! j = lv_log L !! j) as Hag.
  { intros j Hj. destruct (decide (j = 0)) as [->|Hj0].
    - rewrite (whole_0 L) by done.
      apply whole_0. by apply (sent_append_whole v L next).
    - pose proof (chain_match E v L Hv HwL (ho_one _ _ _ Hok) Hc HcL) as Hml.
      destruct Hv as [Hv Hbv], HwL as [HwL HbL].
      apply (appended_agrees 0 v L next req); (done || lia). }
  exists LU. split.
  - done.
  - destruct Hx; lia.
  - intros j Hj. rewrite Hag by done. apply Hx. lia.
  - intros k e Hl Hvk HUk. destruct (N.le_gt_cases k (last_sent req)) as [Hle|Hgt].
    { rewrite Hag by done. rewrite <- HUk. apply Hx. lia. }
    destruct (last (new_entries req)) as [x|] eqn:Hlast.
    2:{ apply last_None in Hlast. by rewrite Hlast. }
    exfalso. destruct (last_sent_lookup L next req x HwL H1 Hs Hlast) as [HLx Hix].
    assert (lv_log v !! last_sent req = Some x) as Hvx.
    { rewrite <- HLx. rewrite (chain_agree E v LU k e Hv HwU (ho_one _ _ _ Hok)) by (done || lia).
      symmetry. apply Hx. lia. }
    unfold late in Hl. rewrite Hlast, Hix, Hvx, N.eqb_refl in Hl. apply N.ltb_ge in Hl.
    assert (0 < k <= lv_last v) by (apply (whole_dom _ _ Hv); eauto). lia.
  - intros Hne. pose proof (fo_contiguous _ _ (sent_follows_any v L next req (proj1 HwL) Hs H1
        ltac:(destruct HwL; lia) ltac:(destruct Hv; lia))) as Hcont. unfold last_sent.
    destruct (new_entries req) as [|e0 es]; [done|].
    pose proof (proj1 (contiguous_cons _ _ _) Hcont) as [H0 _].
    rewrite spec_append_last, H0. lia.
  - destruct (N.le_gt_cases next (lv_last L)) as [Hle|Hgt]; [right; by apply (sf_some _ _ _ Hs)|left].
    rewrite (sent_beyond L next req Hs Hgt) in Hls. rewrite nlen_nil in Hls. lia.
  - intros j e Hj Hj' He. rewrite Hag in He by done. by apply Hsafe.
Qed.
End append.
