(* ===== verification/SafetyInvariant.v ===== *)
(** * The invariant of [Safety], and a step of one node

    What the nodes, the tasks they have spawned and their queues have to do with
    the history of the execution ([History]), and that a node which handles an
    orderly input continues the history and keeps to it. *)

From Stdlib Require Import Lia Init.Byte.
From stdpp Require Import base numbers list option gmap sets fin_maps strings.
From S2P Require Import Prelude.
From S2P Require Import Core.
From S2P Require Import Proto.
From S2P Require Import Storage.
From S2P Require Import StateMachine.
From S2P Require Import Node.
From S2P Require Import Handlers.
From S2P Require Import Votes.
From S2P Require Import NodeLog.
From S2P Require Import Election.
From S2P Require Import Cluster.
From S2P Require Import RequestVote.
From S2P Require Import AppendEntries.
From S2P Require Import Commit.
From S2P Require Import Proposals.
From S2P Require Import Total.
From S2P Require Import LogSteps.
From S2P Require Import CommitSteps.
From S2P Require Import Ensemble.
From S2P Require Import Matching.
From S2P Require Import History.
From S2P Require Import Orderly.

(** ** The invariant *)

Section invariant.
Context {prof : BuildProfile} {St : Type}
  `{HS : Storage St, HL : !LogStorage St, HD : !DurableStorage St}.
Context (V : gset NodeId).
Implicit Types (w : World St) (n : RaftNodeInner St) (H : History)
  (E : LogIndex -> Term -> LogEntry -> Term -> Prop).

Local Abbreviation ballots := (gmap (NodeId * Term) NodeId).
Implicit Types B : ballots.

(** A vote for [c] in [T], from a log not ahead of its own; nothing is said of
    votes once [T] has a leader. *)
Definition backed H (v : NodeId) (T : Term) (c : NodeId) : Prop :=
  is_Some (ledger H !! T) \/ vote_ok H v T c.

(** A vote request with the end of the log its candidate came to the term
    with. *)
Definition asked_ok H (req : RequestVoteRequest) : Prop :=
  is_Some (ledger H !! rv_term req) \/
  exists L, arrived H !! (rv_candidate_id req, rv_term req) = Some L /\
    rv_last_log_index req = lv_last L /\ rv_last_log_term req = last_term L.

(** What is known of an input that reaches node [id]. *)
Definition delivered E H (id : NodeId) (i : Input) : Prop :=
  match i with
  | InAppendEntries req => append_ok V E H req
  | InRequestVote req => asked_ok H req
  | InMessage (AppendResponse peer li r) => aer_success r = true -> acked H peer (aer_term r) li
  | InMessage (VoteResponse peer r) => rvr_vote_granted r = true -> backed H peer (rvr_term r) id
  | InInstallSnapshot _ | InMessage (SnapshotResponse _ _ _) => False
  | _ => True
  end.

Record node_safe E H (id : NodeId) n : Prop := {
  ns_ok : node_ok n;
  ns_terms : terms_upto (current_term (sm n)) (log n);
  ns_leader : role (sm n) = Leader -> ledger H !! current_term (sm n) = Some (log n);
  ns_self : role (sm n) = Leader -> acked H id (current_term (sm n)) (lv_last (log n));
  ns_covers : covers H id (current_term (sm n)) (log n);
  ns_acked t i : acked H id t i -> t <= current_term (sm n);
  ns_last : commit_index (sm n) <= lv_last (log n);
  ns_commit j e : j <= commit_index (sm n) -> lv_log (log n) !! j = Some e ->
    safe V H (current_term (sm n)) j e;
  ns_applied e : ApplyEntry e ∈ effects n -> safe V H (current_term (sm n)) (le_index e) e;
  ns_match : role (sm n) = Leader -> forall peer p, progress (sm n) !! peer = Some p ->
    peer ∈ cfg_peers (config n) /\
    (match_index p = 0 \/ acked H peer (current_term (sm n)) (match_index p));
  ns_votes : role (sm n) = Candidate -> forall v, v ∈ votes_received (sm n) ->
    backed H v (current_term (sm n)) id;
  ns_asked peer req : SpawnRequestVote peer req ∈ effects n -> asked_ok H req;
  ns_sent peer req li : SpawnAppendEntries peer req li ∈ effects n -> append_ok V E H req;
  ns_arrived : 0 < current_term (sm n) -> ledger H !! current_term (sm n) = None ->
    arrived H !! (id, current_term (sm n)) = Some (log n);
}.

Record cluster_safe w B E H : Prop := {
  cf_world : world_inv V 0 w B E;
  cf_history : history_ok V E H;
  cf_node id n : replicas w !! id = Some n -> node_safe E H id n;
  cf_creator t L : ledger H !! t = Some L -> creator V 0 B (replicas w) t;
  cf_arrived v T L : arrived H !! (v, T) = Some L ->
    exists n, replicas w !! v = Some n /\ T <= current_term (sm n);
  cf_inbox id msg : (id, msg) ∈ inbox w -> delivered E H id (InMessage msg);
}.

(** The history after node [id] has become [n']. *)
Definition next_history (id : NodeId) n' H : History :=
  let t := current_term (sm n') in
  let D := if decide (role (sm n') = Leader) then <[t := log n']> (ledger H) else ledger H in {|
    ledger := D;
    acked := fun v u i => acked H v u i \/
      v = id /\ u = t /\ exists L, D !! t = Some L /\ i <= lv_last L /\
        forall j, j <= i -> lv_log (log n') !! j = lv_log L !! j;
    arrived := if decide (0 < t /\ ledger H !! t = None)
               then <[(id, t) := log n']> (arrived H) else arrived H;
  |}.

Lemma backed_grows H H' v T c : grows H H' -> backed H v T c -> backed H' v T c.
Proof.
  intros Hg [[L Hd]|Hv]; [left|right; by eapply vote_ok_grows].
  destruct (gr_ledger _ _ Hg _ _ Hd) as (L' & -> & _). by eexists.
Qed.

Lemma asked_ok_grows H H' req : grows H H' -> asked_ok H req -> asked_ok H' req.
Proof.
  intros Hg [[L Hd]|(L & Ha & Hrest)].
  - left. destruct (gr_ledger _ _ Hg _ _ Hd) as (L' & -> & _). by eexists.
  - right. exists L. split; [|done]. by (eapply lookup_weaken; [|apply Hg]).
Qed.

Lemma delivered_grows E E' H H' id i :
  history_ok V E H -> grows H H' -> more E E' -> delivered E H id i -> delivered E' H' id i.
Proof.
  intros Hok Hg HE. destruct i as [| | |[]| | |]; cbn; try done.
  - by apply append_ok_grows.
  - by apply asked_ok_grows.
  - intros Ha Hs. by apply Hg, Ha.
  - intros Ha Hs. by eapply backed_grows, Ha.
Qed.

(** *** A step of one node *)

Section acting.
Context (w : World St) (box : list (NodeId * RaftMessage)) (B B' : ballots)
  (E E' : LogIndex -> Term -> LogEntry -> Term -> Prop) (H : History)
  (id : NodeId) (n n' : RaftNodeInner St) (i : Input).
Let w' := MkWorld (<[id := n']> (replicas w)) box.
Let H' := next_history id n' H.
Context (Hcs : cluster_safe w B E H) (Hid : replicas w !! id = Some n)
  (Hn' : n' = (handle i n).2) (Htk : takes n i) (Hcar : carried V 0 B E id i)
  (Hord : orderly n i) (Hdel : delivered E H id i)
  (HB : B ⊆ B') (HE : more E E') (Hnew : new_origins E E' n n')
  (Hw' : world_inv V 0 w' B' E').

Local Abbreviation T := (current_term (sm n)).
Local Abbreviation T' := (current_term (sm n')).

Lemma ac_hist : history_ok V E H.
Proof. apply Hcs. Qed.
Lemma ac_node : node_safe E H id n.
Proof. by eapply cf_node. Qed.
Lemma ac_replica : replica_inv V 0 B E id n.
Proof. eapply wi_node; [apply Hcs|done]. Qed.
Lemma ac_replica' : replica_inv V 0 B' E' id n'.
Proof. eapply wi_node; [apply Hw'|apply lookup_insert_eq]. Qed.
Lemma ac_inv : node_inv V id n.
Proof. eapply ci_node; [apply Hcs|done]. Qed.
Lemma ac_inv' : node_inv V id n'.
Proof. eapply ci_node; [apply Hw'|apply lookup_insert_eq]. Qed.
Lemma ac_whole : whole (log n).
Proof. apply ready_whole, ac_replica. Qed.
Lemma ac_whole' : whole (log n').
Proof. apply ready_whole, ac_replica'. Qed.

Lemma ac_role : role_step n i n'.
Proof.
  rewrite Hn'. apply handle_role_step; [by apply takes_admissible|apply ac_inv|apply ac_inv].
Qed.
Lemma ac_term : T <= T'.
Proof. apply (rs_term _ _ _ ac_role). Qed.
Lemma ac_ballot : ballot_after n i (ballot n').
Proof. rewrite Hn'. apply handle_ballot; [by apply takes_admissible|apply ac_inv|apply ac_inv]. Qed.
Lemma ac_log : log_step n i n'.
Proof. rewrite Hn'. apply handle_log_step; [apply ac_replica|done]. Qed.
Lemma ac_commit : commit_step n i n'.
Proof.
  rewrite Hn'. apply handle_commit_step; [apply ac_node|apply ac_replica|done|apply ac_node|].
  by intros peer li r ->.
Qed.
Lemma ac_config : config n' = config n.
Proof. rewrite Hn'. apply handle_keeps_config. Qed.

(** An accepted AppendEntries. *)
Lemma ac_accepted req :
  i = InAppendEntries req -> T <= ae_term req -> prev_matches (log n) req = true ->
  T' = ae_term req /\ late (log n) req = false /\ exists LU, appended V H (log n) req LU.
Proof.
  intros Hi Ht Hm. pose proof ac_ballot as Hb. rewrite Hi in Hb, Hord, Hdel. cbn in Hb, Hord, Hdel.
  split; [|split].
  - unfold observed, ballot in Hb. destruct (N.ltb_spec T (ae_term req));
      injection Hb as Hb _; lia.
  - by apply Hord.
  - apply (append_ok_appended V E H); [apply ac_hist|apply ac_whole|apply ac_replica|done..].
Qed.

Lemma ac_change :
  log n' = log n \/
  (exists req, i = InAppendEntries req /\ T <= ae_term req /\ prev_matches (log n) req = true /\
     log n' = spec_append (log n) (new_entries req)) \/
  (exists p, i = InMessage (Propose p) /\ role (sm n) = Leader /\ sm n' = sm n /\
     log n' = spec_append (log n) [proposed n (prop_data p)]).
Proof.
  pose proof (ls_change _ _ _ ac_log) as Hc. clear -Hc.
  destruct Hc as [j m Hl|req m Hle Hok Hl|p m Hr Hs Hl]; [by left|right; left|right; right].
  - by exists req.
  - by exists p.
Qed.

(** Before a term has a leader, the logs in it stay. *)
Lemma ac_quiet : ledger H !! T' = None -> log n' = log n.
Proof.
  intros Hd. destruct ac_change as [?|[(req & Hi & Ht & Hm & _)|(p & _ & Hr & Hs & _)]]; [done|..].
  - destruct (ac_accepted req Hi Ht Hm) as (Hte & _ & LU & Ha).
    pose proof (ap_ledger _ _ _ _ _ Ha). congruence.
  - pose proof (ns_leader _ _ _ _ ac_node Hr). congruence.
Qed.

(** A leader has led before, and has added to its log, or leads a term that had
    no leader. *)
Lemma ac_leads :
  role (sm n') = Leader ->
  (role (sm n) = Leader /\ T' = T /\ ledger H !! T' = Some (log n) /\
     extends T' (log n) (log n')) \/
  (ledger H !! T' = None /\ log n' = log n /\ wins n i n').
Proof.
  intros Hr. destruct (rs_leader _ _ _ ac_role Hr) as [[Hr' Ht]|Hwin].
  - left. pose proof (ns_leader _ _ _ _ ac_node Hr') as Hd.
    do 2 (split; [done|]). rewrite Ht. split; [done|].
    assert (won V B T id) as Hwon by (eapply leader_won; [apply Hcs|done..]).
    destruct (leader_change V 0 B E id n i n' Hcar Hwon ac_ballot Ht (ls_change _ _ _ ac_log))
      as [->|(_ & _ & p & _ & ->)]; [apply extends_refl, ac_whole|].
    assert (le_index (proposed n (prop_data p)) = lv_last (log n) + 1) as Hix by done.
    split; [|split].
    + rewrite spec_append_last, nlen_cons, nlen_nil, Hix. lia.
    + intros j Hj. by rewrite spec_append_lookup, Hix, (proj2 (N.ltb_lt _ _)) by lia.
    + intros j e Hj. rewrite spec_append_lookup, Hix.
      destruct (N.ltb_spec j (lv_last (log n) + 1)); [lia|].
      destruct (N.to_nat _) as [|k]; [|done]. by intros [= <-].
  - right. assert (ledger H !! T' = None) as Hd.
    { apply eq_None_not_Some. intros [L Hd].
      apply (win_no_creator V 0 B' (replicas w) id n i n'); try done.
      - eapply leader_won; [apply Hw'|apply lookup_insert_eq|done].
      - apply (ri_active _ _ _ _ _ _ ac_replica'). by rewrite Hr.
      - eapply creator_grows; [done|]. by eapply cf_creator. }
    split; [done|]. split; [by apply ac_quiet|done].
Qed.

Lemma ac_ledger_leader : role (sm n') = Leader -> ledger H' !! T' = Some (log n').
Proof. intros Hr. cbn. rewrite decide_True by done. apply lookup_insert_eq. Qed.

Lemma ac_ledger_other t : t <> T' \/ role (sm n') <> Leader -> ledger H' !! t = ledger H !! t.
Proof. intros Ht. cbn. case_decide; [|done]. apply lookup_insert_ne. destruct Ht; congruence. Qed.

Lemma ac_arrived_new : 0 < T' -> ledger H !! T' = None -> arrived H' !! (id, T') = Some (log n').
Proof. intros Ht Hd. cbn. rewrite decide_True by done. apply lookup_insert_eq. Qed.

Lemma ac_grows : grows H H'.
Proof.
  split.
  - intros t L HL'. destruct (ho_ledger _ _ _ ac_hist _ _ HL') as (_ & HwL & _).
    destruct (decide (t = T')) as [->|Ht];
      [|exists L; split; [rewrite ac_ledger_other by auto; done|by apply extends_refl]].
    destruct (decide (role (sm n') = Leader)) as [Hr|Hr];
      [|exists L; split; [rewrite ac_ledger_other by auto; done|by apply extends_refl]].
    exists (log n'). split; [by apply ac_ledger_leader|].
    destruct (ac_leads Hr) as [(_ & _ & Hd & Hx)|(Hd & _)]; [|congruence].
    by assert (L = log n) as -> by congruence.
  - intros v t j Ha. by left.
  - cbn. case_decide as Hd; [|done]. destruct Hd as [Hpos Hd].
    destruct (arrived H !! (id, T')) as [L|] eqn:HLa; [|by apply insert_subseteq].
    rewrite insert_id; [done|]. rewrite HLa. f_equal.
    destruct (cf_arrived _ _ _ _ Hcs _ _ _ HLa) as (m & Hm & Ht). assert (m = n) as -> by congruence.
    assert (T' = T) as Heq by (pose proof ac_term; lia).
    rewrite (ac_quiet Hd). rewrite Heq in *.
    pose proof (ns_arrived _ _ _ _ ac_node Hpos Hd). congruence.
Qed.

Lemma ac_acked v t j : acked H' v t j -> v <> id \/ t < T' -> acked H v t j.
Proof. intros [?|(-> & -> & _)]; [done|]. intros [?|?]; [done|lia]. Qed.

(** What the node shares with its leader, it keeps. *)
Lemma ac_keeps k e :
  lv_log (log n) !! k = Some e ->
  (forall L, ledger H !! T' = Some L -> lv_log L !! k = Some e) ->
  lv_log (log n') !! k = Some e.
Proof.
  intros Hk HLk. destruct ac_change as [->|[(req & Hi & Ht & Hm & ->)|(p & _ & Hr & Hs & ->)]]; [done|..].
  - destruct (ac_accepted req Hi Ht Hm) as (Hte & Hlate & LU & Ha).
    apply (ap_keeps _ _ _ _ _ Ha); [done|done|]. apply HLk. rewrite Hte. apply Ha.
  - assert (0 < k <= lv_last (log n)) by (apply (whole_dom _ _ ac_whole); eauto).
    rewrite spec_append_lookup. cbn [le_index proposed].
    by rewrite (proj2 (N.ltb_lt _ _)) by lia.
Qed.

Lemma ac_covers : covers H' id T' (log n').
Proof.
  intros t k e Ht (j & L' & Ha & Hkj & HL' & He) Hlast.
  destruct Ha as [Ha|(_ & -> & L & HLd & _ & Hag)].
  2:{ assert (L = L') as -> by (cbn in HL'; congruence). by rewrite Hag. }
  pose proof (stored_at V E H H' id t j k e L' ac_hist ac_grows Ha Hkj HL' He) as Hst.
  pose proof (lasting_before V E H H' t k e T' ac_hist ac_grows
                (stored_term V E H id t k e ac_hist Hst) Hlast) as Hl.
  pose proof (ns_acked _ _ _ _ ac_node _ _ Ha) as HtT. pose proof ac_term as HTT.
  apply ac_keeps.
  - apply (ns_covers _ _ _ _ ac_node t); [done|done|].
    intros U L HU. apply Hl. lia.
  - intros L HL0. destruct (decide (t = T')) as [->|Hne].
    + destruct Hst as (j' & L1 & _ & _ & HL1 & ?). congruence.
    + apply (Hl T'); [lia|done].
Qed.

Lemma ac_self : role (sm n') = Leader -> acked H' id T' (lv_last (log n')).
Proof.
  intros Hr. right. split; [done|]. split; [done|]. exists (log n').
  split; [by apply ac_ledger_leader|done].
Qed.

Lemma ac_match :
  role (sm n') = Leader -> forall peer p, progress (sm n') !! peer = Some p ->
    peer ∈ cfg_peers (config n') /\ (match_index p = 0 \/ acked H' peer T' (match_index p)).
Proof.
  intros Hr peer p' Hp'.
  destruct (cs_match _ _ _ ac_commit Hr peer p' Hp') as [[? ?]|(Hr' & Ht & p & Hp & Hm)];
    [by split; [|left]|].
  destruct (ns_match _ _ _ _ ac_node Hr' peer p Hp) as [Hin Hold].
  rewrite ac_config. split; [done|]. rewrite Ht. rewrite <- Ht in Hold.
  assert (match_index p = 0 \/ acked H' peer T (match_index p)) as Hold'.
  { destruct Hold as [?|Ha]; [by left|right]. rewrite <- Ht. by apply ac_grows. }
  destruct Hm as [->|(li & r & Hi & Hs & Hle & ->)]; [done|].
  pose proof Hord as Ho. pose proof Hdel as Hd. rewrite Hi in Ho, Hd. cbn in Ho, Hd.
  assert (aer_term r = T) as Heq by (specialize (Ho Hr' Hs); lia).
  destruct (N.max_spec (match_index p) li) as [[_ ->]|[_ ->]]; [|done].
  right. apply ac_grows. rewrite <- Heq. by apply Hd.
Qed.

(** The commit rule commits. *)
Lemma ac_committed c e :
  role (sm n') = Leader -> 0 < c -> node_committable n' c -> lv_log (log n') !! c = Some e ->
  committed V H' T' c e.
Proof.
  intros Hr Hc0 [Ht Hq] He.
  assert (c <= lv_last (log n')) as Hcl by (apply (whole_dom _ _ ac_whole'); eauto).
  set (ps := filter (fun kp => c <= match_index kp.2) (progress (sm n'))).
  assert (forall v, v ∈ dom ps -> v ∈ cfg_peers (config n') /\ exists j, c <= j /\ acked H' v T' j)
    as Hps.
  { intros v [p Hv]%elem_of_dom. apply map_lookup_filter_Some in Hv as [Hv Hle]. cbn in Hle.
    destruct (ac_match Hr v p Hv) as [Hin [Hz|Ha]]; [lia|]. split; [done|]. by exists (match_index p). }
  pose proof ac_inv' as Hi. pose proof (ni_wf _ _ _ Hi) as Hwf.
  pose proof (quorum_majority _ Hwf) as Hmaj. rewrite (ni_members _ _ _ Hi) in Hmaj.
  exists (log n'), ({[id]} ∪ dom ps). split; [by apply ac_ledger_leader|]. split; [done|].
  split; [|split; [split|]].
  - injection Ht as Ht. by rewrite term_at_whole, He in Ht by apply ac_whole'.
  - rewrite <- (ni_members _ _ _ Hi), <- (ni_id _ _ _ Hi). unfold members.
    intros v. rewrite !elem_of_union, elem_of_list_to_set. intros [?|Hv]; [by left|right].
    by apply Hps.
  - rewrite size_union, size_singleton, size_dom.
    + unfold replicated_on in Hq. fold ps in Hq. lia.
    + intros v ->%elem_of_singleton Hv. apply Hps in Hv as [Hv _].
      rewrite <- (ni_id _ _ _ Hi) in Hv. by apply Hwf.
  - intros v [->%elem_of_singleton|Hv]%elem_of_union; [|by apply Hps].
    exists (lv_last (log n')). split; [done|by apply ac_self].
Qed.

(** Committed entries of the node's log stay. *)
Lemma ac_commit_kept j :
  0 < j <= commit_index (sm n) ->
  exists e, lv_log (log n') !! j = Some e /\ safe V H' T' j e.
Proof.
  intros [Hj0 Hj]. pose proof (ns_last _ _ _ _ ac_node) as Hl.
  assert (is_Some (lv_log (log n) !! j)) as [e He] by (apply (whole_dom _ _ ac_whole); lia).
  pose proof (ns_commit _ _ _ _ ac_node j e Hj He) as Hs.
  exists e. split; [|by apply (safe_grows V E H H' T T' j e ac_hist ac_grows ac_term)].
  apply ac_keeps; [done|]. intros L HL0.
  by apply (safe_in_ledger V E H T T' j e L ac_hist Hs ac_term).
Qed.

Lemma ac_commits :
  commit_index (sm n') = commit_index (sm n) \/
  (exists req, i = InAppendEntries req /\ T <= ae_term req /\ prev_matches (log n) req = true /\
     log n' = spec_append (log n) (new_entries req) /\
     commit_index (sm n') = commit_after (log n') req (commit_index (sm n))) \/
  (role (sm n') = Leader /\ commit_index (sm n) < commit_index (sm n') <= lv_last (log n') /\
     node_committable n' (commit_index (sm n'))).
Proof.
  pose proof (cs_change _ _ _ ac_commit) as Hc. clear -Hc. destruct Hc as [j m|req m|j m]; auto.
  right. left. by exists req.
Qed.

Lemma ac_commit_safe :
  commit_index (sm n') <= lv_last (log n') /\
  forall j e, j <= commit_index (sm n') -> lv_log (log n') !! j = Some e -> safe V H' T' j e.
Proof.
  assert (commit_index (sm n) <= lv_last (log n')) as Hl.
  { destruct (N.eq_0_gt_0_cases (commit_index (sm n))) as [->|Hpos]; [lia|].
    destruct (ac_commit_kept (commit_index (sm n))) as (e & He & _); [lia|].
    apply (whole_dom _ _ ac_whole'). eauto. }
  assert (forall j e, j <= commit_index (sm n) -> lv_log (log n') !! j = Some e ->
    safe V H' T' j e) as Hold.
  { intros j e Hj He. assert (0 < j <= lv_last (log n')) by (apply (whole_dom _ _ ac_whole'); eauto).
    destruct (ac_commit_kept j) as (e' & He' & Hs); [lia|]. congruence. }
  destruct ac_commits as [Heq|[(req & Hi & Ht & Hm & Hln & Heq)|(Hr & Hci & Hcm)]].
  - by rewrite Heq.
  - rewrite Heq. unfold commit_after. destruct (N.ltb_spec (commit_index (sm n)) (ae_leader_commit req));
      [|done]. split; [lia|]. intros k e Hk He.
    destruct (ac_accepted req Hi Ht Hm) as (Hte & _ & LU & Ha).
    rewrite Hln in *. rewrite Hte. apply (safe_grows V E H H' (ae_term req)); [apply ac_hist|apply ac_grows|done|].
    apply (ap_safe _ _ _ _ _ Ha); [lia| |done].
    destruct (ap_commit _ _ _ _ _ Ha) as [?|Hne]; [lia|].
    rewrite (ap_last _ _ _ _ _ Ha Hne) in Hk. lia.
  - split; [lia|]. intros k e Hk He.
    assert (is_Some (lv_log (log n') !! commit_index (sm n'))) as [x Hx]
      by (apply (whole_dom _ _ ac_whole'); lia).
    exists T', (commit_index (sm n')), x, (log n'). split; [done|]. split; [done|].
    split; [apply ac_committed; (done || lia)|]. split; [by apply ac_ledger_leader|done].
Qed.

Lemma ac_terms : terms_upto T' (log n').
Proof.
  pose proof (ns_terms _ _ _ _ ac_node) as Ht. pose proof ac_term as HTT.
  destruct ac_change as [->|[(req & Hi & Hge & Hm & Hl)|(p & _ & _ & Hs & ->)]]; intros j e He.
  - specialize (Ht j e He). lia.
  - destruct (ac_accepted req Hi Hge Hm) as (Hte & _ & LU & Ha). rewrite Hl in He.
    destruct (ho_ledger _ _ _ ac_hist _ _ (ap_ledger _ _ _ _ _ Ha)) as (_ & _ & _ & Hup & _).
    destruct (decide (new_entries req = [])) as [Hn|Hn];
      [rewrite Hn in He; specialize (Ht j e He); lia|].
    rewrite Hte. apply (Hup j). rewrite <- (ap_agree _ _ _ _ _ Ha); [done|].
    rewrite <- (ap_last _ _ _ _ _ Ha Hn), <- Hl. apply (whole_dom _ _ ac_whole').
    rewrite Hl. eauto.
  - rewrite spec_append_lookup in He. case_match; [specialize (Ht j e He); lia|].
    rewrite Hs. destruct (N.to_nat _) as [|k]; [|done]. by injection He as <-.
Qed.

Lemma ac_applied e : ApplyEntry e ∈ effects n' -> safe V H' T' (le_index e) e.
Proof.
  intros He. destruct (cs_applied _ _ _ ac_commit e He) as [Hold|[Hl Hc]].
  - apply (safe_grows V E H H' T T'); [apply ac_hist|apply ac_grows|apply ac_term|].
    by eapply ns_applied; [apply ac_node|].
  - by apply ac_commit_safe.
Qed.

(** The votes the node counts, when it comes to count them. *)
Lemma ac_votes :
  role (sm n') <> Follower -> standing n' = standing n \/
  forall v, v ∈ votes_received (sm n') -> is_Some (ledger H !! T') \/ vote_ok H' v T' id.
Proof.
  intros Hr. pose proof (proj1 (takes_admissible n i Htk)) as Ha.
  assert (i = InRestart \/ i <> InRestart) as [Hi|Hi] by (destruct i; auto).
  { destruct (restart_elect n) as [Hf _]. rewrite <- Hi, <- Hn' in Hf. done. }
  pose proof (handle_elect i n Ha Hi) as He. rewrite <- Hn' in He.
  destruct He as [Hf _|Hs|_ (Ht & Hv & _) _|peer r Hir (Hg & Hle & Hcand & Hbal & Hv & _)];
    [done|by left|right..].
  - intros v. rewrite Hv. intros ->%elem_of_singleton.
    assert (is_Some (ledger H !! T') \/ ledger H !! T' = None) as [?|Hd]
      by (destruct (ledger H !! T'); eauto); [by left|right].
    rewrite (ni_id _ _ _ ac_inv). exists (log n'), (log n').
    assert (0 < T') by lia. split; [by apply ac_arrived_new|]. split; [by apply ac_arrived_new|].
    unfold up_to_date. by rewrite N.eqb_refl, N.leb_refl, orb_true_r.
  - intros v. unfold ballot in Hbal. injection Hbal as Ht _. rewrite Hv, Ht.
    pose proof Hord as Ho. pose proof Hdel as Hd. rewrite Hir in Ho, Hd. cbn in Ho, Hd.
    assert (rvr_term r = T) as Heq by (specialize (Ho Hcand Hg); lia).
    intros [->%elem_of_singleton|Hin]%elem_of_union.
    + rewrite <- Heq. destruct (Hd Hg) as [?|?]; [by left|right].
      by eapply vote_ok_grows; [apply ac_grows|].
    + destruct (ns_votes _ _ _ _ ac_node Hcand v Hin) as [?|?]; [by left|right].
      by eapply vote_ok_grows; [apply ac_grows|].
Qed.

Lemma ac_backed :
  role (sm n') = Candidate -> forall v, v ∈ votes_received (sm n') -> backed H' v T' id.
Proof.
  intros Hr v Hv. destruct ac_votes as [Hs|Hall]; [congruence|..].
  - unfold standing in Hs. injection Hs as Ht Hro Hvr _. rewrite Ht.
    eapply backed_grows; [apply ac_grows|].
    apply (ns_votes _ _ _ _ ac_node); congruence.
  - destruct (Hall v Hv) as [Hd|Hok]; [|by right].
    assert (backed H v T' id) as Hb by by left. eapply backed_grows; [apply ac_grows|done].
Qed.

Lemma ac_elected : role (sm n') = Leader -> elected V H' T' (log n').
Proof.
  intros Hr. pose proof (ri_active _ _ _ _ _ _ ac_replica') as Hpos.
  destruct (ac_leads Hr) as [(_ & _ & Hd & Hx)|(Hd & Hl & Hwin)].
  - destruct (ho_ledger _ _ _ ac_hist _ _ Hd) as (_ & _ & _ & _ & Hel).
    eapply elected_grows; [apply ac_grows|done|done].
  - pose proof ac_inv' as Hi. exists id, (log n'), (votes_received (sm n')).
    split; [apply ac_arrived_new; [apply Hpos; congruence|done]|].
    split; [apply extends_refl, ac_whole'|].
    assert (cluster_inv V (cluster_of w') B') as Hc by apply Hw'.
    split; [split|].
    + intros v Hv. eapply (ci_backed _ _ _ Hc id n'); [apply lookup_insert_eq|congruence|done].
    + pose proof (ni_quorum _ _ _ Hi Hr) as Hq.
      pose proof (quorum_majority _ (ni_wf _ _ _ Hi)) as Hm. rewrite (ni_members _ _ _ Hi) in Hm. lia.
    + intros v Hv. destruct ac_votes as [Hs|Hall]; [congruence|..].
      * unfold standing in Hs. injection Hs as Ht Hro _ _.
        destruct Hwin as [(_ & Hcand & _)|[_ Ht']]; [congruence|lia].
      * destruct (Hall v Hv) as [[L HLd]|?]; [congruence|done].
Qed.

Lemma ac_asked peer req : SpawnRequestVote peer req ∈ effects n' -> asked_ok H' req.
Proof.
  intros Hin. assert (SpawnRequestVote peer req ∈ effects n ->
    asked_ok H' req) as Hold.
  { intros Hold. eapply asked_ok_grows; [apply ac_grows|]. by eapply ns_asked; [apply ac_node|]. }
  pose proof (proj1 (takes_admissible n i Htk)) as Ha.
  assert (i = InRestart \/ i <> InRestart) as [Hi|Hi] by (destruct i; auto).
  { apply Hold. destruct (restart_elect n) as [_ He]. rewrite <- Hi, <- Hn' in He. congruence. }
  assert (votes_asked n' = votes_asked n -> asked_ok H' req) as Hsame.
  { intros Heq. apply Hold. by rewrite elem_of_votes_asked, <- Heq, <- elem_of_votes_asked. }
  pose proof (handle_elect i n Ha Hi) as He. rewrite <- Hn' in He.
  destruct He as [_ Hs|Hs|Hit _ _|peer' r _ (_ & _ & _ & _ & _ & _ & Hs)]; auto.
  { apply Hsame. unfold standing in Hs. congruence. }
  pose proof Htk as Hu. rewrite Hit in Hu. cbn in Hu.
  destruct (start_election_run n (rd_log _ (ri_ready _ _ _ _ _ _ ac_replica)) Hu)
    as (n1 & Hr & _ & _ & Hl & Hs & He & _).
  assert (n' = n1) as Hn1 by (rewrite Hn', Hit, (handled _ _ start_election), Hr by done; done).
  rewrite Hn1, He in Hin. rewrite !elem_of_app in Hin.
  destruct Hin as [?|[Hin|[Hin|Hin]]]; [by apply Hold| | |].
  - repeat apply elem_of_cons in Hin as [Hin|Hin]; [done|done|by apply not_elem_of_nil in Hin].
  - apply list_elem_of_fmap in Hin as (q & [= -> ->] & _). unfold asked_ok. cbn.
    rewrite (ni_id _ _ _ ac_inv).
    assert (T' = T + 1) as <- by (rewrite Hn1, Hs; by case_bool_decide).
    assert ((exists L, ledger H !! T' = Some L) \/ ledger H !! T' = None) as [[L Hd]|Hd]
      by (destruct (ledger H !! T'); eauto).
    + left. destruct (gr_ledger _ _ ac_grows _ _ Hd) as (L' & HL' & _). by exists L'.
    + right. exists (log n'). split; [|by rewrite Hn1, Hl].
      apply ac_arrived_new; [|done]. pose proof ac_term. rewrite Hn1, Hs. case_bool_decide; cbn; lia.
  - case_bool_decide; [|by apply not_elem_of_nil in Hin].
    by apply list_elem_of_singleton in Hin.
Qed.

Lemma ac_sent peer req li : SpawnAppendEntries peer req li ∈ effects n' -> append_ok V E' H' req.
Proof.
  intros Hin. destruct (ls_sent _ _ _ ac_log) as (es & Hs & Hes).
  assert (SpawnAppendEntries peer req li ∈ sent n') as Hin' by by apply elem_of_sent.
  rewrite Hs in Hin'. apply elem_of_app in Hin' as [Hold|Hin'].
  - apply elem_of_sent in Hold as [_ Hold].
    eapply append_ok_grows; [apply ac_hist|apply ac_grows|done|].
    by eapply ns_sent; [apply ac_node|].
  - pose proof (proj1 (Forall_forall _ _) Hes _ Hin')
      as (Hr & Ht & _ & Hci & next & H1 & _ & Hsf & _).
    destruct ac_commit_safe as [Hcl Hcs'].
    exists (log n'), next, (log n'). rewrite Ht. split; [by apply ac_ledger_leader|].
    split; [apply extends_refl, ac_whole'|]. split; [apply ac_whole'|].
    split; [apply ac_replica'|]. do 2 (split; [done|]). split; [lia|].
    intros j e Hj. apply Hcs'. lia.
Qed.

Lemma ac_node_ok : node_ok n'.
Proof.
  assert (input_ok n i) as Hi.
  2:{ destruct (handle_node_ok i n (ns_ok _ _ _ _ ac_node) Hi) as (r & m & Hr & Hm).
      by rewrite Hn', Hr. }
  assert (forall req, i = InAppendEntries req -> input_ok n (InAppendEntries req)) as Happ.
  { intros req Hi. split; [by rewrite Hi in Htk|]. intros Hge Hm.
    pose proof (ok_indices _ (ns_ok _ _ _ _ ac_node)) as [Hla _].
    unfold commit_after. destruct (N.ltb_spec (commit_index (sm n)) (ae_leader_commit req)); [|done].
    assert (commit_index (sm n) <= lv_last (log n')) as Hcl.
    { destruct (N.eq_0_gt_0_cases (commit_index (sm n))) as [->|Hpos]; [lia|].
      destruct (ac_commit_kept (commit_index (sm n))) as (e & He & _); [lia|].
      apply (whole_dom _ _ ac_whole'). eauto. }
    rewrite <- (accepted_log req n), <- Hi, <- Hn'; try done; [lia|apply ac_replica..|].
    rewrite Hi in Htk. exact Htk. }
  pose proof Htk as Ht. destruct i; first [by apply Happ|done|exact Ht].
Qed.

Lemma ac_node_safe : node_safe E' H' id n'.
Proof.
  split.
  - apply ac_node_ok.
  - apply ac_terms.
  - apply ac_ledger_leader.
  - apply ac_self.
  - apply ac_covers.
  - intros t j Ha. destruct (N.le_gt_cases t T') as [|Hgt]; [done|].
    destruct Ha as [Ha|(_ & -> & _)]; [|done].
    pose proof (ns_acked _ _ _ _ ac_node _ _ Ha). pose proof ac_term. lia.
  - apply ac_commit_safe.
  - apply ac_commit_safe.
  - apply ac_applied.
  - apply ac_match.
  - apply ac_backed.
  - apply ac_asked.
  - apply ac_sent.
  - intros Hpos Hd. apply ac_arrived_new; [done|].
    apply eq_None_not_Some. intros [L HLd].
    destruct (gr_ledger _ _ ac_grows _ _ HLd) as (L' & HL' & _). congruence.
Qed.

(** The log a node comes to a term with, before the term has a leader. *)
Lemma ac_arrived_ok :
  0 < T' -> ledger H !! T' = None ->
  terms_upto (T' - 1) (log n') /\ covers H' id (T' - 1) (log n').
Proof.
  intros Hpos Hd. pose proof (ac_quiet Hd) as Hl. split.
  - intros j e He. pose proof (ac_terms j e He). rewrite Hl in He.
    destruct (ho_origin _ _ _ ac_hist _ _ _ _ (ri_chain _ _ _ _ _ _ ac_replica _ _ He))
      as (_ & L & HLd & _).
    assert (le_term e <> T') by congruence. lia.
  - apply (covers_grows V E H); [apply ac_hist|apply ac_grows| |].
    { intros t j Ht Ha. apply ac_acked; [done|right; lia]. }
    rewrite Hl. intros t k e Ht Hst Hlast. apply (ns_covers _ _ _ _ ac_node t k e).
    + destruct Hst as (j & _ & Ha & _). by eapply ns_acked; [apply ac_node|].
    + done.
    + intros U L HU HLd. pose proof ac_term. apply (Hlast U L); [|done].
      assert (U <> T') by congruence. lia.
Qed.

Lemma ac_history : history_ok V E' H'.
Proof.
  split.
  - apply Hw'.
  - intros j t e pt Ho. destruct (Hnew _ _ _ _ Ho) as [Ho'|(-> & Hr & Hs & He & _ & ->)].
    + destruct (ho_origin _ _ _ ac_hist _ _ _ _ Ho') as (Hpt & L & HLd & He). split; [done|].
      apply (ledger_lookup_grows V E H H' t L j e ac_hist ac_grows HLd He).
    + split.
      * rewrite term_at_whole by apply ac_whole. case_match eqn:Hx; [|lia].
        rewrite Hs. by apply (ns_terms _ _ _ _ ac_node _ _ Hx).
      * exists (log n'). split; [|done]. apply ac_ledger_leader. by rewrite Hs.
  - intros t L HLd. destruct (decide (t = T' /\ role (sm n') = Leader)) as [[-> Hr]|Hne].
    + assert (L = log n') as -> by (pose proof (ac_ledger_leader Hr); congruence).
      split; [apply (ri_active _ _ _ _ _ _ ac_replica'); congruence|].
      split; [apply ac_whole'|]. split; [apply ac_replica'|]. split; [apply ac_terms|by apply ac_elected].
    + rewrite ac_ledger_other in HLd by (destruct (decide (t = T')); tauto).
      destruct (ho_ledger _ _ _ ac_hist _ _ HLd) as (H1 & H2 & H3 & H4 & H5).
      split; [done|]. split; [done|]. split; [by eapply chain_more|]. split; [done|].
      eapply elected_grows; [apply ac_grows|by apply extends_refl|done].
  - intros v t j [Ha|(_ & -> & L & HLd & Hj & _)]; [|by exists L].
    destruct (ho_acked _ _ _ ac_hist _ _ _ Ha) as (L & HLd & Hj).
    destruct (gr_ledger _ _ ac_grows _ _ HLd) as (L' & HL' & Hx & _). exists L'. split; [done|lia].
  - intros v t L HLa.
    assert (arrived H !! (v, t) = Some L \/
      (v, t) = (id, T') /\ L = log n' /\ 0 < T' /\ ledger H !! T' = None) as [Hold|Hnew'].
    { cbn in HLa. case_decide as Hd; [|by left].
      apply lookup_insert_Some in HLa as [[<- <-]|[_ ?]]; [by right|by left]. }
    + destruct (ho_arrived _ _ _ ac_hist _ _ _ Hold) as (H1 & H2 & H3 & H4 & H5).
      split; [done|]. split; [done|]. split; [by eapply chain_more|]. split; [done|].
      apply (covers_grows V E H); [apply ac_hist|apply ac_grows| |done].
      intros u j Hu Ha. apply ac_acked; [done|]. destruct (decide (v = id)) as [->|]; [right|by left].
      destruct (cf_arrived _ _ _ _ Hcs _ _ _ Hold) as (m & Hm & Ht).
      assert (m = n) as -> by congruence. pose proof ac_term. lia.
    + destruct Hnew' as ([= -> ->] & -> & Hpos & Hd).
      split; [done|]. split; [apply ac_whole'|]. split; [apply ac_replica'|]. by apply ac_arrived_ok.
Qed.

(** The other nodes. *)
Lemma ac_other a m : a <> id -> replicas w !! a = Some m -> node_safe E' H' a m.
Proof.
  intros Hne Hm. pose proof ac_grows as Hg. pose proof ac_hist as Hok.
  assert (replicas w' !! a = Some m) as Hm' by (cbn; by rewrite lookup_insert_ne).
  destruct (cf_node _ _ _ _ Hcs a m Hm) as
    [N1 N2 N3 N4 N5 N6 N7 N8 N9 N10 N11 N12 N13 N14]. split; try done.
  - intros Hr. rewrite ac_ledger_other; [by apply N3|].
    destruct (decide (current_term (sm m) = T')) as [Heq|]; [right|by left].
    intros Hr'. apply Hne. apply (won_unique V B' T').
    + rewrite <- Heq. by eapply leader_won; [apply Hw'|..].
    + by eapply leader_won; [apply Hw'|apply lookup_insert_eq|].
  - intros Hr. by apply Hg, N4.
  - eapply covers_grows; [done|done| |done]. intros t j _ Ha. apply ac_acked; [done|by left].
  - intros t j Ha. apply (N6 t j). apply ac_acked; [done|by left].
  - intros j e Hj He. eapply safe_grows; [done|done|done|by apply N8].
  - intros e He. eapply safe_grows; [done|done|done|by apply N9].
  - intros Hr peer p Hp. destruct (N10 Hr peer p Hp) as [? [?|?]]; split; auto.
    right. by apply Hg.
  - intros Hr v Hv. eapply backed_grows; [done|by apply N11].
  - intros peer req He. eapply asked_ok_grows; [done|by eapply N12].
  - intros peer req li He. eapply append_ok_grows; [done|done|done|by eapply N13].
  - intros Hpos Hd. assert (ledger H !! current_term (sm m) = None) as Hd'.
    { apply eq_None_not_Some. intros [L HLd].
      destruct (gr_ledger _ _ Hg _ _ HLd) as (L' & HL' & _). congruence. }
    eapply lookup_weaken; [by apply N14|apply Hg].
Qed.

(** A step of one node keeps the invariant, if the answers it adds to the queues
    are true. *)
Lemma ac_cluster_safe :
  (forall a msg, (a, msg) ∈ box -> (a, msg) ∈ inbox w \/ delivered E' H' a (InMessage msg)) ->
  cluster_safe w' B' E' H'.
Proof.
  intros Hbox. pose proof ac_grows as Hg. split.
  - done.
  - apply ac_history.
  - intros a m Hm. cbn in Hm. apply lookup_insert_Some in Hm as [[<- <-]|[Hne Hm]];
      [apply ac_node_safe|by apply ac_other].
  - intros t L HLd. destruct (decide (t = T' /\ role (sm n') = Leader)) as [[-> Hr]|Hne].
    + right. exists id, n'. split; [apply lookup_insert_eq|].
      split; [by eapply leader_won; [apply Hw'|apply lookup_insert_eq|]|].
      split; [done|]. intros _. by rewrite Hr.
    + rewrite ac_ledger_other in HLd by (destruct (decide (t = T')); tauto).
      eapply creator_step; [done|done|apply ac_role|]. by eapply cf_creator.
  - intros v t L HLa.
    assert (arrived H !! (v, t) = Some L \/ (v, t) = (id, T')) as [Hold|[= -> ->]].
    { cbn in HLa. case_decide as Hd; [|by left].
      apply lookup_insert_Some in HLa as [[? _]|[_ ?]]; [by right|by left]. }
    + destruct (cf_arrived _ _ _ _ Hcs _ _ _ Hold) as (m & Hm & Ht). cbn.
      destruct (decide (v = id)) as [->|Hne].
      * exists n'. rewrite lookup_insert_eq. split; [done|]. assert (m = n) as -> by congruence.
        pose proof ac_term. lia.
      * exists m. by rewrite lookup_insert_ne.
    + exists n'. split; [apply lookup_insert_eq|done].
  - intros a msg Hin. destruct (Hbox a msg Hin) as [Hold|?]; [|done].
    eapply delivered_grows; [apply ac_hist|done|done|]. by eapply cf_inbox.
Qed.

(** A success: the node has the leader's log up to the last entry sent. *)
Lemma ac_append_answer req r :
  i = InAppendEntries req -> (handle i n).1 = Done (ReplyAppend (Ok r)) -> aer_success r = true ->
  acked H' id (aer_term r) (last_sent req).
Proof.
  intros Hi Hr Hs. pose proof Htk as Hf. rewrite Hi in Hf, Hr. cbn in Hf.
  destruct (on_append_entries_run n req (rd_log _ (ri_ready _ _ _ _ _ _ ac_replica))
              (ni_persisted _ _ _ ac_inv) Hf) as (n1 & r1 & Hrun & _ & _ & _ & _ & Hcase).
  cbn [handle] in Hr. unfold bind in Hr. rewrite Hrun in Hr. cbn in Hr. injection Hr as ->.
  destruct (N.ltb_spec (ae_term req) T) as [Hlt|Hge]; [by destruct Hcase as [_ ->]|].
  destruct (prev_matches (log n) req) eqn:Hm;
    [|by destruct Hcase as ((ci & ct & -> & _) & _)].
  destruct Hcase as (-> & _ & _). destruct (ac_accepted req Hi Hge Hm) as (Hte & _ & LU & Ha).
  cbn [aer_term]. replace (N.max T (ae_term req)) with T' by lia.
  right. split; [done|]. split; [done|].
  assert (log n' = spec_append (log n) (new_entries req)) as Hl.
  { rewrite Hn', Hi. apply accepted_log; try done; [apply ac_replica|apply ac_inv]. }
  destruct (gr_ledger _ _ ac_grows _ _ (ap_ledger _ _ _ _ _ Ha)) as (L & HLd & Hx & Hp & _).
  rewrite <- Hte in HLd. exists L. split; [exact HLd|].
  pose proof (ap_within _ _ _ _ _ Ha). split; [lia|]. intros j Hj.
  rewrite Hl, (ap_agree _ _ _ _ _ Ha) by done. apply Hp. lia.
Qed.

(** A granted vote. *)
Lemma ac_vote_answer req r :
  i = InRequestVote req -> (handle i n).1 = Done (ReplyVote (Ok r)) -> rvr_vote_granted r = true ->
  backed H' id (rvr_term r) (rv_candidate_id req).
Proof.
  intros Hi Hr Hg. pose proof Hdel as Hd. rewrite Hi in Hd, Hr. cbn in Hd.
  destruct (on_request_vote_run n req (rd_log _ (ri_ready _ _ _ _ _ _ ac_replica))
              (or_introl (ni_persisted _ _ _ ac_inv))) as (n1 & Hrun & Hs & _ & _ & Hl & _).
  assert (n' = n1) as Hn1 by (rewrite Hn', Hi; cbn [handle]; by rewrite after_reply, Hrun).
  cbn [handle] in Hr. unfold bind in Hr. rewrite Hrun in Hr. cbn in Hr. injection Hr as <-.
  cbn [rvr_term rvr_vote_granted] in *. pose proof Hg as Hgr. unfold grants in Hgr.
  apply andb_true_iff in Hgr as [Hgr Hutd]. apply andb_true_iff in Hgr as [Hge _].
  apply N.leb_le in Hge.
  assert (T' = rv_term req) as Ht.
  { rewrite Hn1, Hs, Hg. cbn. rewrite observed_sm_term. lia. }
  replace (N.max T (rv_term req)) with T' by lia.
  destruct Hd as [Hd|(L & HLa & Hli & Hlt)].
  - rewrite <- Ht in Hd. eapply backed_grows; [apply ac_grows|by left].
  - rewrite <- Ht in HLa.
    assert (is_Some (ledger H !! T') \/ ledger H !! T' = None) as [?|Hd]
      by (destruct (ledger H !! T'); eauto).
    { eapply backed_grows; [apply ac_grows|by left]. }
    right. exists L, (log n'). split; [by eapply lookup_weaken; [|apply ac_grows]|].
    split; [|by rewrite Hn1, Hl, <- Hlt, <- Hli].
    apply ac_arrived_new; [|done]. by apply (ho_arrived _ _ _ ac_hist _ _ _ HLa).
Qed.

(** The commit index does not go back, and the entries up to it stay. *)
Lemma ac_commit_stays j :
  0 < j <= commit_index (sm n) ->
  j <= commit_index (sm n') /\ lv_log (log n') !! j = lv_log (log n) !! j.
Proof.
  intros Hj. destruct (ac_commit_kept (commit_index (sm n))) as (x & Hx & _); [lia|].
  assert (0 < commit_index (sm n) <= lv_last (log n')) by (apply (whole_dom _ _ ac_whole'); eauto).
  split.
  - destruct ac_commits as [->|[(req & _ & _ & _ & _ & ->)|(_ & ? & _)]]; [lia| |lia].
    unfold commit_after. destruct (N.ltb_spec (commit_index (sm n)) (ae_leader_commit req)); lia.
  - pose proof (ns_last _ _ _ _ ac_node) as Hl.
    assert (is_Some (lv_log (log n) !! j)) as [e He] by (apply (whole_dom _ _ ac_whole); lia).
    rewrite He. apply ac_keeps; [done|]. intros L HLd.
    eapply safe_in_ledger; [apply ac_hist| |apply ac_term|done].
    apply (ns_commit _ _ _ _ ac_node); [lia|done].
Qed.
End acting.
End invariant.
