(* ===== verification/Safety.v ===== *)
(** * State Machine Safety of the whole cluster

    Executions of [Ensemble] from fresh nodes in which messages keep to an
    order ([Orderly]): no vote of an earlier term is counted, no success of an
    earlier term is counted, and no AppendEntries that a node accepts ends at an
    entry the node already has with more of its log behind it. The code does not
    enforce these ([Cluster], [Matching] and [Disorder] have the executions that
    break them); within them it makes well-formed histories ([History],
    [SafetyInvariant]), and so no two nodes ever apply different entries at one
    index. A restart is one step here; [Restarts] takes it apart and states the
    theorems. *)

From Stdlib Require Import Lia Init.Byte.
From stdpp Require Import base numbers list option gmap sets fin_maps strings.
From S2P Require Import Prelude.
From S2P Require Import Core.
From S2P Require Import Proto.
From S2P Require Import Storage.
From S2P Require Import MemStorage.
From S2P Require Import StateMachine.
From S2P Require Import Node.
From S2P Require Import Handlers.
From S2P Require Import NodeLog.
From S2P Require Import Cluster.
From S2P Require Import AppendEntries.
From S2P Require Import LogSteps.
From S2P Require Import Ensemble.
From S2P Require Import Matching.
From S2P Require Import History.
From S2P Require Import Orderly.
From S2P Require Import SafetyInvariant.

(** ** A step of the cluster *)

Section invariant.
Context {prof : BuildProfile} {St : Type}
  `{HS : Storage St, HL : !LogStorage St, HD : !DurableStorage St}.
Context (V : gset NodeId).
Implicit Types (w : World St) (n : RaftNodeInner St) (H : History)
  (E : LogIndex -> Term -> LogEntry -> Term -> Prop) (B : gmap (NodeId * Term) NodeId).

(** The answer a task posts for node [id], which has handled [i]. *)
Definition new_answer (id : NodeId) n (i : Input) (a : NodeId) (msg : RaftMessage) : Prop :=
  (exists req r, i = InRequestVote req /\ (handle i n).1 = Done (ReplyVote (Ok r)) /\
     rv_candidate_id req = a /\ msg = VoteResponse id r) \/
  (exists req r, i = InAppendEntries req /\ (handle i n).1 = Done (ReplyAppend (Ok r)) /\
     msg = AppendResponse id (last_sent req) r).

(** One node has acted, on an input that keeps to the order. *)
Definition acts w B E H (id : NodeId) n (i : Input) : Prop :=
  replicas w !! id = Some n /\ takes n i /\ carried V 0 B E id i /\ orderly n i /\
  delivered V E H id i.

Lemma acts_safe w box B B' E H id n i :
  let w' := MkWorld (<[id := (handle i n).2]> (replicas w)) box in
  cluster_safe V w B E H -> acts w B E H id n i -> B ⊆ B' ->
  cluster_inv V (cluster_of w') B' -> (forall x, x ∈ box -> answer_ok x.2) ->
  (forall a msg, (a, msg) ∈ box -> (a, msg) ∈ inbox w \/ new_answer id n i a msg) ->
  exists E' H', grows H H' /\ cluster_safe V w' B' E' H' /\
    forall j, 0 < j <= commit_index (sm n) ->
      j <= commit_index (sm (handle i n).2) /\
      lv_log (log (handle i n).2) !! j = lv_log (log n) !! j.
Proof.
  intros w' Hcs (Hid & Htk & Hcar & Hord & Hdel) HB Hc' Hans Hbox.
  destruct (world_node_step V 0 w box B B' E id n i (cf_world _ _ _ _ _ Hcs) Hid Htk Hcar HB Hc' Hans)
    as (E' & HE & Hnew & Hw'). fold w' in Hw'.
  exists E', (next_history id (handle i n).2 H). split; [by eapply ac_grows|]. split.
  - eapply ac_cluster_safe; try done. intros a msg Hin.
    destruct (Hbox a msg Hin) as [?|[(req & r & Hi & Hr & Ha & ->)|(req & r & Hi & Hr & ->)]];
      [by left|right..]; intros Hs.
    + rewrite <- Ha. by eapply ac_vote_answer.
    + by eapply ac_append_answer.
  - intros j Hj. by eapply ac_commit_stays.
Qed.

(** What a task delivers. *)
Lemma task_acts w B E H src m e peer i n o :
  cluster_safe V w B E H -> replicas w !! src = Some m -> e ∈ effects m ->
  replicas w !! peer = Some n -> task_input e peer i n o -> orderly n i ->
  acts w B E H peer n i /\ (forall x, o = Some x -> answer_ok x) /\
  (forall x, o = Some x -> new_answer peer n i src x).
Proof.
  intros Hcs Hm He Hn Htask Hord. pose proof (cf_world _ _ _ _ _ Hcs) as Hw.
  destruct (task_fits V 0 w B E src m e peer i n o Hw Hm He Hn Htask) as (Htk & Hcar & Hans).
  pose proof (cf_node _ _ _ _ _ Hcs src m Hm) as Hs.
  pose proof (ci_node _ _ _ (wi_cluster _ _ _ _ _ Hw) src m Hm) as Hsi.
  destruct Htask as [Hreq Ho].
  destruct e as [p req|p req li|p req li| | | | | | |]; try done; injection Hreq as -> <-.
  - split; [|split; [done|]].
    + repeat (split; [done|]). by eapply ns_asked.
    + intros x. subst o. destruct (handle (InRequestVote req) n).1 as [[|[r|]| |]|] eqn:Hr; try done.
      intros [= <-]. left. exists req, r. rewrite Hr. repeat (split; [done|]). split; [|done].
      by apply (ni_asked _ _ _ Hsi peer).
  - assert (message_ok V 0 B E src (SpawnAppendEntries peer req li)) as (_ & _ & Hli).
    { apply (ri_sent _ _ _ _ _ _ (wi_node _ _ _ _ _ Hw src m Hm)). by apply elem_of_sent. }
    split; [|split; [done|]].
    + repeat (split; [done|]). by eapply ns_sent.
    + intros x. subst o. destruct (handle (InAppendEntries req) n).1 as [[[r|]| | |]|] eqn:Hr; try done.
      intros [= <-]. right. exists req, r. rewrite Hr. repeat (split; [done|]).
      rewrite Hli. unfold last_sent, nlen, new_entries. by rewrite length_map.
  - exfalso. assert (message_ok V 0 B E src (SpawnInstallSnapshot peer req li)); [|done].
    apply (ri_sent _ _ _ _ _ _ (wi_node _ _ _ _ _ Hw src m Hm)). by apply elem_of_sent.
Qed.

(** A node and what follows it: the entries it has committed stay. *)
Definition keeps_committed w w' : Prop :=
  forall id n, replicas w !! id = Some n -> exists n', replicas w' !! id = Some n' /\
    forall j, 0 < j <= commit_index (sm n) ->
      j <= commit_index (sm n') /\ lv_log (log n') !! j = lv_log (log n) !! j.

Lemma keeps_committed_insert w box id n n' :
  replicas w !! id = Some n ->
  (forall j, 0 < j <= commit_index (sm n) ->
     j <= commit_index (sm n') /\ lv_log (log n') !! j = lv_log (log n) !! j) ->
  keeps_committed w (MkWorld (<[id := n']> (replicas w)) box).
Proof.
  intros Hn Hk a m Hm. cbn. destruct (decide (a = id)) as [->|Hne].
  - exists n'. rewrite lookup_insert_eq. split; [done|]. by assert (m = n) as -> by congruence.
  - exists m. rewrite lookup_insert_ne by done. split; [done|]. intros j Hj. split; [lia|done].
Qed.

Lemma safety_step w w' B E H :
  cluster_safe V w B E H -> world_step orderly w w' ->
  exists B' E' H', grows H H' /\ cluster_safe V w' B' E' H' /\ keeps_committed w w'.
Proof.
  intros Hcs Hst. pose proof (cf_world _ _ _ _ _ Hcs) as Hw.
  assert (world_step fresh_votes w w') as Hst'
    by (eapply world_step_weaken; [|done]; apply orderly_fresh).
  assert (exists B', B ⊆ B' /\ cluster_inv V (cluster_of w') B') as (B' & HB & Hc').
  { destruct (world_step_refines w w' Hst') as [Hs| ->].
    - by eapply step_inv; [|apply Hw].
    - exists B. split; [done|apply Hw]. }
  destruct (world_step_acts V 0 w w' B E Hw Hst') as [Hans _].
  assert (forall box id n i, w' = MkWorld (<[id := (handle i n).2]> (replicas w)) box ->
    acts w B E H id n i ->
    (forall a msg, (a, msg) ∈ box -> (a, msg) ∈ inbox w \/ new_answer id n i a msg) ->
    exists B' E' H', grows H H' /\ cluster_safe V w' B' E' H' /\ keeps_committed w w') as Hact.
  { intros box id n i -> Ha Hbox.
    destruct (acts_safe w box B B' E H id n i Hcs Ha HB Hc' Hans Hbox) as (E' & H' & Hg & Hcs' & Hk).
    exists B', E', H'. split; [done|]. split; [done|]. apply (keeps_committed_insert _ _ _ n); [apply Ha|done]. }
  destruct Hst as [w1 id n i Hn Hi Ht|w1 src m e o ns Hm He Hf Hrun|w1 id msg n Hin Hn Hf].
  - eapply Hact; [done| |by left]. split; [done|]. split; [done|].
    split; [by intros req ->|]. by destruct i as [| | |[]| | |].
  - apply task_cases in Hrun as [[-> ->]|(peer & i & n & Hn & -> & Hcase)].
    + exists B, E, H. cbn. rewrite app_nil_r. split; [by eapply grows_refl, cf_history|].
      split; [by destruct w1|]. intros id n Hn. exists n. split; [done|]. intros j Hj. split; [lia|done].
    + destruct (task_acts w1 B E H src m e peer i n o Hcs Hm He Hn Hcase) as (Ha & _ & Hnew).
      { apply (Hf peer); [apply Hcase|done]. }
      eapply Hact; [done|done|]. intros a msg. rewrite elem_of_app. intros [?|Hin]; [by left|right].
      destruct o as [x|]; cbn in Hin; [|by apply not_elem_of_nil in Hin].
      apply list_elem_of_singleton in Hin as [= -> ->]. by apply Hnew.
  - eapply Hact; [done| |by left]. split; [done|].
    pose proof (wi_inbox _ _ _ _ _ Hw _ Hin) as Hok. cbn in Hok.
    split; [by destruct msg|]. split; [by intros req|]. split; [done|by eapply cf_inbox].
Qed.

Lemma safety_steps w w' B E H :
  world_steps orderly w w' -> cluster_safe V w B E H ->
  exists B' E' H', grows H H' /\ cluster_safe V w' B' E' H' /\ keeps_committed w w'.
Proof.
  induction 1 as [w|w1 w2 w3 _ IH Hs]; intros Hcs.
  - exists B, E, H. split; [by eapply grows_refl, cf_history|]. split; [done|].
    intros id n Hn. exists n. split; [done|]. intros j Hj. split; [lia|done].
  - destruct (IH Hcs) as (B2 & E2 & H2 & Hg & Hcs2 & Hk).
    destruct (safety_step w2 w3 B2 E2 H2 Hcs2 Hs) as (B3 & E3 & H3 & Hg' & Hcs3 & Hk').
    exists B3, E3, H3. split; [by eapply grows_trans|]. split; [done|].
    intros id n Hn. destruct (Hk id n Hn) as (n2 & Hn2 & Hj2).
    destruct (Hk' id n2 Hn2) as (n3 & Hn3 & Hj3). exists n3. split; [done|].
    intros j Hj. destruct (Hj2 j Hj) as [? <-]. apply Hj3. lia.
Qed.

(** ** The start *)

(** Nodes that have never run. *)
Definition newborn w : Prop :=
  born V 0 w /\ forall id n, replicas w !! id = Some n ->
    current_term (sm n) = 0 /\ commit_index (sm n) = 0 /\ last_applied (sm n) = 0 /\
    lv_last (log n) = 0.

Lemma newborn_safe w : newborn w -> exists B E H, cluster_safe V w B E H.
Proof.
  intros [Hb Hz]. destruct (born_inv V 0 w Hb) as (B & E & Hw & HE).
  assert (forall i t e pt, ~ E i t e pt) as HE0.
  { intros i t e pt Ho. destruct (HE _ _ _ _ Ho) as (id & n & Hn & Hi).
    destruct (bo_node _ _ _ Hb id n Hn) as (_ & Hrd & _). destruct (Hz id n Hn) as (_ & _ & _ & Hl).
    assert (0 < i <= lv_last (log n)); [|lia]. apply (whole_dom _ _ (ready_whole n Hrd)). eauto. }
  exists B, E, (MkHistory ∅ (fun _ _ _ => False) ∅). split; try done.
  - split; try done. { apply Hw. } { intros i t e pt []%HE0. }
  - intros id n Hn. destruct (Hz id n Hn) as (Ht & Hc & Ha & Hl).
    destruct (bo_node _ _ _ Hb id n Hn) as (Hst & [Hlo Hp Hpr Hm Hsn] & _ & _).
    destruct Hst as (_ & _ & _ & _ & Hr & _ & _ & He).
    assert (forall x, lv_log (log n) !! x = None) as Hemp.
    { intros x. apply eq_None_not_Some. intros Hd.
      apply (whole_dom (log n) x) in Hd; [lia|]. by apply ready_whole. }
    split; rewrite ?He; try (by intros; congruence); try (by intros * ?%not_elem_of_nil).
    + split; try done. split; [lia|]. rewrite Hc. done.
    + intros t k e _ (i & L & [] & _).
    + done.
    + lia.
    + lia.
  - rewrite (bo_inbox _ _ _ Hb). by intros id msg ?%not_elem_of_nil.
Qed.
End invariant.

(** ** Safety *)

Section theorems.
Context {prof : BuildProfile} {St : Type}
  `{HS : Storage St, HL : !LogStorage St, HD : !DurableStorage St}.
Implicit Types (w : World St) (n : RaftNodeInner St).

(** In executions whose restarts are one step; [Restarts] has those whose
    restarts are not. *)
Lemma applied_agree V w0 w a b na nb e e'
    (Hborn : newborn V w0) (Hsteps : world_steps orderly w0 w)
    (Ha : replicas w !! a = Some na) (Hb : replicas w !! b = Some nb)
    (He : ApplyEntry e ∈ effects na) (He' : ApplyEntry e' ∈ effects nb)
    (Hi : le_index e = le_index e') :
  e = e'.
Proof.
  destruct (newborn_safe V w0 Hborn) as (B0 & E0 & H0 & Hs0).
  destruct (safety_steps V w0 w B0 E0 H0 Hsteps Hs0) as (B & E & H & _ & Hs & _).
  pose proof (ns_applied _ _ _ _ _ (cf_node _ _ _ _ _ Hs a na Ha) e He) as Hsa.
  pose proof (ns_applied _ _ _ _ _ (cf_node _ _ _ _ _ Hs b nb Hb) e' He') as Hsb.
  rewrite <- Hi in Hsb. eapply safe_unique; [by eapply cf_history|done|done].
Qed.

Lemma committed_in_leaders V w0 w1 w2 a l n1 n2 j e
    (Hborn : newborn V w0) (Hsteps1 : world_steps orderly w0 w1)
    (Hsteps2 : world_steps orderly w1 w2)
    (Ha : replicas w1 !! a = Some n1) (Hj : j <= commit_index (sm n1))
    (He : lv_log (log n1) !! j = Some e)
    (Hl : replicas w2 !! l = Some n2) (Hr : role (sm n2) = Leader)
    (Ht : current_term (sm n1) <= current_term (sm n2)) :
  lv_log (log n2) !! j = Some e.
Proof.
  destruct (newborn_safe V w0 Hborn) as (B0 & E0 & H0 & Hs0).
  destruct (safety_steps V w0 w1 B0 E0 H0 Hsteps1 Hs0) as (B1 & E1 & H1 & _ & Hs1 & _).
  destruct (safety_steps V w1 w2 B1 E1 H1 Hsteps2 Hs1) as (B2 & E2 & H2 & Hg & Hs2 & _).
  pose proof (ns_commit _ _ _ _ _ (cf_node _ _ _ _ _ Hs1 a n1 Ha) j e Hj He) as Hsafe.
  apply (safe_in_ledger V E2 H2 (current_term (sm n1)) (current_term (sm n2)));
    [by eapply cf_history| |done|].
  - apply (safe_grows V E1 H1 H2 (current_term (sm n1))); try done. by eapply cf_history.
  - by eapply ns_leader; [eapply cf_node|].
Qed.

Lemma committed_stay V w0 w1 w2 a n1 n2 j
    (Hborn : newborn V w0) (Hsteps1 : world_steps orderly w0 w1)
    (Hsteps2 : world_steps orderly w1 w2)
    (Ha : replicas w1 !! a = Some n1) (Ha' : replicas w2 !! a = Some n2)
    (Hj : 0 < j <= commit_index (sm n1)) :
  j <= commit_index (sm n2) /\ is_Some (lv_log (log n1) !! j) /\
  lv_log (log n2) !! j = lv_log (log n1) !! j.
Proof.
  destruct (newborn_safe V w0 Hborn) as (B0 & E0 & H0 & Hs0).
  destruct (safety_steps V w0 w1 B0 E0 H0 Hsteps1 Hs0) as (B1 & E1 & H1 & _ & Hs1 & _).
  destruct (safety_steps V w1 w2 B1 E1 H1 Hsteps2 Hs1) as (B2 & E2 & H2 & _ & Hs2 & Hk).
  destruct (Hk a n1 Ha) as (n & Hn & Hkj). assert (n = n2) as -> by congruence.
  destruct (Hkj j Hj) as [? ?]. split; [done|]. split; [|done].
  pose proof (cf_node _ _ _ _ _ Hs1 a n1 Ha) as Hna. pose proof (ns_last _ _ _ _ _ Hna).
  apply (whole_dom (log n1)); [|lia].
  apply ready_whole, (ri_ready _ _ _ _ _ _ (wi_node _ _ _ _ _ (cf_world _ _ _ _ _ Hs1) a n1 Ha)).
Qed.
End theorems.

(** ** A concrete execution *)

Section examples.
Local Existing Instance dev_profile.
#[local] Existing Instances MemStorage MemStorage_log MemStorage_durable.

Lemma ex_world_newborn : newborn {[1; 2; 3]} ex_world.
Proof.
  split; [apply ex_world_born|]. intros id n Hn. destruct (ex_replica id n Hn) as (peers & ->).
  by repeat split.
Qed.

(** Node 1 leads term 1; node 2 stores its two entries, and node 1 commits and
    applies them. *)
Definition ex_committed : list WorldEvent := ex_leading ++ [WTask 1 9; WAnswer 1; WOwn 1 InHeartbeat].

(** Node 2 wins term 2 with the vote of node 3, proposes an entry, which node 1
    stores, and commits and applies all three. *)
Definition ex_succession : list WorldEvent :=
  [WOwn 2 InElectionTimeout; WTask 2 7; WAnswer 2; ex_propose 2 x63;
   WTask 2 11; WAnswer 3; WOwn 2 InHeartbeat].

Lemma ex_succession_run :
  exists w1 w2 n1 n1' n2, world_steps orderly ex_world w1 /\ world_steps orderly w1 w2 /\
    replicas w1 !! 1 = Some n1 /\ replicas w2 !! 1 = Some n1' /\ replicas w2 !! 2 = Some n2 /\
    commit_index (sm n1) = 2 /\ current_term (sm n1) = 1 /\
    role (sm n2) = Leader /\ current_term (sm n2) = 2 /\
    lv_log (log n1) !! 2 = Some (MkLogEntry 1 2 [x62] Normal) /\
    effects n1' !! 17%nat = Some (ApplyEntry (MkLogEntry 1 2 [x62] Normal)) /\
    exists e, effects n2 !! 19%nat = Some (ApplyEntry e) /\ le_index e = 2.
Proof.
  assert (exists w1, world_exec orderly ex_committed ex_world = Some w1 /\
    exists n1, replicas w1 !! 1 = Some n1 /\ commit_index (sm n1) = 2 /\ current_term (sm n1) = 1 /\
      lv_log (log n1) !! 2 = Some (MkLogEntry 1 2 [x62] Normal) /\
    exists w2, world_exec orderly ex_succession w1 = Some w2 /\
    exists n1' n2, replicas w2 !! 1 = Some n1' /\ replicas w2 !! 2 = Some n2 /\
      role (sm n2) = Leader /\ current_term (sm n2) = 2 /\
      effects n1' !! 17%nat = Some (ApplyEntry (MkLogEntry 1 2 [x62] Normal)) /\
      exists e, effects n2 !! 19%nat = Some (ApplyEntry e) /\ le_index e = 2)
    as (w1 & Hw1 & n1 & H1 & Hc & Ht & Hl & w2 & Hw2 & n1' & n2 & H1' & H2 & Hr & Ht2 & He & e & He2 & Hi).
  { eexists. split; [vm_compute; reflexivity|]. eexists. split; [vm_compute; reflexivity|].
    split; [vm_compute; reflexivity|]. split; [vm_compute; reflexivity|].
    split; [vm_compute; reflexivity|]. eexists. split; [vm_compute; reflexivity|].
    do 2 eexists. split; [vm_compute; reflexivity|]. split; [vm_compute; reflexivity|].
    split; [vm_compute; reflexivity|]. split; [vm_compute; reflexivity|].
    split; [vm_compute; reflexivity|]. eexists. split; [vm_compute; reflexivity|reflexivity]. }
  exists w1, w2, n1, n1', n2.
  split; [by apply (world_exec_steps orderly ex_committed ex_world); [constructor|]|].
  split; [by apply (world_exec_steps orderly ex_succession w1); [constructor|]|].
  do 9 (split; [assumption|]). exists e. split; assumption.
Qed.

End examples.
