(* ===== verification/Restarts.v ===== *)
(** * Restarts, step by step

    [RaftNode::start] returns a node that serves RPCs, and its loop restores the
    hard state later. [Cluster] and [Ensemble] have a restart as one step; here
    it is two, [start_again] and [restore_hard_state], with any steps of other
    nodes in between, and any number of starts before a restoring (a process that
    crashes again). The loop restores before it takes a message or a timer, so
    that only an RPC can reach the node in between. That no RPC does is the
    condition of the theorems, and it is needed
    ([EventLoop.start_race_double_vote]).

    Theorems: these executions are executions of [Ensemble] ([Cluster]) once the
    nodes that are booting are taken for what they are about to be; election
    safety, State Machine Safety, Leader Completeness and the permanence of
    committed entries hold in them. *)

From Stdlib Require Import Lia Init.Byte.
From stdpp Require Import base numbers list option gmap sets fin_maps strings.
From S2P Require Import Prelude.
From S2P Require Import Core.
From S2P Require Import Proto.
From S2P Require Import Storage.
From S2P Require Import MemStorage.
From S2P Require Import StateMachine.
From S2P Require Import Node.
From S2P Require Import Handlers.
From S2P Require Import Votes.
From S2P Require Import NodeLog.
From S2P Require Import Cluster.
From S2P Require Import AppendEntries.
From S2P Require Import Network.
From S2P Require Import LogSteps.
From S2P Require Import Ensemble.
From S2P Require Import Matching.
From S2P Require Import History.
From S2P Require Import Orderly.
From S2P Require Import SafetyInvariant.
From S2P Require Import Safety.

(** ** Executions *)

(** A cluster or a world, and its nodes that have been started and have not
    restored their hard state. *)
Record Boot (X : Type) : Type := MkBoot {
  system : X;
  booting : gset NodeId;
}.
Arguments MkBoot {X}.
Arguments system {X} _.
Arguments booting {X} _.

Section steps.
Context {prof : BuildProfile} {St : Type}
  `{HS : Storage St, HL : !LogStorage St, HD : !DurableStorage St}.
Implicit Types (w : World St) (c : Cluster St) (n : RaftNodeInner St) (B : gset NodeId).

(** [Ensemble.world_step], with the restart in two, and with no input for a
    node that is booting. *)
Inductive boot_step (fresh : RaftNodeInner St -> Input -> Prop) :
    Boot (World St) -> Boot (World St) -> Prop :=
| bs_start w B id n :
    replicas w !! id = Some n ->
    boot_step fresh (MkBoot w B)
      (MkBoot (MkWorld (<[id := (start_again n).2]> (replicas w)) (inbox w)) ({[id]} ∪ B))
| bs_restore w B id n :
    replicas w !! id = Some n -> id ∈ B ->
    boot_step fresh (MkBoot w B)
      (MkBoot (MkWorld (<[id := (restore_hard_state n).2]> (replicas w)) (inbox w)) (B ∖ {[id]}))
| bs_own w B id n i :
    replicas w !! id = Some n -> id ∉ B -> own_input i -> i <> InRestart -> takes n i ->
    boot_step fresh (MkBoot w B)
      (MkBoot (MkWorld (<[id := (handle i n).2]> (replicas w)) (inbox w)) B)
| bs_task w B src m e o ns :
    replicas w !! src = Some m -> e ∈ effects m ->
    (forall peer i, request_of e = Some (peer, i) -> (peer ∉ B) /\
       forall n, replicas w !! peer = Some n -> fresh n i) ->
    run_task (H := ClusterTransport) e (replicas w) = (Done o, ns) ->
    boot_step fresh (MkBoot w B)
      (MkBoot (MkWorld ns (inbox w ++ option_list (pair src <$> o))) B)
| bs_answer w B id msg n :
    (id, msg) ∈ inbox w -> replicas w !! id = Some n -> id ∉ B -> fresh n (InMessage msg) ->
    boot_step fresh (MkBoot w B)
      (MkBoot (MkWorld (<[id := (handle (InMessage msg) n).2]> (replicas w)) (inbox w)) B).

Inductive boot_steps fresh : Boot (World St) -> Boot (World St) -> Prop :=
| bss_refl b : boot_steps fresh b b
| bss_step b1 b2 b3 : boot_steps fresh b1 b2 -> boot_step fresh b2 b3 -> boot_steps fresh b1 b3.

Lemma boot_steps_trans fresh b1 b2 b3 :
  boot_steps fresh b1 b2 -> boot_steps fresh b2 b3 -> boot_steps fresh b1 b3.
Proof.
  intros Hs Hs'. induction Hs' as [|b2 b b3 _ IH Hst]; [done|].
  eapply bss_step; [by apply IH|done].
Qed.

(** [Cluster.step] in the same way. *)
Inductive vote_boot_step (fresh : RaftNodeInner St -> RequestVoteResponse -> Prop) :
    Boot (Cluster St) -> Boot (Cluster St) -> Prop :=
| vbs_start c B id n :
    nodes c !! id = Some n ->
    vote_boot_step fresh (MkBoot c B)
      (MkBoot (MkCluster (<[id := (start_again n).2]> (nodes c)) (votes_sent c)) ({[id]} ∪ B))
| vbs_restore c B id n :
    nodes c !! id = Some n -> id ∈ B ->
    vote_boot_step fresh (MkBoot c B)
      (MkBoot (MkCluster (<[id := (restore_hard_state n).2]> (nodes c)) (votes_sent c))
         (B ∖ {[id]}))
| vbs_local c B id n i :
    nodes c !! id = Some n -> id ∉ B -> is_local i -> i <> InRestart -> admissible n i ->
    vote_boot_step fresh (MkBoot c B)
      (MkBoot (MkCluster (<[id := (handle i n).2]> (nodes c)) (votes_sent c)) B)
| vbs_request c B src m peer req n o n' :
    nodes c !! src = Some m -> SpawnRequestVote peer req ∈ effects m ->
    nodes c !! peer = Some n -> peer ∉ B -> handle (InRequestVote req) n = (o, n') ->
    vote_boot_step fresh (MkBoot c B)
      (MkBoot (MkCluster (<[peer := n']> (nodes c))
        (match o with
         | Done (ReplyVote (Ok r)) => votes_sent c ++ [MkVoteMessage src peer r]
         | _ => votes_sent c
         end)) B)
| vbs_response c B v n :
    v ∈ votes_sent c -> nodes c !! vm_to v = Some n -> vm_to v ∉ B -> fresh n (vm_resp v) ->
    vote_boot_step fresh (MkBoot c B)
      (MkBoot (MkCluster
        (<[vm_to v := (handle (InMessage (VoteResponse (vm_peer v) (vm_resp v))) n).2]>
           (nodes c))
        (votes_sent c)) B).

Inductive vote_boot_steps fresh : Boot (Cluster St) -> Boot (Cluster St) -> Prop :=
| vbss_refl b : vote_boot_steps fresh b b
| vbss_step b1 b2 b3 :
    vote_boot_steps fresh b1 b2 -> vote_boot_step fresh b2 b3 -> vote_boot_steps fresh b1 b3.

(** The nodes, with those that are booting as they are about to be. *)
Definition settle B (ns : gmap NodeId (RaftNodeInner St)) : gmap NodeId (RaftNodeInner St) :=
  map_imap (fun id n => Some (settled (bool_decide (id ∈ B)) n)) ns.

Definition settled_world (b : Boot (World St)) : World St :=
  MkWorld (settle (booting b) (replicas (system b))) (inbox (system b)).

Definition settled_cluster (b : Boot (Cluster St)) : Cluster St :=
  MkCluster (settle (booting b) (nodes (system b))) (votes_sent (system b)).

(** ** Settling *)

Lemma settle_lookup B ns id :
  settle B ns !! id = settled (bool_decide (id ∈ B)) <$> ns !! id.
Proof. unfold settle. rewrite map_lookup_imap. by destruct (ns !! id). Qed.

Lemma settle_lookup_up B ns id : id ∉ B -> settle B ns !! id = ns !! id.
Proof. intros Hid. rewrite settle_lookup, bool_decide_false by done. by destruct (ns !! id). Qed.

Lemma settle_empty ns : settle ∅ ns = ns.
Proof. apply map_eq. intros id. apply settle_lookup_up. set_solver. Qed.

(** Every step of one node, seen settled. *)
Lemma settle_insert B B' ns id n :
  (forall id', id' <> id -> id' ∈ B' <-> id' ∈ B) ->
  settle B' (<[id := n]> ns) = <[id := settled (bool_decide (id ∈ B')) n]> (settle B ns).
Proof.
  intros HB. apply map_eq. intros id'. rewrite settle_lookup.
  destruct (decide (id' = id)) as [->|Hne]; [by rewrite !lookup_insert_eq|].
  rewrite !lookup_insert_ne, settle_lookup by done.
  by rewrite (bool_decide_ext _ _ (HB id' Hne)).
Qed.

Lemma settle_up B ns id n : id ∉ B -> settle B (<[id := n]> ns) = <[id := n]> (settle B ns).
Proof. intros Hid. by rewrite (settle_insert B B), bool_decide_false. Qed.

Lemma settle_start B ns id n :
  settle ({[id]} ∪ B) (<[id := (start_again n).2]> ns) =
    <[id := (handle InRestart (settled (bool_decide (id ∈ B)) n)).2]> (settle B ns).
Proof.
  rewrite (settle_insert B) by set_solver. rewrite bool_decide_true by set_solver.
  cbn [settled]. by rewrite (settled_start (bool_decide (id ∈ B))).
Qed.

Lemma settle_restore B ns id n :
  ns !! id = Some n -> id ∈ B ->
  settle (B ∖ {[id]}) (<[id := (restore_hard_state n).2]> ns) = settle B ns.
Proof.
  intros Hn Hid. rewrite (settle_insert B) by set_solver. rewrite bool_decide_false by set_solver.
  apply insert_id. by rewrite settle_lookup, Hn, bool_decide_true.
Qed.

Lemma settled_effects b n : effects (settled b n) = effects n.
Proof. destruct b; [|done]. cbn [settled]. by rewrite restore_run. Qed.

Lemma settled_storage b n : storage (settled b n) = storage n.
Proof. destruct b; [|done]. cbn [settled]. by rewrite restore_run. Qed.

Lemma call_settle {A} B ns peer (m : M (RaftNodeInner St) (raft_result A)) :
  peer ∉ B ->
  call peer m (settle B ns) = ((call peer m ns).1, settle B (call peer m ns).2).
Proof.
  intros Hp. unfold call. rewrite settle_lookup_up by done. destruct (ns !! peer) as [n|]; [|done].
  cbn [fst snd]. by rewrite settle_up.
Qed.

(** A task whose peer is not booting does the same in the settled world. *)
Lemma run_task_settle B ns e o ns' :
  (forall peer i, request_of e = Some (peer, i) -> peer ∉ B) ->
  run_task (H := ClusterTransport) e ns = (Done o, ns') ->
  run_task (H := ClusterTransport) e (settle B ns) = (Done o, settle B ns').
Proof.
  intros Hp. destruct e as [peer req|peer req li|peer req li| | | | | | |]; cbn [run_task];
    try (by intros [= <- <-]); specialize (Hp peer _ eq_refl);
    cbn [send_append_entries send_request_vote send_install_snapshot ClusterTransport];
    unfold bind; rewrite call_settle by done;
    destruct (call peer _ ns) as [[r|] ns1]; cbn [fst snd]; by intros [= <- <-].
Qed.

(** ** The simulation *)

(** A start is a restart, a restoring is nothing, any other step is itself. *)
Lemma boot_step_settles fresh b b' :
  boot_step fresh b b' ->
  world_step fresh (settled_world b) (settled_world b') \/
  settled_world b' = settled_world b.
Proof.
  intros [w B id n Hn|w B id n Hn Hid|w B id n i Hn Hid Hi Hne Ht|w B src m e o ns Hm He Hp Hrun|
          w B id msg n Hin Hn Hid Hf]; unfold settled_world; cbn [system booting replicas inbox].
  - left. rewrite settle_start.
    apply (ws_own _ (MkWorld (settle B (replicas w)) (inbox w)) id); [|done..].
    cbn. by rewrite settle_lookup, Hn.
  - right. by rewrite settle_restore.
  - left. rewrite settle_up by done.
    apply (ws_own _ (MkWorld (settle B (replicas w)) (inbox w)) id); [|done..].
    cbn. by rewrite settle_lookup_up.
  - left. eapply (ws_task _ (MkWorld (settle B (replicas w)) (inbox w)) src
      (settled (bool_decide (src ∈ B)) m) e o); cbn [replicas].
    + by rewrite settle_lookup, Hm.
    + by rewrite settled_effects.
    + intros peer i n Hr. destruct (Hp peer i Hr) as [Hid Hf].
      rewrite settle_lookup_up by done. apply Hf.
    + apply run_task_settle; [|done]. intros peer i Hr. by destruct (Hp peer i Hr).
  - left. rewrite settle_up by done.
    apply (ws_answer _ (MkWorld (settle B (replicas w)) (inbox w))); [done| |done].
    cbn. by rewrite settle_lookup_up.
Qed.

Lemma boot_steps_settle fresh b b' :
  boot_steps fresh b b' -> world_steps fresh (settled_world b) (settled_world b').
Proof.
  induction 1 as [|b1 b2 b3 _ IH Hs]; [constructor|].
  destruct (boot_step_settles fresh b2 b3 Hs) as [Hw| ->]; [by eapply wss_step|done].
Qed.

Lemma vote_boot_step_settles fresh b b' :
  vote_boot_step fresh b b' ->
  step fresh (settled_cluster b) (settled_cluster b') \/
  settled_cluster b' = settled_cluster b.
Proof.
  intros [c B id n Hn|c B id n Hn Hid|c B id n i Hn Hid Hi Hne Ht|c B src m peer req n o n' Hm He Hn Hid Hh|
          c B v n Hin Hn Hid Hf]; unfold settled_cluster; cbn [system booting nodes votes_sent].
  - left. rewrite settle_start.
    apply (step_local _ (MkCluster (settle B (nodes c)) (votes_sent c)) id); [|done..].
    cbn. by rewrite settle_lookup, Hn.
  - right. by rewrite settle_restore.
  - left. rewrite settle_up by done.
    apply (step_local _ (MkCluster (settle B (nodes c)) (votes_sent c)) id); [|done..].
    cbn. by rewrite settle_lookup_up.
  - left. rewrite settle_up by done.
    apply (step_request _ (MkCluster (settle B (nodes c)) (votes_sent c)) src
      (settled (bool_decide (src ∈ B)) m) peer req n); cbn [nodes].
    + by rewrite settle_lookup, Hm.
    + by rewrite settled_effects.
    + by rewrite settle_lookup_up.
    + done.
  - left. rewrite settle_up by done.
    apply (step_response _ (MkCluster (settle B (nodes c)) (votes_sent c))); [done| |done].
    cbn. by rewrite settle_lookup_up.
Qed.

Lemma vote_boot_steps_settle fresh b b' :
  vote_boot_steps fresh b b' -> steps fresh (settled_cluster b) (settled_cluster b').
Proof.
  induction 1 as [|b1 b2 b3 _ IH Hs]; [constructor|].
  destruct (vote_boot_step_settles fresh b2 b3 Hs) as [Hw| ->]; [|done].
  eapply steps_trans; [exact IH|]. eapply steps_step; [exact Hw|constructor].
Qed.

(** *** Nodes that are booting

    Their memory is that of a node that never ran. *)
Definition blank n : Prop := role (sm n) = Follower /\ commit_index (sm n) = 0.

Definition blank_booting B (ns : gmap NodeId (RaftNodeInner St)) : Prop :=
  forall id n, id ∈ B -> ns !! id = Some n -> blank n.

Lemma blank_start B ns id n :
  blank_booting B ns -> blank_booting ({[id]} ∪ B) (<[id := (start_again n).2]> ns).
Proof.
  intros Hb id' m Hid. rewrite lookup_insert_Some. intros [[<- <-]|[Hne Hm]]; [done|].
  apply (Hb id' m); [set_solver|done].
Qed.

Lemma blank_restore B ns id n :
  blank_booting B ns -> blank_booting (B ∖ {[id]}) (<[id := n]> ns).
Proof.
  intros Hb id' m Hid. rewrite lookup_insert_ne by set_solver. apply Hb. set_solver.
Qed.

Lemma blank_up B ns id n :
  id ∉ B -> blank_booting B ns -> blank_booting B (<[id := n]> ns).
Proof.
  intros Hid Hb id' m Hid'. rewrite lookup_insert_ne by set_solver. by apply Hb.
Qed.

Lemma boot_steps_blank fresh b b' :
  boot_steps fresh b b' -> blank_booting (booting b) (replicas (system b)) ->
  blank_booting (booting b') (replicas (system b')).
Proof.
  induction 1 as [|b1 b2 b3 _ IH Hs]; [done|]. intros Hb%IH. destruct Hs; cbn in *.
  - by apply blank_start.
  - by apply blank_restore.
  - by apply blank_up.
  - match goal with Hr : run_task _ _ = _ |- _ => apply task_cases in Hr end.
    match goal with Hc : _ \/ _ |- _ =>
      destruct Hc as [[_ ->]|(peer & i & n & _ & -> & [Hr _])] end; [done|].
    apply blank_up; [|done]. naive_solver.
  - by apply blank_up.
Qed.

(** No node goes away. *)
Lemma boot_steps_nodes fresh b b' :
  boot_steps fresh b b' -> forall id, is_Some (replicas (system b) !! id) ->
  is_Some (replicas (system b') !! id).
Proof.
  induction 1 as [|b1 b2 b3 _ IH Hs]; [done|]. intros id Hb%IH.
  destruct Hs; cbn in *; try (rewrite lookup_insert_is_Some'; by right).
  match goal with Hr : run_task _ _ = _ |- _ => apply task_cases in Hr end.
  match goal with Hc : _ \/ _ |- _ =>
    destruct Hc as [[_ ->]|(peer & i & n & _ & -> & _)] end; [done|].
  rewrite lookup_insert_is_Some'. by right.
Qed.

Lemma vote_boot_steps_blank fresh b b' :
  vote_boot_steps fresh b b' -> blank_booting (booting b) (nodes (system b)) ->
  blank_booting (booting b') (nodes (system b')).
Proof.
  induction 1 as [|b1 b2 b3 _ IH Hs]; [done|]. intros Hb%IH.
  destruct Hs; cbn in *; [by apply blank_start|by apply blank_restore|by apply blank_up..].
Qed.

(** *** What is used of it *)

Lemma settled_steps fresh w0 s :
  boot_steps fresh (MkBoot w0 ∅) s -> world_steps fresh w0 (settled_world s).
Proof.
  intros Hs%boot_steps_settle. unfold settled_world at 1 in Hs. cbn [system booting] in Hs.
  rewrite settle_empty in Hs. by destruct w0.
Qed.

Lemma boots_blank fresh w0 s :
  boot_steps fresh (MkBoot w0 ∅) s -> blank_booting (booting s) (replicas (system s)).
Proof. intros Hs. eapply boot_steps_blank; [done|]. by intros id n ?%not_elem_of_empty. Qed.

Lemma settled_replica s id n :
  replicas (system s) !! id = Some n ->
  replicas (settled_world s) !! id = Some (settled (bool_decide (id ∈ booting s)) n).
Proof. intros Hn. cbn. by rewrite settle_lookup, Hn. Qed.

Lemma settled_replica_up s id n :
  blank_booting (booting s) (replicas (system s)) -> replicas (system s) !! id = Some n ->
  ~ blank n -> replicas (settled_world s) !! id = Some n.
Proof.
  intros Hb Hn Hnb. cbn. rewrite settle_lookup_up; [done|]. intros Hid. by apply Hnb, (Hb id).
Qed.

Lemma settle_dom B ns : dom (settle B ns) = dom ns.
Proof.
  apply set_eq. intros id. rewrite !elem_of_dom, settle_lookup. by rewrite fmap_is_Some.
Qed.

Lemma settled_log b n : log (settled b n) = log n.
Proof. unfold log. by rewrite settled_storage. Qed.
End steps.

(** ** Safety *)

Section theorems.
Context {prof : BuildProfile} {St : Type}
  `{HS : Storage St, HL : !LogStorage St, HD : !DurableStorage St}.
Implicit Types (w : World St) (c : Cluster St) (n : RaftNodeInner St).

(** Restarts refine the whole cluster's: in an execution in which a restart
    is a start and, later, the restoring of the hard state by the loop, with any
    steps of other nodes in between, and in which no RPC reaches a node in
    between, the nodes reach what an execution of [Ensemble] reaches, with
    restarts in one step: the same messages, and every node with the same
    storage and the same history, the memory of a node that is booting being
    what its loop is about to restore. *)
Theorem restarts_refine_world fresh w0 b
    (Hsteps : boot_steps fresh (MkBoot w0 ∅) b) :
  exists w, world_steps fresh w0 w /\ inbox w = inbox (system b) /\
    dom (replicas w) = dom (replicas (system b)) /\
    forall id n, replicas (system b) !! id = Some n ->
      exists n', replicas w !! id = Some n' /\
        n' = (if decide (id ∈ booting b) then (restore_hard_state n).2 else n) /\
        storage n' = storage n /\ effects n' = effects n.
Proof.
  exists (settled_world b). split; [by eapply settled_steps|]. split; [done|].
  split; [by apply settle_dom|]. intros id n Hn.
  exists (settled (bool_decide (id ∈ booting b)) n).
  split; [by cbn; rewrite settle_lookup, Hn|].
  split; [|split; [apply settled_storage|apply settled_effects]].
  case_decide; [by rewrite bool_decide_true|by rewrite bool_decide_false].
Qed.

(** C8. Election safety: start any cluster in which every node has the same
    members and has restored its hard state, with any hard states and logs on
    storages whose saves succeed, and let it run: nodes time out, exchange vote
    requests and responses over a network that may lose, delay, repeat and
    reorder them, crash, start again and restore, and receive any other message
    with any content. If no candidate is handed a vote granted in an earlier
    term than its own, and no RPC reaches a node between its start and the
    restoring of its hard state, then no two nodes are ever leaders of the same
    term. *)
Theorem election_safety V c0 s a b na nb
    (Hinit : initial V c0) (Hsteps : vote_boot_steps not_stale (MkBoot c0 ∅) s)
    (Ha : nodes (system s) !! a = Some na) (Hb : nodes (system s) !! b = Some nb)
    (Hra : role (sm na) = Leader) (Hrb : role (sm nb) = Leader)
    (Ht : current_term (sm na) = current_term (sm nb)) :
  a = b.
Proof.
  assert (blank_booting (booting s) (nodes (system s))) as Hbl
    by (eapply vote_boot_steps_blank; [done|]; by intros id n ?%not_elem_of_empty).
  apply vote_boot_steps_settle in Hsteps. unfold settled_cluster at 1 in Hsteps.
  cbn [system booting] in Hsteps. rewrite settle_empty in Hsteps.
  assert (forall id n, nodes (system s) !! id = Some n -> role (sm n) = Leader ->
    nodes (settled_cluster s) !! id = Some n) as Hup.
  { intros id n Hn Hr. cbn. rewrite settle_lookup_up; [done|]. intros Hid.
    destruct (Hbl id n Hid Hn). congruence. }
  apply (one_leader_per_term V c0 (settled_cluster s) a b na nb); auto.
  by destruct c0.
Qed.

(** C2. State Machine Safety: start nodes that have never run, and let them run,
    with lost, delayed and repeated messages, elections and proposals at any
    node, and crashes and restarts in whose window between the start and the
    restoring of the hard state no RPC is served. As long as no candidate counts
    a vote of an earlier term, no leader counts a success of an earlier term,
    and no node accepts an AppendEntries whose last entry it already has, at the
    same index and with the same term, while its log goes on behind it: if two
    nodes have each handed an entry with the same index to the application, at
    whatever time, it is the same entry. *)
Theorem state_machine_safety V w0 s a b na nb e e'
    (Hborn : newborn V w0) (Hsteps : boot_steps orderly (MkBoot w0 ∅) s)
    (Ha : replicas (system s) !! a = Some na) (Hb : replicas (system s) !! b = Some nb)
    (He : ApplyEntry e ∈ effects na) (He' : ApplyEntry e' ∈ effects nb)
    (Hi : le_index e = le_index e') :
  e = e'.
Proof.
  apply settled_steps in Hsteps.
  apply (settled_replica s) in Ha, Hb.
  eapply (applied_agree V w0 (settled_world s) a b); [done|done|exact Ha|exact Hb| | |done];
    by rewrite settled_effects.
Qed.

(** C3. Leader Completeness: in such an execution (from nodes that have never
    run; no RPC between a start and its restoring; no stale vote, no stale
    success, and no accepted AppendEntries whose last entry the receiver already
    has with more of its log behind it), an entry at or below the commit index
    of some node, at some time, is from then on in the log of every node that
    leads that node's term or a later one. *)
Theorem leader_completeness V w0 s1 s2 a l n1 n2 j e
    (Hborn : newborn V w0) (Hsteps1 : boot_steps orderly (MkBoot w0 ∅) s1)
    (Hsteps2 : boot_steps orderly s1 s2)
    (Ha : replicas (system s1) !! a = Some n1) (Hj : 0 < j <= commit_index (sm n1))
    (He : lv_log (log n1) !! j = Some e)
    (Hl : replicas (system s2) !! l = Some n2) (Hr : role (sm n2) = Leader)
    (Ht : current_term (sm n1) <= current_term (sm n2)) :
  lv_log (log n2) !! j = Some e.
Proof.
  pose proof (boots_blank orderly w0 s1 Hsteps1) as Hb1.
  pose proof (boot_steps_blank orderly s1 s2 Hsteps2 Hb1) as Hb2.
  apply settled_steps in Hsteps1. apply boot_steps_settle in Hsteps2.
  eapply (committed_in_leaders V w0 (settled_world s1) (settled_world s2) a l n1 n2); try done.
  - eapply settled_replica_up; [done..|]. intros [_ Hc]. lia.
  - lia.
  - eapply settled_replica_up; [done..|]. intros [Hf _]. congruence.
Qed.

(** C4. Committed entries stay: in such an execution (from nodes that have never
    run; no RPC between a start and its restoring; no stale vote, no stale
    success, and no accepted AppendEntries whose last entry the receiver already
    has with more of its log behind it), no entry at or below a node's commit
    index ever changes or disappears from its log, by AppendEntries of any
    leader, elections, or restarts, and the node's commit index is never lower
    again, except while the node is booting: from a start until the loop has
    restored it. *)
Theorem committed_entries_stay V w0 s1 s2 a n1 n2 j
    (Hborn : newborn V w0) (Hsteps1 : boot_steps orderly (MkBoot w0 ∅) s1)
    (Hsteps2 : boot_steps orderly s1 s2)
    (Ha : replicas (system s1) !! a = Some n1) (Ha' : replicas (system s2) !! a = Some n2)
    (Hj : 0 < j <= commit_index (sm n1)) :
  (a ∉ booting s2 -> j <= commit_index (sm n2)) /\
  is_Some (lv_log (log n1) !! j) /\ lv_log (log n2) !! j = lv_log (log n1) !! j.
Proof.
  pose proof (boots_blank orderly w0 s1 Hsteps1) as Hb1.
  apply settled_steps in Hsteps1. apply boot_steps_settle in Hsteps2.
  pose proof (settled_replica s2 a n2 Ha') as Hn2.
  destruct (committed_stay V w0 (settled_world s1) (settled_world s2) a n1
              (settled (bool_decide (a ∈ booting s2)) n2) j) as (Hc & Hs & Hl); try done.
  { eapply settled_replica_up; [done..|]. intros [_ Hc]. lia. }
  rewrite settled_log in Hl. split; [|done].
  intros Hup. by rewrite bool_decide_false in Hc.
Qed.
End theorems.

(** ** Executing a schedule *)

Inductive BootEvent (E : Type) : Type :=
| BStart (id : NodeId)
| BRestore (id : NodeId)
| BStep (e : E).
Arguments BStart {E} id.
Arguments BRestore {E} id.
Arguments BStep {E} e.

Definition is_restart (i : Input) : bool := match i with InRestart => true | _ => false end.

Section exec.
Context {prof : BuildProfile} {St : Type} `{HS : Storage St, HL : !LogStorage St}.
Context (fresh : RaftNodeInner St -> Input -> Prop) `{forall n i, Decision (fresh n i)}.
Context (vfresh : RaftNodeInner St -> RequestVoteResponse -> Prop)
  `{forall n r, Decision (vfresh n r)}.
Implicit Types (w : World St) (c : Cluster St).

(** The node an event of [Ensemble] gives an input to; none for a restart. *)
Definition reaches (e : WorldEvent) w : option NodeId :=
  match e with
  | WOwn id i => if is_restart i then None else Some id
  | WTask src k =>
      m ← replicas w !! src;
      e ← effects m !! k;
      x ← request_of e;
      Some x.1
  | WAnswer k => fst <$> inbox w !! k
  end.

Definition boot_exec1 (e : BootEvent WorldEvent) (s : Boot (World St)) : option (Boot (World St)) :=
  let '(MkBoot w B) := s in
  match e with
  | BStart id =>
      n ← replicas w !! id;
      Some (MkBoot (MkWorld (<[id := (start_again n).2]> (replicas w)) (inbox w)) ({[id]} ∪ B))
  | BRestore id =>
      n ← replicas w !! id;
      if decide (id ∈ B) then
        Some (MkBoot (MkWorld (<[id := (restore_hard_state n).2]> (replicas w)) (inbox w))
                (B ∖ {[id]}))
      else None
  | BStep e =>
      id ← reaches e w;
      if decide (id ∈ B) then None
      else w' ← world_exec1 fresh e w; Some (MkBoot w' B)
  end.

Fixpoint boot_exec (es : list (BootEvent WorldEvent)) (s : Boot (World St)) :
    option (Boot (World St)) :=
  match es with
  | [] => Some s
  | e :: es' => s' ← boot_exec1 e s; boot_exec es' s'
  end.

Lemma boot_exec1_step e s s' : boot_exec1 e s = Some s' -> boot_step fresh s s'.
Proof.
  destruct s as [w B], e as [id|id|[id i|src k|k]]; cbn -[handle run_task start_again restore_hard_state].
  - intros (n & Hn & [= <-])%bind_Some. by apply bs_start.
  - intros (n & Hn & He)%bind_Some. case_decide; [|done]. injection He as <-. by apply bs_restore.
  - destruct (is_restart i) eqn:Hi; [done|]. cbn [mbind option_bind].
    case_decide; [done|]. intros (w' & He & [= <-])%bind_Some.
    apply bind_Some in He as (n & Hn & He). case_match eqn:Hb; [|done].
    apply may_own_ok in Hb as [Ho Ht]. injection He as <-. apply bs_own; try done. by intros ->.
  - intros (id & Hr & He)%bind_Some. apply bind_Some in Hr as (m & Hm & Hr).
    apply bind_Some in Hr as (e & Hk & Hr). apply bind_Some in Hr as ([p i] & Hreq & [= <-]).
    cbn [fst] in He. case_decide as HB; [done|]. apply bind_Some in He as (w' & He & [= <-]).
    rewrite Hm in He. cbn [mbind option_bind] in He. rewrite Hk in He. cbn [mbind option_bind] in He.
    case_match eqn:Hok; [|done].
    destruct (run_task e (replicas w)) as [[o|] ns] eqn:Hrun; [|done]. injection He as <-.
    apply (bs_task _ w B src m e); [done|by eapply list_elem_of_lookup_2| |done].
    intros peer i'. rewrite Hreq. intros [= <- <-]. split; [done|]. intros n Hn.
    unfold request_ok in Hok. rewrite Hreq, Hn in Hok. by apply bool_decide_eq_true in Hok.
  - intros (id & Hx & He)%bind_Some. apply fmap_Some in Hx as ([id' msg] & Hx & ->).
    cbn [fst] in He. case_decide as HB; [done|]. apply bind_Some in He as (w' & He & [= <-]).
    rewrite Hx in He. cbn [mbind option_bind fst snd] in He. apply bind_Some in He as (n & Hn & He).
    case_decide; [|done]. injection He as <-. apply bs_answer; try done.
    by eapply list_elem_of_lookup_2.
Qed.

Lemma boot_exec_steps es s0 s s' :
  boot_steps fresh s0 s -> boot_exec es s = Some s' -> boot_steps fresh s0 s'.
Proof.
  revert s. induction es as [|e es IH]; intros s Hs; cbn; [by intros [= <-]|].
  intros (s1 & Hs1 & He)%bind_Some. eapply IH; [|done].
  eapply bss_step; [done|]. by apply boot_exec1_step in Hs1.
Qed.

Definition vote_reaches (e : Event) c : option NodeId :=
  match e with
  | EvLocal id i => if is_restart i then None else Some id
  | EvRequest src k =>
      m ← nodes c !! src;
      match effects m !! k with Some (SpawnRequestVote peer _) => Some peer | _ => None end
  | EvResponse k => vm_to <$> votes_sent c !! k
  end.

Definition vote_boot_exec1 (e : BootEvent Event) (s : Boot (Cluster St)) :
    option (Boot (Cluster St)) :=
  let '(MkBoot c B) := s in
  match e with
  | BStart id =>
      n ← nodes c !! id;
      Some (MkBoot (MkCluster (<[id := (start_again n).2]> (nodes c)) (votes_sent c)) ({[id]} ∪ B))
  | BRestore id =>
      n ← nodes c !! id;
      if decide (id ∈ B) then
        Some (MkBoot (MkCluster (<[id := (restore_hard_state n).2]> (nodes c)) (votes_sent c))
                (B ∖ {[id]}))
      else None
  | BStep e =>
      id ← vote_reaches e c;
      if decide (id ∈ B) then None
      else c' ← exec1 vfresh e c; Some (MkBoot c' B)
  end.

Fixpoint vote_boot_exec (es : list (BootEvent Event)) (s : Boot (Cluster St)) :
    option (Boot (Cluster St)) :=
  match es with
  | [] => Some s
  | e :: es' => s' ← vote_boot_exec1 e s; vote_boot_exec es' s'
  end.

Lemma vote_boot_exec1_step e s s' : vote_boot_exec1 e s = Some s' -> vote_boot_step vfresh s s'.
Proof.
  destruct s as [c B], e as [id|id|[id i|src k|k]]; cbn -[handle start_again restore_hard_state].
  - intros (n & Hn & [= <-])%bind_Some. by apply vbs_start.
  - intros (n & Hn & He)%bind_Some. case_decide; [|done]. injection He as <-. by apply vbs_restore.
  - destruct (is_restart i) eqn:Hi; [done|]. cbn [mbind option_bind].
    case_decide; [done|]. intros (c' & He & [= <-])%bind_Some.
    apply bind_Some in He as (n & Hn & He). case_match eqn:Hb; [|done].
    apply andb_true_iff in Hb as [Hl Ha]. injection He as <-.
    apply vbs_local; [done|done|by destruct i as [| | |[]| | |]|by intros ->|].
    destruct i; cbn in *; try done.
    apply orb_true_iff in Ha as [Ha|Ha]; [by left|right]. by apply N.ltb_lt.
  - intros (id & Hr & He)%bind_Some. apply bind_Some in Hr as (m & Hm & Hr).
    rewrite Hm in He. cbn [mbind option_bind] in He.
    destruct (effects m !! k) as [[peer req| | | | | | | | |]|] eqn:Hk; try done.
    injection Hr as <-. case_decide as HB; [done|]. apply bind_Some in He as (c' & He & [= <-]).
    apply bind_Some in He as (n & Hn & He).
    destruct (handle (InRequestVote req) n) as [o n'] eqn:Hh. injection He as <-.
    eapply vbs_request; try done. by eapply list_elem_of_lookup_2.
  - intros (id & Hx & He)%bind_Some. apply fmap_Some in Hx as (v & Hx & ->).
    case_decide as HB; [done|]. apply bind_Some in He as (c' & He & [= <-]).
    rewrite Hx in He. cbn [mbind option_bind] in He. apply bind_Some in He as (n & Hn & He).
    case_decide; [|done]. injection He as <-. apply vbs_response; try done.
    by eapply list_elem_of_lookup_2.
Qed.

Lemma vote_boot_exec_steps es s0 s s' :
  vote_boot_steps vfresh s0 s -> vote_boot_exec es s = Some s' -> vote_boot_steps vfresh s0 s'.
Proof.
  revert s. induction es as [|e es IH]; intros s Hs; cbn; [by intros [= <-]|].
  intros (s1 & Hs1 & He)%bind_Some. eapply IH; [|done].
  eapply vbss_step; [done|]. by eapply vote_boot_exec1_step.
Qed.
End exec.

(** ** Concrete executions *)

Section examples.
Local Existing Instance dev_profile.
#[local] Existing Instances MemStorage MemStorage_log MemStorage_durable.

(** Node 1 times out; node 2 starts again, crashes before its loop has restored
    anything, and starts once more; then it grants its vote, which makes node 1
    the leader while node 3 is booting. *)
Definition ex_reboot : list (BootEvent Event) :=
  [BStep (EvLocal 1 InElectionTimeout); BStart 2; BStart 2; BStart 3; BRestore 2;
   BStep (EvRequest 1 2); BStep (EvResponse 0)].

Lemma election_safety_witness :
  exists s n1, vote_boot_steps not_stale (MkBoot ex_cluster ∅) s /\
    nodes (system s) !! 1 = Some n1 /\ role (sm n1) = Leader /\ current_term (sm n1) = 1 /\
    forall b nb, nodes (system s) !! b = Some nb -> role (sm nb) = Leader ->
      current_term (sm nb) = 1 -> b = 1.
Proof.
  assert (exists s, vote_boot_exec not_stale ex_reboot (MkBoot ex_cluster ∅) = Some s /\
            exists n1, nodes (system s) !! 1 = Some n1 /\ role (sm n1) = Leader /\
              current_term (sm n1) = 1) as (s & Hs & n1 & H1 & Hr & Ht).
  { eexists. split; [vm_compute; reflexivity|]. eexists.
    split; [vm_compute; reflexivity|]. split; reflexivity. }
  apply (vote_boot_exec_steps not_stale ex_reboot (MkBoot ex_cluster ∅)) in Hs; [|constructor].
  exists s, n1. repeat (split; [assumption|]). intros b nb Hb Hrb Htb.
  apply (election_safety {[1; 2; 3]} ex_cluster s b 1 nb n1
           ex_cluster_initial Hs Hb H1 Hrb Hr). rewrite Htb, Ht. reflexivity.
Defined.

(** Node 1 leads term 1 and commits two entries with node 2; meanwhile node 3
    starts, and stays so. *)
Definition ex_committing : list (BootEvent WorldEvent) :=
  (BStep <$> ex_leading) ++ [BStart 3] ++ (BStep <$> [WTask 1 9; WAnswer 1; WOwn 1 InHeartbeat]).

(** Node 2 starts again, twice, and restores its hard state, and so does node 3,
    one after the other; node 2 wins term 2 with the vote of node 3, proposes an
    entry, which node 1 stores, and commits and applies all three, while node 3
    is booting again. *)
Definition ex_restarting : list (BootEvent WorldEvent) :=
  [BStart 2; BStart 2; BRestore 3; BRestore 2; BStart 1; BRestore 1] ++
  (BStep <$> [WOwn 2 InElectionTimeout; WTask 2 7; WAnswer 2]) ++ [BStart 3] ++
  (BStep <$> [ex_propose 2 x63; WTask 2 11; WAnswer 3; WOwn 2 InHeartbeat]).

Lemma ex_restarting_run :
  exists s1 s2 n1 n1' n2 e, boot_steps orderly (MkBoot ex_world ∅) s1 /\ boot_steps orderly s1 s2 /\
    replicas (system s1) !! 1 = Some n1 /\ replicas (system s2) !! 1 = Some n1' /\
    replicas (system s2) !! 2 = Some n2 /\ booting s2 = {[3]} /\
    commit_index (sm n1) = 2 /\ current_term (sm n1) = 1 /\
    role (sm n2) = Leader /\ current_term (sm n2) = 2 /\
    lv_log (log n1) !! 2 = Some (MkLogEntry 1 2 [x62] Normal) /\
    ApplyEntry (MkLogEntry 1 2 [x62] Normal) ∈ effects n1' /\
    ApplyEntry e ∈ effects n2 /\ le_index e = 2.
Proof.
  assert (exists s1, boot_exec orderly ex_committing (MkBoot ex_world ∅) = Some s1 /\
    exists n1, replicas (system s1) !! 1 = Some n1 /\ commit_index (sm n1) = 2 /\
      current_term (sm n1) = 1 /\ lv_log (log n1) !! 2 = Some (MkLogEntry 1 2 [x62] Normal) /\
    exists s2, boot_exec orderly ex_restarting s1 = Some s2 /\
    exists n1' n2, replicas (system s2) !! 1 = Some n1' /\ replicas (system s2) !! 2 = Some n2 /\
      booting s2 = {[3]} /\ role (sm n2) = Leader /\ current_term (sm n2) = 2 /\
      effects n1' !! 17%nat = Some (ApplyEntry (MkLogEntry 1 2 [x62] Normal)) /\
      exists e, effects n2 !! 19%nat = Some (ApplyEntry e) /\ le_index e = 2)
    as (s1 & Hs1 & n1 & H1 & Hc & Ht & Hl & s2 & Hs2 & n1' & n2 & H1' & H2 & Hb & Hr & Ht2 & He & e & He2 & Hi).
  { eexists. split; [vm_compute; reflexivity|]. eexists. split; [vm_compute; reflexivity|].
    split; [vm_compute; reflexivity|]. split; [vm_compute; reflexivity|].
    split; [vm_compute; reflexivity|]. eexists. split; [vm_compute; reflexivity|].
    do 2 eexists. split; [vm_compute; reflexivity|]. split; [vm_compute; reflexivity|].
    split; [vm_compute; reflexivity|]. split; [vm_compute; reflexivity|].
    split; [vm_compute; reflexivity|]. split; [vm_compute; reflexivity|].
    eexists. split; [vm_compute; reflexivity|reflexivity]. }
  exists s1, s2, n1, n1', n2, e.
  split; [by apply (boot_exec_steps orderly ex_committing _ (MkBoot ex_world ∅)); [constructor|]|].
  split; [by apply (boot_exec_steps orderly ex_restarting _ s1); [constructor|]|].
  apply list_elem_of_lookup_2 in He, He2. repeat (split; [assumption|]). assumption.
Qed.

Lemma restarts_refine_world_witness :
  exists s n, boot_steps orderly (MkBoot ex_world ∅) s /\ 3 ∈ booting s /\
    replicas (system s) !! 3 = Some n /\
    exists w, world_steps orderly ex_world w /\
      replicas w !! 3 = Some (restore_hard_state n).2.
Proof.
  destruct ex_restarting_run as (s1 & s & n1 & n1' & n2 & e & Hs1 & Hs2 & _ & H1' & _ & Hb & _).
  assert (boot_steps orderly (MkBoot ex_world ∅) s) as Hs by (eapply boot_steps_trans; eassumption).
  destruct (restarts_refine_world orderly ex_world s Hs) as (w & Hw & _ & Hd & Hn).
  assert (3 ∈ booting s) as H3 by (rewrite Hb; apply elem_of_singleton_2; reflexivity).
  destruct (boot_steps_nodes orderly _ _ Hs 3) as [n Hn3]; [eexists; vm_compute; reflexivity|].
  exists s, n. repeat (split; [assumption|]). exists w. split; [exact Hw|].
  destruct (Hn 3 n Hn3) as (n' & Hn' & Heq & _). rewrite decide_True in Heq by exact H3.
  rewrite <- Heq. exact Hn'.
Defined.

Lemma state_machine_safety_witness :
  exists s n1 n2, boot_steps orderly (MkBoot ex_world ∅) s /\
    replicas (system s) !! 1 = Some n1 /\ replicas (system s) !! 2 = Some n2 /\
    ApplyEntry (MkLogEntry 1 2 [x62] Normal) ∈ effects n1 /\
    ApplyEntry (MkLogEntry 1 2 [x62] Normal) ∈ effects n2.
Proof.
  destruct ex_restarting_run as
    (s1 & s & n1 & n1' & n2 & e & Hs1 & Hs2 & _ & H1' & H2 & _ & _ & _ & _ & _ & _ & He & He2 & Hi).
  assert (boot_steps orderly (MkBoot ex_world ∅) s) as Hs by (eapply boot_steps_trans; eassumption).
  pose proof (state_machine_safety {[1; 2; 3]} ex_world s 2 1 n2 n1' e _ ex_world_newborn Hs
                H2 H1' He2 He Hi) as Heq.
  exists s, n1', n2. repeat (split; [assumption|]). rewrite <- Heq at 1. exact He2.
Defined.

Lemma leader_completeness_witness :
  exists s n2, boot_steps orderly (MkBoot ex_world ∅) s /\ replicas (system s) !! 2 = Some n2 /\
    role (sm n2) = Leader /\ current_term (sm n2) = 2 /\
    lv_log (log n2) !! 2 = Some (MkLogEntry 1 2 [x62] Normal).
Proof.
  destruct ex_restarting_run as
    (s1 & s & n1 & n1' & n2 & e & Hs1 & Hs2 & H1 & _ & H2 & _ & Hc & Ht & Hr & Ht2 & Hl & _).
  exists s, n2. split; [eapply boot_steps_trans; eassumption|]. repeat (split; [assumption|]).
  apply (leader_completeness {[1; 2; 3]} ex_world s1 s 1 2 n1 n2 2 _ ex_world_newborn Hs1 Hs2 H1
           ltac:(rewrite Hc; lia) Hl H2 Hr). rewrite Ht, Ht2. lia.
Defined.

Lemma committed_entries_stay_witness :
  exists s n1, boot_steps orderly (MkBoot ex_world ∅) s /\ replicas (system s) !! 1 = Some n1 /\
    2 <= commit_index (sm n1) /\ lv_log (log n1) !! 2 = Some (MkLogEntry 1 2 [x62] Normal).
Proof.
  destruct ex_restarting_run as
    (s1 & s & n1 & n1' & n2 & e & Hs1 & Hs2 & H1 & H1' & _ & Hb & Hc & _ & _ & _ & Hl & _).
  destruct (committed_entries_stay {[1; 2; 3]} ex_world s1 s 1 n1 n1' 2 ex_world_newborn Hs1 Hs2
              H1 H1' ltac:(rewrite Hc; lia)) as (Hle & _ & Heq).
  exists s, n1'. split; [eapply boot_steps_trans; eassumption|]. split; [exact H1'|].
  split; [|rewrite Heq; exact Hl]. apply Hle. rewrite Hb, elem_of_singleton. discriminate.
Defined.
End examples.
