(* ===== verification/ReplicatedLog.v ===== *)
(** * The cluster as one log

    What a replicated log promises, as an abstract machine, and the theorem that
    the cluster implements it: a list of entries that only grows, of which every
    node has committed a prefix and applied entries at their places. *)

From Stdlib Require Import Lia Init.Byte.
From stdpp Require Import base numbers list option gmap sets fin_maps strings.
From S2P Require Import Prelude.
From S2P Require Import Core.
From S2P Require Import Storage.
From S2P Require Import MemStorage.
From S2P Require Import StateMachine.
From S2P Require Import Node.
From S2P Require Import Handlers.
From S2P Require Import NodeLog.
From S2P Require Import Total.
From S2P Require Import LogSteps.
From S2P Require Import CommitSteps.
From S2P Require Import Ensemble.
From S2P Require Import Matching.
From S2P Require Import History.
From S2P Require Import Orderly.
From S2P Require Import SafetyInvariant.
From S2P Require Import Safety.

(** ** The specification: an append-only log *)

Definition entry_at (s : list LogEntry) (j : LogIndex) : option LogEntry :=
  if j =? 0 then None else s !! N.to_nat (j - 1).

Definition log_step (s s' : list LogEntry) : Prop := s `prefix_of` s'.

Lemma prefix_of_entries s s' :
  (forall j, 0 < j <= nlen s -> entry_at s j = entry_at s' j) -> s `prefix_of` s'.
Proof.
  intros Hj. exists (drop (length s) s'). rewrite <- (take_drop (length s) s') at 1. f_equal.
  apply list_eq. intros i. destruct (decide (i < length s)%nat) as [Hi|Hi].
  - rewrite lookup_take_lt by done. specialize (Hj (N.of_nat i + 1)). unfold entry_at, nlen in Hj.
    rewrite (proj2 (N.eqb_neq _ _)) in Hj by lia. replace (N.to_nat _) with i in Hj by lia.
    symmetry. apply Hj. lia.
  - rewrite !lookup_ge_None_2; [done|lia|]. rewrite length_take. lia.
Qed.

(** ** What implements it *)

Section implements.
Context {prof : BuildProfile} {St : Type}
  `{HS : Storage St, HL : !LogStorage St, HD : !DurableStorage St}.
Implicit Types (w : World St) (n : RaftNodeInner St).

Record implements w (s : list LogEntry) : Prop := {
  im_committed id n : replicas w !! id = Some n ->
    commit_index (sm n) <= nlen s /\
    forall j, 0 < j <= commit_index (sm n) -> lv_log (log n) !! j = entry_at s j;
  im_whole : s = [] \/ exists id n, replicas w !! id = Some n /\ commit_index (sm n) = nlen s;
  im_applied id n e : replicas w !! id = Some n -> ApplyEntry e ∈ effects n ->
    entry_at s (le_index e) = Some e;
}.

Lemma implements_unique w s s' : implements w s -> implements w s' -> s `prefix_of` s'.
Proof.
  intros [Hc1 Hw1 _] [Hc2 _ _]. destruct Hw1 as [->|(id & n & Hn & Heq)]; [apply prefix_nil|].
  apply prefix_of_entries. intros j Hj. destruct (Hc1 id n Hn) as [_ H1]. destruct (Hc2 id n Hn) as [_ H2].
  rewrite <- H1, <- H2 by lia. done.
Qed.

(** What is applied is committed and in the log still. *)
Definition applied_logged w : Prop :=
  forall id n e, replicas w !! id = Some n -> ApplyEntry e ∈ effects n ->
    lv_log (log n) !! le_index e = Some e /\ 0 < le_index e <= commit_index (sm n).

Lemma handle_applies i n e :
  node_ok n -> ready n -> takes n i -> commit_index (sm n) <= lv_last (log n) ->
  ApplyEntry e ∈ effects (handle i n).2 ->
  ApplyEntry e ∈ effects n \/
  lv_log (log (handle i n).2) !! le_index e = Some e /\ le_index e <= commit_index (sm (handle i n).2).
Proof.
  intros Hok Hrd Ht Hci He. assert (i = InHeartbeat \/ i <> InHeartbeat) as [->|Hi]
    by (destruct i; first [by left|by right]); [|left; by eapply applied_before].
  by apply (cs_applied _ _ _ (handle_commit_step InHeartbeat n Hok Hrd Ht Hci ltac:(done))).
Qed.

Lemma applied_logged_steps V w w' B E H :
  cluster_safe V w B E H -> applied_logged w -> world_steps orderly w w' -> applied_logged w'.
Proof.
  intros Hcs Hal Hs. induction Hs as [w|w1 w2 w3 Hs12 IH Hs]; [done|].
  specialize (IH Hcs Hal). destruct (safety_steps V w1 w2 B E H Hs12 Hcs) as (B2 & E2 & H2 & _ & Hcs2 & _).
  destruct (safety_step V w2 w3 B2 E2 H2 Hcs2 Hs) as (B3 & E3 & H3 & _ & Hcs3 & Hk).
  assert (world_step fresh_votes w2 w3) as Hst
    by (eapply world_step_weaken; [|done]; apply orderly_fresh).
  pose proof (cf_world _ _ _ _ _ Hcs2) as Hw2.
  assert (forall id n n' e, replicas w2 !! id = Some n -> replicas w3 !! id = Some n' ->
    ApplyEntry e ∈ effects n ->
    lv_log (log n') !! le_index e = Some e /\ 0 < le_index e <= commit_index (sm n')) as Hold.
  { intros id n n' e Hn Hn' He. destruct (IH id n e Hn He) as [Hl Hj].
    destruct (Hk id n Hn) as (m & Hm & Hkj). assert (m = n') as -> by congruence.
    destruct (Hkj _ Hj) as [? ->]. split; [done|lia]. }
  destruct (world_step_acts V 0 w2 w3 B2 E2 Hw2 Hst) as (_ & [Heq|(a & n & i & Hn & Heq & Ht & _)]).
  { intros id n e Hid He. by apply (Hold id n n); [rewrite <- Heq| |]. }
  intros id n' e Hid He. destruct (decide (id = a)) as [->|Hne].
  2: { apply (Hold id n' n'); [|done|done]. by rewrite Heq, lookup_insert_ne in Hid by done. }
  assert (n' = (handle i n).2) as -> by (rewrite Heq, lookup_insert_eq in Hid; congruence).
  pose proof (cf_node _ _ _ _ _ Hcs2 a n Hn) as Hns.
  destruct (handle_applies i n e) as [Hb|[Hl Hle]]; try done; try apply Hns.
  - by apply (ri_ready _ _ _ _ _ _ (wi_node _ _ _ _ _ Hw2 a n Hn)).
  - by apply (Hold a n).
  - split; [done|]. split; [|done].
    apply (whole_dom (log (handle i n).2)); [|by eauto].
    apply ready_whole, (ri_ready _ _ _ _ _ _ (wi_node _ _ _ _ _ (cf_world _ _ _ _ _ Hcs3) a _ Hid)).
Qed.

(** The entries a node has committed, in order. *)
Definition committed n : list LogEntry :=
  log_range (lv_log (log n)) 1 (N.to_nat (commit_index (sm n))).

Lemma furthest (m : gmap NodeId (RaftNodeInner St)) :
  m = ∅ \/ exists id n, m !! id = Some n /\
    forall a x, m !! a = Some x -> commit_index (sm x) <= commit_index (sm n).
Proof.
  induction m as [|i x m Hi IH] using map_ind; [by left|right]. destruct IH as [->|(id & n & Hn & Hmax)].
  - exists i, x. rewrite lookup_insert_eq. split; [done|]. intros a y.
    rewrite lookup_insert_Some, lookup_empty. by intros [[_ <-]|[_ ?]].
  - assert (id <> i) as Hne by congruence.
    destruct (N.le_ge_cases (commit_index (sm n)) (commit_index (sm x))).
    + exists i, x. rewrite lookup_insert_eq. split; [done|]. intros a y.
      rewrite lookup_insert_Some. intros [[_ <-]|[_ Hy]]; [done|]. etrans; [by eapply Hmax|done].
    + exists id, n. rewrite lookup_insert_ne by done. split; [done|]. intros a y.
      rewrite lookup_insert_Some. intros [[_ <-]|[_ Hy]]; [done|by eapply Hmax].
Qed.

Section reached.
Variables (V : gset NodeId) (w : World St) (B : gmap (NodeId * Term) NodeId) (E : origins) (H : History).
Hypotheses (Hcs : cluster_safe V w B E H) (Hal : applied_logged w).

Lemma reached_dom id n : replicas w !! id = Some n ->
  forall j, 0 < j <= commit_index (sm n) -> is_Some (lv_log (log n) !! j).
Proof.
  intros Hn j Hj. pose proof (ns_last _ _ _ _ _ (cf_node _ _ _ _ _ Hcs id n Hn)).
  apply (whole_dom (log n)); [|lia].
  apply ready_whole, (ri_ready _ _ _ _ _ _ (wi_node _ _ _ _ _ (cf_world _ _ _ _ _ Hcs) id n Hn)).
Qed.

(** Nodes agree on what both have committed. *)
Lemma reached_agree a b n m j :
  replicas w !! a = Some n -> replicas w !! b = Some m ->
  0 < j <= commit_index (sm n) -> j <= commit_index (sm m) ->
  lv_log (log n) !! j = lv_log (log m) !! j.
Proof.
  intros Hn Hm Hj Hj'. destruct (reached_dom a n Hn j Hj) as [e He].
  destruct (reached_dom b m Hm j) as [x Hx]; [lia|]. rewrite He, Hx. f_equal.
  eapply safe_unique; [by eapply cf_history| |].
  - apply (ns_commit _ _ _ _ _ (cf_node _ _ _ _ _ Hcs a n Hn)); [apply Hj|done].
  - by apply (ns_commit _ _ _ _ _ (cf_node _ _ _ _ _ Hcs b m Hm)).
Qed.

Lemma length_committed id n : replicas w !! id = Some n -> nlen (committed n) = commit_index (sm n).
Proof.
  intros Hn. unfold nlen, committed. rewrite length_log_range; [lia|].
  intros j Hj. apply (reached_dom id n Hn). lia.
Qed.

Lemma committed_at id n j : replicas w !! id = Some n -> 0 < j <= commit_index (sm n) ->
  entry_at (committed n) j = lv_log (log n) !! j.
Proof.
  intros Hn Hj. unfold entry_at, committed. rewrite (proj2 (N.eqb_neq _ _)) by lia.
  rewrite lookup_log_range by (intros; apply (reached_dom id n Hn); lia).
  rewrite (proj2 (Nat.ltb_lt _ _)) by lia. f_equal. lia.
Qed.

Lemma reached_implements : exists s, implements w s.
Proof.
  destruct (furthest (replicas w)) as [He|(id & n & Hn & Hmax)].
  { exists []. split; [|by left|]; intros a x; rewrite He, lookup_empty; done. }
  assert (forall a m, replicas w !! a = Some m -> commit_index (sm m) <= nlen (committed n) /\
    forall j, 0 < j <= commit_index (sm m) -> lv_log (log m) !! j = entry_at (committed n) j) as Hc.
  { intros a m Hm. pose proof (Hmax a m Hm). rewrite (length_committed id n Hn). split; [done|].
    intros j Hj. rewrite (committed_at id n j Hn) by lia. apply (reached_agree a id); [done|done|done|lia]. }
  exists (committed n). split; [exact Hc| |].
  - right. exists id, n. by rewrite (length_committed id n Hn).
  - intros a m e Hm Ha. destruct (Hal a m e Hm Ha) as [Hl Hj].
    destruct (Hc a m Hm) as [_ Hcj]. by rewrite <- Hcj.
Qed.
End reached.

Lemma implements_grows w w' s s' :
  implements w s -> implements w' s' -> keeps_committed w w' -> log_step s s'.
Proof.
  intros [Hc1 Hw1 _] [Hc2 _ _] Hk. destruct Hw1 as [->|(id & n & Hn & Heq)]; [apply prefix_nil|].
  apply prefix_of_entries. intros j Hj. destruct (Hk id n Hn) as (n' & Hn' & Hkj).
  destruct (Hkj j) as [Hle Hsame]; [lia|]. destruct (Hc1 id n Hn) as [_ H1].
  destruct (Hc2 id n' Hn') as [_ H2]. rewrite <- H1, <- H2 by lia. done.
Qed.

Lemma newborn_logged V w : newborn V w -> applied_logged w.
Proof.
  intros [Hb _] id n e Hn He. destruct (bo_node _ _ _ Hb id n Hn) as (Hst & _).
  destruct Hst as (_ & _ & _ & _ & _ & _ & _ & Heff). rewrite Heff in He. by apply not_elem_of_nil in He.
Qed.

Lemma newborn_empty V w : newborn V w -> implements w [].
Proof.
  intros Hnb. pose proof (newborn_logged V w Hnb) as Hal. destruct Hnb as [Hb Hz].
  split; [|by left|].
  - intros id n Hn. destruct (Hz id n Hn) as (_ & -> & _). split; [done|lia].
  - intros id n e Hn He. destruct (Hal id n e Hn He) as [_ Hj].
    destruct (Hz id n Hn) as (_ & Hc & _). lia.
Qed.

(** C1. The cluster is one append-only log: nodes that have never run implement
    the empty log, and whatever an orderly execution reaches implements exactly
    one log, of which every node's committed entries are a prefix, some node's
    are the whole, and every entry any node has handed to the application is
    the one at its index. Every further execution (one step, or many) only
    appends to that log. *)
Theorem cluster_implements_log V w0 w
    (Hborn : newborn V w0) (Hsteps : world_steps orderly w0 w) :
  implements w0 [] /\
  (exists s, implements w s /\ forall s', implements w s' -> s' = s) /\
  forall s w', implements w s -> world_steps orderly w w' ->
    exists s', implements w' s' /\ log_step s s'.
Proof.
  split; [by eapply newborn_empty|].
  destruct (newborn_safe V w0 Hborn) as (B0 & E0 & H0 & Hs0).
  destruct (safety_steps V w0 w B0 E0 H0 Hsteps Hs0) as (B & E & H & _ & Hcs & _).
  pose proof (applied_logged_steps V w0 w _ _ _ Hs0 (newborn_logged V w0 Hborn) Hsteps) as Hal.
  split.
  - destruct (reached_implements V w B E H Hcs Hal) as [s Hs]. exists s. split; [done|].
    intros s' Hs'. apply (anti_symm prefix); by eapply implements_unique.
  - intros s w' Hs Hst. destruct (safety_steps V w w' B E H Hst Hcs) as (B' & E' & H' & _ & Hcs' & Hk).
    pose proof (applied_logged_steps V w w' _ _ _ Hcs Hal Hst) as Hal'.
    destruct (reached_implements V w' B' E' H' Hcs' Hal') as [s' Hs']. exists s'. split; [done|].
    by eapply implements_grows.
Qed.
End implements.

(** ** A concrete execution *)

Section examples.
Local Existing Instance dev_profile.
#[local] Existing Instances MemStorage MemStorage_log MemStorage_durable.

(** Two nodes have committed two entries, then the second leads on: the log the
    cluster implements keeps them. *)
Lemma cluster_implements_log_witness :
  exists w1 w2 s s', world_steps orderly ex_world w1 /\ world_steps orderly w1 w2 /\
    implements w1 s /\ implements w2 s' /\ s `prefix_of` s' /\ 2 <= nlen s /\
    entry_at s' 2 = Some (MkLogEntry 1 2 [x62] Normal).
Proof.
  destruct ex_succession_run as
    (w1 & w2 & n1 & n1' & n2 & Hs1 & Hs2 & H1 & H1' & _ & Hc & _ & _ & _ & _ & He & _).
  destruct (cluster_implements_log {[1; 2; 3]} ex_world w1 ex_world_newborn Hs1)
    as (_ & (s & Hs & _) & Hgrow).
  destruct (Hgrow s w2 Hs Hs2) as (s' & Hs' & Hpre). exists w1, w2, s, s'.
  repeat (split; [assumption|]). split.
  - destruct (im_committed _ _ Hs 1 n1 H1) as [Hle _]. rewrite Hc in Hle. exact Hle.
  - apply list_elem_of_lookup_2 in He. exact (im_applied _ _ Hs' 1 n1' _ H1' He).
Defined.
End examples.
