(* ===== verification/Disorder.v ===== *)
(** * Three executions

    The condition of [Safety] on the answers to AppendEntries is needed: an
    execution in which no vote is stale and every AppendEntries is in order, but
    a success of an earlier term is counted, and two nodes apply different
    entries at one index. ([Cluster] and [Matching] have the executions for the
    other two conditions.) The condition on the requests does not come with an
    orderly network: an execution in which every message arrives in the order
    it was sent, and two nodes still apply different entries, because the size
    cap of [replicate_to] makes a request shorter than the one before it. And
    safety does not reach [ReadIndex]: an execution with all three conditions in
    which a read returns less than has been answered before. *)

From Stdlib Require Import Lia Init.Byte.
From stdpp Require Import base numbers list option gmap sets fin_maps strings.
From S2P Require Import Prelude.
From S2P Require Import Core.
From S2P Require Import Storage.
From S2P Require Import MemStorage.
From S2P Require Import StateMachine.
From S2P Require Import Node.
From S2P Require Import Handlers.
From S2P Require Import Cluster.
From S2P Require Import LogSteps.
From S2P Require Import Ensemble.
From S2P Require Import Orderly.
From S2P Require Import Safety.

(** [orderly] without its condition on successes. *)
Definition any_success {St} `{LogStorage St} (n : RaftNodeInner St) (i : Input) : Prop :=
  match i with
  | InMessage (AppendResponse _ _ _) => True
  | _ => orderly n i
  end.

#[export] Instance any_success_dec {St} `{LogStorage St} (n : RaftNodeInner St) i :
  Decision (any_success n i).
Proof. destruct i as [| | |[]| | |]; cbn; unfold in_order; apply _. Defined.

(** [orderly] without its condition on requests. *)
Definition any_request {St} `{LogStorage St} (n : RaftNodeInner St) (i : Input) : Prop :=
  match i with
  | InAppendEntries _ => True
  | _ => orderly n i
  end.

#[export] Instance any_request_dec {St} `{LogStorage St} (n : RaftNodeInner St) i :
  Decision (any_request n i).
Proof. destruct i as [| | |[]| | |]; cbn; unfold in_order; apply _. Defined.

(** Each node's requests are carried in the order it sent them, each at most
    once; the answers are taken in the order they were given, each at most once;
    and no node restarts. [sent] has the next request of each node, [next] the
    next answer. *)
Fixpoint in_sequence (sent : gmap NodeId nat) (next : nat) (es : list WorldEvent) : bool :=
  match es with
  | [] => true
  | WOwn _ InRestart :: _ => false
  | WOwn _ _ :: es => in_sequence sent next es
  | WTask id k :: es => (default O (sent !! id) <=? k)%nat && in_sequence (<[id := S k]> sent) next es
  | WAnswer k :: es => (next <=? k)%nat && in_sequence sent (S k) es
  end.

Section examples.
Local Existing Instance dev_profile.
#[local] Existing Instances MemStorage MemStorage_log MemStorage_durable.

(** Five fresh nodes; [cap] is [max_append_entries]. *)
Definition fresh (cap : N) (id : NodeId) (peers : list NodeId) : RaftNodeInner MemStorageInner :=
  node_new (MkRaftConfig id peers 100 300 600 cap 10000 1024) MemStorage_new.
Definition five_nodes (cap : N) : World MemStorageInner :=
  MkWorld (list_to_map
    [(1, fresh cap 1 [2; 3; 4; 5]); (2, fresh cap 2 [1; 3; 4; 5]); (3, fresh cap 3 [1; 2; 4; 5]);
     (4, fresh cap 4 [1; 2; 3; 5]); (5, fresh cap 5 [1; 2; 3; 4])]) [].

Lemma fresh_ready cap id peers : u64 (cap * 4096) -> ready (fresh cap id peers).
Proof. intros Hcap. split; [by_compute|reflexivity|apply map_Forall_empty|exact Hcap|reflexivity]. Qed.

Lemma five_nodes_newborn cap :
  u64 (cap * 4096) -> newborn {[1; 2; 3; 4; 5]} (five_nodes cap).
Proof.
  intros Hcap.
  assert (forall id n, replicas (five_nodes cap) !! id = Some n ->
    (exists peers, n = fresh cap id peers) /\ started {[1; 2; 3; 4; 5]} id n) as Hall.
  { intros id n Hn. apply elem_of_list_to_map_2 in Hn.
    repeat apply elem_of_cons in Hn as [Hn|Hn]; try (injection Hn as -> ->);
      [..|by apply not_elem_of_nil in Hn];
      (split; [by eexists|repeat split; try done; by_compute]). }
  split; [split|].
  - done.
  - intros id n Hn. destruct (Hall id n Hn) as [(peers & ->) Hst]. split; [done|].
    split; [by apply fresh_ready|]. split; [cbn; lia|]. by intros i e.
  - intros a b na nb Ha Hb. destruct (Hall a na Ha) as [(pa & ->) _]. by intros i e.
  - intros id n Hn. destruct (Hall id n Hn) as [(peers & ->) _]. by repeat split.
Qed.

(** Node 1 leads term 1 and node 2 stores its entries [a] and [b]; the answer
    stays on its way. Node 3 leads term 2 and replaces node 1's log by [c]. Node 1
    leads term 3, node 4 stores its [c] and [d]; with the answer of term 1 that
    makes three of five, and [d] is committed and applied. Node 3 leads term 4,
    nodes 2 and 5 store its [c] and [e], and it applies them. *)
Definition ex_stale_success : list WorldEvent :=
  [WOwn 1 InElectionTimeout; WTask 1 2; WTask 1 3; WAnswer 0; WAnswer 1;
   ex_propose 1 x61; ex_propose 1 x62; WTask 1 15;
   WOwn 3 InElectionTimeout; WTask 3 7; WTask 3 8; WAnswer 3; WAnswer 4;
   ex_propose 3 x63; WTask 3 14;
   WOwn 1 InElectionTimeout; WTask 1 25; WTask 1 26; WAnswer 6; WAnswer 7;
   WTask 1 30; WAnswer 8; ex_propose 1 x64; WTask 1 34; WAnswer 9; WAnswer 2; WOwn 1 InHeartbeat;
   WOwn 3 InElectionTimeout; WOwn 3 InElectionTimeout; WTask 3 27; WTask 3 29;
   WAnswer 10; WAnswer 11; WTask 3 32; WTask 3 34; WAnswer 12; WAnswer 13;
   ex_propose 3 x65; WTask 3 36; WTask 3 38; WAnswer 14; WAnswer 15; WOwn 3 InHeartbeat].

(** C13. A success of an earlier term breaks State Machine Safety:
    [handle_append_response] compares the term of rejections only. Five fresh
    nodes, no crash, no stale vote, every AppendEntries in order: the answer to
    a request of term 1 reaches its sender in term 3, after its log has been
    replaced, and is counted for an entry the peer has never seen; nodes 1 and 3
    apply different entries at index 2. *)
Theorem stale_success_breaks_safety :
  newborn {[1; 2; 3; 4; 5]} (five_nodes 128) /\
  exists w n1 n3 e1 e3, world_steps any_success (five_nodes 128) w /\
    replicas w !! 1 = Some n1 /\ replicas w !! 3 = Some n3 /\
    ApplyEntry e1 ∈ effects n1 /\ ApplyEntry e3 ∈ effects n3 /\
    le_index e1 = 2 /\ le_index e3 = 2 /\ le_data e1 = [x64] /\ le_data e3 = [x65].
Proof.
  split; [apply five_nodes_newborn; by_compute|].
  assert (exists w, world_exec any_success ex_stale_success (five_nodes 128) = Some w /\
    exists n1 n3 e1 e3, replicas w !! 1 = Some n1 /\ replicas w !! 3 = Some n3 /\
      effects n1 !! 44%nat = Some (ApplyEntry e1) /\ effects n3 !! 47%nat = Some (ApplyEntry e3) /\
      le_index e1 = 2 /\ le_index e3 = 2 /\ le_data e1 = [x64] /\ le_data e3 = [x65])
    as (w & Hw & n1 & n3 & e1 & e3 & H1 & H3 & He1 & He3 & Hrest).
  { eexists. split; [vm_compute; reflexivity|]. do 4 eexists.
    split; [vm_compute; reflexivity|]. split; [vm_compute; reflexivity|].
    split; [vm_compute; reflexivity|]. split; [vm_compute; reflexivity|].
    repeat split; reflexivity. }
  apply (world_exec_steps _ _ _ (five_nodes 128)) in Hw; [|constructor].
  apply list_elem_of_lookup_2 in He1, He3.
  exists w, n1, n3, e1, e3. do 5 (split; [assumption|]). exact Hrest.
Qed.

(** [max_append_entries] is one: 4096 bytes a request. Node 1 leads term 1 and
    commits [a] and a second entry of 4096 bytes with nodes 2 and 3, and applies
    both; its next request to node 2 ends with them, the third entry no longer
    fits. Node 3 wins terms 2 and 3 and brings nodes 2 and 4 into its term: what
    it sends node 2 there begins at index 1 and ends at index 1, for the second
    entry no longer fits behind the first. Node 2, with one entry left, wins
    term 5 and commits another second entry. *)
Definition big : bytes := replicate 4096 x62.
Definition propose (id : NodeId) (d : bytes) : WorldEvent :=
  WOwn id (InMessage (Propose (MkProposal d None))).
Definition ex_capped : list WorldEvent :=
  [WOwn 1 InElectionTimeout; WTask 1 2; WTask 1 3; WAnswer 0; WAnswer 1;
   propose 1 [x61]; WTask 1 11; WTask 1 12; WAnswer 2; WAnswer 3;
   propose 1 big; WTask 1 18; WTask 1 19; WAnswer 4; WAnswer 5; WOwn 1 InHeartbeat;
   propose 1 [x63]; WTask 1 31;
   WOwn 3 InElectionTimeout; WTask 3 10; WTask 3 11; WAnswer 7; WAnswer 8; propose 3 [x64];
   WOwn 4 InElectionTimeout; WTask 4 7;
   WOwn 3 InElectionTimeout; WTask 3 26; WTask 3 27; WAnswer 10; WAnswer 11;
   WTask 3 30; WAnswer 12; WOwn 3 InHeartbeat; WTask 3 34;
   WOwn 2 InElectionTimeout; WTask 2 14; WTask 2 15; WAnswer 14; WAnswer 15;
   propose 2 [x65]; WOwn 2 InHeartbeat].

(** C14. The size cap of [replicate_to] breaks State Machine Safety on a network
    that loses no order: five fresh nodes, no crash, every request and every
    answer at most once and in the order of sending, no stale vote and no stale
    success. A later leader's request starts earlier in the log than the last
    one and is cut off by the cap before its end; [append_entries] truncates
    whatever lies behind it, a committed entry too, and the peer it is lost on
    then wins an election: nodes 1 and 2 apply different entries at index 2. *)
Theorem capped_append_breaks_safety :
  newborn {[1; 2; 3; 4; 5]} (five_nodes 1) /\
  in_sequence ∅ 0 ex_capped = true /\
  exists w n1 n2 e1 e2, world_exec any_request ex_capped (five_nodes 1) = Some w /\
    replicas w !! 1 = Some n1 /\ replicas w !! 2 = Some n2 /\
    ApplyEntry e1 ∈ effects n1 /\ ApplyEntry e2 ∈ effects n2 /\
    le_index e1 = 2 /\ le_index e2 = 2 /\ le_data e1 = big /\ le_data e2 = [x65].
Proof.
  split; [apply five_nodes_newborn; by_compute|]. split; [vm_compute; reflexivity|].
  assert (exists w, world_exec any_request ex_capped (five_nodes 1) = Some w /\
    exists n1 n2 e1 e2, replicas w !! 1 = Some n1 /\ replicas w !! 2 = Some n2 /\
      effects n1 !! 30%nat = Some (ApplyEntry e1) /\ effects n2 !! 30%nat = Some (ApplyEntry e2) /\
      le_index e1 = 2 /\ le_index e2 = 2 /\ le_data e1 = big /\ le_data e2 = [x65])
    as (w & Hw & n1 & n2 & e1 & e2 & H1 & H2 & He1 & He2 & Hrest).
  { eexists. split; [vm_compute; reflexivity|]. do 4 eexists.
    split; [vm_compute; reflexivity|]. split; [vm_compute; reflexivity|].
    split; [vm_compute; reflexivity|]. split; [vm_compute; reflexivity|].
    repeat split; vm_compute; reflexivity. }
  apply list_elem_of_lookup_2 in He1, He2.
  exists w, n1, n2, e1, e2. do 5 (split; [assumption|]). exact Hrest.
Qed.

(** Node 1 leads term 1. Node 3 wins term 2 with the vote of node 2, which then
    stores its entry, and answers the client that proposed it. *)
Definition ex_answered : list WorldEvent :=
  [WOwn 1 InElectionTimeout; WTask 1 2; WAnswer 0;
   WOwn 3 InElectionTimeout; WOwn 3 InElectionTimeout; WTask 3 7; WAnswer 1;
   WOwn 3 (InMessage (Propose (MkProposal [x61] (Some 5)))); WTask 3 12; WAnswer 2].

(** C12. A read that is not linearisable: in an orderly execution of fresh nodes
    without a crash, a client's write is committed and answered with index 1 by
    the leader of term 2; then another client sends [ReadIndex] to node 1, which
    still leads term 1, and is answered index 0 at once, though [ReadIndex] is
    documented to return when the index has been confirmed. *)
Theorem stale_read :
  newborn {[1; 2; 3]} ex_world /\
  exists w1 w2 n3 n1 n1', world_steps orderly ex_world w1 /\
    replicas w1 !! 3 = Some n3 /\ ProposalReply 5 (Ok 1) ∈ effects n3 /\
    replicas w1 !! 1 = Some n1 /\ role (sm n1) = Leader /\
    world_step orderly w1 w2 /\ replicas w2 !! 1 = Some n1' /\
    effects n1' = effects n1 ++ [ReadIndexReply 9 (Ok 0)].
Proof.
  split; [apply ex_world_newborn|].
  assert (exists w1, world_exec orderly ex_answered ex_world = Some w1 /\
    exists n3 n1, replicas w1 !! 3 = Some n3 /\ last (effects n3) = Some (ProposalReply 5 (Ok 1)) /\
      replicas w1 !! 1 = Some n1 /\ role (sm n1) = Leader /\ commit_index (sm n1) = 0)
    as (w1 & Hw1 & n3 & n1 & H3 & He & H1 & Hr & Hc).
  { eexists. split; [vm_compute; reflexivity|]. do 2 eexists. split; [vm_compute; reflexivity|].
    split; [vm_compute; reflexivity|]. split; [vm_compute; reflexivity|]. split; reflexivity. }
  apply (world_exec_steps _ _ _ ex_world) in Hw1; [|constructor].
  rewrite last_lookup in He. apply list_elem_of_lookup_2 in He.
  exists w1, (MkWorld (<[1 := (handle (InMessage (ReadIndex 9)) n1).2]> (replicas w1)) (inbox w1)), n3, n1.
  eexists. do 5 (split; [assumption|]). split; [by apply ws_own|].
  split; [apply lookup_insert_eq|]. cbn. by rewrite Hc.
Qed.
End examples.
