(* ===== verification/Liveness.v ===== *)
(** * A quorum that can be reached is enough

    Liveness of the whole cluster, when the messages between one node and a
    quorum of its peers are delivered: a node whose timer fires is elected, and a
    leader commits its whole log, answers the proposals that wait and applies,
    after a bounded number of its heartbeats. Everything else may be lost. *)

From Stdlib Require Import Lia Init.Byte.
From stdpp Require Import base numbers list option gmap sets fin_maps strings.
From S2P Require Import Prelude.
From S2P Require Import Core.
From S2P Require Import Proto.
From S2P Require Import Storage.
From S2P Require Import MemStorage.
From S2P Require Import StateMachine.
From S2P Require Import Node.
From S2P Require Import Handlers.
From S2P Require Import Votes.
From S2P Require Import NodeLog.
From S2P Require Import Election.
From S2P Require Import Cluster.
From S2P Require Import RequestVote.
From S2P Require Import AppendEntries.
From S2P Require Import Replication.
From S2P Require Import Commit.
From S2P Require Import Progress.
From S2P Require Import Proposals.
From S2P Require Import Total.
From S2P Require Import CatchUp.
From S2P Require Import Network.
From S2P Require Import LogSteps.
From S2P Require Import Ensemble.

(** ** Deliveries *)

Section deliveries.
Context {prof : BuildProfile} {St : Type}
  `{HS : Storage St, HL : !LogStorage St, HD : !DurableStorage St}.
Implicit Types (ns : gmap NodeId (RaftNodeInner St)) (n m : RaftNodeInner St).

(** An input of the node's own. *)
Definition input (id : NodeId) (i : Input) ns : gmap NodeId (RaftNodeInner St) :=
  alter (fun n => (handle i n).2) id ns.

(** The task [e] of the node runs, and its answer is taken. *)
Definition deliver (id : NodeId) (e : Effect) ns : gmap NodeId (RaftNodeInner St) :=
  match run_task (H := ClusterTransport) e ns with
  | (Done (Some msg), ns') => input id (InMessage msg) ns'
  | (_, ns') => ns'
  end.

Definition deliver_all (id : NodeId) (es : list Effect) ns : gmap NodeId (RaftNodeInner St) :=
  fold_left (fun ns e => deliver id e ns) es ns.

(** The tasks an input spawned at the node that satisfy [P]. *)
Definition new_tasks (P : Effect -> bool) (i : Input) n : list Effect :=
  filter (fun e => P e = true) (drop (length (effects n)) (effects (handle i n).2)).

(** An input of the node, then the tasks it spawned that satisfy [P]. *)
Definition round_of (P : Effect -> bool) (id : NodeId) (i : Input) ns :
    gmap NodeId (RaftNodeInner St) :=
  match ns !! id with
  | Some n => deliver_all id (new_tasks P i n) (input id i ns)
  | None => ns
  end.

(** RequestVotes, AppendEntries to one of [A]. *)
Definition asks (A : list NodeId) (e : Effect) : bool :=
  match e with SpawnRequestVote p _ => bool_decide (p ∈ A) | _ => false end.
Definition sends (A : list NodeId) (e : Effect) : bool :=
  match e with SpawnAppendEntries p _ _ => bool_decide (p ∈ A) | _ => false end.

(** The timer of [id] fires, and its exchanges with [A] succeed. *)
Definition election_round (id : NodeId) (A : list NodeId) :=
  round_of (asks A) id InElectionTimeout.
Definition heartbeat_round (id : NodeId) (A : list NodeId) :=
  round_of (sends A) id InHeartbeat.

(** Executions of the cluster of [Ensemble], whatever is in the queues. *)
Definition reaches ns ns' : Prop :=
  forall ib, exists ib', world_steps (fun _ _ => True) (MkWorld ns ib) (MkWorld ns' ib').

#[export] Instance reaches_preorder : PreOrder reaches.
Proof.
  split.
  - intros ns ib. exists ib. constructor.
  - intros ns1 ns2 ns3 H12 H23 ib. destruct (H12 ib) as (ib2 & Hs2).
    destruct (H23 ib2) as (ib3 & Hs3). exists ib3. by eapply world_steps_trans.
Qed.

Lemma input_reaches id i ns n :
  ns !! id = Some n -> own_input i -> takes n i -> reaches ns (input id i ns).
Proof.
  intros Hn Hi Ht ib. exists ib. eapply wss_step; [constructor|].
  unfold input. erewrite alter_alt_Some by done. by apply ws_own.
Qed.

Lemma task_returns e ns ns' : run_task (H := ClusterTransport) e ns <> (Panicked, ns').
Proof.
  destruct e; cbn [run_task]; try done;
    cbn [send_append_entries send_request_vote send_install_snapshot ClusterTransport];
    unfold call, bind at 1; by repeat case_match.
Qed.

Lemma deliver_reaches id e ns n :
  ns !! id = Some n -> e ∈ effects n -> reaches ns (deliver id e ns).
Proof.
  intros Hn He ib. unfold deliver.
  destruct (run_task e ns) as [[[msg|]|] ns'] eqn:Hr.
  - destruct (ns' !! id) as [n'|] eqn:Hn'; unfold input.
    + erewrite alter_alt_Some by done. eexists. eapply wss_step.
      { eapply wss_step; [constructor|]. by eapply ws_task. }
      cbn [replicas inbox]. apply (ws_answer _ (MkWorld ns' _) id msg n'); try done.
      cbn. apply elem_of_app. right. by left.
    + exists (ib ++ [(id, msg)]). rewrite alter_id' by done. eapply wss_step; [constructor|].
      by eapply (ws_task _ (MkWorld ns ib) id n e (Some msg)).
  - eexists. eapply wss_step; [constructor|]. by eapply (ws_task _ (MkWorld ns ib) id n e None).
  - by eapply task_returns in Hr.
Qed.

(** ** A leader over time *)

(** A leader of term [t] with the log [L]. *)
Record leading (L : LogView) (t : Term) m : Prop := {
  lg_ok : node_ok m;
  lg_role : role (sm m) = Leader;
  lg_term : current_term (sm m) = t;
  lg_log : log m = L;
}.

Lemma leading_leads L t peer p m :
  leads L t peer p m <-> leading L t m /\ progress (sm m) !! peer = Some p.
Proof. split; [intros []; split; [by split|done]|intros [[] ?]; by split]. Qed.

(** What only grows at a leader with the log [L]: the commit index up to the end
    of the log, what is applied, the answers to the proposals that waited. *)
Record later (L : LogView) m m' : Prop := {
  lt_config : config m' = config m;
  lt_effects : effects m ⊆ effects m';
  lt_commit : commit_index (sm m) <= commit_index (sm m') <=
              N.max (commit_index (sm m)) (lv_last L);
  lt_applied : last_applied (sm m) <= last_applied (sm m');
  lt_pending i tx : (i, tx) ∈ pending m ->
    (i, tx) ∈ pending m' \/ ProposalReply tx (Ok i) ∈ effects m';
  lt_handed i e : last_applied (sm m) < i <= last_applied (sm m') ->
    lv_log L !! i = Some e -> ApplyEntry e ∈ effects m';
}.

#[export] Instance later_preorder L : PreOrder (later L).
Proof.
  split.
  - intros m. split; [done|done|lia|done|by left|lia].
  - intros m1 m2 m3 [Hc1 He1 Hci1 Ha1 Hp1 Hh1] [Hc2 He2 Hci2 Ha2 Hp2 Hh2]. split.
    + congruence.
    + by etransitivity.
    + lia.
    + lia.
    + intros i tx Hin. destruct (Hp1 i tx Hin) as [Hin2|Hin2]; [by apply Hp2|]. right. by apply He2.
    + intros i e Hi He. destruct (N.le_gt_cases i (last_applied (sm m2))).
      * apply He2, (Hh1 i); [lia|done].
      * apply (Hh2 i); [lia|done].
Qed.

Lemma subseteq_app {A} (l l' : list A) : l ⊆ l ++ l'.
Proof. intros x Hx. apply elem_of_app. by left. Qed.

(** Only the effects grew. *)
Lemma later_emit L es m : later L m (set_effects (effects m ++ es) m).
Proof. split; cbn; [done|by apply subseteq_app|lia|done|by left|lia]. Qed.

Lemma leading_emit L t es m : leading L t m -> leading L t (set_effects (effects m ++ es) m).
Proof. intros [[] ? ? ?]. split; [by split|done..]. Qed.

(** Effects that are no tasks. *)
Definition no_task (e : Effect) : Prop := request_of e = None.

Lemma answered_no_task c ps : Forall no_task (answered c ps).
Proof. apply Forall_forall. intros e (? & -> & _)%list_elem_of_fmap. done. Qed.

Lemma elem_of_answered c ps i tx : (i, tx) ∈ ps -> i <= c -> ProposalReply tx (Ok i) ∈ answered c ps.
Proof.
  intros Hin Hi. unfold answered. apply list_elem_of_fmap. exists (i, tx). split; [done|].
  by apply list_elem_of_filter.
Qed.

Lemma elem_of_waiting c ps i tx : (i, tx) ∈ waiting c ps <-> c < i /\ (i, tx) ∈ ps.
Proof. unfold waiting. rewrite list_elem_of_filter. cbn. rewrite N.nle_gt. done. Qed.

(** [lv_last L] can be committed: the last entry is of the leader's term and a
    quorum stores it. *)
Definition quorate (L : LogView) (t : Term) m : Prop :=
  term_at L (lv_last L) = t /\ quorum (config m) <= replicated_on (lv_last L) (progress (sm m)) + 1.

Lemma advance_leading L t m :
  leading L t m -> exists m' es, maybe_advance_commit m = (Done tt, m') /\ leading L t m' /\
    later L m m' /\ progress (sm m') = progress (sm m) /\
    last_applied (sm m') = last_applied (sm m) /\
    effects m' = effects m ++ es /\ Forall no_task es /\
    (quorate L t m -> lv_last L <= commit_index (sm m') /\
       forall i tx, (i, tx) ∈ pending m' -> commit_index (sm m') < i).
Proof.
  intros [Hm Hr Ht Hl].
  destruct (maybe_advance_commit_run m (ok_log _ Hm) (ok_persisted _ Hm) Hr (proj1 (ok_indices _ Hm)))
    as (o & m' & Hrun & Hg & Hs & _ & _ & Hl' & Hc & Hpe & He).
  destruct (advance_returns m Hm) as (a & m2 & Hrun' & Hm'). rewrite Hrun in Hrun'.
  injection Hrun' as _ <-. rewrite Hl in *.
  exists m', (commit_effects m o ++ answered (commit_index (sm m')) (pending m)).
  split; [done|]. split; [split; [done|by rewrite Hs; destruct o..|congruence]|].
  assert (commit_index (sm m) <= commit_index (sm m') <= N.max (commit_index (sm m)) (lv_last L))
    as Hci by (rewrite Hs; destruct o; cbn; [destruct Hg; lia|lia]).
  split; [|split; [by rewrite Hs; destruct o|split; [by rewrite Hs; destruct o|
    split; [done|split]]]].
  - split; [done| |done| | |].
    + rewrite He. by apply subseteq_app.
    + rewrite Hs. destruct o; cbn; lia.
    + intros i tx Hin. rewrite Hpe, elem_of_waiting, He.
      destruct (N.lt_ge_cases (commit_index (sm m')) i); [by left|right].
      rewrite !elem_of_app. right. right. by apply elem_of_answered.
    + intros i e Hi. rewrite Hs in Hi. destruct o; cbn in Hi; lia.
  - apply Forall_app. split; [destruct o; repeat constructor|apply answered_no_task].
  - intros [Hlast Hq]. split; [|intros i tx; rewrite Hpe, elem_of_waiting; tauto].
    rewrite Hs. destruct o as [c|]; cbn.
    + destruct Hg as (Hc1 & _ & Hno). destruct (N.le_gt_cases (lv_last L) c); [done|].
      destruct (Hno (lv_last L)); [lia|]. by split; rewrite ?Hl, ?Hlast, ?Ht.
    + destruct (N.le_gt_cases (lv_last L) (commit_index (sm m))); [done|].
      destruct (Hg (lv_last L)); [lia|]. by split; rewrite ?Hl, ?Hlast, ?Ht.
Qed.

Lemma apply_leading L t m :
  leading L t m -> lv_base L <= last_applied (sm m) -> commit_index (sm m) <= lv_last L ->
  exists m' es, apply_committed m = (Done tt, m') /\ leading L t m' /\ later L m m' /\
    progress (sm m') = progress (sm m) /\ pending m' = pending m /\
    commit_index (sm m') = commit_index (sm m) /\ last_applied (sm m') = commit_index (sm m) /\
    effects m' = effects m ++ es /\ Forall no_task es.
Proof.
  intros [Hm Hr Ht Hl] Hb Hc. pose proof (proj1 (ok_indices _ Hm)) as Hla. subst L.
  destruct (apply_committed_run m (ok_log _ Hm) Hb Hla Hc) as (Hrun & _ & Hes).
  destruct (apply_returns m Hm) as (a & m2 & Hrun' & Hm'). rewrite Hrun in Hrun'.
  injection Hrun' as _ <-. eexists _, _. split; [exact Hrun|].
  split; [by split|]. split; [|repeat (split; [done|]); apply Forall_fmap, Forall_true; done].
  split; cbn; [done|by apply subseteq_app|lia|lia|by left|]. intros i e Hi He.
  rewrite elem_of_app. right. apply list_elem_of_fmap. exists e. split; [done|].
  apply list_elem_of_lookup. exists (N.to_nat (i - (last_applied (sm m) + 1))).
  apply Hes. replace (_ + 1 + _) with i by lia. split; [done|lia].
Qed.

(** A heartbeat of the leader. *)
Lemma heartbeat_leading L t m :
  leading L t m -> lv_base L <= last_applied (sm m) -> commit_index (sm m) <= lv_last L ->
  exists m' es es', handle InHeartbeat m = (Done NoReply, m') /\ leading L t m' /\ later L m m' /\
    progress (sm m') = progress (sm m) /\
    effects m' = effects m ++ es ++ es' /\ Forall no_task es' /\
    Forall2 (fun x e => replication m x.1 (next_index x.2) e) (tracked (cfg_peers (config m)) m) es /\
    (quorate L t m ->
       commit_index (sm m') = lv_last L /\ last_applied (sm m') = lv_last L /\
       forall i tx, (i, tx) ∈ pending m' -> lv_last L < i).
Proof.
  intros Hld Hb Hc. pose proof Hld as [Hm Hr _ _].
  destruct (replicate_all_loop (cfg_peers (config m)) m (ok_log _ Hm) (ok_progress _ Hm)
              (ok_config _ Hm)) as (es & Hrun & Hes).
  set (m1 := set_effects _ m) in Hrun.
  destruct (advance_leading L t m1) as (m2 & es2 & Hrun2 & Hld2 & Hlt2 & Hp2 & Ha2 & He2 & Hn2 & Hq2);
    [by apply leading_emit|].
  assert (last_applied (sm m2) = last_applied (sm m)) as Ha2' by done.
  pose proof (lt_commit _ _ _ Hlt2) as Hc2. change (commit_index (sm m1)) with (commit_index (sm m)) in Hc2.
  destruct (apply_leading L t m2 Hld2) as (m3 & es3 & Hrun3 & Hld3 & Hlt3 & Hp3 & Hpe3 & Hc3 & Ha3 & He3 & Hn3);
    [lia..|].
  exists m3, es, (es2 ++ es3). split; [|split; [done|split; [|split; [|split; [|split; [|split]]]]]].
  - assert (replicate_all m = (Done tt, m1)) as Hall.
    { unfold replicate_all, bind, get_sm, gets.
      by rewrite bool_decide_false by (rewrite Hr; intros H; by apply H). }
    cbn [handle]. unfold on_heartbeat, bind. by rewrite Hall, Hrun2, Hrun3.
  - transitivity m1; [apply later_emit|]. by transitivity m2.
  - by rewrite Hp3, Hp2.
  - rewrite He3, He2. cbn. by rewrite <- !app_assoc.
  - by apply Forall_app.
  - done.
  - intros Hq. destruct (Hq2 Hq) as [Hlast Hpend].
    assert (commit_index (sm m2) = lv_last L) as Heq by lia.
    split; [congruence|]. split; [congruence|]. intros i tx. rewrite Hpe3. rewrite <- Heq. apply Hpend.
Qed.
End deliveries.

(** ** Rounds of heartbeats *)

Section rounds.
Context {prof : BuildProfile} {St : Type}
  `{HS : Storage St, HL : !LogStorage St, HD : !DurableStorage St}.
Implicit Types (ns : gmap NodeId (RaftNodeInner St)) (n m : RaftNodeInner St).

(** The leader [id] of term [t] with the log [L], and the peers [A] it reaches,
    whose logs start at [b]. *)
Context (id : NodeId) (A : list NodeId) (b : NodeId -> LogIndex) (L : LogView) (t : Term).
Hypothesis HwL : wf_view L.
Hypothesis Hb : forall p, p ∈ A -> lv_base L <= b p <= lv_last L.
Hypothesis HidA : id ∉ A.

(** At most [w] exchanges are left with [p]. *)
Definition peer_at (w : N) (p : NodeId) m ns : Prop :=
  exists known pr n, ns !! p = Some n /\ syncing (b p) L t p known pr (m, n) /\
    work (b p) L known pr <= w.

(** The task [e] sends to [p] what the leader's progress asks for. *)
Definition asked m (p : NodeId) (e : Effect) : Prop :=
  exists pr req, progress (sm m) !! p = Some pr /\
    e = SpawnAppendEntries p req (next_index pr - 1 + nlen (ae_entries req)) /\
    ae_term req = t /\ sent_from L (next_index pr) req.

Lemma peer_at_frame w p m m' ns ns' :
  leading L t m' -> progress (sm m') !! p = progress (sm m) !! p -> ns' !! p = ns !! p ->
  peer_at w p m ns -> peer_at w p m' ns'.
Proof.
  intros Hld Hp Hns (known & pr & n & Hn & (Hlp & Hs) & Hw). exists known, pr, n.
  split; [congruence|]. split; [|done]. split; [|done]. cbn in *.
  apply leading_leads. split; [done|]. rewrite Hp. apply Hlp.
Qed.

Lemma peer_at_mono w w' p m ns : w <= w' -> peer_at w p m ns -> peer_at w' p m ns.
Proof. intros Hw (known & pr & n & Hn & Hs & Hk). exists known, pr, n. do 2 (split; [done|]). by etransitivity. Qed.

Lemma tasks_asked m l es :
  leading L t m -> (forall x, x ∈ l -> progress (sm m) !! x.1 = Some x.2) ->
  (forall p pr, p ∈ A -> progress (sm m) !! p = Some pr -> lv_base L < next_index pr) ->
  Forall2 (fun x e => replication m x.1 (next_index x.2) e) l es ->
  Forall2 (asked m) (filter (fun p => p ∈ A) l.*1) (filter (fun e => sends A e = true) es).
Proof.
  intros [_ _ Ht Hl] Hx HA. induction 1 as [|[p pr] e l es He Hes IH]; [constructor|].
  assert (progress (sm m) !! p = Some pr) as Hp by (apply (Hx (p, pr)); left).
  specialize (IH ltac:(intros x Hin; apply Hx; by right)). cbn [fmap list_fmap fst].
  unfold replication in He. cbn [fst snd] in He. rewrite Hl, Ht in He.
  destruct (N.ltb_spec (next_index pr) (lv_base L + 1)) as [Hlt|Hge].
  - destruct He as (sn & _ & ->). rewrite (filter_cons_False _ (SpawnInstallSnapshot _ _ _)) by done.
    rewrite filter_cons_False; [done|]. intros HpA. specialize (HA p pr HpA Hp). lia.
  - destruct He as (req & -> & Hreq & _ & _ & Hs). destruct (decide (p ∈ A)) as [HpA|HpA].
    + rewrite !filter_cons_True by (cbn; by rewrite ?bool_decide_true). constructor; [|done].
      exists pr, req. do 3 (split; [done|]); done.
    + rewrite !filter_cons_False by (cbn; by rewrite ?bool_decide_false). done.
Qed.

(** One exchange of the round. *)
Lemma deliver_answer w p e m ns :
  ns !! id = Some m -> leading L t m -> p ∈ A -> peer_at w p m ns -> asked m p e ->
  exists m', deliver id e ns !! id = Some m' /\ leading L t m' /\ later L m m' /\
    peer_at (w - 1) p m' (deliver id e ns) /\
    forall q, q <> p -> q <> id -> deliver id e ns !! q = ns !! q /\
                         progress (sm m') !! q = progress (sm m) !! q.
Proof.
  intros Hm Hld HpA (known & pr & n & Hn & Hsy & Hw) (pr' & req & Hpr' & -> & Hreq & Hs).
  assert (p <> id) as Hne by (by intros ->). pose proof Hsy as (Hlp & _ & _ & _). cbn in Hlp.
  assert (pr' = pr) as -> by (destruct Hlp; congruence).
  destruct (answer_step (b p) L t p known pr m n req HwL (Hb p HpA) Hsy Hreq Hs)
    as (n' & r & known' & Hr & Hrt & Hli & Hci & Hsy' & Hw').
  set (li := next_index pr - 1 + _) in *.
  set (m' := (handle_append_response p li r m).2) in *.
  assert (deliver id (SpawnAppendEntries p req li) ns = <[id := m']> (<[p := n']> ns)) as Hd.
  { unfold deliver. cbn [run_task send_append_entries ClusterTransport]. unfold call, bind at 1.
    rewrite Hn, Hr. cbn [fst snd]. unfold ret, input.
    rewrite (alter_alt_Some _ _ _ m) by by rewrite lookup_insert_ne.
    cbn [handle]. by rewrite after_no_reply. }
  pose proof (ok_progress _ (lg_ok _ _ _ Hld) p pr Hpr') as Hpok.
  assert (leading L t (noting p (noted r li pr) m)) as Hld1.
  { destruct Hld as [Hok ? ? ?]. split; try done. by apply noting_ok. }
  assert (handle_append_response p li r m = maybe_advance_commit (noting p (noted r li pr) m)) as Heq
    by (apply append_response_run; destruct Hld; (done || congruence || lia)).
  destruct (advance_leading L t _ Hld1) as (m2 & es & Hrun & Hld2 & Hlt2 & Hp2 & _).
  assert (m' = m2) as Hm2 by (unfold m'; by rewrite Heq, Hrun). rewrite <- Hm2 in *.
  exists m'. rewrite Hd. split; [apply lookup_insert_eq|]. split; [done|]. split; [|split].
  - transitivity (noting p (noted r li pr) m); [|done]. split; cbn; [done..|lia|done|by left|lia].
  - exists known', (noted r li pr), n'. split; [|split; [done|lia]].
    by rewrite lookup_insert_ne, lookup_insert_eq.
  - intros q Hq Hqi. rewrite !lookup_insert_ne by done. split; [done|]. rewrite Hp2. cbn.
    by rewrite lookup_insert_ne.
Qed.

Lemma asked_frame m m' p e :
  progress (sm m') !! p = progress (sm m) !! p -> asked m p e -> asked m' p e.
Proof. intros Hp (pr & req & Hpr & H). exists pr, req. by rewrite Hp. Qed.

(** All of them, made when the leader was [m0]. *)
Lemma deliver_round w m0 todo es m ns :
  NoDup todo -> todo ⊆ A -> Forall2 (asked m0) todo es ->
  (forall p, p ∈ todo -> progress (sm m) !! p = progress (sm m0) !! p) ->
  (forall e, e ∈ es -> e ∈ effects m) -> ns !! id = Some m -> leading L t m ->
  (forall p, p ∈ todo -> peer_at w p m ns) ->
  (forall p, p ∈ A -> p ∉ todo -> peer_at (w - 1) p m ns) ->
  exists m', deliver_all id es ns !! id = Some m' /\ leading L t m' /\ later L m m' /\
    (forall p, p ∈ A -> peer_at (w - 1) p m' (deliver_all id es ns)) /\
    reaches ns (deliver_all id es ns).
Proof.
  intros Hnd Hsub Hes. revert m ns Hnd Hsub.
  induction Hes as [|p e todo es He Hes IH]; intros m ns Hnd Hsub Hsame Hin Hm Hld Htodo Hdone.
  { exists m. cbn. do 3 (split; [done|]). split; [|done]. intros p Hp. apply Hdone; [done|].
    apply not_elem_of_nil. }
  apply NoDup_cons in Hnd as [Hp Hnd]. assert (p ∈ A) as HpA by (apply Hsub; left).
  destruct (deliver_answer w p e m ns Hm Hld HpA (Htodo p ltac:(left)))
    as (m1 & Hm1 & Hld1 & Hlt1 & Hp1 & Hoth); [eapply asked_frame, He; apply Hsame; left|].
  assert (forall q, q ∈ A -> q <> p -> deliver id e ns !! q = ns !! q /\
            progress (sm m1) !! q = progress (sm m) !! q) as HothA.
  { intros q Hq Hqp. apply Hoth; [done|]. by intros ->. }
  assert (forall q, q ∈ todo -> q ∈ A /\ q <> p) as Htq.
  { intros q Hq. split; [apply Hsub; by right|]. by intros ->. }
  destruct (IH m1 (deliver id e ns)) as (m2 & Hm2 & Hld2 & Hlt2 & Hall & Hre).
  - done.
  - intros q Hq. by apply Htq.
  - intros q Hq. destruct (Htq q Hq). rewrite (proj2 (HothA q ltac:(done) ltac:(done))).
    apply Hsame. by right.
  - intros e' He'. apply Hlt1, Hin. by right.
  - done.
  - done.
  - intros q Hq. destruct (Htq q Hq) as [HqA Hqp]. destruct (HothA q HqA Hqp).
    eapply peer_at_frame; try done. apply Htodo. by right.
  - intros q HqA Hq. destruct (decide (q = p)) as [->|Hqp]; [done|].
    destruct (HothA q HqA Hqp). eapply peer_at_frame; try done. apply Hdone; [done|].
    by intros [?|?]%elem_of_cons.
  - exists m2. do 2 (split; [done|]). split; [by transitivity m1|]. split; [done|].
    transitivity (deliver id e ns); [|done]. eapply deliver_reaches; [done|]. apply Hin. by left.
Qed.

Lemma tracked_spec ps m p pr :
  (p, pr) ∈ tracked ps m <-> p ∈ ps /\ progress (sm m) !! p = Some pr.
Proof.
  unfold tracked. rewrite list_elem_of_omap. split.
  - intros (q & Hq & Hpr). destruct (progress (sm m) !! q) eqn:E; [|done]. by injection Hpr as -> ->.
  - intros [Hp Hpr]. exists p. by rewrite Hpr.
Qed.

Lemma tracked_nodup ps m : NoDup ps -> NoDup (tracked ps m).*1.
Proof.
  intros Hnd. apply (sublist_NoDup _ ps); [done|]. clear Hnd. unfold tracked.
  induction ps as [|p ps IH]; [constructor|]. cbn.
  destruct (progress (sm m) !! p); cbn; by constructor.
Qed.

Lemma no_task_sends es : Forall no_task es -> filter (fun e => sends A e = true) es = [].
Proof.
  induction 1 as [|e es He Hes IH]; [done|]. rewrite filter_cons_False; [done|]. by destruct e.
Qed.

(** What a heartbeat sends to [A]. *)
Lemma heartbeat_tasks w m ns es :
  leading L t m -> NoDup (cfg_peers (config m)) -> A ⊆ cfg_peers (config m) ->
  (forall p, p ∈ A -> peer_at w p m ns) ->
  Forall2 (fun x e => replication m x.1 (next_index x.2) e) (tracked (cfg_peers (config m)) m) es ->
  exists todo, NoDup todo /\ (forall p, p ∈ todo <-> p ∈ A) /\
    Forall2 (asked m) todo (filter (fun e => sends A e = true) es).
Proof.
  intros Hld Hnd HA Hpeers Hes. exists (filter (fun p => p ∈ A) (tracked (cfg_peers (config m)) m).*1).
  split; [by apply NoDup_filter, tracked_nodup|]. split.
  - intros p. rewrite list_elem_of_filter. split; [by intros [? _]|]. intros Hp. split; [done|].
    destruct (Hpeers p Hp) as (known & pr & n & _ & (Hlp & _) & _). cbn in Hlp.
    apply list_elem_of_fmap. exists (p, pr). split; [done|]. apply tracked_spec.
    split; [by apply HA|apply Hlp].
  - apply tasks_asked; [done| | |done].
    + intros [p pr] Hx. by apply tracked_spec in Hx as [_ ?].
    + intros p pr Hp Hpr. destruct (Hpeers p Hp) as (known & pr' & n & _ & (Hlp & _ & Hn & _) & _).
      cbn in Hlp. destruct Hlp as [_ _ _ _ Hpr'].
      assert (pr' = pr) as -> by congruence. specialize (Hb p Hp). lia.
Qed.

(** One round. *)
Lemma heartbeat_round_run w m ns :
  ns !! id = Some m -> leading L t m -> lv_base L <= last_applied (sm m) ->
  commit_index (sm m) <= lv_last L -> NoDup (cfg_peers (config m)) -> A ⊆ cfg_peers (config m) ->
  (forall p, p ∈ A -> peer_at w p m ns) ->
  exists m', heartbeat_round id A ns !! id = Some m' /\ leading L t m' /\ later L m m' /\
    (forall p, p ∈ A -> peer_at (w - 1) p m' (heartbeat_round id A ns)) /\
    reaches ns (heartbeat_round id A ns) /\
    (quorate L t m ->
       commit_index (sm m') = lv_last L /\ last_applied (sm m') = lv_last L /\
       forall i tx, i <= lv_last L -> (i, tx) ∈ pending m -> ProposalReply tx (Ok i) ∈ effects m').
Proof.
  intros Hm Hld Hba Hci Hnd HA Hpeers.
  destruct (heartbeat_leading L t m Hld Hba Hci)
    as (m1 & es & es' & Hrun & Hld1 & Hlt1 & Hp1 & He1 & Hno & Hes & Hq1).
  destruct (heartbeat_tasks w m ns es Hld Hnd HA Hpeers Hes) as (todo & Htnd & Htodo & Htasks).
  assert (forall p, p ∈ A -> peer_at w p m1 (<[id := m1]> ns)) as Hpeers1.
  { intros p Hp. eapply peer_at_frame; [done|by rewrite Hp1| |by apply Hpeers].
    apply lookup_insert_ne. by intros ->. }
  assert (new_tasks (sends A) InHeartbeat m = filter (fun e => sends A e = true) es) as Hnew.
  { unfold new_tasks. rewrite Hrun. cbn [snd]. rewrite He1, drop_app_length, filter_app.
    by rewrite (no_task_sends es'), app_nil_r. }
  destruct (deliver_round w m todo (filter (fun e => sends A e = true) es) m1 (<[id := m1]> ns))
    as (m2 & Hm2 & Hld2 & Hlt2 & Hall & Hre).
  - done.
  - intros p. apply Htodo.
  - done.
  - intros p _. by rewrite Hp1.
  - intros e He. apply list_elem_of_filter in He as [_ He]. rewrite He1, !elem_of_app. tauto.
  - apply lookup_insert_eq.
  - done.
  - intros p Hp%Htodo. by apply Hpeers1.
  - intros p Hp Hout. destruct Hout. by apply Htodo.
  - assert (heartbeat_round id A ns =
      deliver_all id (filter (fun e => sends A e = true) es) (<[id := m1]> ns)) as Hround.
    { unfold heartbeat_round, round_of. rewrite Hm, Hnew. f_equal. unfold input.
      by rewrite (alter_alt_Some _ _ _ m), Hrun. }
    rewrite Hround. exists m2. do 2 (split; [done|]). split; [by transitivity m1|].
    split; [done|]. split.
    + transitivity (<[id := m1]> ns); [|done].
      replace (<[id := m1]> ns) with (input id InHeartbeat ns)
        by (unfold input; by rewrite (alter_alt_Some _ _ _ m), Hrun).
      by eapply input_reaches.
    + intros Hq. destruct (Hq1 Hq) as (Hc1 & Ha1 & Hpe1). destruct Hlt2 as [_ Hef Hc2 Ha2 _ _].
      pose proof (proj1 (ok_indices _ (lg_ok _ _ _ Hld2))).
      split; [lia|]. split; [lia|]. intros i tx Hi Hin.
      destruct (lt_pending _ _ _ Hlt1 i tx Hin) as [Hin1|Hin1]; [|by apply Hef].
      specialize (Hpe1 i tx Hin1). lia.
Qed.
(** Rounds until nothing is left to send. *)
Lemma heartbeat_rounds k w m ns :
  ns !! id = Some m -> leading L t m -> lv_base L <= last_applied (sm m) ->
  commit_index (sm m) <= lv_last L -> NoDup (cfg_peers (config m)) -> A ⊆ cfg_peers (config m) ->
  (forall p, p ∈ A -> peer_at w p m ns) ->
  let ns' := Nat.iter k (heartbeat_round id A) ns in
  exists m', ns' !! id = Some m' /\ leading L t m' /\ later L m m' /\
    (forall p, p ∈ A -> peer_at (w - N.of_nat k) p m' ns') /\ reaches ns ns'.
Proof.
  intros Hm Hld Hba Hci Hnd HA Hpeers. induction k as [|k (m1 & Hm1 & Hld1 & Hlt1 & Hp1 & Hre1)].
  { exists m. cbn. rewrite N.sub_0_r. by do 3 (split; [done|]). }
  pose proof Hlt1 as [Hc1 _ Hci1 Ha1 _ _].
  destruct (heartbeat_round_run (w - N.of_nat k) m1 _ Hm1 Hld1)
    as (m2 & Hm2 & Hld2 & Hlt2 & Hp2 & Hre2 & _); [lia|lia|by rewrite Hc1|by rewrite Hc1|done|].
  cbn. exists m2. do 2 (split; [done|]). split; [by transitivity m1|]. split.
  - intros p Hp. eapply peer_at_mono, Hp2; [lia|done].
  - by etransitivity.
Qed.

(** A peer with nothing left to send is known to store the leader's log. *)
Lemma peer_done p m ns :
  p ∈ A -> peer_at 0 p m ns -> exists n, ns !! p = Some n /\ lv_base (log n) = b p /\
    (forall j, b p < j <= lv_last L -> lv_log (log n) !! j = lv_log L !! j) /\
    progress (sm m) !! p = Some (MkProgress (lv_last L + 1) (lv_last L) false).
Proof.
  intros Hp (known & pr & n & Hn & (Hlp & Htr & Hnext & Hview) & Hw). cbn in *.
  destruct known; unfold work in Hw; [|lia]. destruct Hview as [Hpr Hag].
  assert (next_index pr = lv_last L + 1) as Hx by lia. rewrite Hx, N.add_sub in *.
  exists n. split; [done|]. split; [apply Htr|]. split; [intros j Hj; apply Hag; lia|].
  rewrite <- Hpr. apply Hlp.
Qed.

Lemma quorum_stores m ns :
  NoDup A -> (forall p, p ∈ A -> peer_at 0 p m ns) ->
  nlen A <= replicated_on (lv_last L) (progress (sm m)).
Proof.
  intros Hnd Hp. unfold replicated_on, nlen.
  match goal with |- N.of_nat ?x <= N.of_nat ?y => enough (x <= y)%nat by lia end.
  rewrite <- (size_list_to_set (C := gset NodeId) A), <- size_dom by done.
  apply subseteq_size. intros p HpA. apply elem_of_list_to_set in HpA.
  destruct (peer_done p m ns HpA (Hp p HpA)) as (n & _ & _ & _ & Hpr).
  apply elem_of_dom. eexists. apply map_lookup_filter_Some. split; [exact Hpr|]. done.
Qed.
End rounds.

(** What the leader [m], with the progress [pr], needs of a peer, the node [n]: a
    term that is not newer, a log that matches the leader's from where it
    starts, and a next index in the part they share; and that [pr] is what a
    new leader believes or is true. *)
Record follower_of {prof : BuildProfile} {St} `{HS : Storage St, HL : !LogStorage St, HD : !DurableStorage St}
    (m n : RaftNodeInner St) (pr : Progress) : Prop := {
  fo_log : log_ok n;
  fo_persisted : persisted n;
  fo_term : current_term (sm n) <= current_term (sm m);
  fo_start : lv_base (log m) <= lv_base (log n) <= lv_last (log m);
  fo_start_term : lv_base (log n) = 0 \/ lv_base_term (log n) = term_at (log m) (lv_base (log n));
  fo_match : logs_match (lv_base (log n)) (log n) (log m);
  fo_next : lv_base (log n) < next_index pr <= lv_last (log m) + 1;
  fo_view : match_index pr = 0 \/
    (match_index pr = next_index pr - 1 /\ in_flight pr = false /\
     forall j, lv_base (log n) < j < next_index pr -> lv_log (log n) !! j = lv_log (log m) !! j);
}.

Section theorems.
Context {prof : BuildProfile} {St : Type}
  `{HS : Storage St, HL : !LogStorage St, HD : !DurableStorage St}.
Implicit Types (ns : gmap NodeId (RaftNodeInner St)) (n m : RaftNodeInner St).

Lemma follower_at m n p pr ns :
  node_ok m -> role (sm m) = Leader -> progress (sm m) !! p = Some pr -> ns !! p = Some n ->
  follower_of m n pr ->
  peer_at (fun _ => lv_base (log n)) (log m) (current_term (sm m)) (2 * lv_last (log m) + 1) p m ns.
Proof.
  intros Hm Hr Hpr Hn [Hl Hp Ht Hs Hst Hma Hnx Hv].
  assert (forall known, view_of (lv_base (log n)) (log m) known pr n ->
    syncing (lv_base (log n)) (log m) (current_term (sm m)) p known pr (m, n)) as Hsy.
  { intros known Hview. split; [by split|]. split; [by split|]. by split. }
  destruct Hv as [Hv|(Hv & Hf & Hag)].
  - exists false, pr, n. split; [done|]. split; [by apply Hsy|]. unfold work. lia.
  - exists true, pr, n. split; [done|]. split; [|unfold work; lia]. apply Hsy. split; [|done].
    destruct pr. cbn in *. congruence.
Qed.

Lemma quorum_commits_run id A ns m k (Hm : ns !! id = Some m) (Hok : node_ok m)
    (Hr : role (sm m) = Leader) (Hlast : term_at (log m) (lv_last (log m)) = current_term (sm m))
    (Hbase : lv_base (log m) <= last_applied (sm m))
    (Hci : commit_index (sm m) <= lv_last (log m))
    (Hps : NoDup (cfg_peers (config m))) (HA : A ⊆ cfg_peers (config m)) (Hnd : NoDup A)
    (HidA : id ∉ A) (Hq : quorum (config m) <= nlen A + 1)
    (Hpeers : forall p, p ∈ A -> exists n pr, ns !! p = Some n /\
       progress (sm m) !! p = Some pr /\ follower_of m n pr)
    (Hk : 2 * lv_last (log m) + 1 < N.of_nat k) :
  let ns' := Nat.iter k (heartbeat_round id A) ns in
  exists m', ns' !! id = Some m' /\ node_ok m' /\ role (sm m') = Leader /\
    current_term (sm m') = current_term (sm m) /\ log m' = log m /\
    commit_index (sm m') = lv_last (log m) /\ last_applied (sm m') = lv_last (log m) /\
    (forall i tx, i <= lv_last (log m) -> (i, tx) ∈ pending m -> ProposalReply tx (Ok i) ∈ effects m') /\
    (forall i e, last_applied (sm m) < i -> lv_log (log m) !! i = Some e ->
       ApplyEntry e ∈ effects m') /\
    (forall p, p ∈ A -> exists n n', ns !! p = Some n /\ ns' !! p = Some n' /\
       lv_base (log n') = lv_base (log n) /\
       forall j, lv_base (log n) < j <= lv_last (log m) ->
         lv_log (log n') !! j = lv_log (log m) !! j) /\
    reaches ns ns'.
Proof.
  set (L := log m) in *. set (t := current_term (sm m)) in *.
  assert (wf_view L) as HwL by apply (log_wf_view _ (ok_log _ Hok)).
  set (b := fun p => match ns !! p with Some n => lv_base (log n) | None => 0 end).
  assert (forall p, p ∈ A -> lv_base L <= b p <= lv_last L) as Hb.
  { intros p Hp. destruct (Hpeers p Hp) as (n & pr & Hn & _ & Hf). unfold b. rewrite Hn. apply Hf. }
  assert (forall p, p ∈ A -> peer_at b L t (2 * lv_last L + 1) p m ns) as Hat.
  { intros p Hp. destruct (Hpeers p Hp) as (n & pr & Hn & Hpr & Hf).
    destruct (follower_at m n p pr ns Hok Hr Hpr Hn Hf) as (known & pr' & n' & Hn' & H').
    exists known, pr', n'. split; [done|]. unfold b. by rewrite Hn. }
  destruct k as [|k]; [lia|].
  destruct (heartbeat_rounds id A b L t HwL Hb HidA k (2 * lv_last L + 1) m ns Hm) as (m1 & Hm1 & Hld1 & Hlt1 & Hp1 & Hre1);
    [by split|done..|].
  pose proof Hlt1 as [Hc1 He1 Hci1 Ha1 Hpe1 Hh1].
  replace (2 * lv_last L + 1 - N.of_nat k) with 0 in Hp1 by lia.
  destruct (heartbeat_round_run id A b L t HwL Hb HidA 0 m1 _ Hm1 Hld1)
    as (m2 & Hm2 & Hld2 & Hlt2 & Hp2 & Hre2 & Hquo); [lia|lia|by rewrite Hc1|by rewrite Hc1|done|].
  destruct Hquo as (Hc2 & Ha2 & Hrep2).
  { split; [done|]. rewrite Hc1. pose proof (quorum_stores A b L t m1 _ Hnd Hp1). lia. }
  cbn. exists m2. split; [done|]. destruct Hld2 as [Hok2 Hr2 Ht2 Hl2].
  do 6 (split; [done|]). split; [|split; [|split; [|by etransitivity]]].
  - intros i tx Hi Hin. destruct (Hpe1 i tx Hin) as [Hin1|Hin1]; [by apply Hrep2|].
    by apply (lt_effects _ _ _ Hlt2).
  - intros i e Hi He. assert (i <= lv_last L) as Hil.
    { assert (is_Some (lv_log L !! i)) as Hs by eauto. apply (wf_dom _ HwL) in Hs. lia. }
    destruct (N.le_gt_cases i (last_applied (sm m1))) as [Hi1|Hi1].
    + apply (lt_effects _ _ _ Hlt2). by apply (Hh1 i).
    + apply (lt_handed _ _ _ Hlt2 i); [lia|done].
  - intros p Hp. destruct (peer_done A b L t p m2 _ Hp (Hp2 p Hp)) as (n & Hn & Hbn & Hj & _).
    destruct (Hpeers p Hp) as (n0 & pr & Hn0 & _). exists n0, n. unfold b in Hbn, Hj.
    by rewrite Hn0 in *.
Qed.
(** C7. A leader that reaches a quorum commits its log. If the last entry of a
    leader is of its own term, and the peers [A], a quorum with the leader, have
    logs that match its own, then whatever their logs are, and with all other
    messages lost, a number of heartbeats bounded by the length of the log is
    enough when the exchanges with [A] succeed: the leader is then still the
    leader, its commit index and its applied index are the end of its log, it
    has answered every proposal that waited with success and handed every entry
    it had not applied to the application, and every peer of [A] stores its
    log. *)
Theorem quorum_commits id A ns m k (Hm : ns !! id = Some m) (Hok : node_ok m)
    (Hr : role (sm m) = Leader) (Hlast : term_at (log m) (lv_last (log m)) = current_term (sm m))
    (Hbase : lv_base (log m) <= last_applied (sm m))
    (Hci : commit_index (sm m) <= lv_last (log m))
    (Hps : NoDup (cfg_peers (config m))) (HA : A ⊆ cfg_peers (config m)) (Hnd : NoDup A)
    (HidA : id ∉ A) (Hq : quorum (config m) <= nlen A + 1)
    (Hpeers : forall p, p ∈ A -> exists n pr, ns !! p = Some n /\
       progress (sm m) !! p = Some pr /\ follower_of m n pr)
    (Hk : 2 * lv_last (log m) + 1 < N.of_nat k) :
  let ns' := Nat.iter k (heartbeat_round id A) ns in
  exists m', ns' !! id = Some m' /\ node_ok m' /\ role (sm m') = Leader /\
    current_term (sm m') = current_term (sm m) /\ log m' = log m /\
    commit_index (sm m') = lv_last (log m) /\ last_applied (sm m') = lv_last (log m) /\
    (forall i tx, i <= lv_last (log m) -> (i, tx) ∈ pending m -> ProposalReply tx (Ok i) ∈ effects m') /\
    (forall i e, last_applied (sm m) < i -> lv_log (log m) !! i = Some e ->
       ApplyEntry e ∈ effects m') /\
    (forall p, p ∈ A -> exists n n', ns !! p = Some n /\ ns' !! p = Some n' /\
       lv_base (log n') = lv_base (log n) /\
       forall j, lv_base (log n) < j <= lv_last (log m) ->
         lv_log (log n') !! j = lv_log (log m) !! j) /\
    reaches ns ns'.
Proof. by apply quorum_commits_run. Qed.
End theorems.


Section examples.
Local Existing Instance dev_profile.
#[local] Existing Instances MemStorage MemStorage_log MemStorage_durable.

(** The leader and the follower of [CatchUp], whose logs differ from 5 on. *)
Definition ex_lagging : gmap NodeId (RaftNodeInner MemStorageInner) :=
  {[2 := ex_new_leader; 1 := ex_node]}.

Lemma ex_node_follows : follower_of ex_new_leader ex_node (MkProgress 7 0 false).
Proof.
  split; [apply ex_node_ok|apply ex_node_persisted|by_compute|by_compute|right; reflexivity
         |apply ex_new_leader_match|by_compute|by left].
Qed.

Lemma quorum_commits_witness :
  exists m', Nat.iter 14 (heartbeat_round 2 [1]) ex_lagging !! 2 = Some m' /\
    commit_index (sm m') = 6 /\ ApplyEntry (ex_entry 3 5 [x65]) ∈ effects m'.
Proof.
  destruct (quorum_commits 2 [1] ex_lagging ex_new_leader 14) as
    (m' & Hm' & _ & _ & _ & _ & Hc & _ & _ & Ha & _).
  - reflexivity.
  - apply ex_new_leader_ok.
  - reflexivity.
  - reflexivity.
  - by_compute.
  - by_compute.
  - by_compute.
  - intros p Hp. apply list_elem_of_singleton in Hp as ->. by_compute.
  - by_compute.
  - by_compute.
  - by_compute.
  - intros p Hp. apply list_elem_of_singleton in Hp as ->.
    exists ex_node, (MkProgress 7 0 false). split; [reflexivity|]. split; [reflexivity|].
    apply ex_node_follows.
  - by_compute.
  - exists m'. split; [exact Hm'|]. split; [exact Hc|].
    apply (Ha 5); [by_compute|reflexivity].
Defined.
End examples.
