(* ===== verification/Electable.v ===== *)
(** * A candidate that reaches a quorum wins

    The other half of the liveness of the cluster: the timer of a node fires, and
    its exchanges with a quorum of peers succeed whose terms are not newer and
    whose logs are not ahead. *)

From Stdlib Require Import Lia Init.Byte.
From stdpp Require Import base numbers list option gmap sets fin_maps strings.
From S2P Require Import Prelude.
From S2P Require Import Core.
From S2P Require Import Proto.
From S2P Require Import Storage.
From S2P Require Import MemStorage.
From S2P Require Import StateMachine.
From S2P Require Import Node.
From S2P Require Import Handlers.
From S2P Require Import Votes.
From S2P Require Import NodeLog.
From S2P Require Import Election.
From S2P Require Import Cluster.
From S2P Require Import RequestVote.
From S2P Require Import Progress.
From S2P Require Import Total.
From S2P Require Import Network.
From S2P Require Import LogSteps.
From S2P Require Import Ensemble.
From S2P Require Import Liveness.

Section electable.
Context {prof : BuildProfile} {St : Type}
  `{HS : Storage St, HL : !LogStorage St, HD : !DurableStorage St}.
Implicit Types (ns : gmap NodeId (RaftNodeInner St)) (n m : RaftNodeInner St).

(** A node that votes for the candidate [n0]: its term is not newer than that
    of [n0] before the election, its log not ahead. *)
Definition voter_for n0 m : Prop :=
  log_ok m /\ current_term (sm m) <= current_term (sm n0) /\
  up_to_date (log m) (last_term (log n0)) (lv_last (log n0)) = true.

(** A node that has voted for it. *)
Definition votes_for n0 m m' : Prop :=
  ballot m' = (current_term (sm n0) + 1, Some (cfg_id (config n0))) /\
  log_ok m' /\ persisted m' /\ log m' = log m /\ config m' = config m /\
  commit_index (sm m') = commit_index (sm m).

Lemma voter_grants n0 m :
  voter_for n0 m -> exists m', on_request_vote (vote_request n0) m =
    (Done (Ok (MkRequestVoteResponse (current_term (sm n0) + 1) true)), m') /\ votes_for n0 m m'.
Proof.
  intros (Hl & Ht & Hup). set (t := current_term (sm n0) + 1).
  destruct (on_request_vote_run m (vote_request n0) Hl) as (m' & Hr & Hs & Hp & Hl' & Hlog & Hc & _);
    [right; cbn; lia|].
  assert (observed_sm (rv_term (vote_request n0)) None (sm m) =
    MkSM t None Follower (commit_index (sm m)) (last_applied (sm m)) None ∅ ∅) as Ho.
  { unfold observed_sm. cbn. by rewrite (proj2 (N.ltb_lt _ _)) by lia. }
  assert (grants m (vote_request n0) = true) as Hg.
  { unfold grants. rewrite Ho. cbn. rewrite Hup, andb_true_r, andb_true_r. apply N.leb_le. lia. }
  rewrite Hg, Ho in *. exists m'. split.
  - rewrite Hr. cbn. by rewrite N.max_r by lia.
  - unfold votes_for, ballot. rewrite Hs. by cbn.
Qed.

(** The node [n0] in its election, with the votes of [vs] and its own. *)
Record campaigning n0 (vs : list NodeId) n : Prop := {
  cg_ballot : ballot n = (current_term (sm n0) + 1, Some (cfg_id (config n0)));
  cg_log : log n = log n0;
  cg_log_ok : log_ok n;
  cg_persisted : persisted n;
  cg_config : config n = config n0;
  cg_pending : pending n = pending n0;
  cg_commit : commit_index (sm n) = commit_index (sm n0);
  cg_applied : last_applied (sm n) = last_applied (sm n0);
  cg_standing :
    (role (sm n) = Candidate /\
     votes_received (sm n) = {[cfg_id (config n0)]} ∪ list_to_set vs /\
     N.of_nat (size (votes_received (sm n))) < quorum (config n0)) \/
    (role (sm n) = Leader /\ leader_id (sm n) = Some (cfg_id (config n0)) /\
     fresh_peers (lv_last (log n0)) (cfg_peers (config n0)) (progress (sm n)) /\
     forall peer, peer ∈ cfg_peers (config n0) ->
       progress (sm n) !! peer = Some (Progress_new (lv_last (log n0) + 1)));
}.

Lemma campaign_starts n0 :
  node_ok n0 -> u64 (current_term (sm n0) + 1) ->
  exists n1 es, handle InElectionTimeout n0 = (Done NoReply, n1) /\ campaigning n0 [] n1 /\
    effects n1 = effects n0 ++ es /\
    forall A, filter (fun e => asks A e = true) es =
      map (fun p => SpawnRequestVote p (vote_request n0)) (filter (fun p => p ∈ A) (cfg_peers (config n0))).
Proof.
  intros Hok Hu. destruct (start_election_run n0 (ok_log _ Hok) Hu)
    as (n1 & Hr & Hp & Hl & Hlog & Hs & He & Hpe).
  pose proof (handle_keeps_config InElectionTimeout n0) as Hc.
  assert (handle InElectionTimeout n0 = (Done NoReply, n1)) as Hh
    by (cbn [handle]; unfold bind; by rewrite Hr).
  rewrite Hh in Hc. cbn [snd] in *. eexists n1, _. split; [done|]. split; [|split; [exact He|]].
  - split; [unfold ballot|done..| | |]; rewrite Hs; [by case_bool_decide..|].
    { pose proof (quorum_alone (config n0)) as Hq. case_bool_decide as Hps; cbn.
      * right. rewrite Hps. do 2 (split; [done|]). split; [|by intros ? ?%not_elem_of_nil].
        intros peer p Hpeer. by rewrite lookup_empty in Hpeer.
      * left. split; [done|]. split; [by rewrite union_empty_r_L|]. rewrite size_singleton. apply N.leb_gt in Hq. lia. }
  - intros A. rewrite filter_app, filter_app.
    assert (forall (c : bool), filter (fun e => asks A e = true)
              (if c then [MetricInc leader_changes 1] else []) = []) as -> by by intros [].
    rewrite app_nil_r. match goal with |- filter _ ?l ++ _ = _ =>
      assert (filter (fun e => asks A e = true) l = []) as -> by done end. cbn [app].
    generalize (cfg_peers (config n0)) as ps. induction ps as [|p ps IH]; [done|]. cbn [map].
    destruct (decide (p ∈ A)) as [Hin|Hin].
    + rewrite !filter_cons_True by (cbn; by rewrite ?bool_decide_true). cbn [map]. by rewrite IH.
    + rewrite !filter_cons_False by (cbn; by rewrite ?bool_decide_false). by rewrite IH.
Qed.

(** The answer of a voter. *)
Lemma vote_counted n0 vs p n :
  u64 (max_append_entries (config n0) * 4096) -> campaigning n0 vs n ->
  exists n', handle_vote_response p (MkRequestVoteResponse (current_term (sm n0) + 1) true) n =
      (Done tt, n') /\ campaigning n0 (p :: vs) n' /\ effects n ⊆ effects n'.
Proof.
  intros Hm [Hb Hl Hlo Hp Hc Hpe Hci Hla Hst]. pose proof Hb as [= Ht Hv].
  unfold handle_vote_response. unfold bind at 1, get_sm at 1, gets at 1. cbn [rvr_term rvr_vote_granted].
  rewrite Ht, N.ltb_irrefl. unfold bind at 1, get_sm at 1, gets at 1. cbn [andb].
  destruct Hst as [(Hr & Hvs & Hsz)|(Hr & Hlead)].
  2:{ rewrite bool_decide_false by (rewrite Hr; discriminate). exists n. split; [done|]. split; [|done]. split; try done. by right. }
  rewrite bool_decide_true by done. unfold bind at 1, upd_sm at 1, modify at 1.
  set (n1 := set_sm _ n). unfold bind at 1, gets at 1. unfold bind at 1, get_sm at 1, gets at 1.
  assert (votes_received (sm n1) = {[cfg_id (config n0)]} ∪ list_to_set (p :: vs)) as Hvs1.
  { cbn. rewrite Hvs. apply set_eq. clear. set_solver. }
  replace (config n1) with (config n0) by done.
  destruct (N.leb_spec (quorum (config n0)) (N.of_nat (size (votes_received (sm n1))))) as [Hq|Hq].
  - destruct (win_election_run n1) as (es & pr & Hrun & Hfr & Hall); [done|by cbn; rewrite Hc|].
    assert (log n1 = log n0 /\ config n1 = config n0) as [Hl1 Hc1] by done. rewrite Hl1, Hc1 in *.
    rewrite Hrun. eexists. split; [done|]. split; [|apply subseteq_app]. split; try done. right. cbn.
    by rewrite Hc.
  - exists n1. split; [done|]. split; [|done]. split; try done. by left.
Qed.

(** One exchange. *)
Lemma deliver_vote id n0 vs p n m ns :
  u64 (max_append_entries (config n0) * 4096) -> ns !! id = Some n -> ns !! p = Some m -> p <> id ->
  campaigning n0 vs n -> voter_for n0 m ->
  exists n' m', deliver id (SpawnRequestVote p (vote_request n0)) ns = <[id := n']> (<[p := m']> ns) /\
    campaigning n0 (p :: vs) n' /\ effects n ⊆ effects n' /\ votes_for n0 m m'.
Proof.
  intros Hmax Hn Hm Hne Hcg Hv. destruct (voter_grants n0 m Hv) as (m' & Hr & Hvf).
  destruct (vote_counted n0 vs p n Hmax Hcg) as (n' & Hh & Hcg' & He).
  exists n', m'. split; [|split; [exact Hcg'|split; [exact He|exact Hvf]]].
  unfold deliver. cbn [run_task send_request_vote ClusterTransport]. unfold call, bind at 1.
  rewrite Hm, Hr. cbn [fst snd]. unfold ret, input.
  rewrite (alter_alt_Some _ _ _ n) by by rewrite lookup_insert_ne.
  cbn [handle]. rewrite after_no_reply. cbn [dispatch]. by rewrite Hh.
Qed.

Lemma deliver_votes id n0 todo vs n ns :
  u64 (max_append_entries (config n0) * 4096) -> NoDup todo -> id ∉ todo ->
  ns !! id = Some n -> campaigning n0 vs n ->
  (forall p, p ∈ todo -> exists m, ns !! p = Some m /\ voter_for n0 m) ->
  let es := map (fun p => SpawnRequestVote p (vote_request n0)) todo in
  es ⊆ effects n ->
  exists n', deliver_all id es ns !! id = Some n' /\ campaigning n0 (reverse todo ++ vs) n' /\
    (forall p, p ∉ todo -> p <> id -> deliver_all id es ns !! p = ns !! p) /\
    (forall p, p ∈ todo -> exists m m', ns !! p = Some m /\
       deliver_all id es ns !! p = Some m' /\ votes_for n0 m m') /\
    reaches ns (deliver_all id es ns).
Proof.
  intros Hmax. revert vs n ns.
  induction todo as [|p todo IH]; intros vs n ns Hnd Hid Hn Hcg Hv es Hes.
  { exists n. do 3 (split; [done|]). split; [|done]. by intros p ?%not_elem_of_nil. }
  apply NoDup_cons in Hnd as [Hp Hnd]. apply not_elem_of_cons in Hid as [Hpid Hid].
  destruct (Hv p ltac:(left)) as (m & Hm & Hvm).
  destruct (deliver_vote id n0 vs p n m ns Hmax Hn Hm ltac:(done) Hcg Hvm)
    as (n1 & m' & Hd & Hcg1 & He1 & Hvf).
  assert (forall q, q <> p -> q <> id -> (<[id := n1]> (<[p := m']> ns)) !! q = ns !! q) as Hoth.
  { intros q Hq Hqi. by rewrite !lookup_insert_ne. }
  destruct (IH (p :: vs) n1 (<[id := n1]> (<[p := m']> ns))) as (n2 & Hn2 & Hcg2 & Hout & Hin & Hre).
  - done.
  - done.
  - apply lookup_insert_eq.
  - done.
  - intros q Hq. destruct (Hv q ltac:(by right)) as (mq & Hmq & Hvq). exists mq.
    split; [|done]. rewrite Hoth; [done|by intros ->|by intros ->].
  - intros e He. apply He1, Hes. by right.
  - assert (deliver_all id es ns = deliver_all id
      (map (fun p => SpawnRequestVote p (vote_request n0)) todo) (<[id := n1]> (<[p := m']> ns)))
      as Heq by (unfold es, deliver_all; cbn [map fold_left]; by rewrite Hd).
    rewrite Heq. exists n2. split; [done|].
    split; [by rewrite reverse_cons, <- app_assoc|]. split; [|split].
    + intros q [Hqp Hq]%not_elem_of_cons Hqi. rewrite Hout by done. by apply Hoth.
    + intros q [->|Hq]%elem_of_cons.
      * exists m, m'. split; [done|]. split; [|done]. rewrite Hout by done.
        by rewrite lookup_insert_ne, lookup_insert_eq.
      * destruct (Hin q Hq) as (mq & mq' & Hmq & Hmq' & Hvq). exists mq, mq'. split; [|done].
        rewrite <- Hmq. symmetry. apply Hoth; by intros ->.
    + transitivity (<[id := n1]> (<[p := m']> ns)); [|done]. rewrite <- Hd.
      eapply deliver_reaches; [done|]. apply Hes. by left.
Qed.

(** With the votes of a quorum, the election is won. *)
Lemma enough_votes n0 A vs n :
  campaigning n0 vs n -> NoDup A -> cfg_id (config n0) ∉ A -> A ⊆ vs ->
  quorum (config n0) <= nlen A + 1 ->
  role (sm n) = Leader /\ leader_id (sm n) = Some (cfg_id (config n0)) /\
  fresh_peers (lv_last (log n0)) (cfg_peers (config n0)) (progress (sm n)) /\
  forall peer, peer ∈ cfg_peers (config n0) ->
    progress (sm n) !! peer = Some (Progress_new (lv_last (log n0) + 1)).
Proof.
  intros Hcg Hnd Hid Hsub Hq. destruct (cg_standing _ _ _ Hcg) as [(_ & Hvotes & Hlt)|Hlead]; [|done].
  exfalso. rewrite Hvotes in Hlt.
  assert (length A + 1 <= size ({[cfg_id (config n0)]} ∪ list_to_set vs : gset NodeId))%nat
    as Hsz; [|unfold nlen in Hq; lia].
  rewrite <- (size_list_to_set (C := gset NodeId) A), Nat.add_comm by done.
  rewrite <- (size_singleton (C := gset NodeId) (cfg_id (config n0))), <- size_union.
  - apply subseteq_size. intros q. rewrite !elem_of_union, !elem_of_list_to_set.
    intros [?|Hin]; [by left|right]. by apply Hsub.
  - apply disjoint_singleton_l. by rewrite elem_of_list_to_set.
Qed.

Lemma campaigning_ok n0 vs n :
  node_ok n0 -> campaigning n0 vs n ->
  fresh_peers (lv_last (log n0)) (cfg_peers (config n0)) (progress (sm n)) -> node_ok n.
Proof.
  intros [Hl _ _ Hi Hm] [_ _ Hlo Hp Hc _ Hci Hla _] Hfr.
  split; try done; [..|by rewrite Hc].
  - eapply fresh_peers_ok, Hfr. pose proof (wf_bound _ (log_wf_view _ Hl)) as Hbd.
    unfold log, u64 in *. lia.
  - unfold indices_ok. by rewrite Hci, Hla.
Qed.

Lemma quorum_elects_run id A ns n (Hn : ns !! id = Some n) (Hok : node_ok n)
    (Hid : cfg_id (config n) = id) (Hu : u64 (current_term (sm n) + 1))
    (Hps : NoDup (cfg_peers (config n))) (HA : A ⊆ cfg_peers (config n)) (Hnd : NoDup A)
    (Hself : id ∉ cfg_peers (config n)) (Hq : quorum (config n) <= nlen A + 1)
    (Hv : forall p, p ∈ A -> exists m, ns !! p = Some m /\ voter_for n m) :
  let ns' := election_round id A ns in
  exists n', ns' !! id = Some n' /\ node_ok n' /\ role (sm n') = Leader /\
    current_term (sm n') = current_term (sm n) + 1 /\ leader_id (sm n') = Some id /\
    log n' = log n /\ config n' = config n /\ pending n' = pending n /\
    commit_index (sm n') = commit_index (sm n) /\ last_applied (sm n') = last_applied (sm n) /\
    (forall p, p ∈ cfg_peers (config n) ->
       progress (sm n') !! p = Some (Progress_new (lv_last (log n) + 1))) /\
    (forall p, p ∈ A -> exists m m', ns !! p = Some m /\ ns' !! p = Some m' /\ votes_for n m m') /\
    reaches ns ns'.
Proof.
  intros ns'. destruct (campaign_starts n Hok Hu) as (n1 & es & Hrun & Hcg1 & He1 & Hes).
  set (todo := filter (fun p => p ∈ A) (cfg_peers (config n))).
  set (tasks := map (fun p => SpawnRequestVote p (vote_request n)) todo).
  assert (forall p, p ∈ todo <-> p ∈ A) as Htodo.
  { intros p. unfold todo. rewrite list_elem_of_filter. split; [tauto|]. auto. }
  assert (ns' = deliver_all id tasks (<[id := n1]> ns)) as Heq.
  { unfold ns', election_round, round_of. rewrite Hn. unfold new_tasks. rewrite Hrun. cbn [snd].
    rewrite He1, drop_app_length, Hes. fold todo tasks. f_equal. unfold input.
    by rewrite (alter_alt_Some _ _ _ n), Hrun. }
  destruct (deliver_votes id n todo [] n1 (<[id := n1]> ns))
    as (n2 & Hn2 & Hcg2 & _ & Hvs & Hre).
  - apply Hok.
  - by apply NoDup_filter.
  - intros Hin%Htodo. by apply Hself, HA.
  - apply lookup_insert_eq.
  - done.
  - intros p Hp%Htodo. destruct (Hv p Hp) as (m & Hm & Hvm). exists m. split; [|done].
    rewrite lookup_insert_ne; [done|]. intros <-. by apply Hself, HA.
  - intros e He. change (e ∈ tasks) in He. unfold tasks, todo in He.
    rewrite <- (Hes A) in He. apply list_elem_of_filter in He as [_ He].
    rewrite He1. apply elem_of_app. by right.
  - rewrite Heq. fold tasks in Hn2, Hvs, Hre. exists n2. split; [done|].
    destruct (enough_votes n A _ n2 Hcg2) as (Hr & Hlead & Hfr & Hall); [done| | |done|].
    { rewrite Hid. intros Hin. by apply Hself, HA. }
    { intros p Hp. rewrite app_nil_r, elem_of_reverse. by apply Htodo. }
    split; [by eapply campaigning_ok|]. destruct Hcg2 as [Hb Hl _ _ Hc Hpe Hci Hla _].
    injection Hb as Ht _. do 2 (split; [done|]). split; [by rewrite Hlead, Hid|].
    do 6 (split; [done|]). split.
    + intros p Hin%Htodo. destruct (Hvs p Hin) as (m & m' & Hm & Hm' & Hvf). exists m, m'.
      split; [|done]. rewrite <- Hm. symmetry. apply lookup_insert_ne. intros <-.
      apply Hself, HA. by apply Htodo.
    + transitivity (<[id := n1]> ns); [|done].
      replace (<[id := n1]> ns) with (input id InElectionTimeout ns)
        by (unfold input; by rewrite (alter_alt_Some _ _ _ n), Hrun).
      by eapply input_reaches.
Qed.
(** A candidate that reaches a quorum wins. If the timer of a node fires, and
    its exchanges with the peers [A], a quorum with itself, succeed, none of
    which has a newer term or a log that is ahead, then it is the leader of the
    next term, it knows that it is, its log and indices are what they were, it
    will send to every peer from the end of its log on, and every node of [A]
    has its vote for it on storage. *)
Theorem quorum_elects id A ns n (Hn : ns !! id = Some n) (Hok : node_ok n)
    (Hid : cfg_id (config n) = id) (Hu : u64 (current_term (sm n) + 1))
    (Hps : NoDup (cfg_peers (config n))) (HA : A ⊆ cfg_peers (config n)) (Hnd : NoDup A)
    (Hself : id ∉ cfg_peers (config n)) (Hq : quorum (config n) <= nlen A + 1)
    (Hv : forall p, p ∈ A -> exists m, ns !! p = Some m /\ voter_for n m) :
  let ns' := election_round id A ns in
  exists n', ns' !! id = Some n' /\ node_ok n' /\ role (sm n') = Leader /\
    current_term (sm n') = current_term (sm n) + 1 /\ leader_id (sm n') = Some id /\
    log n' = log n /\ config n' = config n /\ pending n' = pending n /\
    commit_index (sm n') = commit_index (sm n) /\ last_applied (sm n') = last_applied (sm n) /\
    (forall p, p ∈ cfg_peers (config n) ->
       progress (sm n') !! p = Some (Progress_new (lv_last (log n) + 1))) /\
    (forall p, p ∈ A -> exists m m', ns !! p = Some m /\ ns' !! p = Some m' /\ votes_for n m m') /\
    reaches ns ns'.
Proof. by apply quorum_elects_run. Qed.
End electable.
