(* ===== verification/Service.v ===== *)
(** * A cluster that can be used

    The pieces of [Liveness] and [Electable] together: from the timer of a node
    to the answers its clients get. *)

From Stdlib Require Import Lia Init.Byte.
From stdpp Require Import base numbers list option gmap sets fin_maps strings.
From S2P Require Import Prelude.
From S2P Require Import Core.
From S2P Require Import Proto.
From S2P Require Import Storage.
From S2P Require Import MemStorage.
From S2P Require Import StateMachine.
From S2P Require Import Node.
From S2P Require Import Handlers.
From S2P Require Import Votes.
From S2P Require Import NodeLog.
From S2P Require Import Election.
From S2P Require Import Cluster.
From S2P Require Import RequestVote.
From S2P Require Import AppendEntries.
From S2P Require Import Replication.
From S2P Require Import Progress.
From S2P Require Import Proposals.
From S2P Require Import Total.
From S2P Require Import LogSteps.
From S2P Require Import Ensemble.
From S2P Require Import Liveness.
From S2P Require Import Electable.

Section service.
Context {prof : BuildProfile} {St : Type}
  `{HS : Storage St, HL : !LogStorage St, HD : !DurableStorage St}.
Implicit Types (ns : gmap NodeId (RaftNodeInner St)) (n m : RaftNodeInner St).

(** Clients of the node [id] propose [ds], one after the other. *)
Definition propose_all (id : NodeId) (ds : list Proposal) ns : gmap NodeId (RaftNodeInner St) :=
  fold_left (fun ns p => input id (InMessage (Propose p)) ns) ds ns.

(** The entry of the [j]-th proposal. *)
Definition entry_of (t : Term) (last : LogIndex) (j : nat) (p : Proposal) : LogEntry :=
  MkLogEntry t (last + 1 + N.of_nat j) (prop_data p) Normal.

(** A leader after it has taken [ds]. *)
Record took (t : Term) (ds : list Proposal) m m' : Prop := {
  tk_leading : leading (log m') t m';
  tk_sm : sm m' = sm m;
  tk_config : config m' = config m;
  tk_base : lv_base (log m') = lv_base (log m);
  tk_base_term : lv_base_term (log m') = lv_base_term (log m);
  tk_last : lv_last (log m') = lv_last (log m) + nlen ds;
  tk_old i : i <= lv_last (log m) -> lv_log (log m') !! i = lv_log (log m) !! i;
  tk_new j p : ds !! j = Some p ->
    lv_log (log m') !! (lv_last (log m) + 1 + N.of_nat j) = Some (entry_of t (lv_last (log m)) j p);
  tk_pending : pending m ⊆ pending m';
  tk_waits j p tx : ds !! j = Some p -> prop_tx p = Some tx ->
    (lv_last (log m) + 1 + N.of_nat j, tx) ∈ pending m';
}.

Lemma took_one t p m :
  leading (log m) t m -> u64 (lv_last (log m) + 3) ->
  took t [p] m (handle (InMessage (Propose p)) m).2.
Proof.
  intros [Hok Hr Ht _] Hu.
  destruct (handle_node_ok (InMessage (Propose p)) m Hok Hu) as (r & m1 & Hh & Hok1).
  pose proof (handle_keeps_config (InMessage (Propose p)) m) as Hc.
  destruct (on_proposal_run m p (ok_log _ Hok) (ok_progress _ Hok) Hu (ok_config _ Hok))
    as (m2 & Hrun & Hs & _ & Hacc).
  assert (m2 = m1) as -> by (cbn [handle dispatch] in Hh; unfold bind, ret in Hh; rewrite Hrun in Hh; congruence).
  rewrite Hh in *. cbn [snd] in *. rewrite decide_True in Hacc by done.
  destruct Hacc as (Hl & Hnew & Hold & Hpe & _).
  assert (proposed m (prop_data p) = entry_of t (lv_last (log m)) 0 p) as Hpr
    by (unfold proposed, entry_of; by rewrite Ht, N.add_0_r).
  split; try done.
  - split; [done|congruence|congruence|done].
  - by rewrite Hl.
  - by rewrite Hl.
  - rewrite Hl, spec_append_last. unfold nlen. cbn. lia.
  - intros [|j] q; [|done]. intros [= <-]. rewrite N.add_0_r, Hnew. by rewrite Hpr.
  - rewrite Hpe. apply subseteq_app.
  - intros [|j] q tx; [|done]. intros [= <-] Htx. rewrite Hpe, Htx, N.add_0_r.
    apply elem_of_app. right. by left.
Qed.

Lemma took_trans t p ds m m1 m2 : took t [p] m m1 -> took t ds m1 m2 -> took t (p :: ds) m m2.
Proof.
  intros [Hld1 Hs1 Hc1 Hb1 Hbt1 Hl1 Ho1 Hn1 Hp1 Hw1] [Hld2 Hs2 Hc2 Hb2 Hbt2 Hl2 Ho2 Hn2 Hp2 Hw2].
  rewrite nlen_cons, nlen_nil in Hl1.
  assert (forall j, lv_last (log m1) + 1 + N.of_nat j = lv_last (log m) + 1 + N.of_nat (S j)) as Hj by lia.
  split; [done|congruence..| | | | |].
  - rewrite nlen_cons. lia.
  - intros i Hi. rewrite Ho2 by lia. by apply Ho1.
  - intros [|j] q; cbn; [intros [= <-]|intros Hq].
    + rewrite Ho2 by lia. by apply (Hn1 0%nat).
    + rewrite <- Hj, (Hn2 j q Hq). unfold entry_of. by rewrite <- Hj.
  - by transitivity (pending m1).
  - intros [|j] q tx; cbn; [intros [= <-] Htx|intros Hq Htx].
    + apply Hp2. by apply (Hw1 0%nat p).
    + rewrite <- Hj. by apply (Hw2 j q).
Qed.

Lemma took_nil t m : leading (log m) t m -> took t [] m m.
Proof. intros Hld. split; try done. rewrite nlen_nil. lia. Qed.

Lemma propose_all_run id t ds m ns :
  ns !! id = Some m -> leading (log m) t m -> u64 (lv_last (log m) + nlen ds + 2) ->
  exists m', propose_all id ds ns !! id = Some m' /\ took t ds m m' /\
    (forall q, q <> id -> propose_all id ds ns !! q = ns !! q) /\ reaches ns (propose_all id ds ns).
Proof.
  revert m ns. induction ds as [|p ds IH]; intros m ns Hm Hld Hu.
  { exists m. by split; [done|split; [apply took_nil|]]. }
  rewrite nlen_cons in Hu.
  assert (u64 (lv_last (log m) + 3)) as Hu3 by (unfold u64 in *; lia).
  pose proof (took_one t p m Hld Hu3) as Htk. set (m1 := (handle _ m).2) in Htk.
  pose proof (tk_last _ _ _ _ Htk) as Hl1. rewrite nlen_cons, nlen_nil in Hl1.
  destruct (IH m1 (input id (InMessage (Propose p)) ns)) as (m2 & Hm2 & Htk2 & Hoth & Hre).
  - unfold input. by rewrite lookup_alter_eq, Hm.
  - apply Htk.
  - rewrite Hl1. unfold u64 in *. lia.
  - exists m2. split; [done|]. split; [by eapply took_trans|]. split.
    + intros q Hq. cbn. fold (propose_all id ds (input id (InMessage (Propose p)) ns)).
      rewrite Hoth by done. by apply lookup_alter_ne.
    + transitivity (input id (InMessage (Propose p)) ns); [|done]. by eapply input_reaches.
Qed.

(** *** The logs *)

Lemma took_last_term t ds m m' :
  took t ds m m' -> ds <> [] -> term_at (log m') (lv_last (log m')) = t.
Proof.
  intros Htk Hds. pose proof (tk_leading _ _ _ _ Htk) as [Hok _ _ _].
  destruct (lookup_lt_is_Some_2 ds (length ds - 1)) as [p Hp]; [destruct ds; [done|cbn; lia]|].
  pose proof (tk_new _ _ _ _ Htk _ _ Hp) as He.
  rewrite (tk_last _ _ _ _ Htk). replace (lv_last (log m) + nlen ds)
    with (lv_last (log m) + 1 + N.of_nat (length ds - 1))
    by (unfold nlen; destruct ds; [done|cbn; lia]).
  etransitivity; [eapply term_at_lookup, He; apply (log_wf_view _ (ok_log _ Hok))|done].
Qed.

Lemma took_term t ds m m' i :
  took t ds m m' -> i <= lv_last (log m) -> term_at (log m') i = term_at (log m) i.
Proof.
  intros Htk Hi. unfold term_at, spec_term.
  by rewrite (tk_base _ _ _ _ Htk), (tk_base_term _ _ _ _ Htk), (tk_old _ _ _ _ Htk).
Qed.

(** What the candidate [n] needs of the log of a node [m]: it starts within the
    candidate's, matches it, and has no entry of a term above the
    candidate's. *)
Record comparable n m : Prop := {
  cm_start : lv_base (log n) <= lv_base (log m) <= lv_last (log n);
  cm_start_term : lv_base (log m) = 0 \/ lv_base_term (log m) = term_at (log n) (lv_base (log m));
  cm_match : logs_match (lv_base (log m)) (log m) (log n);
  cm_terms i e : lv_log (log m) !! i = Some e -> le_term e <= current_term (sm n);
}.

Lemma took_follower t ds n m n1 n2 m' :
  comparable n m -> votes_for n m m' -> log n1 = log n -> took t ds n1 n2 ->
  t = current_term (sm n) + 1 ->
  follower_of n2 m' (Progress_new (lv_last (log n) + 1)).
Proof.
  intros [Hs Hst Hma Hte] (Hb & Hlo & Hp & Hl & _) Hl1 Htk Ht. injection Hb as Hbt _.
  pose proof (tk_last _ _ _ _ Htk) as Hlast. pose proof (tk_base _ _ _ _ Htk) as Hbase.
  pose proof (lg_term _ _ _ (tk_leading _ _ _ _ Htk)) as Ht2.
  assert (wf_view (log n2)) as Hw2 by apply (log_wf_view _ (ok_log _ (lg_ok _ _ _ (tk_leading _ _ _ _ Htk)))).
  pose proof (tk_old _ _ _ _ Htk) as Hold. pose proof (tk_new _ _ _ _ Htk) as Hnew.
  pose proof (took_term _ _ _ _ (lv_base (log m)) Htk) as Htat.
  rewrite Hl1 in *.
  split; try done; rewrite ?Hl; cbn; [lia|lia| | |lia|by left].
  - destruct Hst as [?|Hst]; [by left|right]. rewrite Hst. symmetry. apply Htat. lia.
  - intros i e e' Hi He He' Hee j Hj.
    destruct (N.le_gt_cases i (lv_last (log n))) as [Hle|Hgt].
    + rewrite Hold in He' by done. rewrite Hold by lia. by apply (Hma i e e').
    + exfalso. assert (is_Some (lv_log (log n2) !! i)) as Hin by eauto.
      apply (wf_dom _ Hw2) in Hin.
      destruct (lookup_lt_is_Some_2 ds (N.to_nat (i - lv_last (log n) - 1))) as [p Hq];
        [unfold nlen in *; lia|].
      specialize (Hnew _ _ Hq). replace (lv_last (log n) + 1 + _) with i in Hnew by lia.
      specialize (Hte i e He). assert (le_term e' = t) by (by simplify_eq). lia.
Qed.

Lemma cluster_serves_run id A ns n ds k (Hn : ns !! id = Some n) (Hok : node_ok n)
    (Hid : cfg_id (config n) = id) (Hu : u64 (current_term (sm n) + 1))
    (Hps : NoDup (cfg_peers (config n))) (HA : A ⊆ cfg_peers (config n)) (Hnd : NoDup A)
    (Hself : id ∉ cfg_peers (config n)) (Hq : quorum (config n) <= nlen A + 1)
    (Hbase : lv_base (log n) <= last_applied (sm n))
    (Hci : commit_index (sm n) <= lv_last (log n))
    (Hv : forall p, p ∈ A -> exists m, ns !! p = Some m /\ voter_for n m /\ comparable n m)
    (Hds : ds <> []) (Hlen : u64 (lv_last (log n) + nlen ds + 2))
    (Hk : 2 * (lv_last (log n) + nlen ds) + 1 < N.of_nat k) :
  let ns' := Nat.iter k (heartbeat_round id A) (propose_all id ds (election_round id A ns)) in
  exists n', ns' !! id = Some n' /\ role (sm n') = Leader /\
    current_term (sm n') = current_term (sm n) + 1 /\
    commit_index (sm n') = lv_last (log n) + nlen ds /\
    (forall j p, ds !! j = Some p ->
       let i := lv_last (log n) + 1 + N.of_nat j in
       let e := entry_of (current_term (sm n) + 1) (lv_last (log n)) j p in
       lv_log (log n') !! i = Some e /\ ApplyEntry e ∈ effects n' /\
       (forall tx, prop_tx p = Some tx -> ProposalReply tx (Ok i) ∈ effects n') /\
       (forall q, q ∈ A -> exists m', ns' !! q = Some m' /\ lv_log (log m') !! i = Some e)) /\
    reaches ns ns'.
Proof.
  set (t := current_term (sm n) + 1). set (last := lv_last (log n)) in *.
  destruct (quorum_elects_run id A ns n Hn Hok Hid Hu Hps HA Hnd Hself Hq)
    as (n1 & Hn1 & Hok1 & Hr1 & Ht1 & _ & Hl1 & Hc1 & _ & Hci1 & Hla1 & Hpr1 & Hvs & Hre1).
  { intros p Hp. destruct (Hv p Hp) as (m & Hm & Hvm & _). by exists m. }
  set (ns1 := election_round id A ns) in *.
  destruct (propose_all_run id t ds n1 ns1 Hn1) as (n2 & Hn2 & Htk & Hoth & Hre2);
    [by split|by rewrite Hl1|].
  set (ns2 := propose_all id ds ns1) in *.
  pose proof Htk as [[Hok2 Hr2 Ht2 _] Hs2 Hc2 Hb2 _ Hl2 Ho2 Hn2' _ Hw2].
  assert (id ∉ A) as HidA by (intros Hin; by apply Hself, HA).
  rewrite Hl1 in *. fold last in Hl2, Hn2', Hw2.
  destruct (quorum_commits_run id A ns2 n2 k Hn2 Hok2 Hr2)
    as (n3 & Hn3 & _ & Hr3 & Ht3 & Hl3 & Hci3 & _ & Hrep & Happ & Hst & Hre3).
  - rewrite Ht2. by apply (took_last_term t ds n1).
  - by rewrite Hb2, Hs2, Hla1.
  - rewrite Hs2, Hci1, Hl2. lia.
  - by rewrite Hc2, Hc1.
  - by rewrite Hc2, Hc1.
  - done.
  - done.
  - by rewrite Hc2, Hc1.
  - intros p Hp. destruct (Hvs p Hp) as (m & m' & Hm & Hm' & Hvf).
    destruct (Hv p Hp) as (m0 & Hm0 & _ & Hcm). assert (m0 = m) as -> by congruence.
    exists m', (Progress_new (last + 1)). split; [rewrite Hoth; [done|by intros ->]|].
    split; [rewrite Hs2; by apply Hpr1, HA|]. by eapply (took_follower t ds n m n1 n2).
  - by rewrite Hl2.
  - exists n3. split; [done|]. split; [done|]. split; [congruence|]. split; [congruence|]. split.
    + intros j p Hj i e. pose proof (Hn2' j p Hj) as He. fold i e in He.
      assert (j < length ds)%nat as Hjl' by by eapply lookup_lt_Some.
      pose proof (proj1 (ok_indices _ Hok)) as Hai. unfold nlen in *.
      split; [by rewrite Hl3|]. split; [|split].
      * apply (Happ i); [rewrite Hs2, Hla1; unfold i; lia|done].
      * intros tx Htx. apply Hrep; [unfold i; lia|]. by apply (Hw2 j p).
      * intros q Hq'. destruct (Hst q Hq') as (mq & m' & Hmq & Hm' & _ & Hlog). exists m'.
        split; [done|]. destruct (Hvs q Hq') as (m & mv & Hm & Hmv & (_ & _ & _ & Hlm & _)).
        destruct (Hv q Hq') as (m0 & Hm0 & _ & Hcm).
        rewrite Hoth in Hmq by (by intros ->). simplify_eq.
        pose proof (cm_start _ _ Hcm) as [_ Hs]. rewrite Hlog; [done|]. rewrite Hlm. unfold i. lia.
    + transitivity ns1; [done|]. by transitivity ns2.
Qed.
(** C6. A cluster that can be used. Take a node and a quorum [A] of its peers,
    none with a newer term or a log that is ahead, whose logs match its own.
    If its timer fires and its exchanges with [A] succeed, clients propose to
    it, and its exchanges with [A] of so many heartbeats succeed as its log and
    the proposals are long, twice over: then the node leads, every proposal is
    in its log in the order it was made, at every node of [A] too, is
    committed, has been handed to the application, and the client has been
    answered with its index. All this is an execution of the cluster, whatever
    else is under way in it. *)
Theorem cluster_serves id A ns n ds k (Hn : ns !! id = Some n) (Hok : node_ok n)
    (Hid : cfg_id (config n) = id) (Hu : u64 (current_term (sm n) + 1))
    (Hps : NoDup (cfg_peers (config n))) (HA : A ⊆ cfg_peers (config n)) (Hnd : NoDup A)
    (Hself : id ∉ cfg_peers (config n)) (Hq : quorum (config n) <= nlen A + 1)
    (Hbase : lv_base (log n) <= last_applied (sm n))
    (Hci : commit_index (sm n) <= lv_last (log n))
    (Hv : forall p, p ∈ A -> exists m, ns !! p = Some m /\ voter_for n m /\ comparable n m)
    (Hds : ds <> []) (Hlen : u64 (lv_last (log n) + nlen ds + 2))
    (Hk : 2 * (lv_last (log n) + nlen ds) + 1 < N.of_nat k) :
  let ns' := Nat.iter k (heartbeat_round id A) (propose_all id ds (election_round id A ns)) in
  exists n', ns' !! id = Some n' /\ role (sm n') = Leader /\
    current_term (sm n') = current_term (sm n) + 1 /\
    commit_index (sm n') = lv_last (log n) + nlen ds /\
    (forall j p, ds !! j = Some p ->
       let i := lv_last (log n) + 1 + N.of_nat j in
       let e := entry_of (current_term (sm n) + 1) (lv_last (log n)) j p in
       lv_log (log n') !! i = Some e /\ ApplyEntry e ∈ effects n' /\
       (forall tx, prop_tx p = Some tx -> ProposalReply tx (Ok i) ∈ effects n') /\
       (forall q, q ∈ A -> exists m', ns' !! q = Some m' /\ lv_log (log m') !! i = Some e)) /\
    reaches ns ns'.
Proof. by apply cluster_serves_run. Qed.
End service.

Section examples.
Local Existing Instance dev_profile.
#[local] Existing Instances MemStorage MemStorage_log MemStorage_durable.

Lemma ex_start_node_ok : node_ok (ex_start 1 [2; 3]).
Proof.
  split; [by_compute|reflexivity|apply map_Forall_empty|split; by_compute|by_compute].
Qed.

Lemma ex_start_voter : voter_for (ex_start 1 [2; 3]) (ex_start 2 [1; 3]).
Proof. split; [by_compute|split; by_compute]. Qed.

Lemma ex_start_comparable : comparable (ex_start 1 [2; 3]) (ex_start 2 [1; 3]).
Proof.
  assert (lv_log (log (ex_start 2 [1; 3])) = ∅) as Hl by done.
  split; [by_compute|by left| |]; intros i e; rewrite Hl; [intros e' _|]; by rewrite lookup_empty.
Qed.

(** Node 1 of the cluster of [Cluster] reaches node 2; a client proposes "a" on
    channel 7. *)
Lemma cluster_serves_witness :
  exists n', Nat.iter 4 (heartbeat_round 1 [2]) (propose_all 1 [MkProposal [x61] (Some 7)]
      (election_round 1 [2] (nodes ex_cluster))) !! 1 = Some n' /\
    ProposalReply 7 (Ok 1) ∈ effects n' /\ ApplyEntry (MkLogEntry 1 1 [x61] Normal) ∈ effects n'.
Proof.
  destruct (cluster_serves 1 [2] (nodes ex_cluster) (ex_start 1 [2; 3]) [MkProposal [x61] (Some 7)] 4)
    as (n' & Hn' & _ & _ & _ & Hj & _).
  - reflexivity.
  - apply ex_start_node_ok.
  - reflexivity.
  - by_compute.
  - by_compute.
  - intros p Hp. apply list_elem_of_singleton in Hp as ->. by_compute.
  - by_compute.
  - by_compute.
  - by_compute.
  - by_compute.
  - by_compute.
  - intros p Hp. apply list_elem_of_singleton in Hp as ->. exists (ex_start 2 [1; 3]).
    split; [reflexivity|]. split; [apply ex_start_voter|apply ex_start_comparable].
  - discriminate.
  - by_compute.
  - by_compute.
  - exists n'. split; [exact Hn'|]. destruct (Hj 0%nat _ eq_refl) as (_ & Ha & Hr & _).
    split; [by apply Hr|exact Ha].
Defined.
End examples.
