(* ===== verification/Loopback.v ===== *)
(** * The example cluster

    Models src/examples/three_node_cluster.rs: its in-process transport, the
    nodes it boots and registers, and what its clients propose. The transport is
    the network of [Ensemble], so that what is proved of all clusters holds of
    this one. *)

From Stdlib Require Import Lia Init.Byte String.
From stdpp Require Import base numbers list option gmap sets fin_maps strings pretty.
From S2P Require Import Prelude.
From S2P Require Import Core.
From S2P Require Import Proto.
From S2P Require Import Storage.
From S2P Require Import MemStorage.
From S2P Require Import StateMachine.
From S2P Require Import Node.
From S2P Require Import Handlers.
From S2P Require Import Votes.
From S2P Require Import NodeLog.
From S2P Require Import Election.
From S2P Require Import Cluster.
From S2P Require Import RequestVote.
From S2P Require Import AppendEntries.
From S2P Require Import Replication.
From S2P Require Import Progress.
From S2P Require Import Proposals.
From S2P Require Import Total.
From S2P Require Import EventLoop.
From S2P Require Import Network.
From S2P Require Import LogSteps.
From S2P Require Import Ensemble.
From S2P Require Import Liveness.
From S2P Require Import Electable.
From S2P Require Import Service.

(** ** The transport *)

(** The process: the map behind the transport's lock, and the nodes its
    handlers refer to. *)
Record LoopbackWorld (St : Type) : Type := MkLoopback {
  lb_peers : gmap NodeId NodeRef;
  lb_heap : gmap NodeRef (RaftNodeInner St);
}.
Arguments MkLoopback {St}.
Arguments lb_peers {St} _.
Arguments lb_heap {St} _.

Section loopback.
Context {prof : BuildProfile} {St : Type} `{Storage St}.
Local Abbreviation W := (LoopbackWorld St).

Definition set_heap (h : gmap NodeRef (RaftNodeInner St)) (w : W) : W := MkLoopback (lb_peers w) h.

Definition loopback_add (id : NodeId) (h : NodeRef) : M W unit :=
  modify (fun w => MkLoopback (<[id := h]> (lb_peers w)) (lb_heap w)).

(** [g.get(&target).ok_or_else(..)?.handle(req).await] *)
Definition loopback_call {A} (target : NodeId)
    (call : NodeRef -> M (gmap NodeRef (RaftNodeInner St)) (raft_result A)) : M W (raft_result A) :=
  let* g := gets lb_peers in
  match g !! target with
  | None => ret (Err (Network "unknown peer"))
  | Some h => zoom lb_heap set_heap (call h)
  end.

Definition Loopback : NetworkTransport W := {|
  send_append_entries := fun target req => loopback_call target (fun h => handle_append_entries h req);
  send_request_vote := fun target req => loopback_call target (fun h => handle_request_vote h req);
  send_install_snapshot := fun target req => loopback_call target (fun h => handle_install_snapshot h req);
|}.

(** ** Executions of a process with this transport *)

(** The process and the answers posted to its nodes' queues. *)
Record NodeProcess : Type := MkNodeProcess {
  p_net : W;
  p_inbox : list (NodeId * RaftMessage);
}.

(** A task that panics or is answered by an error posts nothing. *)
Definition posted (o : outcome (option RaftMessage)) : option RaftMessage :=
  match o with Done m => m | Panicked => None end.

Definition on_heap (f : gmap NodeRef (RaftNodeInner St) -> gmap NodeRef (RaftNodeInner St))
    (p : NodeProcess) : NodeProcess :=
  MkNodeProcess (set_heap (f (lb_heap (p_net p))) (p_net p)) (p_inbox p).
End loopback.
Arguments NodeProcess St : clear implicits.

Section process.
Context {prof : BuildProfile} {St : Type}
  `{HS : Storage St, HL : !LogStorage St, HD : !DurableStorage St}.
Implicit Types (p : NodeProcess St) (n : RaftNodeInner St).

(** A node is registered, gets an input of its own, runs one of its tasks over
    the transport, or takes an answer from its queue. *)
Inductive process_step (fresh : RaftNodeInner St -> Input -> Prop) : NodeProcess St -> NodeProcess St -> Prop :=
| ps_add p id n :
    lb_heap (p_net p) !! id = Some n ->
    process_step fresh p (MkNodeProcess (loopback_add id id (p_net p)).2 (p_inbox p))
| ps_own p id n i :
    lb_heap (p_net p) !! id = Some n -> own_input i -> takes n i ->
    process_step fresh p (on_heap (alter (fun n => (handle i n).2) id) p)
| ps_task p src m e o net :
    lb_heap (p_net p) !! src = Some m -> e ∈ effects m ->
    (forall peer i n, request_of e = Some (peer, i) -> lb_heap (p_net p) !! peer = Some n -> fresh n i) ->
    run_task (H := Loopback) e (p_net p) = (o, net) ->
    process_step fresh p (MkNodeProcess net (p_inbox p ++ option_list (pair src <$> posted o)))
| ps_answer p id msg n :
    (id, msg) ∈ p_inbox p -> lb_heap (p_net p) !! id = Some n -> fresh n (InMessage msg) ->
    process_step fresh p (on_heap (alter (fun n => (handle (InMessage msg) n).2) id) p).

Inductive process_steps fresh : NodeProcess St -> NodeProcess St -> Prop :=
| pss_refl p : process_steps fresh p p
| pss_step p1 p2 p3 :
    process_steps fresh p1 p2 -> process_step fresh p2 p3 -> process_steps fresh p1 p3.

(** The registered handlers are the nodes themselves. *)
Definition wired (w : LoopbackWorld St) : Prop :=
  forall id h, lb_peers w !! id = Some h -> h = id /\ is_Some (lb_heap w !! id).

Definition world_of p : World St := MkWorld (lb_heap (p_net p)) (p_inbox p).

(** A call over the transport, to a peer that is registered, is the call of
    [Ensemble]; to another it fails and does nothing. *)
Lemma loopback_task e w o w' :
  wired w -> run_task (H := Loopback) e w = (o, w') ->
  lb_peers w' = lb_peers w /\
  ((posted o = None /\ w' = w) \/
   exists ns, run_task (H := ClusterTransport) e (lb_heap w) = (Done (posted o), ns) /\
     lb_heap w' = ns).
Proof.
  intros Hw.
  assert (forall A peer (m : M (RaftNodeInner St) (raft_result A)) (k : A -> RaftMessage) o w',
    bind (loopback_call peer (fun h => locked h m))
      (fun r => ret (match r with Ok a => Some (k a) | Err _ => None end)) w = (o, w') ->
    lb_peers w' = lb_peers w /\
    ((posted o = None /\ w' = w) \/
     exists ns, bind (call peer m)
        (fun r => ret (match r with Ok a => Some (k a) | Err _ => None end)) (lb_heap w) =
        (Done (posted o), ns) /\ lb_heap w' = ns)) as Hall.
  { intros A peer m k o1 w1. unfold bind at 1, loopback_call, gets, bind at 1.
    destruct (lb_peers w !! peer) as [h|] eqn:Hpeer.
    - destruct (Hw peer h Hpeer) as [-> [n Hn]]. unfold zoom, locked, bind, call, ret. rewrite !Hn.
      cbn [fst snd]. destruct (m n) as [[[a|e']|] n'] eqn:Hm; cbn [fst snd]; intros [= <- <-];
        (split; [done|]); right; eexists; (split; [done|done]).
    - intros [= <- <-]. split; [done|]. by left. }
  destruct e as [peer req|peer req li|peer req li| | | | | | |]; cbn [run_task];
    try (intros [= <- <-]; split; [done|]; by left).
  - apply (Hall _ peer (on_request_vote req) (VoteResponse peer)).
  - apply (Hall _ peer (on_append_entries req) (AppendResponse peer li)).
  - apply (Hall _ peer (on_install_snapshot req) (SnapshotResponse peer li)).
Qed.

Lemma task_keeps_domain e ns o ns' id :
  run_task (H := ClusterTransport) e ns = (Done o, ns') -> is_Some (ns !! id) -> is_Some (ns' !! id).
Proof.
  intros Hr Hid. apply task_cases in Hr as [[_ ->]|(peer & i & n & _ & -> & _)]; [done|].
  apply lookup_insert_is_Some'. by right.
Qed.

Lemma wired_heap w h :
  wired w -> (forall id, is_Some (lb_heap w !! id) -> is_Some (h !! id)) ->
  wired (MkLoopback (lb_peers w) h).
Proof. intros Hw Hh id r Hr. destruct (Hw id r Hr) as [-> Hs]. split; [done|]. by apply Hh. Qed.

Lemma process_step_refines fresh p p' :
  wired (p_net p) -> process_step fresh p p' ->
  wired (p_net p') /\ world_steps fresh (world_of p) (world_of p').
Proof.
  intros Hw Hs. destruct Hs as [p1 id n Hn|p1 id n i Hn Hi Ht|p1 src m e o net Hm He Hf Hrun|p1 id msg n Hin Hn Hf].
  - split; [|constructor]. intros id' h Hh. cbn in *.
    apply lookup_insert_Some in Hh as [[<- <-]|[_ Hh]]; [by eauto|by apply Hw].
  - split; [apply wired_heap; [done|intros id' Hs; by apply lookup_alter_is_Some]|].
    eapply wss_step; [constructor|]. unfold world_of. cbn.
    rewrite (alter_alt_Some _ _ _ n) by done. by apply (ws_own _ (MkWorld _ _)).
  - destruct (loopback_task e (p_net p1) o net Hw Hrun) as [Hpe [[Ho ->]|(ns & Hc & Hh)]].
    + split; [done|]. unfold world_of. cbn. rewrite Ho. cbn. rewrite app_nil_r. constructor.
    + split.
      * cbn. destruct net as [pe h]. cbn in *. subst pe h. apply wired_heap; [done|].
        intros id. by eapply task_keeps_domain.
      * eapply wss_step; [constructor|]. unfold world_of. cbn. rewrite Hh.
        by eapply (ws_task _ (MkWorld _ _)).
  - split; [apply wired_heap; [done|intros id' Hs; by apply lookup_alter_is_Some]|].
    eapply wss_step; [constructor|]. unfold world_of. cbn.
    rewrite (alter_alt_Some _ _ _ n) by done. by apply (ws_answer _ (MkWorld _ _) id msg n).
Qed.

(** The in-process transport is the network of the whole cluster: a process
    whose handlers are registered under their own ids, at any time and in any
    order, only has executions of the cluster of [Ensemble]; a request to a
    peer that is not registered yet is one that was lost, and a handler that
    panics ends the task that called it and nothing else. So its safety and
    liveness theorems hold of such a process. *)
Theorem process_refines_world fresh p p' (Hw : wired (p_net p)) (Hs : process_steps fresh p p') :
  wired (p_net p') /\ world_steps fresh (world_of p) (world_of p').
Proof.
  induction Hs as [p|p1 p2 p3 _ IH Hst]; [by split; [|constructor]|].
  destruct (IH Hw) as [Hw2 Hs2]. destruct (process_step_refines fresh p2 p3 Hw2 Hst) as [Hw3 Hs3].
  split; [done|]. by eapply world_steps_trans.
Qed.
End process.

(** ** The three nodes *)

Definition example_config (id : NodeId) : RaftConfig := {|
  cfg_id := id;
  cfg_peers := filter (fun p => p <> id) [1; 2; 3];
  heartbeat_interval_ms := 50;
  election_timeout_min_ms := 150;
  election_timeout_max_ms := 300;
  max_append_entries := max_append_entries RaftConfig_default;
  snapshot_threshold := snapshot_threshold RaftConfig_default;
  snapshot_chunk_size := snapshot_chunk_size RaftConfig_default;
|}.

(** [RaftNode::start(config, storage, transport.clone(), apply_tx)] *)
Definition example_node (id : NodeId) : RaftNodeInner MemStorageInner :=
  node_new (example_config id) MemStorage_new.

Definition example_nodes : gmap NodeRef (RaftNodeInner MemStorageInner) :=
  list_to_map (map (fun id => (id, example_node id)) [1; 2; 3]).

(** The process before the handlers are registered, and [transport.add] for
    each node. *)
Definition example_boot : NodeProcess MemStorageInner := MkNodeProcess (MkLoopback ∅ example_nodes) [].

Definition example_register : M (LoopbackWorld MemStorageInner) unit :=
  for_each [1; 2; 3] (fun id => loopback_add id id).

(** [format!("write:key{i}=value{i}")], proposed on channel [i]. *)
Definition example_write (i : N) : Proposal :=
  MkProposal (list_byte_of_string ("write:key" +:+ pretty i +:+ "=value" +:+ pretty i)) (Some i).

Definition example_writes : list Proposal := map example_write [1; 2; 3; 4; 5].

(** ** What main does with them

    [main] runs beside the nodes: whenever it waits, the cluster goes on by
    [meanwhile]. A channel that is never answered leaves it waiting. *)

Section main.
Context {prof : BuildProfile}.
#[local] Existing Instances MemStorage MemStorage_log MemStorage_durable.
Local Abbreviation ns_type := (gmap NodeRef (RaftNodeInner MemStorageInner)).
Context (meanwhile : ns_type -> ns_type).
Implicit Types ns : ns_type.

Definition reply_on (tx : Sender) (e : Effect) : option (raft_result LogIndex) :=
  match e with ProposalReply tx' r => if tx' =? tx then Some r else None | _ => None end.

Definition leader_on (tx : Sender) (e : Effect) : option (option NodeId) :=
  match e with LeaderReply tx' l => if tx' =? tx then Some l else None | _ => None end.

(** What came back on a channel, from the node asked. *)
Definition received {A} (f : Effect -> option A) (id : NodeId) ns : option A :=
  ns !! id ≫= fun n => head (omap f (effects n)).

(** [node.propose(data.as_bytes().to_vec()).await] for write [i] *)
Definition propose_at (id : NodeId) (i : N) ns : option (raft_result LogIndex) * ns_type :=
  let p := example_write i in
  let ns' := meanwhile (input id (InMessage (propose_message (prop_data p) (default i (prop_tx p)))) ns) in
  (received (reply_on i) id ns', ns').

(** [for node in &nodes { match node.propose(..).await { .. } }]: [None] when an
    answer never comes, [Some None] when no node committed the write. *)
Fixpoint submit (nodes : list NodeId) (i : N) ns : option (option LogIndex) * ns_type :=
  match nodes with
  | [] => (Some None, ns)
  | id :: nodes' =>
      match propose_at id i ns with
      | (None, ns') => (None, ns')
      | (Some (Ok idx), ns') => (Some (Some idx), ns')
      | (Some (Err _), ns') => submit nodes' i ns'
      end
  end.

(** [for i in 1u64..=5 { .. }] *)
Fixpoint submit_all (writes : list N) ns : list (option (option LogIndex)) * ns_type :=
  match writes with
  | [] => ([], ns)
  | i :: writes' =>
      let '(r, ns') := submit [1; 2; 3] i ns in
      let '(rs, ns'') := submit_all writes' ns' in
      (r :: rs, ns'')
  end.

(** [for node in &nodes { if let Some(leader) = node.leader().await { .. } }] *)
Fixpoint show_leader (nodes : list NodeId) ns : option NodeId :=
  match nodes with
  | [] => None
  | id :: nodes' =>
      let ns' := meanwhile (input id (InMessage (GetLeader 6)) ns) in
      match leader (received (leader_on 6) id ns') with
      | Some l => Some l
      | None => show_leader nodes' ns'
      end
  end.
End main.

Section example.
Context {prof : BuildProfile}.
#[local] Existing Instances MemStorage MemStorage_log MemStorage_durable.

Lemma example_node_ok id : id ∈ [1; 2; 3] -> node_ok (example_node id).
Proof.
  intros _. split; [by_compute|done|apply map_Forall_empty| |by_compute]. split; [done|by_compute].
Qed.

Lemma example_lookup id : id ∈ [1; 2; 3] -> example_nodes !! id = Some (example_node id).
Proof.
  intros Hid. repeat apply elem_of_cons in Hid as [->|Hid]; try done.
  by apply not_elem_of_nil in Hid.
Qed.

Lemma example_voter id q : voter_for (example_node id) (example_node q).
Proof. split; [by_compute|]. split; [done|by_compute]. Qed.

Lemma example_comparable id q : comparable (example_node id) (example_node q).
Proof.
  split; [done|by left| |].
  - intros i e e' _ He. change (lv_log (log (example_node q))) with (∅ : gmap LogIndex LogEntry) in He.
    by rewrite lookup_empty in He.
  - intros i e He. change (lv_log (log (example_node q))) with (∅ : gmap LogIndex LogEntry) in He.
    by rewrite lookup_empty in He.
Qed.

(** The example does what it prints: whichever of its three nodes' timers
    fires first, and whichever other node it reaches, when the five writes are
    proposed to it and twelve of its heartbeats reach that node, the node leads
    term 1, write [i] is answered with index [i] and handed to the application
    there. *)
Theorem example_serves id q (Hid : id ∈ [1; 2; 3]) (Hq : q ∈ [1; 2; 3]) (Hne : q <> id) :
  let ns' := Nat.iter 12 (heartbeat_round id [q])
               (propose_all id example_writes (election_round id [q] example_nodes)) in
  exists n', ns' !! id = Some n' /\ role (sm n') = Leader /\ current_term (sm n') = 1 /\
    (forall i, 1 <= i <= 5 -> ProposalReply i (Ok i) ∈ effects n' /\
       ApplyEntry (MkLogEntry 1 i (prop_data (example_write i)) Normal) ∈ effects n') /\
    reaches example_nodes ns'.
Proof.
  assert (forall p, p ∈ cfg_peers (config (example_node id)) <-> p <> id /\ p ∈ [1; 2; 3]) as Hpeers
    by (intros p; exact (list_elem_of_filter (fun p => p <> id) [1; 2; 3] p)).
  destruct (cluster_serves_run id [q] example_nodes (example_node id) example_writes 12)
    as (n' & Hn' & Hr & Ht & _ & Hj & Hre).
  - by apply example_lookup.
  - by apply example_node_ok.
  - done.
  - done.
  - apply NoDup_filter. by_compute.
  - intros p Hp. apply list_elem_of_singleton in Hp as ->. by apply Hpeers.
  - apply NoDup_singleton.
  - rewrite Hpeers. tauto.
  - clear - Hid. repeat apply elem_of_cons in Hid as [->|Hid]; try by_compute.
    by apply not_elem_of_nil in Hid.
  - done.
  - done.
  - intros p Hp. apply list_elem_of_singleton in Hp as ->. exists (example_node q).
    split; [by apply example_lookup|]. split; [apply example_voter|apply example_comparable].
  - done.
  - by_compute.
  - done.
  - exists n'. do 3 (split; [done|]). split; [|done]. intros i Hi.
    assert (example_writes !! N.to_nat (i - 1) = Some (example_write i)) as Hl.
    { assert (i = 1 \/ i = 2 \/ i = 3 \/ i = 4 \/ i = 5) as Hc by lia.
      by destruct Hc as [->|[->|[->|[->| ->]]]]. }
    destruct (Hj _ _ Hl) as (_ & Ha & Hrep & _).
    assert (lv_last (log (example_node id)) + 1 + N.of_nat (N.to_nat (i - 1)) = i) as Hi'
      by (change (lv_last (log (example_node id))) with 0; lia).
    unfold entry_of in Ha. rewrite Hi' in *. split; [by apply Hrep|exact Ha].
Qed.

(** The whole of [main]: whichever node's timer fires first, and whichever other
    it reaches, when [main] submits its five writes to the nodes in their order
    and three heartbeats of the leader reach that other node whenever it waits,
    followers refuse each write and the leader answers write [i] with index
    [i]; and [main] then finds the leader. *)
Theorem example_main id q (Hid : id ∈ [1; 2; 3]) (Hq : q ∈ [1; 2; 3]) (Hne : q <> id) :
  let meanwhile := Nat.iter 3 (heartbeat_round id [q]) in
  let '(answers, ns) := submit_all meanwhile [1; 2; 3; 4; 5] (election_round id [q] example_nodes) in
  answers = [Some (Some 1); Some (Some 2); Some (Some 3); Some (Some 4); Some (Some 5)] /\
  show_leader meanwhile [1; 2; 3] ns = Some id.
Proof.
  repeat (apply elem_of_cons in Hid as [->|Hid]; [|]); [..|by apply not_elem_of_nil in Hid];
    (repeat (apply elem_of_cons in Hq as [->|Hq]; [|]); [..|by apply not_elem_of_nil in Hq]);
    try (exfalso; apply Hne; reflexivity); clear; destruct prof; vm_compute; by split.
Qed.
End example.

Section examples.
Local Existing Instance dev_profile.
#[local] Existing Instances MemStorage MemStorage_log MemStorage_durable.

Lemma example_serves_witness :
  exists n', Nat.iter 12 (heartbeat_round 2 [3]) (propose_all 2 example_writes
      (election_round 2 [3] example_nodes)) !! 2 = Some n' /\
    ProposalReply 4 (Ok 4) ∈ effects n'.
Proof.
  destruct (example_serves 2 3 ltac:(by_compute) ltac:(by_compute) ltac:(done))
    as (n' & Hn' & _ & _ & Hi & _).
  exists n'. split; [exact Hn'|]. apply (Hi 4). lia.
Defined.

Lemma example_main_witness :
  let meanwhile := Nat.iter 3 (heartbeat_round 3 [1]) in
  show_leader meanwhile [1; 2; 3]
    (submit_all meanwhile [1; 2; 3; 4; 5] (election_round 3 [1] example_nodes)).2 = Some 3.
Proof.
  pose proof (example_main 3 1 ltac:(by_compute) ltac:(by_compute) ltac:(discriminate)) as Hm.
  cbv zeta in *. destruct (submit_all _ _ _) as [answers ns]. exact (proj2 Hm).
Defined.

(** Node 1 is registered, and node 2 asks for its vote. *)
Lemma process_refines_world_witness :
  exists p, process_steps (fun _ _ => True) example_boot p /\
    world_steps (fun _ _ => True) (world_of example_boot) (world_of p) /\
    p_inbox p = [(2, VoteResponse 1 (MkRequestVoteResponse 1 true))].
Proof.
  assert (exists p, process_steps (fun _ _ => True) example_boot p /\
    p_inbox p = [(2, VoteResponse 1 (MkRequestVoteResponse 1 true))]) as (p & Hs & Hi).
  { eexists. split; [eapply pss_step; [eapply pss_step; [eapply pss_step; [constructor|]|]|]|].
    - apply (ps_add _ _ 1 (example_node 1)). done.
    - apply (ps_own _ _ 2 (example_node 2) InElectionTimeout); done.
    - eapply (ps_task _ _ 2 _ (SpawnRequestVote 1 (vote_request (example_node 2)))).
      + done.
      + vm_compute. right; right; left.
      + done.
      + reflexivity.
    - reflexivity. }
  exists p. split; [exact Hs|]. split; [|exact Hi].
  refine (proj2 (process_refines_world _ example_boot p _ Hs)).
  intros id h Hh. change (lb_peers _) with (∅ : gmap NodeId NodeRef) in Hh.
  by rewrite lookup_empty in Hh.
Defined.
End examples.
