(* ===== verification/Lone.v ===== *)
(** * A node without peers

    The quick start of src/iceraft/src/lib.rs: a single node, run by its own
    loop ([EventLoop]) with its timers, from [RaftNode::start] to the answers of
    its proposals. What the example relies on holds, within the times of the
    configuration; that it comes after the 500 ms for which the example sleeps
    does not. *)

From Stdlib Require Import Lia Init.Byte String.
From stdpp Require Import base numbers list option gmap sets fin_maps relations strings.
From S2P Require Import Prelude.
From S2P Require Import Core.
From S2P Require Import Storage.
From S2P Require Import MemStorage.
From S2P Require Import StateMachine.
From S2P Require Import Node.
From S2P Require Import Handlers.
From S2P Require Import Votes.
From S2P Require Import NodeLog.
From S2P Require Import Election.
From S2P Require Import AppendEntries.
From S2P Require Import Progress.
From S2P Require Import Total.
From S2P Require Import EventLoop.
From S2P Require Import LogSteps.
From S2P Require Import Liveness.
From S2P Require Import Service.
From S2P Require Import Loopback.

Section lone.
Context {prof : BuildProfile} {St : Type}
  `{HS : Storage St, HL : !LogStorage St, HD : !DurableStorage St}.
Context (gen_range : GenRange).
Implicit Types (n m : RaftNodeInner St) (el : EventLoop St).

(** The loop sleeps, and wakes up at [now]. *)
Definition tick (now now2 : N) el : EventLoop St := loop_timeout gen_range now now2 (loop_top el).

(** The loop takes [ds] from its queue, one after the other. *)
Definition serve (ds : list Proposal) el : EventLoop St :=
  fold_left (fun el p => loop_message (Some (Propose p)) (loop_top el)) ds el.

(** What a lone node can be started with: a storage whose hard state fits its
    log, with room to go on. *)
Record bootable (c : RaftConfig) (st : St) : Prop := {
  bt_alone : cfg_peers c = [];
  bt_valid : validate c = Ok tt;
  bt_cap : u64 (max_append_entries c * 4096);
  bt_log : log_wf st;
  bt_term : u64 (hs_term (hard_state_of st) + 1);
  bt_base : lv_base (log_view st) <= hs_commit (hard_state_of st) <= lv_last (log_view st);
  bt_room : u64 (lv_last (log_view st) + 2);
}.

(** The node that [restore_hard_state] leaves. *)
Definition restored (c : RaftConfig) (st : St) : RaftNodeInner St :=
  (restore_hard_state (node_new c st)).2.

Lemma restored_spec c st :
  bootable c st ->
  let n := restored c st in
  node_ok n /\ config n = c /\ log n = log_view st /\ role (sm n) = Follower /\
  leader_id (sm n) = None /\ effects n = [] /\ pending n = [] /\
  current_term (sm n) = hs_term (hard_state_of st) /\
  commit_index (sm n) = hs_commit (hard_state_of st) /\
  last_applied (sm n) = hs_commit (hard_state_of st).
Proof.
  intros [_ _ Hcap Hlog _ Hb Hroom] n. unfold n, restored. rewrite restore_run. cbn [snd].
  split; [|by repeat split]. split.
  - exact Hlog.
  - unfold persisted, hard_state_now. cbn. destruct (hard_state_of st) as [t v ci]. cbn.
    by destruct (N.eqb_spec v 0) as [->|].
  - apply map_Forall_empty.
  - split; cbn; [lia|]. unfold u64 in *. lia.
  - exact Hcap.
Qed.

(** *** Booting *)

Lemma boot_run c st now :
  gen_range_documented gen_range -> bootable c st ->
  let el := loop_restore gen_range now (start c st) in
  el_node el = restored c st /\ el_phase el = Top /\
  now + election_timeout_min_ms c <= election_deadline el <= now + election_timeout_max_ms c.
Proof.
  intros Hg Hb el. destruct (restored_spec c st Hb) as (_ & Hc & _).
  assert (restore_hard_state (node_new c st) = (Done tt, restored c st)) as Hr
    by (unfold restored; by rewrite restore_run).
  specialize (Hg (election_timeout_min_ms c) (election_timeout_max_ms c)).
  pose proof (proj1 (validate_ok c) (bt_valid _ _ Hb)) as Hv.
  unfold el, loop_restore. change (el_node (start c st)) with (node_new c st).
  rewrite Hr, Hc. unfold next_election_deadline.
  destruct (gen_range _ _) as [j|]; cbn; [|lia]. split; [done|]. split; [done|lia].
Qed.

(** *** The election *)

Lemma lone_election n :
  node_ok n -> cfg_peers (config n) = [] -> u64 (current_term (sm n) + 1) ->
  exists m, start_election n = (Done tt, m) /\ leading (log n) (current_term (sm n) + 1) m /\
    config m = config n /\ sm m = sole_leader_sm (cfg_id (config n)) (sm n).
Proof.
  intros Hok Hp Hu. destruct (start_election_run n (ok_log _ Hok) Hu)
    as (m & Hr & _ & _ & Hl & Hs & _).
  rewrite bool_decide_true in Hs by done.
  destruct (handle_node_ok InElectionTimeout n Hok Hu) as (r & m' & Hh & Hok').
  pose proof (handle_keeps_config InElectionTimeout n) as Hc. rewrite Hh in Hc.
  assert (m' = m) as -> by (cbn [handle] in Hh; unfold bind, ret in Hh; rewrite Hr in Hh; congruence).
  exists m. split; [done|]. split; [|done]. by split; rewrite ?Hs.
Qed.

Lemma election_tick now now2 el :
  gen_range_documented gen_range -> validate (config (el_node el)) = Ok tt ->
  node_ok (el_node el) -> cfg_peers (config (el_node el)) = [] ->
  u64 (current_term (sm (el_node el)) + 1) -> role (sm (el_node el)) <> Leader ->
  election_deadline el <= now ->
  let el' := tick now now2 el in
  leading (log (el_node el)) (current_term (sm (el_node el)) + 1) (el_node el') /\
  config (el_node el') = config (el_node el) /\
  sm (el_node el') = sole_leader_sm (cfg_id (config (el_node el))) (sm (el_node el)) /\
  el_phase el' = Top /\ heartbeat_deadline el' = now + heartbeat_interval_ms (config (el_node el)).
Proof.
  intros Hg Hv Hok Hp Hu Hr Hd el'. unfold el', tick, loop_timeout. cbn [el_node loop_top set_phase].
  change (election_deadline (loop_top el)) with (election_deadline el).
  rewrite (proj2 (N.leb_le _ _) Hd), bool_decide_true by done. cbn [andb].
  destruct (lone_election (el_node el) Hok Hp Hu) as (m & -> & Hld & Hc & Hs).
  specialize (Hg (election_timeout_min_ms (config m)) (election_timeout_max_ms (config m))).
  rewrite <- Hc in Hv. apply validate_ok in Hv. unfold next_election_deadline.
  destruct (gen_range _ _) as [j|]; cbn; [|lia]. by rewrite Hc.
Qed.

(** *** The proposals *)

Lemma serve_run t ds el :
  el_phase el = Top -> leading (log (el_node el)) t (el_node el) ->
  u64 (lv_last (log (el_node el)) + nlen ds + 2) ->
  let el' := serve ds el in
  el_phase el' = Top /\ heartbeat_deadline el' = heartbeat_deadline el /\
  took t ds (el_node el) (el_node el') /\ rtc (loop_step gen_range) el el'.
Proof.
  revert el. induction ds as [|p ds IH]; intros el Hp Hld Hu; cbn [serve fold_left].
  { split; [done|]. split; [done|]. split; [by apply took_nil|done]. }
  rewrite nlen_cons in Hu.
  assert (u64 (lv_last (log (el_node el)) + 3)) as Hu3 by (unfold u64 in *; lia).
  pose proof (took_one t p _ Hld Hu3) as Htk.
  destruct (handle_node_ok (InMessage (Propose p)) _ (lg_ok _ _ _ Hld) Hu3) as (r & m & Hh & _).
  set (el1 := loop_message (Some (Propose p)) (loop_top el)).
  assert (el_node el1 = (handle (InMessage (Propose p)) (el_node el)).2 /\ el_phase el1 = Top /\
          heartbeat_deadline el1 = heartbeat_deadline el) as (Hn1 & Hp1 & Hd1).
  { unfold el1, loop_message, after. cbn [el_node loop_top set_phase].
    cbn [handle] in *. unfold bind, ret in *.
    destruct (dispatch (Propose p) (el_node el)) as [[]]; [done|congruence]. }
  rewrite <- Hn1 in Htk. pose proof (tk_last _ _ _ _ Htk) as Hl. rewrite nlen_cons, nlen_nil in Hl.
  destruct (IH el1 Hp1 (tk_leading _ _ _ _ Htk)) as (Hp2 & Hd2 & Htk2 & Hs2).
  { rewrite Hl. unfold u64 in *. lia. }
  fold (serve ds el1). split; [done|]. split; [congruence|]. split; [by eapply took_trans|].
  eapply rtc_l; [by apply ls_top|]. eapply rtc_l; [|exact Hs2].
  by eapply (ls_message _ (loop_top el) _ (Some (Propose p))).
Qed.

(** *** The heartbeat *)

Lemma heartbeat_tick now now2 t el :
  leading (log (el_node el)) t (el_node el) -> cfg_peers (config (el_node el)) = [] ->
  lv_base (log (el_node el)) <= last_applied (sm (el_node el)) ->
  commit_index (sm (el_node el)) <= lv_last (log (el_node el)) ->
  term_at (log (el_node el)) (lv_last (log (el_node el))) = t ->
  heartbeat_deadline el <= now ->
  let m := el_node el in
  let el' := tick now now2 el in
  el_phase el' = Top /\ leading (log m) t (el_node el') /\ later (log m) m (el_node el') /\
  commit_index (sm (el_node el')) = lv_last (log m) /\
  last_applied (sm (el_node el')) = lv_last (log m) /\
  forall i tx, (i, tx) ∈ pending (el_node el') -> lv_last (log m) < i.
Proof.
  intros Hld Hp Hb Hc Ht Hd m el'.
  destruct (heartbeat_leading _ _ _ Hld Hb Hc)
    as (m' & es & es' & Hh & Hld' & Hlt & _ & _ & _ & _ & Hq).
  assert (quorate (log (el_node el)) t (el_node el)) as Hqu.
  { split; [done|]. pose proof (quorum_alone (config (el_node el))) as Hq1.
    rewrite bool_decide_true in Hq1 by done. apply N.leb_le in Hq1. lia. }
  assert (on_heartbeat m = (Done tt, m')) as Hrun.
  { cbn [handle] in Hh. unfold bind, ret in Hh. subst m.
    destruct (on_heartbeat (el_node el)) as [[[]|] ?]; congruence. }
  unfold el', tick, loop_timeout. cbn [el_node loop_top set_phase].
  change (heartbeat_deadline (loop_top el)) with (heartbeat_deadline el).
  rewrite (bool_decide_false (_ <> Leader)) by (rewrite (lg_role _ _ _ Hld); intros []; done).
  rewrite andb_false_r, (proj2 (N.leb_le _ _) Hd), bool_decide_true by apply Hld. cbn [andb].
  fold m. rewrite Hrun. cbn. by split; [|split; [|split; [|apply Hq]]].
Qed.

Lemma tick_steps now now2 el :
  el_phase el = Top -> now <= now2 ->
  (if bool_decide (role (sm (el_node el)) = Leader)
   then heartbeat_deadline el else election_deadline el) <= now ->
  rtc (loop_step gen_range) el (tick now now2 el).
Proof.
  intros Hp Hn Hd. eapply rtc_l; [by apply ls_top|]. apply rtc_once.
  by eapply (ls_timeout _ (loop_top el)).
Qed.

(** *** All of it *)

Lemma lone_node_serves_run c st ds now t t' u u'
    (Hg : gen_range_documented gen_range) (Hst : bootable c st) (Hds : ds <> [])
    (Hlen : u64 (lv_last (log_view st) + nlen ds + 2)) :
  let el1 := loop_restore gen_range now (start c st) in
  let el2 := tick t t' el1 in
  let el3 := tick u u' (serve ds el2) in
  now + election_timeout_min_ms c <= election_deadline el1 <= now + election_timeout_max_ms c /\
  (election_deadline el1 <= t <= t' ->
   role (sm (el_node el2)) = Leader /\ leader_id (sm (el_node el2)) = Some (cfg_id c) /\
   current_term (sm (el_node el2)) = hs_term (hard_state_of st) + 1 /\
   (t + heartbeat_interval_ms c <= u <= u' ->
    rtc (loop_step gen_range) (start c st) el3 /\ el_phase el3 = Top /\
    role (sm (el_node el3)) = Leader /\
    commit_index (sm (el_node el3)) = lv_last (log_view st) + nlen ds /\
    forall j p, ds !! j = Some p ->
      let i := lv_last (log_view st) + 1 + N.of_nat j in
      let e := entry_of (hs_term (hard_state_of st) + 1) (lv_last (log_view st)) j p in
      lv_log (log (el_node el3)) !! i = Some e /\ ApplyEntry e ∈ effects (el_node el3) /\
      forall tx, prop_tx p = Some tx -> ProposalReply tx (Ok i) ∈ effects (el_node el3))).
Proof.
  intros el1 el2 el3. destruct (restored_spec c st Hst)
    as (Hok & Hc & Hl & Hr & _ & _ & _ & Ht & Hci & Hla).
  destruct (boot_run c st now Hg Hst) as (Hn1 & Hp1 & Hd1). fold el1 in Hn1, Hp1, Hd1.
  split; [exact Hd1|]. intros [Htt Htt'].
  destruct (election_tick t t' el1 Hg) as (Hld2 & Hc2 & Hs2 & Hp2 & Hh2); rewrite ?Hn1, ?Hc, ?Ht.
  { apply Hst. } { done. } { apply Hst. } { apply Hst. } { by rewrite Hr. } { done. }
  fold el2 in Hld2, Hc2, Hs2, Hp2, Hh2. rewrite Hn1, ?Hc, ?Hl, ?Ht in *.
  set (T := hs_term (hard_state_of st) + 1) in *.
  split; [apply Hld2|]. split; [by rewrite Hs2|]. split; [apply Hld2|]. intros [Huu Huu'].
  assert (log (el_node el2) = log_view st) as Hl2 by apply Hld2.
  rewrite <- Hl2 in Hld2. destruct (serve_run T ds el2 Hp2 Hld2) as (Hp3 & Hh3 & Htk & Hsteps).
  { by rewrite Hl2. }
  fold (serve ds el2) in *. set (el' := serve ds el2) in *.
  pose proof Htk as [Hld' Hs' Hc' Hb' _ Hlast' _ Hnew' _ Hw']. rewrite Hl2 in *.
  pose proof (bt_base _ _ Hst) as Hbase.
  destruct (heartbeat_tick u u' T el' Hld') as (Hp4 & Hld4 & Hlt & Hci4 & Hla4 & Hpe4).
  { rewrite Hc', Hc2. apply Hst. }
  { rewrite Hb', Hs', Hs2. cbn. rewrite Hla. lia. }
  { rewrite Hs', Hs2, Hlast'. cbn. rewrite Hci. lia. }
  { by apply (took_last_term T ds (el_node el2)). }
  { by rewrite Hh3, Hh2. }
  fold el3 in Hp4, Hld4, Hlt, Hci4, Hla4, Hpe4. rewrite Hlast' in *.
  split.
  { eapply rtc_l; [by apply (ls_restore _ _ now)|]. fold el1.
    etransitivity; [apply (tick_steps t t' el1 Hp1 Htt')|].
    { by rewrite Hn1, bool_decide_false by (by rewrite Hr). }
    etransitivity; [exact Hsteps|]. apply (tick_steps u u' el' Hp3 Huu').
    rewrite bool_decide_true by apply Hld'. by rewrite Hh3, Hh2. }
  split; [done|]. split; [apply Hld4|]. split; [done|].
  intros j p Hj i e. pose proof (Hnew' j p Hj) as He. fold i e in He.
  pose proof (lookup_lt_Some _ _ _ Hj) as Hjl. split; [by rewrite (lg_log _ _ _ Hld4)|]. split.
  - apply (lt_handed _ _ _ Hlt i); [|exact He]. rewrite Hs', Hs2, Hla4. cbn. rewrite Hla.
    unfold i, nlen. lia.
  - intros tx Htx. destruct (lt_pending _ _ _ Hlt i tx (Hw' j p tx Hj Htx)) as [Hin|]; [|done].
    specialize (Hpe4 i tx Hin). unfold i, nlen in Hpe4. lia.
Qed.

(** C26. A node without peers serves by its own loop: with a configuration that
    [validate] accepts, and started fresh or over what it stored before, it
    leads as soon as its loop wakes up at its election deadline, which is between
    the two election timeouts after it has restored its hard state; the
    proposals it takes until its loop wakes up one heartbeat interval later
    are all committed, handed to the application and answered with their
    index then. *)
Theorem lone_node_serves c st ds now t t' u u'
    (Hg : gen_range_documented gen_range) (Hst : bootable c st) (Hds : ds <> [])
    (Hlen : u64 (lv_last (log_view st) + nlen ds + 2)) :
  let el1 := loop_restore gen_range now (start c st) in
  let el2 := tick t t' el1 in
  let el3 := tick u u' (serve ds el2) in
  now + election_timeout_min_ms c <= election_deadline el1 <= now + election_timeout_max_ms c /\
  (election_deadline el1 <= t <= t' ->
   role (sm (el_node el2)) = Leader /\ leader_id (sm (el_node el2)) = Some (cfg_id c) /\
   current_term (sm (el_node el2)) = hs_term (hard_state_of st) + 1 /\
   (t + heartbeat_interval_ms c <= u <= u' ->
    rtc (loop_step gen_range) (start c st) el3 /\ el_phase el3 = Top /\
    role (sm (el_node el3)) = Leader /\
    commit_index (sm (el_node el3)) = lv_last (log_view st) + nlen ds /\
    forall j p, ds !! j = Some p ->
      let i := lv_last (log_view st) + 1 + N.of_nat j in
      let e := entry_of (hs_term (hard_state_of st) + 1) (lv_last (log_view st)) j p in
      lv_log (log (el_node el3)) !! i = Some e /\ ApplyEntry e ∈ effects (el_node el3) /\
      forall tx, prop_tx p = Some tx -> ProposalReply tx (Ok i) ∈ effects (el_node el3))).
Proof. by apply lone_node_serves_run. Qed.
End lone.

(** ** The quick start *)

Section quick_start.
Context {prof : BuildProfile}.
#[local] Existing Instances MemStorage MemStorage_log MemStorage_durable.

(** [RaftNode::start(RaftConfig { id: 1, peers: vec![], ..Default::default() }, ..)] *)
Definition quick_start : EventLoop MemStorageInner := start RaftConfig_default MemStorage_new.

(** [node.propose(b"hello world".to_vec())] on the channel [tx] *)
Definition quick_start_write (tx : Sender) : Proposal :=
  MkProposal (list_byte_of_string "hello world") (Some tx).

(** The longest timeout there is. *)
Definition longest (lo hi : N) : option N := if hi <? lo then None else Some hi.

Lemma quick_start_bootable : bootable RaftConfig_default MemStorage_new.
Proof. split; try reflexivity; by_compute. Qed.

(** C27. The quick start may fail: it sleeps for 500 ms, "briefly for election to
    complete", and unwraps the answer of its proposal. An election timeout of
    600 ms is one that [gen_range] may draw; the loop then still sleeps at 500 ms,
    the node is a follower without a leader, and the proposal is refused. *)
Theorem quick_start_may_fail now tx :
  let el := loop_top (loop_restore longest now quick_start) in
  let el' := loop_message (Some (Propose (quick_start_write tx))) el in
  gen_range_documented longest /\ rtc (loop_step longest) quick_start el' /\
  el_phase el = Selecting (now + 600) /\
  effects (el_node el') = [ProposalReply tx (Err (NotLeader None))] /\
  propose true (head (omap (reply_on tx) (effects (el_node el')))) = Err (NotLeader None).
Proof.
  intros el el'. split; [|split].
  - intros lo hi. unfold longest. destruct (N.ltb_spec hi lo); lia.
  - eapply rtc_l; [by apply (ls_restore _ _ now)|]. eapply rtc_l; [by apply ls_top|].
    apply rtc_once. by eapply (ls_message _ el _ (Some _)).
  - assert (effects (el_node el') = [ProposalReply tx (Err (NotLeader None))]) as He by done.
    split; [done|]. split; [done|]. rewrite He. cbn [omap list_omap reply_on].
    by rewrite N.eqb_refl.
Qed.
End quick_start.

Section examples.
Local Existing Instance dev_profile.
#[local] Existing Instances MemStorage MemStorage_log MemStorage_durable.

(** Woken up in time, it does what it prints: "committed at index 1". *)
Lemma lone_node_serves_witness :
  let el2 := tick ex_gen_range 300 301 (loop_restore ex_gen_range 0 quick_start) in
  let el3 := tick ex_gen_range 400 401 (serve [quick_start_write 7] el2) in
  role (sm (el_node el2)) = Leader /\ commit_index (sm (el_node el3)) = 1 /\
  ProposalReply 7 (Ok 1) ∈ effects (el_node el3).
Proof.
  destruct (lone_node_serves ex_gen_range RaftConfig_default MemStorage_new [quick_start_write 7]
              0 300 301 400 401 ex_gen_range_documented quick_start_bootable)
    as (_ & Hlead); [discriminate|by_compute|].
  destruct Hlead as (Hr & _ & _ & Hserve); [split; vm_compute; discriminate|].
  destruct Hserve as (_ & _ & _ & Hc & Hj); [split; vm_compute; discriminate|].
  split; [exact Hr|]. split; [exact Hc|].
  destruct (Hj 0%nat _ eq_refl) as (_ & _ & Hp). exact (Hp 7 eq_refl).
Defined.
End examples.
