(* ===== verification/Mailbox.v ===== *)
(** * The node's queue and its callers

    [RaftNode] talks to its event loop through an unbounded channel
    ([self.tx], src/iceraft-node/src/node.rs) and gets its answers on one-shot
    channels that travel inside the messages (src/iceraft-node/src/message.rs).
    This file adds that queue to the loop of [EventLoop], with [RaftNode]'s
    methods as sends, and follows every one-shot sender: it is in a message of
    the queue, with a pending proposal, used, or dropped, and in one of these
    places only. Then what [shutdown] does, and what it does not do: the
    proposals that wait for their entry are neither answered nor dropped. *)

From Stdlib Require Import Lia Init.Byte.
From stdpp Require Import base numbers list option gmap sets fin_maps strings.
From S2P Require Import Prelude.
From S2P Require Import Core.
From S2P Require Import Proto.
From S2P Require Import Storage.
From S2P Require Import MemStorage.
From S2P Require Import StateMachine.
From S2P Require Import Node.
From S2P Require Import Handlers.
From S2P Require Import Commit.
From S2P Require Import EventLoop.

(** ** One-shot senders *)

(** The sender a message carries. *)
Definition sender_of (msg : RaftMessage) : option Sender :=
  match msg with
  | Propose p => prop_tx p
  | ReadIndex tx | GetLeader tx | GetTerm tx => Some tx
  | _ => None
  end.

(** The sender an effect has used. *)
Definition reply_to (e : Effect) : option Sender :=
  match e with
  | ProposalReply tx _ | LeaderReply tx _ | TermReply tx _ | ReadIndexReply tx _ => Some tx
  | _ => None
  end.

(** The senders used so far, and all that the node has got. *)
Definition used {St} (n : RaftNodeInner St) : list Sender := omap reply_to (effects n).
Definition holders {St} (n : RaftNodeInner St) : list Sender := (pending n).*2 ++ used n.

(** What most methods leave alone. *)
Definition calls {St} (n : RaftNodeInner St) : list (LogIndex * Sender) * list Effect :=
  (pending n, filter (fun e => is_Some (reply_to e)) (effects n)).

Lemma calls_used {St} (n n' : RaftNodeInner St) : calls n' = calls n -> used n' = used n.
Proof.
  assert (forall es : list Effect, omap reply_to es =
    omap reply_to (filter (fun e => is_Some (reply_to e)) es)) as Hf.
  { induction es as [|e es IH]; [done|]. rewrite filter_cons.
    destruct (decide (is_Some (reply_to e))) as [Hs|Hs]; cbn; [by rewrite IH|].
    apply eq_None_not_Some in Hs. by rewrite Hs. }
  unfold calls, used. intros [= _ He]. by rewrite Hf, He, <- Hf.
Qed.

Lemma calls_pending {St} (n n' : RaftNodeInner St) : calls n' = calls n -> pending n' = pending n.
Proof. unfold calls. by intros [= -> _]. Qed.

Lemma calls_holders {St} (n n' : RaftNodeInner St) : calls n' = calls n -> holders n' = holders n.
Proof. intros Hc. unfold holders. by rewrite (calls_used _ _ Hc), (calls_pending _ _ Hc). Qed.

Lemma calls_emit {St} e (n : RaftNodeInner St) :
  reply_to e = None -> calls (set_effects (effects n ++ [e]) n) = calls n.
Proof.
  intros He. unfold calls. cbn. rewrite filter_app, filter_cons_False, filter_nil, app_nil_r; [done|].
  rewrite He. by intros [? ?].
Qed.

(** [node_keeps] for [calls]. *)
Ltac calls_keeps :=
  intros;
  unfold emit, upd_sm, get_sm, last_index_or_0, term_or_0, set_peer_progress, record_match;
  repeat first
    [ progress intros
    | solve [eauto with keeps]
    | apply keeps_bind
    | apply keeps_try_bind
    | apply keeps_when
    | apply keeps_for_each
    | apply keeps_modify; intros; first [by apply calls_emit | done]
    | case_match ].

Section holders.
Context {prof : BuildProfile} {St : Type} `{Storage St}.
Implicit Types n : RaftNodeInner St.
Local Abbreviation Node := (M (RaftNodeInner St)).

Lemma on_storage_keeps_calls {A} (m : M St A) : keeps calls (on_storage m).
Proof. by apply keeps_zoom. Qed.
Lemma on_sm_keeps_calls {A} (m : M RaftStateMachine A) : keeps calls (on_sm (St := St) m).
Proof. by apply keeps_zoom. Qed.
Hint Resolve on_storage_keeps_calls on_sm_keeps_calls : keeps.
Lemma save_keeps_calls : keeps calls save_hard_state.
Proof. unfold save_hard_state. calls_keeps. Qed.
Lemma search_keeps_calls fuel t lo hi : keeps calls (search_term fuel t lo hi).
Proof. revert lo hi. induction fuel; intros; cbn [search_term]; calls_keeps. Qed.
Lemma scan_keeps_calls fuel q t i : keeps calls (scan_commit fuel q t i).
Proof. revert i. induction fuel; intros; cbn [scan_commit]; calls_keeps. Qed.
Hint Resolve save_keeps_calls search_keeps_calls scan_keeps_calls : keeps.
Lemma step_down_keeps_calls t l : keeps calls (step_down t l).
Proof. unfold step_down. calls_keeps. Qed.
Lemma check_prev_keeps_calls req : keeps calls (check_prev req).
Proof. unfold check_prev, first_index_of_term. calls_keeps. Qed.
Lemma replicate_to_keeps_calls p : keeps calls (replicate_to p).
Proof. unfold replicate_to, send_snapshot_to. calls_keeps. Qed.
Hint Resolve step_down_keeps_calls check_prev_keeps_calls replicate_to_keeps_calls : keeps.
Lemma replicate_all_keeps_calls : keeps calls replicate_all.
Proof. unfold replicate_all. calls_keeps. Qed.
Hint Resolve replicate_all_keeps_calls : keeps.
Lemma win_keeps_calls : keeps calls win_election.
Proof. unfold win_election. calls_keeps. Qed.
Hint Resolve win_keeps_calls : keeps.
Lemma start_election_keeps_calls : keeps calls start_election.
Proof. unfold start_election. calls_keeps. Qed.
Lemma vote_response_keeps_calls peer r : keeps calls (handle_vote_response peer r).
Proof. unfold handle_vote_response. calls_keeps. Qed.
Lemma apply_keeps_calls : keeps calls apply_committed.
Proof. unfold apply_committed. calls_keeps. Qed.
Lemma restore_keeps_calls : keeps calls restore_hard_state.
Proof. unfold restore_hard_state. calls_keeps. Qed.

(** An RPC touches no sender. *)
Lemma rpc_keeps_calls i : is_rpc i = true -> keeps calls (handle i).
Proof.
  destruct i as [req|req|req| | | |]; try done; intros _; cbn [handle];
    unfold on_append_entries, on_request_vote, on_install_snapshot; calls_keeps.
Qed.

(** *** Conservation

    [conserves ins m]: [m], given the senders [ins], leaves them and the node's
    with the node; if it panics, some may be dropped. *)
Definition conserves {A} (ins : list Sender) (m : Node A) : Prop :=
  forall n, match m n with
            | (Done _, n') => holders n' ≡ₚ ins ++ holders n
            | (Panicked, n') => holders n' ⊆+ ins ++ holders n
            end.

Lemma conserves_keeps {A} (m : Node A) : keeps calls m -> conserves [] m.
Proof.
  intros Hk n. specialize (Hk n). apply calls_holders in Hk.
  destruct (m n) as [[a|] n']; cbn in *; by rewrite Hk.
Qed.

Lemma conserves_after {A C} ins (m : Node A) (k : A -> Node C) :
  keeps calls m -> (forall a, conserves ins (k a)) -> conserves ins (bind m k).
Proof.
  intros Hm Hk n. specialize (Hm n). apply calls_holders in Hm. unfold bind.
  destruct (m n) as [[a|] n1]; cbn in Hm; rewrite <- Hm; [apply Hk|].
  by apply submseteq_inserts_l.
Qed.

Lemma conserves_before {A C} ins (m : Node A) (k : A -> Node C) :
  conserves ins m -> (forall a, keeps calls (k a)) -> conserves ins (bind m k).
Proof.
  intros Hm Hk n. specialize (Hm n). unfold bind. destruct (m n) as [[a|] n1]; [|done].
  specialize (Hk a n1). apply calls_holders in Hk.
  destruct (k a n1) as [[c|] n2]; cbn in Hk; rewrite Hk; by rewrite Hm.
Qed.

(** Past what touches no sender. *)
Ltac skip := apply conserves_after; [calls_keeps|intros ?].

Lemma conserves_emit tx e : reply_to e = Some tx -> conserves [tx] (emit e : Node unit).
Proof.
  intros He n. unfold holders, used. cbn. rewrite omap_app. cbn. rewrite He.
  rewrite app_assoc. by rewrite Permutation_app_comm.
Qed.

Lemma conserves_reply tx r : conserves (option_list tx) (reply tx r : Node unit).
Proof. destruct tx; [by apply conserves_emit|by apply conserves_keeps, keeps_ret]. Qed.

Lemma partition_pending c (ps : list (LogIndex * Sender)) :
  (waiting c ps).*2 ++ omap reply_to (answered c ps) ≡ₚ ps.*2.
Proof.
  assert (omap reply_to (answered c ps) = (filter (fun p => p.1 <= c) ps).*2) as ->.
  { unfold answered. induction (filter _ ps) as [|p l IH]; [done|]. cbn. by f_equal. }
  unfold waiting. rewrite <- fmap_app, (Permutation_app_comm (filter _ _)).
  by rewrite filter_app_complement.
Qed.

Lemma maybe_advance_conserves : conserves [] (maybe_advance_commit (St := St)).
Proof.
  unfold maybe_advance_commit. skip. case_match; [by apply conserves_keeps, keeps_ret|].
  do 7 skip. intros n. unfold bind, gets, modify. rewrite notify_pending_run. unfold holders, used. cbn.
  rewrite omap_app, (Permutation_app_comm (omap reply_to (effects n))), app_assoc.
  by rewrite partition_pending.
Qed.

Lemma on_proposal_conserves p : conserves (option_list (prop_tx p)) (on_proposal (St := St) p).
Proof.
  unfold on_proposal. skip. case_match.
  { skip. apply conserves_reply. }
  do 3 skip. apply conserves_after; [calls_keeps|intros [_|e]]; [|apply conserves_reply].
  apply conserves_before; [|intros _; calls_keeps].
  destruct (prop_tx p) as [tx|]; [|by apply conserves_keeps, keeps_ret].
  intros n. unfold holders, used. cbn. rewrite fmap_app. cbn.
  by rewrite (Permutation_app_comm _ [tx]), <- app_assoc.
Qed.

Lemma append_response_conserves peer li r :
  conserves [] (handle_append_response (St := St) peer li r).
Proof.
  unfold handle_append_response. skip. case_match; [by apply conserves_keeps; calls_keeps|].
  skip. case_match; [by apply conserves_keeps, keeps_ret|]. do 2 skip. apply maybe_advance_conserves.
Qed.

Lemma snapshot_response_conserves peer li r :
  conserves [] (handle_snapshot_response (St := St) peer li r).
Proof.
  unfold handle_snapshot_response. skip. case_match; [by apply conserves_keeps; calls_keeps|].
  skip. case_match; [by apply conserves_keeps, keeps_ret|]. do 2 skip. apply maybe_advance_conserves.
Qed.

(** Every message of the loop. *)
Lemma dispatch_conserves msg : conserves (option_list (sender_of msg)) (dispatch (St := St) msg).
Proof.
  destruct msg as [p|tx|target|tx|tx|i| |peer li r|peer r|peer li r]; cbn [dispatch sender_of option_list];
    try (by apply conserves_keeps, keeps_ret).
  - apply on_proposal_conserves.
  - skip. by apply conserves_emit.
  - skip. by apply conserves_emit.
  - skip. by apply conserves_emit.
  - apply append_response_conserves.
  - apply conserves_keeps, vote_response_keeps_calls.
  - apply snapshot_response_conserves.
Qed.

Lemma heartbeat_conserves : conserves [] (on_heartbeat (St := St)).
Proof.
  unfold on_heartbeat. skip.
  apply conserves_before; [apply maybe_advance_conserves|intros _; apply apply_keeps_calls].
Qed.
End holders.

#[export] Hint Resolve on_storage_keeps_calls on_sm_keeps_calls save_keeps_calls
  search_keeps_calls scan_keeps_calls step_down_keeps_calls check_prev_keeps_calls
  replicate_to_keeps_calls replicate_all_keeps_calls win_keeps_calls start_election_keeps_calls
  vote_response_keeps_calls apply_keeps_calls restore_keeps_calls : keeps.

(** ** The queue *)

(** [RaftNode]: the loop, the messages on their way to it, and the senders that
    were dropped unused. *)
Record Mailbox (St : Type) : Type := MkMailbox {
  mb_loop : EventLoop St;
  mb_queue : list RaftMessage;
  mb_dropped : list Sender;
}.
Arguments MkMailbox {St}.
Arguments mb_loop {St} _.
Arguments mb_queue {St} _.
Arguments mb_dropped {St} _.

Section mailbox.
Context {prof : BuildProfile} {St : Type} `{Storage St}.
Implicit Types (n : RaftNodeInner St) (el : EventLoop St) (mb : Mailbox St).

Local Abbreviation node mb := (el_node (mb_loop mb)).
Local Abbreviation phase mb := (el_phase (mb_loop mb)).

(** Whether the receiver of the queue is there: [run_event_loop] owns it, and
    drops it when it returns or panics. *)
Definition receiving el : bool :=
  match el_phase el with Stopped | Crashed => false | _ => true end.

(** [self.tx.send(msg)], and whether it succeeded: a message that cannot be sent
    is dropped, with the sender it carries. *)
Definition send (msg : RaftMessage) mb : bool * Mailbox St :=
  if receiving (mb_loop mb)
  then (true, MkMailbox (mb_loop mb) (mb_queue mb ++ [msg]) (mb_dropped mb))
  else (false, MkMailbox (mb_loop mb) (mb_queue mb)
                 (mb_dropped mb ++ option_list (sender_of msg))).

(** [RaftNode::start] *)
Definition open_node (c : RaftConfig) (st : St) : Mailbox St := MkMailbox (start c st) [] [].

(** [RaftNode::shutdown] *)
Definition shutdown mb : Mailbox St := (send ShutdownMsg mb).2.

(** The loop has come to [el], with [q] left in its queue. *)
Definition proceed el (q : list RaftMessage) mb : Mailbox St :=
  if receiving el then MkMailbox el q (mb_dropped mb)
  else MkMailbox el [] (mb_dropped mb ++ omap sender_of q).

(** A step, and the senders handed in by it: a caller or a task sends, an RPC
    runs, or the loop goes on. *)
Inductive mailbox_step (gen_range : GenRange) : list Sender -> Mailbox St -> Mailbox St -> Prop :=
| mbs_send msg mb :
    mailbox_step gen_range (option_list (sender_of msg)) mb (send msg mb).2
| mbs_rpc i mb :
    is_rpc i = true ->
    mailbox_step gen_range [] mb (MkMailbox (loop_rpc i (mb_loop mb)) (mb_queue mb) (mb_dropped mb))
| mbs_restore mb now :
    phase mb = Restoring ->
    mailbox_step gen_range [] mb (proceed (loop_restore gen_range now (mb_loop mb)) (mb_queue mb) mb)
| mbs_top mb :
    phase mb = Top ->
    mailbox_step gen_range [] mb (proceed (loop_top (mb_loop mb)) (mb_queue mb) mb)
| mbs_message mb d msg q :
    phase mb = Selecting d -> mb_queue mb = msg :: q ->
    mailbox_step gen_range [] mb (proceed (loop_message (Some msg) (mb_loop mb)) q mb)
| mbs_timeout mb d now now2 :
    phase mb = Selecting d -> d <= now -> now <= now2 ->
    mailbox_step gen_range [] mb
      (proceed (loop_timeout gen_range now now2 (mb_loop mb)) (mb_queue mb) mb).

Inductive mailbox_steps (gen_range : GenRange) : list Sender -> Mailbox St -> Mailbox St -> Prop :=
| mbss_refl mb : mailbox_steps gen_range [] mb mb
| mbss_step sent sent' mb1 mb2 mb3 :
    mailbox_steps gen_range sent mb1 mb2 -> mailbox_step gen_range sent' mb2 mb3 ->
    mailbox_steps gen_range (sent ++ sent') mb1 mb3.

(** Where senders are. *)
Definition located mb : list Sender :=
  omap sender_of (mb_queue mb) ++ holders (node mb) ++ mb_dropped mb.

(** *** Every sender is in one place *)

(** The loop went from [el] to [el'], given [ins]. *)
Definition passes (ins : list Sender) el el' : Prop :=
  holders (el_node el') ⊆+ ins ++ holders (el_node el) /\
  (el_phase el' <> Crashed -> holders (el_node el') ≡ₚ ins ++ holders (el_node el)).

Lemma passes_same el el' :
  holders (el_node el') = holders (el_node el) -> passes [] el el'.
Proof. intros Hh. by split; rewrite Hh. Qed.

Lemma passes_run {A} ins (m : M (RaftNodeInner St) A) el el' :
  conserves ins m -> el_node el' = (m (el_node el)).2 ->
  ((m (el_node el)).1 = Panicked -> el_phase el' = Crashed) -> passes ins el el'.
Proof.
  intros Hm Hn Hp. specialize (Hm (el_node el)).
  destruct (m (el_node el)) as [[a|] n']; cbn in *; rewrite <- Hn in Hm.
  - split; [by rewrite Hm|done].
  - split; [done|]. by rewrite Hp.
Qed.

Lemma restore_passes gen_range now el : passes [] el (loop_restore gen_range now el).
Proof.
  apply passes_same, calls_holders. pose proof (restore_keeps_calls (el_node el)) as Hk.
  unfold loop_restore. destruct (restore_hard_state _) as [[[]|] n]; by repeat case_match.
Qed.

Lemma timeout_passes gen_range now now2 el : passes [] el (loop_timeout gen_range now now2 el).
Proof.
  unfold loop_timeout. case_match; [|case_match; [|by apply passes_same]].
  - apply passes_same, calls_holders. pose proof (start_election_keeps_calls (el_node el)) as Hk.
    destruct (start_election _) as [[[]|] n]; by repeat case_match.
  - apply (passes_run [] on_heartbeat); [apply heartbeat_conserves|..];
      by destruct (on_heartbeat _) as [[[]|] n].
Qed.

Lemma message_passes msg el : passes (option_list (sender_of msg)) el (loop_message (Some msg) el).
Proof.
  assert (msg = ShutdownMsg \/ loop_message (Some msg) el = after (dispatch msg (el_node el)) el)
    as [->| ->] by (destruct msg; auto); [by apply passes_same|].
  apply (passes_run _ (dispatch msg)); [apply dispatch_conserves|done|].
  unfold after. cbn. by intros ->.
Qed.

(** Sent is what is located, up to what a panic of the loop has dropped. *)
Definition accounted (sent : list Sender) mb : Prop :=
  located mb ⊆+ sent /\ (phase mb <> Crashed -> located mb ≡ₚ sent).

Lemma proceed_accounted sent ins el' q mb :
  accounted sent mb -> phase mb <> Crashed ->
  omap sender_of (mb_queue mb) = ins ++ omap sender_of q ->
  passes ins (mb_loop mb) el' -> accounted sent (proceed el' q mb).
Proof.
  intros [_ Hloc] Hp Hq [Hsub Hperm]. specialize (Hloc Hp). unfold located in Hloc. rewrite Hq in Hloc.
  assert (phase (proceed el' q mb) = el_phase el') as Hph by (unfold proceed; by case_match).
  assert (located (proceed el' q mb) ≡ₚ
          omap sender_of q ++ holders (el_node el') ++ mb_dropped mb) as Hl.
  { unfold proceed, located. case_match; cbn; [done|].
    rewrite (Permutation_app_comm (mb_dropped mb)), !app_assoc. f_equiv. apply Permutation_app_comm. }
  assert ((ins ++ holders (node mb)) ++ omap sender_of q ++ mb_dropped mb ≡ₚ sent) as Hs.
  { rewrite <- Hloc. rewrite <- !app_assoc. f_equiv. rewrite !app_assoc. f_equiv.
    apply Permutation_app_comm. }
  assert (omap sender_of q ++ holders (el_node el') ++ mb_dropped mb ≡ₚ
          holders (el_node el') ++ omap sender_of q ++ mb_dropped mb) as Hc.
  { rewrite !app_assoc. f_equiv. apply Permutation_app_comm. }
  unfold accounted. rewrite Hph, Hl, Hc, <- Hs. split; [by apply submseteq_app|].
  intros Hx. by rewrite (Hperm Hx).
Qed.

Lemma mailbox_step_accounted gen_range sent ins mb mb' :
  mailbox_step gen_range ins mb mb' -> accounted sent mb -> accounted (sent ++ ins) mb'.
Proof.
  intros Hs Ha. destruct Hs as [msg mb|i mb Hi|mb now Hp|mb Hp|mb d msg q Hp Hq|mb d now now2 Hp _ _];
    rewrite ?app_nil_r.
  - assert (located (send msg mb).2 ≡ₚ located mb ++ option_list (sender_of msg)) as Hl.
    { unfold send, located. case_match; cbn; [|by rewrite !app_assoc].
      rewrite omap_app. cbn. replace (match sender_of msg with Some b => [b] | None => [] end)
        with (option_list (sender_of msg)) by (by destruct (sender_of msg)).
      rewrite <- !app_assoc. f_equiv. by rewrite Permutation_app_comm, <- app_assoc. }
    assert (phase (send msg mb).2 = phase mb) as Hph by (unfold send; by case_match).
    destruct Ha as [Hsub Hperm]. unfold accounted. rewrite Hph, Hl.
    split; [by apply submseteq_app|]. intros Hx. by rewrite Hperm.
  - assert (located (MkMailbox (loop_rpc i (mb_loop mb)) (mb_queue mb) (mb_dropped mb)) = located mb) as Hl.
    { unfold located. cbn. by rewrite (calls_holders _ _ (rpc_keeps_calls i Hi (node mb))). }
    unfold accounted. by rewrite Hl.
  - eapply (proceed_accounted sent []); [done|by rewrite Hp|done|apply restore_passes].
  - eapply (proceed_accounted sent []); [done|by rewrite Hp|done|by apply passes_same].
  - eapply (proceed_accounted sent); [done|by rewrite Hp| |apply message_passes].
    rewrite Hq. cbn. by destruct (sender_of msg).
  - eapply (proceed_accounted sent []); [done|by rewrite Hp|done|apply timeout_passes].
Qed.

Lemma mailbox_accounted gen_range sent c st mb :
  mailbox_steps gen_range sent (open_node c st) mb -> accounted sent mb.
Proof.
  intros Hs. remember (open_node c st) as mb0 eqn:H0.
  induction Hs as [mb|sent sent' mb1 mb2 mb3 _ IH Hs]; subst.
  - by split.
  - eapply mailbox_step_accounted; [done|by apply IH].
Qed.

(** C29. Every caller is accounted for: from [RaftNode::start], whatever is sent,
    whatever RPCs arrive and timers fire, every one-shot sender handed in is in
    exactly one place: in a message of the queue, with a pending proposal, used
    for an answer, or dropped, which its caller sees as [ChannelClosed]. None is
    lost, and none is used twice: with distinct channels no call is answered
    twice, or answered and dropped. If the loop has panicked, what was in its
    hands may be dropped too. *)
Theorem every_call_accounted gen_range sent c st mb
    (Hs : mailbox_steps gen_range sent (open_node c st) mb) :
  located mb ⊆+ sent /\ (phase mb <> Crashed -> located mb ≡ₚ sent) /\
  (NoDup sent -> NoDup (located mb)).
Proof.
  destruct (mailbox_accounted gen_range sent c st mb Hs) as [Hsub Hperm].
  split; [done|]. split; [done|]. intros Hnd.
  apply submseteq_Permutation in Hsub as [k Hk]. rewrite Hk in Hnd. by apply NoDup_app in Hnd as [? _].
Qed.

(** *** After the shutdown *)

Lemma stopped_step gen_range ins mb mb' :
  mailbox_step gen_range ins mb mb' -> phase mb = Stopped ->
  phase mb' = Stopped /\ calls (node mb') = calls (node mb) /\
  handed_over (node mb') = handed_over (node mb) /\ mb_dropped mb' = mb_dropped mb ++ ins.
Proof.
  intros Hs Hp. destruct Hs as [msg mb|i mb Hi|mb now Hx|mb Hx|mb d msg q Hx _|mb d now now2 Hx _ _];
    try congruence.
  - unfold send, receiving. by rewrite Hp.
  - cbn. rewrite app_nil_r. split; [done|]. split; [by apply rpc_keeps_calls|]. split; [|done].
    apply handle_keeps_handed. by destruct i.
Qed.

Lemma stopped_steps gen_range sent mb mb' :
  mailbox_steps gen_range sent mb mb' -> phase mb = Stopped ->
  phase mb' = Stopped /\ calls (node mb') = calls (node mb) /\
  handed_over (node mb') = handed_over (node mb) /\ mb_dropped mb' = mb_dropped mb ++ sent.
Proof.
  induction 1 as [mb|sent sent' mb1 mb2 mb3 _ IH Hs]; intros Hp; [by rewrite app_nil_r|].
  destruct (IH Hp) as (Hp2 & Hc2 & Hh2 & Hd2).
  destruct (stopped_step _ _ _ _ Hs Hp2) as (Hp3 & Hc3 & Hh3 & Hd3).
  split; [done|]. split; [congruence|]. split; [congruence|]. by rewrite Hd3, Hd2, app_assoc.
Qed.

(** The loop takes what is in its queue, as far as it gets with [fuel] moves. *)
Fixpoint drain (fuel : nat) mb : Mailbox St :=
  match fuel with
  | O => mb
  | S fuel =>
      match phase mb, mb_queue mb with
      | Top, q => drain fuel (proceed (loop_top (mb_loop mb)) q mb)
      | Selecting _, msg :: q => drain fuel (proceed (loop_message (Some msg) (mb_loop mb)) q mb)
      | _, _ => mb
      end
  end.

Lemma mailbox_steps_trans gen_range s1 s2 mb1 mb2 mb3 :
  mailbox_steps gen_range s1 mb1 mb2 -> mailbox_steps gen_range s2 mb2 mb3 ->
  mailbox_steps gen_range (s1 ++ s2) mb1 mb3.
Proof.
  intros H12 H23. induction H23 as [mb|s s' mb2 mb mb3 _ IH Hs]; [by rewrite app_nil_r|].
  rewrite app_assoc. eapply mbss_step; [by apply IH|done].
Qed.

Lemma mailbox_steps_one gen_range s mb mb' :
  mailbox_step gen_range s mb mb' -> mailbox_steps gen_range s mb mb'.
Proof. apply (mbss_step gen_range [] s). constructor. Qed.

Lemma drain_steps gen_range fuel mb : mailbox_steps gen_range [] mb (drain fuel mb).
Proof.
  revert mb. induction fuel as [|fuel IH]; intros mb; cbn [drain]; [constructor|].
  destruct (phase mb) eqn:Hp; try constructor.
  - eapply (mailbox_steps_trans _ [] []); [|apply IH]. by apply mailbox_steps_one, mbs_top.
  - destruct (mb_queue mb) as [|msg q] eqn:Hq; [constructor|].
    eapply (mailbox_steps_trans _ [] []); [|apply IH].
    by eapply mailbox_steps_one, mbs_message.
Qed.

(** The node after [ms], in order. *)
Definition after_messages (ms : list RaftMessage) n : RaftNodeInner St :=
  fold_left (fun n msg => (dispatch msg n).2) ms n.

Lemma drain_stop fuel ms rest mb d :
  phase mb = Selecting d -> mb_queue mb = ms ++ ShutdownMsg :: rest -> ~ ShutdownMsg ∈ ms ->
  (2 * length ms < fuel)%nat ->
  let mb' := drain fuel mb in
  phase mb' = Crashed \/
  (phase mb' = Stopped /\ node mb' = after_messages ms (node mb) /\
   mb_dropped mb' = mb_dropped mb ++ omap sender_of rest).
Proof.
  assert (forall f mb, receiving (mb_loop mb) = false -> drain f mb = mb) as Hend.
  { intros f m Hm. unfold receiving in Hm. destruct f; [done|]. cbn. by destruct (phase m). }
  revert fuel mb d. induction ms as [|msg ms IH]; intros fuel mb d Hp Hq Hns Hf;
    (destruct fuel as [|fuel]; [cbn in Hf; lia|]); cbn [drain]; rewrite Hp, Hq; cbn [app].
  { rewrite Hend by done. right. by cbn. }
  assert (loop_message (Some msg) (mb_loop mb) = after (dispatch msg (node mb)) (mb_loop mb)) as ->
    by (destruct msg; try done; exfalso; apply Hns; by left).
  unfold after. destruct (dispatch msg (node mb)) as [[[]|] n'] eqn:Hd; cbn [fst snd].
  2:{ left. by rewrite Hend. }
  destruct fuel as [|fuel]; [cbn in Hf; lia|]. cbn [drain proceed receiving set_phase el_phase mb_loop].
  match goal with |- context [drain fuel ?m] => set (mb1 := m) end.
  edestruct (IH fuel mb1) as [Hc|(Hs & Hn & Hdr)]; [reflexivity|reflexivity| | |by left|right].
  - intros Hin. apply Hns. by right.
  - cbn in Hf. lia.
  - split; [exact Hs|]. split; [|exact Hdr]. rewrite Hn. cbn. by rewrite Hd.
Qed.

(** C30. [shutdown] stops the loop: once its message is in the queue, the loop, by
    its own moves, comes to it after two of them for each message before it; it
    has taken those messages in the order they were sent, and drops the senders
    of the ones behind (a panic on the way ends it as well). After that,
    whatever is called or arrives, it stays stopped, every call is dropped, no
    waiting proposal moves and nothing more is answered or applied. *)
Theorem shutdown_stops gen_range ms rest mb d
    (Hp : phase mb = Selecting d) (Hq : mb_queue mb = ms ++ ShutdownMsg :: rest)
    (Hns : ~ ShutdownMsg ∈ ms) :
  let mb' := drain (2 * length ms + 1) mb in
  mailbox_steps gen_range [] mb mb' /\
  (phase mb' = Crashed \/
   (phase mb' = Stopped /\ node mb' = after_messages ms (node mb) /\
    mb_dropped mb' = mb_dropped mb ++ omap sender_of rest)) /\
  forall sent mb'', phase mb' = Stopped -> mailbox_steps gen_range sent mb' mb'' ->
    phase mb'' = Stopped /\ mb_dropped mb'' = mb_dropped mb' ++ sent /\
    calls (node mb'') = calls (node mb') /\ handed_over (node mb'') = handed_over (node mb').
Proof.
  intros mb'. split; [apply drain_steps|]. split; [eapply drain_stop; eauto; lia|].
  intros sent mb'' Hst Hs. destruct (stopped_steps _ _ _ _ Hs Hst) as (? & ? & ? & ?). done.
Qed.

(** The end of the example's main (examples/three_node_cluster.rs): every node is
    shut down. *)
Definition shutdown_all (mbs : list (Mailbox St)) : list (Mailbox St) := map shutdown mbs.

(** Nodes whose loop waits for a message all stop, and nothing of theirs has
    changed. *)
Lemma shutdown_all_stops mbs :
  Forall (fun mb => (exists d, phase mb = Selecting d) /\ mb_queue mb = []) mbs ->
  Forall2 (fun mb mb' => phase (drain 1 mb') = Stopped /\ node (drain 1 mb') = node mb /\
             mb_dropped (drain 1 mb') = mb_dropped mb) mbs (shutdown_all mbs).
Proof.
  induction 1 as [|mb mbs [[d Hp] Hq] _ IH]; constructor; [|done].
  unfold shutdown, send. unfold receiving at 1 2 3. rewrite Hp, Hq. cbn. by rewrite Hp, app_nil_r.
Qed.
End mailbox.

(** ** A proposal at the shutdown *)

Section examples.
Local Existing Instance dev_profile.
#[local] Existing Instances MemStorage.

(** The quick start's node, its loop woken up at its election deadline: it
    leads; then a proposal on channel 7 and a shutdown are sent. *)
Definition ex_open : Mailbox MemStorageInner := open_node RaftConfig_default MemStorage_new.
Definition ex_booted : Mailbox MemStorageInner :=
  proceed (loop_restore ex_gen_range 0 (mb_loop ex_open)) (mb_queue ex_open) ex_open.
Definition ex_asleep : Mailbox MemStorageInner :=
  proceed (loop_top (mb_loop ex_booted)) (mb_queue ex_booted) ex_booted.
Definition ex_leads : Mailbox MemStorageInner :=
  proceed (loop_timeout ex_gen_range 300 301 (mb_loop ex_asleep)) (mb_queue ex_asleep) ex_asleep.

Definition ex_write : RaftMessage := Propose (MkProposal [x61] (Some 7)).
Definition ex_proposed : Mailbox MemStorageInner := (send ex_write ex_leads).2.
Definition ex_shut : Mailbox MemStorageInner := shutdown ex_proposed.

Lemma ex_shut_steps :
  mailbox_steps ex_gen_range [7] ex_open ex_shut.
Proof.
  apply (mbss_step _ [7] []) with ex_proposed; [|exact (mbs_send _ ShutdownMsg ex_proposed)].
  apply (mbss_step _ [] [7]) with ex_leads; [|exact (mbs_send _ ex_write ex_leads)].
  apply (mbss_step _ [] []) with ex_asleep;
    [|apply (mbs_timeout ex_gen_range ex_asleep 300); [reflexivity|by_compute|by_compute]].
  apply (mbss_step _ [] []) with ex_booted; [|by apply (mbs_top ex_gen_range ex_booted)].
  apply (mbss_step _ [] []) with ex_open; [constructor|].
  by apply (mbs_restore ex_gen_range ex_open).
Qed.

(** C31. A shutdown strands the proposals that wait: a leader takes a proposal, is
    then shut down "gracefully", and its loop stops before the entry is
    committed. From then on, whatever happens to the node, the proposal's sender
    stays with it, neither used nor dropped: its caller waits for as long as
    the node exists, while every later call is dropped, which is answered with
    [ChannelClosed]. *)
Theorem shutdown_strands_proposal :
  exists mb, mailbox_steps ex_gen_range [7] (open_node RaftConfig_default MemStorage_new) mb /\
    forall sent mb', mailbox_steps ex_gen_range sent mb mb' ->
      el_phase (mb_loop mb') = Stopped /\ pending (el_node (mb_loop mb')) = [(1, 7)] /\
      used (el_node (mb_loop mb')) = [] /\ mb_dropped mb' = sent.
Proof.
  exists (drain 4 ex_shut). split.
  { apply (mailbox_steps_trans _ [7] []) with ex_shut; [apply ex_shut_steps|apply drain_steps]. }
  intros sent mb' Hs.
  assert (el_phase (mb_loop (drain 4 ex_shut)) = Stopped) as Hst by (vm_compute; reflexivity).
  assert (pending (el_node (mb_loop (drain 4 ex_shut))) = [(1, 7)]) as Hpe by (vm_compute; reflexivity).
  assert (used (el_node (mb_loop (drain 4 ex_shut))) = []) as Hu by (vm_compute; reflexivity).
  assert (mb_dropped (drain 4 ex_shut) = []) as Hdr by (vm_compute; reflexivity).
  destruct (stopped_steps _ _ _ _ Hs Hst) as (Hp & Hc & _ & Hd).
  rewrite (calls_pending _ _ Hc), (calls_used _ _ Hc), Hpe, Hu, Hd, Hdr.
  exact (conj Hp (conj eq_refl (conj eq_refl eq_refl))).
Qed.

Lemma every_call_accounted_witness :
  located (drain 4 ex_shut) ≡ₚ [7] /\ NoDup (located (drain 4 ex_shut)).
Proof.
  destruct (every_call_accounted ex_gen_range [7] RaftConfig_default MemStorage_new (drain 4 ex_shut))
    as (_ & Hp & Hn).
  - apply (mailbox_steps_trans _ [7] []) with ex_shut; [apply ex_shut_steps|apply drain_steps].
  - split; [apply Hp; vm_compute; discriminate|apply Hn, NoDup_singleton].
Defined.

(** Behind the shutdown, another call. *)
Lemma shutdown_stops_witness :
  let mb := (send (GetTerm 8) (proceed (loop_top (mb_loop ex_shut)) (mb_queue ex_shut) ex_shut)).2 in
  let mb' := drain 3 mb in
  el_phase (mb_loop mb') = Stopped /\ pending (el_node (mb_loop mb')) = [(1, 7)] /\
  mb_dropped mb' = [8].
Proof.
  intros mb mb'. destruct (shutdown_stops ex_gen_range [ex_write] [GetTerm 8] mb 400)
    as (_ & [Hc|(Hs & Hn & Hd)] & _).
  - vm_compute. reflexivity.
  - vm_compute. reflexivity.
  - by intros [[=]|[]%not_elem_of_nil]%elem_of_cons.
  - exfalso. revert Hc. vm_compute. discriminate.
  - split; [exact Hs|]. split; [|exact Hd].
    change (pending (el_node (mb_loop (drain (2 * length [ex_write] + 1) mb))) = [(1, 7)]).
    rewrite Hn. vm_compute. reflexivity.
Defined.
End examples.
