(* ===== verification/Answers.v ===== *)
(** * What an answer is worth

    A proposal that is answered with an index has been committed, and the entry
    there is the client's own, as long as the node that took the proposal still
    leads the same term when it answers. ([Proposals] has the execution in which
    it does not, and the answer is about another entry.) This puts together the
    senders of [Mailbox], which answer the index they wait for, and the safety of
    the cluster ([Safety]). *)

From Stdlib Require Import Lia Init.Byte.
From stdpp Require Import base numbers list option gmap sets fin_maps strings.
From S2P Require Import Prelude.
From S2P Require Import Core.
From S2P Require Import Proto.
From S2P Require Import Storage.
From S2P Require Import MemStorage.
From S2P Require Import StateMachine.
From S2P Require Import Node.
From S2P Require Import Handlers.
From S2P Require Import NodeLog.
From S2P Require Import Cluster.
From S2P Require Import AppendEntries.
From S2P Require Import Replication.
From S2P Require Import Commit.
From S2P Require Import Proposals.
From S2P Require Import Total.
From S2P Require Import EventLoop.
From S2P Require Import Network.
From S2P Require Import LogSteps.
From S2P Require Import Ensemble.
From S2P Require Import Matching.
From S2P Require Import History.
From S2P Require Import Orderly.
From S2P Require Import SafetyInvariant.
From S2P Require Import Safety.
From S2P Require Import Mailbox.

(** An input that does not carry the sender [tx]. *)
Definition without (tx : Sender) (i : Input) : Prop :=
  match i with InMessage msg => sender_of msg <> Some tx | _ => True end.

(** ** One node *)

Section node.
Context {prof : BuildProfile} {St : Type} `{Storage St}.
Context (tx : Sender).
Implicit Types n : RaftNodeInner St.

(** From [n] to [n'], [tx] has only been answered with an index it waited for,
    which is committed. *)
Definition answers n n' : Prop :=
  (forall j, (j, tx) ∈ pending n' -> (j, tx) ∈ pending n) /\
  forall r, ProposalReply tx r ∈ effects n' -> ProposalReply tx r ∈ effects n \/
    exists j, r = Ok j /\ (j, tx) ∈ pending n /\ j <= commit_index (sm n').

Lemma reply_in_calls n r :
  ProposalReply tx r ∈ effects n <-> ProposalReply tx r ∈ (calls n).2.
Proof.
  unfold calls. cbn. rewrite list_elem_of_filter. cbn.
  split; [intros Hx; split; [by eexists|done]|by intros [_ Hx]].
Qed.

Lemma answers_calls n n' : calls n' = calls n -> answers n n'.
Proof.
  intros Hc. split.
  - intros j. by rewrite (calls_pending _ _ Hc).
  - intros r. rewrite !reply_in_calls, Hc. by left.
Qed.

(** Quiet steps before, and after if they leave the commit index alone. *)
Lemma answers_after n n1 n' : calls n1 = calls n -> answers n1 n' -> answers n n'.
Proof.
  intros Hc [Hp Hr]. split.
  - intros j Hj. rewrite <- (calls_pending _ _ Hc). by apply Hp.
  - intros r Hx. rewrite reply_in_calls, <- Hc, <- reply_in_calls, <- (calls_pending _ _ Hc). by apply Hr.
Qed.

Lemma answers_before n n1 n' :
  answers n n1 -> calls n' = calls n1 -> commit_index (sm n') = commit_index (sm n1) -> answers n n'.
Proof.
  intros [Hp Hr] Hc Hci. split.
  - intros j. rewrite (calls_pending _ _ Hc). apply Hp.
  - intros r. rewrite reply_in_calls, Hc, <- reply_in_calls, Hci. apply Hr.
Qed.

(** The methods that leave senders alone up to [k]. *)
Definition answering {A} (m : M (RaftNodeInner St) A) : Prop := forall n, answers n (m n).2.

Lemma answering_keeps {A} (m : M (RaftNodeInner St) A) : keeps calls m -> answering m.
Proof. intros Hk n. apply answers_calls, Hk. Qed.

Lemma answering_after {A C} (m : M (RaftNodeInner St) A) (k : A -> M (RaftNodeInner St) C) :
  keeps calls m -> (forall a, answering (k a)) -> answering (bind m k).
Proof.
  intros Hm Hk n. specialize (Hm n). unfold bind. destruct (m n) as [[a|] n1]; cbn in Hm.
  - eapply answers_after, Hk. done.
  - by apply answers_calls.
Qed.

Lemma answering_before {A C} (m : M (RaftNodeInner St) A) (k : A -> M (RaftNodeInner St) C) :
  answering m -> (forall a, keeps calls (k a)) ->
  (forall a, keeps (fun n => commit_index (sm n)) (k a)) -> answering (bind m k).
Proof.
  intros Hm Hk Hc n. specialize (Hm n). unfold bind. destruct (m n) as [[a|] n1]; [|done].
  eapply answers_before; [done|apply Hk|apply Hc].
Qed.

Ltac skip := apply answering_after; [calls_keeps|intros ?].

Lemma answering_maybe_advance : answering maybe_advance_commit.
Proof.
  unfold maybe_advance_commit. skip. case_match; [by apply answering_keeps, keeps_ret|].
  do 6 skip. intros n.
  unfold bind, get_sm, gets, modify. rewrite notify_pending_run. cbn. split; cbn.
  - intros j [_ Hj]%list_elem_of_filter. done.
  - intros r [Hr|Hr]%elem_of_app; [by left|right].
    apply list_elem_of_fmap in Hr as ([j tx'] & [= -> ->] & [Hj Hin]%list_elem_of_filter). by exists j.
Qed.

(** Another sender moves. *)
Lemma answering_emit e : reply_to e <> Some tx -> answering (emit e : M (RaftNodeInner St) unit).
Proof.
  intros He n. split; cbn; [done|]. intros r [Hr|Hr]%elem_of_app; [by left|].
  apply list_elem_of_singleton in Hr as <-. by destruct He.
Qed.

Lemma answering_reply o r : o <> Some tx -> answering (reply o r : M (RaftNodeInner St) unit).
Proof.
  intros Ho. destruct o as [tx'|]; [by apply answering_emit|by apply answering_keeps, keeps_ret].
Qed.

Lemma answering_push i tx' :
  tx' <> tx ->
  answering (modify (fun n => set_pending (pending n ++ [(i, tx')]) n) : M (RaftNodeInner St) unit).
Proof.
  intros Hne n. split; cbn; [|by left]. intros j [Hj|Hj]%elem_of_app; [done|].
  apply list_elem_of_singleton in Hj as [= -> ->]. done.
Qed.

Ltac commit_keeps :=
  unfold emit, upd_sm, get_sm, last_index_or_0, term_or_0, set_peer_progress;
  repeat first [ progress intros | solve [eauto with keeps] | by apply keeps_zoom | apply keeps_bind
               | apply keeps_try_bind | apply keeps_when | apply keeps_for_each
               | by apply keeps_modify | case_match ].

Lemma replicate_all_keeps_commit :
  keeps (fun n => commit_index (sm n)) (replicate_all (St := St)).
Proof. unfold replicate_all, replicate_to, send_snapshot_to. commit_keeps. Qed.
Lemma apply_keeps_commit : keeps (fun n => commit_index (sm n)) (apply_committed (St := St)).
Proof. unfold apply_committed. commit_keeps. Qed.

Lemma answering_proposal p : prop_tx p <> Some tx -> answering (on_proposal (St := St) p).
Proof.
  intros Hp. unfold on_proposal. skip. case_match; [skip; by apply answering_reply|].
  do 3 skip. apply answering_after; [calls_keeps|intros [_|e]]; [|by apply answering_reply].
  apply answering_before; [|intros _; apply replicate_all_keeps_calls|intros _; apply replicate_all_keeps_commit].
  destruct (prop_tx p) as [tx'|]; [|by apply answering_keeps, keeps_ret].
  apply answering_push. congruence.
Qed.

Lemma answering_append_response peer li r : answering (handle_append_response (St := St) peer li r).
Proof.
  unfold handle_append_response. skip. case_match; [by apply answering_keeps; calls_keeps|].
  skip. case_match; [by apply answering_keeps, keeps_ret|]. do 2 skip. apply answering_maybe_advance.
Qed.

Lemma answering_snapshot_response peer li r : answering (handle_snapshot_response (St := St) peer li r).
Proof.
  unfold handle_snapshot_response. skip. case_match; [by apply answering_keeps; calls_keeps|].
  skip. case_match; [by apply answering_keeps, keeps_ret|]. do 2 skip. apply answering_maybe_advance.
Qed.

Lemma answering_dispatch msg : sender_of msg <> Some tx -> answering (dispatch (St := St) msg).
Proof.
  destruct msg as [p|t|target|t|t|i| |peer li r|peer r|peer li r]; cbn [dispatch sender_of]; intros Hm;
    try (by apply answering_keeps, keeps_ret); try (skip; by apply answering_emit).
  - by apply answering_proposal.
  - apply answering_append_response.
  - apply answering_keeps, vote_response_keeps_calls.
  - apply answering_snapshot_response.
Qed.

Lemma answering_heartbeat : answering (on_heartbeat (St := St)).
Proof.
  unfold on_heartbeat. skip. apply answering_before; [apply answering_maybe_advance|..]; intros _.
  - apply apply_keeps_calls.
  - apply apply_keeps_commit.
Qed.

Lemma answering_no_reply (m : M (RaftNodeInner St) unit) :
  answering m -> answering (m ;;; ret NoReply).
Proof. intros Hm n. specialize (Hm n). unfold bind. by destruct (m n) as [[]]. Qed.

(** Every input that does not carry it. *)
Lemma handle_answers i n : without tx i -> answers n (handle i n).2.
Proof.
  intros Hi. destruct i as [req|req|req|msg| | |].
  - by apply answers_calls, rpc_keeps_calls.
  - by apply answers_calls, rpc_keeps_calls.
  - by apply answers_calls, rpc_keeps_calls.
  - by apply answering_no_reply, answering_dispatch.
  - apply answering_no_reply, answering_keeps, start_election_keeps_calls.
  - apply answering_no_reply, answering_heartbeat.
  - assert (calls (handle InRestart n).2 =
            calls (set_effects (effects n) (node_new (config n) (storage n)))) as Hk.
    { pose proof (restore_keeps_calls (set_effects (effects n) (node_new (config n) (storage n)))) as Hk.
      cbn [handle]. unfold restart, start_again, bind, modify.
      by destruct (restore_hard_state _) as [[[]|] n']. }
    split.
    + intros j. rewrite (calls_pending _ _ Hk). by intros ?%not_elem_of_nil.
    + intros r Hx. left. apply reply_in_calls in Hx. rewrite Hk in Hx. by apply reply_in_calls in Hx.
Qed.
End node.

(** ** The cluster *)

Section cluster.
Context {prof : BuildProfile} {St : Type}
  `{HS : Storage St, HL : !LogStorage St, HD : !DurableStorage St}.
Context (V : gset NodeId) (tx : Sender).
Implicit Types (w : World St) (n : RaftNodeInner St).

(** Events that do not hand in [tx]. *)
Definition spares (e : WorldEvent) : Prop :=
  match e with WOwn _ i => without tx i | _ => True end.

Lemma event_answers w B E H e w' id n :
  cluster_safe V w B E H -> spares e -> world_exec1 orderly e w = Some w' ->
  replicas w !! id = Some n ->
  exists n', replicas w' !! id = Some n' /\
    (n' = n \/ exists i, n' = (handle i n).2 /\ without tx i).
Proof.
  intros Hcs Hsp He Hn.
  assert (forall a m i box, replicas w !! a = Some m -> without tx i ->
    w' = MkWorld (<[a := (handle i m).2]> (replicas w)) box ->
    exists n', replicas w' !! id = Some n' /\
      (n' = n \/ exists i, n' = (handle i n).2 /\ without tx i)) as Hact.
  { intros a m i box Hm Hi ->. cbn. destruct (decide (id = a)) as [->|Hne].
    - rewrite lookup_insert_eq. eexists. split; [done|]. right. exists i. by assert (m = n) as -> by congruence.
    - rewrite lookup_insert_ne by done. exists n. split; [done|by left]. }
  destruct e as [a i|src k|k]; cbn -[handle run_task] in He.
  - apply bind_Some in He as (m & Hm & He). case_match; [|done]. injection He as <-. by eapply (Hact a m i).
  - apply bind_Some in He as (m & Hm & He). apply bind_Some in He as (e & Hk & He).
    case_match; [|done]. destruct (run_task e (replicas w)) as [[o|] ns] eqn:Hr; [|done].
    injection He as <-. apply task_cases in Hr as [[-> ->]|(peer & i & m' & Hm' & -> & Hreq & _)].
    { exists n. split; [done|by left]. }
    eapply (Hact peer m' i); [done| |done]. by destruct e; cbn in Hreq; simplify_eq.
  - apply bind_Some in He as ([a msg] & Hx & He). apply bind_Some in He as (m & Hm & He).
    case_match; [|done]. injection He as <-. eapply (Hact a m (InMessage msg)); [done| |done].
    pose proof (wi_inbox _ _ _ _ _ (cf_world _ _ _ _ _ Hcs) _ (list_elem_of_lookup_2 _ _ _ Hx)) as Hok.
    cbn in Hok. by destruct msg.
Qed.

(** The sender waits for [i0] only, and has been answered [i0] only, once that
    was committed. *)
Definition tracks (i0 : LogIndex) n : Prop :=
  (forall j, (j, tx) ∈ pending n -> j = i0) /\
  forall r, ProposalReply tx r ∈ effects n -> r = Ok i0 /\ i0 <= commit_index (sm n).

Lemma tracks_step i0 n n' :
  tracks i0 n -> answers tx n n' -> (i0 <= commit_index (sm n) -> i0 <= commit_index (sm n')) ->
  tracks i0 n'.
Proof.
  intros [Hp Hr] [Hp' Hr'] Hc. split; [intros j Hj; by apply Hp, Hp'|].
  intros r Hx. destruct (Hr' r Hx) as [Hy|(j & -> & Hj & Hle)].
  - destruct (Hr r Hy) as [-> ?]. auto.
  - by rewrite <- (Hp j Hj).
Qed.

Lemma exec_tracks i0 es w w' B E H id n :
  0 < i0 -> cluster_safe V w B E H -> Forall spares es -> world_exec orderly es w = Some w' ->
  replicas w !! id = Some n -> tracks i0 n ->
  exists B' E' H' n', grows H H' /\ cluster_safe V w' B' E' H' /\
    replicas w' !! id = Some n' /\ tracks i0 n'.
Proof.
  intros Hi0 Hcs Hsp. revert w B E H n Hcs. induction Hsp as [|e es He _ IH]; intros w B E H n Hcs Hex Hn Htr.
  { injection Hex as <-. exists B, E, H, n. split; [by eapply grows_refl, cf_history|done]. }
  cbn in Hex. apply bind_Some in Hex as (w1 & He1 & Hex).
  destruct (safety_step V w w1 B E H Hcs) as (B1 & E1 & H1 & Hg & Hcs1 & Hk);
    [by eapply world_exec1_step|].
  destruct (event_answers w B E H e w1 id n Hcs He He1 Hn) as (n1 & Hn1 & Hcase).
  destruct (Hk id n Hn) as (n1' & Hn1' & Hkj). assert (n1' = n1) as -> by congruence.
  assert (tracks i0 n1) as Htr1.
  { destruct Hcase as [->|(i & Heq & Hi)]; [done|]. eapply tracks_step; [done| |].
    - rewrite Heq. by apply handle_answers.
    - intros Hle. by apply Hkj. }
  destruct (IH w1 B1 E1 H1 n1 Hcs1 Hex Hn1 Htr1) as (B' & E' & H' & n' & Hg' & ? & ? & ?).
  exists B', E', H', n'. split; [by eapply grows_trans|done].
Qed.

Lemma proposed_tracks n p :
  node_ok n -> role (sm n) = Leader -> u64 (lv_last (log n) + 3) -> prop_tx p = Some tx ->
  ~ tx ∈ holders n ->
  let n' := (handle (InMessage (Propose p)) n).2 in
  tracks (lv_last (log n) + 1) n' /\
  lv_log (log n') !! (lv_last (log n) + 1) = Some (proposed n (prop_data p)) /\ sm n' = sm n.
Proof.
  intros Hok Hr Hu Hp Hf n'.
  destruct (on_proposal_run n p (ok_log _ Hok) (ok_progress _ Hok) Hu (ok_config _ Hok))
    as (n1 & Hrun & Hs & _ & Hacc).
  assert (n' = n1) as -> by (unfold n'; cbn [handle dispatch]; unfold bind; by rewrite Hrun).
  rewrite decide_True in Hacc by done. destruct Hacc as (_ & He & _ & Hpe & es & Hef & Hes).
  split; [|done]. split.
  - intros j. rewrite Hpe, Hp. intros [Hj|Hj]%elem_of_app.
    + exfalso. apply Hf. unfold holders. apply elem_of_app. left.
      apply list_elem_of_fmap. by exists (j, tx).
    + by apply list_elem_of_singleton in Hj as [= ->].
  - intros r. rewrite Hef. intros [Hx|Hx]%elem_of_app; exfalso.
    + apply Hf. unfold holders, used. apply elem_of_app. right. apply list_elem_of_omap. by eexists.
    + apply list_elem_of_lookup in Hx as [k Hk].
      destruct (Forall2_lookup_r _ _ _ _ _ Hes Hk) as ([q pr] & _ & Hrep).
      unfold replication in Hrep. by case_match; [destruct Hrep as (? & _ & ?)|destruct Hrep as (? & ? & _)].
Qed.

(** The index that [tx] was answered with in its leadership, and what is there. *)
Lemma own_entry w0 w1 w2 id n n2 p es i :
  newborn V w0 -> world_steps orderly w0 w1 -> replicas w1 !! id = Some n ->
  role (sm n) = Leader -> prop_tx p = Some tx -> ~ tx ∈ holders n ->
  Forall spares es ->
  world_exec orderly (WOwn id (InMessage (Propose p)) :: es) w1 = Some w2 ->
  replicas w2 !! id = Some n2 -> role (sm n2) = Leader -> current_term (sm n2) = current_term (sm n) ->
  ProposalReply tx (Ok i) ∈ effects n2 ->
  i = lv_last (log n) + 1 /\ i <= commit_index (sm n2) /\
  lv_log (log n2) !! i = Some (proposed n (prop_data p)) /\
  exists B E H, cluster_safe V w2 B E H.
Proof.
  intros Hborn Hs01 Hn Hr Hp Hf Hsp Hex Hn2 Hr2 Ht2 Hre.
  destruct (newborn_safe V w0 Hborn) as (B0 & E0 & H0 & Hs0).
  destruct (safety_steps V w0 w1 B0 E0 H0 Hs01 Hs0) as (B1 & E1 & H1 & _ & Hs1 & _).
  cbn [world_exec] in Hex. apply bind_Some in Hex as (w1' & He1 & Hex).
  destruct (safety_step V w1 w1' B1 E1 H1 Hs1) as (B2 & E2 & H2 & _ & Hs2 & _);
    [by eapply world_exec1_step|].
  cbn -[handle] in He1. rewrite Hn in He1. cbn -[handle] in He1.
  destruct (lv_last (log n) + 3 <? u64_modulus) eqn:Hu; [|done]. apply N.ltb_lt in Hu.
  injection He1 as <-. set (n1 := (handle (InMessage (Propose p)) n).2) in *.
  destruct (proposed_tracks n p (ns_ok _ _ _ _ _ (cf_node _ _ _ _ _ Hs1 id n Hn)) Hr Hu Hp Hf)
    as (Htr & He & Hsm). fold n1 in Htr, He, Hsm.
  assert (replicas (MkWorld (<[id := n1]> (replicas w1)) (inbox w1)) !! id = Some n1) as Hn1
    by apply lookup_insert_eq.
  destruct (exec_tracks (lv_last (log n) + 1) es _ w2 B2 E2 H2 id n1 ltac:(lia) Hs2 Hsp Hex Hn1 Htr)
    as (B3 & E3 & H3 & n' & Hg & Hs3 & Hn' & _ & Htr').
  assert (n' = n2) as -> by congruence. destruct (Htr' _ Hre) as [[= ->] Hle].
  split; [done|]. split; [done|]. split; [|by exists B3, E3, H3].
  pose proof (ns_leader _ _ _ _ _ (cf_node _ _ _ _ _ Hs2 id n1 Hn1)) as HL1.
  rewrite Hsm in HL1. specialize (HL1 Hr).
  destruct (ledger_lookup_grows V E2 H2 H3 _ _ _ _ (cf_history _ _ _ _ _ Hs2) Hg HL1 He)
    as (L' & HL' & HeL').
  pose proof (ns_leader _ _ _ _ _ (cf_node _ _ _ _ _ Hs3 id n2 Hn2) Hr2) as HL2.
  rewrite Ht2 in HL2. congruence.
Qed.

(** C5. What an answer is worth: in an orderly execution of fresh nodes, let a
    leader take a proposal on a channel of its own, and let it, still leading
    the same term after whatever has happened, have answered it with an index.
    Then the entry at that index is the client's, it is committed, and stays so:
    at any later time this node's log holds it at or below its commit index,
    and whatever any node has handed or will hand to its application at that
    index is this entry. *)
Theorem answer_is_own_entry w0 w1 w2 w3 id n n2 p es i
    (Hborn : newborn V w0) (Hs01 : world_steps orderly w0 w1) (Hn : replicas w1 !! id = Some n)
    (Hr : role (sm n) = Leader) (Hp : prop_tx p = Some tx) (Hf : ~ tx ∈ holders n)
    (Hsp : Forall spares es)
    (Hex : world_exec orderly (WOwn id (InMessage (Propose p)) :: es) w1 = Some w2)
    (Hn2 : replicas w2 !! id = Some n2) (Hr2 : role (sm n2) = Leader)
    (Ht2 : current_term (sm n2) = current_term (sm n))
    (Hre : ProposalReply tx (Ok i) ∈ effects n2) (Hs23 : world_steps orderly w2 w3) :
  let e := MkLogEntry (current_term (sm n)) i (prop_data p) Normal in
  (exists n3, replicas w3 !! id = Some n3 /\ lv_log (log n3) !! i = Some e /\
     i <= commit_index (sm n3)) /\
  forall b nb e', replicas w3 !! b = Some nb -> ApplyEntry e' ∈ effects nb ->
    le_index e' = i -> e' = e.
Proof.
  destruct (own_entry w0 w1 w2 id n n2 p es i Hborn Hs01 Hn Hr Hp Hf Hsp Hex Hn2 Hr2 Ht2 Hre)
    as (Hi & Hle & He & B2 & E2 & H2 & Hcs2).
  destruct (safety_steps V w2 w3 B2 E2 H2 Hs23 Hcs2) as (B3 & E3 & H3 & Hg & Hcs3 & Hk).
  intros e. assert (proposed n (prop_data p) = e) as Heq by (unfold e; by rewrite Hi).
  rewrite Heq in He. destruct (Hk id n2 Hn2) as (n3 & Hn3 & Hkj).
  destruct (Hkj i) as [Hle3 He3]; [lia|]. split; [exists n3; by rewrite He3|].
  intros b nb e' Hb Ha Hx.
  pose proof (ns_applied _ _ _ _ _ (cf_node _ _ _ _ _ Hcs3 b nb Hb) e' Ha) as Hsb. rewrite Hx in Hsb.
  pose proof (ns_commit _ _ _ _ _ (cf_node _ _ _ _ _ Hcs2 id n2 Hn2) i e Hle He) as Hsa.
  apply (safe_grows V E2 H2 H3 _ (current_term (sm n2))) in Hsa; [|by eapply cf_history|done|done].
  eapply safe_unique; [by eapply cf_history|exact Hsb|exact Hsa].
Qed.
End cluster.

Section examples.
Local Existing Instance dev_profile.
#[local] Existing Instances MemStorage MemStorage_log MemStorage_durable.

(** Node 1 leads, takes "a" on channel 7, node 2 stores it; later it is
    applied. *)
Definition ex_elected : list WorldEvent := [WOwn 1 InElectionTimeout; WTask 1 2; WAnswer 0].
Definition ex_asked : Proposal := MkProposal [x61] (Some 7).
Definition ex_told : list WorldEvent := [WTask 1 7; WAnswer 1].

Lemma answer_is_own_entry_witness :
  exists w3 n3, replicas w3 !! 1 = Some n3 /\ ProposalReply 7 (Ok 1) ∈ effects n3 /\
    lv_log (log n3) !! 1 = Some (ex_entry 1 1 [x61]) /\ 1 <= commit_index (sm n3).
Proof.
  assert (exists w1 w2 w3 n n2 n3, world_exec orderly ex_elected ex_world = Some w1 /\
    replicas w1 !! 1 = Some n /\ role (sm n) = Leader /\ holders n = [] /\
    world_exec orderly (WOwn 1 (InMessage (Propose ex_asked)) :: ex_told) w1 = Some w2 /\
    replicas w2 !! 1 = Some n2 /\ role (sm n2) = Leader /\
    current_term (sm n2) = current_term (sm n) /\
    last (effects n2) = Some (ProposalReply 7 (Ok 1)) /\
    world_exec orderly [WOwn 1 InHeartbeat] w2 = Some w3 /\ replicas w3 !! 1 = Some n3 /\
    last (take (length (effects n2)) (effects n3)) = Some (ProposalReply 7 (Ok 1)) /\
    current_term (sm n) = 1)
    as (w1 & w2 & w3 & n & n2 & n3 & H1 & Hn & Hr & Hh & H2 & Hn2 & Hr2 & Ht2 & Hl & H3 & Hn3 & Hl3 & Ht).
  { do 6 eexists. split; [vm_compute; reflexivity|]. split; [vm_compute; reflexivity|].
    split; [vm_compute; reflexivity|]. split; [vm_compute; reflexivity|].
    split; [vm_compute; reflexivity|]. split; [vm_compute; reflexivity|].
    split; [vm_compute; reflexivity|]. split; [vm_compute; reflexivity|].
    split; [vm_compute; reflexivity|]. split; [vm_compute; reflexivity|].
    split; [vm_compute; reflexivity|]. split; vm_compute; reflexivity. }
  apply (world_exec_steps _ _ _ ex_world) in H1; [|constructor].
  apply (world_exec_steps _ _ _ w2) in H3; [|constructor].
  rewrite last_lookup in Hl, Hl3. apply list_elem_of_lookup_2 in Hl, Hl3.
  destruct (answer_is_own_entry {[1; 2; 3]} 7 ex_world w1 w2 w3 1 n n2 ex_asked ex_told 1
              ex_world_newborn H1 Hn Hr eq_refl ltac:(rewrite Hh; apply not_elem_of_nil)
              ltac:(repeat constructor) H2 Hn2 Hr2 Ht2 Hl H3) as [(n3' & Hn3' & He & Hc) _].
  exists w3, n3. split; [exact Hn3|]. split.
  - apply elem_of_take in Hl3 as (k & Hk & _). by eapply list_elem_of_lookup_2.
  - rewrite Hn3 in Hn3'. injection Hn3' as <-. rewrite Ht in He. by split.
Defined.
End examples.
