(* ===== verification/RepoTests.v ===== *)
(** * The repository's own tests, on the model

    The unit tests of src/iceraft-storage/src/mem.rs, translated as they are and
    run on [MemStorage], and the single-node test of
    src/iceraft-node/tests/integration.rs, for every timeout the loop may draw.
    They check the model against the expectations of the code's authors. *)

From Stdlib Require Import Lia Init.Byte String.
From stdpp Require Import base numbers list option gmap sets fin_maps strings.
From S2P Require Import Prelude.
From S2P Require Import Core.
From S2P Require Import Storage.
From S2P Require Import MemStorage.
From S2P Require Import StateMachine.
From S2P Require Import Node.
From S2P Require Import Total.
From S2P Require Import Election.
From S2P Require Import EventLoop.
From S2P Require Import Liveness.
From S2P Require Import Lone.

(** ** mem.rs *)

Section unit_tests.
Context {prof : BuildProfile}.
#[local] Existing Instances MemStorage.
Local Abbreviation Test := (M MemStorageInner unit).

(** [.unwrap()] and [assert!]: a failure panics. *)
Definition unwrap {A} (m : M MemStorageInner (raft_result A)) : M MemStorageInner A :=
  let* r := m in match r with Ok a => ret a | Err _ => panic end.
Definition assert_ (b : bool) : Test := if b then ret tt else panic.
Definition assert_eq {A} `{EqDecision A} (m : M MemStorageInner (raft_result A)) (a : A) : Test :=
  let* x := unwrap m in assert_ (bool_decide (x = a)).

(** A test passes if it does not panic on a new store. *)
Definition passes_on (s : MemStorageInner) (t : Test) : bool :=
  match (t s).1 with Done _ => true | Panicked => false end.

(** [index as u8] *)
Definition as_u8 (i : N) : Byte.byte := default x00 (Byte.of_N (i mod 256)).

Definition make_entry (term : Term) (index : LogIndex) : LogEntry :=
  MkLogEntry term index [as_u8 index] Normal.

Definition test_empty_storage : Test :=
  assert_eq st_first_index 1 ;;;
  assert_eq st_last_index 0 ;;;
  assert_eq st_load_hard_state HardState_default ;;;
  let* sn := unwrap st_snapshot in
  assert_ (bool_decide (sn = None)).

Definition test_append_and_read : Test :=
  let entries := [make_entry 1 1; make_entry 1 2; make_entry 2 3] in
  unwrap (st_append_entries entries) ;;;
  assert_eq st_last_index 3 ;;;
  assert_eq st_first_index 1 ;;;
  assert_eq (st_term 2) 1 ;;;
  assert_eq (st_term 3) 2 ;;;
  let* got := unwrap (st_entries 1 4 None) in
  assert_ (nlen got =? 3).

Definition test_truncation_on_conflict : Test :=
  unwrap (st_append_entries [make_entry 1 1; make_entry 1 2; make_entry 1 3]) ;;;
  unwrap (st_append_entries [make_entry 2 2; make_entry 2 3]) ;;;
  assert_eq st_last_index 3 ;;;
  assert_eq (st_term 2) 2 ;;;
  assert_eq (st_term 3) 2.

Definition test_hard_state_persistence : Test :=
  let hs := MkHardState 5 2 10 in
  unwrap (st_save_hard_state hs) ;;;
  assert_eq st_load_hard_state hs.

Definition test_apply_snapshot : Test :=
  for_each [1; 2; 3; 4; 5] (fun i => unwrap (st_append_entries [make_entry 1 i])) ;;;
  let snap := MkSnapshot (list_byte_of_string "state-at-5") (MkSnapshotMeta 5 1 [1; 2; 3]) in
  unwrap (st_apply_snapshot snap) ;;;
  assert_eq st_first_index 6 ;;;
  assert_eq st_last_index 5 ;;;
  let* sn := unwrap st_snapshot in
  assert_ (bool_decide (is_Some sn)).

Definition test_max_size_cap : Test :=
  for_each [1; 2; 3; 4; 5; 6; 7; 8; 9; 10] (fun i =>
    unwrap (st_append_entries [MkLogEntry 1 i (replicate 100 x00) Normal])) ;;;
  let* got := unwrap (st_entries 1 11 (Some 350)) in
  assert_ (nlen got =? 3).

Lemma mem_tests_pass :
  Forall (fun t => passes_on MemStorage_new t = true)
    [test_empty_storage; test_append_and_read; test_truncation_on_conflict;
     test_hard_state_persistence; test_apply_snapshot; test_max_size_cap].
Proof. destruct prof; repeat constructor. Qed.
End unit_tests.

(** ** integration.rs *)

Section integration.
Context {prof : BuildProfile}.
#[local] Existing Instances MemStorage MemStorage_log MemStorage_durable.

Definition single_node_config : RaftConfig := MkRaftConfig 1 [] 50 100 200 128 10000 (1024 * 1024).

(** [test_single_node_becomes_leader]: the election deadline is well before the
    500 ms for which the test sleeps, and when the loop has woken up, the node
    answers that it is the leader itself. *)
Lemma test_single_node_becomes_leader gen_range now t t' tx :
  gen_range_documented gen_range ->
  let el1 := loop_restore gen_range now (start single_node_config MemStorage_new) in
  let el2 := tick gen_range t t' el1 in
  election_deadline el1 < now + 500 /\
  (election_deadline el1 <= t ->
   effects (el_node (loop_message (Some (Handlers.GetLeader tx)) (loop_top el2))) =
     effects (el_node el2) ++ [LeaderReply tx (Some 1)]).
Proof.
  intros Hg el1 el2.
  assert (bootable single_node_config MemStorage_new) as Hb by (split; try reflexivity; by_compute).
  destruct (boot_run gen_range _ _ now Hg Hb) as (Hn & _ & Hd). fold el1 in Hn, Hd.
  destruct (restored_spec _ _ Hb) as (Hok & Hc & _ & Hr & _ & _ & _ & Ht & _).
  change (election_timeout_max_ms _) with 200 in Hd. split; [lia|]. intros Hdt.
  destruct (election_tick gen_range t t' el1 Hg) as (_ & _ & Hs & _ & _);
    rewrite ?Hn, ?Hc, ?Ht; try done; try (by rewrite Hr).
  fold el2 in Hs. cbn. by rewrite Hs, Hn, Hc.
Qed.
End integration.
