(* ===== verification/Compacted.v ===== *)
(** * A node that starts from a snapshot

    [MemStorage::with_snapshot] (iceraft-storage/src/mem.rs) stores a snapshot
    and a default hard state, so that a node started on it has applied nothing
    and its log starts after the snapshot. What follows: it takes part in the
    cluster, commits and answers, and never hands an entry to the application. *)

From Stdlib Require Import Lia Init.Byte.
From stdpp Require Import base numbers list option gmap sets fin_maps strings.
From S2P Require Import Prelude.
From S2P Require Import Core.
From S2P Require Import Proto.
From S2P Require Import Storage.
From S2P Require Import MemStorage.
From S2P Require Import StateMachine.
From S2P Require Import Node.
From S2P Require Import Handlers.
From S2P Require Import Votes.
From S2P Require Import NodeLog.
From S2P Require Import Election.
From S2P Require Import RequestVote.
From S2P Require Import AppendEntries.
From S2P Require Import Replication.
From S2P Require Import Commit.
From S2P Require Import Progress.
From S2P Require Import Proposals.
From S2P Require Import Total.
From S2P Require Import LogSteps.

(** ** What moves the applied index *)

Definition applied {St} (n : RaftNodeInner St) : LogIndex := last_applied (sm n).

Ltac applied_keeps :=
  intros;
  unfold reply, emit, upd_sm, get_sm, last_index_or_0, term_or_0, set_peer_progress,
    record_match, step_down, save_hard_state;
  repeat first
    [ progress intros
    | solve [eauto with keeps]
    | apply keeps_bind
    | apply keeps_try_bind
    | apply keeps_when
    | apply keeps_for_each
    | apply keeps_modify; intros; done
    | case_match ].

Section applied.
Context {prof : BuildProfile} {St : Type} `{HS : Storage St}.
Implicit Types n : RaftNodeInner St.

Lemma on_storage_keeps_applied {A} (m : M St A) : keeps applied (on_storage m).
Proof. by apply keeps_zoom. Qed.
Lemma on_sm_keeps_applied {A} (m : M RaftStateMachine A) :
  keeps last_applied m -> keeps (applied (St := St)) (on_sm m).
Proof. intros Hm n. apply Hm. Qed.
Hint Resolve on_storage_keeps_applied : keeps.
Lemma follower_keeps_applied t l : keeps (applied (St := St)) (on_sm (become_follower t l)).
Proof. apply on_sm_keeps_applied. unfold become_follower. solve_keeps. Qed.
Lemma candidate_keeps_applied i : keeps (applied (St := St)) (on_sm (become_candidate i)).
Proof. apply on_sm_keeps_applied. unfold become_candidate. solve_keeps. Qed.
Lemma leader_keeps_applied i l ps : keeps (applied (St := St)) (on_sm (become_leader i l ps)).
Proof. apply on_sm_keeps_applied. unfold become_leader. solve_keeps. Qed.
Lemma search_keeps_applied fuel t lo hi : keeps (applied (St := St)) (search_term fuel t lo hi).
Proof. revert lo hi. induction fuel; intros; cbn [search_term]; applied_keeps. Qed.
Lemma scan_keeps_applied fuel q t i : keeps (applied (St := St)) (scan_commit fuel q t i).
Proof. revert i. induction fuel; intros; cbn [scan_commit]; applied_keeps. Qed.
Lemma notify_keeps_applied c l : keeps (applied (St := St)) (notify_pending c l).
Proof. induction l as [|[]]; cbn [notify_pending]; applied_keeps. Qed.
Hint Resolve follower_keeps_applied candidate_keeps_applied leader_keeps_applied
  search_keeps_applied scan_keeps_applied notify_keeps_applied : keeps.
Lemma maybe_advance_keeps_applied : keeps (applied (St := St)) maybe_advance_commit.
Proof. unfold maybe_advance_commit. applied_keeps. Qed.
Lemma replicate_all_keeps_applied : keeps (applied (St := St)) replicate_all.
Proof. unfold replicate_all, replicate_to, send_snapshot_to. applied_keeps. Qed.
Hint Resolve maybe_advance_keeps_applied replicate_all_keeps_applied : keeps.

Lemma handle_keeps_applied i n :
  match i with InHeartbeat | InRestart | InInstallSnapshot _ => False | _ => True end ->
  applied (handle i n).2 = applied n.
Proof.
  intros Hi. match goal with |- applied (?m n).2 = _ =>
    enough (keeps applied m) as Hk by apply Hk end.
  destruct i as [| | |[]| | |]; cbn [handle dispatch]; try done;
    unfold on_append_entries, check_prev, first_index_of_term, on_request_vote, on_proposal,
      handle_vote_response, handle_append_response, handle_snapshot_response, start_election,
      win_election; applied_keeps.
Qed.
End applied.

(** ** Below the compaction point *)

Section behind.
Context {prof : BuildProfile} {St : Type}
  `{HS : Storage St, HL : !LogStorage St, HD : !DurableStorage St}.
Implicit Types n : RaftNodeInner St.

Definition based (b : LogIndex) n : Prop := log_ok n /\ lv_base (log n) = b.

Lemma log_based {A} b (m : M (RaftNodeInner St) A) :
  (forall L, preserves (log_is L) m) -> preserves (based b) m.
Proof.
  intros Hm n [Hn <-]. destruct (Hm (log n) n) as [Hn' Hl]; [done|]. split; [done|]. by rewrite Hl.
Qed.

(** Every input but a snapshot leaves the compaction point where it is. *)
Lemma handle_keeps_base i n :
  node_ok n -> input_ok n i -> (forall req, i <> InInstallSnapshot req) ->
  lv_base (log (handle i n).2) = lv_base (log n).
Proof.
  intros [Hn Hp Hpr _ Hm] Hi Hns.
  assert (forall m : M (RaftNodeInner St) unit, (forall L, preserves (log_is L) m) ->
    lv_base (log (m n).2) = lv_base (log n)) as Hq
    by (intros m Hl; by apply (log_based (lv_base (log n)) m Hl)).
  destruct i as [req|req|req|msg| | |]; cbn [handle]; rewrite ?after_reply, ?after_no_reply.
  - destruct (on_append_entries_run n req Hn Hp (proj1 Hi)) as (n' & r & -> & _ & _ & _ & _ & Hc).
    cbn [snd]. destruct (ae_term req <? _); [by destruct Hc as [-> _]|].
    destruct (prev_matches (log n) req); destruct Hc as (_ & -> & _); [apply spec_append_base|done].
  - destruct (on_request_vote_run n req Hn (or_introl Hp)) as (n' & -> & _ & _ & _ & Hl & _).
    cbn [snd]. by rewrite Hl.
  - by destruct (Hns req).
  - destruct msg; cbn [dispatch]; try (by apply Hq; auto with preserves); try done.
    destruct (on_proposal_run n p Hn Hpr Hi Hm) as (n' & -> & _ & _ & Hc). cbn [snd].
    case_decide; destruct Hc as (-> & _); [apply spec_append_base|done].
  - destruct (start_election_run n Hn Hi) as (n' & -> & _ & _ & Hl & _). cbn [snd]. by rewrite Hl.
  - apply Hq. intros L. apply preserves_bind; [auto with preserves|intros _].
    apply preserves_bind; auto with preserves.
  - apply Hq. auto with preserves.
Qed.

(** The read for the entries to apply starts below the log and fails. *)
Lemma apply_behind_run n :
  node_ok n -> last_applied (sm n) < lv_base (log n) -> apply_committed n = (Done tt, n).
Proof.
  intros [Hn _ _ [Hla Hci] _] Hb. unfold apply_committed, u64 in *.
  unfold bind at 1, get_sm at 1, gets at 1. rewrite u64_add_small by (unfold u64; lia).
  unfold bind at 1, ret at 1. unfold bind at 1, get_sm at 1, gets at 1. case_match; [done|].
  rewrite u64_add_small by (unfold u64; lia). unfold bind at 1, ret at 1. unfold bind at 1.
  destruct (entries_run (last_applied (sm n) + 1) (commit_index (sm n) + 1) None n Hn)
    as (r & -> & Hr). unfold spec_entries in Hr. rewrite (proj2 (N.ltb_lt _ _)) in Hr by lia.
  by subst r.
Qed.

Lemma heartbeat_behind n :
  node_ok n -> last_applied (sm n) < lv_base (log n) ->
  applied (on_heartbeat n).2 = applied n /\ handed_over (on_heartbeat n).2 = handed_over n.
Proof.
  intros Hn Hb.
  destruct (replicate_all_returns n Hn) as ([] & n1 & Hr1 & Hn1).
  destruct (advance_returns n1 Hn1) as ([] & n2 & Hr2 & Hn2).
  pose proof (replicate_all_keeps_applied n) as Ha1. pose proof (maybe_advance_keeps_applied n1) as Ha2.
  pose proof (replicate_all_keeps handed_over n) as Hh1. pose proof (maybe_advance_keeps_handed n1) as Hh2.
  assert (based (lv_base (log n)) n1) as [Hl1 Hb1].
  { change n1 with ((Done tt, n1).2). rewrite <- Hr1. apply log_based; [auto with preserves|].
    split; [apply Hn|done]. }
  assert (based (lv_base (log n1)) n2) as [Hl2 Hb2].
  { change n2 with ((Done tt, n2).2). rewrite <- Hr2. by apply log_based; [auto with preserves|]. }
  rewrite Hr1 in Ha1, Hh1. rewrite Hr2 in Ha2, Hh2. cbn [snd] in *.
  unfold applied in *. assert (on_heartbeat n = (Done tt, n2)) as ->; [|split; cbn; congruence].
  unfold on_heartbeat, bind. rewrite Hr1, Hr2.
  apply apply_behind_run; [done|by rewrite Ha2, Ha1, Hb2, Hb1].
Qed.

(** Neither a snapshot nor a restart. *)
Definition goes_on (i : Input) : bool :=
  match i with InInstallSnapshot _ | InRestart => false | _ => true end.

(** A node whose applied index is below its log's compaction point never applies
    anything again, however far its commit index gets: every read of the entries
    to apply starts at a compacted index, and the error is only logged. *)
Lemma behind_run ins n (Hn : node_ok n) (Hi : inputs_ok n ins)
    (Hg : forallb goes_on ins = true) (Hb : last_applied (sm n) < lv_base (log n)) :
  Forall (fun '(_, o, n') => o <> Panicked /\
    handed_over n' = handed_over n /\ last_applied (sm n') = last_applied (sm n)) (run n ins).
Proof.
  revert n Hn Hi Hb. induction ins as [|i ins IH]; intros n Hn Hi Hb; cbn [run]; [done|].
  cbn in Hg. apply andb_true_iff in Hg as [Hgi Hg]. destruct Hi as [Hi Hins].
  destruct (handle_node_ok i n Hn Hi) as (r & n' & Hr & Hn').
  pose proof (handle_keeps_base i n Hn Hi ltac:(by intros req ->)) as Hbase.
  assert (applied (handle i n).2 = applied n /\ handed_over (handle i n).2 = handed_over n) as [Ha Hh].
  { destruct i; try done; try (split; [by apply handle_keeps_applied|by apply handle_keeps_handed]).
    cbn [handle]. rewrite after_no_reply. by apply heartbeat_behind. }
  unfold applied in Ha. rewrite Hr in *. cbn [snd] in *. constructor; [by rewrite Ha|].
  rewrite <- Ha, <- Hh. apply IH; try done. by rewrite Ha, Hbase.
Qed.
End behind.

(** ** A node started on [MemStorage::with_snapshot] *)

Section with_snapshot.
Context {prof : BuildProfile}.
#[local] Existing Instances MemStorage MemStorage_log MemStorage_durable.

Definition on_snapshot (c : RaftConfig) (sn : Snapshot) : RaftNodeInner MemStorageInner :=
  (restore_hard_state (node_new c (MemStorage_with_snapshot sn))).2.

Lemma on_snapshot_ok c sn :
  0 < last_included_index (snap_metadata sn) -> u64 (last_included_index (snap_metadata sn) + 2) ->
  u64 (max_append_entries c * 4096) ->
  node_ok (on_snapshot c sn) /\
  last_applied (sm (on_snapshot c sn)) < lv_base (log (on_snapshot c sn)).
Proof.
  intros H0 Hu Hm. split; [|exact H0]. split; [|done| | |done].
  - split; [by intros j e|].
    change (u64 (last_included_index (snap_metadata sn) + 0 + 2)). by rewrite N.add_0_r.
  - intros peer p. cbn. by rewrite lookup_empty.
  - by split.
Qed.

(** C36. A node started on a store made by [MemStorage::with_snapshot] takes part
    in the cluster and never applies anything: over any run of inputs that fit,
    without an InstallSnapshot or a restart, every handler returns, nothing is
    ever handed to the application and the applied index stays 0, however many
    entries the node commits and however many proposals it answers. *)
Theorem with_snapshot_never_applies c sn ins
    (H0 : 0 < last_included_index (snap_metadata sn))
    (Hu : u64 (last_included_index (snap_metadata sn) + 2))
    (Hm : u64 (max_append_entries c * 4096))
    (Hi : inputs_ok (on_snapshot c sn) ins) (Hg : forallb goes_on ins = true) :
  Forall (fun '(_, o, n') => o <> Panicked /\ handed_over n' = [] /\ last_applied (sm n') = 0)
    (run (on_snapshot c sn) ins).
Proof. destruct (on_snapshot_ok c sn H0 Hu Hm). by apply (behind_run ins (on_snapshot c sn)). Qed.
End with_snapshot.

(** ** A concrete run *)

Section examples.
Local Existing Instance dev_profile.
#[local] Existing Instances MemStorage MemStorage_log MemStorage_durable.

(** A cluster of one node, whose snapshot ends at index 3, elects it, commits
    entry 4 and answers its proposal. *)
Definition ex_alone : RaftConfig := MkRaftConfig 1 [] 100 300 600 128 10000 1024.
Definition ex_kept : Snapshot := MkSnapshot [x61] (MkSnapshotMeta 3 2 [1]).
Definition ex_alone_life : list Input :=
  [InElectionTimeout; InMessage (Propose (MkProposal [x62] (Some 7))); InHeartbeat; InHeartbeat].

Lemma with_snapshot_never_applies_witness :
  let n' := default (on_snapshot ex_alone ex_kept)
              (snd <$> last (run (on_snapshot ex_alone ex_kept) ex_alone_life)) in
  commit_index (sm n') = 4 /\ last (effects n') = Some (ProposalReply 7 (Ok 4)) /\ handed_over n' = [].
Proof.
  assert (Forall (fun '(_, o, n') => o <> Panicked /\ handed_over n' = [] /\ last_applied (sm n') = 0)
    (run (on_snapshot ex_alone ex_kept) ex_alone_life)) as Hall.
  { apply with_snapshot_never_applies; [reflexivity|by_compute|by_compute| |reflexivity].
    repeat split; by_compute. }
  split; [vm_compute; reflexivity|]. split; [vm_compute; reflexivity|].
  assert (exists x, last (run (on_snapshot ex_alone ex_kept) ex_alone_life) = Some x) as [[[i o] n] Hx]
    by (eexists; vm_compute; reflexivity).
  rewrite Hx. rewrite last_lookup in Hx. rewrite Forall_lookup in Hall. apply (Hall _ _ Hx).
Defined.
End examples.
