(* ===== verification/Grpc.v ===== *)
(** * The gRPC transport, end to end

    Models the service code in src/iceraft-network/src/gen/raft.rs: the client
    whose calls the pool of [Network] makes, the server that routes a request by
    its path, and server.rs, which puts a node's handlers behind it. The library
    (tonic, prost, HTTP) is a parameter with its documented behaviour as laws:
    messages survive their encoding, a client sends one message to one path and
    reads one answer, a server decodes, calls its method and answers, and
    refuses a message above its limit. What follows is what a node's spawned
    task does to the peer it calls. *)

From Stdlib Require Import Lia Init.Byte String.
From stdpp Require Import base numbers list option gmap sets fin_maps strings pretty.
From S2P Require Import Prelude.
From S2P Require Import Core.
From S2P Require Import Proto.
From S2P Require Import Storage.
From S2P Require Import MemStorage.
From S2P Require Import StateMachine.
From S2P Require Import Node.
From S2P Require Import Handlers.
From S2P Require Import Votes.
From S2P Require Import NodeLog.
From S2P Require Import RequestVote.
From S2P Require Import AppendEntries.
From S2P Require Import Replication.
From S2P Require Import Total.
From S2P Require Import Network.
From S2P Require Import LogSteps.
From S2P Require Import Ensemble.

(** ** What crosses the wire

    A unary request carries one message to a path; an answer has a status, its
    headers (with gRPC's trailers) and at most one message. *)

Record HttpRequest : Type := MkHttpRequest { uri_path : string; req_message : bytes }.

Record HttpResponse : Type := MkHttpResponse {
  http_status : N;
  http_headers : list (string * string);
  resp_message : bytes;
}.

(** ** The library *)

(** prost's derived codec of a message. *)
Class ProstMessage (A : Type) : Type := {
  encode_to_vec : A -> bytes;
  decode : bytes -> option A;
  decode_encode m : decode (encode_to_vec m) = Some m;
}.

(** tonic's [GrpcService]: what a client calls, here a channel. *)
Class GrpcService (W T : Type) : Type := {
  poll_ready : T -> M W (result string unit);
  service_call : T -> HttpRequest -> M W (result string HttpResponse);
}.

Class Tonic : Type := {
  CompressionEncoding : Type;
  EnabledCompressionEncodings : Type;
  no_encodings : EnabledCompressionEncodings;
  enable : CompressionEncoding -> EnabledCompressionEncodings -> EnabledCompressionEncodings;
  (* a service behind an interceptor *)
  InterceptedService : Type -> Type -> Type;
  intercepted_new {T F} : T -> F -> InterceptedService T F;
  (* tonic::client::Grpc *)
  ClientGrpc : Type -> Type;
  client_new {T} : T -> ClientGrpc T;
  Uri : Type;
  client_origin {T} : T -> Uri -> ClientGrpc T;
  client_send_compressed {T} : CompressionEncoding -> ClientGrpc T -> ClientGrpc T;
  client_accept_compressed {T} : CompressionEncoding -> ClientGrpc T -> ClientGrpc T;
  client_max_decoding {T} : N -> ClientGrpc T -> ClientGrpc T;
  client_max_encoding {T} : N -> ClientGrpc T -> ClientGrpc T;
  client_ready {W T} `{GrpcService W T} : ClientGrpc T -> M W (result string unit);
  client_unary {W T Req Resp} `{GrpcService W T, ProstMessage Req, ProstMessage Resp} :
    ClientGrpc T -> Req -> string -> M W (result Status Resp);
  (* tonic::server::Grpc *)
  ServerGrpc : Type;
  server_new : ServerGrpc;
  apply_compression_config :
    EnabledCompressionEncodings -> EnabledCompressionEncodings -> ServerGrpc -> ServerGrpc;
  server_max_decoding : N -> ServerGrpc -> ServerGrpc;
  server_max_encoding : N -> ServerGrpc -> ServerGrpc;
  server_unary {W Req Resp} `{ProstMessage Req, ProstMessage Resp} :
    ServerGrpc -> (Req -> M W (result Status Resp)) -> HttpRequest -> M W HttpResponse;
}.

(** The documented limit of a decoded message, 4 MiB, unless one is set. *)
Definition default_decoding_limit : N := 4194304.

(** The documented behaviour with no compression and no limit set. *)
Class TonicLaws `{Tonic} : Type := {
  respond {Resp} `{ProstMessage Resp} : result Status Resp -> HttpResponse;
  receive {Resp} `{ProstMessage Resp} : result string HttpResponse -> result Status Resp;
  client_ready_calls {W T} `{GrpcService W T} (t : T) (w : W) :
    client_ready (client_new t) w = poll_ready t w;
  client_unary_calls {W T Req Resp} `{GrpcService W T, ProstMessage Req, ProstMessage Resp}
      (t : T) (m : Req) path (w : W) :
    client_unary (Resp := Resp) (client_new t) m path w =
      (let* r := service_call t (MkHttpRequest path (encode_to_vec m)) in ret (receive r)) w;
  receive_ok {Resp} `{ProstMessage Resp} (resp : Resp) :
    nlen (encode_to_vec resp) <= default_decoding_limit ->
    receive (Ok (respond (Ok resp))) = Ok resp;
  receive_large {Resp} `{ProstMessage Resp} (resp : Resp) :
    default_decoding_limit < nlen (encode_to_vec resp) ->
    exists st, receive (Resp := Resp) (Ok (respond (Ok resp))) = Err st;
  receive_status {Resp} `{ProstMessage Resp} st : st_code st <> StatusOk ->
    receive (Resp := Resp) (Ok (respond (Resp := Resp) (Err st))) = Err st;
  receive_failure {Resp} `{ProstMessage Resp} e :
    exists st, receive (Resp := Resp) (Err e) = Err st;
  receive_unimplemented {Resp} `{ProstMessage Resp} r :
    (list_to_map (http_headers r) : gmap string string) !! "grpc-status" = Some "12" ->
    exists msg, receive (Resp := Resp) (Ok r) = Err (MkStatus Unimplemented msg);
  server_unary_calls {W Req Resp} `{ProstMessage Req, ProstMessage Resp}
      (method : Req -> M W (result Status Resp)) path body m (w : W) :
    nlen body <= default_decoding_limit -> decode body = Some m ->
    server_unary (apply_compression_config no_encodings no_encodings server_new) method
      (MkHttpRequest path body) w = (let* r := method m in ret (respond r)) w;
  server_unary_large {W Req Resp} `{ProstMessage Req, ProstMessage Resp}
      (method : Req -> M W (result Status Resp)) path body (w : W) :
    default_decoding_limit < nlen body ->
    exists msg, server_unary (apply_compression_config no_encodings no_encodings server_new) method
      (MkHttpRequest path body) w = (Done (respond (Resp := Resp) (Err (MkStatus OutOfRange msg))), w);
}.

(** The codecs of the six messages. *)
Class RaftMessages : Type := {
  #[global] prost_append_entries_request :: ProstMessage AppendEntriesRequest;
  #[global] prost_append_entries_response :: ProstMessage AppendEntriesResponse;
  #[global] prost_request_vote_request :: ProstMessage RequestVoteRequest;
  #[global] prost_request_vote_response :: ProstMessage RequestVoteResponse;
  #[global] prost_install_snapshot_request :: ProstMessage InstallSnapshotRequest;
  #[global] prost_install_snapshot_response :: ProstMessage InstallSnapshotResponse;
}.

(** ** The generated client *)

Section client.
Context `{Tonic} {T : Type}.

Record RaftServiceClient : Type := MkRaftServiceClient { client_inner : ClientGrpc T }.

Definition RaftServiceClient_new (inner : T) : RaftServiceClient :=
  MkRaftServiceClient (client_new inner).

Definition client_with_origin (inner : T) (origin : Uri) : RaftServiceClient :=
  MkRaftServiceClient (client_origin inner origin).

Definition client_send_compressed_with encoding (self : RaftServiceClient) : RaftServiceClient :=
  MkRaftServiceClient (client_send_compressed encoding (client_inner self)).
Definition client_accept_compressed_with encoding (self : RaftServiceClient) : RaftServiceClient :=
  MkRaftServiceClient (client_accept_compressed encoding (client_inner self)).
Definition client_max_decoding_message_size limit (self : RaftServiceClient) : RaftServiceClient :=
  MkRaftServiceClient (client_max_decoding limit (client_inner self)).
Definition client_max_encoding_message_size limit (self : RaftServiceClient) : RaftServiceClient :=
  MkRaftServiceClient (client_max_encoding limit (client_inner self)).

Context {W : Type} `{GS : GrpcService W T, RM : RaftMessages}.

(** The three calls differ in their path and types. *)
Definition unary_at {Req Resp} `{ProstMessage Req, ProstMessage Resp} (path : string)
    (self : RaftServiceClient) (request : Req) : M W (result Status Resp) :=
  let* r := client_ready (client_inner self) in
  match r with
  | Err e => ret (Err (MkStatus Unknown ("Service was not ready: " +:+ e)))
  | Ok _ => client_unary (client_inner self) request path
  end.

Definition client_append_entries (self : RaftServiceClient) (req : AppendEntriesRequest) :
    M W (result Status AppendEntriesResponse) :=
  unary_at "/raft.RaftService/AppendEntries" self req.
Definition client_request_vote (self : RaftServiceClient) (req : RequestVoteRequest) :
    M W (result Status RequestVoteResponse) :=
  unary_at "/raft.RaftService/RequestVote" self req.
Definition client_install_snapshot (self : RaftServiceClient) (req : InstallSnapshotRequest) :
    M W (result Status InstallSnapshotResponse) :=
  unary_at "/raft.RaftService/InstallSnapshot" self req.
End client.
Arguments RaftServiceClient {_} T.

(** [connect]: [Endpoint::new(dst)?.connect().await?] is the library's. *)
Definition client_connect `{Tonic} {W Channel D E : Type}
    (endpoint_connect : D -> M W (result E Channel)) (dst : D) :
    M W (result E (RaftServiceClient Channel)) :=
  let? conn := endpoint_connect dst in ret (Ok (RaftServiceClient_new conn)).

Definition client_with_interceptor `{Tonic} {T F : Type} (inner : T) (interceptor : F) :
    RaftServiceClient (InterceptedService T F) :=
  RaftServiceClient_new (intercepted_new inner interceptor).

(** ** The generated server *)

(** The trait [RaftService]. *)
Class RaftService (W T : Type) : Type := {
  append_entries : T -> AppendEntriesRequest -> M W (result Status AppendEntriesResponse);
  request_vote : T -> RequestVoteRequest -> M W (result Status RequestVoteResponse);
  install_snapshot : T -> InstallSnapshotRequest -> M W (result Status InstallSnapshotResponse);
}.

Section server.
Context `{Tonic} {T : Type}.

Record RaftServiceServer : Type := MkRaftServiceServer {
  server_inner : T;
  accept_compression_encodings : EnabledCompressionEncodings;
  send_compression_encodings : EnabledCompressionEncodings;
  max_decoding_message_size : option N;
  max_encoding_message_size : option N;
}.

Definition RaftServiceServer_from_arc (inner : T) : RaftServiceServer :=
  MkRaftServiceServer inner no_encodings no_encodings None None.

Definition RaftServiceServer_new (inner : T) : RaftServiceServer :=
  RaftServiceServer_from_arc inner.

Definition server_with_interceptor {F} (inner : T) (interceptor : F) :
    InterceptedService RaftServiceServer F :=
  intercepted_new (RaftServiceServer_new inner) interceptor.

(** [Clone]: the handlers are shared. *)
Definition server_clone (self : RaftServiceServer) : RaftServiceServer :=
  MkRaftServiceServer (server_inner self) (accept_compression_encodings self)
    (send_compression_encodings self) (max_decoding_message_size self)
    (max_encoding_message_size self).

Definition server_accept_compressed encoding (self : RaftServiceServer) : RaftServiceServer :=
  MkRaftServiceServer (server_inner self) (enable encoding (accept_compression_encodings self))
    (send_compression_encodings self) (max_decoding_message_size self) (max_encoding_message_size self).
Definition server_send_compressed encoding (self : RaftServiceServer) : RaftServiceServer :=
  MkRaftServiceServer (server_inner self) (accept_compression_encodings self)
    (enable encoding (send_compression_encodings self)) (max_decoding_message_size self)
    (max_encoding_message_size self).
Definition server_max_decoding_message_size limit (self : RaftServiceServer) : RaftServiceServer :=
  MkRaftServiceServer (server_inner self) (accept_compression_encodings self)
    (send_compression_encodings self) (Some limit) (max_encoding_message_size self).
Definition server_max_encoding_message_size limit (self : RaftServiceServer) : RaftServiceServer :=
  MkRaftServiceServer (server_inner self) (accept_compression_encodings self)
    (send_compression_encodings self) (max_decoding_message_size self) (Some limit).

Definition NAME : string := "raft.RaftService".

Context {W : Type} `{SV : RaftService W T, RM : RaftMessages}.

(** The body of an arm of [call]: the three differ in the method. *)
Definition serve {Req Resp} `{ProstMessage Req, ProstMessage Resp} (self : RaftServiceServer)
    (method : T -> Req -> M W (result Status Resp)) (req : HttpRequest) : M W HttpResponse :=
  let grpc := apply_compression_config (accept_compression_encodings self)
                (send_compression_encodings self) server_new in
  let grpc := match max_decoding_message_size self with
              | Some limit => server_max_decoding limit grpc
              | None => grpc
              end in
  let grpc := match max_encoding_message_size self with
              | Some limit => server_max_encoding limit grpc
              | None => grpc
              end in
  server_unary grpc (method (server_inner self)) req.

Definition unimplemented : HttpResponse :=
  MkHttpResponse 200 [("grpc-status", "12"); ("content-type", "application/grpc")] [].

Definition server_call (self : RaftServiceServer) (req : HttpRequest) : M W HttpResponse :=
  if String.eqb (uri_path req) "/raft.RaftService/AppendEntries" then serve self append_entries req
  else if String.eqb (uri_path req) "/raft.RaftService/RequestVote" then serve self request_vote req
  else if String.eqb (uri_path req) "/raft.RaftService/InstallSnapshot" then
    serve self install_snapshot req
  else ret unimplemented.
End server.
Arguments RaftServiceServer {_} T.

(** ** A node's handlers behind it (server.rs) *)

Record RaftServiceImpl (H : Type) : Type := MkRaftServiceImpl { handler : H }.
Arguments MkRaftServiceImpl {H}.
Arguments handler {H}.

#[export] Instance RaftService_for_impl {W H} `{RaftMessageHandler W H} :
    RaftService W (RaftServiceImpl H) := {|
  append_entries := fun self request => server_append_entries (handler self) request;
  request_vote := fun self request => server_request_vote (handler self) request;
  install_snapshot := fun self request => server_install_snapshot (handler self) request;
|}.

Definition RaftGrpcServer_new `{Tonic} {H} (h : H) : RaftServiceServer (RaftServiceImpl H) :=
  RaftServiceServer_new (MkRaftServiceImpl h).

(** ** A call over a channel *)

Section calls.
Context `{TN : Tonic, TL : !TonicLaws, RM : RaftMessages}.
Context {W Hd Channel : Type} `{MH : RaftMessageHandler W Hd}.
Context (status_to_string : Status -> string).
Implicit Types (ch : Channel) (h : Hd) (w : W).

(** The pool of [Network] over the generated client. *)
Definition RaftGrpcTransport (net : GrpcService W Channel) (pool : RaftGrpcClient) :
    NetworkTransport W :=
  GrpcTransport status_to_string
    (fun ch => client_append_entries (RaftServiceClient_new ch))
    (fun ch => client_request_vote (RaftServiceClient_new ch))
    (fun ch => client_install_snapshot (RaftServiceClient_new ch)) pool.

(** A network between a channel and the server of [h]: it may fail before the
    request arrives, or after, and invents nothing; a handler that panics
    gives no answer. *)
Definition delivers (net : GrpcService W Channel) ch h : Prop :=
  (forall w, exists r, poll_ready ch w = (Done r, w)) /\
  forall hr w,
    (exists e, service_call ch hr w = (Done (Err e), w)) \/
    exists r, service_call ch hr w = (Done r, (server_call (RaftGrpcServer_new h) hr w).2) /\
      match r with
      | Ok resp => (server_call (RaftGrpcServer_new h) hr w).1 = Done resp
      | Err _ => True
      end.

(** One that does not fail. *)
Definition connected (net : GrpcService W Channel) ch h : Prop :=
  (forall w, poll_ready ch w = (Done (Ok tt), w)) /\
  forall hr w, exists r,
    service_call ch hr w = (Done r, (server_call (RaftGrpcServer_new h) hr w).2) /\
    match (server_call (RaftGrpcServer_new h) hr w).1 with
    | Done resp => r = Ok resp
    | Panicked => is_ok r = false
    end.

Definition routes {Req Resp} `{ProstMessage Req, ProstMessage Resp} (path : string)
    (method : RaftServiceImpl Hd -> Req -> M W (result Status Resp)) : Prop :=
  forall hr (self : RaftServiceServer (RaftServiceImpl Hd)), uri_path hr = path ->
    server_call self hr = serve self method hr.

(** What a method does to the world and answers, from the handler's result. *)
Definition answers {Req Resp} (method : RaftServiceImpl Hd -> Req -> M W (result Status Resp))
    (run : Hd -> Req -> M W (raft_result Resp)) : Prop :=
  forall h req, method (MkRaftServiceImpl h) req = (let* r := run h req in ret (into_status r)).

Section rpc.
Context {Req Resp} `{ProstMessage Req, ProstMessage Resp} (path : string)
  (method : RaftServiceImpl Hd -> Req -> M W (result Status Resp))
  (run : Hd -> Req -> M W (raft_result Resp)).
Hypotheses (Hroute : routes path method) (Hanswer : answers method run).

Definition send net pool target (req : Req) : M W (raft_result Resp) :=
  send_with status_to_string (fun ch => unary_at (GS := net) path (RaftServiceClient_new ch))
    pool target req.

Lemma served_call h (req : Req) w :
  nlen (encode_to_vec req) <= default_decoding_limit ->
  server_call (RaftGrpcServer_new h) (MkHttpRequest path (encode_to_vec req)) w =
    (let* r := run h req in ret (respond (into_status r))) w.
Proof.
  intros Hle. rewrite (Hroute (MkHttpRequest path (encode_to_vec req))) by done. unfold serve. cbn.
  rewrite (server_unary_calls _ _ _ req) by (done || apply decode_encode).
  rewrite Hanswer. unfold bind, ret. by destruct (run h req w) as [[r|] w'].
Qed.

Lemma refused_call h (req : Req) w :
  default_decoding_limit < nlen (encode_to_vec req) ->
  exists st, st_code st <> StatusOk /\
    server_call (RaftGrpcServer_new h) (MkHttpRequest path (encode_to_vec req)) w =
    (Done (respond (Resp := Resp) (Err st)), w).
Proof.
  intros Hlt. rewrite (Hroute (MkHttpRequest path (encode_to_vec req))) by done. unfold serve. cbn.
  destruct (server_unary_large (method (MkRaftServiceImpl h)) path _ w Hlt) as (msg & ->).
  by exists (MkStatus OutOfRange msg).
Qed.

(** The client's side: one request, and what it reads of the answer. *)
Lemma unary_run net ch (req : Req) w :
  unary_at (GS := net) (Resp := Resp) path (RaftServiceClient_new ch) req w =
    match poll_ready ch w with
    | (Done (Ok _), w') =>
        (let* r := service_call ch (MkHttpRequest path (encode_to_vec req)) in ret (receive r)) w'
    | (Done (Err e), w') => (Done (Err (MkStatus Unknown ("Service was not ready: " +:+ e))), w')
    | (Panicked, w') => (Panicked, w')
    end.
Proof.
  unfold unary_at. unfold bind at 1. cbn [client_inner RaftServiceClient_new].
  rewrite client_ready_calls. destruct (poll_ready ch w) as [[[u|e]|] w']; [|done|done].
  apply client_unary_calls.
Qed.

Lemma send_run net pool target ch (req : Req) w :
  pool !! target = Some ch ->
  send net pool target req w =
    match poll_ready ch w with
    | (Done (Ok _), w1) =>
        match service_call ch (MkHttpRequest path (encode_to_vec req)) w1 with
        | (Done r, w2) =>
            (Done (map_err (fun e => Network (status_to_string e)) (receive (Resp := Resp) r)), w2)
        | (Panicked, w2) => (Panicked, w2)
        end
    | (Done (Err e), w1) =>
        (Done (Err (Network (status_to_string (MkStatus Unknown ("Service was not ready: " +:+ e))))), w1)
    | (Panicked, w1) => (Panicked, w1)
    end.
Proof.
  intros Hch. unfold send, send_with, client. rewrite Hch. unfold bind at 1. rewrite unary_run.
  destruct (poll_ready ch w) as [[[u|e]|] w']; [|done|done]. unfold bind, ret.
  by destruct (service_call ch _ w') as [[r|] w2].
Qed.

(** Over a network that may fail: the handler runs once or not at all, and only
    what it answered is answered. *)
Lemma send_delivered net pool target ch h (req : Req) w :
  pool !! target = Some ch -> delivers net ch h ->
  exists o, (send net pool target req w = (Done o, w) /\ is_ok o = false) \/
    (send net pool target req w = (Done o, (run h req w).2) /\
     match o with Ok resp => (run h req w).1 = Done (Ok resp) | Err _ => True end).
Proof.
  intros Hch [Hready Hnet]. rewrite (send_run net pool target ch) by done.
  destruct (Hready w) as [[u|e] ->]; [|by eexists; left]. destruct (Hnet (MkHttpRequest path (encode_to_vec req)) w)
    as [(e & ->)|(r & -> & Hr)].
  { destruct (receive_failure (Resp := Resp) e) as (st & ->). by eexists; left. }
  destruct (N.le_gt_cases (nlen (encode_to_vec req)) default_decoding_limit) as [Hle|Hgt].
  - rewrite served_call in * by done. unfold bind, ret in *.
    destruct (run h req w) as [[x|] w'] eqn:Hrun; cbn [fst snd] in *; eexists; right; (split; [done|]).
    2: { destruct r as [resp|e]; [done|]. by destruct (receive_failure (Resp := Resp) e) as (st & ->). }
    destruct r as [resp|e].
    2: { destruct (receive_failure (Resp := Resp) e) as (st & ->). done. }
    injection Hr as <-. destruct x as [a|e]; cbn [into_status map_err]; [|by rewrite receive_status].
    destruct (N.le_gt_cases (nlen (encode_to_vec a)) default_decoding_limit);
      [by rewrite receive_ok|].
    by destruct (receive_large a) as (st & ->).
  - destruct (refused_call h req w Hgt) as (st & Hst & Heq). rewrite Heq. rewrite Heq in Hr. cbn [fst snd] in *.
    eexists; left; (split; [done|]). destruct r as [resp|e].
    + injection Hr as <-. by rewrite receive_status.
    + by destruct (receive_failure (Resp := Resp) e) as (st' & ->).
Qed.

(** Over one that does not: the handler's own answer. *)
Lemma send_connected net pool target ch h (req : Req) r w w' :
  pool !! target = Some ch -> connected net ch h ->
  nlen (encode_to_vec req) <= default_decoding_limit ->
  run h req w = (Done r, w') ->
  (forall resp, r = Ok resp -> nlen (encode_to_vec resp) <= default_decoding_limit) ->
  send net pool target req w =
    (Done (map_err (fun e => Network (status_to_string e)) (into_status r)), w').
Proof.
  intros Hch [Hready Hnet] Hle Hrun Hresp. rewrite (send_run net pool target ch), Hready by done.
  destruct (Hnet (MkHttpRequest path (encode_to_vec req)) w) as (x & -> & Hx).
  rewrite served_call in * by done. unfold bind, ret in *. rewrite Hrun in *. cbn [fst snd] in *.
  subst x. destruct r as [resp|e]; cbn [into_status map_err].
  - by rewrite receive_ok by auto.
  - by rewrite receive_status.
Qed.

(** A request above the limit: refused whatever the network does. *)
Lemma send_oversized net pool target ch h (req : Req) w :
  pool !! target = Some ch -> delivers net ch h ->
  default_decoding_limit < nlen (encode_to_vec req) ->
  exists e, send net pool target req w = (Done (Err e), w).
Proof.
  intros Hch [Hready Hnet] Hgt. rewrite (send_run net pool target ch) by done.
  destruct (Hready w) as [[u|e] ->]; [|by eexists]. destruct (refused_call h req w Hgt) as (st & Hst & Heq).
  destruct (Hnet (MkHttpRequest path (encode_to_vec req)) w) as [(e & ->)|(r & -> & Hr)].
  { destruct (receive_failure (Resp := Resp) e) as (st' & ->). by eexists. }
  rewrite Heq. rewrite Heq in Hr. cbn [fst snd] in *. destruct r as [resp|e].
  - injection Hr as <-. rewrite receive_status by done. by eexists.
  - destruct (receive_failure (Resp := Resp) e) as (st' & ->). by eexists.
Qed.
End rpc.

(** The three paths lead to the three handlers. *)
Lemma append_routes : routes "/raft.RaftService/AppendEntries" append_entries.
Proof. by intros [p b] self [= ->]. Qed.
Lemma vote_routes : routes "/raft.RaftService/RequestVote" request_vote.
Proof. by intros [p b] self [= ->]. Qed.
Lemma snapshot_routes : routes "/raft.RaftService/InstallSnapshot" install_snapshot.
Proof. by intros [p b] self [= ->]. Qed.
Lemma append_answers : answers append_entries handle_append_entries.
Proof. done. Qed.
Lemma vote_answers : answers request_vote handle_request_vote.
Proof. done. Qed.
Lemma snapshot_answers : answers install_snapshot handle_install_snapshot.
Proof. done. Qed.

(** [send] answers what the handler does, an error as a network error with the
    text of its status. *)
Definition calls_handler {Req Resp} `{ProstMessage Req, ProstMessage Resp}
    (send : NodeId -> Req -> M W (raft_result Resp)) (target : NodeId)
    (run : Req -> M W (raft_result Resp)) : Prop :=
  forall req r w w', nlen (encode_to_vec req) <= default_decoding_limit ->
    run req w = (Done r, w') ->
    (forall resp, r = Ok resp -> nlen (encode_to_vec resp) <= default_decoding_limit) ->
    send target req w =
      (Done (map_err (fun e => Network (status_to_string (MkStatus Internal (RaftError_to_string e)))) r), w').

Lemma into_status_err {A} (r : raft_result A) :
  map_err (fun e => Network (status_to_string e)) (into_status r) =
    map_err (fun e => Network (status_to_string (MkStatus Internal (RaftError_to_string e)))) r.
Proof. by destruct r. Qed.

(** C24. The gRPC transport calls the handler: over a channel that is connected
    to a node's server, each of the three sends of the client pool, through the
    generated client, the path it writes, the routing of the generated server
    and the service around the handler, has the effect and the answer of that
    handler alone, with its errors turned into network errors, for requests and
    answers up to tonic's limit. *)
Theorem grpc_calls_handler net pool target ch h
    (Hch : pool !! target = Some ch) (Hnet : connected net ch h) :
  let send_to := RaftGrpcTransport net pool in
  calls_handler (send_append_entries (NetworkTransport := send_to)) target (handle_append_entries h) /\
  calls_handler (send_request_vote (NetworkTransport := send_to)) target (handle_request_vote h) /\
  calls_handler (send_install_snapshot (NetworkTransport := send_to)) target (handle_install_snapshot h).
Proof.
  split; [|split]; intros req r w w' Hle Hrun Hresp; rewrite <- into_status_err.
  - by apply (send_connected _ _ _ append_routes append_answers net pool target ch h).
  - by apply (send_connected _ _ _ vote_routes vote_answers net pool target ch h).
  - by apply (send_connected _ _ _ snapshot_routes snapshot_answers net pool target ch h).
Qed.

(** A request of another path runs no handler. *)
Lemma other_paths_refused (self : RaftServiceServer (RaftServiceImpl Hd)) hr w :
  uri_path hr ∉ ["/raft.RaftService/AppendEntries"; "/raft.RaftService/RequestVote";
                 "/raft.RaftService/InstallSnapshot"] ->
  server_call self hr w = (Done unimplemented, w) /\
  forall Resp (H : ProstMessage Resp), exists msg,
    receive (Resp := Resp) (Ok unimplemented) = Err (MkStatus Unimplemented msg).
Proof.
  intros Hp. split; [|intros Resp H; by apply receive_unimplemented].
  unfold server_call. rewrite !not_elem_of_cons in Hp. destruct Hp as (H1 & H2 & H3 & _).
  rewrite !(proj2 (String.eqb_neq _ _)) by done. done.
Qed.
End calls.

(** ** What is too large *)

(** protobuf writes the bytes of a field as they are. *)
Class BytesVerbatim `{RaftMessages} : Prop := {
  snapshot_verbatim req : nlen (is_data req) <= nlen (encode_to_vec req);
  entries_verbatim req e : e ∈ ae_entries req -> nlen (pe_data e) <= nlen (encode_to_vec req);
}.

Section oversized.
Context {prof : BuildProfile} {St : Type} `{HS : Storage St, HL : !LogStorage St}.
Context `{TN : Tonic, TL : !TonicLaws, RM : RaftMessages, BV : !BytesVerbatim}.
Context {W Hd Channel : Type} `{MH : RaftMessageHandler W Hd}.
Context (status_to_string : Status -> string).
Implicit Types (n : RaftNodeInner St) (e : Effect).

(** What a leader would have to send next does not fit in a message. *)
Definition next_too_large n (next : LogIndex) : Prop :=
  (next <= lv_base (log n) /\ exists sn, lv_snapshot (log n) = Some sn /\
     default_decoding_limit < nlen (snap_data sn)) \/
  (lv_base (log n) < next <= lv_last (log n) /\ exists x, lv_log (log n) !! next = Some x /\
     default_decoding_limit < nlen (le_data x)).

(** A request that starts with the entry at [next] carries it. *)
Lemma first_sent v next req x :
  sent_from v next req -> next <= lv_last v -> lv_log v !! next = Some x ->
  exists pe, pe ∈ ae_entries req /\ pe_data pe = le_data x.
Proof.
  intros [_ _ Hpre Hne] Hle Hx. specialize (Hne Hle). unfold new_entries in *.
  destruct (ae_entries req) as [|pe pes]; [done|]. exists pe. split; [left|].
  destruct (N.to_nat (lv_last v + 1 - next)) as [|k] eqn:Hk; [lia|].
  cbn [log_range] in Hpre. rewrite Hx in Hpre. cbn [map] in Hpre.
  by apply prefix_cons_inv_1 in Hpre as <-.
Qed.

(** C25. What does not fit in one message is never sent again in smaller ones: a
    leader that is to send a peer a snapshot of more than 4 MiB, or an entry
    with more than 4 MiB of data, sends exactly one message, which carries it
    whole; the peer's server refuses it however the network behaves, so that no
    handler runs and no answer is posted; and the leader's state is what it
    was, so that the next heartbeat does the same, and neither the entry nor
    any after it ever reaches the peer. *)
Theorem oversized_blocks_peer n peer p (net : GrpcService W Channel) pool (ch : Channel) (h : Hd) (Hn : log_ok n)
    (Hp : progress (sm n) !! peer = Some p) (H1 : 1 <= next_index p) (Hu : u64 (next_index p))
    (Hm : u64 (max_append_entries (config n) * 4096))
    (Hlarge : next_too_large n (next_index p))
    (Hch : pool !! peer = Some ch) (Hnet : delivers net ch h) :
  exists e n', replicate_to peer n = (Done tt, n') /\
    effects n' = effects n ++ [e] /\ sm n' = sm n /\ storage n' = storage n /\
    forall w : W, run_task (H := RaftGrpcTransport status_to_string net pool) e w = (Done None, w).
Proof.
  destruct (replicate_to_run n peer p Hn Hp H1 Hu Hm) as (e & Hr & He). exists e, (set_effects (effects n ++ [e]) n).
  do 4 (split; [done|]). intros w. unfold replication in He.
  destruct Hlarge as [[Hle (sn & Hsn & Hlt)]|[[Hlt Hle] (x & Hx & Hxl)]].
  - rewrite (proj2 (N.ltb_lt _ _)) in He by lia. destruct He as (sn' & Hsn' & ->).
    assert (sn' = sn) as -> by congruence. cbn [run_task].
    set (req := snapshot_request _ _ sn). pose proof (snapshot_verbatim req).
    destruct (send_oversized status_to_string _ _ snapshot_routes net pool peer ch h req w Hch Hnet)
      as (err & Hs); [unfold req in *; cbn in *; lia|].
    unfold bind. change (send_install_snapshot peer req w) with
      (send status_to_string (Resp := InstallSnapshotResponse) "/raft.RaftService/InstallSnapshot" net pool peer req w). by rewrite Hs.
  - rewrite (proj2 (N.ltb_ge _ _)) in He by lia. destruct He as (req & -> & _ & _ & _ & Hsent).
    destruct (first_sent _ _ _ x Hsent Hle Hx) as (pe & Hin & Hpe). cbn [run_task].
    pose proof (entries_verbatim req pe Hin).
    destruct (send_oversized status_to_string _ _ append_routes net pool peer ch h req w Hch Hnet)
      as (err & Hs); [rewrite Hpe in *; lia|].
    unfold bind. change (send_append_entries peer req w) with
      (send status_to_string (Resp := AppendEntriesResponse) "/raft.RaftService/AppendEntries" net pool peer req w). by rewrite Hs.
Qed.
End oversized.

(** ** The transport as the network of a cluster *)

Section cluster.
Context {prof : BuildProfile} {St : Type}
  `{HS : Storage St, HL : !LogStorage St, HD : !DurableStorage St}.
Context `{TN : Tonic, TL : !TonicLaws, RM : RaftMessages} {Channel : Type}.
Context (status_to_string : Status -> string).
Implicit Types (w : World St) (n : RaftNodeInner St) (ns : gmap NodeId (RaftNodeInner St)).

(** A network and a pool that lead to the nodes' own servers. *)
Definition leads_to_nodes (net : GrpcService (gmap NodeId (RaftNodeInner St)) Channel)
    (pool : RaftGrpcClient) : Prop :=
  forall peer ch, pool !! peer = Some ch -> delivers net ch (peer : NodeRef).

(** Nodes whose tasks run over gRPC, each time with whatever the network does. *)
Inductive grpc_step (fresh : RaftNodeInner St -> Input -> Prop) : World St -> World St -> Prop :=
| gs_own w id n i :
    replicas w !! id = Some n -> own_input i -> takes n i ->
    grpc_step fresh w (MkWorld (<[id := (handle i n).2]> (replicas w)) (inbox w))
| gs_task w src m e o ns net pool :
    replicas w !! src = Some m -> e ∈ effects m -> leads_to_nodes net pool ->
    (forall peer i n, request_of e = Some (peer, i) -> replicas w !! peer = Some n -> fresh n i) ->
    run_task (H := RaftGrpcTransport status_to_string net pool) e (replicas w) = (Done o, ns) ->
    grpc_step fresh w (MkWorld ns (inbox w ++ option_list (pair src <$> o)))
| gs_answer w id msg n :
    (id, msg) ∈ inbox w -> replicas w !! id = Some n -> fresh n (InMessage msg) ->
    grpc_step fresh w
      (MkWorld (<[id := (handle (InMessage msg) n).2]> (replicas w)) (inbox w)).

Inductive grpc_steps fresh : World St -> World St -> Prop :=
| gss_refl w : grpc_steps fresh w w
| gss_step w1 w2 w3 : grpc_steps fresh w1 w2 -> grpc_step fresh w2 w3 -> grpc_steps fresh w1 w3.

(** A task over gRPC does what it does in [Ensemble], but may lose the answer, or
    does nothing. *)
Lemma grpc_task (net : GrpcService _ Channel) pool e ns o ns' :
  leads_to_nodes net pool ->
  run_task (H := RaftGrpcTransport status_to_string net pool) e ns = (Done o, ns') ->
  (o = None /\ ns' = ns) \/
  exists o', run_task (H := ClusterTransport) e ns = (Done o', ns') /\ (o = None \/ o = o').
Proof.
  intros Hpool.
  assert (forall Req Resp (H : ProstMessage Req) (H0 : ProstMessage Resp) path method
      (run : NodeRef -> Req -> M (RaftNodeInner St) (raft_result Resp)) peer req (k : Resp -> RaftMessage),
    routes path method -> answers method (fun h req => locked h (run h req)) ->
    bind (send status_to_string path net pool peer req)
      (fun r => ret (match r with Ok a => Some (k a) | Err _ => None end)) ns = (Done o, ns') ->
    (o = None /\ ns' = ns) \/
    exists o', bind (call peer (run peer req))
      (fun r => ret (match r with Ok a => Some (k a) | Err _ => None end)) ns = (Done o', ns') /\
      (o = None \/ o = o')) as Hall.
  { intros Req Resp H H0 path method run peer req k Hroute Hans. unfold bind.
    destruct (pool !! peer) as [ch|] eqn:Hch.
    2: { unfold send, send_with, client. rewrite Hch. intros [= <- <-]. by left. }
    destruct (send_delivered status_to_string path method _ Hroute Hans net pool peer ch peer req ns Hch
                (Hpool peer ch Hch)) as (x & [[-> Hx]|[-> Hx]]); cbn [ret]; intros [= <- <-].
    { destruct x; [done|by left]. }
    unfold locked, call in *. destruct (ns !! peer) as [n|] eqn:Hns; cbn [fst snd] in *.
    2: { left. by destruct x. }
    right. destruct x as [a|err]; [rewrite Hx; eexists; split; [done|by right]|].
    destruct (run peer req n).1; eexists; (split; [done|by left]). }
  destruct e as [peer req|peer req li|peer req li| | | | | | |]; cbn [run_task];
    try (intros [= <- <-]; by left).
  - by apply (Hall _ _ _ _ "/raft.RaftService/RequestVote" request_vote (fun _ => on_request_vote) peer req
      (VoteResponse peer)); [apply vote_routes|].
  - by apply (Hall _ _ _ _ "/raft.RaftService/AppendEntries" append_entries (fun _ => on_append_entries) peer req
      (AppendResponse peer li)); [apply append_routes|].
  - by apply (Hall _ _ _ _ "/raft.RaftService/InstallSnapshot" install_snapshot (fun _ => on_install_snapshot)
      peer req (SnapshotResponse peer li)); [apply snapshot_routes|].
Qed.

Lemma grpc_step_refines fresh w w' box :
  grpc_step fresh w w' -> inbox w ⊆ box ->
  exists box', inbox w' ⊆ box' /\
    world_steps fresh (MkWorld (replicas w) box) (MkWorld (replicas w') box').
Proof.
  intros Hs Hbox.
  destruct Hs as [w id n i Hn Hi Ht|w src m e o ns net pool Hm He Hpool Hf Hrun|w id msg n Hin Hn Hf].
  - exists box. split; [done|]. eapply wss_step; [constructor|]. by apply (ws_own _ (MkWorld _ _)).
  - destruct (grpc_task net pool e _ o ns Hpool Hrun) as [[-> ->]|(o' & Hc & Ho)].
    { exists box. cbn. rewrite app_nil_r. split; [done|constructor]. }
    exists (box ++ option_list (pair src <$> o')). split.
    + cbn. destruct Ho as [->| ->]; [rewrite app_nil_r; by apply list_subseteq_app_l|].
      intros x. rewrite !elem_of_app. intros [?|?]; [left; by apply Hbox|by right].
    + eapply wss_step; [constructor|]. by eapply (ws_task _ (MkWorld _ _)).
  - exists box. split; [done|]. eapply wss_step; [constructor|].
    apply (ws_answer _ (MkWorld _ _) id msg n); [by apply Hbox|done|done].
Qed.

(** C23. The gRPC transport is the network of the whole cluster: nodes whose tasks
    call their peers through the client pool, the generated client and server
    and the service around the handlers, over a network that may fail before or
    after a request arrives, only have executions of the cluster of [Ensemble]
    (in which answers may stay untaken), whatever is too large for a message
    included. So what is proved of the cluster's nodes holds of them. *)
Theorem grpc_refines_world fresh w w' box (Hs : grpc_steps fresh w w') (Hbox : inbox w ⊆ box) :
  exists box', inbox w' ⊆ box' /\
    world_steps fresh (MkWorld (replicas w) box) (MkWorld (replicas w') box').
Proof.
  induction Hs as [w|w1 w2 w3 _ IH Hst]; [exists box; split; [done|constructor]|].
  destruct (IH Hbox) as (box2 & Hb2 & Hs2).
  destruct (grpc_step_refines fresh w2 w3 box2 Hst Hb2) as (box3 & Hb3 & Hs3).
  exists box3. split; [done|]. by eapply world_steps_trans.
Qed.
End cluster.
