(* ===== verification/PlainWire.v ===== *)
(** * A concrete gRPC library

    An instance of what [Grpc] asks of the library, simple enough to run: a codec
    for the messages, clients and servers with their limits, and a network that
    calls the peer's server. The theorems of [Grpc] apply to it. *)

From Stdlib Require Import Lia Init.Byte String.
From stdpp Require Import base numbers list option gmap sets fin_maps strings pretty.
From S2P Require Import Prelude.
From S2P Require Import Core.
From S2P Require Import Proto.
From S2P Require Import Storage.
From S2P Require Import MemStorage.
From S2P Require Import StateMachine.
From S2P Require Import Node.
From S2P Require Import Handlers.
From S2P Require Import Votes.
From S2P Require Import NodeLog.
From S2P Require Import Cluster.
From S2P Require Import RequestVote.
From S2P Require Import AppendEntries.
From S2P Require Import Replication.
From S2P Require Import Network.
From S2P Require Import LogSteps.
From S2P Require Import Ensemble.
From S2P Require Import Grpc.

(** ** Codecs that can be put one after the other *)

Class Wire (A : Type) : Type := {
  put : A -> bytes;
  get : bytes -> option (A * bytes);
  get_put a r : get (put a ++ r) = Some (a, r);
}.

#[export] Instance wire_byte : Wire byte.
Proof.
  refine (Build_Wire byte (fun b => [b])
            (fun s => match s with b :: r => Some (b, r) | [] => None end) _).
  done.
Defined.

#[export] Instance wire_bool : Wire bool.
Proof.
  refine (Build_Wire bool (fun b => [if b then x01 else x00])
            (fun s => match s with x01 :: r => Some (true, r) | x00 :: r => Some (false, r) | _ => None end) _).
  by intros [] r.
Defined.

(** Binary digits, and a last byte. *)
Fixpoint put_pos (p : positive) : bytes :=
  match p with
  | xI p => x01 :: put_pos p
  | xO p => x00 :: put_pos p
  | xH => [x02]
  end.

Fixpoint get_pos (s : bytes) : option (positive * bytes) :=
  match s with
  | x01 :: s => '(p, r) ← get_pos s; Some (xI p, r)
  | x00 :: s => '(p, r) ← get_pos s; Some (xO p, r)
  | x02 :: r => Some (xH, r)
  | _ => None
  end.

#[export] Instance wire_N : Wire N.
Proof.
  refine (Build_Wire N (fun n => match n with N0 => [x03] | Npos p => put_pos p end)
            (fun s => match s with
                      | x03 :: r => Some (0, r)
                      | s => '(p, r) ← get_pos s; Some (Npos p, r)
                      end) _).
  intros [|p] r; [done|]. assert (get_pos (put_pos p ++ r) = Some (p, r)) as Hp.
  { induction p as [p IH|p IH|]; cbn; rewrite ?IH; done. }
  destruct p; cbn in *; by rewrite ?Hp.
Defined.

#[export] Instance wire_pair {A B} `{Wire A, Wire B} : Wire (A * B).
Proof.
  refine (Build_Wire (A * B) (fun x => put x.1 ++ put x.2)
            (fun s => '(a, s) ← get s; '(b, s) ← get s; Some ((a, b), s)) _).
  intros [a b] r. cbn. rewrite <- app_assoc, get_put. cbn. by rewrite get_put.
Defined.

(** Elements, each after a byte, and a last byte. *)
Fixpoint put_list {A} `{Wire A} (l : list A) : bytes :=
  match l with [] => [x00] | a :: l => x01 :: put a ++ put_list l end.

Fixpoint get_list {A} `{Wire A} (fuel : nat) (s : bytes) : option (list A * bytes) :=
  match fuel, s with
  | S fuel, x01 :: s => '(a, s) ← get s; '(l, s) ← get_list fuel s; Some (a :: l, s)
  | S _, x00 :: s => Some ([], s)
  | _, _ => None
  end.

Lemma get_put_list {A} `{Wire A} (l : list A) fuel r :
  (length l < fuel)%nat -> get_list fuel (put_list l ++ r) = Some (l, r).
Proof.
  revert fuel. induction l as [|a l IH]; intros [|fuel] Hf; cbn in *; try lia; [done|].
  rewrite <- app_assoc, get_put. cbn. rewrite IH by lia. done.
Qed.

Lemma put_list_length {A} `{Wire A} (l : list A) : (length l < length (put_list l))%nat.
Proof. induction l; cbn; [lia|]. rewrite length_app. lia. Qed.

Lemma put_list_elem {A} `{Wire A} (l : list A) a :
  a ∈ l -> (length (put a) <= length (put_list l))%nat.
Proof. induction 1; cbn; rewrite length_app; lia. Qed.

#[export] Instance wire_list {A} `{Wire A} : Wire (list A).
Proof.
  refine (Build_Wire (list A) put_list (fun s => get_list (length s) s) _).
  intros l r. apply get_put_list. rewrite length_app. pose proof (put_list_length l). lia.
Defined.

(** A type that is another one. *)
Definition wire_via {A B} `{Wire B} (f : A -> B) (g : B -> A) (Hgf : forall a, g (f a) = a) : Wire A.
Proof.
  refine (Build_Wire A (fun a => put (f a)) (fun s => '(b, s) ← get s; Some (g b, s)) _).
  intros a r. rewrite get_put. cbn. by rewrite Hgf.
Defined.

#[export] Instance wire_Z : Wire Z.
Proof.
  refine (wire_via (fun z : Z => (bool_decide (z < 0)%Z, Z.abs_N z))
            (fun x : bool * N => if x.1 then (- Z.of_N x.2)%Z else Z.of_N x.2) _).
  intros z. cbn. case_bool_decide; lia.
Defined.

(** ** The messages *)

#[export] Instance wire_entry : Wire ProtoEntry.
Proof.
  refine (wire_via (fun e => (pe_term e, pe_index e, pe_data e, pe_entry_type e))
            (fun '(t, i, d, ty) => MkProtoEntry t i d ty) _). by intros [].
Defined.
#[export] Instance wire_append_request : Wire AppendEntriesRequest.
Proof.
  refine (wire_via (fun r => (ae_term r, ae_leader_id r, ae_prev_log_index r, ae_prev_log_term r,
                              ae_entries r, ae_leader_commit r))
            (fun '(t, l, pi, pt, es, c) => MkAppendEntriesRequest t l pi pt es c) _). by intros [].
Defined.
#[export] Instance wire_append_response : Wire AppendEntriesResponse.
Proof.
  refine (wire_via (fun r => (aer_term r, aer_success r, aer_conflict_index r, aer_conflict_term r))
            (fun '(t, s, i, ct) => MkAppendEntriesResponse t s i ct) _). by intros [].
Defined.
#[export] Instance wire_vote_request : Wire RequestVoteRequest.
Proof.
  refine (wire_via (fun r => (rv_term r, rv_candidate_id r, rv_last_log_index r, rv_last_log_term r,
                              rv_pre_vote r))
            (fun '(t, c, i, lt, p) => MkRequestVoteRequest t c i lt p) _). by intros [].
Defined.
#[export] Instance wire_vote_response : Wire RequestVoteResponse.
Proof.
  refine (wire_via (fun r => (rvr_term r, rvr_vote_granted r))
            (fun '(t, g) => MkRequestVoteResponse t g) _). by intros [].
Defined.
#[export] Instance wire_snapshot_request : Wire InstallSnapshotRequest.
Proof.
  refine (wire_via (fun r => (is_term r, is_leader_id r, is_last_included_index r,
                              is_last_included_term r, is_offset r, is_data r, is_done r))
            (fun '(t, l, i, lt, o, d, dn) => MkInstallSnapshotRequest t l i lt o d dn) _).
  by intros [].
Defined.
#[export] Instance wire_snapshot_response : Wire InstallSnapshotResponse.
Proof. refine (wire_via isr_term MkInstallSnapshotResponse _). by intros []. Defined.

Definition prost_of_wire {A} `{Wire A} : ProstMessage A.
Proof.
  refine (Build_ProstMessage A put (fun s => fst <$> get s) _).
  intros m. rewrite <- (app_nil_r (put m)), get_put. done.
Defined.

Definition PlainMessages : RaftMessages := {|
  prost_append_entries_request := prost_of_wire;
  prost_append_entries_response := prost_of_wire;
  prost_request_vote_request := prost_of_wire;
  prost_request_vote_response := prost_of_wire;
  prost_install_snapshot_request := prost_of_wire;
  prost_install_snapshot_response := prost_of_wire;
|}.

(** ** Clients and servers *)

Definition status_names : list (StatusCode * string) :=
  [(StatusOk, "0"); (Cancelled, "1"); (Unknown, "2"); (InvalidArgument, "3"); (DeadlineExceeded, "4");
   (NotFound, "5"); (AlreadyExists, "6"); (PermissionDenied, "7"); (ResourceExhausted, "8");
   (FailedPrecondition, "9"); (Aborted, "10"); (OutOfRange, "11"); (Unimplemented, "12");
   (Internal, "13"); (Unavailable, "14"); (DataLoss, "15"); (Unauthenticated, "16")].

#[export] Instance StatusCode_eq_dec : EqDecision StatusCode.
Proof. solve_decision. Defined.

Definition status_name (c : StatusCode) : string :=
  default "2" (snd <$> (list_find (fun x => x.1 = c) status_names ≫= fun x => Some x.2)).
Definition status_named (s : string) : StatusCode :=
  default Unknown (fst <$> (list_find (fun x => x.2 = s) status_names ≫= fun x => Some x.2)).

Lemma status_named_name c : status_named (status_name c) = c.
Proof. by destruct c. Qed.

Definition exceeds (limit : option N) (s : bytes) : bool :=
  match limit with Some l => l <? nlen s | None => false end.

Definition plain_respond {Resp} `{ProstMessage Resp} (r : result Status Resp) : HttpResponse :=
  match r with
  | Ok resp => MkHttpResponse 200 [("grpc-status", "0")] (encode_to_vec resp)
  | Err st =>
      MkHttpResponse 200 [("grpc-status", status_name (st_code st)); ("grpc-message", st_message st)] []
  end.

Definition plain_receive {Resp} `{ProstMessage Resp} (limit : option N) (r : result string HttpResponse) :
    result Status Resp :=
  match r with
  | Err e => Err (MkStatus Unavailable e)
  | Ok r =>
      let headers := list_to_map (http_headers r) : gmap string string in
      match status_named (default "0" (headers !! "grpc-status")) with
      | StatusOk =>
          if exceeds limit (resp_message r) then Err (MkStatus OutOfRange "message too large")
          else match decode (resp_message r) with
               | Some m => Ok m
               | None => Err (MkStatus Internal "failed to decode")
               end
      | c => Err (MkStatus c (default "" (headers !! "grpc-message")))
      end
  end.

Record PlainClient (T : Type) : Type := MkPlainClient {
  pc_inner : T;
  pc_decoding : option N;
  pc_encoding : option N;
}.
Arguments MkPlainClient {T}.
Arguments pc_inner {T}.
Arguments pc_decoding {T}.
Arguments pc_encoding {T}.

Definition plain_client_unary {W T Req Resp} `{GrpcService W T, ProstMessage Req, ProstMessage Resp}
    (c : PlainClient T) (m : Req) (path : string) : M W (result Status Resp) :=
  if exceeds (pc_encoding c) (encode_to_vec m) then ret (Err (MkStatus OutOfRange "message too large"))
  else let* r := service_call (pc_inner c) (MkHttpRequest path (encode_to_vec m)) in
       ret (plain_receive (pc_decoding c) r).

Definition plain_server_unary {W Req Resp} `{ProstMessage Req, ProstMessage Resp}
    (limits : option N * option N) (method : Req -> M W (result Status Resp)) (req : HttpRequest) :
    M W HttpResponse :=
  if exceeds limits.1 (req_message req) then
    ret (plain_respond (Resp := Resp) (Err (MkStatus OutOfRange "message too large")))
  else match decode (req_message req) with
       | None => ret (plain_respond (Resp := Resp) (Err (MkStatus Internal "failed to decode")))
       | Some m =>
           let* r := method m in
           ret (plain_respond
                  (match r with
                   | Ok resp => if exceeds limits.2 (encode_to_vec resp)
                                then Err (MkStatus OutOfRange "message too large") else Ok resp
                   | Err st => Err st
                   end))
       end.

(** No encoding is known; nothing is compressed. *)
#[export] Instance PlainTonic : Tonic := {|
  CompressionEncoding := Empty_set;
  EnabledCompressionEncodings := unit;
  no_encodings := tt;
  enable := fun _ e => e;
  InterceptedService := fun T F => (T * F)%type;
  intercepted_new := fun T F t f => (t, f);
  ClientGrpc := PlainClient;
  Uri := string;
  client_origin := fun T t _ => MkPlainClient t (Some default_decoding_limit) None;
  client_new := fun T t => MkPlainClient t (Some default_decoding_limit) None;
  client_send_compressed := fun T _ c => c;
  client_accept_compressed := fun T _ c => c;
  client_max_decoding := fun T l c => MkPlainClient (pc_inner c) (Some l) (pc_encoding c);
  client_max_encoding := fun T l c => MkPlainClient (pc_inner c) (pc_decoding c) (Some l);
  client_ready := fun W T _ c => poll_ready (pc_inner c);
  client_unary := @plain_client_unary;
  ServerGrpc := option N * option N;
  server_new := (Some default_decoding_limit, None);
  apply_compression_config := fun _ _ g => g;
  server_max_decoding := fun l g => (Some l, g.2);
  server_max_encoding := fun l g => (g.1, Some l);
  server_unary := @plain_server_unary;
|}.

#[export] Instance PlainTonicLaws : TonicLaws.
Proof.
  refine {| respond := @plain_respond;
            receive := fun Resp _ => plain_receive (Some default_decoding_limit) |}.
  - done.
  - done.
  - intros Resp P resp Hle. cbn. rewrite (proj2 (N.ltb_ge _ _)) by done. by rewrite decode_encode.
  - intros Resp P resp Hlt. cbn. rewrite (proj2 (N.ltb_lt _ _)) by done. by eexists.
  - intros Resp P [c msg] Hc. destruct c; try done; reflexivity.
  - intros Resp P e. by eexists.
  - intros Resp P r Hr. unfold plain_receive. rewrite Hr. eexists. reflexivity.
  - intros W Req Resp P1 P2 method path body m w Hle Hm. cbn. unfold plain_server_unary. cbn.
    rewrite (proj2 (N.ltb_ge _ _)) by done. rewrite Hm. unfold bind, ret.
    by destruct (method m w) as [[[]|] w'].
  - intros W Req Resp P1 P2 method path body w Hlt. cbn. unfold plain_server_unary. cbn.
    rewrite (proj2 (N.ltb_lt _ _)) by done. by eexists.
Defined.

(** Bytes take a byte each at least. *)
#[export] Instance PlainVerbatim : BytesVerbatim (H := PlainMessages).
Proof.
  split.
  - intros [t l i lt o d dn]. unfold nlen. cbn. rewrite !length_app. pose proof (put_list_length d). lia.
  - intros [t l pi pt es c] e He. unfold nlen. cbn in *. rewrite !length_app.
    pose proof (put_list_elem es e He) as Hle. destruct e as [et ei ed ety]. cbn in *.
    rewrite !length_app in Hle. pose proof (put_list_length ed). lia.
Qed.

(** A network that calls the peer's server: a channel is the handler behind it. *)
Section network.
Context {W Hd : Type} `{RaftMessageHandler W Hd}.

Definition plain_net : GrpcService W Hd := {|
  poll_ready := fun _ => ret (Ok tt);
  service_call := fun h hr w =>
    match server_call (RM := PlainMessages) (RaftGrpcServer_new h) hr w with
    | (Done resp, w') => (Done (Ok resp), w')
    | (Panicked, w') => (Done (Err "connection closed"), w')
    end;
|}.

Lemma plain_net_connected h : connected (RM := PlainMessages) plain_net h h.
Proof.
  split; [done|]. intros hr w. cbn.
  destruct (server_call (RaftGrpcServer_new h) hr w) as [[r|] w']; by eexists.
Qed.

Lemma plain_net_delivers h : delivers (RM := PlainMessages) plain_net h h.
Proof.
  split; [by eexists|]. intros hr w. right. cbn.
  destruct (server_call (RaftGrpcServer_new h) hr w) as [[r|] w']; by eexists.
Qed.
End network.

(** ** The theorems of [Grpc] over it *)

Section examples.
Local Existing Instance dev_profile.
#[local] Existing Instances MemStorage MemStorage_log MemStorage_durable PlainMessages.

Abbreviation Nodes := (gmap NodeId (RaftNodeInner MemStorageInner)).

Definition status_text (st : Status) : string := st_message st.

(** Every node's channel, under its id. *)
Definition ex_pool : RaftGrpcClient := {[1 := 1; 2 := 2; 3 := 3]}.

Definition PlainTransport : NetworkTransport Nodes :=
  RaftGrpcTransport status_text plain_net ex_pool.

Lemma ex_leads : leads_to_nodes (Channel := NodeId) plain_net ex_pool.
Proof.
  intros peer ch. unfold ex_pool, RaftGrpcClient. rewrite !lookup_insert_Some, lookup_singleton_Some.
  intros Hp. assert (ch = peer) as -> by naive_solver.
  apply plain_net_delivers.
Qed.

Lemma grpc_calls_handler_witness :
  send_append_entries (NetworkTransport := PlainTransport) 2 ex_append {[2 := ex_node]} =
    (Done (Ok (MkAppendEntriesResponse 4 true 0 0)), {[2 := (on_append_entries ex_append ex_node).2]}).
Proof.
  destruct (grpc_calls_handler (W := Nodes) (Hd := NodeRef) (Channel := NodeRef) status_text plain_net
              ex_pool 2 2 2) as [Ha _]; [reflexivity|apply plain_net_connected|].
  apply (Ha ex_append (Ok (MkAppendEntriesResponse 4 true 0 0))).
  - vm_compute. discriminate.
  - vm_compute. reflexivity.
  - intros resp [= <-]. vm_compute. discriminate.
Defined.

(** A snapshot of one byte more than the limit. *)
Definition large_data : bytes := replicate (N.to_nat 4194305) x00.
Lemma large_data_length : default_decoding_limit < nlen large_data.
Proof. unfold nlen, large_data, default_decoding_limit. rewrite length_replicate. lia. Qed.

Definition ex_holder : RaftNodeInner MemStorageInner :=
  MkNode (MkSM 1 (Some 1) Leader 3 3 (Some 1) {[2 := MkProgress 1 0 false]} ∅) ex_config
    (MemStorage_with_snapshot (MkSnapshot large_data (MkSnapshotMeta 3 2 [1; 2]))) [] None [].

#[local] Opaque large_data.

Lemma oversized_blocks_peer_witness :
  exists e n', replicate_to 2 ex_holder = (Done tt, n') /\ effects n' = [e] /\
    run_task (H := PlainTransport) e {[2 := ex_node]} = (Done None, {[2 := ex_node]}).
Proof.
  destruct (oversized_blocks_peer status_text ex_holder 2 (MkProgress 1 0 false)
              (plain_net (W := Nodes)) ex_pool 2 2)
    as (e & n' & Hr & He & _ & _ & Hrun).
  - split; [by intros j e|reflexivity].
  - reflexivity.
  - cbn. lia.
  - reflexivity.
  - reflexivity.
  - left. split; [cbn; lia|]. eexists. split; [reflexivity|]. exact large_data_length.
  - reflexivity.
  - apply plain_net_delivers.
  - exists e, n'. split; [exact Hr|]. split; [exact He|]. apply Hrun.
Defined.

(** Node 1 starts an election; its request for node 2's vote goes over the
    wire, and the vote comes back. *)
Definition ex_asking : World MemStorageInner :=
  MkWorld (alter (fun n => (handle InElectionTimeout n).2) 1 (replicas ex_world)) [].

Definition ex_asked : Effect :=
  SpawnRequestVote 2 (MkRequestVoteRequest 1 1 0 0 false).

Definition ex_vote : NodeId * RaftMessage := (1, VoteResponse 2 (MkRequestVoteResponse 1 true)).

Definition ex_voted : World MemStorageInner :=
  MkWorld (run_task (H := PlainTransport) ex_asked (replicas ex_asking)).2 [ex_vote].

Lemma ex_grpc_run :
  grpc_steps status_text (Channel := NodeRef) fresh_votes ex_world ex_voted /\
  exists n, replicas ex_voted !! 2 = Some n /\ voted_for (sm n) = Some 1.
Proof.
  split; [|eexists; split; vm_compute; reflexivity].
  set (n1 := ex_start 1 [2; 3]).
  assert (replicas ex_world !! 1 = Some n1) as H1 by (vm_compute; reflexivity).
  assert (ex_asking = MkWorld (<[1 := (handle InElectionTimeout n1).2]> (replicas ex_world)) []) as Ha.
  { unfold ex_asking. by rewrite (alter_alt_Some _ _ _ n1). }
  eapply gss_step; [eapply gss_step; [constructor|]|].
  - apply (gs_own _ _ ex_world 1 n1 InElectionTimeout); [exact H1|done|reflexivity].
  - change (inbox ex_world) with (@nil (NodeId * RaftMessage)). rewrite <- Ha.
    assert (exists m, replicas ex_asking !! 1 = Some m /\ ex_asked ∈ effects m) as (m & Hm & He).
    { eexists. split; [vm_compute; reflexivity|]. apply (list_elem_of_lookup_2 _ 2%nat). reflexivity. }
    apply (gs_task _ _ ex_asking 1 m ex_asked (Some ex_vote.2) _ plain_net ex_pool Hm).
    + exact He.
    + apply ex_leads.
    + by intros peer i n [= <- <-] _.
    + unfold ex_asked. vm_compute. reflexivity.
Qed.

Lemma grpc_refines_world_witness :
  exists box n, ex_vote ∈ box /\
    world_steps fresh_votes ex_world (MkWorld (replicas ex_voted) box) /\
    replicas ex_voted !! 2 = Some n /\ voted_for (sm n) = Some 1.
Proof.
  destruct ex_grpc_run as [Hs (n & Hn & Hv)].
  destruct (grpc_refines_world status_text fresh_votes ex_world ex_voted [] Hs ltac:(done)) as (box & Hb & Hw).
  exists box, n. split; [apply Hb; by left|]. split; [exact Hw|]. split; [exact Hn|exact Hv].
Defined.
End examples.
